(* ===== verification/_CoqProject ===== *)
-Q . S2P
Prelude.v
GoErrors.v
Codec.v
Text.v
Validation.v
Keys.v
Number.v
Json.v
JsonFacts.v
JsonRoundtrip.v
Document.v
Base64.v
IndexValue.v
Mime.v
Patch.v
Locks.v
Serial.v
Host.v
Crypto.v
Wp.v
Conn.v
Bulk.v
BulkFacts.v
Store.v
StoreRep.v
StoreReads.v
StoreSpec.v
StoreBulk.v
StoreLists.v
Range.v
StoreRange.v
ExportFacts.v
Cursor.v
Query.v
PathText.v
QueryFacts.v
QueryRuns.v
Url.v
DbRequest.v
Flags.v
Config.v
Api.v
Slots.v
Routes.v
Main.v
RouteFacts.v
ApiFacts.v
ApiSpec.v
ApiRuns.v
BulkRuns.v
Serving.v
Shared.v
Footprint.v
Concurrent.v
Patterns.v
OpenApi.v
Conforms.v
Draws.v
Sim.v
StoreTheorems.v
RangeTheorems.v
CryptoTheorems.v
CursorTheorems.v
QueryTheorems.v
BulkTheorems.v
SimApi.v
ApiTheorems.v
MainTheorems.v
ConcurrentTheorems.v
