(* ===== verification/Prelude.v ===== *)
(** * KantanDB server: a verification development

    The program (src/, package main) is a document database over HTTP: JSON
    documents in named databases, encrypted in a Pebble key-value store, with
    indexes, conditional updates, JSON Patch, path queries and bulk transfer.

    ** The program's parts and their files

    - storage.go, the store: [Store] has one function per method of [*store], with
      the batches and Pebble calls in the order of the code; it is what runs inside
      the locks.  [Locks] has the striped locks around the accesses of every
      operation, as threads of a step relation, and [Serial] their interleavings.
    - crypto.go, format.go, document.go: [Crypto], record formats, key derivation,
      opening a store, document records.
    - index.go: [Number] and [IndexValue] encode JSON scalars as sortable bytes;
      [Keys] lays out keys; [Range] queries the index.
    - id.go, validation.go: [Validation] (names, IDs, ETags, If-Match, bodies), and
      [Document] ([validateDoc]) on [Json], a model of encoding/json.
    - query_cursor.go, path_cursor.go: [Cursor].  query.go: [Query].
    - patch.go: [Patch], with [Mime].  bulk.go: [Bulk], over the response
      connection of [Conn].
    - server.go: [Url] and [DbRequest] read requests, [Api] has a function per
      handler, [Slots] the slots of bulk requests, [Routes] the route table and what
      wraps it, ending in [serve], the whole answer to a request.
    - openapi.yaml, the published description of the API: [OpenApi].
    - config.go: [Config] on [Flags].  main.go, version.go: [Main], ending in [run],
      one run of the server on a data directory, and [main].

    The Go library the code uses is written out where its results matter: [Codec]
    (encoding/binary), [Text] (hex, strconv, strings, utf8), [Json], [Base64],
    [Mime], [Url], [Flags], the matching of [http.ServeMux] in [Routes], and error
    trees in [GoErrors].  Integers are [Z] with their bounds or wrap-around
    written out, bytes are [list byte], a Go map with an order is a sorted list.

    ** Interfaces

    What is not under src/ is a class, and its documented behaviour another:
    - [Host], [HostSpec]: Pebble, the random source, the clock, the request's
      context.  A call takes the state of the world to a result and a new state; it
      may fail at any time, and a failing commit may or may not have taken effect.
      [Shared] has the hosts of operations that share a store, each with an
      environment [Env] of its own for what is not in the store.
    - [Conn], [ConnSpec]: the connection a response is written to.
    - [Crypto], [CryptoSpec]: AES-GCM, HKDF, SHA-256, Zstandard.  No secrecy is
      claimed; authenticity is stated as what opens was sealed.
    - [JSONPath], [JSONPathSpec]: the JSONPath library; for its standard parts only.
    - [JSONPatch]: the patch library, without laws.
    - [FreshDraws]: random draws that avoid a given set, for liveness.
    [Sim] and [SimApi] give instances of all of them, on which the program runs, and
    on which every theorem with hypotheses is applied.

    ** The specification and what is shown

    The abstract state of a store ([StoreRep]) is a map from database names to a
    key, index definitions and a map of documents; [store_rep] relates it to the
    keys and values in Pebble, index entries and encryption included.  Code is
    specified by [reads] and [triple] ([Wp]), over the store by [runs] and
    [observes] ([StoreSpec]), and handlers by [answers] ([ApiFacts]).  Each says what
    holds on success, on each error with its cause, and after an outside failure.

    - Server ([ApiTheorems] on [RouteFacts], [ApiSpec], [ApiRuns], [BulkRuns],
      [Serving], [Draws]): [serve] refines [serveSpec], the API in terms of the
      abstract state; every reachable state represents databases of canonical
      documents; errors and reads change nothing; a created document reads back;
      no update is lost; an export can be imported; routing; every request is
      answered; every answer is one that the description of the API has
      ([Conforms] on [OpenApi]).
    - Process ([MainTheorems]): the invariant holds from one run to the next, under
      the one master key, whatever the arguments and the ends of the runs; [Config]
      has the limits a command line can set.
    - Store ([StoreTheorems] on [StoreReads], [StoreSpec], [StoreBulk],
      [StoreLists]): each operation is atomic and does what it promises.
    - Queries ([RangeTheorems], [QueryTheorems], [CursorTheorems] on [StoreRange],
      [QueryFacts], [QueryRuns]): pages are the first matches in order, following
      cursors loses and repeats nothing, an index answers as a scan does, cursors
      round-trip and cannot be made up.
    - Records ([CryptoTheorems]): opening and reopening, round trips, no record is
      accepted in another place.
    - Encodings ([IndexValue], [Keys], [Document] on [JsonFacts], [JsonRoundtrip]):
      the order of encoded values is the order of numbers and strings, keys of
      different things do not meet, [validateDoc] is a canonical form.
    - Bulk ([BulkTheorems] on [BulkFacts], [ExportFacts]): the reader in fragments
      agrees with one on whole lines.
    - Concurrency ([Locks], [Serial], [ConcurrentTheorems] on [Shared], [Footprint],
      [Concurrent]): mutual exclusion in every reachable state and termination;
      serializability, first of any accesses that commute and then of the code: each
      operation of [Store], [Range] and [Query] touches only the keys its plan in
      [Locks] accesses, those of accesses that do not depend on each other are apart,
      and a run of operations leaves what they leave one after another, and answers
      them so.  [Slots]: bulk requests never exceed their limit, and always give back
      their slots.

    ** Fuel

    Every recursion of the code is structural here or has a measure that is shown to
    be enough (the JSON reader takes the length of its input), except the loops that
    draw an ID or a revision until it is new: [createDoc], [makeRevision], the IDs of
    an import.  These take a number of rounds.  The theorems that are not of
    liveness state that running out has no effect on the store; [serve_responds]
    states that any positive number is enough when the draws are new.

    ** Not modelled

    - The interleaving of whole handlers: [Store] and [serve] run one request at a
      time.  [store_serialize] justifies this for the operations of the store, which
      there see the keys when they access them ([Locks.access]): a read of documents
      without their locks is one access, as it goes through one Get, iterator or
      snapshot of Pebble, whose consistency is Pebble's.  It is about operations that
      make all their accesses, one that fails doing nothing in the later ones; those
      that an error ends earlier are in [locks_serialize].  An import is there from
      the draw of its IDs on ([importWith]).  A handler that calls several operations
      is not one step, and the listing of databases, which is one scan, takes no lock.
      [Slots] has the bulk requests that run at the same time; to [serve] the
      slots that others hold are a number it finds ([ap_busySlots]).
    - net/http beyond the matching of routes: connections, header limits, timeouts,
      the signals and the shutdown, which are the [ending] of a run; responses are
      status, header and body.
    - Log records, the texts of errors that are only printed, and the clearing of
      keys in memory, which has no counterpart in values.
    - The two constructors that only tests use ([newHandler], [newAPI]). *)

From Stdlib Require Export ZArith Lia.
From Stdlib Require Export Strings.Byte.
From Stdlib Require Import Strings.String.
From stdpp Require Export prelude gmap list strings sorting.

#[global] Open Scope Z_scope.

(** ** Bytes and Go strings

    A Go [byte] is [Byte.byte]; a Go [string] and a Go [[]byte] are both lists
    of bytes.  [b2z] and [z2b] are the conversions [int(b)] and [byte(z)], the
    latter truncating modulo 256 as Go does. *)

Abbreviation byte := Byte.byte.
Abbreviation bytes := (list Byte.byte).

Definition b2z (b : byte) : Z := Z.of_N (Byte.to_N b).

Definition z2b (z : Z) : byte :=
  match Byte.of_N (Z.to_N (z mod 256)) with
  | Some b => b
  | None => x00
  end.

(** [len(s)] of a slice or a string. *)
Definition len {A} (l : list A) : Z := Z.of_nat (length l).

(** A Go string literal. *)
Definition str (s : string) : bytes := String.list_byte_of_string s.

Lemma b2z_range b : 0 <= b2z b < 256.
Proof.
  unfold b2z. pose proof (Byte.to_N_bounded b). lia.
Qed.

Lemma b2z_inj b1 b2 : b2z b1 = b2z b2 -> b1 = b2.
Proof.
  unfold b2z. intros H%N2Z.inj.
  pose proof (Byte.of_to_N b1) as E1. pose proof (Byte.of_to_N b2) as E2.
  rewrite H in E1. congruence.
Qed.

Lemma b2z_z2b z : b2z (z2b z) = z mod 256.
Proof.
  unfold b2z, z2b.
  pose proof (Z.mod_pos_bound z 256 ltac:(lia)) as Hb.
  destruct (Byte.of_N (Z.to_N (z mod 256))) eqn:E.
  - apply Byte.to_of_N in E. rewrite E, Z2N.id; lia.
  - apply Byte.of_N_None_iff in E. lia.
Qed.

Lemma z2b_b2z b : z2b (b2z b) = b.
Proof.
  apply b2z_inj. rewrite b2z_z2b. apply Z.mod_small, b2z_range.
Qed.

Lemma b2z_z2b_small z : 0 <= z < 256 -> b2z (z2b z) = z.
Proof. intros. rewrite b2z_z2b. by apply Z.mod_small. Qed.

#[global] Instance byte_eq_dec : EqDecision byte := Byte.byte_eq_dec.

Definition byte_of_N (n : N) : byte := default x00 (Byte.of_N n).

Lemma byte_of_to_N b : byte_of_N (Byte.to_N b) = b.
Proof. unfold byte_of_N. by rewrite Byte.of_to_N. Qed.

#[global] Instance byte_countable : Countable byte :=
  inj_countable' Byte.to_N byte_of_N byte_of_to_N.

(** Comparisons of bytes, as Go's operators on [byte]. *)
Definition bleb (a b : byte) : bool := b2z a <=? b2z b.
Definition beqb (a b : byte) : bool := b2z a =? b2z b.

Lemma beqb_eq a b : beqb a b = true <-> a = b.
Proof.
  unfold beqb. rewrite Z.eqb_eq. split; [apply b2z_inj | by intros ->].
Qed.

Lemma beqb_spec a b : reflect (a = b) (beqb a b).
Proof. apply iff_reflect. symmetry. apply beqb_eq. Qed.

Lemma beqb_refl a : beqb a a = true.
Proof. by apply beqb_eq. Qed.

Lemma len_nonneg {A} (l : list A) : 0 <= len l.
Proof. unfold len. lia. Qed.

Lemma len_nil {A} : len (@nil A) = 0.
Proof. done. Qed.

Lemma len_cons {A} (x : A) l : len (x :: l) = 1 + len l.
Proof. unfold len. rewrite length_cons. lia. Qed.

Lemma len_app {A} (l1 l2 : list A) : len (l1 ++ l2) = len l1 + len l2.
Proof. unfold len. rewrite length_app. lia. Qed.

Lemma len_0_nil {A} (l : list A) : len l = 0 -> l = [].
Proof. destruct l; [done|]. rewrite len_cons. pose proof (len_nonneg l). lia. Qed.

(** ** The order of byte strings

    [bcmp] is Go's [bytes.Compare], the order Pebble keeps its keys in. *)

Fixpoint bcmp (a b : bytes) : comparison :=
  match a, b with
  | [], [] => Eq
  | [], _ :: _ => Lt
  | _ :: _, [] => Gt
  | x :: a', y :: b' =>
      match b2z x ?= b2z y with
      | Eq => bcmp a' b'
      | c => c
      end
  end.

Definition blt (a b : bytes) : Prop := bcmp a b = Lt.
Definition ble (a b : bytes) : Prop := bcmp a b <> Gt.
Definition bltb (a b : bytes) : bool := match bcmp a b with Lt => true | _ => false end.

Declare Scope bytes_scope.
Delimit Scope bytes_scope with bytes.
Infix "<b" := blt (at level 70) : bytes_scope.
Infix "<=b" := ble (at level 70) : bytes_scope.
#[global] Open Scope bytes_scope.

#[global] Instance blt_dec a b : Decision (a <b b).
Proof. unfold blt. solve_decision. Defined.
#[global] Instance ble_dec a b : Decision (a <=b b).
Proof. unfold ble. solve_decision. Defined.

Lemma bcmp_refl a : bcmp a a = Eq.
Proof. induction a as [|x a IH]; simpl; [done|]. by rewrite Z.compare_refl. Qed.

Lemma bcmp_eq a b : bcmp a b = Eq <-> a = b.
Proof.
  split; [|intros ->; apply bcmp_refl].
  revert b. induction a as [|x a IH]; intros [|y b]; simpl; try done.
  destruct (Z.compare_spec (b2z x) (b2z y)) as [E|E|E]; try done.
  intros H. f_equal; [by apply b2z_inj | by apply IH].
Qed.

Lemma bcmp_antisym a b : bcmp b a = CompOpp (bcmp a b).
Proof.
  revert b. induction a as [|x a IH]; intros [|y b]; simpl; try done.
  rewrite (Z.compare_antisym (b2z x) (b2z y)).
  destruct (b2z x ?= b2z y); simpl; auto.
Qed.

Lemma bcmp_app_same p a b : bcmp (p ++ a) (p ++ b) = bcmp a b.
Proof. induction p as [|x p IH]; simpl; [done|]. by rewrite Z.compare_refl. Qed.

Lemma bcmp_gt_lt a b : bcmp a b = Gt <-> b <b a.
Proof. unfold blt. rewrite (bcmp_antisym a b). destruct (bcmp a b); naive_solver. Qed.

Lemma ble_lt_eq a b : a <=b b <-> a <b b \/ a = b.
Proof. unfold ble, blt. rewrite <- bcmp_eq. destruct (bcmp a b); naive_solver. Qed.

Lemma blt_not_ble a b : a <b b <-> ~ b <=b a.
Proof.
  unfold ble. split.
  - intros H HN. apply HN. by apply bcmp_gt_lt.
  - intros H. apply bcmp_gt_lt. destruct (bcmp b a) eqn:E; naive_solver.
Qed.

Lemma bltb_lt a b : bltb a b = true <-> a <b b.
Proof. unfold bltb, blt. destruct (bcmp a b); naive_solver. Qed.

#[global] Instance blt_trans : Transitive blt.
Proof.
  unfold blt. intros a. induction a as [|x a IH]; intros [|y b] [|z c]; simpl; try done.
  intros H1 H2.
  destruct (Z.compare_spec (b2z x) (b2z y)), (Z.compare_spec (b2z y) (b2z z)),
    (Z.compare_spec (b2z x) (b2z z)); try done; try lia.
  by eapply IH.
Qed.

#[global] Instance blt_irrefl : Irreflexive blt.
Proof. intros a. unfold complement, blt. by rewrite bcmp_refl. Qed.

#[global] Instance blt_strict : StrictOrder blt.
Proof. split; apply _. Qed.

#[global] Instance blt_trichotomy : TrichotomyT blt.
Proof.
  intros a b. destruct (bcmp a b) eqn:E.
  - left. right. by apply bcmp_eq.
  - left. by left.
  - right. by apply bcmp_gt_lt.
Defined.

#[global] Instance ble_refl : Reflexive ble.
Proof. intros a. apply ble_lt_eq. by right. Qed.

#[global] Instance ble_trans : Transitive ble.
Proof.
  intros a b c. rewrite !ble_lt_eq. intros [H1| ->] [H2| ->]; auto.
  left. by etrans.
Qed.

Lemma blt_le_trans a b c : a <b b -> b <=b c -> a <b c.
Proof. rewrite ble_lt_eq. intros H [H2| <-]; [by etrans | done]. Qed.

Lemma ble_lt_trans a b c : a <=b b -> b <b c -> a <b c.
Proof. rewrite ble_lt_eq. intros [H| ->] H2; [by etrans | done]. Qed.

#[global] Instance ble_antisymm : AntiSymm (=) ble.
Proof.
  intros a b. rewrite !ble_lt_eq. intros [H1| ->]; [|done]. intros [H2| ->]; [|done].
  destruct (irreflexivity blt a). by etrans.
Qed.

#[global] Instance ble_total : Total ble.
Proof.
  intros a b. rewrite !ble_lt_eq. destruct (trichotomyT blt a b) as [[?| ->]|?]; auto.
Qed.

(** A prefix comes first; two strings neither of which is a prefix of the
    other are ordered by where they differ, whatever follows. *)

Lemma ble_app_r p x : p <=b p ++ x.
Proof.
  unfold ble. rewrite <- (app_nil_r p) at 1. rewrite bcmp_app_same. by destruct x.
Qed.

Lemma blt_app_same p a b : p ++ a <b p ++ b <-> a <b b.
Proof. unfold blt. by rewrite bcmp_app_same. Qed.

Lemma ble_app_same p a b : p ++ a <=b p ++ b <-> a <=b b.
Proof. unfold ble. by rewrite bcmp_app_same. Qed.

Lemma bcmp_not_prefix a b x y :
  ~ a `prefix_of` b -> ~ b `prefix_of` a -> bcmp (a ++ x) (b ++ y) = bcmp a b.
Proof.
  revert b. induction a as [|c a IH]; intros [|d b] Ha Hb; simpl.
  - destruct Ha. by exists [].
  - destruct Ha. by exists (d :: b).
  - destruct Hb. by exists (c :: a).
  - destruct (Z.compare_spec (b2z c) (b2z d)) as [E|E|E]; [|done|done].
    apply b2z_inj in E as ->. apply IH.
    + intros [k ->]. apply Ha. by exists k.
    + intros [k ->]. apply Hb. by exists k.
Qed.

(** A strictly increasing list is determined by its elements. *)

Lemma ssorted_unique {A} (R : relation A) `{!StrictOrder R} (l1 l2 : list A) :
  StronglySorted R l1 -> StronglySorted R l2 -> (forall x, x ∈ l1 <-> x ∈ l2) -> l1 = l2.
Proof.
  intros S1. revert l2. induction S1 as [|x l1 S1 IH F1]; intros l2 S2 Hiff.
  - destruct l2 as [|y l2]; [done|].
    pose proof (proj2 (Hiff y)) as H. set_solver.
  - destruct S2 as [|y l2 S2 F2].
    { pose proof (proj1 (Hiff x)) as H. set_solver. }
    rewrite Forall_forall in F1, F2.
    assert (x = y) as ->.
    { pose proof (proj1 (Hiff x)) as Hx. pose proof (proj2 (Hiff y)) as Hy.
      specialize (Hx ltac:(left)). specialize (Hy ltac:(left)).
      apply elem_of_cons in Hx as [?|Hx]; [done|].
      apply elem_of_cons in Hy as [?|Hy]; [done|].
      apply F2 in Hx. apply F1 in Hy. destruct (irreflexivity R x). by etrans. }
    f_equal. apply IH; [done|]. intros k. split; intros Hk.
    + pose proof (proj1 (Hiff k) ltac:(by right)) as H.
      apply elem_of_cons in H as [->|?]; [|done].
      apply F1 in Hk. by destruct (irreflexivity R y).
    + pose proof (proj2 (Hiff k) ltac:(by right)) as H.
      apply elem_of_cons in H as [->|?]; [|done].
      apply F2 in Hk. by destruct (irreflexivity R y).
Qed.

Lemma ssorted_filter {A} (R : relation A) (P : A -> Prop) `{!forall x, Decision (P x)} l :
  StronglySorted R l -> StronglySorted R (filter P l).
Proof.
  induction 1 as [|x l HS IH HF]; [constructor|]. rewrite filter_cons. case_decide; [|done].
  constructor; [done|]. rewrite Forall_forall in HF. apply Forall_forall. intros y Hy.
  apply HF. apply list_elem_of_filter in Hy. apply Hy.
Qed.

(** Elements ordered by a byte string key. *)
Definition keyed {A} (f : A -> bytes) : relation A := fun a b => f a <b f b.

#[global] Instance keyed_strict {A} (f : A -> bytes) : StrictOrder (keyed f).
Proof. split; [intros a; apply (irreflexivity blt)|intros a b c; unfold keyed; apply transitivity]. Qed.

Lemma ssorted_map {A B} (R : relation A) (S : relation B) (f : A -> B) l :
  (forall a b, a ∈ l -> b ∈ l -> R a b -> S (f a) (f b)) ->
  StronglySorted R l -> StronglySorted S (map f l).
Proof.
  intros HR HS. induction HS as [|a l HS IH HF]; simpl; constructor.
  - apply IH. intros. apply HR; set_solver.
  - rewrite Forall_forall in HF. apply Forall_forall. intros y Hy.
    apply list_elem_of_fmap in Hy as (x & -> & Hx). apply HR; set_solver.
Qed.

Lemma Forall_exists_map {A B} (f : A -> B) (P : A -> Prop) l :
  (forall y, y ∈ l -> exists x, P x /\ y = f x) -> exists xs, l = map f xs /\ Forall P xs.
Proof.
  induction l as [|y l IH]; intros Hl; [by exists []|].
  destruct (Hl y) as (x & Hx & ->); [set_solver|]. destruct IH as (xs & -> & HF); [set_solver|].
  exists (x :: xs). split; [done|]. by constructor.
Qed.

Lemma bcmp_app_len a b u v :
  length a = length b ->
  bcmp (a ++ u) (b ++ v) = match bcmp a b with Eq => bcmp u v | c => c end.
Proof.
  revert b. induction a as [|x a IH]; intros [|y b] [=]; simpl; [done|].
  destruct (b2z x ?= b2z y); auto.
Qed.

(** ** Order-preserving codes

    [codeCmp c a b]: the code words [a] and [b] compare as [c], whatever follows
    them.  In particular neither is a proper prefix of the other. *)

Definition codeCmp (c : comparison) (a b : bytes) : Prop :=
  forall u v, bcmp (a ++ u) (b ++ v) = match c with Eq => bcmp u v | _ => c end.

Lemma codeCmp_refl a : codeCmp Eq a a.
Proof. intros u v. apply bcmp_app_same. Qed.

Lemma codeCmp_bcmp c a b : codeCmp c a b -> bcmp a b = c.
Proof.
  intros H. specialize (H [] []). rewrite !app_nil_r in H. rewrite H. by destruct c.
Qed.

Lemma codeCmp_then c a b u v :
  codeCmp c a b ->
  bcmp (a ++ u) (b ++ v) = match c with Eq => bcmp u v | Lt => Lt | Gt => Gt end.
Proof. intros ->. by destruct c. Qed.

Lemma codeCmp_sym c a b : codeCmp c a b -> codeCmp (CompOpp c) b a.
Proof.
  intros H u v. rewrite bcmp_antisym, H. destruct c; simpl; [|done..].
  symmetry. apply bcmp_antisym.
Qed.

Lemma codeCmp_prefix c a b k : codeCmp c a b -> b = a ++ k -> k = [].
Proof.
  intros H ->. pose proof (H k []) as H1. rewrite app_nil_r, bcmp_refl in H1.
  destruct c; [|done..]. symmetry in H1. apply bcmp_eq in H1. done.
Qed.

Lemma codeCmp_app_inj c a b u v : codeCmp c a b -> a ++ u = b ++ v -> a = b /\ u = v.
Proof.
  intros H E. pose proof (H u v) as H1. rewrite E, bcmp_refl in H1.
  destruct c; [|done..]. apply codeCmp_bcmp, bcmp_eq in H as ->.
  by apply app_inv_head in E.
Qed.

Lemma codeCmp_cons x c a b : codeCmp c a b -> codeCmp c (x :: a) (x :: b).
Proof. intros H u v. cbn [app bcmp]. by rewrite Z.compare_refl, H. Qed.

Lemma codeCmp_cons_ne x y a b :
  x <> y -> codeCmp (b2z x ?= b2z y) (x :: a) (y :: b).
Proof.
  intros Hne u v. cbn [app bcmp].
  destruct (Z.compare_spec (b2z x) (b2z y)) as [E|E|E]; [|done..]. by apply b2z_inj in E.
Qed.

(** Complementing every byte reverses the order of a code. *)
Definition bnot (b : byte) : byte := z2b (Z.lxor (b2z b) 255).

Lemma bnot_val b : b2z (bnot b) = 255 - b2z b.
Proof. by destruct b. Qed.

Lemma bnot_involutive b : bnot (bnot b) = b.
Proof. by destruct b. Qed.

Lemma codeCmp_bnot c a b :
  codeCmp c a b -> codeCmp (CompOpp c) (map bnot a) (map bnot b).
Proof.
  revert b. induction a as [|x a IH]; intros b H.
  { destruct b as [|y b]; [|by apply (codeCmp_prefix _ _ _ (y :: b)) in H].
    apply codeCmp_bcmp in H as <-. apply codeCmp_refl. }
  destruct b as [|y b].
  { apply codeCmp_sym in H. by apply (codeCmp_prefix _ _ _ (x :: a)) in H. }
  destruct (decide (x = y)) as [->|Hne].
  - simpl. apply codeCmp_cons, IH. intros u v. specialize (H u v).
    cbn [app bcmp] in H. by rewrite Z.compare_refl in H.
  - assert (c = (b2z x ?= b2z y)) as ->.
    { apply codeCmp_bcmp in H as <-. cbn [bcmp].
      destruct (Z.compare_spec (b2z x) (b2z y)) as [E|E|E]; [|done..]. by apply b2z_inj in E. }
    simpl. rewrite <- Z.compare_antisym.
    replace (b2z y ?= b2z x) with (b2z (bnot x) ?= b2z (bnot y)).
    + apply codeCmp_cons_ne. intros E. apply Hne.
      by rewrite <- (bnot_involutive x), E, bnot_involutive.
    + rewrite !bnot_val.
      destruct (Z.compare_spec (b2z y) (b2z x));
        [apply Z.compare_eq_iff|apply Z.compare_lt_iff|apply Z.compare_gt_iff]; lia.
Qed.

(** A code is prefix-free where no word extends another. *)
Lemma codeCmp_prefix_free a b :
  (forall k, b = a ++ k -> k = []) -> (forall k, a = b ++ k -> k = []) ->
  codeCmp (bcmp a b) a b.
Proof.
  intros H1 H2. destruct (decide (a = b)) as [->|Hne].
  { rewrite bcmp_refl. apply codeCmp_refl. }
  intros u v. rewrite bcmp_not_prefix.
  - destruct (bcmp a b) eqn:E; [|done..]. by apply bcmp_eq in E.
  - intros [k E]. apply Hne. rewrite E, (H1 k E). by rewrite app_nil_r.
  - intros [k E]. apply Hne. rewrite E, (H2 k E). by rewrite app_nil_r.
Qed.

Lemma sum_list_insert {A} (f : A -> nat) (l : list A) i x y :
  l !! i = Some x -> (sum_list_with f (<[i := y]> l) + f x = sum_list_with f l + f y)%nat.
Proof.
  revert i. induction l as [|a l IH]; intros [|i]; cbn [lookup list_lookup sum_list_with]; [done..| |].
  - intros [= ->]. cbn. lia.
  - intros Hi. specialize (IH i Hi). change (<[S i := y]> (a :: l)) with (a :: <[i := y]> l).
    cbn [sum_list_with]. lia.
Qed.
