(* ===== verification/GoErrors.v ===== *)
(** * Go errors

    The error values of the program.  A Go error is a tree: [fmt.Errorf] with
    [%w] and [errors.Join] wrap errors in a new one, and [errors.Is] searches
    the tree for a sentinel.  What an error prints is not modelled, what it
    [Is] is. *)

From S2P Require Import Prelude.

(** The package variables of the program ([var ( errX = errors.New(..) )] of
    storage.go, index.go, validation.go, bulk.go, patch.go, query.go,
    query_cursor.go and crypto.go), then those of the packages it calls. *)
Inductive sentinel :=
  | errDBExists | errDBNotFound | errDocExists | errDocNotFound
  | errPreconditionFailed | errCorruptData | errStoreUnavailable
  | errIndexNotFound | errInvalidIndex | errInvalidIndexValue | errUnsupportedIdxValue
  | errInvalidName | errInvalidID | errInvalidDoc | errBodyTooLarge
  | errInvalidETag | errInvalidIfMatch
  | errBulkEmpty | errBulkLimit | errBulkRead
  | errInvalidPatch | errInvalidPath | errQueryLimit
  | errInvalidQueryCursor | errInvalidStoreKey
  | pebbleErrNotFound | pebbleErrClosed | pebbleErrCorruption
  | ctxDeadlineExceeded | ctxCanceled | ioEOF | bufioErrBufferFull
  | httpErrServerClosed | httpErrNotSupported.

#[global] Instance sentinel_eq_dec : EqDecision sentinel.
Proof. solve_decision. Defined.

(** The sentinels of the packages the program calls: an error these packages
    return carries none of the program's own. *)
Definition foreign_sentinel (s : sentinel) : bool :=
  match s with
  | pebbleErrNotFound | pebbleErrClosed | pebbleErrCorruption
  | ctxDeadlineExceeded | ctxCanceled | ioEOF | bufioErrBufferFull
  | httpErrServerClosed | httpErrNotSupported => true
  | _ => false
  end.

(** [ELine] is [bulkLineError], [ECopySize] is the error type of the patch
    library that [applyPatch] asks for, [EText] is any other error. *)
Inductive error :=
  | ESentinel (s : sentinel)
  | EText
  | ECopySize
  | EWrap (es : list error)
  | ELine (line : Z) (e : error).

Coercion ESentinel : sentinel >-> error.

(** [errors.Is(e, s)]. *)
Fixpoint errorsIs (s : sentinel) (e : error) : bool :=
  match e with
  | ESentinel s' => bool_decide (s = s')
  | EText | ECopySize => false
  | EWrap es => existsb (errorsIs s) es
  | ELine _ e' => errorsIs s e'
  end.

(** [errors.AsType[*bulkLineError](e)]: the first one, depth first. *)
Fixpoint errorsAsLine (e : error) : option Z :=
  match e with
  | ELine line _ => Some line
  | EWrap es =>
      (fix go es := match es with
       | [] => None
       | e' :: es' => match errorsAsLine e' with Some l => Some l | None => go es' end
       end) es
  | _ => None
  end.

(** [errors.AsType[*jsonpatch.AccumulatedCopySizeError](e)]. *)
Fixpoint errorsAsCopySize (e : error) : bool :=
  match e with
  | ECopySize => true
  | EWrap es => existsb errorsAsCopySize es
  | ELine _ e' => errorsAsCopySize e'
  | _ => false
  end.

(** [fmt.Errorf("...: %w", e)], [fmt.Errorf("%w: ...", s)] with the second
    error printed by [%v] only, and [errors.Join(e1, e2)]. *)
Definition wrapf (e : error) : error := EWrap [e].
Definition join (e1 e2 : error) : error := EWrap [e1; e2].

(** What a Go function with an error result returns.  [OutOfFuel] is no Go
    value: it marks a retry loop cut by its bound. *)
Inductive res (A : Type) :=
  | Ok (a : A)
  | Err (e : error)
  | OutOfFuel.
Arguments Ok {A} a.
Arguments Err {A} e.
Arguments OutOfFuel {A}.

Lemma Ok_inj {A} (a b : A) : Ok a = Ok b -> a = b.
Proof. by intros [= ->]. Qed.

#[global] Instance res_ret : MRet res := fun A a => Ok a.
#[global] Instance res_bind : MBind res := fun A B f r =>
  match r with Ok a => f a | Err e => Err e | OutOfFuel => OutOfFuel end.
#[global] Instance res_fmap : FMap res := fun A B f r =>
  match r with Ok a => Ok (f a) | Err e => Err e | OutOfFuel => OutOfFuel end.

Definition is_ok {A} (r : res A) : bool :=
  match r with Ok _ => true | _ => false end.

(** [if err != nil { return wrap(err) }]. *)
Definition map_err {A} (f : error -> error) (r : res A) : res A :=
  match r with Err e => Err (f e) | _ => r end.

(** [if cond { return err }] before the rest of a function. *)
Definition guard_err {A} (fails : bool) (e : error) (k : res A) : res A :=
  if fails then Err e else k.

(** An error that comes from outside the program. *)
Definition foreign (e : error) : Prop :=
  (forall s, foreign_sentinel s = false -> errorsIs s e = false) /\ errorsAsLine e = None.

(** What the program makes of such errors: it marks them as a failure of the
    store or as corrupt data, never as anything else. *)
Definition fault_sentinel (s : sentinel) : bool :=
  foreign_sentinel s || bool_decide (s = errStoreUnavailable) || bool_decide (s = errCorruptData).

Definition outside (e : error) : Prop :=
  (forall s, fault_sentinel s = false -> errorsIs s e = false) /\ errorsAsLine e = None.

Lemma errorsIs_wrapf s e : errorsIs s (wrapf e) = errorsIs s e.
Proof. simpl. apply orb_false_r. Qed.

Lemma errorsIs_join s e1 e2 : errorsIs s (join e1 e2) = errorsIs s e1 || errorsIs s e2.
Proof. simpl. by rewrite orb_false_r. Qed.

Lemma errorsIs_line s n e : errorsIs s (ELine n e) = errorsIs s e.
Proof. done. Qed.

Lemma errorsIs_sentinel (s s' : sentinel) : errorsIs s s' = bool_decide (s = s').
Proof. done. Qed.

Lemma errorsAsLine_wrapf e : errorsAsLine (wrapf e) = errorsAsLine e.
Proof. simpl. by destruct (errorsAsLine e). Qed.

Lemma errorsAsLine_join e1 e2 :
  errorsAsLine (join e1 e2) = match errorsAsLine e1 with Some l => Some l | None => errorsAsLine e2 end.
Proof. simpl. destruct (errorsAsLine e1); [done|]. by destruct (errorsAsLine e2). Qed.

Lemma foreign_wrapf e : foreign e -> foreign (wrapf e).
Proof.
  intros [H Hl]. split; [|by rewrite errorsAsLine_wrapf].
  intros s Hs. rewrite errorsIs_wrapf. auto.
Qed.

Lemma foreign_text : foreign EText.
Proof. done. Qed.

Lemma foreign_foreign_sentinel (s : sentinel) : foreign_sentinel s = true -> foreign s.
Proof.
  intros Hs. split; [|done]. intros s' Hs'. rewrite errorsIs_sentinel.
  apply bool_decide_eq_false. congruence.
Qed.

Lemma foreign_outside e : foreign e -> outside e.
Proof.
  intros [H Hl]. split; [|done]. intros s Hs. apply H. unfold fault_sentinel in Hs.
  by destruct (foreign_sentinel s).
Qed.

Lemma outside_sentinel (s : sentinel) : fault_sentinel s = true -> outside s.
Proof.
  intros Hs. split; [|done]. intros s' Hs'. rewrite errorsIs_sentinel.
  apply bool_decide_eq_false. congruence.
Qed.

Lemma outside_wrapf e : outside e -> outside (wrapf e).
Proof.
  intros [H Hl]. split; [|by rewrite errorsAsLine_wrapf].
  intros s Hs. rewrite errorsIs_wrapf. auto.
Qed.

Lemma outside_join e1 e2 : outside e1 -> outside e2 -> outside (join e1 e2).
Proof.
  intros [H1 L1] [H2 L2]. split; [|by rewrite errorsAsLine_join, L1].
  intros s Hs. by rewrite errorsIs_join, H1, H2.
Qed.

Lemma res_bind_ok {A B} (r : res A) (f : A -> res B) b :
  (r ≫= f) = Ok b <-> exists a, r = Ok a /\ f a = Ok b.
Proof. destruct r; simpl; naive_solver. Qed.

Create HintDb goerr.
Create Rewrite HintDb goerr.
#[export] Hint Rewrite errorsIs_wrapf errorsIs_join errorsIs_line errorsIs_sentinel
  errorsAsLine_wrapf errorsAsLine_join : goerr.
#[export] Hint Resolve foreign_wrapf foreign_text foreign_foreign_sentinel foreign_outside
  outside_sentinel outside_wrapf outside_join : goerr.
