(* ===== verification/Codec.v ===== *)
(** * Binary encodings

    What the program uses of [encoding/binary] (big-endian 64-bit integers and
    unsigned varints), and the length-prefixed parts of index.go built on them. *)

From S2P Require Import Prelude.
From Stdlib Require Znumtheory.

(** ** Fixed-width big-endian integers

    [binary.BigEndian.PutUint64] and [binary.BigEndian.Uint64], at width [n]. *)

Fixpoint putBE (n : nat) (x : Z) : bytes :=
  match n with
  | O => []
  | S n' => z2b (Z.shiftr x (8 * Z.of_nat n')) :: putBE n' x
  end.

Fixpoint getBE_acc (acc : Z) (b : bytes) : Z :=
  match b with
  | [] => acc
  | c :: b' => getBE_acc (Z.lor (Z.shiftl acc 8) (b2z c)) b'
  end.

Definition getBE (b : bytes) : Z := getBE_acc 0 b.

Definition putUint64 (x : Z) : bytes := putBE 8 x.
Definition getUint64 (b : bytes) : Z := getBE b.

(** ** Varints

    [binary.AppendUvarint]: seven bits a byte, low bits first, the high bit set
    on every byte but the last.  A [uint64] takes at most ten bytes, so ten
    steps always finish the loop. *)

Definition maxVarintLen64 : Z := 10.

Fixpoint appendUvarint_loop (fuel : nat) (x : Z) : bytes :=
  match fuel with
  | O => [z2b x]
  | S f =>
      if 128 <=? x then z2b (Z.lor (x mod 256) 128) :: appendUvarint_loop f (Z.shiftr x 7)
      else [z2b x]
  end.

Definition appendUvarint (b : bytes) (x : Z) : bytes := b ++ appendUvarint_loop 9 x.

(** [binary.Uvarint]: the value and the number of bytes read, zero when the
    buffer ends too soon, negative when the value overflows 64 bits. *)
Fixpoint uvarint_loop (buf : bytes) (i s x : Z) : Z * Z :=
  match buf with
  | [] => (0, 0)
  | b :: buf' =>
      if i =? maxVarintLen64 then (0, - (i + 1))
      else if b2z b <? 128 then
        if (i =? maxVarintLen64 - 1) && (1 <? b2z b) then (0, - (i + 1))
        else (Z.lor x (Z.shiftl (b2z b) s), i + 1)
      else uvarint_loop buf' (i + 1) (s + 7)
             (Z.lor x (Z.shiftl (Z.land (b2z b) 127) s mod 2 ^ 64))
  end.

Definition uvarint (buf : bytes) : Z * Z := uvarint_loop buf 0 0 0.

(** ** Length-prefixed parts (index.go) *)

Definition appendPart (key part : bytes) : bytes :=
  appendUvarint key (len part) ++ part.

(** The part and the rest of the key, [None] for [ok = false]. *)
Definition readPart (key : bytes) : option (bytes * bytes) :=
  let '(length, size) := uvarint key in
  if (size <=? 0) || (len key - size <? length) then None
  else
    let stop := size + length in
    Some (take (Z.to_nat length) (drop (Z.to_nat size) key), drop (Z.to_nat stop) key).

(** ** Lemmas *)

Lemma length_putBE n x : length (putBE n x) = n.
Proof. induction n; simpl; congruence. Qed.

Lemma putBE_cons n x :
  putBE (S n) x = z2b (x / 256 ^ Z.of_nat n) :: putBE n x.
Proof.
  cbn [putBE]. rewrite Z.shiftr_div_pow2 by lia.
  by replace (2 ^ (8 * Z.of_nat n)) with (256 ^ Z.of_nat n) by (by rewrite Z.pow_mul_r by lia).
Qed.

Lemma pow256_S n : 256 ^ Z.of_nat (S n) = 256 * 256 ^ Z.of_nat n.
Proof. rewrite Nat2Z.inj_succ, Z.pow_succ_r; lia. Qed.

Lemma mod_pow256_S x n :
  x mod 256 ^ Z.of_nat (S n) =
  (x / 256 ^ Z.of_nat n) mod 256 * 256 ^ Z.of_nat n + x mod 256 ^ Z.of_nat n.
Proof.
  rewrite pow256_S, (Z.mul_comm 256), Z.rem_mul_r by lia. lia.
Qed.

Lemma shift_or acc c : 0 <= c < 256 -> Z.lor (Z.shiftl acc 8) c = acc * 256 + c.
Proof.
  intros Hc. rewrite Z.shiftl_mul_pow2 by lia. change (2 ^ 8) with 256. rewrite <- (Z.mod_small c 256) by done.
  rewrite <- Z.lxor_lor, <- Z.add_nocarry_lxor; [done| |].
  all: apply Z.bits_inj'; intros k Hk; rewrite Z.land_spec, Z.bits_0.
  all: change 256 with (2 ^ 8); destruct (Z.ltb_spec k 8);
    [rewrite Z.mul_pow2_bits_low by lia; done
    |rewrite Z.mod_pow2_bits_high by lia; apply andb_false_r].
Qed.

(** Reading back what was written. *)
Lemma getBE_acc_putBE n x acc :
  0 <= acc -> getBE_acc acc (putBE n x) = acc * 256 ^ Z.of_nat n + x mod 256 ^ Z.of_nat n.
Proof.
  revert acc. induction n as [|n IH]; intros acc Hacc.
  { simpl. rewrite Z.mod_1_r. lia. }
  rewrite putBE_cons. cbn [getBE_acc]. rewrite b2z_z2b.
  pose proof (Z.mod_pos_bound (x / 256 ^ Z.of_nat n) 256 ltac:(lia)) as Hm. rewrite shift_or by lia.
  rewrite IH by nia. rewrite mod_pow256_S, pow256_S. lia.
Qed.

Lemma getBE_putBE n x : getBE (putBE n x) = x mod 256 ^ Z.of_nat n.
Proof. unfold getBE. rewrite getBE_acc_putBE by lia. lia. Qed.

(** Writing back what was read. *)
Lemma getBE_acc_spec b acc :
  exists v, getBE_acc acc b = acc * 256 ^ Z.of_nat (length b) + v /\ 0 <= v < 256 ^ Z.of_nat (length b).
Proof.
  revert acc. induction b as [|c b IH]; intros acc; cbn [getBE_acc length].
  { exists 0. simpl. lia. }
  pose proof (b2z_range c) as Hc. rewrite shift_or by lia. destruct (IH (acc * 256 + b2z c)) as (v & -> & Hv).
  exists (b2z c * 256 ^ Z.of_nat (length b) + v). rewrite pow256_S. split; [lia|nia].
Qed.

Lemma putBE_getBE b : putBE (length b) (getBE b) = b.
Proof.
  unfold getBE. generalize 0 as acc. induction b as [|c b IH]; intros acc; [done|].
  cbn [length getBE_acc]. rewrite putBE_cons. pose proof (b2z_range c) as Hc. rewrite shift_or by lia. f_equal; [|apply IH].
  destruct (getBE_acc_spec b (acc * 256 + b2z c)) as (v & -> & Hv). rewrite Z.div_add_l, Z.div_small, Z.add_0_r by lia.
  apply b2z_inj. rewrite b2z_z2b. rewrite Z.add_comm, Z.mod_add by lia. by apply Z.mod_small.
Qed.

Lemma putUint64_getUint64 b : length b = 8%nat -> putUint64 (getUint64 b) = b.
Proof. intros Hb. unfold putUint64, getUint64. rewrite <- Hb. apply putBE_getBE. Qed.

(** Big-endian strings of one width are ordered as the integers they encode. *)
Lemma bcmp_putBE n x y u v :
  bcmp (putBE n x ++ u) (putBE n y ++ v) =
  match x mod 256 ^ Z.of_nat n ?= y mod 256 ^ Z.of_nat n with Eq => bcmp u v | c => c end.
Proof.
  induction n as [|n IH].
  { simpl. by rewrite !Z.mod_1_r. }
  rewrite !putBE_cons, !mod_pow256_S. cbn [app bcmp]. rewrite !b2z_z2b, IH.
  pose proof (Z.pow_pos_nonneg 256 (Z.of_nat n) ltac:(lia) ltac:(lia)) as Hp.
  pose proof (Z.mod_pos_bound x _ Hp). pose proof (Z.mod_pos_bound y _ Hp).
  set (a := (x / _) mod 256) in *. set (b := (y / _) mod 256) in *.
  destruct (Z.compare_spec a b) as [E|E|E].
  - rewrite E. by rewrite Z.add_compare_mono_l.
  - by replace (a * _ + _ ?= b * _ + _) with Lt by (symmetry; apply Z.compare_lt_iff; nia).
  - by replace (a * _ + _ ?= b * _ + _) with Gt by (symmetry; apply Z.compare_gt_iff; nia).
Qed.

(** *** Varints *)

Lemma lor_shiftl_add a b k : 0 <= a < 2 ^ k -> 0 <= k -> Z.lor a (Z.shiftl b k) = a + b * 2 ^ k.
Proof.
  intros Ha Hk. rewrite Z.shiftl_mul_pow2 by lia.
  rewrite <- Z.lxor_lor, <- Z.add_nocarry_lxor; [done| |].
  all: apply Z.bits_inj'; intros i Hi; rewrite Z.land_spec, Z.bits_0.
  all: destruct (Z.ltb_spec i k);
    [rewrite (Z.mul_pow2_bits_low b) by lia; apply andb_false_r
    |rewrite <- (Z.mod_small a (2 ^ k)), Z.mod_pow2_bits_high by lia; done].
Qed.

Lemma b2z_lor_128 b : Z.lor (b2z b) 128 = b2z b mod 128 + 128.
Proof. destruct b; reflexivity. Qed.

Lemma b2z_more x : b2z (z2b (Z.lor (x mod 256) 128)) = x mod 128 + 128.
Proof.
  rewrite <- (b2z_z2b x), b2z_lor_128.
  pose proof (Z.mod_pos_bound (b2z (z2b x)) 128 ltac:(lia)).
  rewrite b2z_z2b_small by lia. f_equal. rewrite b2z_z2b.
  symmetry. apply Znumtheory.Zmod_div_mod; [lia|lia|]. by exists 2.
Qed.

Lemma land_127 x : Z.land x 127 = x mod 128.
Proof. change 127 with (Z.ones 7). by rewrite Z.land_ones by lia. Qed.

Lemma length_appendUvarint_loop fuel x :
  0 < len (appendUvarint_loop fuel x) <= Z.of_nat fuel + 1.
Proof.
  revert x. induction fuel as [|f IH]; intros x; simpl.
  { rewrite len_cons. done. }
  case_match; rewrite len_cons; [specialize (IH (Z.shiftr x 7)); lia|]. unfold len; simpl; lia.
Qed.

(** The reader undoes the writer, whatever follows. *)
Lemma uvarint_loop_append fuel n i x rest :
  Z.of_nat fuel + i = 9 -> 0 <= i -> 0 <= x < 2 ^ (7 * i) ->
  0 <= n -> n * 2 ^ (7 * i) < 2 ^ 64 ->
  uvarint_loop (appendUvarint_loop fuel n ++ rest) i (7 * i) x
  = (x + n * 2 ^ (7 * i), i + len (appendUvarint_loop fuel n)).
Proof.
  revert n i x. induction fuel as [|f IH]; intros n i x Hfuel Hi Hx Hn Hlt.
  - assert (i = 9) as -> by lia. cbn [appendUvarint_loop app uvarint_loop].
    change (2 ^ (7 * 9)) with (2 ^ 63) in *.
    assert (n < 2) by lia.
    rewrite b2z_z2b_small by lia.
    replace (9 =? maxVarintLen64) with false by done.
    replace (n <? 128) with true by (symmetry; apply Z.ltb_lt; lia).
    replace ((9 =? maxVarintLen64 - 1) && (1 <? n)) with false
      by (symmetry; apply andb_false_iff; right; apply Z.ltb_ge; lia).
    by rewrite lor_shiftl_add by lia.
  - assert (i < 9) by lia. cbn [appendUvarint_loop].
    assert (i =? maxVarintLen64 = false) as Hi10 by (apply Z.eqb_neq; unfold maxVarintLen64; lia).
    assert (i =? maxVarintLen64 - 1 = false) as Hi9 by (apply Z.eqb_neq; unfold maxVarintLen64; lia).
    destruct (Z.leb_spec 128 n) as [Hge|Hlt128]; cbn [app uvarint_loop]; rewrite Hi10.
    + rewrite b2z_more. pose proof (Z.mod_pos_bound n 128 ltac:(lia)) as Hm.
      replace (n mod 128 + 128 <? 128) with false by (symmetry; apply Z.ltb_ge; lia).
      rewrite land_127. replace ((n mod 128 + 128) mod 128) with (n mod 128)
        by (rewrite <- Z.add_mod_idemp_r by lia; rewrite Z.mod_same, Z.add_0_r, Z.mod_mod; lia).
      pose proof (Z.div_mod n 128 ltac:(lia)) as Hdm.
      pose proof (Z.div_pos n 128 ltac:(lia) ltac:(lia)) as Hdp.
      assert (0 < 2 ^ (7 * i)) as Hp by (apply Z.pow_pos_nonneg; lia).
      assert (2 ^ (7 * (i + 1)) = 128 * 2 ^ (7 * i)) as Hpow.
      { replace (7 * (i + 1)) with (7 + 7 * i) by lia. by rewrite Z.pow_add_r by lia. }
      rewrite (Z.mod_small (Z.shiftl _ _)) by (rewrite Z.shiftl_mul_pow2 by lia; nia).
      rewrite lor_shiftl_add by lia.
      replace (7 * i + 7) with (7 * (i + 1)) by lia.
      rewrite Z.shiftr_div_pow2 by lia. change (2 ^ 7) with 128.
      rewrite IH; [|nia..]. rewrite len_cons. f_equal; nia.
    + rewrite b2z_z2b_small by lia.
      replace (n <? 128) with true by (symmetry; apply Z.ltb_lt; lia).
      rewrite Hi9. cbn [andb]. by rewrite lor_shiftl_add by lia.
Qed.

Lemma uvarint_appendUvarint n rest :
  0 <= n < 2 ^ 64 ->
  uvarint (appendUvarint [] n ++ rest) = (n, len (appendUvarint [] n)).
Proof.
  intros Hn. unfold uvarint, appendUvarint. rewrite app_nil_l.
  replace 0 with (7 * 0) at 2 by lia.
  rewrite uvarint_loop_append by (change (2 ^ (7 * 0)) with 1; lia).
  change (2 ^ (7 * 0)) with 1. f_equal; lia.
Qed.

(** *** Parts *)

Lemma appendPart_app key part : appendPart key part = key ++ appendPart [] part.
Proof. unfold appendPart, appendUvarint. by rewrite app_nil_l, <- app_assoc. Qed.

(** Go slices are shorter than 2^63 bytes; every list that stands for one is. *)
Definition slice_len (l : bytes) : Prop := len l < 2 ^ 63.

Lemma readPart_appendPart part rest :
  slice_len part -> readPart (appendPart [] part ++ rest) = Some (part, rest).
Proof.
  intros Hlen. unfold slice_len in Hlen. unfold readPart, appendPart.
  pose proof (len_nonneg part) as H0.
  rewrite <- app_assoc, uvarint_appendUvarint by lia.
  pose proof (length_appendUvarint_loop 9 (len part)) as Hl.
  unfold appendUvarint in *. rewrite app_nil_l in *.
  set (pre := appendUvarint_loop 9 (len part)) in *.
  rewrite !len_app. pose proof (len_nonneg rest).
  replace (len pre <=? 0) with false by (symmetry; apply Z.leb_gt; lia).
  replace (len pre + (len part + len rest) - len pre <? len part) with false
    by (symmetry; apply Z.ltb_ge; lia).
  cbn [orb]. unfold len.
  rewrite <- Nat2Z.inj_add, !Nat2Z.id.
  rewrite drop_app_length, take_app_length.
  by rewrite app_assoc, <- length_app, drop_app_length.
Qed.

(** A part ends where it says: the encoding is free of prefixes. *)
Lemma appendPart_inj a b x y :
  slice_len a -> slice_len b ->
  appendPart [] a ++ x = appendPart [] b ++ y -> a = b /\ x = y.
Proof.
  intros Ha Hb E. apply (f_equal readPart) in E.
  rewrite !readPart_appendPart in E by done. naive_solver.
Qed.

(** Complementing the bytes complements the integer. *)
Lemma map_bnot_putBE n x : map bnot (putBE n x) = putBE n (Z.lnot x).
Proof.
  induction n as [|n IH]; [done|]. cbn [putBE map]. rewrite IH. f_equal.
  apply b2z_inj. rewrite bnot_val, !b2z_z2b.
  set (k := 8 * Z.of_nat n).
  assert (Z.shiftr (Z.lnot x) k = Z.lnot (Z.shiftr x k)) as ->.
  { apply Z.bits_inj'. intros i Hi. rewrite Z.lnot_spec, !Z.shiftr_spec by lia.
    apply Z.lnot_spec. lia. }
  set (y := Z.shiftr x k). unfold Z.lnot.
  replace (Z.pred (- y)) with ((255 - y mod 256) + (- (y / 256) - 1) * 256)
    by (pose proof (Z.div_mod y 256 ltac:(lia)); lia).
  rewrite Z.mod_add by lia. pose proof (Z.mod_pos_bound y 256 ltac:(lia)).
  rewrite (Z.mod_small (255 - _)) by lia. done.
Qed.

Lemma lxor_ones_lnot x k : 0 <= k -> Z.lxor (Z.lnot x mod 2 ^ k) (2 ^ k - 1) = x mod 2 ^ k.
Proof.
  intros Hk. replace (2 ^ k - 1) with (Z.ones k) by (rewrite Z.ones_equiv; lia).
  apply Z.bits_inj'. intros i Hi. rewrite Z.lxor_spec, Z.testbit_ones_nonneg by lia.
  destruct (Z.ltb_spec i k).
  - rewrite !Z.mod_pow2_bits_low, Z.lnot_spec by lia. by destruct (Z.testbit x i).
  - by rewrite !Z.mod_pow2_bits_high by lia.
Qed.
