(* ===== verification/Text.v ===== *)
(** * Text

    What the program uses of [encoding/hex], [strconv], [strings] and
    [unicode/utf8]. *)

From S2P Require Import Prelude.

(** ** Character classes *)

Definition in_range (lo hi c : byte) : bool := bleb lo c && bleb c hi.
Definition isDigit (c : byte) : bool := in_range "0" "9" c.

(** ** Hexadecimal (encoding/hex) *)

(** [hextable[i]], with [0 <= i < 16]. *)
Definition hexDigit (i : Z) : byte := if i <? 10 then z2b (48 + i) else z2b (87 + i).

(** [hex.EncodeToString]. *)
Fixpoint hexEncode (b : bytes) : bytes :=
  match b with
  | [] => []
  | c :: b' => hexDigit (Z.shiftr (b2z c) 4) :: hexDigit (Z.land (b2z c) 15) :: hexEncode b'
  end.

(** [reverseHexTable]: upper and lower case digits. *)
Definition fromHexChar (c : byte) : option Z :=
  if isDigit c then Some (b2z c - 48)
  else if in_range "a" "f" c then Some (b2z c - 87)
  else if in_range "A" "F" c then Some (b2z c - 55)
  else None.

(** [hex.Decode]: [None] on a character that is no digit or an odd length. *)
Fixpoint hexDecode (s : bytes) : option bytes :=
  match s with
  | [] => Some []
  | [_] => None
  | c :: d :: s' =>
      a ← fromHexChar c; b ← fromHexChar d; rest ← hexDecode s';
      Some (z2b (Z.lor (Z.shiftl a 4) b) :: rest)
  end.

(** ** Decimal integers (strconv) *)

Definition decDigit (i : Z) : byte := z2b (48 + i).

Fixpoint dec_loop (fuel : nat) (z : Z) (acc : bytes) : bytes :=
  match fuel with
  | O => acc
  | S f =>
      let acc' := decDigit (z mod 10) :: acc in
      if z <? 10 then acc' else dec_loop f (z / 10) acc'
  end.

(** The decimal digits of [z >= 0]; a number has at most as many decimal
    digits as bits. *)
Definition decString (z : Z) : bytes := dec_loop (S (Z.to_nat (Z.log2 z))) z [].

(** [strconv.Itoa] and [big.Int.String]. *)
Definition itoa (z : Z) : bytes :=
  if z <? 0 then "-"%byte :: decString (- z) else decString z.

(** The number a string of digits denotes. *)
Definition decVal_acc (acc : Z) (s : bytes) : Z :=
  fold_left (fun a c => 10 * a + (b2z c - 48)) s acc.
Definition decVal (s : bytes) : Z := decVal_acc 0 s.

Definition maxInt64 : Z := 2 ^ 63 - 1.
Definition minInt64 : Z := - 2 ^ 63.

(** [strconv.Atoi]: an optional sign, then digits, in the range of [int]. *)
Definition atoi (s : bytes) : option Z :=
  let '(neg, ds) :=
    match s with
    | c :: s' => if beqb c "-" then (true, s') else if beqb c "+" then (false, s') else (false, s)
    | [] => (false, s)
    end in
  match ds with
  | [] => None
  | _ =>
      if forallb isDigit ds then
        let v := if neg then - decVal ds else decVal ds in
        if (minInt64 <=? v) && (v <=? maxInt64) then Some v else None
      else None
  end.

(** ** UTF-8 (unicode/utf8) *)

Definition cont (c : byte) : bool := in_range x80 xbf c.

(** [utf8.Valid]: the shortest encodings of the scalar values. *)
Fixpoint utf8Valid (s : bytes) : bool :=
  match s with
  | [] => true
  | a :: s1 =>
      if bleb a x7f then utf8Valid s1 else
      match s1 with
      | [] => false
      | b :: s2 =>
          if in_range xc2 xdf a then cont b && utf8Valid s2 else
          match s2 with
          | [] => false
          | c :: s3 =>
              if in_range xe0 xef a then
                in_range (if beqb a xe0 then xa0 else x80) (if beqb a xed then x9f else xbf) b
                && cont c && utf8Valid s3
              else
                match s3 with
                | [] => false
                | d :: s4 =>
                    in_range xf0 xf4 a
                    && in_range (if beqb a xf0 then x90 else x80) (if beqb a xf4 then x8f else xbf) b
                    && cont c && cont d && utf8Valid s4
                end
          end
      end
  end.

(** ** Strings *)

(** The UTF-8 encodings of the runes of [unicode.IsSpace]. *)
Definition spaces : list bytes :=
  [[x09]; [x0a]; [x0b]; [x0c]; [x0d]; [x20]; [xc2; x85]; [xc2; xa0]; [xe1; x9a; x80];
   [xe2; x80; x80]; [xe2; x80; x81]; [xe2; x80; x82]; [xe2; x80; x83]; [xe2; x80; x84];
   [xe2; x80; x85]; [xe2; x80; x86]; [xe2; x80; x87]; [xe2; x80; x88]; [xe2; x80; x89];
   [xe2; x80; x8a]; [xe2; x80; xa8]; [xe2; x80; xa9]; [xe2; x80; xaf]; [xe2; x81; x9f];
   [xe3; x80; x80]].

(** The rest of [s] after the prefix [p], the program's [strings.TrimPrefix]
    and [bytes.HasPrefix] in one. *)
Fixpoint strip_prefix (p s : bytes) : option bytes :=
  match p, s with
  | [], _ => Some s
  | c :: p', d :: s' => if beqb c d then strip_prefix p' s' else None
  | _ :: _, [] => None
  end.

Fixpoint first_prefix (ps : list bytes) (s : bytes) : option bytes :=
  match ps with
  | [] => None
  | p :: ps' => match strip_prefix p s with Some r => Some r | None => first_prefix ps' s end
  end.

Fixpoint trim_loop (fuel : nat) (ps : list bytes) (s : bytes) : bytes :=
  match fuel with
  | O => s
  | S f => match first_prefix ps s with Some r => trim_loop f ps r | None => s end
  end.

Definition trimLeft (s : bytes) : bytes := trim_loop (length s) spaces s.
Definition trimRight (s : bytes) : bytes :=
  reverse (trim_loop (length s) (map reverse spaces) (reverse s)).

(** [strings.TrimSpace]. *)
Definition trimSpace (s : bytes) : bytes := trimRight (trimLeft s).

(** [strings.Split] at one byte: never empty. *)
Fixpoint splitByte (sep : byte) (s : bytes) : list bytes :=
  match s with
  | [] => [[]]
  | c :: s' =>
      if beqb c sep then [] :: splitByte sep s'
      else match splitByte sep s' with
           | [] => [[c]]
           | t :: ts => (c :: t) :: ts
           end
  end.

(** [strings.ReplaceAll] of a string of two bytes by one byte. *)
Fixpoint replace2 (a b : byte) (by_ : byte) (s : bytes) : bytes :=
  match s with
  | c :: (d :: s'') as s' =>
      if beqb c a && beqb d b then by_ :: replace2 a b by_ s''
      else c :: replace2 a b by_ s'
  | _ => s
  end.

(** [strings.ReplaceAll] of one byte by a string. *)
Definition replace1 (a : byte) (by_ : bytes) (s : bytes) : bytes :=
  concat (map (fun c => if beqb c a then by_ else [c]) s).

(** ** Lemmas *)

Lemma in_range_spec lo hi c : in_range lo hi c = true <-> b2z lo <= b2z c <= b2z hi.
Proof. unfold in_range, bleb. rewrite andb_true_iff, !Z.leb_le. done. Qed.

(** *** Hexadecimal *)

Lemma length_hexEncode b : length (hexEncode b) = (2 * length b)%nat.
Proof. induction b; simpl; lia. Qed.

(** The two digits of a byte, by cases on the byte. *)
Lemma hexDecode_byte c :
  fromHexChar (hexDigit (Z.shiftr (b2z c) 4)) = Some (Z.shiftr (b2z c) 4) /\
  fromHexChar (hexDigit (Z.land (b2z c) 15)) = Some (Z.land (b2z c) 15) /\
  z2b (Z.lor (Z.shiftl (Z.shiftr (b2z c) 4) 4) (Z.land (b2z c) 15)) = c.
Proof. destruct c; vm_compute; auto. Qed.

Lemma hexDecode_hexEncode b : hexDecode (hexEncode b) = Some b.
Proof.
  induction b as [|c b IH]; [done|]. cbn [hexEncode hexDecode].
  destruct (hexDecode_byte c) as (H1 & H2 & H3).
  rewrite H1, H2, IH. simpl. by rewrite H3.
Qed.

Lemma hexEncode_app a b : hexEncode (a ++ b) = hexEncode a ++ hexEncode b.
Proof. induction a; simpl; congruence. Qed.

Lemma hexEncode_inj a b : hexEncode a = hexEncode b -> a = b.
Proof. intros H. apply (f_equal hexDecode) in H. rewrite !hexDecode_hexEncode in H. congruence. Qed.

(** *** Decimal strings *)

Lemma decDigit_val i : 0 <= i < 10 -> b2z (decDigit i) = 48 + i.
Proof. intros. unfold decDigit. apply b2z_z2b_small. lia. Qed.

Lemma decVal_acc_app acc s t : decVal_acc acc (s ++ t) = decVal_acc (decVal_acc acc s) t.
Proof. apply fold_left_app. Qed.

Lemma dec_loop_app fuel z acc : dec_loop fuel z acc = dec_loop fuel z [] ++ acc.
Proof.
  revert z acc. induction fuel as [|f IH]; intros z acc; [done|].
  cbn [dec_loop]. case_match; [done|].
  rewrite IH, (IH _ [_]), <- app_assoc. done.
Qed.

Lemma dec_loop_spec fuel z :
  0 <= z < 2 ^ Z.of_nat (S fuel) ->
  decVal (dec_loop (S fuel) z []) = z /\ Forall (fun c => isDigit c = true) (dec_loop (S fuel) z []).
Proof.
  revert z. induction fuel as [|f IH]; intros z Hz.
  { change (2 ^ Z.of_nat 1) with 2 in Hz.
    assert (z = 0 \/ z = 1) as [-> | ->] by lia; (split; [done|]; by repeat constructor). }
  cbn [dec_loop].
  pose proof (Z.mod_pos_bound z 10 ltac:(lia)) as Hm.
  assert (isDigit (decDigit (z mod 10)) = true) as Hd.
  { apply in_range_spec. rewrite decDigit_val by done. vm_compute (b2z _). simpl. lia. }
  destruct (Z.ltb_spec z 10).
  { split; [|by constructor]. unfold decVal, decVal_acc. cbn [fold_left].
    rewrite decDigit_val by done. rewrite Z.mod_small; lia. }
  assert (0 <= z / 10 < 2 ^ Z.of_nat (S f)) as Hz'.
  { split; [apply Z.div_pos; lia|].
    rewrite (Nat2Z.inj_succ (S f)), Z.pow_succ_r in Hz by lia. apply Z.div_lt_upper_bound; lia. }
  destruct (IH _ Hz') as [H1 H2]. cbn [dec_loop] in H1, H2.
  change (if z / 10 <? 10 then _ else _) with (dec_loop (S f) (z / 10) [decDigit (z mod 10)]).
  rewrite dec_loop_app. split.
  - unfold decVal in *. rewrite decVal_acc_app. cbn [dec_loop].
    rewrite H1. unfold decVal_acc. cbn [fold_left]. rewrite decDigit_val by done.
    pose proof (Z.div_mod z 10 ltac:(lia)). lia.
  - apply Forall_app. split; [done|]. by constructor.
Qed.

Lemma decVal_acc_spec s acc :
  decVal_acc acc s = acc * 10 ^ len s + decVal s.
Proof.
  unfold decVal. induction s as [|c s IH] using rev_ind.
  { unfold len, decVal_acc. simpl. lia. }
  rewrite !decVal_acc_app, IH, len_app.
  change (len [c]) with 1. rewrite Z.pow_add_r by (apply len_nonneg || lia).
  unfold decVal_acc. cbn [fold_left]. lia.
Qed.

Lemma decVal_app s t : decVal (s ++ t) = decVal s * 10 ^ len t + decVal t.
Proof. unfold decVal at 1. rewrite decVal_acc_app, decVal_acc_spec. done. Qed.

Lemma isDigit_val c : isDigit c = true <-> 48 <= b2z c <= 57.
Proof. apply in_range_spec. Qed.

Lemma decVal_bound s :
  Forall (fun c => isDigit c = true) s -> 0 <= decVal s < 10 ^ len s.
Proof.
  induction s as [|c s IH] using rev_ind; intros H.
  { unfold decVal, len, decVal_acc. simpl. lia. }
  apply Forall_app in H as [H Hc]. apply Forall_cons in Hc as [Hc _].
  apply isDigit_val in Hc. specialize (IH H).
  rewrite decVal_app, len_app. change (len [c]) with 1.
  rewrite Z.pow_add_r by (apply len_nonneg || lia). change (10 ^ 1) with 10.
  assert (decVal [c] = b2z c - 48) as -> by (unfold decVal, decVal_acc; cbn [fold_left]; lia).
  lia.
Qed.

Lemma decString_spec z :
  0 <= z ->
  decVal (decString z) = z /\ Forall (fun c => isDigit c = true) (decString z).
Proof.
  intros Hz. apply dec_loop_spec. split; [done|].
  destruct (Z.eqb_spec z 0) as [->|Hnz]; [done|].
  rewrite Nat2Z.inj_succ, Z2Nat.id by apply Z.log2_nonneg.
  apply Z.log2_spec. lia.
Qed.

(** The first digit is zero only for zero itself. *)
Lemma dec_loop_head fuel z :
  0 < z < 2 ^ Z.of_nat (S fuel) ->
  exists c s, dec_loop (S fuel) z [] = c :: s /\ c <> "0"%byte.
Proof.
  assert (forall i, 0 < i < 10 -> decDigit i <> "0"%byte) as Hnz.
  { intros i Hi E. apply (f_equal b2z) in E. rewrite decDigit_val in E by lia.
    change (b2z "0") with 48 in E. lia. }
  revert z. induction fuel as [|f IH]; intros z Hz.
  { change (2 ^ Z.of_nat 1) with 2 in Hz. assert (z = 1) as -> by lia. by eexists _, _. }
  cbn [dec_loop]. destruct (Z.ltb_spec z 10).
  { eexists _, _. split; [done|]. apply Hnz. rewrite Z.mod_small; lia. }
  change (if z / 10 <? 10 then _ else _) with (dec_loop (S f) (z / 10) [decDigit (z mod 10)]).
  rewrite dec_loop_app. destruct (IH (z / 10)) as (c & s & -> & Hc).
  { split; [apply Z.div_str_pos; lia|].
    rewrite (Nat2Z.inj_succ (S f)), Z.pow_succ_r in Hz by lia. apply Z.div_lt_upper_bound; lia. }
  by exists c, (s ++ [decDigit (z mod 10)]).
Qed.

Lemma decString_head z :
  0 < z -> exists c s, decString z = c :: s /\ c <> "0"%byte.
Proof.
  intros Hz. apply dec_loop_head. split; [done|].
  rewrite Nat2Z.inj_succ, Z2Nat.id by apply Z.log2_nonneg.
  by apply Z.log2_spec.
Qed.

Lemma decString_sign z : 0 <= z -> exists c s, decString z = c :: s /\ isDigit c = true.
Proof.
  intros Hz. destruct (decString_spec z Hz) as [_ Hd]. destruct (decide (z = 0)) as [->|Hne]; [by eexists _, _|].
  destruct (decString_head z ltac:(lia)) as (c & s & E & _). rewrite E in *. exists c, s. by inversion Hd.
Qed.

Lemma atoi_itoa z : 0 <= z <= maxInt64 -> atoi (itoa z) = Some z.
Proof.
  intros Hz. unfold itoa. rewrite (proj2 (Z.ltb_ge z 0)) by lia.
  destruct (decString_spec z ltac:(lia)) as [Hv Hd]. destruct (decString_sign z ltac:(lia)) as (c & s & E & Hc).
  unfold atoi. rewrite E in *. destruct (beqb_spec c "-") as [->|_]; [done|]. destruct (beqb_spec c "+") as [->|_]; [done|].
  rewrite (proj2 (forallb_forall _ _)) by (by apply List.Forall_forall). cbv zeta. rewrite Hv. unfold minInt64.
  by rewrite (proj2 (Z.leb_le (- 2 ^ 63) z)), (proj2 (Z.leb_le z maxInt64)) by lia.
Qed.

Lemma atoi_max s z : atoi s = Some z -> z <= maxInt64.
Proof.
  unfold atoi. destruct (match s with [] => _ | _ => _ end) as [neg ds]. destruct ds as [|d ds]; [done|].
  destruct (forallb _ _); [|done]. cbv zeta.
  set (v := if neg then _ else _). destruct (Z.leb_spec minInt64 v), (Z.leb_spec v maxInt64); cbn [andb]; try done.
  by intros [= <-].
Qed.

Lemma strip_prefix_app p s : strip_prefix p (p ++ s) = Some s.
Proof. induction p as [|c p IH]; [done|]. simpl. by rewrite beqb_refl. Qed.

(** ** Trimming a word *)

(** The white space of ASCII, and the ASCII characters that are not. *)
Definition asciiSpace (c : byte) : Prop := 9 <= b2z c <= 13 \/ c = x20.
Definition asciiWord (c : byte) : Prop := 32 < b2z c < 128.

Lemma first_prefix_space c s :
  asciiSpace c -> first_prefix spaces (c :: s) = Some s /\ first_prefix (map reverse spaces) (c :: s) = Some s.
Proof. intros [Hc| ->]; [destruct c; try (by vm_compute in Hc; destruct Hc)|]; by split. Qed.

Lemma first_prefix_word c s :
  asciiWord c -> first_prefix spaces (c :: s) = None /\ first_prefix (map reverse spaces) (c :: s) = None.
Proof. intros Hc. destruct c; try (by vm_compute in Hc; destruct Hc); by split. Qed.

Lemma trim_loop_word ps fuel ws s :
  (ps = spaces \/ ps = map reverse spaces) -> Forall asciiSpace ws ->
  match s with c :: _ => asciiWord c | [] => False end -> (length ws < fuel)%nat ->
  trim_loop fuel ps (ws ++ s) = s.
Proof.
  intros Hps Hws Hs. revert fuel. induction Hws as [|c ws Hc _ IH]; intros [|f] Hf; [simpl in Hf; lia| |simpl in Hf; lia|].
  - destruct s as [|c s]; [done|]. cbn [app trim_loop].
    by destruct (first_prefix_word c s Hs) as [E1 E2], Hps as [-> | ->]; rewrite ?E1, ?E2.
  - cbn [app trim_loop].
    destruct (first_prefix_space c (ws ++ s) Hc) as [E1 E2]. replace (first_prefix ps (c :: ws ++ s)) with (Some (ws ++ s))
      by (destruct Hps as [-> | ->]; congruence).
    apply IH. simpl in Hf. lia.
Qed.

Lemma trimSpace_word ws1 s ws2 :
  Forall asciiSpace ws1 -> Forall asciiSpace ws2 -> Forall asciiWord s -> s <> [] ->
  trimSpace (ws1 ++ s ++ ws2) = s.
Proof.
  intros H1 H2 Hs Hne. unfold trimSpace, trimLeft. rewrite trim_loop_word; cycle 1.
  - by left.
  - done.
  - by destruct Hs.
  - rewrite !length_app. destruct s; [done|]. simpl. lia.
  - unfold trimRight. rewrite reverse_app, trim_loop_word; [apply reverse_involutive|by right|by apply Forall_reverse| |].
    + assert (reverse s <> []) as Hr by (intros E; apply Hne; rewrite <- (reverse_involutive s), E; done).
      apply Forall_reverse in Hs. by destruct Hs.
    + rewrite length_app, length_reverse. destruct s; [done|]. simpl. lia.
Qed.
