(* ===== verification/Validation.v ===== *)
(** * Names, document IDs, ETags and preconditions

    validation.go, and the layout of a generated ID from id.go. *)

From S2P Require Import Prelude GoErrors Codec Text.

(** ** Database and index names *)

Definition validNameChar (char : byte) : bool :=
  in_range "a" "z" char || in_range "0" "9" char || beqb char "_" || beqb char "-".

Definition validateName (name : bytes) : res unit :=
  match name with
  | [] => Err errInvalidName
  | first :: rest =>
      if (63 <? len name) || negb (bleb "a" first) || negb (bleb first "z") then
        Err errInvalidName
      else if forallb validNameChar rest then Ok () else Err errInvalidName
  end.

(** ** Document IDs *)

Definition lowerHex (char : byte) : bool := in_range "0" "9" char || in_range "a" "f" char.

(** [s[i]] of a string known to be longer than [i]. *)
Definition at_ (s : bytes) (i : nat) : byte := default x00 (s !! i).

Definition is_dash (i : nat) : bool :=
  (i =? 8)%nat || (i =? 13)%nat || (i =? 18)%nat || (i =? 23)%nat.

Definition validateID (id : bytes) : res unit :=
  if negb (len id =? 36) || negb (beqb (at_ id 8) "-") || negb (beqb (at_ id 13) "-")
     || negb (beqb (at_ id 18) "-") || negb (beqb (at_ id 23) "-") then Err errInvalidID
  else if forallb (fun i => is_dash i || lowerHex (at_ id i)) (seq 0 36) then
    if negb (beqb (at_ id 14) "7") || negb (existsb (beqb (at_ id 19)) (str "89ab")) then
      Err errInvalidID
    else Ok ()
  else Err errInvalidID.

(** The layout [makeID] of id.go gives sixteen random bytes and a clock reading
    in milliseconds: a version 7 UUID in its text form. *)
Definition formatID (random : bytes) (millis : Z) : bytes :=
  let id := putBE 6 millis
              ++ [z2b (Z.lor (Z.land (b2z (at_ random 6)) 15) 112); at_ random 7;
                  z2b (Z.lor (Z.land (b2z (at_ random 8)) 63) 128)]
              ++ drop 9 random in
  hexEncode (take 4 id) ++ [("-")%byte] ++ hexEncode (take 2 (drop 4 id)) ++ [("-")%byte]
    ++ hexEncode (take 2 (drop 6 id)) ++ [("-")%byte] ++ hexEncode (take 2 (drop 8 id))
    ++ [("-")%byte] ++ hexEncode (drop 10 id).

(** ** Revisions, ETags and If-Match *)

(** [type revision [16]byte] (storage.go) is a list of sixteen bytes. *)
Definition revision : Type := bytes.
Definition revisionLen : Z := 16.
Definition wf_revision (r : revision) : Prop := len r = revisionLen.
Definition zeroRevision : revision := replicate 16 x00.

Record matchCond := MatchCond {
  mc_set : bool;
  mc_wildcard : bool;
  mc_revision : revision;
}.

Definition formatETag (rev : revision) : bytes :=
  [x22] ++ hexEncode rev ++ [x22].

Definition parseETag (value : bytes) : res revision :=
  if negb (len value =? 34) || negb (beqb (at_ value 0) x22)
     || negb (beqb (at_ value 33) x22) then Err errInvalidETag
  else
    let encoded := take 32 (drop 1 value) in
    if forallb lowerHex encoded then
      match hexDecode encoded with
      | Some rev => Ok rev
      | None => Err (wrapf errInvalidETag)
      end
    else Err errInvalidETag.

(** The values of the header, in order. *)
Definition parseIfMatch (values : list bytes) : res matchCond :=
  match values with
  | [] => Ok (MatchCond false false zeroRevision)
  | [v] =>
      let value := trimSpace v in
      if bool_decide (value = str "*") then Ok (MatchCond true true zeroRevision)
      else
        match parseETag value with
        | Ok rev => Ok (MatchCond true false rev)
        | _ => Err (wrapf errInvalidIfMatch)
        end
  | _ => Err errInvalidIfMatch
  end.

(** storage.go: whether the stored revision satisfies the precondition. *)
Definition matchRevision (m : matchCond) (current : revision) : bool :=
  negb (mc_set m) || mc_wildcard m || bool_decide (mc_revision m = current).

(** ** Request bodies

    A request body is the bytes it delivers and how it ends: [None] at
    [io.EOF], an error otherwise, which the reader reports after its data. *)
Record reader := Reader {
  r_data : bytes;
  r_err : option error;
}.

(** [io.ReadAll(io.LimitReader(reader, limit))]. *)
Definition readAllLimit (r : reader) (limit : Z) : res bytes :=
  if limit <=? len (r_data r) then Ok (take (Z.to_nat limit) (r_data r))
  else match r_err r with
       | Some e => Err e
       | None => Ok (r_data r)
       end.

Definition readBody (r : reader) (maxBytes : Z) : res bytes :=
  let limit := if maxBytes <? maxInt64 then maxBytes + 1 else maxBytes in
  match readAllLimit r limit with
  | Ok body => if maxBytes <? len body then Err errBodyTooLarge else Ok body
  | r => map_err wrapf r
  end.

(** ** Lemmas *)

(** A name the API accepts, as a proposition the store's invariants use. *)
Definition validName (name : bytes) : Prop := validateName name = Ok ().
Definition validID (id : bytes) : Prop := validateID id = Ok ().

#[global] Instance validName_dec name : Decision (validName name).
Proof. unfold validName. destruct (validateName name) as [[]| |]; [by left|right; congruence..]. Defined.
#[global] Instance validID_dec id : Decision (validID id).
Proof. unfold validID. destruct (validateID id) as [[]| |]; [by left|right; congruence..]. Defined.

Lemma validName_unfold name :
  validName name <->
  1 <= len name <= 63 /\
  (exists c rest, name = c :: rest /\ in_range "a" "z" c = true) /\
  Forall (fun c => validNameChar c = true) name.
Proof.
  unfold validName, validateName. destruct name as [|c rest].
  { split; [done|]. intros (H & _). rewrite len_nil in H. lia. }
  rewrite len_cons. pose proof (len_nonneg rest) as Hl.
  transitivity ((1 + len rest <= 63 /\ in_range "a" "z" c = true) /\
                Forall (fun c => validNameChar c = true) rest).
  - rewrite Forall_forall. unfold in_range.
    destruct (Z.ltb_spec 63 (1 + len rest)); [split; [done|]; intros [[? ?] ?]; lia|].
    destruct (bleb "a" c), (bleb c "z"); simpl; try (split; [done|]; intros [[_ ?] _]; done).
    rewrite <- Forall_forall. destruct (forallb validNameChar rest) eqn:E.
    + split; [|done]. intros _. split; [by split; [lia|]|].
      apply Forall_forall. intros x Hx. apply list_elem_of_In in Hx.
      by apply (proj1 (forallb_forall _ _) E).
    + split; [done|]. intros [_ HF]. exfalso. apply not_true_iff_false in E. apply E.
      apply forallb_forall. intros x Hx. apply list_elem_of_In in Hx.
      by eapply Forall_forall in HF.
  - split.
    + intros [[H1 H2] H3]. split; [lia|]. split; [by eexists _, _|].
      constructor; [|done]. unfold validNameChar. by rewrite H2.
    + intros (H1 & (c' & rest' & [= <- <-] & H2) & H3).
      apply Forall_cons in H3 as [_ H3]. split; [split; [lia|done]|done].
Qed.

(** No accepted name holds a NUL byte, the separator of a document key. *)
Lemma validName_no_nul name : validName name -> x00 ∉ name.
Proof.
  rewrite validName_unfold. intros (_ & _ & H) Hin.
  eapply Forall_forall in H; [|done]. done.
Qed.

Lemma validName_slice name : validName name -> slice_len name.
Proof. rewrite validName_unfold. unfold slice_len. lia. Qed.

Lemma validName_nonempty name : validName name -> name <> [].
Proof. by intros H ->. Qed.

Lemma validID_length id : validID id -> length id = 36%nat.
Proof.
  unfold validID, validateID, len.
  destruct (Z.eqb_spec (Z.of_nat (length id)) 36); simpl; [lia|done].
Qed.

Lemma validID_nonempty id : validID id -> id <> [].
Proof. by intros H%validID_length ->. Qed.

(** *** ETags *)

Lemma lowerHex_hexDigits c :
  lowerHex (hexDigit (Z.shiftr (b2z c) 4)) = true /\ lowerHex (hexDigit (Z.land (b2z c) 15)) = true.
Proof. destruct c; vm_compute; auto. Qed.

Lemma lowerHex_hexEncode b : forallb lowerHex (hexEncode b) = true.
Proof.
  induction b as [|c b IH]; [done|]. simpl.
  destruct (lowerHex_hexDigits c) as [-> ->]. done.
Qed.

Lemma lowerHex_digit c :
  lowerHex c = true -> exists v, fromHexChar c = Some v /\ 0 <= v < 16 /\ hexDigit v = c.
Proof.
  intros H. assert (fromHexChar c <> None) as Hn by (destruct c; (discriminate H || discriminate)).
  destruct (fromHexChar c) as [v|] eqn:E; [|done]. exists v. split; [done|].
  destruct c; try discriminate H; vm_compute in E; injection E as <-; split; (done || lia).
Qed.

Lemma nibbles v w :
  0 <= v < 16 -> 0 <= w < 16 ->
  Z.shiftr (b2z (z2b (Z.lor (Z.shiftl v 4) w))) 4 = v /\
  Z.land (b2z (z2b (Z.lor (Z.shiftl v 4) w))) 15 = w.
Proof.
  intros Hv Hw. rewrite Z.lor_comm, lor_shiftl_add by (change (2 ^ 4) with 16; lia).
  change (2 ^ 4) with 16. rewrite b2z_z2b_small by lia.
  change 15 with (Z.ones 4). rewrite Z.shiftr_div_pow2, Z.land_ones by lia.
  change (2 ^ 4) with 16. split.
  - rewrite Z.div_add, Z.div_small; lia.
  - rewrite Z.mod_add, Z.mod_small; lia.
Qed.

Lemma hexEncode_hexDecode s :
  forallb lowerHex s = true -> forall r, hexDecode s = Some r -> hexEncode r = s.
Proof.
  remember (length s) as n eqn:Hn. revert s Hn.
  induction (lt_wf n) as [n _ IH]; intros s Hn Hs r.
  destruct s as [|c [|d s]]; simpl; [by intros [= <-]|done|].
  simpl in Hs. apply andb_true_iff in Hs as [Hc Hs]. apply andb_true_iff in Hs as [Hd Hs].
  destruct (lowerHex_digit _ Hc) as (v & -> & Hv & Ev).
  destruct (lowerHex_digit _ Hd) as (w & -> & Hw & Ew). simpl.
  destruct (hexDecode s) as [r'|] eqn:E; simpl; [|done]. intros [= <-].
  cbn [hexEncode]. destruct (nibbles v w Hv Hw) as [-> ->]. rewrite Ev, Ew.
  repeat f_equal. eapply (IH (length s)); simpl in *; [lia|done..].
Qed.

Lemma hexDecode_lower s :
  forallb lowerHex s = true -> Nat.Even (length s) -> exists r, hexDecode s = Some r.
Proof.
  remember (length s) as n eqn:Hn. revert s Hn.
  induction (lt_wf n) as [n _ IH]; intros s Hn Hs He.
  destruct s as [|c [|d s]]; simpl in *; [by eexists|subst; by destruct (Nat.Even_Odd_False 1); [|exists 0%nat]|].
  apply andb_true_iff in Hs as [Hc Hs]. apply andb_true_iff in Hs as [Hd Hs].
  destruct (lowerHex_digit _ Hc) as (v & -> & _). destruct (lowerHex_digit _ Hd) as (w & -> & _).
  destruct (IH (length s) ltac:(lia) s eq_refl Hs) as [r ->].
  { destruct He as [m Hm]. exists (m - 1)%nat. lia. }
  by eexists.
Qed.

Lemma parseETag_formatETag r : wf_revision r -> parseETag (formatETag r) = Ok r.
Proof.
  unfold wf_revision, revisionLen, len. intros Hr.
  pose proof (length_hexEncode r) as Hl.
  assert (length (hexEncode r) = 32%nat) as Hl' by lia.
  unfold parseETag, formatETag, at_.
  assert (len ([x22] ++ hexEncode r ++ [x22]) = 34) as ->.
  { rewrite !len_app. unfold len. rewrite Hl'. done. }
  assert (([x22] ++ hexEncode r ++ [x22]) !! 33%nat = Some x22) as ->.
  { simpl. rewrite lookup_app_r by lia. by rewrite Hl'. }
  simpl. rewrite drop_0, take_app_le, take_ge, lowerHex_hexEncode, hexDecode_hexEncode by lia. done.
Qed.

Lemma parseETag_inv v r : parseETag v = Ok r -> wf_revision r /\ v = formatETag r.
Proof.
  unfold parseETag, formatETag, wf_revision, revisionLen.
  destruct (Z.eqb_spec (len v) 34) as [Hl|]; [|done].
  destruct (beqb_spec (at_ v 0) x22) as [H0|]; [|done].
  destruct (beqb_spec (at_ v 33) x22) as [H33|]; [|done]. simpl.
  destruct (forallb _ _) eqn:Hf; [|done].
  destruct (hexDecode _) as [r'|] eqn:Hd; [|done]. intros [= <-].
  pose proof (hexEncode_hexDecode _ Hf _ Hd) as He.
  assert (length v = 34%nat) as Hlen by (unfold len in Hl; lia).
  destruct v as [|c v]; [done|]. simpl in Hlen.
  destruct v as [|d v _] using rev_ind; [done|].
  rewrite length_app in Hlen. simpl in Hlen.
  unfold at_ in *. simpl in H0, H33, He.
  rewrite lookup_app_r in H33 by lia.
  replace (32 - length v)%nat with 0%nat in H33 by lia. simpl in H33. subst.
  rewrite drop_0, take_app_le, take_ge in He by lia.
  split; [|by rewrite He].
  apply (f_equal length) in He. rewrite length_hexEncode in He. unfold len. lia.
Qed.

(** *** Generated IDs *)

Lemma putBE_6 m : exists a b c d e f, putBE 6 m = [a; b; c; d; e; f].
Proof. cbn [putBE]. by do 6 eexists. Qed.

Lemma length_16 (l : bytes) :
  length l = 16%nat -> exists a b c d e f g h i j k m n o p q,
    l = [a; b; c; d; e; f; g; h; i; j; k; m; n; o; p; q].
Proof.
  intros H. do 17 (destruct l as [|? l]; [try discriminate H|]); [|discriminate H].
  by do 16 eexists.
Qed.

Lemma version_digit c :
  hexDigit (Z.shiftr (b2z (z2b (Z.lor (Z.land (b2z c) 15) 112))) 4) = ("7")%byte.
Proof. by destruct c. Qed.

Lemma variant_digit c :
  existsb (beqb (hexDigit (Z.shiftr (b2z (z2b (Z.lor (Z.land (b2z c) 63) 128))) 4))) (str "89ab")
  = true.
Proof. by destruct c. Qed.

Lemma validID_formatID random millis :
  length random = 16%nat -> validID (formatID random millis).
Proof.
  intros Hr. destruct (length_16 _ Hr) as
    (r0 & r1 & r2 & r3 & r4 & r5 & r6 & r7 & r8 & r9 & r10 & r11 & r12 & r13 & r14 & r15 & ->).
  destruct (putBE_6 millis) as (a & b & c & d & e & f & Hp).
  unfold validID, formatID. rewrite Hp. unfold at_.
  cbn [lookup list_lookup default from_option drop app take hexEncode id].
  set (v7 := z2b _). set (var := z2b _).
  pose proof (version_digit r6) as H7. pose proof (variant_digit r8) as H8.
  fold v7 in H7. fold var in H8.
  unfold validateID, at_. cbn [lookup list_lookup default from_option id].
  rewrite H7, H8.
  cbn [len length forallb seq is_dash Nat.eqb orb lookup list_lookup from_option default id].
  rewrite !(proj1 (lowerHex_hexDigits _)), !(proj2 (lowerHex_hexDigits _)).
  done.
Qed.

Lemma bcmp_hexEncode a b u v :
  length a = length b ->
  bcmp (hexEncode a ++ u) (hexEncode b ++ v) = match bcmp a b with Eq => bcmp u v | c => c end.
Proof.
  assert (forall i, 0 <= i < 16 -> b2z (hexDigit i) = if i <? 10 then 48 + i else 87 + i) as Hd.
  { intros i Hi. unfold hexDigit. destruct (Z.ltb_spec i 10); apply b2z_z2b_small; lia. }
  assert (forall c, 0 <= Z.shiftr (b2z c) 4 < 16 /\ 0 <= Z.land (b2z c) 15 < 16 /\
                    b2z c = 16 * Z.shiftr (b2z c) 4 + Z.land (b2z c) 15) as Hn.
  { intros c. change 15 with (Z.ones 4). rewrite Z.shiftr_div_pow2, Z.land_ones by lia.
    change (2 ^ 4) with 16. pose proof (b2z_range c). pose proof (Z.div_mod (b2z c) 16 ltac:(lia)).
    pose proof (Z.mod_pos_bound (b2z c) 16 ltac:(lia)). lia. }
  revert b. induction a as [|c a IH]; intros [|d b] [=]; [done|].
  cbn [hexEncode app bcmp]. destruct (Hn c) as (H1 & H2 & H3), (Hn d) as (H4 & H5 & H6).
  rewrite !Hd by done. rewrite IH by done.
  destruct (Z.ltb_spec (Z.shiftr (b2z c) 4) 10), (Z.ltb_spec (Z.shiftr (b2z d) 4) 10),
    (Z.ltb_spec (Z.land (b2z c) 15) 10), (Z.ltb_spec (Z.land (b2z d) 15) 10);
  repeat match goal with |- context [?x ?= ?y] => destruct (Z.compare_spec x y) end;
  done || lia.
Qed.

Lemma formatID_order r1 r2 m1 m2 :
  0 <= m1 < m2 -> m2 < 2 ^ 48 -> formatID r1 m1 <b formatID r2 m2.
Proof.
  intros H1 H2. unfold blt.
  assert (bcmp (putBE 6 m1) (putBE 6 m2) = Lt) as Hlt.
  { rewrite <- (app_nil_r (putBE 6 m1)), <- (app_nil_r (putBE 6 m2)), bcmp_putBE.
    change (256 ^ Z.of_nat 6) with (2 ^ 48). rewrite !Z.mod_small by lia.
    by rewrite (proj2 (Z.compare_lt_iff _ _)) by lia. }
  unfold formatID.
  destruct (putBE_6 m1) as (a & b & c & d & e & f & E1).
  destruct (putBE_6 m2) as (a' & b' & c' & d' & e' & f' & E2). rewrite E1, E2 in *.
  cbn [app take drop].
  change [a; b; c; d; e; f] with ([a; b; c; d] ++ [e; f]) in Hlt.
  change [a'; b'; c'; d'; e'; f'] with ([a'; b'; c'; d'] ++ [e'; f']) in Hlt.
  rewrite bcmp_app_len in Hlt by done. rewrite bcmp_hexEncode by done.
  destruct (bcmp [a; b; c; d] _); [|done..].
  match goal with |- bcmp (?s :: ?x) (?s :: ?y) = _ => change (bcmp ([s] ++ x) ([s] ++ y) = Lt) end.
  rewrite bcmp_app_same, bcmp_hexEncode by done. by rewrite Hlt.
Qed.

(** *** Preconditions *)

Lemma trimSpace_ends c d s :
  first_prefix spaces (c :: s ++ [d]) = None ->
  first_prefix (map reverse spaces) (d :: reverse (c :: s)) = None ->
  trimSpace (c :: s ++ [d]) = c :: s ++ [d].
Proof.
  intros H1 H2. unfold trimSpace, trimLeft. cbn [length trim_loop]. rewrite H1.
  unfold trimRight. cbn [length].
  assert (reverse (c :: s ++ [d]) = d :: reverse (c :: s)) as E
    by (rewrite app_comm_cons, reverse_app; done).
  rewrite E. cbn [trim_loop]. rewrite H2, <- E. apply reverse_involutive.
Qed.

Lemma trimSpace_formatETag r : trimSpace (formatETag r) = formatETag r.
Proof. unfold formatETag. cbn [app]. by apply trimSpace_ends. Qed.

Lemma parseIfMatch_etag v r :
  parseETag (trimSpace v) = Ok r -> parseIfMatch [v] = Ok (MatchCond true false r).
Proof.
  intros H. unfold parseIfMatch. rewrite bool_decide_eq_false_2; [by rewrite H|].
  intros E. by rewrite E in H.
Qed.

(** ** Properties *)

(** entity tags and revisions correspond one to one: [parseETag] accepts
    exactly the strings [formatETag] makes of a sixteen-byte revision, and gives
    that revision back. *)
Lemma parseETag_iff value rev :
  parseETag value = Ok rev <-> wf_revision rev /\ value = formatETag rev.
Proof.
  split; [apply parseETag_inv|]. intros [H ->]. by apply parseETag_formatETag.
Qed.

(** An [If-Match] header holding a revision's entity tag, in any padding that
    [strings.TrimSpace] removes, admits that revision and no other; the wildcard
    admits every revision, and so does the absence of the header. *)
Lemma parseIfMatch_admits rev value :
  wf_revision rev -> trimSpace value = formatETag rev ->
  (exists m, parseIfMatch [value] = Ok m /\
             forall current, matchRevision m current = true <-> current = rev) /\
  (exists m, parseIfMatch [str "*"] = Ok m /\ forall current, matchRevision m current = true) /\
  (exists m, parseIfMatch [] = Ok m /\ forall current, matchRevision m current = true) /\
  (forall v1 v2 vs, parseIfMatch (v1 :: v2 :: vs) = Err errInvalidIfMatch).
Proof.
  intros Hr Hv. split; [|split; [|split]].
  - exists (MatchCond true false rev). split.
    + apply parseIfMatch_etag. rewrite Hv. by apply parseETag_formatETag.
    + intros current. unfold matchRevision. cbn [mc_set mc_wildcard mc_revision negb orb].
      rewrite bool_decide_eq_true. by split; intros ->.
  - by eexists.
  - by eexists.
  - done.
Qed.

(** A generated document ID is accepted by [validateID], and IDs generated
    at a later millisecond of the 48-bit clock sort after the earlier ones,
    whatever their random parts. *)
Lemma formatID_valid_ordered random1 random2 millis1 millis2 :
  length random1 = 16%nat -> length random2 = 16%nat ->
  0 <= millis1 -> millis1 < millis2 -> millis2 < 2 ^ 48 ->
  validateID (formatID random1 millis1) = Ok () /\
  validateID (formatID random2 millis2) = Ok () /\
  bcmp (formatID random1 millis1) (formatID random2 millis2) = Lt.
Proof.
  intros H1 H2 Hm Hlt Hb. split; [by apply validID_formatID|].
  split; [by apply validID_formatID|]. by apply formatID_order.
Qed.

(** [readBody] returns the whole body exactly when the reader delivers at
    most [maxBytes] bytes and then ends; a longer body is refused as too large
    and a read failure keeps its cause. *)
Lemma readBody_spec data end_ maxBytes :
  0 <= maxBytes < maxInt64 ->
  readBody (Reader data end_) maxBytes =
  if maxBytes <? len data then Err errBodyTooLarge
  else match end_ with None => Ok data | Some e => Err (wrapf e) end.
Proof.
  intros Hm. unfold readBody, readAllLimit. cbn [r_data r_err].
  destruct (Z.ltb_spec maxBytes maxInt64); [|lia].
  pose proof (len_nonneg data).
  destruct (Z.leb_spec (maxBytes + 1) (len data)) as [Hl|Hl].
  - destruct (Z.ltb_spec maxBytes (len data)); [|lia].
    destruct (Z.ltb_spec maxBytes (len (take (Z.to_nat (maxBytes + 1)) data))) as [|Hc]; [done|].
    exfalso. unfold len in *. rewrite length_take in Hc. lia.
  - destruct (Z.ltb_spec maxBytes (len data)); [lia|]. destruct end_; [done|].
    destruct (Z.ltb_spec maxBytes (len data)); [lia|done].
Qed.

Lemma readBody_spec_witness :
  readBody (Reader (str "abcd") None) 3 = Err errBodyTooLarge.
Proof. refine (readBody_spec (str "abcd") None 3 _). vm_compute. split; congruence. Defined.
