(* ===== verification/Keys.v ===== *)
(** * Keys of the store

    The key layout of storage.go and index.go, and [prefixEnd], the end of the
    range of keys that share a prefix. *)

From S2P Require Import Prelude Codec Text Validation.

(** ** The layout *)

Definition storeMetaKey : bytes := [x00].
Definition dbPrefix : bytes := [x01].
Definition docPrefix : bytes := [x02].
Definition idxDefPrefix : bytes := [x03].
Definition idxDataPrefix : bytes := [x04].

Definition appendKey (prefix value : bytes) : bytes := prefix ++ value.

Definition dbKey (name : bytes) : bytes := appendKey dbPrefix name.
Definition docsPrefix (database : bytes) : bytes := appendKey docPrefix database ++ [x00].
Definition docKey (database id : bytes) : bytes := docsPrefix database ++ id.

Definition indexDefPrefix (database : bytes) : bytes := appendPart idxDefPrefix database.
Definition indexDefKey (database index : bytes) : bytes :=
  appendPart (indexDefPrefix database) index.
Definition indexDataPrefix (database : bytes) : bytes := appendPart idxDataPrefix database.
Definition indexTypePrefix (database index : bytes) (valueType : byte) : bytes :=
  appendPart (indexDataPrefix database) index ++ [valueType].
Definition indexValuePrefix (database index value : bytes) : bytes :=
  appendPart (indexDataPrefix database) index ++ value.
Definition indexKey (database index value id : bytes) : bytes :=
  indexValuePrefix database index value ++ id.

(** ** Ranges

    [prefixEnd] is the first key after every key with the prefix.  The loop
    walks the prefix from its last byte; [None] is Go's [nil], no upper bound. *)
Fixpoint prefixEnd_loop (rev_prefix : bytes) : option bytes :=
  match rev_prefix with
  | [] => None
  | c :: r =>
      if negb (beqb c xff) then Some (reverse (z2b (b2z c + 1) :: r)) else prefixEnd_loop r
  end.

Definition prefixEnd (prefix : bytes) : option bytes := prefixEnd_loop (reverse prefix).

(** Membership in the range an iterator is opened on. *)
Definition in_bounds (lo hi : option bytes) (k : bytes) : bool :=
  match lo with Some l => bool_decide (l <=b k) | None => true end
  && match hi with Some h => bool_decide (k <b h) | None => true end.

(** ** Lemmas *)

Lemma prefixEnd_snoc p c :
  prefixEnd (p ++ [c]) =
  if negb (beqb c xff) then Some (p ++ [z2b (b2z c + 1)]) else prefixEnd p.
Proof.
  unfold prefixEnd. rewrite reverse_snoc. simpl. case_match; [|done].
  by rewrite reverse_cons, reverse_involutive.
Qed.

(** Between a prefix and its successor lie exactly its extensions. *)
Lemma succ_prefix_spec p c k :
  b2z c < 255 ->
  (p ++ [c] <=b k /\ k <b p ++ [z2b (b2z c + 1)]) <-> p ++ [c] `prefix_of` k.
Proof.
  intros Hc. pose proof (b2z_range c).
  assert (b2z (z2b (b2z c + 1)) = b2z c + 1) as Hs by (apply b2z_z2b_small; lia).
  split.
  - intros [H1 H2]. revert k H1 H2. induction p as [|x p IH]; intros k H1 H2.
    + destruct k as [|y k]; [by destruct (H1 eq_refl)|].
      unfold ble, blt in *. simpl in H1, H2. rewrite Hs in H2.
      destruct (Z.compare_spec (b2z c) (b2z y)) as [E| |]; [|exfalso|done].
      * apply b2z_inj in E as ->. by exists k.
      * destruct (Z.compare_spec (b2z y) (b2z c + 1)); [by destruct k|lia|done].
    + destruct k as [|y k]; [by destruct (H1 eq_refl)|].
      unfold ble, blt in *. simpl in H1, H2.
      destruct (Z.compare_spec (b2z x) (b2z y)) as [E|E|E]; [|exfalso|done].
      * rewrite E, Z.compare_refl in *. apply b2z_inj in E as ->.
        destruct (IH _ H1 H2) as [k' ->]. by exists k'.
      * destruct (Z.compare_spec (b2z y) (b2z x)); lia || done.
  - intros [k' ->]. rewrite <- app_assoc. split.
    + apply ble_app_same, ble_app_r.
    + apply blt_app_same. unfold blt. simpl. rewrite Hs.
      by rewrite (proj2 (Z.compare_lt_iff _ _)) by lia.
Qed.

Lemma ble_prefix_ff p k :
  p ++ [xff] <=b k -> p `prefix_of` k -> p ++ [xff] `prefix_of` k.
Proof.
  intros H [k' ->]. apply ble_app_same in H. apply prefix_app.
  destruct k' as [|y k']; [by destruct (H eq_refl)|]. unfold ble in H. cbn [bcmp] in H.
  pose proof (b2z_range y). change (b2z xff) with 255 in H.
  destruct (Z.compare_spec 255 (b2z y)) as [E|E|E]; [|lia|done].
  change 255 with (b2z xff) in E. apply b2z_inj in E as <-. by exists k'.
Qed.

(** The range a prefix scan or a range deletion covers, from the prefix up to
    [prefixEnd] of it, holds exactly the keys that extend the prefix, prefixes that
    end in 0xff bytes included. *)
Lemma prefixEnd_spec p k :
  in_bounds (Some p) (prefixEnd p) k = true <-> p `prefix_of` k.
Proof.
  unfold in_bounds. rewrite andb_true_iff, bool_decide_eq_true.
  induction p as [|c p IH] using rev_ind.
  { simpl. split; [intros; apply prefix_nil|]. split; [apply (ble_app_r [])|done]. }
  rewrite prefixEnd_snoc. destruct (beqb_spec c xff) as [->|Hc]; simpl.
  - split.
    + intros [H1 H2]. apply ble_prefix_ff; [done|]. apply IH. split; [|done].
      etrans; [|exact H1]. apply ble_app_r.
    + intros Hp. split; [|apply IH; etrans; [|exact Hp]; by apply prefix_app_r].
      destruct Hp as [k' ->]. apply ble_app_r.
  - rewrite bool_decide_eq_true. apply succ_prefix_spec.
    pose proof (b2z_range c). assert (b2z c <> 255); [|lia].
    intros E. apply Hc, b2z_inj. by rewrite E.
Qed.

(** *** Injectivity *)

Lemma app_no_sep_inj {A} (s : A) a b x y :
  s ∉ a -> s ∉ b -> a ++ s :: x = b ++ s :: y -> a = b /\ x = y.
Proof.
  revert b. induction a as [|c a IH]; intros [|d b] Ha Hb E; simpl in *; simplify_eq; auto.
  - set_solver.
  - set_solver.
  - destruct (IH b); set_solver.
Qed.

Lemma docsPrefix_prefix n n' id :
  x00 ∉ n -> x00 ∉ n' -> docsPrefix n `prefix_of` docKey n' id -> n = n'.
Proof.
  intros H1 H2 [k E]. unfold docKey, docsPrefix, appendKey in E.
  rewrite <- !app_assoc in E. simpl in E. injection E as E.
  symmetry in E. by apply app_no_sep_inj in E as [-> _].
Qed.

Lemma docKey_inj n n' id id' :
  x00 ∉ n -> x00 ∉ n' -> docKey n id = docKey n' id' -> n = n' /\ id = id'.
Proof.
  intros H1 H2 E. unfold docKey, docsPrefix, appendKey in E.
  rewrite <- !app_assoc in E. simpl in E. injection E as E.
  by apply app_no_sep_inj in E.
Qed.

Lemma indexDefKey_app n i :
  indexDefKey n i = x03 :: appendPart [] n ++ appendPart [] i.
Proof. unfold indexDefKey, indexDefPrefix. by rewrite appendPart_app, (appendPart_app idxDefPrefix). Qed.

Lemma indexDataPrefix_app n : indexDataPrefix n = x04 :: appendPart [] n.
Proof. unfold indexDataPrefix. by rewrite appendPart_app. Qed.

Lemma indexDefPrefix_app n : indexDefPrefix n = x03 :: appendPart [] n.
Proof. unfold indexDefPrefix. by rewrite appendPart_app. Qed.

Lemma indexKey_app n i v id :
  indexKey n i v id = x04 :: appendPart [] n ++ appendPart [] i ++ v ++ id.
Proof.
  unfold indexKey, indexValuePrefix. rewrite appendPart_app, indexDataPrefix_app.
  by rewrite <- !app_assoc.
Qed.

Lemma indexDefKey_inj n n' i i' :
  slice_len n -> slice_len n' -> slice_len i -> slice_len i' ->
  indexDefKey n i = indexDefKey n' i' -> n = n' /\ i = i'.
Proof.
  intros ???? E. rewrite !indexDefKey_app in E. injection E as E.
  apply appendPart_inj in E as [-> E]; [|done..].
  rewrite <- (app_nil_r (appendPart [] i)), <- (app_nil_r (appendPart [] i')) in E.
  by apply appendPart_inj in E as [-> _].
Qed.

Lemma indexKey_inj n n' i i' v v' id id' :
  slice_len n -> slice_len n' -> slice_len i -> slice_len i' ->
  indexKey n i v id = indexKey n' i' v' id' -> n = n' /\ i = i' /\ v ++ id = v' ++ id'.
Proof.
  intros ???? E. rewrite !indexKey_app in E. injection E as E.
  apply appendPart_inj in E as [-> E]; [|done..].
  by apply appendPart_inj in E as [-> ->].
Qed.

Lemma indexDataPrefix_prefix n n' i v id :
  slice_len n -> slice_len n' -> indexDataPrefix n `prefix_of` indexKey n' i v id -> n = n'.
Proof.
  intros H1 H2 [k E]. rewrite indexDataPrefix_app, indexKey_app in E. simpl in E. injection E as E.
  by apply appendPart_inj in E as [-> _].
Qed.

Lemma indexDefPrefix_prefix n n' i :
  slice_len n -> slice_len n' -> indexDefPrefix n `prefix_of` indexDefKey n' i -> n = n'.
Proof.
  intros H1 H2 [k E]. rewrite indexDefPrefix_app, indexDefKey_app in E. simpl in E. injection E as E.
  by apply appendPart_inj in E as [-> _].
Qed.

(** ** Properties *)

(** C39: keys of different documents, index definitions or index entries never
    collide, whatever the database and index names, and the keys of a database
    lie outside the ranges of every other: no name is mistaken for a longer one. *)
Theorem keys_separate n n' id id' i i' v v' :
  validName n -> validName n' -> validName i -> validName i' ->
  (docKey n id = docKey n' id' -> n = n' /\ id = id') /\
  (docsPrefix n `prefix_of` docKey n' id' -> n = n') /\
  (indexDefKey n i = indexDefKey n' i' -> n = n' /\ i = i') /\
  (indexKey n i v id = indexKey n' i' v' id' -> n = n' /\ i = i' /\ v ++ id = v' ++ id') /\
  (indexDataPrefix n `prefix_of` indexKey n' i' v' id' -> n = n') /\
  (indexDefPrefix n `prefix_of` indexDefKey n' i' -> n = n').
Proof.
  intros H1 H2 H3 H4. split; [|split; [|split; [|split; [|split]]]].
  - apply docKey_inj; by apply validName_no_nul.
  - apply docsPrefix_prefix; by apply validName_no_nul.
  - apply indexDefKey_inj; by apply validName_slice.
  - apply indexKey_inj; by apply validName_slice.
  - apply indexDataPrefix_prefix; by apply validName_slice.
  - apply indexDefPrefix_prefix; by apply validName_slice.
Qed.

Lemma keys_separate_witness : ~ docsPrefix (str "db") `prefix_of` docKey (str "db1") (str "x").
Proof.
  intros H. apply (keys_separate (str "db") (str "db1") (str "x") (str "x") (str "i") (str "i")
    [] []) in H; vm_compute in *; congruence.
Defined.
