(* ===== verification/Number.v ===== *)
(** * Numbers

    JSON number literals, the exact rational each denotes (what the program uses
    of [math/big]), and the order-preserving encoding of index.go. *)

From S2P Require Import Prelude Codec Text.
From Stdlib Require Import QArith Qreduction Qpower Znumtheory Zpow_facts.

#[global] Open Scope Z_scope.

(** ** JSON number literals *)

Record numLit := NumLit {
  nl_neg : bool;
  nl_int : bytes;
  nl_frac : bytes;
  nl_exp : option (bool * bytes);
}.

Fixpoint span (p : byte -> bool) (s : bytes) : bytes * bytes :=
  match s with
  | c :: s' => if p c then let '(a, b) := span p s' in (c :: a, b) else ([], s)
  | [] => ([], [])
  end.

(** The integer part: a zero, or digits that do not start with one. *)
Definition scanInt (s : bytes) : option (bytes * bytes) :=
  match s with
  | c :: s' =>
      if beqb c "0" then Some ([c], s')
      else if isDigit c then Some (span isDigit s) else None
  | [] => None
  end.

Definition scanFrac (s : bytes) : bytes * bytes :=
  match s with
  | dot :: ((d :: _) as s') =>
      if beqb dot "." && isDigit d then span isDigit s' else ([], s)
  | _ => ([], s)
  end.

Definition scanExp (s : bytes) : option (option (bool * bytes) * bytes) :=
  match s with
  | e :: ((c :: s'') as s') =>
      if beqb e "e" || beqb e "E" then
        let '(neg, ds) :=
          if beqb c "-" then (true, s'') else if beqb c "+" then (false, s'') else (false, s') in
        match ds with
        | [] => None
        | _ => let '(digits, rest) := span isDigit ds in Some (Some (neg, digits), rest)
        end
      else Some (None, s)
  | _ => Some (None, s)
  end.

(** The parts of a literal; [None] where [isValidNumber] of encoding/json is
    false, the check [json.Marshal] makes of a [json.Number]. *)
Definition splitNumber (s : bytes) : option numLit :=
  let '(neg, s1) :=
    match s with c :: s' => if beqb c "-" then (true, s') else (false, s) | [] => (false, s) end in
  '(int, s2) ← scanInt s1;
  let '(frac, s3) := scanFrac s2 in
  '(exp, s4) ← scanExp s3;
  match s4 with [] => Some (NumLit neg int frac exp) | _ => None end.

Definition isValidNumber (s : bytes) : bool :=
  match splitNumber s with Some _ => true | None => false end.

(** ** Rationals

    [new(big.Rat).SetString] on a literal of that syntax: a decimal mantissa and
    an exponent that must fit an [int64]; a power of ten beyond 10^6 is refused,
    except for a zero mantissa.  A [big.Rat] is kept in lowest terms. *)

Definition litExponent (l : numLit) : option Z :=
  match nl_exp l with
  | None => Some 0
  | Some (neg, ds) =>
      match ds with
      | [] => None
      | _ =>
          let e := if neg : bool then - decVal ds else decVal ds in
          if (minInt64 <=? e) && (e <=? maxInt64) then Some e else None
      end
  end.

(** [int64] arithmetic wraps around. *)
Definition wrap64 (z : Z) : Z := (z + 2 ^ 63) mod 2 ^ 64 - 2 ^ 63.

Definition maxRatExp : Z := 1000000.

Definition scaleRat (m e : Z) : Q :=
  Qred (if 0 <=? e then inject_Z (m * 10 ^ e) else Qmake m (Z.to_pos (10 ^ (- e)))).

Definition ratOfLit (l : numLit) : option Q :=
  e ← litExponent l;
  let m := decVal (nl_int l ++ nl_frac l) in
  if m =? 0 then Some (0 # 1)%Q
  else
    let exp10 := wrap64 (- len (nl_frac l) + e) in
    if maxRatExp <? Z.abs exp10 then None
    else Some (scaleRat (if nl_neg l then - m else m) exp10).

Definition ratSetString (s : bytes) : option Q := l ← splitNumber s; ratOfLit l.

(** [number.RatString()]. *)
Definition ratString (q : Q) : bytes :=
  if (Qden q =? 1)%positive then itoa (Qnum q)
  else itoa (Qnum q) ++ [("/")%byte] ++ itoa (Zpos (Qden q)).

(** ** The sortable encoding (index.go) *)

(** [for denominator.Bit(0) == 0 { denominator.Rsh(denominator, 1); twos++ }]. *)
Fixpoint countTwos (d : positive) : Z * positive :=
  match d with
  | xO d' => let '(n, r) := countTwos d' in (n + 1, r)
  | _ => (0, d)
  end.

(** The loop that divides by five until a remainder is left; a positive number
    has fewer factors than bits. *)
Fixpoint countFives_loop (fuel : nat) (d : Z) : Z :=
  match fuel with
  | O => 0
  | S f => if d mod 5 =? 0 then countFives_loop f (d / 5) + 1 else 0
  end.

Definition countFives (d : positive) : Z := countFives_loop (Pos.size_nat d) (Zpos d).

(** [for digits[len(digits)-1] == '0' { digits = ...; scale-- }], on the digits
    in reverse. *)
Fixpoint stripZeros_rev (rev_digits : bytes) (scale : Z) : bytes * Z :=
  match rev_digits with
  | c :: r => if beqb c "0" then stripZeros_rev r (scale - 1) else (rev_digits, scale)
  | [] => ([], scale)
  end.

Definition stripZeros (digits : bytes) (scale : Z) : bytes * Z :=
  let '(r, s) := stripZeros_rev (reverse digits) scale in (reverse r, s).

(** The digits and the scale of a positive decimal fraction. *)
Definition decimalDigits (num : Z) (den : positive) : bytes * Z :=
  let '(twos, odd) := countTwos den in
  let fives := countFives odd in
  let scale := Z.max twos fives in
  let c1 := if twos <? scale then num * 2 ^ (scale - twos) else num in
  let c2 := if fives <? scale then c1 * 5 ^ (scale - fives) else c1 in
  stripZeros (decString c2) scale.

(** [binary.BigEndian.PutUint64(encoded, uint64(exponent)^(uint64(1)<<63))]. *)
Definition orderedExponent (exponent : Z) : Z := Z.lxor (exponent mod 2 ^ 64) (2 ^ 63).

Definition incDigit (c : byte) : byte := z2b (b2z c - 48 + 1).

Definition encodeMagnitude (digits : bytes) (exponent : Z) : bytes :=
  putUint64 (orderedExponent exponent) ++ map incDigit digits ++ [x00].

Definition encodeSortableNumber (number : Q) : bytes :=
  if Qnum number =? 0 then [x01]
  else
    let '(digits, scale) := decimalDigits (Z.abs (Qnum number)) (Qden number) in
    let encoded := encodeMagnitude digits (wrap64 (len digits - scale)) in
    if 0 <? Qnum number then x02 :: encoded else x00 :: map bnot encoded.

(** ** Lemmas *)

Lemma countTwos_spec d t r :
  countTwos d = (t, r) -> 0 <= t /\ Zpos d = Zpos r * 2 ^ t /\ Z.Odd (Zpos r).
Proof.
  revert t r. induction d as [d IH|d IH|]; intros t r; cbn [countTwos].
  - intros [= <- <-]. split; [done|]. split; [lia|]. by exists (Zpos d).
  - destruct (countTwos d) as [t' r'] eqn:E. intros [= <- <-].
    destruct (IH _ _ eq_refl) as (H1 & H2 & H3). split; [lia|]. split; [|done].
    rewrite Pos2Z.inj_xO, H2, Z.pow_add_r by lia. lia.
  - intros [= <- <-]. split; [done|]. split; [done|]. by exists 0.
Qed.

Lemma countFives_loop_spec fuel d :
  0 < d < 2 ^ Z.of_nat fuel ->
  exists m, 0 <= countFives_loop fuel d /\ d = 5 ^ countFives_loop fuel d * m /\ m mod 5 <> 0.
Proof.
  revert d. induction fuel as [|f IH]; intros d Hd; [simpl in Hd; lia|].
  cbn [countFives_loop]. destruct (Z.eqb_spec (d mod 5) 0) as [E|E].
  - apply Z.mod_divide in E as [q ->]; [|lia]. rewrite Z.div_mul by lia.
    rewrite Nat2Z.inj_succ, Z.pow_succ_r in Hd by lia.
    destruct (IH q) as (m & H1 & H2 & H3); [nia|].
    exists m. split; [lia|]. split; [|done]. rewrite Z.pow_add_r by lia. lia.
  - exists d. split; [done|]. split; [lia|done].
Qed.

Lemma countFives_spec d :
  exists m, 0 <= countFives d /\ Zpos d = 5 ^ countFives d * m /\ m mod 5 <> 0.
Proof.
  apply countFives_loop_spec. split; [done|].
  assert (Zpos d < 2 ^ Zpos (Pos.size d)) as H1.
  { rewrite <- Pos2Z.inj_pow. apply Pos2Z.pos_lt_pos, Pos.size_gt. }
  replace (Z.of_nat (Pos.size_nat d)) with (Zpos (Pos.size d)); [done|].
  clear. induction d as [d IH|d IH|]; cbn [Pos.size_nat Pos.size]; lia.
Qed.

(** A denominator whose only prime factors are two and five. *)
Definition decimalDen (d : positive) : Prop := exists k, 0 <= k /\ (Zpos d | 10 ^ k).

Lemma odd_coprime_2 r : Z.Odd r -> rel_prime r 2.
Proof.
  intros [m ->]. apply Zgcd_1_rel_prime. rewrite Z.gcd_comm.
  replace (2 * m + 1) with (1 + m * 2) by lia. rewrite Z.gcd_add_mult_diag_r.
  apply Z.gcd_1_r.
Qed.

Lemma nonzero_mod5_coprime m : m mod 5 <> 0 -> rel_prime m 5.
Proof.
  intros H. apply rel_prime_sym, prime_rel_prime.
  - constructor; [lia|]. intros n Hn. apply Zgcd_1_rel_prime.
    assert (n = 1 \/ n = 2 \/ n = 3 \/ n = 4) as Hc by lia.
    by destruct Hc as [-> | [-> | [-> | ->]]].
  - intros Hd. apply H. by apply Z.mod_divide.
Qed.

Lemma divide_coprime_pow m p k : 0 <= k -> 0 < m -> rel_prime m p -> (m | p ^ k) -> m = 1.
Proof.
  intros Hk Hm Hc Hd.
  assert (rel_prime m (p ^ k)) as Hr by (by apply rel_prime_Zpower_r).
  apply Zgcd_1_rel_prime in Hr. apply Z.divide_gcd_iff in Hd; lia.
Qed.

Lemma decimalDen_factors d t r :
  decimalDen d -> countTwos d = (t, r) -> Zpos d = 2 ^ t * 5 ^ countFives r.
Proof.
  intros (k & Hk & Hd) Ht. apply countTwos_spec in Ht as (H1 & H2 & H3).
  destruct (countFives_spec r) as (m & H4 & H5 & H6).
  assert (0 < m) as Hm by (assert (0 < 5 ^ countFives r) by (apply Z.pow_pos_nonneg; lia); nia).
  assert (m = 1) as ->.
  { apply (divide_coprime_pow m 5 k); [done..|by apply nonzero_mod5_coprime|].
    assert (Zpos r | 5 ^ k) as Hr.
    { apply (Gauss _ (2 ^ k)).
      - rewrite <- Z.pow_mul_l. etrans; [|exact Hd]. exists (2 ^ t). lia.
      - apply rel_prime_Zpower_r; [done|]. by apply odd_coprime_2. }
    etrans; [|exact Hr]. exists (5 ^ countFives r). lia. }
  lia.
Qed.

(** *** The decimal digits of a fraction *)

Definition digits (D : bytes) : Prop := Forall (fun c => isDigit c = true) D.
Definition noTrailingZero (D : bytes) : Prop := forall D' c, D = D' ++ [c] -> c <> ("0")%byte.
Definition noLeadingZero (D : bytes) : Prop := forall c D', D = c :: D' -> c <> ("0")%byte.

(** [D] at scale [s] are the digits of [num / den]: [D] without superfluous
    zeros, and [num / den = D * 10^-s]. *)
Definition decimalOf (num : Z) (den : positive) (D : bytes) (s : Z) : Prop :=
  D <> [] /\ digits D /\ noTrailingZero D /\ noLeadingZero D /\
  forall K, 0 <= K -> s <= K -> num * 10 ^ K = decVal D * 10 ^ (K - s) * Zpos den.

Lemma decVal_snoc D c : decVal (D ++ [c]) = 10 * decVal D + (b2z c - 48).
Proof.
  rewrite decVal_app. change (len [c]) with 1.
  unfold decVal at 2, decVal_acc. cbn [fold_left]. lia.
Qed.

Lemma decVal_cons c D : decVal (c :: D) = (b2z c - 48) * 10 ^ len D + decVal D.
Proof.
  change (c :: D) with ([c] ++ D). rewrite decVal_app.
  unfold decVal at 1, decVal_acc. cbn [fold_left]. lia.
Qed.

Lemma stripZeros_rev_spec R s :
  let '(R', s') := stripZeros_rev R s in
  s' <= s /\ (forall c r, R' = c :: r -> c <> ("0")%byte) /\
  exists z, R = replicate z ("0")%byte ++ R' /\ s = s' + Z.of_nat z.
Proof.
  revert s. induction R as [|c R IH]; intros s; cbn [stripZeros_rev].
  { split; [done|]. split; [done|]. exists 0%nat. simpl. split; [done|lia]. }
  destruct (beqb_spec c "0") as [->|Hc].
  - specialize (IH (s - 1)). destruct (stripZeros_rev R (s - 1)) as [R' s'].
    destruct IH as (H1 & H2 & z & H3 & H4). split; [lia|]. split; [done|].
    exists (S z). simpl. split; [by f_equal|lia].
  - split; [lia|]. split; [by intros ?? [= <- <-]|]. exists 0%nat. simpl. split; [done|lia].
Qed.

Lemma decVal_zeros D z : decVal (D ++ replicate z ("0")%byte) = decVal D * 10 ^ Z.of_nat z.
Proof.
  rewrite decVal_app. unfold len. rewrite length_replicate.
  assert (decVal (replicate z ("0")%byte) = 0) as ->; [|lia].
  induction z as [|z IH]; [done|]. cbn [replicate]. rewrite decVal_cons, IH.
  change (b2z "0") with 48. lia.
Qed.

Lemma stripZeros_spec c s :
  0 < c ->
  let '(D, s') := stripZeros (decString c) s in
  D <> [] /\ digits D /\ noTrailingZero D /\ noLeadingZero D /\ s' <= s /\
  c = decVal D * 10 ^ (s - s').
Proof.
  intros Hc. unfold stripZeros.
  destruct (decString_spec c ltac:(lia)) as [Hv Hd].
  destruct (decString_head c Hc) as (h & t & Hh & Hh0).
  pose proof (stripZeros_rev_spec (reverse (decString c)) s) as H.
  destruct (stripZeros_rev _ s) as [R s'] eqn:E. destruct H as (H1 & H2 & z & H3 & H4).
  apply (f_equal reverse) in H3. rewrite reverse_involutive, reverse_app, reverse_replicate in H3.
  rewrite H3, decVal_zeros in Hv.
  assert (reverse R <> []) as Hne.
  { intros E'. rewrite E' in Hv. cbn in Hv. lia. }
  split; [done|]. split; [rewrite H3 in Hd; by apply Forall_app in Hd as [? _]|].
  split.
  { intros D' d E'. apply (f_equal reverse) in E'.
    rewrite reverse_involutive, reverse_snoc in E'. by eapply H2. }
  split.
  { intros d D' E'. rewrite E' in H3. rewrite Hh in H3. simpl in H3. by injection H3 as <- _. }
  split; [done|]. rewrite H4. replace (s' + Z.of_nat z - s') with (Z.of_nat z) by lia. done.
Qed.

Lemma decimalDigits_spec num den :
  0 < num -> decimalDen den ->
  let '(D, s) := decimalDigits num den in decimalOf num den D s.
Proof.
  intros Hn Hd. unfold decimalDigits.
  destruct (countTwos den) as [t r] eqn:Et.
  pose proof (decimalDen_factors _ _ _ Hd Et) as Hden.
  apply countTwos_spec in Et as (Ht & _ & _).
  destruct (countFives_spec r) as (_ & Hf & _). set (f := countFives r) in *.
  set (sc := Z.max t f).
  assert (forall b a x, 0 < b -> (if a <? sc then x * b ^ (sc - a) else x) = x * b ^ Z.max 0 (sc - a))
    as Hif.
  { intros b a x Hb. destruct (Z.ltb_spec a sc).
    - by rewrite Z.max_r by lia.
    - rewrite Z.max_l by lia. lia. }
  rewrite !Hif by lia. rewrite !Z.max_r by lia.
  set (c := num * 2 ^ (sc - t) * 5 ^ (sc - f)).
  assert (0 < c) as Hc.
  { unfold c. apply Z.mul_pos_pos; [apply Z.mul_pos_pos; [done|]|]; apply Z.pow_pos_nonneg; lia. }
  pose proof (stripZeros_spec c sc Hc) as H. destruct (stripZeros _ sc) as [D s].
  destruct H as (H1 & H2 & H3 & H4 & H5 & H6).
  do 4 (split; [done|]). intros K HK Hs.
  assert (num * 10 ^ sc = c * Zpos den) as Hcd.
  { unfold c. rewrite Hden. change 10 with (2 * 5). rewrite Z.pow_mul_l.
    replace (2 ^ sc) with (2 ^ (sc - t) * 2 ^ t) by (rewrite <- Z.pow_add_r by lia; f_equal; lia).
    replace (5 ^ sc) with (5 ^ (sc - f) * 5 ^ f) by (rewrite <- Z.pow_add_r by lia; f_equal; lia).
    lia. }
  apply (Z.mul_cancel_r _ _ (10 ^ sc)); [apply Z.pow_nonzero; lia|].
  transitivity (num * 10 ^ sc * 10 ^ K); [lia|]. rewrite Hcd, H6.
  transitivity (decVal D * Zpos den * (10 ^ (sc - s) * 10 ^ K)); [lia|].
  transitivity (decVal D * Zpos den * (10 ^ (K - s) * 10 ^ sc)); [|lia].
  f_equal. rewrite <- !Z.pow_add_r by lia. f_equal. lia.
Qed.

(** *** Comparing encodings *)

Lemma digit_not_zero c : isDigit c = true -> c <> ("0")%byte -> 49 <= b2z c <= 57.
Proof.
  intros Hd Hc. apply isDigit_val in Hd. assert (b2z c <> 48); [|lia].
  intros E. apply Hc, b2z_inj. by rewrite E.
Qed.

Lemma decVal_lower D :
  digits D -> noLeadingZero D -> D <> [] -> 10 ^ (len D - 1) <= decVal D.
Proof.
  intros Hd Hl Hne. destruct D as [|c D]; [done|].
  apply Forall_cons in Hd as [Hc Hd]. pose proof (decVal_bound D Hd).
  pose proof (digit_not_zero c Hc (Hl c D eq_refl)).
  rewrite decVal_cons, len_cons. replace (1 + len D - 1) with (len D) by lia. nia.
Qed.

Lemma decVal_pos D : digits D -> noTrailingZero D -> D <> [] -> 0 < decVal D.
Proof.
  intros Hd Ht Hne. destruct D as [|c D _] using rev_ind; [done|].
  apply Forall_app in Hd as [Hd Hc]. apply Forall_cons in Hc as [Hc _].
  pose proof (digit_not_zero c Hc (Ht D c eq_refl)). pose proof (decVal_bound D Hd).
  rewrite decVal_snoc. lia.
Qed.

Lemma noTrailingZero_tail c D : noTrailingZero (c :: D) -> noTrailingZero D.
Proof. intros H D' d ->. by apply (H (c :: D') d). Qed.

Lemma incDigit_val c : isDigit c = true -> b2z (incDigit c) = b2z c - 47.
Proof. intros H%isDigit_val. unfold incDigit. rewrite b2z_z2b_small; lia. Qed.

(** [D], read as a fraction [0.D], in units of [10^-L]. *)
Definition fracVal (L : Z) (D : bytes) : Z := decVal D * 10 ^ (L - len D).

Lemma fracVal_cons L c D :
  len (c :: D) <= L -> fracVal L (c :: D) = (b2z c - 48) * 10 ^ (L - 1) + fracVal (L - 1) D.
Proof.
  intros HL. rewrite len_cons in HL. pose proof (len_nonneg D). unfold fracVal.
  rewrite decVal_cons, len_cons. replace (L - (1 + len D)) with (L - 1 - len D) by lia.
  rewrite Z.mul_add_distr_r, <- Z.mul_assoc, <- Z.pow_add_r by lia.
  by replace (len D + (L - 1 - len D)) with (L - 1) by lia.
Qed.

Lemma fracVal_bound L D : digits D -> len D <= L -> 0 <= fracVal L D < 10 ^ L.
Proof.
  intros Hd HL. unfold fracVal. pose proof (decVal_bound D Hd). pose proof (len_nonneg D).
  assert (0 < 10 ^ (L - len D)) by (apply Z.pow_pos_nonneg; lia).
  split; [nia|]. replace (10 ^ L) with (10 ^ len D * 10 ^ (L - len D)); [nia|].
  rewrite <- Z.pow_add_r by lia. f_equal. lia.
Qed.

Lemma fracVal_pos L D :
  digits D -> noTrailingZero D -> D <> [] -> len D <= L -> 0 < fracVal L D.
Proof.
  intros. unfold fracVal. apply Z.mul_pos_pos; [by apply decVal_pos|].
  apply Z.pow_pos_nonneg; lia.
Qed.

(** The terminated digits are ordered as the fractions they denote. *)
Lemma bcmp_digits D1 D2 L u v :
  digits D1 -> digits D2 -> noTrailingZero D1 -> noTrailingZero D2 ->
  len D1 <= L -> len D2 <= L ->
  bcmp (map incDigit D1 ++ x00 :: u) (map incDigit D2 ++ x00 :: v) =
  match fracVal L D1 ?= fracVal L D2 with Eq => bcmp u v | c => c end.
Proof.
  revert D2 L. induction D1 as [|c D1 IH]; intros [|d D2] L H1 H2 H3 H4 H5 H6.
  - simpl map. cbn [app bcmp]. by rewrite !Z.compare_refl.
  - assert (fracVal L [] = 0) as -> by done.
    pose proof (fracVal_pos L (d :: D2) H2 H4 ltac:(done) H6).
    apply Forall_cons in H2 as [Hd _]. apply isDigit_val in Hd as Hd'.
    cbn [map app bcmp]. rewrite incDigit_val by done. change (b2z x00) with 0.
    rewrite !(proj2 (Z.compare_lt_iff _ _)) by lia. done.
  - assert (fracVal L [] = 0) as -> by done.
    pose proof (fracVal_pos L (c :: D1) H1 H3 ltac:(done) H5).
    apply Forall_cons in H1 as [Hd _]. apply isDigit_val in Hd as Hd'.
    cbn [map app bcmp]. rewrite incDigit_val by done. change (b2z x00) with 0.
    rewrite !(proj2 (Z.compare_gt_iff _ _)) by lia. done.
  - rewrite !fracVal_cons by done. rewrite len_cons in H5, H6.
    apply Forall_cons in H1 as [Hc H1]. apply Forall_cons in H2 as [Hd H2].
    cbn [map app bcmp]. rewrite !incDigit_val by done.
    pose proof (fracVal_bound (L - 1) D1 H1 ltac:(lia)).
    pose proof (fracVal_bound (L - 1) D2 H2 ltac:(lia)).
    rewrite (IH D2 (L - 1)) by (done || lia || by eapply noTrailingZero_tail).
    set (x := fracVal _ D1) in *. set (y := fracVal _ D2) in *. set (p := 10 ^ (L - 1)) in *.
    destruct (Z.compare_spec (b2z c - 47) (b2z d - 47)) as [E|E|E].
    + replace (b2z d) with (b2z c) by lia. by rewrite Z.add_compare_mono_l.
    + rewrite (proj2 (Z.compare_lt_iff _ _)) by nia. done.
    + rewrite (proj2 (Z.compare_gt_iff _ _)) by nia. done.
Qed.

Lemma lxor_top a : 0 <= a < 2 ^ 63 -> Z.lxor a (2 ^ 63) = a + 2 ^ 63.
Proof.
  intros Ha. symmetry. apply Z.add_nocarry_lxor. apply Z.bits_inj'. intros i Hi.
  rewrite Z.land_spec, Z.bits_0. destruct (Z.ltb_spec i 63).
  - rewrite Z.pow2_bits_false by lia. apply andb_false_r.
  - rewrite <- (Z.mod_small a (2 ^ 63)), Z.mod_pow2_bits_high by lia. done.
Qed.

(** An [int64] with its sign bit flipped is its offset from the least one. *)
Lemma orderedExponent_spec e : - 2 ^ 63 <= e < 2 ^ 63 -> orderedExponent e = e + 2 ^ 63.
Proof.
  intros He. unfold orderedExponent. destruct (Z.ltb_spec e 0).
  - replace (e mod 2 ^ 64) with ((e + 2 ^ 63) + 2 ^ 63)
      by (rewrite <- (Z.mod_add e 1) by lia; rewrite Z.mod_small; lia).
    rewrite <- lxor_top, Z.lxor_assoc, Z.lxor_nilpotent, Z.lxor_0_r by lia. done.
  - rewrite Z.mod_small by lia. apply lxor_top. lia.
Qed.

Lemma wrap64_small z : - 2 ^ 63 <= z < 2 ^ 63 -> wrap64 z = z.
Proof. intros. unfold wrap64. rewrite Z.mod_small; lia. Qed.

Lemma decimalOf_bounds n d D s K :
  decimalOf n d D s -> 0 <= K -> s <= K ->
  10 ^ (K + (len D - s) - 1) <= decVal D * 10 ^ (K - s) < 10 ^ (K + (len D - s)).
Proof.
  intros (H1 & H2 & H3 & H4 & _) HK Hs.
  assert (1 <= len D) by (destruct D; [done|rewrite len_cons; pose proof (len_nonneg D); lia]).
  pose proof (decVal_bound D H2). pose proof (decVal_lower D H2 H4 H1).
  assert (0 < 10 ^ (K - s)) by (apply Z.pow_pos_nonneg; lia).
  replace (K + (len D - s) - 1) with (len D - 1 + (K - s)) by lia.
  replace (K + (len D - s)) with (len D + (K - s)) by lia.
  rewrite !Z.pow_add_r by lia. nia.
Qed.

Lemma Zcompare_mul_r a b c : 0 < c -> (a * c ?= b * c) = (a ?= b).
Proof.
  intros. destruct (Z.compare_spec a b);
    [subst; apply Z.compare_refl|apply Z.compare_lt_iff; nia|apply Z.compare_gt_iff; nia].
Qed.

(** Encoded magnitudes are ordered as the fractions they encode. *)
Lemma bcmp_encodeMagnitude n1 d1 D1 s1 n2 d2 D2 s2 u v :
  decimalOf n1 d1 D1 s1 -> decimalOf n2 d2 D2 s2 ->
  - 2 ^ 63 <= len D1 - s1 < 2 ^ 63 -> - 2 ^ 63 <= len D2 - s2 < 2 ^ 63 ->
  bcmp (encodeMagnitude D1 (len D1 - s1) ++ u) (encodeMagnitude D2 (len D2 - s2) ++ v) =
  match n1 * Zpos d2 ?= n2 * Zpos d1 with Eq => bcmp u v | c => c end.
Proof.
  intros Hd1 Hd2 He1 He2. set (K := Z.max 0 (Z.max s1 s2)).
  pose proof (decimalOf_bounds _ _ _ _ K Hd1 ltac:(lia) ltac:(lia)) as HB1.
  pose proof (decimalOf_bounds _ _ _ _ K Hd2 ltac:(lia) ltac:(lia)) as HB2.
  destruct Hd1 as (Ne1 & Dg1 & T1 & _ & V1). destruct Hd2 as (Ne2 & Dg2 & T2 & _ & V2).
  specialize (V1 K ltac:(lia) ltac:(lia)). specialize (V2 K ltac:(lia) ltac:(lia)).
  set (N1 := decVal D1 * _) in *. set (N2 := decVal D2 * _) in *.
  assert ((n1 * Zpos d2 ?= n2 * Zpos d1) = (N1 ?= N2)) as ->.
  { assert (0 < 10 ^ K) as HK by (apply Z.pow_pos_nonneg; lia).
    rewrite <- (Zcompare_mul_r (n1 * _) (n2 * _) (10 ^ K)) by done.
    rewrite <- (Zcompare_mul_r N1 N2 (Zpos d1 * Zpos d2)) by lia.
    f_equal.
    - transitivity (n1 * 10 ^ K * Zpos d2); [lia|]. rewrite V1. lia.
    - transitivity (n2 * 10 ^ K * Zpos d1); [lia|]. rewrite V2. lia. }
  unfold encodeMagnitude, putUint64. rewrite !orderedExponent_spec by lia.
  rewrite <- !app_assoc, bcmp_putBE. change (256 ^ Z.of_nat 8) with (2 ^ 64).
  rewrite !Z.mod_small by lia.
  destruct (Z.compare_spec (len D1 - s1 + 2 ^ 63) (len D2 - s2 + 2 ^ 63)) as [E|E|E].
  - assert (len D2 - s2 = len D1 - s1) as E' by lia. cbn [app].
    rewrite (bcmp_digits D1 D2 (K + (len D1 - s1))) by (done || lia).
    unfold fracVal. replace (K + (len D1 - s1) - len D1) with (K - s1) by lia.
    replace (K + (len D1 - s1) - len D2) with (K - s2) by lia. done.
  - assert (10 ^ (K + (len D1 - s1)) <= 10 ^ (K + (len D2 - s2) - 1))
      by (apply Z.pow_le_mono_r; lia).
    rewrite (proj2 (Z.compare_lt_iff _ _)) by lia. done.
  - assert (10 ^ (K + (len D2 - s2)) <= 10 ^ (K + (len D1 - s1) - 1))
      by (apply Z.pow_le_mono_r; lia).
    rewrite (proj2 (Z.compare_gt_iff _ _)) by lia. done.
Qed.

(** *** The whole encoding *)

(** The rationals the program encodes: decimal fractions, in lowest terms, with
    an exponent that fits [int64]. *)
Definition encodable (q : Q) : Prop :=
  decimalDen (Qden q) /\
  (Qnum q <> 0 ->
   let '(D, s) := decimalDigits (Z.abs (Qnum q)) (Qden q) in - 2 ^ 63 <= len D - s < 2 ^ 63).

Lemma codeCmp_magnitude q1 q2 :
  encodable q1 -> encodable q2 -> Qnum q1 <> 0 -> Qnum q2 <> 0 ->
  let enc q := let '(D, s) := decimalDigits (Z.abs (Qnum q)) (Qden q) in
               encodeMagnitude D (wrap64 (len D - s)) in
  codeCmp (Z.abs (Qnum q1) * Zpos (Qden q2) ?= Z.abs (Qnum q2) * Zpos (Qden q1))
    (enc q1) (enc q2).
Proof.
  intros [Hd1 He1] [Hd2 He2] Hn1 Hn2 enc. unfold enc.
  specialize (He1 Hn1). specialize (He2 Hn2).
  pose proof (decimalDigits_spec (Z.abs (Qnum q1)) _ ltac:(lia) Hd1) as H1.
  pose proof (decimalDigits_spec (Z.abs (Qnum q2)) _ ltac:(lia) Hd2) as H2.
  destruct (decimalDigits _ (Qden q1)) as [D1 s1], (decimalDigits _ (Qden q2)) as [D2 s2].
  rewrite !wrap64_small by done. intros u v.
  rewrite (bcmp_encodeMagnitude _ _ _ _ _ _ _ _ u v H1 H2) by done.
  by destruct (_ ?= _).
Qed.

(** Encodings compare as the numbers do, whatever follows them. *)
Lemma codeCmp_number q1 q2 :
  encodable q1 -> encodable q2 ->
  codeCmp (q1 ?= q2)%Q (encodeSortableNumber q1) (encodeSortableNumber q2).
Proof.
  intros E1 E2. unfold encodeSortableNumber, Qcompare.
  pose proof (codeCmp_magnitude q1 q2 E1 E2) as HM. pose proof (codeCmp_magnitude q2 q1 E2 E1) as HM'.
  destruct (Z.eqb_spec (Qnum q1) 0) as [Z1|Z1], (Z.eqb_spec (Qnum q2) 0) as [Z2|Z2].
  - rewrite Z1, Z2. apply codeCmp_refl.
  - rewrite Z1. destruct (decimalDigits _ (Qden q2)) as [D2 s2].
    destruct (Z.ltb_spec 0 (Qnum q2)).
    + rewrite (proj2 (Z.compare_lt_iff _ _)) by nia. by apply (codeCmp_cons_ne x01 x02).
    + rewrite (proj2 (Z.compare_gt_iff _ _)) by nia. by apply (codeCmp_cons_ne x01 x00).
  - rewrite Z2. destruct (decimalDigits _ (Qden q1)) as [D1 s1].
    destruct (Z.ltb_spec 0 (Qnum q1)).
    + rewrite (proj2 (Z.compare_gt_iff _ _)) by nia. by apply (codeCmp_cons_ne x02 x01).
    + rewrite (proj2 (Z.compare_lt_iff _ _)) by nia. by apply (codeCmp_cons_ne x00 x01).
  - specialize (HM Z1 Z2). specialize (HM' Z2 Z1). simpl in HM, HM'.
    destruct (decimalDigits _ (Qden q1)) as [D1 s1], (decimalDigits _ (Qden q2)) as [D2 s2].
    destruct (Z.ltb_spec 0 (Qnum q1)) as [P1|P1], (Z.ltb_spec 0 (Qnum q2)) as [P2|P2].
    + apply codeCmp_cons. by rewrite !Z.abs_eq in HM by lia.
    + rewrite (proj2 (Z.compare_gt_iff _ _)) by nia. by apply (codeCmp_cons_ne x02 x00).
    + rewrite (proj2 (Z.compare_lt_iff _ _)) by nia. by apply (codeCmp_cons_ne x00 x02).
    + apply codeCmp_cons. apply codeCmp_bnot, codeCmp_sym in HM'.
      rewrite CompOpp_involutive in HM'.
      rewrite !Z.abs_neq, !Z.mul_opp_l, Z.compare_opp in HM' by lia. done.
Qed.

(** *** What literals denote *)

Lemma scaleRat_correct m e : (scaleRat m e == inject_Z m * Qpower 10 e)%Q.
Proof.
  unfold scaleRat. rewrite Qred_correct. destruct (Z.leb_spec 0 e) as [He|He].
  - rewrite inject_Z_mult. by rewrite Zpower_Qpower.
  - assert (0 < 10 ^ (- e)) by (apply Z.pow_pos_nonneg; lia).
    replace e with (- (- e)) at 2 by lia. rewrite Qpower_opp.
    change 10%Q with (inject_Z 10). rewrite <- Zpower_Qpower by lia.
    unfold Qeq, Qinv, inject_Z, Qmult. simpl. destruct (10 ^ (- e)) eqn:E; [lia|simpl; lia|lia].
Qed.

Lemma Qred_den q : (Zpos (Qden (Qred q)) | Zpos (Qden q)).
Proof.
  destruct q as [n d]. unfold Qred.
  pose proof (Z.ggcd_correct_divisors n (Zpos d)) as H.
  destruct (Z.ggcd n (Zpos d)) as [g [aa bb]] eqn:E. destruct H as [_ H]. simpl.
  pose proof (Z.ggcd_gcd n (Zpos d)) as Hg. rewrite E in Hg. simpl in Hg.
  pose proof (Z.gcd_nonneg n (Zpos d)). assert (0 < bb) by nia.
  rewrite Z2Pos.id by done. by exists g; rewrite H, Z.mul_comm.
Qed.

Lemma decimalDen_scaleRat m e : decimalDen (Qden (scaleRat m e)).
Proof.
  unfold scaleRat. destruct (Z.leb_spec 0 e).
  - exists 0. split; [done|]. apply (Qred_den (inject_Z (m * 10 ^ e))).
  - exists (- e). split; [lia|]. etrans; [apply Qred_den|]. simpl.
    rewrite Z2Pos.id by (apply Z.pow_pos_nonneg; lia). done.
Qed.

Lemma ratOfLit_decimalDen l q : ratOfLit l = Some q -> decimalDen (Qden q).
Proof.
  unfold ratOfLit. destruct (litExponent l) as [e|]; [|done]. cbn [mbind option_bind].
  destruct (_ =? 0); [intros [= <-]; exists 0; split; [done|by apply Z.divide_refl]|].
  destruct (maxRatExp <? _); [done|]. intros [= <-]. apply decimalDen_scaleRat.
Qed.

(** *** Bounds from the length of the printed form *)

Lemma decString_bound z : 0 <= z -> z < 10 ^ len (decString z).
Proof.
  intros Hz. destruct (decString_spec z Hz) as [H1 H2].
  pose proof (decVal_bound _ H2). lia.
Qed.

Lemma itoa_bound z : Z.abs z < 10 ^ len (itoa z).
Proof.
  unfold itoa. destruct (Z.ltb_spec z 0).
  - rewrite len_cons. pose proof (decString_bound (- z) ltac:(lia)).
    assert (10 ^ len (decString (- z)) <= 10 ^ (1 + len (decString (- z))))
      by (apply Z.pow_le_mono_r; lia). lia.
  - pose proof (decString_bound z ltac:(lia)). lia.
Qed.

Lemma ratString_bound q :
  let N := len (ratString q) in
  0 <= N /\ Z.abs (Qnum q) < 10 ^ N /\ Zpos (Qden q) < 10 ^ N.
Proof.
  intros N. pose proof (itoa_bound (Qnum q)) as H1. pose proof (itoa_bound (Zpos (Qden q))) as H2.
  pose proof (len_nonneg (ratString q)). split; [done|]. unfold N in *. clear N.
  unfold ratString in *. destruct (Pos.eqb_spec (Qden q) 1) as [E|E].
  - split; [done|]. rewrite E. assert (0 < len (itoa (Qnum q))).
    { destruct (Z.eqb_spec (len (itoa (Qnum q))) 0) as [E0|E0]; [|lia].
      apply len_0_nil in E0. unfold itoa in E0. destruct (Qnum q <? 0) eqn:En; [done|].
      apply Z.ltb_ge in En. apply (f_equal decVal) in E0 as E1.
      destruct (decString_spec _ En) as [Hv _]. rewrite Hv in E1. cbn in E1.
      by rewrite E1 in E0. }
    apply Z.pow_gt_1; lia.
  - rewrite !len_app. pose proof (len_nonneg (itoa (Qnum q))).
    pose proof (len_nonneg (itoa (Zpos (Qden q)))). pose proof (len_nonneg [("/")%byte]).
    split; (eapply Z.lt_le_trans; [eassumption || exact H2|apply Z.pow_le_mono_r; lia]).
Qed.

(** A number that prints in [N] bytes has an exponent within [N]. *)
Lemma decimalOf_exponent n d D s N :
  0 < n < 10 ^ N -> Zpos d < 10 ^ N -> 0 <= N -> decimalOf n d D s ->
  - N < len D - s <= N.
Proof.
  intros Hn Hd HN HD. set (K := N + Z.max 0 s + Z.abs (len D - s)).
  pose proof (decimalOf_bounds _ _ _ _ K HD ltac:(lia) ltac:(lia)) as HB.
  destruct HD as (_ & _ & _ & _ & HV). specialize (HV K ltac:(lia) ltac:(lia)).
  set (X := decVal D * _) in *. set (e := len D - s) in *.
  assert (0 < 10 ^ K) as HpK by (apply Z.pow_pos_nonneg; lia).
  assert (0 < 10 ^ N) by lia.
  split.
  - assert (10 ^ K < 10 ^ (K + e + N)) as Hlt.
    { rewrite (Z.pow_add_r 10 (K + e)) by lia. nia. }
    apply Z.pow_lt_mono_r_iff in Hlt; lia.
  - assert (10 ^ (K + e - 1) < 10 ^ (N + K)) as Hlt.
    { rewrite (Z.pow_add_r 10 N) by lia. nia. }
    apply Z.pow_lt_mono_r_iff in Hlt; lia.
Qed.

(** The number a literal denotes. *)
Definition litValue (l : numLit) : Q :=
  let e := match nl_exp l with
           | None => 0
           | Some (neg, ds) => if neg : bool then - decVal ds else decVal ds
           end in
  let m := decVal (nl_int l ++ nl_frac l) in
  (inject_Z (if nl_neg l then - m else m) * Qpower 10 (e - len (nl_frac l)))%Q.

Lemma ratOfLit_value l q :
  len (nl_frac l) < 2 ^ 62 -> ratOfLit l = Some q -> (q == litValue l)%Q.
Proof.
  intros Hlen. unfold ratOfLit, litValue. pose proof (len_nonneg (nl_frac l)).
  destruct (litExponent l) as [e|] eqn:He; [|done]. cbn [mbind option_bind].
  assert (minInt64 <= e <= maxInt64 /\
          match nl_exp l with
          | None => 0
          | Some (neg, ds) => if neg : bool then - decVal ds else decVal ds
          end = e) as [He1 ->].
  { unfold litExponent in He. destruct (nl_exp l) as [[neg [|d ds]]|]; [done| |].
    - destruct (_ && _) eqn:Hr; [|done]. injection He as <-.
      apply andb_true_iff in Hr as [?%Z.leb_le ?%Z.leb_le]. done.
    - injection He as <-. by vm_compute. }
  destruct (Z.eqb_spec (decVal (nl_int l ++ nl_frac l)) 0) as [->|Hm].
  { intros [= <-]. destruct (nl_neg l); simpl; by rewrite Qmult_0_l. }
  destruct (maxRatExp <? _) eqn:Hmax; [done|]. apply Z.ltb_ge in Hmax. intros [= <-].
  rewrite scaleRat_correct.
  assert (wrap64 (- len (nl_frac l) + e) = e - len (nl_frac l)) as ->; [|done].
  unfold minInt64, maxInt64, maxRatExp in *.
  destruct (Z.ltb_spec (e - len (nl_frac l)) (- 2 ^ 63)).
  - exfalso. unfold wrap64 in Hmax. rewrite <- (Z.mod_add _ 1) in Hmax by lia.
    rewrite Z.mod_small in Hmax by lia. lia.
  - rewrite wrap64_small; lia.
Qed.

Lemma ratSetString_decimalDen s q : ratSetString s = Some q -> decimalDen (Qden q).
Proof.
  unfold ratSetString. destruct (splitNumber s); [|done]. apply ratOfLit_decimalDen.
Qed.

(** What the length limit of the program gives: the exponent is small. *)
Lemma exponent_bound q N :
  decimalDen (Qden q) -> len (ratString q) <= N -> Qnum q <> 0 ->
  let '(D, s) := decimalDigits (Z.abs (Qnum q)) (Qden q) in - N < len D - s <= N.
Proof.
  intros Hd HN Hnz. destruct (ratString_bound q) as (H0 & H1 & H2).
  pose proof (decimalDigits_spec (Z.abs (Qnum q)) _ ltac:(lia) Hd) as HD.
  destruct (decimalDigits _ _) as [D s].
  assert (0 < Z.abs (Qnum q)) as Hpos by lia.
  pose proof (decimalOf_exponent _ _ _ _ _ (conj Hpos H1) H2 H0 HD). lia.
Qed.

Lemma encodable_small q N :
  decimalDen (Qden q) -> len (ratString q) <= N -> N < 2 ^ 62 -> encodable q.
Proof.
  intros Hd HN HN2. split; [done|]. intros Hnz. pose proof (exponent_bound q N Hd HN Hnz).
  destruct (decimalDigits _ _). lia.
Qed.

(** *** Literals *)

Lemma span_app p s a b : span p s = (a, b) -> s = a ++ b.
Proof.
  revert a b. induction s as [|c s IH]; simpl; intros a b; [by intros [= <- <-]|].
  destruct (p c); [|by intros [= <- <-]]. destruct (span p s) as [a' b'].
  intros [= <- <-]. by rewrite (IH a' b').
Qed.

Lemma scanInt_app s a b : scanInt s = Some (a, b) -> s = a ++ b.
Proof.
  unfold scanInt. destruct s as [|c s]; [done|]. destruct (beqb c "0"); [by intros [= <- <-]|].
  destruct (isDigit c) eqn:E; [|done]. intros [= H]. apply (span_app isDigit (c :: s)).
  exact H.
Qed.

Lemma scanFrac_len s a b : scanFrac s = (a, b) -> len a <= len s.
Proof.
  unfold scanFrac. destruct s as [|c [|d s]].
  1-2: intros [= <- <-]; apply len_nonneg.
  destruct (_ && _).
  - intros H. apply span_app in H. rewrite len_cons, H, len_app. pose proof (len_nonneg b). lia.
  - intros [= <- <-]. apply len_nonneg.
Qed.

Lemma splitNumber_frac s l : splitNumber s = Some l -> len (nl_frac l) <= len s.
Proof.
  unfold splitNumber. intros H.
  destruct (match s with [] => _ | _ => _ end) as [neg s1] eqn:E1.
  assert (len s1 <= len s) as Hl1.
  { destruct s as [|c s']; [by injection E1 as <- <-|].
    destruct (beqb c "-"); injection E1 as <- <-; rewrite ?len_cons; lia. }
  destruct (scanInt s1) as [[int s2]|] eqn:E2; [|done]. apply scanInt_app in E2 as ->.
  rewrite len_app in Hl1. pose proof (len_nonneg int). cbn [mbind option_bind] in H.
  destruct (scanFrac s2) as [frac s3] eqn:E3. apply scanFrac_len in E3.
  destruct (scanExp s3) as [[exp s4]|]; [|done]. cbn [mbind option_bind] in H.
  destruct s4; [|done]. injection H as <-. simpl. lia.
Qed.

Lemma ratSetString_value s l q :
  splitNumber s = Some l -> ratSetString s = Some q -> len s < 2 ^ 62 -> (q == litValue l)%Q.
Proof.
  intros Hs Hq Hl. unfold ratSetString in Hq. rewrite Hs in Hq. cbn [mbind option_bind] in Hq.
  apply ratOfLit_value; [|done]. apply splitNumber_frac in Hs. lia.
Qed.
