(* ===== verification/Json.v ===== *)
(** * JSON

    What the program uses of [encoding/json]: [Decoder.Decode] with [UseNumber]
    into an [any], and [json.Marshal] of the result.

    A decoded value is a [json].  A Go [map[string]any] is an association list
    with strictly increasing keys, the order [json.Marshal] writes them in. *)

From S2P Require Import Prelude GoErrors Text Number.

Inductive json :=
  | JNull
  | JBool (b : bool)
  | JNum (literal : bytes)
  | JStr (s : bytes)
  | JArr (l : list json)
  | JObj (m : list (bytes * json)).

(** ** Objects *)

(** [m[k] = v]: the last value of a repeated key wins. *)
Fixpoint objInsert (k : bytes) (v : json) (m : list (bytes * json)) : list (bytes * json) :=
  match m with
  | [] => [(k, v)]
  | (k', v') :: m' =>
      match bcmp k k' with
      | Lt => (k, v) :: m
      | Eq => (k, v) :: m'
      | Gt => (k', v') :: objInsert k v m'
      end
  end.

(** [v, ok := m[k]]. *)
Fixpoint objLookup (k : bytes) (m : list (bytes * json)) : option json :=
  match m with
  | [] => None
  | (k', v) :: m' => if decide (k = k') then Some v else objLookup k m'
  end.

(** ** Runes *)

(** The UTF-8 encoding of a rune, [utf8.EncodeRune]. *)
Definition encodeRune (r : Z) : bytes :=
  if r <? 128 then [z2b r]
  else if r <? 2048 then [z2b (192 + Z.shiftr r 6); z2b (128 + Z.land r 63)]
  else if r <? 65536 then
    [z2b (224 + Z.shiftr r 12); z2b (128 + Z.land (Z.shiftr r 6) 63); z2b (128 + Z.land r 63)]
  else
    [z2b (240 + Z.shiftr r 18); z2b (128 + Z.land (Z.shiftr r 12) 63);
     z2b (128 + Z.land (Z.shiftr r 6) 63); z2b (128 + Z.land r 63)].

Definition replacementChar : bytes := [xef; xbf; xbd].

(** The length of the valid encoding a string starts with, [None] where
    [utf8.DecodeRune] gives [RuneError] and width one. *)
Definition runeLen (s : bytes) : option nat :=
  match s with
  | a :: s1 =>
      if bleb a x7f then Some 1%nat else
      match s1 with
      | b :: s2 =>
          if in_range xc2 xdf a then if cont b then Some 2%nat else None else
          match s2 with
          | c :: s3 =>
              if in_range xe0 xef a then
                if in_range (if beqb a xe0 then xa0 else x80) (if beqb a xed then x9f else xbf) b
                   && cont c then Some 3%nat else None
              else
                match s3 with
                | d :: _ =>
                    if in_range xf0 xf4 a
                       && in_range (if beqb a xf0 then x90 else x80)
                            (if beqb a xf4 then x8f else xbf) b
                       && cont c && cont d then Some 4%nat else None
                | [] => None
                end
          | [] => None
          end
      | [] => None
      end
  | [] => None
  end.

(** ** Reading *)

Definition isSpaceByte (c : byte) : bool :=
  beqb c " " || beqb c x09 || beqb c x0d || beqb c x0a.

Fixpoint skipSpace (s : bytes) : bytes :=
  match s with
  | c :: s' => if isSpaceByte c then skipSpace s' else s
  | [] => []
  end.

(** [getu4] of encoding/json, after the backslash and the [u]. *)
Definition hex4 (s : bytes) : option (Z * bytes) :=
  match s with
  | a :: b :: c :: d :: s' =>
      a ← fromHexChar a; b ← fromHexChar b; c ← fromHexChar c; d ← fromHexChar d;
      Some (a * 4096 + b * 256 + c * 16 + d, s')
  | _ => None
  end.

Definition isSurrogate (r : Z) : bool := (55296 <=? r) && (r <? 57344).

(** [utf16.DecodeRune], [None] for the replacement character. *)
Definition surrogatePair (r1 r2 : Z) : option Z :=
  if (55296 <=? r1) && (r1 <? 56320) && (56320 <=? r2) && (r2 <? 57344) then
    Some ((r1 - 55296) * 1024 + (r2 - 56320) + 65536)
  else None.

Definition simpleEscape (c : byte) : option byte :=
  if beqb c x22 then Some x22
  else if beqb c "\" then Some ("\")%byte
  else if beqb c "/" then Some ("/")%byte
  else if beqb c "b" then Some x08
  else if beqb c "f" then Some x0c
  else if beqb c "n" then Some x0a
  else if beqb c "r" then Some x0d
  else if beqb c "t" then Some x09
  else None.

(** A [\uXXXX] escape, [s] following its backslash and [u]: a surrogate that
    starts no pair is the replacement character. *)
Definition readUnicode (s : bytes) : option (bytes * bytes) :=
  '(r, rest) ← hex4 s;
  if isSurrogate r then
    let lone := Some (replacementChar, rest) in
    match rest with
    | e :: u :: rest' =>
        if beqb e "\" && beqb u "u" then
          match hex4 rest' with
          | Some (r2, rest2) =>
              match surrogatePair r r2 with
              | Some rr => Some (encodeRune rr, rest2)
              | None => lone
              end
          | None => lone
          end
        else lone
    | _ => lone
    end
  else Some (encodeRune r, rest).

(** One character of a string literal: its decoded bytes and the rest. *)
Definition readChar (s : bytes) : option (bytes * bytes) :=
  match s with
  | [] => None
  | c :: s' =>
      if beqb c "\" then
        match s' with
        | e :: s'' =>
            if beqb e "u" then readUnicode s''
            else b ← simpleEscape e; Some ([b], s'')
        | [] => None
        end
      else if bleb c x1f then None
      else match runeLen s with
           | Some n => Some (take n s, drop n s)
           | None => Some (replacementChar, s')
           end
  end.

(** The characters up to the closing quote. *)
Fixpoint readString (fuel : nat) (s : bytes) : option (bytes * bytes) :=
  match fuel with
  | O => None
  | S f =>
      match s with
      | [] => None
      | c :: s' =>
          if beqb c x22 then Some ([], s')
          else
            '(ch, rest) ← readChar s;
            '(str, rest') ← readString f rest;
            Some (ch ++ str, rest')
      end
  end.

(** The longest number literal at the start; the scanner refuses one cut short. *)
Definition readNumber (s : bytes) : option (bytes * bytes) :=
  let '(neg, s1) :=
    match s with c :: s' => if beqb c "-" then ([c], s') else ([], s) | [] => ([], s) end in
  '(int, s2) ← scanInt s1;
  let '(frac, s3) := scanFrac s2 in
  '(_, s4) ← scanExp s3;
  let lit := take (length s - length s4) s in
  if isValidNumber lit then Some (lit, s4) else None.

Definition maxNestingDepth : Z := 10000.

Definition readWord (w : bytes) (v : json) (s : bytes) : option (json * bytes) :=
  rest ← strip_prefix w s; Some (v, rest).

(** A value, the elements of an array after its bracket, the members of an
    object after its brace.  Every step reads a byte, so a fuel of twice the length of the
    input is enough. *)
Fixpoint readValue (fuel : nat) (depth : Z) (s : bytes) {struct fuel} : option (json * bytes) :=
  match fuel with
  | O => None
  | S f =>
      match skipSpace s with
      | [] => None
      | c :: s' =>
          if beqb c "{" then
            if maxNestingDepth <=? depth then None else
            match skipSpace s' with
            | e :: r => if beqb e "}" then Some (JObj [], r) else readMembers f (depth + 1) [] (e :: r)
            | [] => None
            end
          else if beqb c "[" then
            if maxNestingDepth <=? depth then None else
            match skipSpace s' with
            | e :: r => if beqb e "]" then Some (JArr [], r) else readElems f (depth + 1) (e :: r)
            | [] => None
            end
          else if beqb c x22 then
            '(str, r) ← readString (length s) s'; Some (JStr str, r)
          else if beqb c "t" then readWord (str "true") (JBool true) (c :: s')
          else if beqb c "f" then readWord (str "false") (JBool false) (c :: s')
          else if beqb c "n" then readWord (str "null") JNull (c :: s')
          else '(lit, r) ← readNumber (c :: s'); Some (JNum lit, r)
      end
  end
with readElems (fuel : nat) (depth : Z) (s : bytes) {struct fuel} : option (json * bytes) :=
  match fuel with
  | O => None
  | S f =>
      '(v, r) ← readValue f depth s;
      match skipSpace r with
      | e :: r' =>
          if beqb e "]" then Some (JArr [v], r')
          else if beqb e "," then
            '(vs, r'') ← readElems f depth r';
            match vs with JArr l => Some (JArr (v :: l), r'') | _ => None end
          else None
      | [] => None
      end
  end
with readMembers (fuel : nat) (depth : Z) (acc : list (bytes * json)) (s : bytes) {struct fuel}
    : option (json * bytes) :=
  match fuel with
  | O => None
  | S f =>
      match skipSpace s with
      | q :: s' =>
          if beqb q x22 then
            '(key, r) ← readString (length s) s';
            match skipSpace r with
            | colon :: r1 =>
                if beqb colon ":" then
                  '(v, r2) ← readValue f depth r1;
                  let acc' := objInsert key v acc in
                  match skipSpace r2 with
                  | e :: r3 =>
                      if beqb e "}" then Some (JObj acc', r3)
                      else if beqb e "," then readMembers f depth acc' r3
                      else None
                  | [] => None
                  end
                else None
            | [] => None
            end
          else None
      | [] => None
      end
  end.

Definition readFuel (s : bytes) : nat := S (2 * length s).

(** [decoder.Decode(&value)] at the start of the stream: the value and what the
    decoder has not read. *)
Definition decodeJSON (s : bytes) : option (json * bytes) := readValue (readFuel s) 0 s.

(** A second [Decode] returns [io.EOF]. *)
Definition atEOF (rest : bytes) : bool := match skipSpace rest with [] => true | _ => false end.

(** Exactly one value. *)
Definition decodeOne (s : bytes) : option json :=
  '(v, rest) ← decodeJSON s; if atEOF rest then Some v else None.

(** ** Writing *)

Definition htmlSafe (c : byte) : bool :=
  in_range x20 x7f c
  && negb (beqb c x22 || beqb c "&" || beqb c "<" || beqb c ">" || beqb c "\").

Definition escapeByte (c : byte) : bytes :=
  if beqb c "\" || beqb c x22 then [("\")%byte; c]
  else if beqb c x08 then str "\b"
  else if beqb c x0c then str "\f"
  else if beqb c x0a then str "\n"
  else if beqb c x0d then str "\r"
  else if beqb c x09 then str "\t"
  else str "\u00" ++ hexEncode [c].

Fixpoint writeChars (fuel : nat) (s : bytes) : bytes :=
  match fuel with
  | O => []
  | S f =>
      match s with
      | [] => []
      | c :: s' =>
          if bleb c x7f then (if htmlSafe c then [c] else escapeByte c) ++ writeChars f s'
          else match runeLen s with
               | None => str "\ufffd" ++ writeChars f s'
               | Some n =>
                   let r := take n s in
                   (if bool_decide (r = [xe2; x80; xa8]) then str "\u2028"
                    else if bool_decide (r = [xe2; x80; xa9]) then str "\u2029" else r)
                   ++ writeChars f (drop n s)
               end
      end
  end.

Definition writeString (s : bytes) : bytes := [x22] ++ writeChars (length s) s ++ [x22].

Definition writeNumber (lit : bytes) : res bytes :=
  match lit with
  | [] => Ok (str "0")
  | _ => if isValidNumber lit then Ok lit else Err EText
  end.

(** [json.Marshal]. *)
Fixpoint marshal (v : json) : res bytes :=
  match v with
  | JNull => Ok (str "null")
  | JBool b => Ok (if b then str "true" else str "false")
  | JNum lit => writeNumber lit
  | JStr s => Ok (writeString s)
  | JArr l =>
      body ← (fix elems (l : list json) : res bytes :=
        match l with
        | [] => Ok []
        | [v] => marshal v
        | v :: l' => a ← marshal v; b ← elems l'; Ok (a ++ str "," ++ b)
        end) l;
      Ok (str "[" ++ body ++ str "]")
  | JObj m =>
      body ← (fix members (m : list (bytes * json)) : res bytes :=
        match m with
        | [] => Ok []
        | [(k, v)] => a ← marshal v; Ok (writeString k ++ str ":" ++ a)
        | (k, v) :: m' =>
            a ← marshal v; b ← members m';
            Ok (writeString k ++ str ":" ++ a ++ str "," ++ b)
        end) m;
      Ok (str "{" ++ body ++ str "}")
  end.
