(* ===== verification/JsonFacts.v ===== *)
(** * JSON: what is written reads back

    [decodeJSON] gives well-formed values, [json.Marshal] is total on these, and
    reading what it writes gives the value again. *)

From S2P Require Import Prelude GoErrors Text Number Json.

(** ** Runes *)

(** A byte string that is the encoding of one rune. *)
Definition isRune (r : bytes) : Prop := r <> [] /\ forall s, runeLen (r ++ s) = Some (length r).

Lemma utf8Valid_runeLen s :
  s <> [] -> utf8Valid s = match runeLen s with Some n => utf8Valid (drop n s) | None => false end.
Proof.
  destruct s as [|a s1]; [done|]. intros _. cbn [utf8Valid runeLen].
  destruct (bleb a x7f); [done|]. destruct s1 as [|b s2]; [done|].
  destruct (in_range xc2 xdf a); [by destruct (cont b)|]. destruct s2 as [|c s3]; [done|].
  destruct (in_range xe0 xef a); [by destruct (_ && cont c)|]. destruct s3 as [|d s4]; [done|].
  by destruct (in_range xf0 xf4 a), (in_range _ _ b), (cont c), (cont d).
Qed.

Ltac rune_step :=
  match goal with
  | |- context [if ?b then _ else _] => let E := fresh "E" in destruct b eqn:E
  | |- context [match ?s with [] => _ | _ => _ end] => is_var s; destruct s
  end.

Lemma runeLen_take s n t : runeLen s = Some n -> runeLen (take n s ++ t) = Some n /\ length (take n s) = n.
Proof.
  unfold runeLen. destruct s as [|a s1]; [done|].
  destruct (bleb a x7f) eqn:E1; [intros [= <-]; simpl; by rewrite E1|].
  destruct s1 as [|b s2]; [done|].
  destruct (in_range xc2 xdf a) eqn:E2.
  { destruct (cont b) eqn:E3; [|done]. intros [= <-]. simpl. by rewrite E1, E2, E3. }
  destruct s2 as [|c s3]; [done|].
  destruct (in_range xe0 xef a) eqn:E3.
  { destruct (_ && cont c) eqn:E4; [|done]. intros [= <-]. simpl. by rewrite E1, E2, E3, E4. }
  destruct s3 as [|d s4]; [done|].
  destruct (in_range xf0 xf4 a && _ && _ && _) eqn:E4; [|done]. intros [= <-]. simpl.
  by rewrite E1, E2, E3, E4.
Qed.

Lemma runeLen_pos s n : runeLen s = Some n -> (1 <= n <= 4)%nat.
Proof.
  unfold runeLen. intros H. repeat (revert H; rune_step; intros H); simplify_eq; lia.
Qed.

Lemma runeLen_isRune s n : runeLen s = Some n -> isRune (take n s).
Proof.
  intros H. pose proof (runeLen_pos s n H). split.
  - intros E. destruct (runeLen_take s n [] H) as [_ Hl]. rewrite E in Hl. simpl in Hl. lia.
  - intros t. destruct (runeLen_take s n t H) as [-> ->]. done.
Qed.

Lemma utf8Valid_rune r s : isRune r -> utf8Valid (r ++ s) = utf8Valid s.
Proof.
  intros [Hne Hr]. rewrite utf8Valid_runeLen by (by destruct r). by rewrite Hr, drop_app_length.
Qed.

(** A valid string is a sequence of runes. *)
Inductive runes : bytes -> Prop :=
  | runes_nil : runes []
  | runes_cons r s : isRune r -> runes s -> runes (r ++ s).

Lemma runes_valid s : runes s <-> utf8Valid s = true.
Proof.
  split; [induction 1 as [|r s Hr Hs IH]; [done|by rewrite utf8Valid_rune]|].
  remember (length s) as n eqn:Hn. revert s Hn.
  induction (lt_wf n) as [n _ IH]. intros s -> Hv.
  destruct s as [|c s']; [constructor|]. set (s := c :: s') in *.
  rewrite utf8Valid_runeLen in Hv by done. destruct (runeLen s) as [k|] eqn:Hk; [|done].
  rewrite <- (take_drop k s). pose proof (runeLen_pos s k Hk).
  constructor; [by apply runeLen_isRune|]. apply (IH (length (drop k s))); [|done..].
  rewrite length_drop. simpl. lia.
Qed.

Lemma runes_app a b : runes a -> runes b -> runes (a ++ b).
Proof. induction 1 as [|r s Hr Hs IH]; [done|]. rewrite <- app_assoc. constructor; auto. Qed.

Lemma runes_one r : isRune r -> runes r.
Proof. intros Hr. pose proof (runes_cons r [] Hr runes_nil) as H. by rewrite app_nil_r in H. Qed.

Lemma isRune_ascii c : bleb c x7f = true -> isRune [c].
Proof. intros Hc. split; [done|]. intros s. simpl. by rewrite Hc. Qed.

Lemma isRune_head c r : isRune (c :: r) -> bleb c x7f = true -> r = [].
Proof. intros [_ Hr] Hc. specialize (Hr []). simpl in Hr. rewrite Hc in Hr. by destruct r. Qed.

(** ** Written strings *)

Definition escapeRune (r : bytes) : bytes :=
  match r with
  | c :: _ =>
      if bleb c x7f then (if htmlSafe c then [c] else escapeByte c)
      else if bool_decide (r = [xe2; x80; xa8]) then str "\u2028"
      else if bool_decide (r = [xe2; x80; xa9]) then str "\u2029" else r
  | [] => []
  end.

Lemma writeChars_rune f r s :
  isRune r -> writeChars (S f) (r ++ s) = escapeRune r ++ writeChars f s.
Proof.
  intros Hr. destruct r as [|c r]; [by destruct Hr|]. cbn [writeChars app].
  pose proof (proj2 Hr s) as Hl. cbn [app] in Hl. unfold escapeRune.
  destruct (bleb c x7f) eqn:Hc.
  - by rewrite (isRune_head c r Hr Hc).
  - rewrite Hl. rewrite app_comm_cons, take_app_length, drop_app_length. done.
Qed.

Lemma escape_ascii c t :
  bleb c x7f = true ->
  readChar ((if htmlSafe c then [c] else escapeByte c) ++ t) = Some ([c], t) /\
  runes (if htmlSafe c then [c] else escapeByte c).
Proof.
  intros Hc. split.
  - destruct c; try discriminate Hc; reflexivity.
  - apply runes_valid. destruct c; try discriminate Hc; reflexivity.
Qed.

Lemma readChar_escapeRune r t :
  isRune r -> readChar (escapeRune r ++ t) = Some (r, t) /\ runes (escapeRune r).
Proof.
  intros Hr. destruct r as [|c r]; [by destruct Hr|]. unfold escapeRune.
  destruct (bleb c x7f) eqn:Hc.
  { rewrite (isRune_head c r Hr Hc). by apply escape_ascii. }
  case_bool_decide as E1; [rewrite E1; split; [done|by apply runes_valid]|].
  case_bool_decide as E2; [rewrite E2; split; [done|by apply runes_valid]|].
  split; [|by apply runes_one]. pose proof (proj2 Hr t) as Hl. unfold readChar. cbn [app] in Hl |- *.
  replace (beqb c "\") with false by (by destruct c).
  replace (bleb c x1f) with false by (by destruct c). rewrite Hl.
  by rewrite app_comm_cons, take_app_length, drop_app_length.
Qed.

Lemma escapeRune_head r : isRune r -> exists c e, escapeRune r = c :: e /\ beqb c x22 = false.
Proof.
  intros Hr. destruct r as [|c r]; [by destruct Hr|]. unfold escapeRune.
  destruct (bleb c x7f) eqn:Hc.
  { destruct c; try discriminate Hc; vm_compute; eauto. }
  case_bool_decide; [by eexists _, _|]. case_bool_decide; [by eexists _, _|].
  exists c, r. split; [done|]. by destruct c.
Qed.

Lemma isRune_length r : isRune r -> (1 <= length r <= 4)%nat.
Proof. intros [Hne Hr]. apply (runeLen_pos (r ++ [])), Hr. Qed.

Lemma escapeRune_length r : isRune r -> (length r <= length (escapeRune r))%nat.
Proof.
  intros Hr. destruct r as [|c r]; [by destruct Hr|]. unfold escapeRune.
  destruct (bleb c x7f) eqn:Hc.
  { rewrite (isRune_head c r Hr Hc). destruct c; try discriminate Hc; vm_compute; lia. }
  case_bool_decide as E1; [rewrite E1; vm_compute; lia|].
  case_bool_decide as E2; [rewrite E2; vm_compute; lia|]. done.
Qed.

Lemma read_writeChars s :
  runes s -> forall f g rest, (length s <= f)%nat -> (length s < g)%nat ->
  readString g (writeChars f s ++ x22 :: rest) = Some (s, rest).
Proof.
  induction 1 as [|r s Hr Hs IH]; intros f g rest Hf Hg.
  { destruct g; [lia|]. by destruct f. }
  pose proof (isRune_length r Hr). rewrite length_app in Hf, Hg.
  destruct f as [|f]; [lia|]. destruct g as [|g]; [lia|].
  rewrite writeChars_rune by done. rewrite <- app_assoc.
  destruct (escapeRune_head r Hr) as (c & e & E & Hc). cbn [readString].
  pose proof (proj1 (readChar_escapeRune r (writeChars f s ++ x22 :: rest) Hr)) as Hread.
  rewrite E in Hread |- *. cbn [app] in Hread |- *. rewrite Hc, Hread. cbn [mbind option_bind].
  rewrite IH by lia. done.
Qed.

Lemma writeChars_runes s : runes s -> forall f, runes (writeChars f s).
Proof.
  induction 1 as [|r s Hr Hs IH]; intros [|f]; try constructor.
  rewrite writeChars_rune by done. apply runes_app; [|apply IH].
  by apply (readChar_escapeRune r []).
Qed.

Lemma writeChars_length s : runes s -> forall f, (length s <= f)%nat ->
  (length s <= length (writeChars f s))%nat.
Proof.
  induction 1 as [|r s Hr Hs IH]; intros f Hf; [simpl; lia|].
  pose proof (isRune_length r Hr). rewrite length_app in Hf. destruct f as [|f]; [lia|].
  rewrite writeChars_rune by done. rewrite !length_app.
  pose proof (escapeRune_length r Hr). specialize (IH f). lia.
Qed.

(** ** Read strings *)

Lemma in_range_z2b lo hi z :
  0 <= z < 256 -> in_range lo hi (z2b z) = (b2z lo <=? z) && (z <=? b2z hi).
Proof. intros Hz. unfold in_range, bleb. by rewrite b2z_z2b_small. Qed.

Lemma bleb_z2b z c : 0 <= z < 256 -> bleb (z2b z) c = (z <=? b2z c).
Proof. intros Hz. unfold bleb. by rewrite b2z_z2b_small. Qed.

Lemma beqb_z2b z c : 0 <= z < 256 -> beqb (z2b z) c = (z =? b2z c).
Proof. intros Hz. unfold beqb. by rewrite b2z_z2b_small. Qed.

(** The byte arithmetic of [encodeRune]. *)
Lemma low6 r : 0 <= r -> 0 <= Z.land r 63 < 64 /\ Z.land r 63 = r mod 64.
Proof.
  intros Hr. change 63 with (Z.ones 6). rewrite Z.land_ones by lia. change (2 ^ 6) with 64.
  split; [apply Z.mod_pos_bound; lia|done].
Qed.

Lemma shr r n : 0 <= n -> Z.shiftr r n = r / 2 ^ n.
Proof. apply Z.shiftr_div_pow2. Qed.

Lemma cont_z2b z : 0 <= z < 64 -> cont (z2b (128 + z)) = true.
Proof.
  intros Hz. unfold cont. rewrite in_range_z2b by lia. apply andb_true_iff.
  change (b2z x80) with 128. change (b2z xbf) with 191. split; apply Z.leb_le; lia.
Qed.

Definition scalar (r : Z) : Prop := 0 <= r < 55296 \/ 57344 <= r < 1114112.

Ltac byte_bounds :=
  repeat match goal with
  | |- context [b2z ?c] => is_constructor c; let z := eval vm_compute in (b2z c) in change (b2z c) with z
  end.

Ltac solve_leb :=
  rewrite ?andb_true_iff, ?andb_false_iff, ?Z.leb_le, ?Z.leb_gt; lia.

(** The bytes of code points of two, of three and of four bytes, by the parts of
    their six bits. *)
Lemma isRune_two r : 128 <= r < 2048 -> isRune [z2b (192 + r / 64); z2b (128 + Z.land r 63)].
Proof.
  intros Hr. pose proof (low6 r ltac:(lia)) as [Hl0 _].
  assert (2 <= r / 64 < 32) by (split; [apply Z.div_le_lower_bound|apply Z.div_lt_upper_bound]; lia).
  split; [done|]. intros s. cbn [app runeLen]. rewrite bleb_z2b, in_range_z2b by lia. byte_bounds.
  replace (192 + r / 64 <=? 127) with false by (symmetry; solve_leb).
  replace ((194 <=? 192 + r / 64) && (192 + r / 64 <=? 223)) with true by (symmetry; solve_leb).
  by rewrite cont_z2b.
Qed.

Lemma isRune_three r :
  scalar r -> 2048 <= r < 65536 ->
  isRune [z2b (224 + r / 4096); z2b (128 + Z.land (r / 64) 63); z2b (128 + Z.land r 63)].
Proof.
  unfold scalar. intros Hs Hr. pose proof (low6 r ltac:(lia)) as [Hl0 Hm0].
  pose proof (low6 (r / 64) ltac:(apply Z.div_pos; lia)) as [Hl1 Hm1].
  assert (r / 4096 = r / 64 / 64) as E by (by rewrite Z.div_div).
  assert (0 <= r / 4096 < 16) by (split; [apply Z.div_pos|apply Z.div_lt_upper_bound]; lia).
  assert (r / 64 = 64 * (r / 4096) + Z.land (r / 64) 63) as E1 by (rewrite Hm1, E; apply Z.div_mod; lia).
  assert (r = 64 * (r / 64) + Z.land r 63) as E2 by (rewrite Hm0; apply Z.div_mod; lia).
  split; [done|]. intros s. cbn [app runeLen].
  rewrite bleb_z2b, !in_range_z2b, !beqb_z2b by lia. byte_bounds.
  replace (224 + r / 4096 <=? 127) with false by (symmetry; solve_leb).
  replace ((194 <=? 224 + r / 4096) && (224 + r / 4096 <=? 223)) with false by (symmetry; solve_leb).
  replace ((224 <=? 224 + r / 4096) && (224 + r / 4096 <=? 239)) with true by (symmetry; solve_leb).
  rewrite cont_z2b by lia. rewrite andb_true_r.
  replace (_ && _) with true; [done|]. symmetry. apply andb_true_iff. split; apply Z.leb_le.
  - destruct (Z.eqb_spec (224 + r / 4096) 224); byte_bounds; lia.
  - destruct (Z.eqb_spec (224 + r / 4096) 237); byte_bounds; lia.
Qed.

Lemma isRune_four r :
  65536 <= r < 1114112 ->
  isRune [z2b (240 + r / 262144); z2b (128 + Z.land (r / 4096) 63); z2b (128 + Z.land (r / 64) 63);
          z2b (128 + Z.land r 63)].
Proof.
  intros Hr. pose proof (low6 r ltac:(lia)) as [Hl0 _].
  pose proof (low6 (r / 64) ltac:(apply Z.div_pos; lia)) as [Hl1 _].
  pose proof (low6 (r / 4096) ltac:(apply Z.div_pos; lia)) as [Hl2 Hm2].
  assert (r / 262144 = r / 4096 / 64) as E by (by rewrite Z.div_div).
  assert (r = 4096 * (r / 4096) + r mod 4096) as E2 by (apply Z.div_mod; lia).
  assert (0 <= r mod 4096 < 4096) by (apply Z.mod_pos_bound; lia).
  assert (r / 4096 = 64 * (r / 262144) + Z.land (r / 4096) 63) as E3 by (rewrite Hm2, E; apply Z.div_mod; lia).
  assert (0 <= r / 262144 <= 4) by (split; [apply Z.div_pos|apply Z.lt_succ_r, Z.div_lt_upper_bound]; lia).
  split; [done|]. intros s. cbn [app runeLen].
  rewrite bleb_z2b, !in_range_z2b, !beqb_z2b by lia. byte_bounds.
  replace (240 + r / 262144 <=? 127) with false by (symmetry; solve_leb).
  replace ((194 <=? 240 + r / 262144) && (240 + r / 262144 <=? 223)) with false by (symmetry; solve_leb).
  replace ((224 <=? 240 + r / 262144) && (240 + r / 262144 <=? 239)) with false by (symmetry; solve_leb).
  replace ((240 <=? 240 + r / 262144) && (240 + r / 262144 <=? 244)) with true by (symmetry; solve_leb).
  rewrite !cont_z2b by lia. cbn [andb]. rewrite !andb_true_r.
  replace (_ && _) with true; [done|]. symmetry. apply andb_true_iff. split; apply Z.leb_le.
  - destruct (Z.eqb_spec (240 + r / 262144) 240); byte_bounds; lia.
  - destruct (Z.eqb_spec (240 + r / 262144) 244); byte_bounds; lia.
Qed.

Lemma isRune_encodeRune r : scalar r -> isRune (encodeRune r).
Proof.
  intros Hr. pose proof Hr as Hr'. unfold scalar in Hr'. unfold encodeRune.
  destruct (Z.ltb_spec r 128) as [H1|H1].
  { apply isRune_ascii. rewrite bleb_z2b by lia. byte_bounds. solve_leb. }
  rewrite !shr by lia. change (2 ^ 6) with 64. change (2 ^ 12) with 4096. change (2 ^ 18) with 262144.
  destruct (Z.ltb_spec r 2048) as [H2|H2]; [by apply isRune_two|].
  destruct (Z.ltb_spec r 65536) as [H3|H3]; [by apply isRune_three|]. apply isRune_four. lia.
Qed.

Lemma hex4_spec s r rest :
  hex4 s = Some (r, rest) -> 0 <= r < 65536 /\ length s = (4 + length rest)%nat.
Proof.
  assert (forall c z, fromHexChar c = Some z -> 0 <= z < 16) as Hd.
  { intros c z. destruct c; vm_compute; intros [= <-]; by split. }
  unfold hex4. destruct s as [|a [|b [|c [|d s']]]]; try done.
  destruct (fromHexChar a) as [za|] eqn:Ha; [|done]. destruct (fromHexChar b) as [zb|] eqn:Hb; [|done].
  destruct (fromHexChar c) as [zc|] eqn:Hc; [|done]. destruct (fromHexChar d) as [zd|] eqn:Hd'; [|done].
  cbn [mbind option_bind]. intros [= <- <-].
  apply Hd in Ha, Hb, Hc, Hd'. split; [lia|done].
Qed.

Lemma isRune_replacement : isRune replacementChar.
Proof. split; [done|]. intros s. reflexivity. Qed.

Lemma surrogatePair_scalar r1 r2 r : surrogatePair r1 r2 = Some r -> scalar r.
Proof.
  unfold surrogatePair. destruct (_ && _) eqn:E; [|done]. intros [= <-].
  rewrite !andb_true_iff, !Z.leb_le, !Z.ltb_lt in E. right. lia.
Qed.

Lemma readUnicode_spec s ch rest :
  readUnicode s = Some (ch, rest) -> isRune ch /\ (length rest < length s)%nat.
Proof.
  unfold readUnicode. destruct (hex4 s) as [[r rest0]|] eqn:Hx; [|done]. cbn [mbind option_bind].
  apply hex4_spec in Hx as [Hr Hlen].
  assert (forall x, Some (replacementChar, rest0) = Some x -> isRune x.1 /\ (length x.2 < length s)%nat)
    as Hlone.
  { intros x [= <-]. split; [apply isRune_replacement|simpl; lia]. }
  destruct (isSurrogate r) eqn:Hs; cycle 1.
  { intros [= <- <-]. split; [|lia]. apply isRune_encodeRune. unfold isSurrogate in Hs.
    apply andb_false_iff in Hs. unfold scalar. rewrite Z.leb_gt, Z.ltb_ge in Hs. lia. }
  destruct rest0 as [|e [|u rest']]; try (intros Hx; by apply Hlone in Hx).
  destruct (_ && _); [|intros Hx; by apply Hlone in Hx].
  destruct (hex4 rest') as [[r2 rest2]|] eqn:Hx2; [|intros Hx; by apply Hlone in Hx].
  destruct (surrogatePair r r2) as [rr|] eqn:Hp; [|intros Hx; by apply Hlone in Hx].
  intros [= <- <-]. apply hex4_spec in Hx2 as [_ Hlen2].
  split; [by eapply isRune_encodeRune, surrogatePair_scalar|]. simpl in Hlen. lia.
Qed.

Lemma readChar_spec s ch rest :
  readChar s = Some (ch, rest) -> isRune ch /\ (length rest < length s)%nat.
Proof.
  unfold readChar. destruct s as [|c s']; [done|]. destruct (beqb c "\").
  - destruct s' as [|e s'']; [done|]. destruct (beqb e "u").
    { intros Hu. apply readUnicode_spec in Hu as [? ?]. simpl. split; [done|lia]. }
    destruct (simpleEscape e) as [b|] eqn:He; [|done]. intros [= <- <-]. simpl. split; [|lia].
    apply isRune_ascii. revert He. destruct e; vm_compute; intros [= <-]; done.
  - destruct (bleb c x1f); [done|]. destruct (runeLen (c :: s')) as [n|] eqn:Hn.
    + intros [= <- <-]. split; [by apply runeLen_isRune|]. rewrite length_drop.
      pose proof (runeLen_pos _ _ Hn). simpl. lia.
    + intros [= <- <-]. split; [apply isRune_replacement|simpl; lia].
Qed.

Lemma readString_spec f s t rest :
  readString f s = Some (t, rest) -> utf8Valid t = true /\ (length rest < length s)%nat.
Proof.
  rewrite <- runes_valid. revert s t rest. induction f as [|f IH]; intros s t rest; [done|].
  cbn [readString]. destruct s as [|c s']; [done|]. destruct (beqb c x22).
  { intros [= <- <-]. split; [constructor|simpl; lia]. }
  destruct (readChar (c :: s')) as [[ch r]|] eqn:Hc; [|done]. cbn [mbind option_bind].
  destruct (readString f r) as [[t' r']|] eqn:Hr; [|done]. intros [= <- <-].
  apply readChar_spec in Hc as [Hch Hl]. apply IH in Hr as [Ht Hl'].
  split; [by constructor|lia].
Qed.

(** ** Numbers *)

(** What may follow a value: nothing that extends a number. *)
Definition delim (t : bytes) : Prop :=
  match t with
  | [] => True
  | c :: _ => isDigit c = false /\ beqb c "." = false /\ beqb c "e" = false /\ beqb c "E" = false
  end.

Lemma span_delim p s t a b :
  span p s = (a, b) -> b <> [] \/ match t with [] => True | c :: _ => p c = false end ->
  span p (s ++ t) = (a, b ++ t).
Proof.
  revert a b. induction s as [|c s IH]; intros a b; cbn [span app].
  - intros [= <- <-] [?|Ht]; [done|]. destruct t as [|c t]; [done|]. cbn [span]. by rewrite Ht.
  - destruct (p c).
    + destruct (span p s) as [a' b'] eqn:E. intros [= <- <-] Ht. by rewrite (IH a' b').
    + by intros [= <- <-] _.
Qed.

Lemma delim_digit t : delim t -> match t with [] => True | c :: _ => isDigit c = false end.
Proof. destruct t; [done|]. by intros []. Qed.

Lemma scanInt_delim s t a b : scanInt s = Some (a, b) -> delim t -> scanInt (s ++ t) = Some (a, b ++ t).
Proof.
  unfold scanInt. intros Hs Ht. destruct s as [|c s]; [done|]. cbn [app].
  destruct (beqb c "0"); [by simplify_eq|]. destruct (isDigit c); [|done].
  injection Hs as Hs. f_equal. apply (span_delim isDigit (c :: s) t a b Hs).
  right. by apply delim_digit.
Qed.

Lemma scanFrac_app s t a b : scanFrac s = (a, b) -> delim t -> scanFrac (s ++ t) = (a, b ++ t).
Proof.
  unfold scanFrac. intros Hs Ht. destruct s as [|dot s].
  { injection Hs as <- <-. cbn [app]. destruct t as [|c [|d t]]; try done.
    destruct Ht as (_ & -> & _). done. }
  destruct s as [|d s]; cbn [app].
  { injection Hs as <- <-. destruct t as [|c t]; [done|]. destruct Ht as (-> & _).
    by rewrite andb_false_r. }
  destruct (_ && _); [|by injection Hs as <- <-].
  rewrite app_comm_cons. apply span_delim; [done|]. right. by apply delim_digit.
Qed.

Lemma scanExp_app s t e : scanExp s = Some (e, []) -> delim t -> scanExp (s ++ t) = Some (e, t).
Proof.
  unfold scanExp. intros Hs Ht. destruct s as [|x s].
  { injection Hs as <-. cbn [app]. destruct t as [|c [|d t]]; try done.
    destruct Ht as (_ & _ & -> & ->). done. }
  destruct s as [|c s]; [done|]. cbn [app]. destruct (_ || _); [|done].
  assert (forall neg (ds : bytes), match ds with
      | [] => None
      | _ => let '(digits, rest) := span isDigit ds in Some (Some (neg, digits), rest)
      end = Some (e, []) ->
      match ds ++ t with
      | [] => None
      | _ => let '(digits, rest) := span isDigit (ds ++ t) in Some (Some (neg, digits), rest)
      end = Some (e, t)) as Hgen.
  { intros neg ds. destruct ds as [|d ds]; [done|]. destruct (span isDigit (d :: ds)) as [a b] eqn:E.
    intros [= <- ->]. rewrite (span_delim _ _ t _ _ E); [done|]. right. by apply delim_digit. }
  destruct (beqb c "-"); [by apply (Hgen true s)|].
  destruct (beqb c "+"); [by apply (Hgen false s)|]. by apply (Hgen false (c :: s)).
Qed.

Lemma isValidNumber_head lit : isValidNumber lit = true -> exists c l, lit = c :: l /\
  (beqb c "-" || isDigit c) = true.
Proof.
  unfold isValidNumber, splitNumber. destruct lit as [|c l]; [done|]. intros H. exists c, l.
  split; [done|]. destruct (beqb c "-") eqn:Hm; [done|]. simpl.
  unfold scanInt in H. destruct (beqb c "0") eqn:H0.
  - apply beqb_eq in H0 as ->. done.
  - by destruct (isDigit c).
Qed.

Lemma readNumber_valid lit t : isValidNumber lit = true -> delim t -> readNumber (lit ++ t) = Some (lit, t).
Proof.
  intros Hv Ht. pose proof Hv as Hv'. apply isValidNumber_head in Hv' as (c & l & -> & _).
  pose proof Hv as Hs. unfold isValidNumber, splitNumber in Hs. unfold readNumber. cbn [app].
  set (sgn := if beqb c "-" then (true, l) else (false, c :: l)) in Hs.
  assert ((if beqb c "-" then ([c], l ++ t) else ([], c :: l ++ t)).2 = sgn.2 ++ t) as Hsgn
    by (unfold sgn; by destruct (beqb c "-")).
  destruct (if beqb c "-" then ([c], l ++ t) else ([], c :: l ++ t)) as [n1 s1]. simpl in Hsgn. subst s1.
  destruct sgn as [neg s1]. cbn [snd].
  destruct (scanInt s1) as [[int s2]|] eqn:Hi; [|done]. cbn [mbind option_bind] in Hs.
  rewrite (scanInt_delim _ t _ _ Hi Ht). cbn [mbind option_bind].
  destruct (scanFrac s2) as [frac s3] eqn:Hf. rewrite (scanFrac_app _ t _ _ Hf Ht).
  destruct (scanExp s3) as [[e [|]]|] eqn:He; [|done..].
  rewrite (scanExp_app _ t _ He Ht). cbn [mbind option_bind].
  replace (length (c :: l ++ t) - length t)%nat with (length (c :: l)) by (simpl; rewrite length_app; lia).
  rewrite app_comm_cons, take_app_length. by rewrite Hv.
Qed.
