(* ===== verification/JsonRoundtrip.v ===== *)
(** * JSON: values

    Well-formed values: what the decoder produces and the encoder accepts; the
    decoder gives them back from what the encoder writes. *)

From S2P Require Import Prelude GoErrors Text Number Json JsonFacts.

(** ** Well-formed values

    [wfJson d v]: the strings of [v] are valid UTF-8, its numbers are literals,
    its keys are in order, and it nests at most [d] deep. *)

Inductive wfJson : Z -> json -> Prop :=
  | wf_null d : wfJson d JNull
  | wf_bool d b : wfJson d (JBool b)
  | wf_num d lit : isValidNumber lit = true -> wfJson d (JNum lit)
  | wf_str d s : utf8Valid s = true -> wfJson d (JStr s)
  | wf_arr d l : 0 < d -> Forall (wfJson (d - 1)) l -> wfJson d (JArr l)
  | wf_obj d m : 0 < d -> StronglySorted (keyed fst) m ->
      Forall (fun kv => utf8Valid kv.1 = true /\ wfJson (d - 1) kv.2) m -> wfJson d (JObj m).

(** Induction over the values of arrays and objects. *)
Lemma json_rect (P : json -> Prop) :
  P JNull -> (forall b, P (JBool b)) -> (forall lit, P (JNum lit)) -> (forall s, P (JStr s)) ->
  (forall l, Forall P l -> P (JArr l)) -> (forall m, Forall (fun kv => P kv.2) m -> P (JObj m)) ->
  forall v, P v.
Proof.
  intros Hn Hb Hi Hs Ha Ho. fix IH 1. intros [|b|lit|s|l|m];
    [exact Hn|apply Hb|apply Hi|apply Hs|apply Ha|apply Ho].
  - induction l as [|v l IHl]; constructor; [apply IH|exact IHl].
  - induction m as [|[k v] m IHm]; constructor; [apply IH|exact IHm].
Qed.

(** ** Writing, one level at a time *)

Definition marshalElems : list json -> res bytes :=
  fix elems (l : list json) : res bytes :=
    match l with
    | [] => Ok []
    | [v] => marshal v
    | v :: l' => a ← marshal v; b ← elems l'; Ok (a ++ str "," ++ b)
    end.

Definition marshalMembers : list (bytes * json) -> res bytes :=
  fix members (m : list (bytes * json)) : res bytes :=
    match m with
    | [] => Ok []
    | [(k, v)] => a ← marshal v; Ok (writeString k ++ str ":" ++ a)
    | (k, v) :: m' =>
        a ← marshal v; b ← members m';
        Ok (writeString k ++ str ":" ++ a ++ str "," ++ b)
    end.

Lemma marshal_arr l : marshal (JArr l) = body ← marshalElems l; Ok (str "[" ++ body ++ str "]").
Proof. reflexivity. Qed.

Lemma marshal_obj m : marshal (JObj m) = body ← marshalMembers m; Ok (str "{" ++ body ++ str "}").
Proof. reflexivity. Qed.

(** What is written: valid UTF-8 that starts a value. *)
Definition starts (out : bytes) : Prop :=
  exists c o, out = c :: o /\ isSpaceByte c = false /\ beqb c "]" = false.

Definition written (r : res bytes) : Prop :=
  exists out, r = Ok out /\ utf8Valid out = true /\ starts out.

Lemma writeString_runes s : utf8Valid s = true -> runes (writeString s).
Proof.
  intros Hs. unfold writeString. apply runes_app; [by apply runes_valid|].
  apply runes_app; [|by apply runes_valid]. by apply writeChars_runes, runes_valid.
Qed.

Lemma digit_runes_ascii (s : bytes) : Forall (fun c => bleb c x7f = true) s -> runes s.
Proof.
  induction 1 as [|c s Hc Hs IH]; [constructor|]. apply (runes_cons [c] s); [|done].
  by apply isRune_ascii.
Qed.

(** A literal is made of printable ASCII characters. *)
Notation ascii := (Forall (fun c => in_range x20 x7f c = true)).

Lemma digit_ascii c : isDigit c = true -> in_range x20 x7f c = true.
Proof. by destruct c. Qed.

Lemma span_ascii s a b : span isDigit s = (a, b) -> exists p, s = p ++ b /\ ascii p.
Proof.
  revert a b. induction s as [|c s IH]; intros a b; cbn [span].
  - intros [= <- <-]. by exists [].
  - destruct (isDigit c) eqn:Hc.
    + destruct (span isDigit s) as [a' b'] eqn:E. intros [= <- <-].
      destruct (IH a' b' eq_refl) as (p & -> & Hp). exists (c :: p). split; [done|].
      constructor; [by apply digit_ascii|done].
    + intros [= <- <-]. by exists [].
Qed.

Lemma scanInt_ascii s a b : scanInt s = Some (a, b) -> exists p, s = p ++ b /\ ascii p.
Proof.
  unfold scanInt. destruct s as [|c s]; [done|]. destruct (beqb c "0") eqn:H0.
  - intros [= <- <-]. exists [c]. split; [done|]. apply beqb_eq in H0 as ->. by repeat constructor.
  - destruct (isDigit c); [|done]. intros Hs%(inj Some). by apply span_ascii in Hs.
Qed.

Lemma scanFrac_ascii s a b : scanFrac s = (a, b) -> exists p, s = p ++ b /\ ascii p.
Proof.
  unfold scanFrac. destruct s as [|dot [|d s]]; try (intros [= <- <-]; by exists []).
  destruct (beqb dot "." && isDigit d) eqn:E; [|intros [= <- <-]; by exists []].
  intros Hs. apply span_ascii in Hs as (p & -> & Hp). exists (dot :: p). split; [done|].
  apply andb_true_iff in E as [->%beqb_eq _]. by constructor.
Qed.

Lemma scanExp_ascii s e b : scanExp s = Some (e, b) -> exists p, s = p ++ b /\ ascii p.
Proof.
  unfold scanExp. destruct s as [|x [|c s]]; try (intros [= <- <-]; by exists []).
  destruct (_ || _) eqn:Ex; [|intros [= <- <-]; by exists []].
  assert (forall neg (ds : bytes), match ds with
      | [] => None
      | _ => let '(digits, rest) := span isDigit ds in Some (Some (neg, digits), rest)
      end = Some (e, b) -> exists p, ds = p ++ b /\ ascii p) as Hgen.
  { intros neg ds. destruct ds as [|d ds]; [done|]. destruct (span isDigit (d :: ds)) as [a r] eqn:E.
    intros [= <- <-]. by apply span_ascii in E. }
  assert (in_range x20 x7f x = true) as Hx.
  { apply orb_true_iff in Ex as [->%beqb_eq| ->%beqb_eq]; done. }
  destruct (beqb c "-") eqn:Hm; [|destruct (beqb c "+") eqn:Hp].
  - intros (p & -> & Hp)%(Hgen true). exists (x :: c :: p). split; [done|].
    apply beqb_eq in Hm as ->. by repeat constructor.
  - intros (p & -> & Hp')%(Hgen false). exists (x :: c :: p). split; [done|].
    apply beqb_eq in Hp as ->. by repeat constructor.
  - intros Hs. apply (Hgen false (c :: s)) in Hs as (p & E & Hp'). exists (x :: p). split; [by rewrite E|]. by constructor.
Qed.

Lemma isValidNumber_ascii lit : isValidNumber lit = true -> ascii lit.
Proof.
  unfold isValidNumber, splitNumber. intros Hv.
  assert (exists p s1, lit = p ++ s1 /\ ascii p /\
    (if match lit with c :: s' => beqb c "-" | [] => false end then (true, drop 1 lit) else (false, lit)).2
    = s1) as (p & s1 & -> & Hp & Hs1).
  { destruct lit as [|c l]; [by exists [], []|]. destruct (beqb c "-") eqn:E.
    - exists [c], l. apply beqb_eq in E as ->. by repeat constructor.
    - by exists [], (c :: l). }
  replace (match p ++ s1 with c :: s' => if beqb c "-" then (true, s') else (false, p ++ s1)
           | [] => (false, p ++ s1) end)
    with (if match p ++ s1 with c :: s' => beqb c "-" | [] => false end
          then (true, drop 1 (p ++ s1)) else (false, p ++ s1)) in Hv
    by (destruct (p ++ s1) as [|c l]; [done|]; by destruct (beqb c "-")).
  destruct (if match p ++ s1 with c :: s' => beqb c "-" | [] => false end then _ else _) as [neg s1'].
  simpl in Hs1. subst s1'.
  destruct (scanInt s1) as [[int s2]|] eqn:Hi; [|done]. cbn [mbind option_bind] in Hv.
  destruct (scanFrac s2) as [frac s3] eqn:Hf.
  destruct (scanExp s3) as [[e [|]]|] eqn:He; [|done..].
  apply scanInt_ascii in Hi as (p1 & -> & Hp1). apply scanFrac_ascii in Hf as (p2 & -> & Hp2).
  apply scanExp_ascii in He as (p3 & -> & Hp3). rewrite app_nil_r.
  by repeat (apply Forall_app; split).
Qed.

(** ** Values as they are written

    [wfText d v]: what can be written and read, with the members of objects in any
    order, as the fields of a struct are.  Reading gives [norm v], with the members
    in order. *)

Inductive wfText : Z -> json -> Prop :=
  | wt_null d : wfText d JNull
  | wt_bool d b : wfText d (JBool b)
  | wt_num d lit : isValidNumber lit = true -> wfText d (JNum lit)
  | wt_str d s : utf8Valid s = true -> wfText d (JStr s)
  | wt_arr d l : 0 < d -> Forall (wfText (d - 1)) l -> wfText d (JArr l)
  | wt_obj d m : 0 < d -> Forall (fun kv => utf8Valid kv.1 = true /\ wfText (d - 1) kv.2) m -> wfText d (JObj m).

Fixpoint norm (v : json) : json :=
  match v with
  | JArr l => JArr (map norm l)
  | JObj m => JObj (fold_left (fun acc kv => objInsert kv.1 (norm kv.2) acc) m [])
  | _ => v
  end.

Definition normMembers (acc m : list (bytes * json)) : list (bytes * json) :=
  fold_left (fun acc kv => objInsert kv.1 (norm kv.2) acc) m acc.

Lemma wfJson_text v : forall d, wfJson d v -> wfText d v.
Proof.
  induction v as [|b|lit|s|l IH|m IH] using json_rect; intros d Hw; inversion Hw; subst; constructor; try done.
  - eapply Forall_impl; [apply Forall_and; split; [exact IH|eassumption]|]. intros v [Hv ?]. by apply Hv.
  - eapply Forall_impl; [apply Forall_and; split; [exact IH|eassumption]|]. intros kv [Hv [? ?]]. auto.
Qed.

(** Members come in order, so each goes to the end of the object. *)
Lemma objInsert_last k v (acc : list (bytes * json)) :
  Forall (fun kv => kv.1 <b k) acc -> objInsert k v acc = acc ++ [(k, v)].
Proof.
  induction 1 as [|[k' v'] acc Hlt HF IH]; [done|]. cbn [objInsert app].
  replace (bcmp k k') with Gt; [by rewrite IH|]. symmetry. by apply bcmp_gt_lt.
Qed.

Lemma norm_wf v : forall d, wfJson d v -> norm v = v.
Proof.
  induction v as [|b|lit|s|l IH|m IH] using json_rect; intros d Hw; [done..| |]; inversion Hw as [| | | |? ? _ HF|? ? _ HS HF]; subst;
    cbn [norm]; f_equal.
  - clear Hw. induction IH as [|v l Hv _ IHl]; [done|]. apply Forall_cons in HF as [Hw HF]. cbn [map].
    by rewrite (Hv _ Hw), IHl.
  - clear Hw. change m with ([] ++ m) at 2. rewrite <- (app_nil_l m) in HS. revert HS. generalize (@nil (bytes * json)) as acc.
    induction IH as [|[k v] m Hv _ IHm]; intros acc HS; cbn [fold_left]; [by rewrite app_nil_r|].
    apply Forall_cons in HF as [[_ Hw] HF]. cbn [fst snd] in *. rewrite (Hv _ Hw), objInsert_last, (IHm HF).
    + by rewrite <- app_assoc.
    + by rewrite <- app_assoc.
    + apply StronglySorted_app in HS as (HS & _ & _). apply Forall_forall. intros x Hx. apply (HS x (k, v)); [done|]. left.
Qed.

(** ** The encoder is total on well-formed values *)

Lemma starts_app out rest : starts out -> starts (out ++ rest).
Proof. intros (c & o & -> & ? & ?). by exists c, (o ++ rest). Qed.

Lemma written_num lit : isValidNumber lit = true -> written (marshal (JNum lit)).
Proof.
  intros Hv. exists lit. destruct (isValidNumber_head lit Hv) as (c & l & E & Hc). split; [|split].
  - simpl. unfold writeNumber. rewrite Hv. by rewrite E.
  - apply runes_valid, digit_runes_ascii. eapply Forall_impl; [by apply isValidNumber_ascii|].
    intros x Hx. by apply andb_true_iff in Hx as [_ ?].
  - exists c, l. split; [done|]. destruct c; try discriminate Hc; done.
Qed.

Lemma runes_cat l : Forall runes l -> runes (concat l).
Proof. induction 1; [constructor|]. by apply runes_app. Qed.

Ltac solve_runes := repeat first [assumption | apply runes_app | (by apply runes_valid)].

Lemma written_elems d l :
  Forall (fun v => forall d', wfText d' v -> written (marshal v)) l -> Forall (wfText d) l ->
  exists body, marshalElems l = Ok body /\ utf8Valid body = true /\ (l <> [] -> starts body).
Proof.
  intros HP HW. induction HP as [|v l Hv HP IH]; [by exists []|].
  apply Forall_cons in HW as [Hwv HW]. destruct (IH HW) as (body & Hb & Hu & _).
  destruct (Hv d Hwv) as (out & Ho & Hou & Hos).
  destruct l as [|v' l]; [exists out; split; [exact Ho|done]|].
  exists (out ++ str "," ++ body). split; [|split].
  - change (marshalElems (v :: v' :: l))
      with (a ← marshal v; b ← marshalElems (v' :: l); Ok (a ++ str "," ++ b)).
    rewrite Ho, Hb. done.
  - apply runes_valid. apply runes_valid in Hu, Hou. solve_runes.
  - intros _. by apply starts_app.
Qed.

Lemma written_members d m :
  Forall (fun kv => forall d', wfText d' kv.2 -> written (marshal kv.2)) m ->
  Forall (fun kv => utf8Valid kv.1 = true /\ wfText d kv.2) m ->
  exists body, marshalMembers m = Ok body /\ utf8Valid body = true.
Proof.
  intros HP HW. induction HP as [|[k v] m Hv HP IH]; [by exists []|].
  apply Forall_cons in HW as [[Hk Hwv] HW]. destruct (IH HW) as (body & Hb & Hu).
  destruct (Hv d Hwv) as (out & Ho & Hou & _). cbn [fst snd] in *.
  apply writeString_runes in Hk. apply runes_valid in Hu, Hou.
  destruct m as [|[k' v'] m].
  - exists (writeString k ++ str ":" ++ out). split; [simpl; by rewrite Ho|].
    apply runes_valid. solve_runes.
  - exists (writeString k ++ str ":" ++ out ++ str "," ++ body). split.
    + change (marshalMembers ((k, v) :: (k', v') :: m))
        with (a ← marshal v; b ← marshalMembers ((k', v') :: m);
              Ok (writeString k ++ str ":" ++ a ++ str "," ++ b)).
      rewrite Ho, Hb. done.
    + apply runes_valid. solve_runes.
Qed.

Lemma marshal_written v : forall d, wfText d v -> written (marshal v).
Proof.
  induction v as [|b|lit|s|l IH|m IH] using json_rect; intros d Hw.
  - exists (str "null"). by repeat (split || eexists _, _).
  - exists (if b then str "true" else str "false"). destruct b; by repeat (split || eexists _, _).
  - inversion Hw; subst. by apply written_num.
  - inversion Hw; subst. exists (writeString s). split; [done|]. split.
    + by apply runes_valid, writeString_runes.
    + eexists _, _. split; [done|]. done.
  - inversion Hw as [| | | |? ? ? HF|]; subst. rewrite marshal_arr.
    destruct (written_elems _ _ IH HF) as (body & -> & Hu & _). eexists. split; [done|]. split.
    + apply runes_valid in Hu. apply runes_valid. solve_runes.
    + by eexists _, _.
  - inversion Hw as [| | | | |? ? ? HF]; subst. rewrite marshal_obj.
    destruct (written_members _ _ IH HF) as (body & -> & Hu). eexists. split; [done|]. split.
    + apply runes_valid in Hu. apply runes_valid. solve_runes.
    + by eexists _, _.
Qed.

(** ** What is written reads back *)

Lemma skipSpace_starts out : starts out -> skipSpace out = out.
Proof. intros (c & o & -> & Hc & _). cbn [skipSpace]. by rewrite Hc. Qed.

(** A fuel that is enough at a string, for a value and for a list of elements. *)
Definition enough (fuel : nat) (s : bytes) : Prop := (2 * length s < fuel)%nat.

Definition readsBack (v : json) : Prop := forall d out rest fuel,
  wfText (maxNestingDepth - d) v -> marshal v = Ok out -> delim rest -> enough fuel (out ++ rest) ->
  readValue fuel d (out ++ rest) = Some (norm v, rest).

Lemma readsBack_num lit : readsBack (JNum lit).
Proof.
  intros d out rest fuel Hw Hm Hd Hf. inversion Hw as [| |? ? Hv| | |]; subst.
  destruct (isValidNumber_head lit Hv) as (c & l & E & Hc).
  simpl in Hm. unfold writeNumber in Hm. rewrite Hv in Hm. rewrite E in Hm. injection Hm as <-.
  destruct fuel as [|f]; [unfold enough in Hf; lia|]. rewrite <- E. cbn [readValue].
  pose proof (readNumber_valid lit rest Hv Hd) as Hr. rewrite E in Hr |- *. cbn [app] in Hr |- *.
  assert (isSpaceByte c = false) as Hs by (by destruct c).
  cbn [skipSpace]. rewrite Hs, Hr.
  destruct c; try discriminate Hc; reflexivity.
Qed.

Lemma readString_written s f rest :
  utf8Valid s = true -> (length (writeString s ++ rest) <= f)%nat ->
  readString f (writeChars (length s) s ++ x22 :: rest) = Some (s, rest).
Proof.
  intros Hs%runes_valid Hf. apply read_writeChars; [done|lia|].
  pose proof (writeChars_length s Hs (length s)). unfold writeString in Hf.
  rewrite !length_app in Hf. simpl in Hf. lia.
Qed.

Lemma writeString_app s rest : writeString s ++ rest = x22 :: writeChars (length s) s ++ x22 :: rest.
Proof. unfold writeString. by rewrite <- !app_assoc. Qed.

Lemma readsBack_str s : readsBack (JStr s).
Proof.
  intros d out rest fuel Hw Hm Hd Hf. inversion Hw as [| | |? ? Hv| |]; subst. injection Hm as <-.
  destruct fuel as [|f]; [unfold enough in Hf; lia|]. cbn [readValue].
  rewrite writeString_app. change (skipSpace (x22 :: ?s)) with (x22 :: s).
  change (beqb x22 "{") with false. change (beqb x22 "[") with false. change (beqb x22 x22) with true.
  cbv iota. rewrite readString_written; [done|done|]. by rewrite writeString_app.
Qed.

Lemma delim_close c rest : delim (c :: rest) <->
  isDigit c = false /\ beqb c "." = false /\ beqb c "e" = false /\ beqb c "E" = false.
Proof. done. Qed.

Lemma readElems_written d l body rest fuel :
  l <> [] -> Forall readsBack l -> Forall (wfText (maxNestingDepth - d)) l -> marshalElems l = Ok body ->
  (2 * length (body ++ "]"%byte :: rest) + 1 < fuel)%nat ->
  readElems fuel d (body ++ "]"%byte :: rest) = Some (JArr (map norm l), rest).
Proof.
  intros Hne HP. revert body fuel. induction HP as [|v l Hv HP IH]; [done|]. clear Hne.
  intros body fuel HW Hm Hf. apply Forall_cons in HW as [Hwv HW].
  destruct (marshal_written v _ Hwv) as (out & Ho & _ & Hst).
  destruct fuel as [|f]; [lia|]. cbn [readElems]. destruct l as [|v' l].
  - change (marshalElems [v]) with (marshal v) in Hm. rewrite Ho in Hm. injection Hm as <-.
    rewrite (Hv d out ("]"%byte :: rest) f Hwv Ho); [|done|unfold enough; lia]. done.
  - change (marshalElems (v :: v' :: l))
      with (a ← marshal v; b ← marshalElems (v' :: l); Ok (a ++ str "," ++ b)) in Hm.
    rewrite Ho in Hm. cbn [mbind res_bind] in Hm.
    destruct (marshalElems (v' :: l)) as [b|e|] eqn:Hb; [|done..]. apply Ok_inj in Hm as <-.
    rewrite <- !app_assoc in Hf |- *. change (str "," ++ ?s) with (","%byte :: s) in Hf |- *.
    rewrite length_app in Hf. simpl in Hf.
    rewrite (Hv d out (","%byte :: b ++ "]"%byte :: rest) f Hwv Ho);
      [|done|unfold enough; rewrite length_app; simpl; lia].
    cbn [mbind option_bind]. change (skipSpace (","%byte :: ?s)) with (","%byte :: s).
    change (beqb "," "]") with false. change (beqb "," ",") with true. cbv iota.
    rewrite (IH ltac:(done) b f HW eq_refl) by lia. done.
Qed.

Lemma readsBack_arr l : Forall readsBack l -> readsBack (JArr l).
Proof.
  intros HP d out rest fuel Hw Hm Hd Hf. inversion Hw as [| | | |? ? Hpos HF|]; subst.
  rewrite marshal_arr in Hm. destruct (marshalElems l) as [body|e|] eqn:Hb; [|done..].
  apply Ok_inj in Hm as <-. destruct fuel as [|f]; [unfold enough in Hf; lia|]. cbn [readValue].
  change ((str "[" ++ body ++ str "]") ++ rest) with ("["%byte :: (body ++ str "]") ++ rest) in Hf |- *.
  rewrite <- app_assoc in Hf |- *. change (str "]" ++ rest) with ("]"%byte :: rest) in Hf |- *.
  change (skipSpace ("["%byte :: ?s)) with ("["%byte :: s).
  change (beqb "[" "{") with false. change (beqb "[" "[") with true. cbv iota.
  replace (maxNestingDepth <=? d) with false by (symmetry; apply Z.leb_gt; lia).
  destruct l as [|v l].
  - injection Hb as <-. cbn [app]. change (skipSpace ("]"%byte :: ?s)) with ("]"%byte :: s). done.
  - replace (maxNestingDepth - d - 1) with (maxNestingDepth - (d + 1)) in HF by lia.
    destruct (written_elems _ (v :: l) (Forall_true _ _ marshal_written) HF) as (body' & Hb' & _ & Hst).
    assert (body' = body) as -> by congruence. destruct (Hst ltac:(done)) as (c & o & E & Hs & Hc).
    pose proof (readElems_written (d + 1) (v :: l) body rest f ltac:(done) HP HF Hb) as Hr.
    rewrite E in Hr, Hf |- *. cbn [app] in Hr, Hf |- *. cbn [skipSpace]. rewrite Hs, Hc.
    apply Hr. unfold enough in Hf. simpl in Hf |- *. lia.
Qed.

Lemma readMembers_written d m acc body rest fuel :
  m <> [] -> Forall (fun kv => readsBack kv.2) m ->
  Forall (fun kv => utf8Valid kv.1 = true /\ wfText (maxNestingDepth - d) kv.2) m ->
  marshalMembers m = Ok body ->
  (2 * length (body ++ "}"%byte :: rest) + 1 < fuel)%nat ->
  readMembers fuel d acc (body ++ "}"%byte :: rest) = Some (JObj (normMembers acc m), rest).
Proof.
  intros Hne HP. revert acc body fuel. induction HP as [|[k v] m Hv HP IH]; [done|]. clear Hne.
  intros acc body fuel HW Hm Hf. apply Forall_cons in HW as [[Hk Hwv] HW]. cbn [fst snd] in *.
  destruct (marshal_written v _ Hwv) as (out & Ho & _ & _).
  destruct fuel as [|f]; [lia|]. cbn [readMembers].
  assert (exists tail, body = writeString k ++ str ":" ++ out ++ tail /\
            (m = [] /\ tail = [] \/
             exists b, m <> [] /\ marshalMembers m = Ok b /\ tail = str "," ++ b)) as (tail & -> & Htail).
  { destruct m as [|[k' v'] m].
    - change (marshalMembers [(k, v)]) with (a ← marshal v; Ok (writeString k ++ str ":" ++ a)) in Hm.
      rewrite Ho in Hm. apply Ok_inj in Hm as <-. exists []. rewrite app_nil_r. split; [done|]. by left.
    - change (marshalMembers ((k, v) :: (k', v') :: m))
        with (a ← marshal v; b ← marshalMembers ((k', v') :: m);
              Ok (writeString k ++ str ":" ++ a ++ str "," ++ b)) in Hm.
      rewrite Ho in Hm. cbn [mbind res_bind] in Hm.
      destruct (marshalMembers ((k', v') :: m)) as [b|e|]; [|done..]. apply Ok_inj in Hm as <-.
      exists (str "," ++ b). split; [done|]. right. by exists b. }
  rewrite <- !app_assoc in Hf |- *. rewrite writeString_app in Hf |- *.
  set (rest1 := str ":" ++ out ++ tail ++ "}"%byte :: rest) in *.
  change (skipSpace (x22 :: ?s)) with (x22 :: s). change (beqb x22 x22) with true. cbv iota.
  rewrite readString_written; [|done|by rewrite writeString_app]. cbn [mbind option_bind].
  unfold rest1 in *. change (str ":" ++ ?s) with (":"%byte :: s) in Hf |- *.
  change (skipSpace (":"%byte :: ?s)) with (":"%byte :: s). change (beqb ":" ":") with true. cbv iota.
  assert (2 * length (out ++ tail ++ "}"%byte :: rest) < f)%nat as Hf'.
  { simpl in Hf. rewrite length_app in Hf. simpl in Hf. lia. }
  destruct Htail as [[-> ->]|(b & Hne & Hb & ->)].
  - cbn [app] in Hf' |- *. rewrite (Hv d out ("}"%byte :: rest) f Hwv Ho); [|done|done].
    cbn [mbind option_bind]. change (skipSpace ("}"%byte :: ?s)) with ("}"%byte :: s).
    change (beqb "}" "}") with true. done.
  - rewrite <- app_assoc in Hf' |- *. change (str "," ++ ?s) with (","%byte :: s) in Hf' |- *.
    rewrite (Hv d out (","%byte :: b ++ "}"%byte :: rest) f Hwv Ho); [|done|done].
    cbn [mbind option_bind]. change (skipSpace (","%byte :: ?s)) with (","%byte :: s).
    change (beqb "," "}") with false. change (beqb "," ",") with true. cbv iota.
    rewrite (IH Hne (objInsert k (norm v) acc) b f HW); [done|done|].
    rewrite length_app in Hf'. simpl in Hf'. lia.
Qed.

Lemma readsBack_obj m : Forall (fun kv => readsBack kv.2) m -> readsBack (JObj m).
Proof.
  intros HP d out rest fuel Hw Hm Hd Hf. inversion Hw as [| | | | |? ? Hpos HF]; subst.
  rewrite marshal_obj in Hm. destruct (marshalMembers m) as [body|e|] eqn:Hb; [|done..].
  apply Ok_inj in Hm as <-. destruct fuel as [|f]; [unfold enough in Hf; lia|]. cbn [readValue].
  change ((str "{" ++ body ++ str "}") ++ rest) with ("{"%byte :: (body ++ str "}") ++ rest) in Hf |- *.
  rewrite <- app_assoc in Hf |- *. change (str "}" ++ rest) with ("}"%byte :: rest) in Hf |- *.
  change (skipSpace ("{"%byte :: ?s)) with ("{"%byte :: s). change (beqb "{" "{") with true. cbv iota.
  replace (maxNestingDepth <=? d) with false by (symmetry; apply Z.leb_gt; lia).
  destruct m as [|[k v] m].
  - injection Hb as <-. cbn [app]. change (skipSpace ("}"%byte :: ?s)) with ("}"%byte :: s). done.
  - replace (maxNestingDepth - d - 1) with (maxNestingDepth - (d + 1)) in HF by lia.
    pose proof (readMembers_written (d + 1) ((k, v) :: m) [] body rest f ltac:(done) HP HF Hb) as Hr.
    assert (exists o, body = x22 :: o) as [o E].
    { destruct (marshal_written v _ (proj2 (Forall_inv HF))) as (out & Ho & _ & _).
      destruct m as [|[k' v'] m].
      - change (marshalMembers [(k, v)]) with (a ← marshal v; Ok (writeString k ++ str ":" ++ a)) in Hb.
        cbn [snd] in Ho. rewrite Ho in Hb. apply Ok_inj in Hb as <-. rewrite writeString_app. by eexists.
      - change (marshalMembers ((k, v) :: (k', v') :: m))
          with (a ← marshal v; b ← marshalMembers ((k', v') :: m);
                Ok (writeString k ++ str ":" ++ a ++ str "," ++ b)) in Hb.
        cbn [snd] in Ho. rewrite Ho in Hb. cbn [mbind res_bind] in Hb.
        destruct (marshalMembers ((k', v') :: m)) as [b|e|]; [|done..]. apply Ok_inj in Hb as <-.
        rewrite writeString_app. by eexists. }
    rewrite E in Hr, Hf |- *. cbn [app] in Hr, Hf |- *.
    change (skipSpace (x22 :: ?s)) with (x22 :: s). change (beqb x22 "}") with false. cbv iota.
    apply Hr. unfold enough in Hf. simpl in Hf |- *. lia.
Qed.

Lemma marshal_readsBack v : readsBack v.
Proof.
  induction v as [|b|lit|s|l IH|m IH] using json_rect.
  - intros d out rest [|f] _ [= <-] _ Hf; [unfold enough in Hf; lia|]. done.
  - intros d out rest [|f] _ [= <-] _ Hf; [unfold enough in Hf; lia|]. by destruct b.
  - apply readsBack_num.
  - apply readsBack_str.
  - by apply readsBack_arr.
  - by apply readsBack_obj.
Qed.

(** ** What is read is well-formed *)

Lemma skipSpace_length s : (length (skipSpace s) <= length s)%nat.
Proof. induction s as [|c s IH]; simpl; [lia|]. destruct (isSpaceByte c); simpl; lia. Qed.

Lemma objInsert_elem k v m x : x ∈ objInsert k v m -> x = (k, v) \/ x ∈ m.
Proof.
  induction m as [|[k' v'] m IH]; cbn [objInsert].
  - rewrite elem_of_cons. intros [?|?]; [by left|by right].
  - destruct (bcmp k k'); rewrite !elem_of_cons; [naive_solver..|].
    intros [?|?%IH]; naive_solver.
Qed.

Lemma objInsert_sorted k v (m : list (bytes * json)) :
  StronglySorted (keyed fst) m -> StronglySorted (keyed fst) (objInsert k v m).
Proof.
  induction 1 as [|[k' v'] m HS IH HF]; cbn [objInsert]; [by repeat constructor|].
  rewrite Forall_forall in HF. destruct (bcmp k k') eqn:E.
  - apply bcmp_eq in E as ->. constructor; [done|]. by apply Forall_forall.
  - constructor; [constructor; [done|by apply Forall_forall]|].
    apply Forall_forall. intros x [->|Hx]%elem_of_cons; [done|].
    unfold keyed in *. cbn [fst]. etrans; [exact E|]. by apply HF.
  - constructor; [done|]. apply Forall_forall. intros x [->|Hx]%objInsert_elem; [|by apply HF].
    by apply bcmp_gt_lt.
Qed.

Lemma objInsert_Forall (P : bytes * json -> Prop) k v m :
  P (k, v) -> Forall P m -> Forall P (objInsert k v m).
Proof.
  intros Hk HF. rewrite Forall_forall in HF. apply Forall_forall.
  intros x [->|Hx]%objInsert_elem; auto.
Qed.

Lemma readNumber_spec s lit r :
  readNumber s = Some (lit, r) -> isValidNumber lit = true /\ s = lit ++ r.
Proof.
  unfold readNumber. intros H.
  assert (exists p s1, s = p ++ s1 /\
    (match s with c :: s' => if beqb c "-" then ([c], s') else ([], s) | [] => ([], s) end).2 = s1)
    as (p & s1 & E & Hs1).
  { destruct s as [|c s']; [by exists [], []|]. destruct (beqb c "-"); [by exists [c], s'|].
    by exists [], (c :: s'). }
  destruct (match s with c :: s' => _ | [] => _ end) as [neg s1']. simpl in Hs1. subst s1'.
  destruct (scanInt s1) as [[int s2]|] eqn:Hi; [|done]. cbn [mbind option_bind] in H.
  destruct (scanFrac s2) as [frac s3] eqn:Hf.
  destruct (scanExp s3) as [[e s4]|] eqn:He; [|done]. cbn [mbind option_bind] in H.
  apply scanInt_ascii in Hi as (p1 & -> & _). apply scanFrac_ascii in Hf as (p2 & -> & _).
  apply scanExp_ascii in He as (p3 & -> & _).
  assert (s = (p ++ p1 ++ p2 ++ p3) ++ s4) as Es by (by rewrite E, <- !app_assoc).
  rewrite Es in H. rewrite length_app in H.
  replace (length (p ++ p1 ++ p2 ++ p3) + length s4 - length s4)%nat
    with (length (p ++ p1 ++ p2 ++ p3)) in H by lia.
  rewrite take_app_length in H. destruct (isValidNumber _) eqn:Hv; [|done].
  injection H as <- <-. done.
Qed.

Lemma strip_prefix_spec p s r : strip_prefix p s = Some r -> s = p ++ r.
Proof.
  revert s. induction p as [|c p IH]; intros s; simpl; [by intros [= ->]|].
  destruct s as [|d s]; [done|]. destruct (beqb c d) eqn:E; [|done].
  apply beqb_eq in E as ->. by intros ->%IH.
Qed.

Definition readOk (d : Z) (s : bytes) (vr : json * bytes) : Prop :=
  wfJson (maxNestingDepth - d) vr.1 /\ (length vr.2 < length s)%nat.

Lemma readWord_ok w v d s vr :
  wfJson (maxNestingDepth - d) v -> w <> [] -> readWord w v s = Some vr -> readOk d s vr.
Proof.
  unfold readWord. intros Hv Hw. destruct (strip_prefix w s) as [r|] eqn:E; [|done].
  intros [= <-]. apply strip_prefix_spec in E as ->. split; [done|]. simpl. rewrite length_app.
  destruct w; [done|]. simpl. lia.
Qed.

(** The statement for the three readers at one fuel. *)
Definition readersOk (fuel : nat) : Prop :=
  (forall d s vr, readValue fuel d s = Some vr -> readOk d s vr) /\
  (forall d s vr, readElems fuel d s = Some vr ->
     (exists l, vr.1 = JArr l /\ Forall (wfJson (maxNestingDepth - d)) l) /\
     (length vr.2 < length s)%nat) /\
  (forall d acc s vr, readMembers fuel d acc s = Some vr -> 0 <= maxNestingDepth - d ->
     StronglySorted (keyed fst) acc ->
     Forall (fun kv => utf8Valid kv.1 = true /\ wfJson (maxNestingDepth - d) kv.2) acc ->
     wfJson (maxNestingDepth - d + 1) vr.1 /\ (length vr.2 < length s)%nat).

Lemma readElems_ok f : readersOk f -> forall d s vr, readElems (S f) d s = Some vr ->
  (exists l, vr.1 = JArr l /\ Forall (wfJson (maxNestingDepth - d)) l) /\ (length vr.2 < length s)%nat.
Proof.
  intros (IHv & IHe & _) d s vr. cbn [readElems].
  destruct (readValue f d s) as [[v r]|] eqn:Hv; [|done]. cbn [mbind option_bind].
  apply IHv in Hv as [Hwv Hl]. cbn [fst snd] in *. pose proof (skipSpace_length r).
  destruct (skipSpace r) as [|e r'] eqn:Hr; [done|]. simpl in H. destruct (beqb e "]").
  - intros [= <-]. cbn [fst snd]. split; [|lia]. exists [v]. by repeat constructor.
  - destruct (beqb e ","); [|done]. destruct (readElems f d r') as [[vs r'']|] eqn:He; [|done].
    cbn [mbind option_bind]. apply IHe in He as [(l & Hvs & HF) Hl']. cbn [fst snd] in *. subst vs.
    intros [= <-]. cbn [fst snd]. split; [|lia]. exists (v :: l). by repeat constructor.
Qed.

Lemma readMembers_ok f : readersOk f -> forall d acc s vr, readMembers (S f) d acc s = Some vr ->
  0 <= maxNestingDepth - d -> StronglySorted (keyed fst) acc ->
  Forall (fun kv => utf8Valid kv.1 = true /\ wfJson (maxNestingDepth - d) kv.2) acc ->
  wfJson (maxNestingDepth - d + 1) vr.1 /\ (length vr.2 < length s)%nat.
Proof.
  intros (IHv & _ & IHm) d acc s vr. cbn [readMembers]. intros H Hd HS HF.
  pose proof (skipSpace_length s). destruct (skipSpace s) as [|q s'] eqn:Es; [done|]. simpl in H0.
  destruct (beqb q x22); [|done]. destruct (readString (length s) s') as [[key r]|] eqn:Hk; [|done].
  cbn [mbind option_bind] in H. apply readString_spec in Hk as [Hkv Hkl].
  pose proof (skipSpace_length r). destruct (skipSpace r) as [|colon r1] eqn:Er; [done|]. simpl in H1.
  destruct (beqb colon ":"); [|done]. destruct (readValue f d r1) as [[v r2]|] eqn:Hv; [|done].
  cbn [mbind option_bind] in H. apply IHv in Hv as [Hwv Hvl]. cbn [fst snd] in *.
  pose proof (skipSpace_length r2). destruct (skipSpace r2) as [|e r3] eqn:Er2; [done|]. simpl in H2.
  pose proof (objInsert_sorted key v acc HS) as HS'.
  pose proof (objInsert_Forall (fun kv => utf8Valid kv.1 = true /\ wfJson (maxNestingDepth - d) kv.2)
    key v acc (conj Hkv Hwv) HF) as HF'.
  destruct (beqb e "}").
  - injection H as <-. cbn [fst snd]. split; [|lia]. constructor; [lia|done|].
    by replace (maxNestingDepth - d + 1 - 1) with (maxNestingDepth - d) by lia.
  - destruct (beqb e ","); [|done]. apply IHm in H as [? ?]; [|done..]. split; [done|]. lia.
Qed.

Lemma readValue_ok f : readersOk f -> forall d s vr, readValue (S f) d s = Some vr -> readOk d s vr.
Proof.
  intros (IHv & IHe & IHm) d s vr. cbn [readValue]. intros H. pose proof (skipSpace_length s).
  destruct (skipSpace s) as [|c s'] eqn:Es; [done|]. simpl in H0.
  assert (forall vr', readOk d (c :: s') vr' -> readOk d s vr') as Hmono.
  { intros vr' [? ?]. split; [done|]. simpl in *. lia. }
  destruct (beqb c "{").
  { destruct (Z.leb_spec maxNestingDepth d); [done|]. pose proof (skipSpace_length s').
    destruct (skipSpace s') as [|e r] eqn:Er; [done|]. simpl in H2. destruct (beqb e "}").
    - injection H as <-. split; [|simpl; lia]. constructor; [lia|by constructor|by constructor].
    - apply IHm in H as [Hw Hl]; [|lia|by constructor|by constructor].
      split; [|simpl in Hl; lia].
      by replace (maxNestingDepth - d) with (maxNestingDepth - (d + 1) + 1) by lia. }
  destruct (beqb c "[").
  { destruct (Z.leb_spec maxNestingDepth d); [done|]. pose proof (skipSpace_length s').
    destruct (skipSpace s') as [|e r] eqn:Er; [done|]. simpl in H2. destruct (beqb e "]").
    - injection H as <-. split; [|simpl; lia]. constructor; [lia|by constructor].
    - apply IHe in H as [(l & Hl & HF) Hlen]. destruct vr as [v r']. cbn [fst snd] in *. subst v.
      split; [|simpl in Hlen |- *; lia]. constructor; [lia|].
      by replace (maxNestingDepth - d - 1) with (maxNestingDepth - (d + 1)) by lia. }
  apply Hmono. destruct (beqb c x22).
  { destruct (readString (length s) s') as [[t r]|] eqn:Hk; [|done]. injection H as <-.
    apply readString_spec in Hk as [? ?]. split; [by constructor|simpl; lia]. }
  destruct (beqb c "t"); [by apply (readWord_ok _ _ d) in H; [|constructor|]|].
  destruct (beqb c "f"); [by apply (readWord_ok _ _ d) in H; [|constructor|]|].
  destruct (beqb c "n"); [by apply (readWord_ok _ _ d) in H; [|constructor|]|].
  destruct (readNumber (c :: s')) as [[lit r]|] eqn:Hn; [|done]. injection H as <-.
  apply readNumber_spec in Hn as [Hv E]. split; [by constructor|].
  cbn [fst snd]. rewrite E, length_app. destruct lit; [done|]. simpl. lia.
Qed.

Lemma readers_ok f : readersOk f.
Proof.
  induction f as [|f IH]; [by repeat split|].
  split; [by apply readValue_ok|]. split; [by apply readElems_ok|by apply readMembers_ok].
Qed.

Lemma decodeJSON_wf s v rest : decodeJSON s = Some (v, rest) -> wfJson maxNestingDepth v.
Proof.
  intros H. apply (proj1 (readers_ok _)) in H as [H _]. cbn [fst] in H.
  by rewrite Z.sub_0_r in H.
Qed.

(** ** The fuel is enough

    Every call of a reader has read a byte since the one before the last, so a
    fuel of twice the length of the input never runs out: more makes no
    difference. *)

Definition readersAgree (f g : nat) : Prop :=
  (forall d s, (2 * length s < f)%nat -> (2 * length s < g)%nat -> readValue f d s = readValue g d s) /\
  (forall d s, (2 * length s + 1 < f)%nat -> (2 * length s + 1 < g)%nat ->
     readElems f d s = readElems g d s) /\
  (forall d acc s, (2 * length s + 1 < f)%nat -> (2 * length s + 1 < g)%nat ->
     readMembers f d acc s = readMembers g d acc s).

Lemma readers_agree f g : readersAgree f g.
Proof.
  revert g. induction f as [|f IH]; intros g; [repeat split; lia|].
  destruct g as [|g]; [repeat split; lia|]. destruct (IH g) as (IHv & IHe & IHm).
  split; [|split].
  - intros d s Hf Hg. cbn [readValue]. pose proof (skipSpace_length s).
    destruct (skipSpace s) as [|c s'] eqn:Es; [done|]. simpl in H. pose proof (skipSpace_length s').
    destruct (beqb c "{"); [destruct (maxNestingDepth <=? d); [done|]|].
    { destruct (skipSpace s') as [|e r]; [done|]. simpl in H0. destruct (beqb e "}"); [done|].
      apply IHm; simpl; lia. }
    destruct (beqb c "["); [destruct (maxNestingDepth <=? d); [done|]|done].
    destruct (skipSpace s') as [|e r]; [done|]. simpl in H0. destruct (beqb e "]"); [done|].
    apply IHe; simpl; lia.
  - intros d s Hf Hg. cbn [readElems]. rewrite (IHv d s) by lia.
    destruct (readValue g d s) as [[v r]|] eqn:Hv; [|done]. cbn [mbind option_bind].
    apply (proj1 (readers_ok g)) in Hv as [_ Hl]. cbn [snd] in Hl. pose proof (skipSpace_length r).
    destruct (skipSpace r) as [|e r']; [done|]. simpl in H.
    destruct (beqb e "]"); [done|]. destruct (beqb e ","); [|done]. by rewrite (IHe d r') by lia.
  - intros d acc s Hf Hg. cbn [readMembers]. pose proof (skipSpace_length s).
    destruct (skipSpace s) as [|q s'] eqn:Es; [done|]. simpl in H.
    destruct (beqb q x22); [|done]. destruct (readString (length s) s') as [[key r]|] eqn:Hk; [|done].
    cbn [mbind option_bind]. apply readString_spec in Hk as [_ Hkl].
    pose proof (skipSpace_length r). destruct (skipSpace r) as [|colon r1]; [done|]. simpl in H0.
    destruct (beqb colon ":"); [|done]. rewrite (IHv d r1) by lia.
    destruct (readValue g d r1) as [[v r2]|] eqn:Hv; [|done]. cbn [mbind option_bind].
    apply (proj1 (readers_ok g)) in Hv as [_ Hl]. cbn [snd] in Hl. pose proof (skipSpace_length r2).
    destruct (skipSpace r2) as [|e r3]; [done|]. simpl in H1.
    destruct (beqb e "}"); [done|]. destruct (beqb e ","); [|done]. apply IHm; lia.
Qed.

(** Decoding with any fuel that is enough. *)
Lemma decodeJSON_fuel fuel s : enough fuel s -> readValue fuel 0 s = decodeJSON s.
Proof. intros Hf. apply (readers_agree fuel (readFuel s)); [done|unfold readFuel; lia]. Qed.

Lemma decodeOne_text v out :
  wfText maxNestingDepth v -> marshal v = Ok out -> decodeOne out = Some (norm v).
Proof.
  intros Hw Hm. unfold decodeOne, decodeJSON.
  pose proof (marshal_readsBack v 0 out [] (readFuel out)) as H. rewrite app_nil_r in H.
  rewrite H; [done|by rewrite Z.sub_0_r|done|done|unfold enough, readFuel; lia].
Qed.

Lemma decodeOne_marshal v out :
  wfJson maxNestingDepth v -> marshal v = Ok out -> decodeOne out = Some v.
Proof. intros Hw Hm. rewrite <- (norm_wf v _ Hw) at 1. by apply decodeOne_text; [apply wfJson_text|]. Qed.

Lemma decodeOne_wf s v : decodeOne s = Some v -> wfJson maxNestingDepth v.
Proof.
  unfold decodeOne. destruct (decodeJSON s) as [[v' rest]|] eqn:E; [|done]. cbn [mbind option_bind].
  destruct (atEOF rest); [|done]. intros [= <-]. by apply decodeJSON_wf in E.
Qed.

(** ** No control characters

    What the encoder writes has no control characters: a document is one line. *)

Notation printable := (Forall (fun c => bleb x20 c = true)).

Lemma bleb_trans a b c : bleb a b = true -> bleb b c = true -> bleb a c = true.
Proof. unfold bleb. rewrite !Z.leb_le. lia. Qed.

Lemma cont_printable c : cont c = true -> bleb x20 c = true.
Proof. intros [Hc _]%andb_true_iff. by apply (bleb_trans _ x80). Qed.

Lemma runeLen_printable a s n :
  bleb a x7f = false -> runeLen (a :: s) = Some n -> printable (take n (a :: s)).
Proof.
  intros Ha. assert (bleb x20 a = true) as Ha'.
  { unfold bleb in *. apply Z.leb_gt in Ha. apply Z.leb_le. change (b2z x7f) with 127 in Ha.
    change (b2z x20) with 32. lia. }
  unfold runeLen. rewrite Ha. destruct s as [|b s2]; [done|].
  destruct (in_range xc2 xdf a).
  { destruct (cont b) eqn:Hb; [|done]. intros [= <-]. repeat constructor; [done|by apply cont_printable]. }
  assert (forall lo hi x, bleb x20 lo = true -> in_range lo hi x = true -> bleb x20 x = true) as Hr
    by (intros lo hi x Hlo [Hx _]%andb_true_iff; by eapply bleb_trans).
  destruct s2 as [|c s3]; [done|]. destruct (in_range xe0 xef a).
  { destruct (in_range _ _ b && cont c) eqn:E; [|done]. apply andb_true_iff in E as [Hb Hc]. intros [= <-].
    repeat constructor; [done| |by apply cont_printable]. eapply Hr; [|exact Hb]. by destruct (beqb a xe0). }
  destruct s3 as [|d s4]; [done|].
  destruct (in_range xf0 xf4 a); [|done]. cbn [andb].
  destruct (in_range _ _ b && cont c && cont d) eqn:E; [|done].
  apply andb_true_iff in E as [[Hb Hc]%andb_true_iff Hd]. intros [= <-].
  repeat constructor; [done| |by apply cont_printable..]. eapply Hr; [|exact Hb]. by destruct (beqb a xf0).
Qed.

Lemma escapeByte_printable c : bleb c x7f = true -> printable (if htmlSafe c then [c] else escapeByte c).
Proof. destruct c; try discriminate; intros _; by repeat constructor. Qed.

Lemma writeChars_printable f s : printable (writeChars f s).
Proof.
  revert s. induction f as [|f IH]; intros [|c s]; cbn [writeChars]; [constructor..|].
  destruct (bleb c x7f) eqn:Hc; [apply Forall_app; split; [by apply escapeByte_printable|apply IH]|].
  destruct (runeLen (c :: s)) as [n|] eqn:Hn; (apply Forall_app; split; [|apply IH]).
  - case_bool_decide; [by repeat constructor|]. case_bool_decide; [by repeat constructor|].
    by apply runeLen_printable.
  - by repeat constructor.
Qed.

Lemma writeString_printable s : printable (writeString s).
Proof.
  unfold writeString. apply Forall_app. split; [by repeat constructor|].
  apply Forall_app. split; [apply writeChars_printable|by repeat constructor].
Qed.

Ltac solve_printable := repeat first [assumption | apply writeString_printable | apply Forall_app; split
  | by repeat constructor].

Lemma marshal_printable v out : marshal v = Ok out -> printable out.
Proof.
  revert out. induction v as [|b|lit|s|l IH|m IH] using json_rect; intros out.
  - intros <-%Ok_inj. by repeat constructor.
  - intros <-%Ok_inj. destruct b; by repeat constructor.
  - simpl. unfold writeNumber. destruct lit as [|c lit]; [intros <-%Ok_inj; by repeat constructor|].
    destruct (isValidNumber (c :: lit)) eqn:Hv; [|done]. intros <-%Ok_inj.
    eapply Forall_impl; [by apply isValidNumber_ascii|]. intros x Hx. by apply andb_true_iff in Hx as [? _].
  - intros <-%Ok_inj. apply writeString_printable.
  - rewrite marshal_arr. intros (body & Hb & <-%Ok_inj)%res_bind_ok.
    assert (printable body); [|solve_printable]. revert body Hb.
    induction IH as [|v l Hv _ IHl]; intros body; [intros <-%Ok_inj; constructor|].
    destruct l as [|v' l]; [apply Hv|].
    change (marshalElems (v :: v' :: l)) with (a ← marshal v; b ← marshalElems (v' :: l); Ok (a ++ str "," ++ b)).
    intros (x & Hx%Hv & (y & Hy%IHl & <-%Ok_inj)%res_bind_ok)%res_bind_ok. solve_printable.
  - rewrite marshal_obj. intros (body & Hb & <-%Ok_inj)%res_bind_ok.
    assert (printable body); [|solve_printable]. revert body Hb.
    induction IH as [|[k v] m Hv _ IHm]; intros body; [intros <-%Ok_inj; constructor|].
    destruct m as [|[k' v'] m].
    + intros (x & Hx%Hv & <-%Ok_inj)%res_bind_ok. solve_printable.
    + change (marshalMembers ((k, v) :: (k', v') :: m))
        with (a ← marshal v; b ← marshalMembers ((k', v') :: m); Ok (writeString k ++ str ":" ++ a ++ str "," ++ b)).
      intros (x & Hx%Hv & (y & Hy%IHm & <-%Ok_inj)%res_bind_ok)%res_bind_ok. solve_printable.
Qed.

(** What [json.Marshal] writes of a decoded value reads back as that value:
    marshalling never fails on it, writes valid UTF-8, and decoding what it writes,
    with the fuel the reader is given or any larger one, gives the value again. *)
Theorem marshal_roundtrip s v :
  decodeOne s = Some v ->
  exists out, marshal v = Ok out /\ utf8Valid out = true /\ decodeOne out = Some v /\
    forall fuel, enough fuel out -> readValue fuel 0 out = decodeJSON out.
Proof.
  intros Hw%decodeOne_wf. destruct (marshal_written v _ (wfJson_text v _ Hw)) as (out & Ho & Hu & _).
  exists out. split; [done|]. split; [done|]. split; [by apply decodeOne_marshal|].
  intros fuel Hf. by apply decodeJSON_fuel.
Qed.

Lemma marshal_roundtrip_witness :
  exists v out, decodeOne (str "[1e3, {}]") = Some v /\ marshal v = Ok out /\ out = str "[1e3,{}]".
Proof.
  destruct (marshal_roundtrip (str "[1e3, {}]") (JArr [JNum (str "1e3"); JObj []]) eq_refl)
    as (out & Ho & _). exists (JArr [JNum (str "1e3"); JObj []]), out.
  split; [reflexivity|]. split; [exact Ho|]. vm_compute in Ho. injection Ho as <-. reflexivity.
Defined.
