(* ===== verification/Document.v ===== *)
(** * Documents and values in requests

    [validateDoc] of validation.go, which every stored document has passed, and the
    other readers of JSON in requests that take one value. *)

From S2P Require Import Prelude GoErrors Text Number Json JsonFacts JsonRoundtrip.

(** ** Documents (validation.go) *)

(** A second [Decode] finds the end of the input. *)
Definition ensureJSONEnd (rest : bytes) : res unit :=
  if atEOF rest then Ok () else Err (wrapf errInvalidDoc).

Definition validateDoc (body : bytes) (maxBytes : Z) : res bytes :=
  if maxBytes <? len body then Err errBodyTooLarge
  else if negb (utf8Valid body) then Err (wrapf errInvalidDoc)
  else
    match decodeJSON body with
    | None => Err (wrapf errInvalidDoc)
    | Some (value, rest) =>
        match value with
        | JObj _ =>
            _ ← ensureJSONEnd rest;
            canonical ← map_err wrapf (marshal value);
            if maxBytes <? len canonical then Err errBodyTooLarge else Ok canonical
        | _ => Err (wrapf errInvalidDoc)
        end
    end.

(** ** Query values (server.go) *)

Definition isScalar (v : json) : bool :=
  match v with JArr _ | JObj _ => false | _ => true end.

Definition decodeQueryValue (raw : bytes) : res json :=
  match decodeJSON raw with
  | None => Err EText
  | Some (value, rest) =>
      if negb (atEOF rest) then Err EText
      else if isScalar value then Ok value else Err EText
  end.

(** ** Theorems *)

Lemma decodeOne_obj body m :
  decodeOne body = Some (JObj m) <-> exists rest, decodeJSON body = Some (JObj m, rest) /\ atEOF rest = true.
Proof.
  unfold decodeOne. destruct (decodeJSON body) as [[v rest]|]; cbn [mbind option_bind].
  - destruct (atEOF rest) eqn:E; split.
    + intros [= ->]. by exists rest.
    + by intros (r & [= -> ->] & _).
    + done.
    + intros (r & [= -> ->] & ?). congruence.
  - split; [done|]. by intros (r & ? & _).
Qed.

(** What [validateDoc] does with a body that is one JSON object. *)
Lemma validateDoc_object body m out maxBytes :
  utf8Valid body = true -> decodeOne body = Some (JObj m) -> marshal (JObj m) = Ok out ->
  validateDoc body maxBytes
  = if (maxBytes <? len body) || (maxBytes <? len out) then Err errBodyTooLarge else Ok out.
Proof.
  intros Hu (rest & Hd & He)%decodeOne_obj Hm. unfold validateDoc.
  destruct (maxBytes <? len body); [done|]. cbn [orb]. rewrite Hu, Hd. cbn [negb].
  unfold ensureJSONEnd. rewrite He. cbn [mbind res_bind]. by rewrite Hm.
Qed.

Lemma validateDoc_other body maxBytes :
  len body <= maxBytes -> (utf8Valid body = false \/ forall m, decodeOne body <> Some (JObj m)) ->
  validateDoc body maxBytes = Err (wrapf errInvalidDoc).
Proof.
  intros Hl Hbad. unfold validateDoc. rewrite (proj2 (Z.ltb_ge _ _)) by done.
  destruct (utf8Valid body) eqn:Hu; [|done]. cbn [negb].
  destruct Hbad as [?|Hbad]; [done|].
  destruct (decodeJSON body) as [[v rest]|] eqn:Hd; [|done]. destruct v as [| | | | |m]; try done.
  unfold ensureJSONEnd. destruct (atEOF rest) eqn:He; [|done].
  destruct (Hbad m). apply decodeOne_obj. by exists rest.
Qed.

Lemma validateDoc_err body maxBytes e :
  validateDoc body maxBytes = Err e -> e = errBodyTooLarge \/ e = wrapf errInvalidDoc.
Proof.
  unfold validateDoc, ensureJSONEnd. destruct (_ <? _); [intros [= <-]; by left|].
  destruct (negb _); [intros [= <-]; by right|].
  destruct (decodeJSON body) as [[[| | | | |m] rest]|] eqn:E; try (intros [= <-]; by right).
  destruct (atEOF rest); [|intros [= <-]; by right].
  apply decodeJSON_wf in E. destruct (marshal_written _ _ (wfJson_text _ _ E)) as (out & -> & _). cbn.
  destruct (_ <? _); [intros [= <-]; by left|done].
Qed.

Lemma validateDoc_total body maxBytes : validateDoc body maxBytes <> OutOfFuel.
Proof.
  unfold validateDoc, ensureJSONEnd. destruct (_ <? _); [done|]. destruct (negb _); [done|].
  destruct (decodeJSON body) as [[[| | | | |m] rest]|] eqn:E; try done. destruct (atEOF rest); [|done].
  apply decodeJSON_wf in E. destruct (marshal_written _ _ (wfJson_text _ _ E)) as (out & -> & _). cbn.
  by destruct (_ <? _).
Qed.

(** What [validateDoc] does, by cases. *)
Lemma validateDoc_cases body maxBytes :
  match validateDoc body maxBytes with
  | Ok out =>
      len body <= maxBytes /\ len out <= maxBytes /\ utf8Valid body = true /\
      (exists m, decodeOne body = Some (JObj m) /\ decodeOne out = Some (JObj m)) /\
      validateDoc out maxBytes = Ok out
  | Err e =>
      e = errBodyTooLarge /\
        (maxBytes < len body \/
         exists m out, decodeOne body = Some (JObj m) /\ marshal (JObj m) = Ok out /\ maxBytes < len out) \/
      e = wrapf errInvalidDoc /\ (utf8Valid body = false \/ forall m, decodeOne body <> Some (JObj m))
  | OutOfFuel => False
  end.
Proof.
  destruct (Z.ltb_spec maxBytes (len body)) as [Hl|Hl].
  { unfold validateDoc. rewrite (proj2 (Z.ltb_lt _ _)) by done. left. split; [done|]. by left. }
  destruct (utf8Valid body) eqn:Hu; cycle 1.
  { rewrite validateDoc_other by (try left; done). right. split; [done|]. by left. }
  assert ((exists m, decodeOne body = Some (JObj m)) \/ forall m, decodeOne body <> Some (JObj m))
    as [[m Hm]|Hn].
  { destruct (decodeOne body) as [[| | | | |m]|]; [right; congruence..|left; by eexists|by right]. }
  - pose proof (decodeOne_wf _ _ Hm) as Hw.
    destruct (marshal_written _ _ (wfJson_text _ _ Hw)) as (out & Ho & Hou & _).
    pose proof (decodeOne_marshal _ _ Hw Ho) as Hd.
    rewrite (validateDoc_object body m out maxBytes Hu Hm Ho).
    rewrite (proj2 (Z.ltb_ge _ _)) by done. cbn [orb].
    destruct (Z.ltb_spec maxBytes (len out)) as [Hlo|Hlo].
    { left. split; [done|]. right. by exists m, out. }
    split; [done|]. split; [done|]. split; [done|]. split; [by exists m|].
    rewrite (validateDoc_object out m out maxBytes Hou Hd Ho).
    by rewrite (proj2 (Z.ltb_ge _ _)) by done.
  - rewrite validateDoc_other by (try right; done). right. split; [done|]. by right.
Qed.

(** C32: [validateDoc] accepts exactly the UTF-8 encodings of one JSON object
    within the limit, before and after canonicalisation; what it returns decodes to
    the same object and is canonical: validated again it stays as it is.  Its
    error is [errBodyTooLarge] or an [errInvalidDoc], never both, and encoding a
    decoded document never fails. *)
Theorem validateDoc_canonical body maxBytes :
  match validateDoc body maxBytes with
  | Ok out =>
      len body <= maxBytes /\ len out <= maxBytes /\ utf8Valid body = true /\
      (exists m, decodeOne body = Some (JObj m) /\ decodeOne out = Some (JObj m)) /\
      validateDoc out maxBytes = Ok out
  | Err e =>
      e = errBodyTooLarge /\
        (maxBytes < len body \/
         exists m out, decodeOne body = Some (JObj m) /\ marshal (JObj m) = Ok out /\ maxBytes < len out) \/
      e = wrapf errInvalidDoc /\ (utf8Valid body = false \/ forall m, decodeOne body <> Some (JObj m))
  | OutOfFuel => False
  end.
Proof. apply validateDoc_cases. Qed.

Lemma decodeQueryValue_ok raw v :
  decodeQueryValue raw = Ok v <-> decodeOne raw = Some v /\ isScalar v = true.
Proof.
  unfold decodeQueryValue, decodeOne. destruct (decodeJSON raw) as [[v' rest]|]; cbn [mbind option_bind].
  - destruct (atEOF rest); cbn [negb]; [|split; [done|by intros []]].
    destruct (isScalar v') eqn:E; (split; [|intros [[= ->] ?]; congruence]); [|done].
    by intros [= ->].
  - split; [done|by intros []].
Qed.
