(* ===== verification/Base64.v ===== *)
(** * Base64

    [base64.RawURLEncoding] of the Go library, the URL alphabet without padding, and
    [base64.StdEncoding], with padding. *)

From S2P Require Import Prelude GoErrors Text.

(** [dst[i] = encode[val>>18&0x3F]]. *)
Definition b64char (z : Z) : byte :=
  if z <? 26 then z2b (65 + z)
  else if z <? 52 then z2b (97 + (z - 26))
  else if z <? 62 then z2b (48 + (z - 52))
  else if z =? 62 then "-"%byte else "_"%byte.

Definition b64val (c : byte) : option Z :=
  if in_range "A" "Z" c then Some (b2z c - 65)
  else if in_range "a" "z" c then Some (b2z c - 97 + 26)
  else if in_range "0" "9" c then Some (b2z c - 48 + 52)
  else if beqb c "-" then Some 62
  else if beqb c "_" then Some 63
  else None.

(** [val := uint(a)<<16 | uint(b)<<8 | uint(c)] and its sextets. *)
Definition triple24 (a b c : Z) : Z := Z.lor (Z.lor (Z.shiftl a 16) (Z.shiftl b 8)) c.
Definition sextet (v n : Z) : Z := Z.land (Z.shiftr v n) 63.

(** [EncodeToString]. *)
Fixpoint b64encode (s : bytes) : bytes :=
  match s with
  | [] => []
  | [a] => let v := triple24 (b2z a) 0 0 in [b64char (sextet v 18); b64char (sextet v 12)]
  | [a; b] =>
      let v := triple24 (b2z a) (b2z b) 0 in
      [b64char (sextet v 18); b64char (sextet v 12); b64char (sextet v 6)]
  | a :: b :: c :: s' =>
      let v := triple24 (b2z a) (b2z b) (b2z c) in
      b64char (sextet v 18) :: b64char (sextet v 12) :: b64char (sextet v 6) :: b64char (sextet v 0)
        :: b64encode s'
  end.

(** [val := uint(dbuf[0])<<18 | uint(dbuf[1])<<12 | uint(dbuf[2])<<6 | uint(dbuf[3])]. *)
Definition quad24 (p q r t : Z) : Z :=
  Z.lor (Z.lor (Z.lor (Z.shiftl p 18) (Z.shiftl q 12)) (Z.shiftl r 6)) t.

Definition byteAt (v n : Z) : byte := z2b (Z.shiftr v n).

(** Newlines are skipped wherever they stand. *)
Definition dropNewlines (s : bytes) : bytes := filter (fun c => c <> x0a /\ c <> x0d) s.

(** The quanta: a last one of two or three characters gives one or two bytes, the
    bits left over are ignored. *)
Fixpoint b64quanta (s : bytes) : option bytes :=
  match s with
  | [] => Some []
  | [_] => None
  | [a; b] =>
      p ← b64val a; q ← b64val b;
      Some [byteAt (quad24 p q 0 0) 16]
  | [a; b; c] =>
      p ← b64val a; q ← b64val b; r ← b64val c;
      let v := quad24 p q r 0 in Some [byteAt v 16; byteAt v 8]
  | a :: b :: c :: d :: s' =>
      p ← b64val a; q ← b64val b; r ← b64val c; t ← b64val d; rest ← b64quanta s';
      let v := quad24 p q r t in Some (byteAt v 16 :: byteAt v 8 :: byteAt v 0 :: rest)
  end.

(** [DecodeString]. *)
Definition b64decode (s : bytes) : option bytes := b64quanta (dropNewlines s).

(** [EncodedLen]. *)
Definition b64encodedLen (n : Z) : Z := n / 3 * 4 + (n mod 3 * 8 + 5) / 6.

(** ** Round trip *)

Lemma lor_shiftl a n b : 0 <= n -> 0 <= b < 2 ^ n -> Z.lor (Z.shiftl a n) b = a * 2 ^ n + b.
Proof.
  intros Hn Hb. rewrite <- Z.shiftl_mul_pow2 by done. symmetry. apply Z.add_nocarry_lor.
  apply Z.bits_inj'. intros i Hi. rewrite Z.land_spec, Z.bits_0.
  destruct (Z.ltb_spec i n); [by rewrite Z.shiftl_spec_low by lia|].
  rewrite <- (Z.mod_small b (2 ^ n)) by done. by rewrite Z.mod_pow2_bits_high, andb_false_r by lia.
Qed.

Lemma triple24_val a b c : 0 <= b < 256 -> 0 <= c < 256 -> triple24 a b c = a * 65536 + b * 256 + c.
Proof.
  intros Hb Hc. unfold triple24. rewrite <- Z.lor_assoc, (lor_shiftl b 8 c) by lia.
  rewrite lor_shiftl by lia. lia.
Qed.

Lemma sextet_val v n : 0 <= n -> sextet v n = v / 2 ^ n mod 64.
Proof.
  intros Hn. unfold sextet. change 63 with (Z.ones 6). by rewrite Z.land_ones, Z.shiftr_div_pow2.
Qed.

Lemma quad24_val p q r t : 0 <= q < 64 -> 0 <= r < 64 -> 0 <= t < 64 ->
  quad24 p q r t = p * 262144 + q * 4096 + r * 64 + t.
Proof.
  intros Hq Hr Ht. unfold quad24. rewrite <- !Z.lor_assoc, (lor_shiftl r 6 t) by lia.
  rewrite (lor_shiftl q 12) by lia. rewrite lor_shiftl by lia. lia.
Qed.

Lemma z2b_mod z : z2b (z mod 256) = z2b z.
Proof. apply b2z_inj. rewrite !b2z_z2b. by rewrite Z.mod_mod. Qed.

Lemma byteAt_val v n : 0 <= n -> byteAt v n = z2b (v / 2 ^ n mod 256).
Proof. intros Hn. unfold byteAt. by rewrite z2b_mod, Z.shiftr_div_pow2. Qed.

Lemma b64val_char z : 0 <= z < 64 -> b64val (b64char z) = Some z.
Proof.
  intros Hz. assert (forallb (fun n => bool_decide (b64val (b64char (Z.of_nat n)) = Some (Z.of_nat n)))
    (seq 0 64) = true) as H by (vm_compute; reflexivity).
  rewrite forallb_forall in H. specialize (H (Z.to_nat z)). rewrite in_seq in H.
  specialize (H ltac:(lia)). apply bool_decide_eq_true in H. by rewrite Z2Nat.id in H by lia.
Qed.

Lemma b64char_graph z : 0 <= z < 64 -> b64char z <> x0a /\ b64char z <> x0d.
Proof.
  intros Hz. pose proof (b64val_char z Hz) as H. split; intros E; rewrite E in H; discriminate H.
Qed.

Lemma sextet_range v n : 0 <= n -> 0 <= sextet v n < 64.
Proof. intros Hn. rewrite sextet_val by done. by apply Z.mod_pos_bound. Qed.

(** The three bytes of a quantum come back from its sextets. *)
Lemma quantum a b c :
  let v := triple24 (b2z a) (b2z b) (b2z c) in
  let w := quad24 (sextet v 18) (sextet v 12) (sextet v 6) (sextet v 0) in
  byteAt w 16 = a /\ byteAt w 8 = b /\ byteAt w 0 = c.
Proof.
  cbv zeta. pose proof (b2z_range a). pose proof (b2z_range b). pose proof (b2z_range c).
  rewrite triple24_val by lia. set (v := b2z a * 65536 + b2z b * 256 + b2z c).
  rewrite quad24_val by (apply sextet_range; lia).
  replace (sextet v 18 * 262144 + sextet v 12 * 4096 + sextet v 6 * 64 + sextet v 0) with v; cycle 1.
  { rewrite !sextet_val by lia. change (2 ^ 18) with 262144. change (2 ^ 12) with 4096.
    change (2 ^ 6) with 64. change (2 ^ 0) with 1. subst v. Z.to_euclidean_division_equations. lia. }
  rewrite !byteAt_val by lia. change (2 ^ 16) with 65536. change (2 ^ 8) with 256. change (2 ^ 0) with 1.
  assert (v / 65536 mod 256 = b2z a) as -> by (subst v; Z.to_euclidean_division_equations; lia).
  assert (v / 256 mod 256 = b2z b) as -> by (subst v; Z.to_euclidean_division_equations; lia).
  assert (v / 1 mod 256 = b2z c) as -> by (subst v; Z.to_euclidean_division_equations; lia).
  by rewrite !z2b_b2z.
Qed.

(** The characters of a short quantum have no other sextets. *)
Lemma short1 a : sextet (triple24 (b2z a) 0 0) 6 = 0 /\ sextet (triple24 (b2z a) 0 0) 0 = 0.
Proof. destruct a; by vm_compute. Qed.

Lemma short2 a b : sextet (triple24 (b2z a) (b2z b) 0) 0 = 0.
Proof.
  pose proof (b2z_range a). pose proof (b2z_range b).
  rewrite triple24_val, sextet_val by lia. change (2 ^ 0) with 1.
  Z.to_euclidean_division_equations. lia.
Qed.

Lemma b64_ind (P : bytes -> Prop) :
  P [] -> (forall a, P [a]) -> (forall a b, P [a; b]) ->
  (forall a b c s, P s -> P (a :: b :: c :: s)) -> forall s, P s.
Proof. intros H0 H1 H2 H3. fix IH 1. intros [|a [|b [|c s]]]; [exact H0|apply H1|apply H2|apply H3, IH]. Qed.

Lemma b64quanta_encode s : b64quanta (b64encode s) = Some s.
Proof.
  induction s as [|a|a b|a b c s IH] using b64_ind; cbn [b64encode b64quanta]; [done|..].
  - rewrite !b64val_char by (apply sextet_range; lia). cbn [mbind option_bind].
    pose proof (quantum a x00 x00) as (Hq & _). change (b2z x00) with 0 in Hq.
    destruct (short1 a) as [E1 E2]. rewrite E1, E2 in Hq. by rewrite Hq.
  - rewrite !b64val_char by (apply sextet_range; lia). cbn [mbind option_bind].
    pose proof (quantum a b x00) as (Hq & Hq2 & _). change (b2z x00) with 0 in Hq, Hq2.
    rewrite short2 in Hq, Hq2. by rewrite Hq, Hq2.
  - rewrite !b64val_char by (apply sextet_range; lia). cbn [mbind option_bind]. rewrite IH.
    cbn [mbind option_bind]. destruct (quantum a b c) as (-> & -> & ->). done.
Qed.

Lemma b64encode_graph s : dropNewlines (b64encode s) = b64encode s.
Proof.
  unfold dropNewlines. assert (Forall (fun c => c <> x0a /\ c <> x0d) (b64encode s)) as HF.
  { induction s as [|a|a b|a b c s IH] using b64_ind; cbn [b64encode];
      repeat constructor; try (apply b64char_graph, sextet_range; lia). exact IH. }
  induction HF as [|c l Hc HF IH]; [done|]. by rewrite filter_cons_True, IH.
Qed.

Lemma b64decode_encode s : b64decode (b64encode s) = Some s.
Proof. unfold b64decode. by rewrite b64encode_graph, b64quanta_encode. Qed.

Lemma len_b64encode s : len (b64encode s) = b64encodedLen (len s).
Proof.
  induction s as [|a|a b|a b c s IH] using b64_ind; cbn [b64encode]; [done..|].
  rewrite !len_cons, IH. unfold b64encodedLen. pose proof (len_nonneg s).
  Z.to_euclidean_division_equations. lia.
Qed.

Lemma b64encodedLen_mono n m : 0 <= n <= m -> b64encodedLen n <= b64encodedLen m.
Proof. intros Hn. unfold b64encodedLen. Z.to_euclidean_division_equations. lia. Qed.

(** ** The standard encoding: [base64.StdEncoding] *)

(** The other alphabet differs in its last two characters. *)
Definition stdChar (z : Z) : byte := if z =? 62 then "+"%byte else if z =? 63 then "/"%byte else b64char z.

Definition stdVal (c : byte) : option Z :=
  if beqb c "+" then Some 62
  else if beqb c "/" then Some 63
  else if beqb c "-" || beqb c "_" then None
  else b64val c.

(** The quanta: the last one is filled up with one or two padding characters, and
    nothing follows it. *)
Fixpoint stdQuanta (s : bytes) : option bytes :=
  match s with
  | [] => Some []
  | a :: b :: c :: d :: s' =>
      p ← stdVal a; q ← stdVal b;
      if beqb d "=" then
        match s' with
        | [] =>
            if beqb c "=" then Some [byteAt (quad24 p q 0 0) 16]
            else r ← stdVal c; Some [byteAt (quad24 p q r 0) 16; byteAt (quad24 p q r 0) 8]
        | _ => None
        end
      else
        r ← stdVal c; t ← stdVal d; rest ← stdQuanta s';
        let v := quad24 p q r t in Some (byteAt v 16 :: byteAt v 8 :: byteAt v 0 :: rest)
  | _ => None
  end.

Definition stdDecode (s : bytes) : option bytes := stdQuanta (dropNewlines s).

(** What a key file is written with. *)
Fixpoint stdEncode (s : bytes) : bytes :=
  match s with
  | [] => []
  | [a] =>
      let v := triple24 (b2z a) 0 0 in [stdChar (sextet v 18); stdChar (sextet v 12); "="%byte; "="%byte]
  | [a; b] =>
      let v := triple24 (b2z a) (b2z b) 0 in
      [stdChar (sextet v 18); stdChar (sextet v 12); stdChar (sextet v 6); "="%byte]
  | a :: b :: c :: s' =>
      let v := triple24 (b2z a) (b2z b) (b2z c) in
      stdChar (sextet v 18) :: stdChar (sextet v 12) :: stdChar (sextet v 6) :: stdChar (sextet v 0)
        :: stdEncode s'
  end.

Lemma stdChar_spec z :
  0 <= z < 64 -> stdVal (stdChar z) = Some z /\ beqb (stdChar z) "=" = false /\ asciiWord (stdChar z).
Proof.
  intros Hz. assert (forallb (fun n => let c := stdChar (Z.of_nat n) in
    bool_decide (stdVal c = Some (Z.of_nat n)) && negb (beqb c "=") && (32 <? b2z c) && (b2z c <? 128))
    (seq 0 64) = true) as H by (vm_compute; reflexivity).
  rewrite forallb_forall in H. specialize (H (Z.to_nat z)). rewrite in_seq in H. specialize (H ltac:(lia)).
  rewrite Z2Nat.id in H by lia. cbv zeta in H. rewrite !andb_true_iff, bool_decide_eq_true, negb_true_iff in H.
  unfold asciiWord. intuition lia.
Qed.

Lemma stdVal_char z : 0 <= z < 64 -> stdVal (stdChar z) = Some z.
Proof. apply stdChar_spec. Qed.

Lemma stdChar_pad z : 0 <= z < 64 -> beqb (stdChar z) "=" = false.
Proof. apply stdChar_spec. Qed.

Lemma stdQuanta_encode s : stdQuanta (stdEncode s) = Some s.
Proof.
  induction s as [|a|a b|a b c s IH] using b64_ind; cbn [stdEncode stdQuanta]; [done|..];
    rewrite ?stdVal_char, ?stdChar_pad by (apply sextet_range; lia); cbn [mbind option_bind].
  - pose proof (quantum a x00 x00) as (Hq & _). change (b2z x00) with 0 in Hq.
    destruct (short1 a) as [E1 E2]. rewrite E1, E2 in Hq. by rewrite Hq.
  - pose proof (quantum a b x00) as (Hq & Hq2 & _). change (b2z x00) with 0 in Hq, Hq2.
    rewrite short2 in Hq, Hq2. by rewrite Hq, Hq2.
  - rewrite IH. cbn [mbind option_bind]. destruct (quantum a b c) as (-> & -> & ->). done.
Qed.

Lemma stdEncode_word s : Forall asciiWord (stdEncode s).
Proof.
  induction s as [|a|a b|a b c s IH] using b64_ind; cbn [stdEncode];
    repeat constructor; try (apply stdChar_spec, sextet_range; lia). exact IH.
Qed.

Lemma dropNewlines_word s : Forall asciiWord s -> dropNewlines s = s.
Proof.
  induction 1 as [|c s Hc _ IH]; [done|]. unfold dropNewlines in *. rewrite filter_cons_True, IH; [done|].
  destruct Hc as [Hc _]. split; intros ->; by vm_compute in Hc.
Qed.

Lemma stdDecode_encode s : stdDecode (stdEncode s) = Some s.
Proof. unfold stdDecode. rewrite dropNewlines_word by apply stdEncode_word. apply stdQuanta_encode. Qed.
