(* ===== verification/IndexValue.v ===== *)
(** * Index values

    The encodings of index.go and query_cursor.go: what a JSON scalar becomes in
    an index key, the check that some bytes are such a value, the split of an
    index entry into value and document ID, and the values of a document. *)

From S2P Require Import Prelude GoErrors Codec Text Validation Keys Number Json.
From Stdlib Require Import QArith.

#[global] Open Scope Z_scope.

Definition maxIndexes : Z := 16.
Definition maxIndexPath : Z := 256.
Definition maxIndexValue : Z := 4096.
Definition maxEncodedIndexValue : Z := 2 * maxIndexValue + 1.

(** ** Definitions of indexes *)

Record indexDef := IndexDef {
  def_name : bytes;
  def_path : bytes;
}.

#[global] Instance indexDef_eq_dec : EqDecision indexDef.
Proof. solve_decision. Defined.

(** The escape loop of [validatePointer]. *)
Fixpoint validEscapes (path : bytes) : bool :=
  match path with
  | [] => true
  | c :: p' =>
      if beqb c "~" then
        match p' with
        | d :: p'' => (beqb d "0" || beqb d "1") && validEscapes p''
        | [] => false
        end
      else validEscapes p'
  end.

Definition validatePointer (path : bytes) : res unit :=
  if (len path =? 0) || (maxIndexPath <? len path) || negb (beqb (at_ path 0) "/")
     || negb (utf8Valid path) then Err EText
  else if validEscapes path then Ok () else Err EText.

Fixpoint validateIndexes_loop (defs : list indexDef) (seen : list bytes) : res unit :=
  match defs with
  | [] => Ok ()
  | def :: defs' =>
      if negb (is_ok (validateName (def_name def))) then Err (wrapf errInvalidIndex)
      else if negb (is_ok (validatePointer (def_path def))) then Err (wrapf errInvalidIndex)
      else if decide (def_name def ∈ seen) then Err (wrapf errInvalidIndex)
      else validateIndexes_loop defs' (def_name def :: seen)
  end.

Definition validateIndexes (defs : list indexDef) : res unit :=
  if maxIndexes <? len defs then Err (wrapf errInvalidIndex)
  else validateIndexes_loop defs [].

(** The stored form of a definition. *)
Definition indexDefVersion : byte := x01.

Definition encodeIndexDef (def : indexDef) : bytes := indexDefVersion :: def_path def.

Definition decodeIndexDef (name value : bytes) : res indexDef :=
  if (len value <? 2) || negb (beqb (at_ value 0) indexDefVersion) then Err EText
  else
    let def := IndexDef name (drop 1 value) in
    _ ← validateIndexes [def]; Ok def.

Fixpoint findIndex (defs : list indexDef) (name : bytes) : option indexDef :=
  match defs with
  | [] => None
  | def :: defs' => if decide (def_name def = name) then Some def else findIndex defs' name
  end.

(** ** Validity (query_cursor.go) *)

Definition validSortableNumber (value : bytes) : bool :=
  if len value =? 1 then beqb (at_ value 0) x01
  else if (len value <? 11) || negb (beqb (at_ value 0) x00) && negb (beqb (at_ value 0) x02)
  then false
  else
    let negative := beqb (at_ value 0) x00 in
    let ordered0 := getUint64 (take 8 (drop 1 value)) in
    let ordered := if negative then Z.lxor ordered0 (2 ^ 64 - 1) else ordered0 in
    let exponent := wrap64 (Z.lxor ordered (2 ^ 63)) in
    if (exponent <? - maxIndexValue) || (maxIndexValue <? exponent)
       || (maxIndexValue <? len value - 10) then false
    else
      let '(terminator, zero) := if negative then (xff, xfe) else (x00, x01) in
      let n := length value in
      if negb (beqb (at_ value (n - 1)) terminator) || beqb (at_ value 9) zero
         || beqb (at_ value (n - 2)) zero then false
      else
        forallb (fun digit => if negative then in_range xf5 xfe digit else in_range x01 x0a digit)
          (take (n - 1 - 9) (drop 9 value)).

Fixpoint validSortableString_loop (value decoded : bytes) : bool :=
  match value with
  | [] => false
  | c :: v' =>
      if negb (beqb c x00) then validSortableString_loop v' (decoded ++ [c])
      else
        match v' with
        | [] => false
        | d :: v'' =>
            if beqb d x00 then
              match v'' with [] => true | _ => false end
              && (len decoded + 1 <=? maxIndexValue) && utf8Valid decoded
            else if beqb d xff then validSortableString_loop v'' (decoded ++ [x00])
            else false
        end
  end.

Definition validSortableString (value : bytes) : bool := validSortableString_loop value [].

Definition validIndexValue (value : bytes) : bool :=
  match value with
  | [] => false
  | tag :: rest =>
      if maxEncodedIndexValue <? len value then false
      else if beqb tag x00 || beqb tag x01 || beqb tag x02 then len value =? 1
      else if beqb tag x03 then validSortableNumber rest
      else if beqb tag x04 then validSortableString rest
      else false
  end.

(** ** Encoding *)

Fixpoint encodeSortableString (value : bytes) : bytes :=
  match value with
  | [] => [x00; x00]
  | c :: v' => if beqb c x00 then x00 :: xff :: encodeSortableString v' else c :: encodeSortableString v'
  end.

Definition invalidValue {A} : res A := Err (wrapf errInvalidIndexValue).

(** A decoded number has a literal that [json.Marshal] accepts. *)
Definition encodeNumber (literal : bytes) : res bytes :=
  match literal with
  | [] => invalidValue
  | _ =>
      if negb (isValidNumber literal) then invalidValue
      else
        match ratSetString literal with
        | None => invalidValue
        | Some number =>
            if maxIndexValue <? len (ratString number) + 1 then invalidValue
            else Ok (x03 :: encodeSortableNumber number)
        end
  end.

Definition encodeIndexValue (value : json) : res bytes :=
  encoded ← match value with
    | JNull => Ok [x00]
    | JBool b => Ok (if b then [x02] else [x01])
    | JNum literal => encodeNumber literal
    | JStr s =>
        if negb (utf8Valid s) then invalidValue
        else if maxIndexValue <? len s + 1 then invalidValue
        else Ok (x04 :: encodeSortableString s)
    | JArr _ | JObj _ =>
        Err (EWrap [errInvalidIndexValue : error; errUnsupportedIdxValue : error])
    end;
  if validIndexValue encoded then Ok encoded else invalidValue.

(** The branch of a native Go integer: [encodeQueryNumber], through its literal. *)
Definition encodeQueryNumber (value : Z) : res bytes := encodeIndexValue (JNum (itoa value)).

(** ** Splitting an index entry *)

(** [bytes.IndexByte]. *)
Fixpoint indexByte (s : bytes) (c : byte) : Z :=
  match s with
  | [] => -1
  | d :: s' => if beqb d c then 0 else let p := indexByte s' c in if p <? 0 then p else p + 1
  end.

Fixpoint stringEnd (rest : bytes) (stop : Z) : option Z :=
  match rest with
  | a :: ((b :: rest2) as rest1) =>
      if negb (beqb a x00) then stringEnd rest1 (stop + 1)
      else if beqb b xff then stringEnd rest2 (stop + 2)
      else if beqb b x00 then Some (stop + 2)
      else None
  | _ => Some stop
  end.

Definition numberEnd (rest : bytes) : option Z :=
  match rest with
  | [] => None
  | c :: _ =>
      if beqb c x01 then Some 1
      else if beqb c x00 || beqb c x02 then
        let terminator := if beqb c x00 then xff else x00 in
        if len rest <? 11 then None
        else
          let position := indexByte (drop 9 rest) terminator in
          if position <? 1 then None else Some (9 + position + 1)
      else None
  end.

Definition splitIndexEntry (prefix key : bytes) : option (bytes * bytes) :=
  match strip_prefix prefix key, last prefix with
  | Some rest, Some tag =>
      stop ← (if beqb tag x03 then numberEnd rest
              else if beqb tag x04 then stringEnd rest 0
              else None);
      let value := tag :: take (Z.to_nat stop) rest in
      if validIndexValue value then Some (value, drop (Z.to_nat stop) rest) else None
  | _, _ => None
  end.

(** ** The values of a document *)

Definition unescapeToken (token : bytes) : bytes :=
  replace2 "~" "0" "~" (replace2 "~" "1" "/" token).

Fixpoint pointerLoop (current : json) (tokens : list bytes) : option json :=
  match tokens with
  | [] => Some current
  | token :: tokens' =>
      let name := unescapeToken token in
      match current with
      | JObj m => next ← objLookup name m; pointerLoop next tokens'
      | JArr l =>
          index ← atoi name;
          if (index <? 0) || negb (bool_decide (itoa index = name)) || (len l <=? index) then None
          else next ← l !! Z.to_nat index; pointerLoop next tokens'
      | _ => None
      end
  end.

Definition pointerValue (root : json) (path : bytes) : option json :=
  pointerLoop root (splitByte "/" (drop 1 path)).

(** The loop over the definitions of [indexValues]. *)
Fixpoint indexValues_loop (root : json) (defs : list indexDef) (values : gmap bytes bytes)
    : res (gmap bytes bytes) :=
  match defs with
  | [] => Ok values
  | def :: defs' =>
      match pointerValue root (def_path def) with
      | None => indexValues_loop root defs' values
      | Some value =>
          match encodeIndexValue value with
          | Ok encoded => indexValues_loop root defs' (<[def_name def := encoded]> values)
          | Err e =>
              if errorsIs errUnsupportedIdxValue e then indexValues_loop root defs' values
              else Err e
          | OutOfFuel => OutOfFuel
          end
      end
  end.

(** A stored document decodes into a [map[string]any]: an object, or [null],
    which leaves the map empty. *)
Definition indexValues (document : bytes) (defs : list indexDef) : res (gmap bytes bytes) :=
  match decodeJSON document with
  | None => Err EText
  | Some (root, rest) =>
      root ← match root with
        | JObj m => Ok (JObj m)
        | JNull => Ok (JObj [])
        | _ => Err EText
        end;
      if atEOF rest then indexValues_loop root defs ∅ else Err (wrapf (wrapf errInvalidDoc))
  end.

(** ** Sortable strings *)

(** String encodings compare as the strings do, whatever follows them. *)
Lemma codeCmp_string s1 s2 :
  codeCmp (bcmp s1 s2) (encodeSortableString s1) (encodeSortableString s2).
Proof.
  assert (forall c s, b2z c <> 0 -> codeCmp Lt [x00; x00] (c :: s)) as Hlt.
  { intros c s Hc u v. cbn [app bcmp]. change (b2z x00) with 0.
    pose proof (b2z_range c). by rewrite (proj2 (Z.compare_lt_iff _ _)) by lia. }
  assert (forall c : byte, c <> x00 -> b2z c <> 0) as Hnz.
  { intros c Hc E. apply Hc, b2z_inj. by rewrite E. }
  revert s2. induction s1 as [|c s1 IH]; intros [|d s2]; cbn [encodeSortableString bcmp].
  - apply codeCmp_refl.
  - destruct (beqb_spec d x00) as [->|Hd]; [|by apply Hlt, Hnz].
    by apply (codeCmp_cons x00 Lt), (codeCmp_cons_ne x00 xff).
  - destruct (beqb_spec c x00) as [->|Hc].
    + by apply (codeCmp_cons x00 Gt), (codeCmp_cons_ne xff x00).
    + apply (codeCmp_sym Lt). by apply Hlt, Hnz.
  - destruct (decide (c = d)) as [->|Hne].
    + rewrite Z.compare_refl. destruct (beqb d x00); repeat apply codeCmp_cons; apply IH.
    + pose proof (codeCmp_cons_ne c d) as Hcd.
      assert ((b2z c ?= b2z d) <> Eq) as Hce by (rewrite Z.compare_eq_iff; intros E; by apply b2z_inj in E).
      replace (match b2z c ?= b2z d with Eq => bcmp s1 s2 | Lt => Lt | Gt => Gt end)
        with (b2z c ?= b2z d) by (by destruct (b2z c ?= b2z d)).
      destruct (beqb_spec c x00) as [->|Hc], (beqb_spec d x00) as [->|Hd]; by apply Hcd.
Qed.

Lemma validSortableString_encode s dec :
  validSortableString_loop (encodeSortableString s) dec =
  (len (dec ++ s) + 1 <=? maxIndexValue) && utf8Valid (dec ++ s).
Proof.
  revert dec. induction s as [|c s IH]; intros dec; cbn [encodeSortableString].
  { cbn. by rewrite app_nil_r. }
  destruct (beqb_spec c x00) as [->|Hc].
  - cbn. rewrite IH, <- app_assoc. done.
  - cbn [validSortableString_loop].
    destruct (beqb_spec c x00); [done|]. cbn [negb]. rewrite IH, <- app_assoc. done.
Qed.

(** Every valid string value is the encoding of a string. *)
Lemma validSortableString_inv v dec :
  validSortableString_loop v dec = true ->
  exists s, v = encodeSortableString s /\ utf8Valid (dec ++ s) = true /\
            len (dec ++ s) + 1 <= maxIndexValue.
Proof.
  remember (length v) as n eqn:Hn. revert v dec Hn.
  induction (lt_wf n) as [n _ IH]; intros v dec Hn Hv.
  destruct v as [|c v]; [done|]. cbn [validSortableString_loop] in Hv. simpl in Hn.
  destruct (beqb_spec c x00) as [->|Hc]; cbn [negb] in Hv.
  - destruct v as [|d v]; [done|]. simpl in Hn.
    destruct (beqb_spec d x00) as [->|Hd].
    + destruct v as [|]; [|done]. cbn [andb] in Hv. apply andb_true_iff in Hv as [H1 H2].
      apply Z.leb_le in H1. exists []. by rewrite app_nil_r.
    + destruct (beqb_spec d xff) as [->|]; [|done].
      destruct (IH (length v) ltac:(lia) v _ eq_refl Hv) as (s & -> & H2).
      exists (x00 :: s). rewrite <- app_assoc in H2. done.
  - destruct (IH (length v) ltac:(lia) v _ eq_refl Hv) as (s & -> & H2).
    exists (c :: s). rewrite <- app_assoc in H2. split; [|done].
    cbn [encodeSortableString]. by destruct (beqb_spec c x00).
Qed.

Lemma stringEnd_encode s t k :
  stringEnd (encodeSortableString s ++ t) k = Some (k + len (encodeSortableString s)).
Proof.
  assert (forall s, exists a b r, encodeSortableString s = a :: b :: r) as Hne.
  { intros s'. induction s' as [|c s' (a & b & r & IH)]; [by do 3 eexists|].
    cbn [encodeSortableString]. rewrite IH. destruct (beqb c x00); by do 3 eexists. }
  revert k. induction s as [|c s IH]; intros k; cbn [encodeSortableString app].
  { cbn. f_equal. }
  destruct (beqb_spec c x00) as [->|Hc].
  - cbn [app stringEnd]. change (beqb x00 x00) with true. change (beqb xff xff) with true.
    cbn [negb]. rewrite IH, !len_cons. f_equal. lia.
  - destruct (Hne s) as (a & b & r & E). specialize (IH (k + 1)). rewrite E in *.
    cbn [app] in *. cbn [stringEnd] in *. destruct (beqb_spec c x00); [done|].
    cbn [negb]. rewrite IH, !len_cons. f_equal. lia.
Qed.

(** ** Sortable numbers *)

(** The exponent a sortable number carries in its eight bytes. *)
Definition storedExponent (negative : bool) (e8 : bytes) : Z :=
  let ordered := if negative then Z.lxor (getUint64 e8) (2 ^ 64 - 1) else getUint64 e8 in
  wrap64 (Z.lxor ordered (2 ^ 63)).

Definition sortableDigit (negative : bool) (digit : byte) : bool :=
  if negative then in_range xf5 xfe digit else in_range x01 x0a digit.

(** The checks of [validSortableNumber] on a value taken apart: sign, exponent,
    digits, terminator. *)
Definition validNumberParts (c : byte) (e8 D : bytes) (t : byte) : bool :=
  let negative := beqb c x00 in
  let '(terminator, zero) := if negative then (xff, xfe) else (x00, x01) in
  (beqb c x00 || beqb c x02)
  && (- maxIndexValue <=? storedExponent negative e8)
  && (storedExponent negative e8 <=? maxIndexValue)
  && (len D <=? maxIndexValue)
  && beqb t terminator && negb (beqb (at_ D 0) zero)
  && negb (beqb (at_ D (length D - 1)) zero) && forallb (sortableDigit negative) D.

Lemma validSortableNumber_parts c e8 D t :
  length e8 = 8%nat -> D <> [] ->
  validSortableNumber (c :: e8 ++ D ++ [t]) = validNumberParts c e8 D t.
Proof.
  intros He HD. assert (1 <= len D) by (destruct D; [done|rewrite len_cons; pose proof (len_nonneg D); lia]).
  set (v := c :: e8 ++ D ++ [t]).
  assert (length v = (10 + length D)%nat) as Hlv
    by (unfold v; simpl; rewrite !length_app; simpl; lia).
  assert (len v = 10 + len D) as Hl by (unfold len; lia).
  assert (at_ v (length v - 1) = t) as Ht.
  { rewrite Hlv. unfold at_, v. replace (10 + length D - 1)%nat with (S (8 + length D)) by lia.
    change (default x00 ((e8 ++ D ++ [t]) !! (8 + length D)%nat) = t).
    rewrite app_assoc, lookup_app_r by (rewrite length_app; lia).
    rewrite length_app. by replace (8 + length D - (length e8 + length D))%nat with 0%nat by lia. }
  assert (forall i, (i < length D)%nat -> at_ v (9 + i) = at_ D i) as Hat.
  { intros i Hi. unfold at_, v.
    change (default x00 ((e8 ++ D ++ [t]) !! (8 + i)%nat) = default x00 (D !! i)).
    rewrite lookup_app_r by lia. rewrite lookup_app_l by lia.
    by replace (8 + i - length e8)%nat with i by lia. }
  assert (1 <= length D)%nat by (unfold len in *; lia).
  unfold validSortableNumber, validNumberParts. rewrite Hl, Ht.
  pose proof (Hat 0%nat ltac:(lia)) as Hat0. cbn [Nat.add] in Hat0. rewrite Hat0.
  replace (length v - 2)%nat with (9 + (length D - 1))%nat by lia. rewrite Hat by lia.
  assert (at_ v 0 = c) as -> by done.
  assert (take 8 (drop 1 v) = e8) as ->.
  { unfold v. simpl. rewrite drop_0, take_app_le, take_ge by lia. done. }
  assert (take (length v - 1 - 9) (drop 9 v) = D) as ->.
  { unfold v. simpl. rewrite drop_app_ge, He, drop_0, !length_app, He by lia. simpl.
    rewrite take_app_le, take_ge by lia. done. }
  fold (storedExponent (beqb c x00) e8).
  replace (10 + len D =? 1) with false by (symmetry; apply Z.eqb_neq; lia).
  replace (10 + len D <? 11) with false by (symmetry; apply Z.ltb_ge; lia).
  replace (10 + len D - 10) with (len D) by lia.
  rewrite !Z.ltb_antisym. unfold sortableDigit.
  destruct (beqb c x00), (beqb c x02); simpl; try done;
    destruct (- maxIndexValue <=? _), (_ <=? maxIndexValue), (len D <=? maxIndexValue); simpl; try done;
    destruct (beqb t _), (beqb (at_ D 0) _), (beqb (at_ D _) _); done.
Qed.

(** Taking a valid number apart. *)
Lemma validSortableNumber_inv v :
  validSortableNumber v = true ->
  v = [x01] \/
  exists c e8 D t, v = c :: e8 ++ D ++ [t] /\ length e8 = 8%nat /\ D <> [] /\
                   validNumberParts c e8 D t = true.
Proof.
  intros Hv. destruct (Z.eqb_spec (len v) 1) as [H1|H1].
  { left. unfold validSortableNumber in Hv. rewrite H1 in Hv. simpl in Hv.
    destruct v as [|c [|d w]]; [done| |rewrite !len_cons in H1; pose proof (len_nonneg w); lia].
    apply beqb_eq in Hv. unfold at_ in Hv. simpl in Hv. by subst. }
  right. assert (11 <= len v) as Hl.
  { unfold validSortableNumber in Hv. destruct (Z.eqb_spec (len v) 1); [done|].
    destruct (Z.ltb_spec (len v) 11); [done|lia]. }
  destruct v as [|c v]; [unfold len in Hl; simpl in Hl; lia|].
  destruct v as [|t v _] using rev_ind; [unfold len in Hl; simpl in Hl; lia|].
  rewrite len_cons, len_app in Hl. change (len [t]) with 1 in Hl. unfold len in Hl.
  exists c, (take 8 v), (drop 8 v), t.
  rewrite app_assoc, take_drop. split; [done|].
  assert (length (take 8 v) = 8%nat) by (rewrite length_take; lia).
  assert (drop 8 v <> []) by (intros E; apply (f_equal length) in E; rewrite length_drop in E; simpl in E; lia).
  split; [done|]. split; [done|].
  rewrite <- validSortableNumber_parts by done. by rewrite app_assoc, take_drop.
Qed.

Lemma indexByte_app D t u (P : byte -> bool) :
  forallb P D = true -> P t = false -> indexByte (D ++ t :: u) t = len D.
Proof.
  intros HD Ht. induction D as [|d D IH]; simpl.
  { by rewrite beqb_refl. }
  simpl in HD. apply andb_true_iff in HD as [Hd HD].
  destruct (beqb_spec d t) as [->|]; [congruence|].
  rewrite (IH HD), len_cons. pose proof (len_nonneg D).
  destruct (Z.ltb_spec (len D) 0); lia.
Qed.

Lemma numberEnd_valid v t : validSortableNumber v = true -> numberEnd (v ++ t) = Some (len v).
Proof.
  intros [->|(c & e8 & D & z & -> & He & HD & Hp)]%validSortableNumber_inv; [done|].
  assert (1 <= len D) as HlD
    by (destruct D; [done|rewrite len_cons; pose proof (len_nonneg D); lia]).
  unfold validNumberParts in Hp. destruct (if beqb c x00 then _ else _) as [term zero] eqn:Etz.
  apply andb_true_iff in Hp as [Hp Hdig]. apply andb_true_iff in Hp as [Hp _].
  apply andb_true_iff in Hp as [Hp _]. apply andb_true_iff in Hp as [Hp Ht].
  do 3 apply andb_true_iff in Hp as [Hp _]. apply beqb_eq in Ht as ->.
  assert (len (c :: e8 ++ D ++ [term]) = 10 + len D) as Hlen.
  { rewrite len_cons, !len_app. unfold len at 1. rewrite He. change (len [term]) with 1. lia. }
  assert (drop 9 ((c :: e8 ++ D ++ [term]) ++ t) = D ++ term :: t) as Hdrop.
  { simpl. rewrite <- !app_assoc, drop_app_ge, He, drop_0 by lia. done. }
  assert (sortableDigit (beqb c x00) term = false) as Hterm
    by (destruct (beqb c x00); by injection Etz as <- <-).
  unfold numberEnd. cbn [app]. change (c :: (e8 ++ D ++ [term]) ++ t) with ((c :: e8 ++ D ++ [term]) ++ t).
  rewrite Hdrop, len_app, Hlen.
  destruct (beqb_spec c x01) as [->|_]; [done|]. rewrite Hp.
  replace (10 + len D + len t <? 11) with false
    by (symmetry; apply Z.ltb_ge; pose proof (len_nonneg t); lia).
  assert ((if beqb c x00 then xff else x00) = term) as ->
    by (destruct (beqb c x00); by injection Etz as <- <-).
  rewrite (indexByte_app D term t _ Hdig Hterm).
  replace (len D <? 1) with false by (symmetry; apply Z.ltb_ge; lia). f_equal. lia.
Qed.

(** ** Values in keys *)

(** Neither of two valid values extends the other. *)
Lemma validIndexValue_prefix_free v k :
  validIndexValue v = true -> validIndexValue (v ++ k) = true -> k = [].
Proof.
  unfold validIndexValue. destruct v as [|tag v]; [done|]. cbn [app].
  destruct (maxEncodedIndexValue <? _); [done|]. destruct (maxEncodedIndexValue <? _); [done|].
  destruct (beqb tag x00 || beqb tag x01 || beqb tag x02).
  { rewrite !len_cons, len_app, !Z.eqb_eq. intros H1 H2. apply len_0_nil. lia. }
  destruct (beqb tag x03).
  { intros H1%(fun H => numberEnd_valid v k H) H2%(fun H => numberEnd_valid (v ++ k) [] H).
    rewrite app_nil_r, H1, len_app in H2. injection H2 as H2. apply len_0_nil. lia. }
  destruct (beqb tag x04); [|done]. unfold validSortableString.
  intros (s & -> & _)%validSortableString_inv (s' & E & _)%validSortableString_inv.
  pose proof (stringEnd_encode s k 0) as H1. pose proof (stringEnd_encode s' [] 0) as H2.
  rewrite app_nil_r, <- E, H1, len_app in H2. injection H2 as H2. apply len_0_nil. lia.
Qed.

Lemma codeCmp_valid v1 v2 :
  validIndexValue v1 = true -> validIndexValue v2 = true -> codeCmp (bcmp v1 v2) v1 v2.
Proof.
  intros H1 H2. apply codeCmp_prefix_free; intros k ->; eauto using validIndexValue_prefix_free.
Qed.

Lemma valid_app_inj v1 v2 x y :
  validIndexValue v1 = true -> validIndexValue v2 = true ->
  v1 ++ x = v2 ++ y -> v1 = v2 /\ x = y.
Proof. intros H1 H2. by eapply codeCmp_app_inj, codeCmp_valid. Qed.

Lemma validIndexValue_nonempty v : validIndexValue v = true -> v <> [].
Proof. by intros H ->. Qed.

Lemma strip_prefix_Some p s r : strip_prefix p s = Some r -> s = p ++ r.
Proof.
  revert s. induction p as [|c p IH]; intros s; simpl; [congruence|].
  destruct s as [|d s]; [done|]. destruct (beqb_spec c d) as [->|]; [|done].
  intros H. by rewrite (IH _ H).
Qed.

(** An entry under the prefix of its type splits into its value and its ID. *)
Lemma splitIndexEntry_valid p tag v id :
  (tag = x03 \/ tag = x04) -> validIndexValue (tag :: v) = true ->
  splitIndexEntry (p ++ [tag]) (p ++ (tag :: v) ++ id) = Some (tag :: v, id).
Proof.
  intros Htag Hv. unfold splitIndexEntry.
  change ((tag :: v) ++ id) with ([tag] ++ v ++ id). rewrite (app_assoc p), strip_prefix_app, last_snoc.
  assert ((if beqb tag x03 then numberEnd (v ++ id)
           else if beqb tag x04 then stringEnd (v ++ id) 0 else None) = Some (len v)) as ->.
  { pose proof Hv as Hv'. unfold validIndexValue in Hv'.
    destruct (maxEncodedIndexValue <? _); [done|].
    destruct Htag as [-> | ->]; simpl in Hv' |- *.
    - by apply numberEnd_valid.
    - unfold validSortableString in Hv'. apply validSortableString_inv in Hv' as (s & -> & _).
      by rewrite stringEnd_encode. }
  cbn [mbind option_bind]. unfold len. rewrite Nat2Z.id, take_app_length, drop_app_length.
  by rewrite Hv.
Qed.

(** ** What the encoder produces *)

Lemma encodeNumber_inv lit e :
  encodeNumber lit = Ok e ->
  exists q, ratSetString lit = Some q /\ encodable q /\ len (ratString q) + 1 <= maxIndexValue /\
            e = x03 :: encodeSortableNumber q.
Proof.
  unfold encodeNumber, invalidValue. destruct lit as [|c lit]; [done|].
  destruct (isValidNumber _); [|done]. cbn [negb].
  destruct (ratSetString _) as [q|] eqn:Hq; [|done].
  destruct (Z.ltb_spec maxIndexValue (len (ratString q) + 1)) as [|Hl]; [done|].
  intros [= <-]. exists q. split; [done|]. split; [|done].
  unfold maxIndexValue in Hl. apply (encodable_small q 4096); [|lia|lia].
  by eapply ratSetString_decimalDen.
Qed.

Lemma encodeIndexValue_valid v e : encodeIndexValue v = Ok e -> validIndexValue e = true.
Proof.
  unfold encodeIndexValue, invalidValue. intros (e' & _ & H)%res_bind_ok.
  destruct (validIndexValue e') eqn:E; [|done]. by injection H as <-.
Qed.

Lemma encodeIndexValue_num lit e :
  encodeIndexValue (JNum lit) = Ok e -> encodeNumber lit = Ok e.
Proof.
  unfold encodeIndexValue, invalidValue. intros (e' & H1 & H2)%res_bind_ok.
  destruct (validIndexValue e'); [|done]. by injection H2 as <-.
Qed.

Lemma encodeIndexValue_str s e :
  encodeIndexValue (JStr s) = Ok e ->
  e = x04 :: encodeSortableString s /\ utf8Valid s = true /\ len s + 1 <= maxIndexValue.
Proof.
  unfold encodeIndexValue, invalidValue. intros (e' & H1 & H2)%res_bind_ok.
  destruct (validIndexValue e'); [|done]. injection H2 as ->.
  destruct (utf8Valid s); [|done]. cbn [negb] in H1.
  destruct (Z.ltb_spec maxIndexValue (len s + 1)); [done|]. by injection H1 as <-.
Qed.

(** The type tag of a value. *)
Definition jsonTag (v : json) : option byte :=
  match v with
  | JNull => Some x00
  | JBool b => Some (if b then x02 else x01)
  | JNum _ => Some x03
  | JStr _ => Some x04
  | JArr _ | JObj _ => None
  end.

Lemma encodeIndexValue_tag v e :
  encodeIndexValue v = Ok e -> exists tag rest, e = tag :: rest /\ jsonTag v = Some tag.
Proof.
  destruct v as [|b|lit|s|l|m]; simpl.
  - intros [= <-]. by eexists _, _.
  - destruct b; intros [= <-]; by eexists _, _.
  - intros (q & _ & _ & _ & ->)%encodeIndexValue_num%encodeNumber_inv. by eexists _, _.
  - intros (-> & _)%encodeIndexValue_str. by eexists _, _.
  - done.
  - done.
Qed.

Lemma length_encodeSortableString s :
  len s + 2 <= len (encodeSortableString s) <= 2 * len s + 2.
Proof.
  induction s as [|c s IH]; [done|]. cbn [encodeSortableString].
  destruct (beqb c x00); rewrite !len_cons; lia.
Qed.

(** A string is refused for its length or its bytes only. *)
Lemma encodeIndexValue_string s :
  encodeIndexValue (JStr s) =
  if utf8Valid s && (len s + 1 <=? maxIndexValue) then Ok (x04 :: encodeSortableString s)
  else invalidValue.
Proof.
  unfold encodeIndexValue, invalidValue. destruct (utf8Valid s) eqn:Hu; [|done]. cbn [negb andb].
  rewrite Z.leb_antisym. destruct (Z.ltb_spec maxIndexValue (len s + 1)) as [|Hl]; [done|].
  cbn [negb mbind res_bind]. unfold validIndexValue.
  pose proof (length_encodeSortableString s). unfold maxEncodedIndexValue. rewrite len_cons.
  replace (2 * maxIndexValue + 1 <? _) with false by (symmetry; apply Z.ltb_ge; lia).
  change (beqb x04 x00 || beqb x04 x01 || beqb x04 x02) with false.
  change (beqb x04 x03) with false. change (beqb x04 x04) with true. cbn match.
  unfold validSortableString. rewrite validSortableString_encode, app_nil_l, Hu, andb_true_r.
  by rewrite (proj2 (Z.leb_le _ _)) by lia.
Qed.

(** *** Which numbers the encoder accepts *)

Lemma storedExponent_put e :
  - 2 ^ 63 <= e < 2 ^ 63 -> storedExponent false (putUint64 (orderedExponent e)) = e.
Proof.
  intros He. unfold storedExponent, getUint64, putUint64. rewrite getBE_putBE.
  change (256 ^ Z.of_nat 8) with (2 ^ 64). rewrite orderedExponent_spec, Z.mod_small by lia.
  rewrite <- orderedExponent_spec by lia. unfold orderedExponent.
  rewrite Z.lxor_assoc, Z.lxor_nilpotent, Z.lxor_0_r.
  unfold wrap64. rewrite Z.add_mod_idemp_l by lia. by apply wrap64_small.
Qed.

Lemma storedExponent_bnot x :
  storedExponent true (map bnot (putUint64 x)) = storedExponent false (putUint64 x).
Proof.
  unfold storedExponent, getUint64, putUint64. rewrite map_bnot_putBE, !getBE_putBE.
  change (256 ^ Z.of_nat 8) with (2 ^ 64). by rewrite lxor_ones_lnot by lia.
Qed.

Lemma incDigit_sortable c : isDigit c = true ->
  sortableDigit false (incDigit c) = true /\ sortableDigit true (bnot (incDigit c)) = true.
Proof. intros H. destruct c; try discriminate H; by vm_compute. Qed.

Lemma incDigit_zero c : isDigit c = true -> c <> ("0")%byte ->
  beqb (incDigit c) x01 = false /\ beqb (bnot (incDigit c)) xfe = false.
Proof. intros H Hc. destruct c; try discriminate H; by vm_compute. Qed.

Lemma at_map {f : byte -> byte} D i : (i < length D)%nat -> at_ (map f D) i = f (at_ D i).
Proof.
  intros Hi. unfold at_. rewrite list_lookup_fmap.
  destruct (lookup_lt_is_Some_2 D i Hi) as [c ->]. done.
Qed.

Lemma at_head D : D <> [] -> exists c D', D = c :: D' /\ at_ D 0 = c.
Proof. destruct D as [|c D]; [done|]. by exists c, D. Qed.

Lemma at_last D : D <> [] -> exists D' c, D = D' ++ [c] /\ at_ D (length D - 1) = c.
Proof.
  destruct D as [|c D _] using rev_ind; [done|]. exists D, c. split; [done|].
  unfold at_. rewrite length_app. simpl. rewrite lookup_app_r by lia.
  by replace (length D + 1 - 1 - length D)%nat with 0%nat by lia.
Qed.

Lemma validNumberParts_encode (negative : bool) D s e :
  D <> [] -> digits D -> noTrailingZero D -> noLeadingZero D ->
  - 2 ^ 63 <= e < 2 ^ 63 -> - maxIndexValue <= e <= maxIndexValue -> s = map incDigit D ->
  let f := if negative then map bnot else (fun x => x) in
  validNumberParts (if negative then x00 else x02) (f (putUint64 (orderedExponent e))) (f s)
    (if negative then xff else x00) = (len D <=? maxIndexValue).
Proof.
  intros HD Hd Ht Hl He Hm -> f.
  assert (len (f (map incDigit D)) = len D) as Hlen
    by (unfold f, len; destruct negative; by rewrite ?length_map).
  assert (forallb (sortableDigit negative) (f (map incDigit D)) = true) as Hdig.
  { apply forallb_forall. intros x Hx. unfold f in Hx. destruct negative.
    - apply in_map_iff in Hx as (y & <- & Hy). apply in_map_iff in Hy as (c & <- & Hc).
      apply incDigit_sortable. eapply Forall_forall in Hd; [exact Hd|by apply list_elem_of_In].
    - apply in_map_iff in Hx as (c & <- & Hc).
      apply incDigit_sortable. eapply Forall_forall in Hd; [exact Hd|by apply list_elem_of_In]. }
  assert (1 <= length D)%nat by (destruct D; [done|simpl; lia]).
  destruct (at_head D HD) as (c & D1 & E1 & A1). destruct (at_last D HD) as (D2 & d & E2 & A2).
  assert (isDigit c = true /\ isDigit d = true) as [Hc Hd'].
  { split; [rewrite E1 in Hd; by apply Forall_cons in Hd as [? _]|].
    rewrite E2 in Hd. apply Forall_app in Hd as [_ Hd]. by apply Forall_cons in Hd as [? _]. }
  pose proof (incDigit_zero c Hc (Hl c D1 E1)) as [Z1 Z1'].
  pose proof (incDigit_zero d Hd' (Ht D2 d E2)) as [Z2 Z2'].
  unfold validNumberParts. rewrite Hlen.
  assert (storedExponent (beqb (if negative then x00 else x02) x00)
            (f (putUint64 (orderedExponent e))) = e) as ->.
  { unfold f. destruct negative; [change (beqb x00 x00) with true; rewrite storedExponent_bnot|];
      by apply storedExponent_put. }
  rewrite !(proj2 (Z.leb_le _ _)) by lia.
  destruct negative; unfold f in *; cbn match in *.
  - change (beqb x00 x00) with true. cbn match in *.
    rewrite !length_map, !at_map, A1, A2, Z1', Z2', Hdig by (rewrite ?length_map; lia).
    cbn. by rewrite !andb_true_r.
  - change (beqb x02 x00) with false. cbn match in *.
    rewrite !length_map, !at_map, A1, A2, Z1, Z2, Hdig by lia. cbn. by rewrite !andb_true_r.
Qed.

(** Accepted are exactly the numbers with at most [maxIndexValue] significant
    digits, once the printed form is within the limit. *)
Lemma validIndexValue_number q :
  decimalDen (Qden q) -> len (ratString q) + 1 <= maxIndexValue ->
  validIndexValue (x03 :: encodeSortableNumber q) =
  (Qnum q =? 0) || (len (fst (decimalDigits (Z.abs (Qnum q)) (Qden q))) <=? maxIndexValue).
Proof.
  intros Hd Hr. unfold maxIndexValue in Hr. unfold validIndexValue, encodeSortableNumber.
  destruct (Z.eqb_spec (Qnum q) 0) as [Hz|Hz]; [done|]. cbn [orb].
  pose proof (exponent_bound q 4095 Hd ltac:(lia) Hz) as He.
  pose proof (decimalDigits_spec (Z.abs (Qnum q)) _ ltac:(lia) Hd) as HD.
  destruct (decimalDigits _ _) as [D s]. cbn [fst].
  destruct HD as (HD1 & HD2 & HD3 & HD4 & _).
  rewrite wrap64_small by lia. set (e := len D - s) in *.
  assert (exists (neg : bool) (f : bytes -> bytes),
    f = (if neg then map bnot else fun x => x) /\
    (if 0 <? Qnum q then x02 :: encodeMagnitude D e else x00 :: map bnot (encodeMagnitude D e))
    = (if neg then x00 else x02) :: f (putUint64 (orderedExponent e)) ++ f (map incDigit D)
        ++ [if neg then xff else x00]) as (neg & f & Hf & ->).
  { unfold encodeMagnitude. destruct (0 <? Qnum q);
      [exists false|exists true]; eexists; (split; [reflexivity|]); [done|].
    by rewrite !map_app. }
  change (beqb x03 x00 || beqb x03 x01 || beqb x03 x02) with false.
  change (beqb x03 x03) with true. cbn match.
  assert (length (f (putUint64 (orderedExponent e))) = 8%nat) as H8
    by (rewrite Hf; destruct neg; rewrite ?length_map; apply length_putBE).
  assert (len (f (map incDigit D)) = len D) as HfD
    by (rewrite Hf; unfold len; destruct neg; by rewrite ?length_map).
  rewrite validSortableNumber_parts; [|done|].
  - pose proof (validNumberParts_encode neg D _ e HD1 HD2 HD3 HD4 ltac:(lia)
      ltac:(unfold maxIndexValue; lia) eq_refl) as HP. cbn zeta in HP. rewrite <- Hf in HP.
    rewrite HP, !len_cons, !len_app, HfD. unfold len at 1. rewrite H8.
    change (len [if neg then xff else x00]) with 1.
    unfold maxEncodedIndexValue, maxIndexValue.
    destruct (Z.ltb_spec (2 * 4096 + 1) (1 + (1 + (Z.of_nat 8 + (len D + 1))))); [|done].
    symmetry. apply Z.leb_gt. lia.
  - intros E. rewrite E in HfD. symmetry in HfD. by apply len_0_nil in HfD.
Qed.

(** ** Definitions of indexes *)

Definition validDef (def : indexDef) : Prop :=
  validName (def_name def) /\ validatePointer (def_path def) = Ok ().

Lemma is_ok_unit (r : res unit) : is_ok r = true <-> r = Ok ().
Proof. destruct r as [[]| |]; naive_solver. Qed.

Lemma validateIndexes_loop_spec defs seen :
  validateIndexes_loop defs seen = Ok () <->
  Forall validDef defs /\ NoDup (map def_name defs) /\ (forall n, n ∈ map def_name defs -> n ∉ seen).
Proof.
  revert seen. induction defs as [|def defs IH]; intros seen; cbn [validateIndexes_loop map].
  { split; [|done]. intros _. split; [done|]. split; [constructor|set_solver]. }
  unfold validDef at 1, validName. rewrite Forall_cons, NoDup_cons. unfold validName.
  destruct (validateName (def_name def)) as [[]| |]; cbn [is_ok negb];
    [|split; [done|]; intros [[[? _] _] _]; done..].
  destruct (validatePointer (def_path def)) as [[]| |]; cbn [is_ok negb];
    [|split; [done|]; intros [[[_ ?] _] _]; done..].
  destruct (decide (def_name def ∈ seen)) as [Hin|Hin].
  - split; [done|]. intros (_ & _ & H). destruct (H (def_name def)); set_solver.
  - rewrite IH. split.
    + intros (H1 & H2 & H3). split; [done|]. split; [split; [|done]|]; [|set_solver].
      intros Hn. apply (H3 _ Hn). set_solver.
    + intros ([_ H1] & [H2 H3] & H4). split; [done|]. split; [done|]. set_solver.
Qed.

Lemma validateIndexes_spec defs :
  validateIndexes defs = Ok () <->
  len defs <= maxIndexes /\ Forall validDef defs /\ NoDup (map def_name defs).
Proof.
  unfold validateIndexes. destruct (Z.ltb_spec maxIndexes (len defs)).
  - split; [done|]. intros [? _]. lia.
  - rewrite validateIndexes_loop_spec. split; [|by intros (_ & ? & ?); set_solver].
    intros (? & ? & _). done.
Qed.

Lemma validateIndexes_ok defs r : validateIndexes defs = Ok r -> validateIndexes defs = Ok ().
Proof. by destruct r. Qed.

Lemma validateIndexes_total defs : validateIndexes defs <> OutOfFuel.
Proof.
  unfold validateIndexes. destruct (_ <? _); [done|]. generalize (@nil bytes).
  induction defs as [|def defs IH]; intros seen; cbn [validateIndexes_loop]; [done|].
  repeat (case_match; [done|]). apply IH.
Qed.

Lemma decodeIndexDef_encode def :
  validDef def -> decodeIndexDef (def_name def) (encodeIndexDef def) = Ok def.
Proof.
  intros Hd. unfold decodeIndexDef, encodeIndexDef. cbn [drop].
  assert (exists c p, def_path def = c :: p) as (c & p & Hp).
  { destruct Hd as [_ Hp]. destruct (def_path def); [done|by eexists _, _]. }
  assert (len (indexDefVersion :: def_path def) <? 2 = false) as ->.
  { rewrite Hp, !len_cons. pose proof (len_nonneg p). apply Z.ltb_ge. lia. }
  change (at_ (indexDefVersion :: def_path def) 0) with indexDefVersion.
  rewrite beqb_refl. cbn [negb orb drop]. cbv zeta. destruct def as [n q].
  cbn [def_name def_path] in *.
  rewrite drop_0. assert (validateIndexes [IndexDef n q] = Ok ()) as ->; [|done].
  apply validateIndexes_spec. split; [done|]. split; [by apply Forall_singleton|].
  apply NoDup_singleton.
Qed.

Lemma findIndex_Some defs n def :
  findIndex defs n = Some def -> def ∈ defs /\ def_name def = n.
Proof.
  induction defs as [|d defs IH]; simpl; [done|].
  destruct (decide (def_name d = n)); [intros [= <-]; set_solver|].
  intros H. apply IH in H. set_solver.
Qed.

Lemma findIndex_elem defs def :
  NoDup (map def_name defs) -> def ∈ defs -> findIndex defs (def_name def) = Some def.
Proof.
  induction defs as [|d defs IH]; simpl; intros Hnd Hin; [set_solver|].
  apply NoDup_cons in Hnd as [Hn Hnd]. apply elem_of_cons in Hin as [->|Hin].
  - by rewrite decide_True.
  - rewrite decide_False; [by apply IH|]. intros E. apply Hn. rewrite E.
    apply list_elem_of_fmap. by exists def.
Qed.

(** The values of a document are valid and belong to its database's indexes. *)
Lemma indexValues_loop_spec root defs values0 values :
  indexValues_loop root defs values0 = Ok values ->
  forall i v, values !! i = Some v ->
    values0 !! i = Some v \/
    validIndexValue v = true /\ exists def, def ∈ defs /\ def_name def = i.
Proof.
  revert values0. induction defs as [|def defs IH]; intros values0; cbn [indexValues_loop].
  { intros [= ->]. by left. }
  destruct (pointerValue root (def_path def)) as [value|].
  - destruct (encodeIndexValue value) as [e|e|] eqn:He; [| |done].
    + intros H i v Hv. destruct (IH _ H i v Hv) as [Hl|(? & d & ? & ?)].
      * destruct (decide (i = def_name def)) as [->|Hne].
        -- rewrite lookup_insert_eq in Hl. injection Hl as <-.
           right. split; [by eapply encodeIndexValue_valid|]. exists def. set_solver.
        -- rewrite lookup_insert_ne in Hl by done. by left.
      * right. split; [done|]. exists d. set_solver.
    + destruct (errorsIs _ _); [|done]. intros H i v Hv.
      destruct (IH _ H i v Hv) as [?|(? & d & ? & ?)]; [by left|right].
      split; [done|]. exists d. set_solver.
  - intros H i v Hv. destruct (IH _ H i v Hv) as [?|(? & d & ? & ?)]; [by left|right].
    split; [done|]. exists d. set_solver.
Qed.

Lemma indexValues_spec document defs values i v :
  indexValues document defs = Ok values -> values !! i = Some v ->
  validIndexValue v = true /\ exists def, def ∈ defs /\ def_name def = i.
Proof.
  unfold indexValues. destruct (decodeJSON document) as [[root rest]|]; [|done].
  intros (root' & _ & H)%res_bind_ok Hv. destruct (atEOF rest); [|done].
  destruct (indexValues_loop_spec _ _ _ _ H i v Hv) as [Hl|?]; [|done].
  by rewrite lookup_empty in Hl.
Qed.

(** The index values of a document are always computed to the end. *)
Lemma encodeIndexValue_total v : encodeIndexValue v <> OutOfFuel.
Proof.
  unfold encodeIndexValue, invalidValue. intros H. destruct v as [|[]|lit|s|l|m]; simpl in H; try done.
  - unfold encodeNumber, invalidValue in H. destruct lit; [done|].
    destruct (negb _); [done|]. destruct (ratSetString _); [|done].
    destruct (_ <? _); [done|]. cbn [mbind res_bind] in H. by destruct (validIndexValue _).
  - destruct (negb _); [done|]. destruct (_ <? _); [done|]. cbn [mbind res_bind] in H.
    by destruct (validIndexValue _).
Qed.

Lemma indexValues_total document defs : indexValues document defs <> OutOfFuel.
Proof.
  assert (forall root values, indexValues_loop root defs values <> OutOfFuel) as Hl.
  { intros root. induction defs as [|def defs' IH]; intros values; cbn [indexValues_loop]; [done|].
    destruct (pointerValue _ _); [|apply IH].
    pose proof (encodeIndexValue_total j). destruct (encodeIndexValue _); [apply IH| |done].
    destruct (errorsIs _ _); [apply IH|done]. }
  unfold indexValues. destruct (decodeJSON document) as [[root rest]|]; [|done].
  destruct root; cbn [mbind res_bind]; try done; destruct (atEOF rest); auto; done.
Qed.

(** Why a document is not indexed: never because another one is there. *)
Lemma encodeIndexValue_errors v e : encodeIndexValue v = Err e -> errorsIs errDocExists e = false.
Proof.
  unfold encodeIndexValue, encodeNumber, invalidValue, mbind, res_bind. intros H. repeat (case_match; simplify_eq; try done).
Qed.

Lemma indexValues_errors document defs e : indexValues document defs = Err e -> errorsIs errDocExists e = false.
Proof.
  assert (forall root values, indexValues_loop root defs values = Err e -> errorsIs errDocExists e = false) as Hl.
  { intros root. induction defs as [|def defs' IH]; intros values; cbn [indexValues_loop]; [done|].
    destruct (pointerValue _ _); [|apply IH].
    destruct (encodeIndexValue _) as [encoded|e'|] eqn:He; [apply IH| |done].
    destruct (errorsIs errUnsupportedIdxValue e'); [apply IH|]. intros [= ->]. by eapply encodeIndexValue_errors. }
  unfold indexValues. destruct (decodeJSON document) as [[root rest]|]; [|by intros [= <-]].
  destruct root; cbn [mbind res_bind]; try (by intros [= <-]); destruct (atEOF rest); first [apply Hl|by intros [= <-]].
Qed.

(** ** Properties *)

(** C37: numbers are ordered in the index as numbers: when two number literals are
    encoded, their encodings compare as the rationals the literals denote,
    whatever document ID follows; equal numbers written differently share one
    encoding. *)
Theorem number_order lit1 lit2 l1 l2 e1 e2 :
  encodeIndexValue (JNum lit1) = Ok e1 -> encodeIndexValue (JNum lit2) = Ok e2 ->
  splitNumber lit1 = Some l1 -> splitNumber lit2 = Some l2 ->
  len lit1 < 2 ^ 62 -> len lit2 < 2 ^ 62 ->
  forall id1 id2, bcmp (e1 ++ id1) (e2 ++ id2) =
    match (litValue l1 ?= litValue l2)%Q with Eq => bcmp id1 id2 | c => c end.
Proof.
  intros H1 H2 S1 S2 L1 L2.
  apply encodeIndexValue_num, encodeNumber_inv in H1 as (q1 & R1 & E1 & _ & ->).
  apply encodeIndexValue_num, encodeNumber_inv in H2 as (q2 & R2 & E2 & _ & ->).
  pose proof (ratSetString_value _ _ _ S1 R1 L1) as V1.
  pose proof (ratSetString_value _ _ _ S2 R2 L2) as V2.
  rewrite <- (Qcompare_comp _ _ V1 _ _ V2).
  intros id1 id2.
  exact (codeCmp_then _ _ _ id1 id2 (codeCmp_cons x03 _ _ _ (codeCmp_number q1 q2 E1 E2))).
Qed.

Lemma number_order_witness :
  exists e1 e2, encodeIndexValue (JNum (str "-1.50")) = Ok e1 /\
    encodeIndexValue (JNum (str "2e1")) = Ok e2 /\ bcmp e1 e2 = Lt.
Proof.
  eexists _, _. split; [vm_compute; reflexivity|]. split; [vm_compute; reflexivity|].
  rewrite <- (app_nil_r (x03 :: x00 :: _)), <- (app_nil_r (x03 :: x02 :: _)).
  refine (eq_trans (number_order (str "-1.50") (str "2e1") _ _ _ _ _ _ _ _ _ _ _ _) _);
    vm_compute; reflexivity.
Defined.

(** C38: strings are ordered in the index byte by byte: encodings of two strings
    compare as the strings, whatever document ID follows, embedded NUL bytes
    included, and a string is refused exactly when it is not UTF-8 or, with the
    tag, longer than [maxIndexValue]. *)
Theorem string_order s1 s2 :
  encodeIndexValue (JStr s1) =
    (if utf8Valid s1 && (len s1 + 1 <=? maxIndexValue) then Ok (x04 :: encodeSortableString s1)
     else invalidValue) /\
  forall id1 id2, bcmp (x04 :: encodeSortableString s1 ++ id1) (x04 :: encodeSortableString s2 ++ id2)
    = match bcmp s1 s2 with Eq => bcmp id1 id2 | c => c end.
Proof.
  split; [apply encodeIndexValue_string|].
  intros id1 id2.
  exact (codeCmp_then _ _ _ id1 id2 (codeCmp_cons x04 _ _ _ (codeCmp_string s1 s2))).
Qed.

(** [splitIndexEntry] undoes [indexKey]: the index entry of any encoded
    number or string and any document ID splits back into exactly that value and
    that ID, although neither has a length prefix. *)
Lemma splitIndexEntry_indexKey database index value e tag id :
  encodeIndexValue value = Ok e -> jsonTag value = Some tag -> (tag = x03 \/ tag = x04) ->
  splitIndexEntry (indexTypePrefix database index tag) (indexKey database index e id) = Some (e, id).
Proof.
  intros He Ht Htag. pose proof (encodeIndexValue_valid _ _ He) as Hv.
  apply encodeIndexValue_tag in He as (t & r & -> & Ht'). rewrite Ht in Ht'. injection Ht' as <-.
  unfold indexTypePrefix, indexKey, indexValuePrefix. rewrite <- app_assoc.
  by apply splitIndexEntry_valid.
Qed.

(** No encoded value is a proper prefix of another, so an index entry
    belongs to one value only. *)
Lemma encodeIndexValue_prefix_free v1 v2 e1 e2 id1 id2 :
  encodeIndexValue v1 = Ok e1 -> encodeIndexValue v2 = Ok e2 ->
  e1 ++ id1 = e2 ++ id2 -> e1 = e2 /\ id1 = id2.
Proof. intros H1%encodeIndexValue_valid H2%encodeIndexValue_valid. by apply valid_app_inj. Qed.
