(* ===== verification/Mime.v ===== *)
(** * Media types

    [mime.ParseMediaType] of the Go library as the program uses it, for the media
    type and for whether the value is one; and the three tests of a Content-Type
    (server.go, bulk.go, patch.go). *)

From S2P Require Import Prelude GoErrors Text.

(** ** Tokens *)

(** The characters of [isTokenChar] and of [isTSpecial]. *)
Definition isTokenChar (c : byte) : bool :=
  in_range "0" "9" c || in_range "A" "Z" c || in_range "a" "z" c
  || bool_decide (c ∈ str "!#$%&'*+-.^_`|~").

Definition isTSpecial (c : byte) : bool :=
  beqb c x22 || bool_decide (c ∈ str "()<>@,;:\/[]?=").

Fixpoint consumeToken (s : bytes) : bytes * bytes :=
  match s with
  | c :: s' => if isTokenChar c then let '(token, rest) := consumeToken s' in (c :: token, rest) else ([], s)
  | [] => ([], [])
  end.

(** [strings.ToLower], for the runes whose lower case is ASCII: two others have
    one, U+0130 and U+212A.  No other change can make a token. *)
Fixpoint toLower (s : bytes) : bytes :=
  match s with
  | xc4 :: xb0 :: s' => ("i"%byte) :: toLower s'
  | xe2 :: x84 :: xaa :: s' => ("k"%byte) :: toLower s'
  | c :: s' => (if in_range "A" "Z" c then z2b (b2z c + 32) else c) :: toLower s'
  | [] => []
  end.

(** [checkMediaTypeDisposition]. *)
Definition validMediaType (s : bytes) : bool :=
  let '(typ, rest) := consumeToken s in
  match typ with
  | [] => false
  | _ =>
      match rest with
      | [] => true
      | c :: rest =>
          if negb (beqb c "/") then false
          else let '(subtype, rest) := consumeToken rest in
               match subtype, rest with _ :: _, [] => true | _, _ => false end
      end
  end.

(** ** Parameters *)

(** The inside of a quoted string: [None] where [consumeValue] returns its whole
    argument. *)
Fixpoint quotedValue (s : bytes) : option (bytes * bytes) :=
  match s with
  | [] => None
  | c :: s' =>
      if beqb c x22 then Some ([], s')
      else
        match s' with
        | d :: s'' =>
            if beqb c "\" && isTSpecial d then '(v, r) ← quotedValue s''; Some (d :: v, r)
            else if beqb c x0d || beqb c x0a then None
            else '(v, r) ← quotedValue s'; Some (c :: v, r)
        | [] => None
        end
  end.

Definition consumeValue (s : bytes) : bytes * bytes :=
  match s with
  | [] => ([], [])
  | c :: s' =>
      if negb (beqb c x22) then consumeToken s
      else match quotedValue s' with Some vr => vr | None => ([], s) end
  end.

(** [consumeMediaParam]: [None] where it returns no name. *)
Definition consumeMediaParam (s : bytes) : option (bytes * bytes * bytes) :=
  match trimLeft s with
  | c :: rest =>
      if negb (beqb c ";") then None
      else
        let '(param, rest) := consumeToken (trimLeft rest) in
        match param, trimLeft rest with
        | _ :: _, eq :: rest =>
            if negb (beqb eq "=") then None
            else
              let rest := trimLeft rest in
              let '(value, rest2) := consumeValue rest in
              if (len value =? 0) && (len rest2 =? len rest) then None
              else Some (toLower param, value, rest2)
        | _, _ => None
        end
  | [] => None
  end.

(** The loop over the parameters; [seen] are those before, of which one may be
    repeated only with the same value.  Every round consumes input. *)
Fixpoint parseParams (fuel : nat) (s : bytes) (seen : list (bytes * bytes)) : bool :=
  match fuel with
  | O => false
  | S f =>
      match trimLeft s with
      | [] => true
      | s' =>
          match consumeMediaParam s' with
          | None => bool_decide (trimSpace s' = str ";")
          | Some (key, value, rest) =>
              if existsb (fun kv => bool_decide (kv.1 = key) && negb (bool_decide (kv.2 = value))) seen then false
              else parseParams f rest ((key, value) :: seen)
          end
      end
  end.

Fixpoint cutByte (sep : byte) (s : bytes) : bytes * option bytes :=
  match s with
  | [] => ([], None)
  | c :: s' => if beqb c sep then ([], Some s') else let '(a, b) := cutByte sep s' in (c :: a, b)
  end.

(** The media type, or [None] for an error. *)
Definition parseMediaType (v : bytes) : option bytes :=
  let base := (cutByte ";" v).1 in
  let mediatype := trimSpace (toLower base) in
  if negb (validMediaType mediatype) then None
  else
    let params := drop (length base) v in
    if parseParams (S (length params)) params [] then Some mediatype else None.

(** ** The tests of the program *)

(** server.go *)
Definition isJSON (value : bytes) : bool :=
  bool_decide (parseMediaType value = Some (str "application/json")).

(** bulk.go *)
Definition bulkMediaType : bytes := str "application/x-ndjson".
Definition isNDJSON (value : bytes) : bool := bool_decide (parseMediaType value = Some bulkMediaType).

(** patch.go *)
Definition mergePatchType : bytes := str "application/merge-patch+json".
Definition jsonPatchType : bytes := str "application/json-patch+json".

Definition parsePatchType (value : bytes) : res bytes :=
  match parseMediaType value with
  | Some mediaType =>
      if negb (bool_decide (mediaType = mergePatchType)) && negb (bool_decide (mediaType = jsonPatchType))
      then Err errInvalidPatch else Ok mediaType
  | None => Err errInvalidPatch
  end.

(** ** Lemmas *)

Example isJSON_plain : isJSON (str "application/json") = true.
Proof. vm_compute. reflexivity. Qed.

Example isJSON_charset : isJSON (str "Application/JSON ; charset=utf-8;") = true.
Proof. vm_compute. reflexivity. Qed.

Example isJSON_text : isJSON (str "text/json") = false.
Proof. vm_compute. reflexivity. Qed.

Example isJSON_bad_param : isJSON (str "application/json; charset") = false.
Proof. vm_compute. reflexivity. Qed.

(** The tests exclude each other. *)
Lemma media_types_disjoint v : isJSON v = true -> isNDJSON v = false /\ parsePatchType v = Err errInvalidPatch.
Proof. unfold isJSON, isNDJSON, parsePatchType. rewrite bool_decide_eq_true. by intros ->. Qed.
