(* ===== verification/Patch.v ===== *)
(** * Patches

    The patch formats of patch.go.  The JSON Patch library is an interface: a
    merge of two documents, and a list of operations that is decoded and applied
    under a limit on what it copies. *)

From S2P Require Import Prelude GoErrors Text Validation Json Document Mime.

Class JSONPatch := {
  jpatch : Type;
  jpMerge : bytes -> bytes -> error + bytes;
  jpDecode : bytes -> error + jpatch;
  (** [ApplyWithOptions] without negative indices, with the given limit. *)
  jpApply : jpatch -> bytes -> Z -> error + bytes;
}.

Section Patch.
Context `{JSONPatch}.

(** What the library makes of a document. *)
Definition patched (document body mediaType : bytes) (maxBytes : Z) : error + bytes :=
  if bool_decide (mediaType = mergePatchType) then jpMerge document body
  else match jpDecode body with
       | inl e => inl e
       | inr patch => jpApply patch document maxBytes
       end.

Definition applyPatch (document body mediaType : bytes) (maxBytes : Z) : res bytes :=
  if negb (bool_decide (mediaType = mergePatchType)) && negb (bool_decide (mediaType = jsonPatchType))
  then Err errInvalidPatch
  else
    match patched document body mediaType maxBytes with
    | inl e => if errorsAsCopySize e then Err errBodyTooLarge else Err (wrapf errInvalidPatch)
    | inr result =>
        match validateDoc result maxBytes with
        | Err e => if errorsIs errBodyTooLarge e then Err e else Err (wrapf errInvalidPatch)
        | r => r
        end
    end.

(** ** Lemmas *)

(** What a patch produces is a document as [validateDoc] leaves it. *)
Lemma applyPatch_ok document body mediaType maxBytes out :
  applyPatch document body mediaType maxBytes = Ok out ->
  exists result, patched document body mediaType maxBytes = inr result /\ validateDoc result maxBytes = Ok out.
Proof.
  unfold applyPatch. destruct (_ && _); [done|].
  destruct (patched _ _ _ _) as [e|result]; [by destruct (errorsAsCopySize e)|].
  destruct (validateDoc result maxBytes) as [d|e|] eqn:Hv; [| |done].
  - intros ->%Ok_inj. by exists result.
  - by destruct (errorsIs errBodyTooLarge e).
Qed.

Lemma applyPatch_err document body mediaType maxBytes e :
  applyPatch document body mediaType maxBytes = Err e ->
  e = errBodyTooLarge \/ errorsIs errInvalidPatch e = true /\ errorsIs errBodyTooLarge e = false.
Proof.
  unfold applyPatch. destruct (_ && _); [intros [= <-]; by right|].
  destruct (patched _ _ _ _) as [e'|result].
  { destruct (errorsAsCopySize e'); intros [= <-]; [by left|by right]. }
  destruct (validateDoc result maxBytes) as [d|e'|] eqn:Hv; [done| |done].
  destruct (errorsIs errBodyTooLarge e') eqn:He; intros [= <-]; [|by right].
  left. pose proof (validateDoc_err result maxBytes e' Hv) as [->| ->]; done.
Qed.

Lemma applyPatch_total document body mediaType maxBytes : applyPatch document body mediaType maxBytes <> OutOfFuel.
Proof.
  unfold applyPatch. destruct (_ && _); [done|].
  destruct (patched _ _ _ _) as [e|result]; [by destruct (errorsAsCopySize e)|].
  pose proof (validateDoc_total result maxBytes) as Ht.
  destruct (validateDoc result maxBytes) as [d|e|]; [done| |done]. by destruct (errorsIs _ e).
Qed.
End Patch.
