(* ===== verification/Locks.v ===== *)
(** * Locks

    The striped locks of storage.go.  The model of the store runs one operation at
    a time; this file models what makes that right for concurrent requests: the
    locks each operation takes around its accesses, the semantics of Go's locks as
    steps of threads, and that operations that conflict exclude each other while
    no set of operations ever blocks for good. *)

From S2P Require Import Prelude.
From stdpp Require Import relations.

#[local] Open Scope Z_scope.

(** ** Stripes *)

Definition dbStripeCount : Z := 64.
Definition docStripeCount : Z := 256.
Definition fnvOffset : Z := 14695981039346656037.
Definition fnvPrime : Z := 1099511628211.

(** Multiplication on [uint64] wraps around. *)
Fixpoint hashPart (hash : Z) (value : bytes) : Z :=
  match value with
  | [] => hash
  | c :: value' => hashPart ((Z.lxor hash (b2z c) * fnvPrime) mod 2 ^ 64) value'
  end.

Definition docStripe (database id : bytes) : Z :=
  let hash := hashPart fnvOffset database in
  let hash := hashPart (hashPart hash [x00]) id in
  Z.land hash (docStripeCount - 1).

Inductive lock :=
  | DbStripe (stripe : Z)
  | DocStripe (stripe : Z).

#[global] Instance lock_eq_dec : EqDecision lock.
Proof. solve_decision. Defined.

Definition dbLock (database : bytes) : lock :=
  DbStripe (Z.land (hashPart fnvOffset database) (dbStripeCount - 1)).

Definition docLock (database id : bytes) : lock := DocStripe (docStripe database id).

(** ** What an operation does with locks *)

Inductive mode := Read | Write.

#[global] Instance mode_eq_dec : EqDecision mode.
Proof. solve_decision. Defined.

(** What an operation touches: the record and the index definitions of a database;
    these and all the database holds; some documents; these and their index
    entries; and all documents through one view, a single [Get], iterator or
    snapshot.  A [ProbeDocs] reads documents to find out that an ID is taken, and
    what it has read is dropped. *)
Inductive access :=
  | ReadDb (database : bytes)
  | WriteDb (database : bytes)
  | ReadDocs (database : bytes) (ids : list bytes)
  | ProbeDocs (database : bytes) (ids : list bytes)
  | WriteDocs (database : bytes) (ids : list bytes)
  | ViewDocs (database : bytes).

Inductive action :=
  | Acquire (l : lock) (m : mode)
  | Release (l : lock) (m : mode)
  | Access (x : access).

(** [Lock] with a deferred [Unlock] around a body. *)
Definition locked (l : lock) (m : mode) (body : list action) : list action :=
  Acquire l m :: body ++ [Release l m].

(** The stripes of the documents, in ascending order. *)
Definition stripesOf (database : bytes) (ids : list bytes) : list Z :=
  filter (fun stripe => stripe ∈ map (docStripe database) ids) (seqZ 0 docStripeCount).

Definition lockDocs (stripes : list Z) : list action :=
  map (fun stripe => Acquire (DocStripe stripe) Write) stripes.

Definition unlockDocs (stripes : list Z) : list action :=
  map (fun stripe => Release (DocStripe stripe) Write) (reverse stripes).

(** An operation that ends with an error makes the first [k] of its accesses. *)
Definition accesses (k : nat) (l : list access) : list action := map Access (take k l).

(** [createDB] and [deleteDB]. *)
Definition writeDbPlan (name : bytes) (k : nat) : list action :=
  locked (dbLock name) Write (accesses k [WriteDb name]).

(** [getDoc], [listDocs], [exportDocs] and the queries. *)
Definition readDbPlan (database : bytes) (k : nat) : list action :=
  locked (dbLock database) Read (accesses k [ReadDb database; ViewDocs database]).

(** [createDocWithID], [replaceDoc], [patchDoc] and [deleteDoc]. *)
Definition writeDocPlan (database id : bytes) (k : nat) : list action :=
  locked (dbLock database) Read
    (locked (docLock database id) Write
       (accesses k [ReadDb database; ReadDocs database [id]; WriteDocs database [id]])).

(** One round of the loop that draws IDs: the locks of the last one are kept for the
    import. *)
Definition importRound (database : bytes) (body : list action) (ids : list bytes) : list action :=
  let stripes := stripesOf database ids in
  lockDocs stripes ++ body ++ unlockDocs stripes.

(** [importDocs]: [taken] are the draws that met a document, [ids] the last. *)
Definition importPlan (database : bytes) (taken : list (list bytes)) (ids : list bytes) (k : nat) : list action :=
  locked (dbLock database) Read
    (Access (ReadDb database)
       :: concat (map (fun draw => importRound database [Access (ProbeDocs database draw)] draw) taken)
       ++ importRound database (accesses k [ReadDocs database ids; WriteDocs database ids]) ids).

Inductive call :=
  | CallWriteDb (name : bytes)
  | CallReadDb (database : bytes)
  | CallWriteDoc (database id : bytes)
  | CallImport (database : bytes) (taken : list (list bytes)) (ids : list bytes).

(** A call, and where an error ends it. *)
Definition lockPlan (c : call * nat) : list action :=
  match c.1 with
  | CallWriteDb name => writeDbPlan name c.2
  | CallReadDb database => readDbPlan database c.2
  | CallWriteDoc database id => writeDocPlan database id c.2
  | CallImport database taken ids => importPlan database taken ids c.2
  end.

(** ** Threads

    [sync.RWMutex]: a writer first announces itself, which only one can do at a
    time and which keeps new readers out, and then waits for the readers to
    leave; a [sync.Mutex] is used by writers only. *)

Record thread := Thread {
  th_held : list (lock * mode);
  th_pending : option lock;
  th_todo : list action;
}.

Notation system := (list thread).

(** No thread writes or is about to write. *)
Definition noWriter (s : system) (l : lock) : Prop :=
  Forall (fun th => (l, Write) ∉ th_held th /\ th_pending th <> Some l) s.

Definition noReader (s : system) (l : lock) : Prop := Forall (fun th => (l, Read) ∉ th_held th) s.

(** A step, with the access it makes if it is one. *)
Inductive does (s : system) : list (nat * access) -> system -> Prop :=
  | does_read i held l rest :
      s !! i = Some (Thread held None (Acquire l Read :: rest)) -> noWriter s l ->
      does s [] (<[i := Thread ((l, Read) :: held) None rest]> s)
  | does_announce i held l rest :
      s !! i = Some (Thread held None (Acquire l Write :: rest)) -> noWriter s l ->
      does s [] (<[i := Thread held (Some l) (Acquire l Write :: rest)]> s)
  | does_write i held l rest :
      s !! i = Some (Thread held (Some l) (Acquire l Write :: rest)) -> noReader s l ->
      does s [] (<[i := Thread ((l, Write) :: held) None rest]> s)
  | does_release i held l m rest :
      s !! i = Some (Thread ((l, m) :: held) None (Release l m :: rest)) ->
      does s [] (<[i := Thread held None rest]> s)
  | does_access i held x rest :
      s !! i = Some (Thread held None (Access x :: rest)) ->
      does s [(i, x)] (<[i := Thread held None rest]> s).

Definition step (s s' : system) : Prop := exists e, does s e s'.

Definition start (calls : list (call * nat)) : system := map (fun c => Thread [] None (lockPlan c)) calls.

Definition finished (s : system) : Prop := Forall (fun th => th_todo th = []) s.

Definition accessDb (x : access) : bytes :=
  match x with
  | ReadDb n | WriteDb n | ReadDocs n _ | ProbeDocs n _ | WriteDocs n _ | ViewDocs n => n
  end.

(** The documents an access makes under their locks. *)
Definition lockedIDs (x : access) : list bytes :=
  match x with ReadDocs _ ids | ProbeDocs _ ids | WriteDocs _ ids => ids | _ => [] end.

Definition share (x y : access) : Prop := exists id, id ∈ lockedIDs x /\ id ∈ lockedIDs y.

(** The accesses that may not overlap. *)
Definition conflict (x y : access) : Prop :=
  accessDb x = accessDb y /\
  match x, y with
  | WriteDb _, _ | _, WriteDb _ => True
  | WriteDocs _ _, _ | _, WriteDocs _ _ => share x y
  | _, _ => False
  end.

(** The thread is in the section that makes the access. *)
Definition accessing (s : system) (i : nat) (x : access) : Prop :=
  exists th rest, s !! i = Some th /\ th_todo th = Access x :: rest.

(** ** The discipline of the plans

    Locks are taken in ascending order of rank and released in the order opposite
    to that of their acquisition, accesses are made under the locks that cover
    them, and nothing is held in the end. *)

Definition rank (l : lock) : Z :=
  match l with DbStripe stripe => stripe | DocStripe stripe => dbStripeCount + stripe end.

Definition maxRank : Z := dbStripeCount + docStripeCount.

Definition reading (held : list (lock * mode)) (database : bytes) : Prop :=
  exists m, (dbLock database, m) ∈ held.

Definition covered (held : list (lock * mode)) (x : access) : Prop :=
  reading held (accessDb x) /\
  (forall id, id ∈ lockedIDs x -> (docLock (accessDb x) id, Write) ∈ held) /\
  match x with WriteDb n => (dbLock n, Write) ∈ held | _ => True end.

Fixpoint ordered (held : list (lock * mode)) (todo : list action) : Prop :=
  match todo with
  | [] => held = []
  | Acquire l m :: todo' =>
      (rank l < maxRank /\ Forall (fun h => rank h.1 < rank l) held) /\ ordered ((l, m) :: held) todo'
  | Release l m :: todo' =>
      match held with h :: held' => h = (l, m) /\ ordered held' todo' | [] => False end
  | Access x :: todo' => covered held x /\ ordered held todo'
  end.

Lemma land_ones_range a n : 0 <= n -> 0 <= Z.land a (2 ^ n - 1) < 2 ^ n.
Proof.
  intros Hn. replace (2 ^ n - 1) with (Z.ones n) by (rewrite Z.ones_equiv; lia).
  rewrite Z.land_ones by done. apply Z.mod_pos_bound. lia.
Qed.

Lemma docStripe_range database id : 0 <= docStripe database id < docStripeCount.
Proof. apply (land_ones_range _ 8). lia. Qed.

Lemma dbLock_rank database : rank (dbLock database) < dbStripeCount.
Proof. apply (land_ones_range _ 6). lia. Qed.

Lemma elem_stripesOf database ids stripe :
  stripe ∈ stripesOf database ids <-> exists id, id ∈ ids /\ stripe = docStripe database id.
Proof.
  unfold stripesOf. rewrite list_elem_of_filter, elem_of_seqZ, list_elem_of_fmap. split.
  - intros [(id & -> & ?) _]. by exists id.
  - intros (id & Hin & ->). pose proof (docStripe_range database id). split; [by exists id|]. lia.
Qed.

Lemma seqZ_sorted m n : StronglySorted Z.lt (seqZ m n).
Proof.
  unfold seqZ. generalize (Z.to_nat n) as k. intros k. generalize 0%nat as i.
  induction k as [|k IH]; intros i; cbn [seq fmap list_fmap]; constructor; [apply IH|].
  apply Forall_forall. intros z (j & -> & Hj)%list_elem_of_fmap. apply elem_of_seq in Hj. lia.
Qed.

Lemma stripesOf_sorted database ids : StronglySorted Z.lt (stripesOf database ids).
Proof. apply ssorted_filter, seqZ_sorted. Qed.

Definition docHeld (stripes : list Z) : list (lock * mode) :=
  map (fun stripe => (DocStripe stripe, Write)) (reverse stripes).

Lemma ordered_unlockDocs stripes held todo :
  ordered held todo -> ordered (docHeld stripes ++ held) (unlockDocs stripes ++ todo).
Proof.
  intros Ho. unfold docHeld, unlockDocs. by induction (reverse stripes) as [|stripe l IH].
Qed.

Lemma ordered_lockDocs stripes held todo :
  StronglySorted Z.lt stripes -> Forall (fun stripe => 0 <= stripe < docStripeCount) stripes ->
  Forall (fun h => rank h.1 < dbStripeCount) held ->
  ordered (docHeld stripes ++ held) todo -> ordered held (lockDocs stripes ++ todo).
Proof.
  intros HS HR Hheld. assert (forall done,
    (forall a b, a ∈ done -> b ∈ stripes -> a < b) ->
    ordered (docHeld stripes ++ docHeld done ++ held) todo ->
    ordered (docHeld done ++ held) (lockDocs stripes ++ todo)) as Hgen.
  { induction HS as [|stripe stripes HS IH HF]; intros taken Ht Ho; [done|].
    inversion HR as [|? ? Hr HR']; subst. cbn [lockDocs map app ordered].
    assert (docHeld (taken ++ [stripe]) = (DocStripe stripe, Write) :: docHeld taken) as E.
    { unfold docHeld. by rewrite reverse_snoc. }
    split.
    - split; [unfold maxRank, rank; lia|]. apply Forall_app. split.
      + apply Forall_forall. intros h (z & -> & Hz)%list_elem_of_fmap. rewrite elem_of_reverse in Hz.
        cbn [fst rank]. specialize (Ht z stripe Hz (list_elem_of_here _ _)). lia.
      + eapply Forall_impl; [exact Hheld|]. intros h. cbn [rank]. lia.
    - rewrite app_comm_cons, <- E. apply IH; [done| |].
      + intros a b Ha Hb. apply elem_of_app in Ha as [Ha|Ha].
        * apply Ht; [done|]. by apply list_elem_of_further.
        * apply list_elem_of_singleton in Ha as ->. rewrite Forall_forall in HF. by apply HF.
      + rewrite E. unfold docHeld in Ho. rewrite reverse_cons, map_app, <- app_assoc in Ho. exact Ho. }
  intros Ho. apply (Hgen []); [by intros a b ?%elem_of_nil|]. exact Ho.
Qed.

Lemma ordered_accesses k l held todo :
  Forall (covered held) l -> ordered held todo -> ordered held (accesses k l ++ todo).
Proof.
  intros HF Ho. apply (Forall_take _ k) in HF. unfold accesses. by induction HF as [|x l' Hx HF IH].
Qed.

Lemma docHeld_lock database ids id :
  id ∈ ids -> (docLock database id, Write) ∈ docHeld (stripesOf database ids).
Proof.
  intros Hid. apply list_elem_of_fmap. exists (docStripe database id). split; [done|].
  rewrite elem_of_reverse. apply elem_stripesOf. by exists id.
Qed.

Lemma reading_head n m held : reading ((dbLock n, m) :: held) n.
Proof. exists m. apply list_elem_of_here. Qed.

Lemma reading_app n held held' : reading held n -> reading (held' ++ held) n.
Proof. intros [m Hm]. exists m. apply elem_of_app. by right. Qed.
Hint Resolve reading_head reading_app : core.

Lemma covered_docs held n ids x :
  reading held n -> accessDb x = n -> (forall id, id ∈ lockedIDs x -> id ∈ ids) -> (forall m, x <> WriteDb m) ->
  covered (docHeld (stripesOf n ids) ++ held) x.
Proof.
  intros Hr <- Hids Hx. split; [by auto|]. split; [|by destruct x; try done; destruct (Hx database)].
  intros id Hid. apply elem_of_app. left. by apply docHeld_lock, Hids.
Qed.

Lemma ordered_round n k body ids held todo :
  Forall (fun h => rank h.1 < dbStripeCount) held ->
  Forall (covered (docHeld (stripesOf n ids) ++ held)) body ->
  ordered held todo -> ordered held (importRound n (accesses k body) ids ++ todo).
Proof.
  intros Hheld Hb Ho. unfold importRound. rewrite <- !app_assoc.
  apply ordered_lockDocs; [apply stripesOf_sorted| |done|].
  - apply Forall_forall. intros z (id & _ & ->)%elem_stripesOf. apply docStripe_range.
  - apply ordered_accesses; [done|]. by apply ordered_unlockDocs.
Qed.

Lemma ordered_importPlan n taken ids k : ordered [] (importPlan n taken ids k).
Proof.
  unfold importPlan, locked. cbn [app]. pose proof (dbLock_rank n) as Hr.
  split; [split; [unfold maxRank, docStripeCount; lia|done]|]. split; [by split; [auto|split; [by intros ? ?%elem_of_nil|]]|].
  assert (Forall (fun h => rank h.1 < dbStripeCount) [(dbLock n, Read)]) as Hheld by by constructor.
  rewrite <- app_assoc. induction taken as [|draw taken IH]; cbn [map concat app].
  - apply ordered_round; [done| |done]. rewrite ?Forall_cons, Forall_nil; split_and!; try done; apply covered_docs; auto; done.
  - rewrite <- app_assoc. apply (ordered_round _ 1 [ProbeDocs n draw]); [done| |exact IH].
    rewrite ?Forall_cons, Forall_nil; split_and!; try done; apply covered_docs; auto; done.
Qed.

Lemma lockPlan_ordered c : ordered [] (lockPlan c).
Proof.
  destruct c as [[n|n|n id|n taken ids] k]; [| | |apply ordered_importPlan];
    unfold lockPlan; cbn [fst snd]; unfold writeDbPlan, readDbPlan, writeDocPlan, locked; cbn [app ordered];
    pose proof (dbLock_rank n) as Hr.
  1-2: split; [split; [unfold maxRank, docStripeCount; lia|done]|]; apply ordered_accesses; [|done].
  1-2: rewrite ?Forall_cons, Forall_nil; split_and!; try done; split_and!; auto; try (by intros ? ?%elem_of_nil); apply list_elem_of_here.
  pose proof (docStripe_range n id) as Hd. split; [split; [unfold maxRank, docStripeCount; lia|done]|].
  split; [split; [unfold maxRank, docLock, rank; lia|]|].
  { constructor; [|done]. unfold docLock. cbn [fst rank] in *. lia. }
  rewrite <- app_assoc. apply ordered_accesses; [|done].
  assert (reading [(docLock n id, Write); (dbLock n, Read)] n) as Hrd
    by (exists Read; apply list_elem_of_further, list_elem_of_here).
  rewrite !Forall_cons, Forall_nil; split_and!; try done; split_and!; try done; try (by intros ? ?%elem_of_nil);
    intros id' ->%list_elem_of_singleton; apply list_elem_of_here.
Qed.

(** ** The invariant *)

Definition wfThread (th : thread) : Prop :=
  ordered (th_held th) (th_todo th) /\
  forall l, th_pending th = Some l -> exists rest, th_todo th = Acquire l Write :: rest.

(** What a thread holds or announces and what another may. *)
Definition compat (a b : thread) : Prop :=
  forall l, ((l, Write) ∈ th_held a -> forall m, (l, m) ∉ th_held b) /\
            ((l, Write) ∈ th_held a -> th_pending b <> Some l) /\
            (th_pending a = Some l -> th_pending b <> Some l).

Definition apart (a b : thread) : Prop := compat a b /\ compat b a.

Definition wfSystem (s : system) : Prop :=
  Forall wfThread s /\
  forall i j a b, i <> j -> s !! i = Some a -> s !! j = Some b -> compat a b.

Lemma wfSystem_start calls : wfSystem (start calls).
Proof.
  split.
  - apply Forall_map, Forall_true. intros c. split; [apply lockPlan_ordered|done].
  - intros i j a b _ Ha _. apply list_lookup_fmap_Some in Ha as (c & -> & _).
    intros l. cbn. split; [by intros ?%elem_of_nil|]. split; [by intros ?%elem_of_nil|done].
Qed.

Lemma wfSystem_insert s i th th' :
  wfSystem s -> s !! i = Some th -> wfThread th' ->
  (forall b, b ∈ s -> apart th b -> apart th' b) -> wfSystem (<[i := th']> s).
Proof.
  intros [HT HC] Hi Hth' Hap. split; [by apply Forall_insert|].
  assert (forall j b, i <> j -> s !! j = Some b -> apart th' b) as Hap'.
  { intros j b Hne Hj. apply Hap; [by eapply list_elem_of_lookup_2|].
    split; [by apply (HC i j)|by apply (HC j i)]. }
  intros j k a b Hjk Ha Hb.
  apply list_lookup_insert_Some in Ha as [(<- & <- & _)|[Hj Ha]];
    apply list_lookup_insert_Some in Hb as [(<- & <- & _)|[Hk Hb]]; [done| | |by apply (HC j k)].
  - by apply (Hap' k).
  - by apply (Hap' j).
Qed.

Lemma wf_head s i th : wfSystem s -> s !! i = Some th -> wfThread th.
Proof. intros [HT _] Hi. by eapply Forall_lookup_1. Qed.

Lemma wf_step s s' : wfSystem s -> step s s' -> wfSystem s'.
Proof.
  intros Hwf [e Hs]. destruct Hs as [i held l rest Hi Hn|i held l rest Hi Hn|i held l rest Hi Hn
    |i held l m rest Hi|i held x rest Hi];
    pose proof (wf_head _ _ _ Hwf Hi) as [Ho Hp]; cbn [th_held th_todo th_pending ordered] in Ho, Hp;
    apply (wfSystem_insert _ _ _ _ Hwf Hi);
    try (split; [cbn [th_held th_todo ordered]; naive_solver|cbn [th_pending th_todo]; naive_solver]);
    intros b Hb [H1 H2]; try (unfold noWriter, noReader in Hn; rewrite Forall_forall in Hn; specialize (Hn b Hb)).
  - (* read *)
    split; intros k; destruct (H1 k) as (A1 & A2 & A3); destruct (H2 k) as (B1 & B2 & B3);
      cbn [th_held th_pending] in *.
    + split; [intros [[=]|Hk]%elem_of_cons; by apply A1|].
      split; [intros [[=]|Hk]%elem_of_cons; by apply A2|done].
    + split; [|done]. intros Hk m [E|Hm]%elem_of_cons; [|by apply (B1 Hk m)].
      injection E as -> ->. by apply (proj1 Hn).
  - (* announce *)
    split; intros k; destruct (H1 k) as (A1 & A2 & A3); destruct (H2 k) as (B1 & B2 & B3);
      cbn [th_held th_pending] in *.
    + split; [done|]. split; [done|]. intros [= <-]. apply Hn.
    + split; [done|]. split; intros Hk [= ->]; destruct Hn as [Hn1 Hn2]; by auto.
  - (* write *)
    split; intros k; destruct (H1 k) as (A1 & A2 & A3); destruct (H2 k) as (B1 & B2 & B3);
      cbn [th_held th_pending] in *.
    + split; [|split; [|done]]; intros [E|Hk]%elem_of_cons; [|by apply A1| |by apply A2];
        injection E as ->; [|by apply A3].
      intros [] Hm; [done|]. by apply (B2 Hm).
    + split; [|done]. intros Hk m [E|Hm]%elem_of_cons; [|by apply (B1 Hk m)].
      injection E as -> ->. by apply (B2 Hk).
  - (* release *)
    split; intros k; destruct (H1 k) as (A1 & A2 & A3); destruct (H2 k) as (B1 & B2 & B3);
      cbn [th_held th_pending] in *.
    + split; [intros Hk; apply A1; by right|]. split; [intros Hk; apply A2; by right|done].
    + split; [|done]. intros Hk m' Hm'. apply (B1 Hk m'). by right.
  - done.
Qed.

Lemma wf_reachable calls s : rtc step (start calls) s -> wfSystem s.
Proof.
  intros Hs. assert (wfSystem (start calls)) as Hwf by apply wfSystem_start. revert Hwf.
  induction Hs as [|s1 s2 s3 H12 _ IH]; [done|]. intros Hwf. apply IH. by eapply wf_step.
Qed.

Lemma accessing_covered s i x :
  wfSystem s -> accessing s i x -> exists th, s !! i = Some th /\ covered (th_held th) x.
Proof.
  intros Hwf (th & rest & Hi & Ht). exists th. split; [done|].
  destruct (wf_head _ _ _ Hwf Hi) as [Ho _]. rewrite Ht in Ho. apply Ho.
Qed.

(** Accesses under locks that exclude each other do not conflict. *)
Definition exclude (held held' : list (lock * mode)) : Prop :=
  forall l m, (l, Write) ∈ held -> (l, m) ∉ held'.

Lemma covered_exclude held held' x y :
  exclude held held' -> exclude held' held -> covered held x -> covered held' y -> ~ conflict x y.
Proof.
  intros Hab Hba ([mx Hx] & Hdx & Hwx) ([my Hy] & Hdy & Hwy) [E Hc]. rewrite <- E in *.
  assert ((exists n, x = WriteDb n) \/ (exists n, y = WriteDb n) \/ share x y) as [[n ->]|[[n ->]|(id & Hi & Hj)]]
    by (destruct x, y; eauto; done).
  - by apply (Hab _ _ Hwx) in Hy.
  - cbn in E. subst n. by apply (Hba _ _ Hwy) in Hx.
  - by apply (Hab _ Write (Hdx id Hi)), Hdy.
Qed.

Lemma wf_exclude s i j a b :
  wfSystem s -> i <> j -> s !! i = Some a -> s !! j = Some b -> exclude (th_held a) (th_held b).
Proof. intros [_ HC] Hij Ha Hb l m Hl. exact (proj1 (HC i j a b Hij Ha Hb l) Hl m). Qed.

(** ** Progress *)

(** Whoever holds a lock can go on or waits for a lock of a higher rank. *)
Lemma holder_moves s j th l m :
  wfSystem s -> s !! j = Some th -> (l, m) ∈ th_held th ->
  (exists s', step s s') \/ exists l' m' rest, th_todo th = Acquire l' m' :: rest /\ rank l < rank l'.
Proof.
  intros Hwf Hj Hl. destruct (wf_head _ _ _ Hwf Hj) as [Ho Hp].
  destruct th as [held pending [|[l' m'|l' m'|x] rest]]; cbn [th_held th_pending th_todo ordered] in *.
  - subst held. by apply elem_of_nil in Hl.
  - right. exists l', m', rest. split; [done|]. destruct Ho as [[_ HF] _].
    rewrite Forall_forall in HF. exact (HF (l, m) Hl).
  - left. destruct pending as [k|]; [by destruct (Hp k eq_refl)|].
    destruct held as [|h held]; [done|]. destruct Ho as [-> _]. eexists _, _. by eapply does_release.
  - left. destruct pending as [k|]; [by destruct (Hp k eq_refl)|]. eexists _, _. by eapply does_access.
Qed.

#[global] Instance noWriter_dec s l : Decision (noWriter s l).
Proof. apply _. Defined.
#[global] Instance noReader_dec s l : Decision (noReader s l).
Proof. apply _. Defined.

(** A thread that waits for a lock is not the end: by induction on how far the
    rank of the lock is from the highest. *)
Lemma waiting_moves s i th l m rest :
  wfSystem s -> s !! i = Some th -> th_todo th = Acquire l m :: rest -> exists s', step s s'.
Proof.
  intros Hwf. remember (Z.to_nat (maxRank - rank l)) as k eqn:Hk.
  revert i th l m rest Hk. induction (lt_wf k) as [k _ IH]. intros i th l m rest -> Hi Ht.
  assert (forall j th' m', s !! j = Some th' -> (l, m') ∈ th_held th' -> exists s', step s s') as Hheld.
  { intros j th' m' Hj Hl. destruct (holder_moves s j th' l m' Hwf Hj Hl) as [?|(l' & m2 & r & Hr & Hlt)];
      [done|]. eapply (IH (Z.to_nat (maxRank - rank l'))); [|done|exact Hj|exact Hr].
    destruct (wf_head _ _ _ Hwf Hj) as [Ho _]. rewrite Hr in Ho. destruct Ho as [[Hmax _] _]. lia. }
  assert (noReader s l \/ exists s', step s s') as Hreaders.
  { destruct (decide (noReader s l)) as [|Hn]; [by left|right]. apply not_Forall_Exists in Hn; [|apply _].
    apply Exists_exists in Hn as (b & [j Hj]%list_elem_of_lookup & Hb). apply dec_stable in Hb. by eapply Hheld. }
  assert (noWriter s l \/ exists s', step s s') as Hwriters.
  { destruct (decide (noWriter s l)) as [|Hn]; [by left|right]. apply not_Forall_Exists in Hn; [|apply _].
    apply Exists_exists in Hn as (b & [j Hj]%list_elem_of_lookup & Hb).
    destruct (decide ((l, Write) ∈ th_held b)) as [Hw|Hw]; [by eapply Hheld|].
    destruct (decide (th_pending b = Some l)) as [Hp|Hp]; [|by destruct Hb].
    destruct Hreaders as [Hr|]; [|done]. destruct (wf_head _ _ _ Hwf Hj) as [_ Hpend].
    destruct (Hpend l Hp) as [r Htodo]. destruct b as [held pending todo].
    cbn [th_held th_pending th_todo] in *. subst. eexists _, _. by eapply does_write. }
  destruct th as [held pending todo]. cbn [th_todo] in Ht. subst todo.
  destruct pending as [k|].
  - destruct (wf_head _ _ _ Hwf Hi) as [_ Hpend]. destruct (Hpend k eq_refl) as [r [= <- -> _]].
    destruct Hreaders as [Hr|]; [|done]. eexists _, _. by eapply does_write.
  - destruct Hwriters as [Hw|]; [|done]. destruct m; eexists _, _; [by eapply does_read|by eapply does_announce].
Qed.

Lemma progress s : wfSystem s -> finished s \/ exists s', step s s'.
Proof.
  intros Hwf. destruct (decide (Forall (fun th => th_todo th = []) s)) as [|Hn]; [by left|right].
  apply not_Forall_Exists in Hn; [|intros th; destruct (th_todo th); [by left|by right]].
  apply Exists_exists in Hn as (th & [i Hi]%list_elem_of_lookup & Ht).
  destruct (th_todo th) as [|[l m|l m|x] rest] eqn:E; [done| | |].
  - by eapply waiting_moves.
  - destruct (wf_head _ _ _ Hwf Hi) as [Ho Hp]. destruct th as [held pending todo].
    cbn [th_held th_pending th_todo] in *. subst todo. destruct pending as [k|]; [by destruct (Hp k eq_refl)|].
    destruct held as [|h held]; [done|]. destruct Ho as [-> _]. eexists _, _. by eapply does_release.
  - destruct (wf_head _ _ _ Hwf Hi) as [_ Hp]. destruct th as [held pending todo].
    cbn [th_held th_pending th_todo] in *. subst todo. destruct pending as [k|]; [by destruct (Hp k eq_refl)|].
    eexists _, _. by eapply does_access.
Qed.

(** ** Termination *)

Definition threadWeight (th : thread) : nat :=
  (2 * length (th_todo th) - match th_pending th with Some _ => 1 | None => 0 end)%nat.

Definition weight (s : system) : nat := sum_list_with threadWeight s.

Lemma weight_insert s i th th' :
  s !! i = Some th -> (weight (<[i := th']> s) + threadWeight th = weight s + threadWeight th')%nat.
Proof. apply sum_list_insert. Qed.

Lemma step_weight s s' : step s s' -> (weight s' < weight s)%nat.
Proof.
  intros [e Hs]. destruct Hs as [i held l rest Hi Hn|i held l rest Hi Hn|i held l rest Hi Hn
    |i held l m rest Hi|i held x rest Hi];
    match goal with |- context [<[_ := ?th']> _] => pose proof (weight_insert _ _ _ th' Hi) as E end;
    unfold threadWeight in E at 2 3 || unfold threadWeight in E; cbn [th_pending th_todo length] in E; lia.
Qed.

(** ** Theorems *)

(** C18: operations that conflict never overlap: in whatever way the threads are
    interleaved, no two of them are at accesses of which one writes a database the
    other uses, or one writes a document the other reads under its lock or
    writes. *)
Theorem locks_exclude calls s i j x y :
  rtc step (start calls) s -> i <> j -> accessing s i x -> accessing s j y -> ~ conflict x y.
Proof.
  intros Hs Hij Hx Hy. apply wf_reachable in Hs as Hwf.
  destruct (accessing_covered s i x Hwf Hx) as (a & Ha & Hca).
  destruct (accessing_covered s j y Hwf Hy) as (b & Hb & Hcb).
  eapply covered_exclude; [by apply (wf_exclude s i j)|by apply (wf_exclude s j i)|done|done].
Qed.

(** C19: the operations never block each other for good and always finish: a run
    has no more steps than twice the locks and accesses of the operations, and
    where it cannot go on every operation is done and has released its locks. *)
Theorem locks_finish calls n s :
  nsteps step n (start calls) s ->
  (n + weight s <= 2 * length (concat (map lockPlan calls)))%nat /\
  ((forall s', ~ step s s') ->
     finished s /\ Forall (fun th => th_held th = [] /\ th_pending th = None) s).
Proof.
  intros Hn. assert (n + weight s <= weight (start calls))%nat as Hw.
  { induction Hn as [|m s1 s2 s3 H12 _ IH]; [done|]. apply step_weight in H12. lia. }
  assert (wfSystem s) as Hwf by (by eapply wf_reachable, rtc_nsteps_2; exact Hn).
  split.
  - etransitivity; [exact Hw|]. unfold weight, start. clear. induction calls as [|c calls IH]; [done|].
    cbn [map sum_list_with concat]. rewrite length_app. unfold threadWeight at 1. cbn [th_pending th_todo]. lia.
  - intros Hstuck. destruct (progress s Hwf) as [Hf|[s' Hs']]; [|by destruct (Hstuck s')]. split; [done|].
    destruct Hwf as [HT _]. unfold finished in Hf. rewrite Forall_forall in HT, Hf. apply Forall_forall.
    intros th Hth. specialize (Hf th Hth). destruct (HT th Hth) as [Ho Hp]. rewrite Hf in Ho, Hp.
    split; [exact Ho|]. destruct (th_pending th) as [l|]; [by destruct (Hp l eq_refl)|done].
Qed.

(** ** The theorems at work *)

(** A deletion of one database while another is read. *)
Definition simCalls : list (call * nat) := [(CallWriteDb (str "a"), 1%nat); (CallReadDb (str "b"), 1%nat)].
Definition simTodo (n : bytes) (x : access) (m : mode) : list action :=
  [Access x; Release (dbLock n) m].

Definition simBusy : system :=
  [Thread [(dbLock (str "a"), Write)] None (simTodo (str "a") (WriteDb (str "a")) Write);
   Thread [(dbLock (str "b"), Read)] None (simTodo (str "b") (ReadDb (str "b")) Read)].

Lemma sim_busy : nsteps step 3 (start simCalls) simBusy.
Proof.
  eapply nsteps_l; [eexists; eapply (does_announce _ 0); [reflexivity|by apply (bool_decide_unpack _); vm_compute]|].
  eapply nsteps_l; [eexists; eapply (does_write _ 0); [reflexivity|by apply (bool_decide_unpack _); vm_compute]|].
  eapply nsteps_l; [eexists; eapply (does_read _ 1); [reflexivity|by apply (bool_decide_unpack _); vm_compute]|].
  apply nsteps_O.
Qed.

Lemma locks_exclude_witness : ~ conflict (WriteDb (str "a")) (ReadDb (str "b")).
Proof.
  apply (locks_exclude simCalls simBusy 0 1);
    [by eapply rtc_nsteps_2, sim_busy|done|by eexists _, _|by eexists _, _].
Defined.

Lemma locks_finish_witness : (3 + weight simBusy <= 12)%nat.
Proof. exact (proj1 (locks_finish simCalls 3 simBusy sim_busy)). Defined.
