(* ===== verification/Serial.v ===== *)
(** * One operation after another

    Operations that run at the same time under the locks of [Locks] have the effect
    of the same operations run one at a time, in the order of their last accesses.
    This is what lets the rest of the development run one operation at a time. *)

From S2P Require Import Prelude Locks.
From stdpp Require Import relations.

#[local] Open Scope Z_scope.

Notation trace := (list (nat * access)).

(** The run from [s], with the accesses it has made. *)
Inductive run (s0 : system) : trace -> system -> Prop :=
  | run_start : run s0 [] s0
  | run_does tr s e s' : run s0 tr s -> does s e s' -> run s0 (tr ++ e) s'.

Definition accessesOf (todo : list action) : list access :=
  omap (fun a => match a with Access x => Some x | _ => None end) todo.

(** The accesses of which one can change what the other finds or leaves.  A probe
    leaves nothing behind, so only the database it is in matters to it. *)
Definition depends (x y : access) : Prop :=
  accessDb x = accessDb y /\
  match x, y with
  | WriteDb _, _ | _, WriteDb _ => True
  | WriteDocs _ _, ViewDocs _ | ViewDocs _, WriteDocs _ _ => True
  | WriteDocs _ _, (WriteDocs _ _ | ReadDocs _ _) | ReadDocs _ _, WriteDocs _ _ => share x y
  | _, _ => False
  end.

(** A call alone, and calls one after another. *)
Definition block (calls : list (call * nat)) (i : nat) : trace :=
  match calls !! i with Some c => map (pair i) (accessesOf (lockPlan c)) | None => [] end.

Definition serial (calls : list (call * nat)) (order : list nat) : trace := concat (map (block calls) order).

(** The threads by their last accesses: of several places [remove_dups] keeps the
    last. *)
Definition serialOrder (tr : trace) : list nat := remove_dups tr.*1.

(** ** The plans keep what they have read *)

(** What ends an operation. *)
Definition final (x : access) : bool :=
  match x with WriteDb _ | WriteDocs _ _ | ViewDocs _ => true | _ => false end.

(** The locks that keep what an access has read as it is. *)
Definition lasting (held : list (lock * mode)) (x : access) : Prop :=
  reading held (accessDb x) /\
  match x with ReadDocs n ids => forall id, id ∈ ids -> (docLock n id, Write) ∈ held | _ => True end.

Definition calm (held : list (lock * mode)) (past : list access) : Prop :=
  Forall (fun x => final x = false /\ lasting held x) past.

(** Until the last access, the locks of all earlier ones are held. *)
Fixpoint strict (past : list access) (held : list (lock * mode)) (todo : list action) : Prop :=
  accessesOf todo = [] \/
  (calm held past /\
   match todo with
   | [] => True
   | Acquire l m :: todo' => strict past ((l, m) :: held) todo'
   | Release _ _ :: todo' => strict past (tail held) todo'
   | Access x :: todo' => strict (past ++ [x]) held todo'
   end).

Lemma strict_calm past held todo : strict past held todo -> accessesOf todo = [] \/ calm held past.
Proof. destruct todo; cbn [strict]; tauto. Qed.

Lemma strict_spent past held todo : accessesOf todo = [] -> strict past held todo.
Proof. destruct todo; by left. Qed.

Lemma lasting_mono held held' x : held ⊆ held' -> lasting held x -> lasting held' x.
Proof. intros Hs [[m Hm] Hx]. split; [exists m; by apply Hs|]. destruct x; auto. Qed.

Lemma calm_mono held held' past : held ⊆ held' -> calm held past -> calm held' past.
Proof. intros Hs Hp. eapply Forall_impl; [exact Hp|]. intros x [? ?]. split; [done|]. by eapply lasting_mono. Qed.

Lemma calm_snoc held past x : calm held past -> final x = false -> lasting held x -> calm held (past ++ [x]).
Proof. intros Hp Hf Hx. apply Forall_app. split; [done|]. by apply Forall_singleton. Qed.

Lemma docHeld_cons stripe stripes held :
  docHeld (stripe :: stripes) ++ held = docHeld stripes ++ (DocStripe stripe, Write) :: held.
Proof. unfold docHeld. by rewrite reverse_cons, map_app, <- app_assoc. Qed.

Lemma strict_lockDocs stripes past held todo :
  calm held past -> strict past (docHeld stripes ++ held) todo -> strict past held (lockDocs stripes ++ todo).
Proof.
  revert held. induction stripes as [|stripe stripes IH]; intros held Hc Hs; [done|].
  right. split; [done|]. apply IH; [|by rewrite <- docHeld_cons].
  eapply calm_mono; [|exact Hc]. by apply list_subseteq_cons.
Qed.

Lemma strict_unlockDocs stripes past held todo :
  calm held past -> strict past held todo -> strict past (docHeld stripes ++ held) (unlockDocs stripes ++ todo).
Proof.
  intros Hc Hs. unfold docHeld, unlockDocs. induction (reverse stripes) as [|stripe l IH]; [done|].
  right. split; [|exact IH]. eapply calm_mono; [|exact Hc].
  intros h Hh. apply elem_of_app. by right.
Qed.

Lemma accessesOf_unlockDocs stripes todo : accessesOf (unlockDocs stripes ++ todo) = accessesOf todo.
Proof. unfold unlockDocs. by induction (reverse stripes). Qed.

Lemma strict_rounds n taken ids k past :
  let held := [(dbLock n, Read)] in
  calm held past ->
  strict past held ((concat (map (fun draw => importRound n [Access (ProbeDocs n draw)] draw) taken)
    ++ importRound n (accesses k [ReadDocs n ids; WriteDocs n ids]) ids) ++ [Release (dbLock n) Read]).
Proof.
  cbv zeta. revert past. induction taken as [|draw taken IH]; intros past Hc; cbn [map concat app]; unfold importRound at 1;
    rewrite <- !app_assoc; apply strict_lockDocs; try done.
  - assert (forall held, held = docHeld (stripesOf n ids) ++ [(dbLock n, Read)] ->
      calm held past /\ lasting held (ReadDocs n ids)) as Hheld.
    { intros held ->. split; [eapply calm_mono; [|exact Hc]; intros h Hh; apply elem_of_app; by right|].
      split; [apply reading_app, reading_head|]. intros id Hid. apply elem_of_app. left. by apply docHeld_lock. }
    destruct (Hheld _ eq_refl) as [Hpast Hread]. unfold accesses.
    destruct k as [|[|k]]; cbn [take map app]; [apply strict_spent; by rewrite accessesOf_unlockDocs| |];
      right; (split; [done|]); [apply strict_spent; by rewrite accessesOf_unlockDocs|].
    right. split; [by apply calm_snoc|]. rewrite take_nil. apply strict_spent. cbn [map app]. by rewrite accessesOf_unlockDocs.
  - cbn [app]. right. split; [eapply calm_mono; [|exact Hc]; intros h Hh; apply elem_of_app; by right|].
    assert (calm [(dbLock n, Read)] (past ++ [ProbeDocs n draw])) as Hc'.
    { apply calm_snoc; [done|done|]. split; [apply reading_head|done]. }
    apply strict_unlockDocs; [done|]. rewrite app_assoc. by apply IH.
Qed.

Lemma lockPlan_strict c : strict [] [] (lockPlan c).
Proof.
  destruct c as [[n|n|n id|n taken ids] k]; unfold lockPlan; cbn [fst snd];
    unfold writeDbPlan, readDbPlan, writeDocPlan, importPlan, locked, accesses; cbn [app].
  4: { right. split; [constructor|]. right. split; [constructor|]. apply strict_rounds.
       apply Forall_singleton. split; [done|]. split; [apply reading_head|done]. }
  all: assert (calm [(dbLock n, Read)] [ReadDb n]) as Hr
    by (apply Forall_singleton; split; [done|split; [apply reading_head|done]]).
  - destruct k as [|k]; cbn [take map app]; [by left|]. rewrite take_nil.
    do 2 (right; split; [constructor|]). by left.
  - destruct k as [|[|k]]; cbn [take map app]; [by left|do 2 (right; split; [constructor|]); by left|]. rewrite take_nil.
    do 2 (right; split; [constructor|]). right. split; [done|]. by left.
  - assert (calm [(docLock n id, Write); (dbLock n, Read)] [ReadDb n]) as Hr2
      by (eapply calm_mono; [|exact Hr]; by apply list_subseteq_cons).
    destruct k as [|[|[|k]]]; cbn [take map app]; [by left| | |]; do 3 (right; split; [constructor|]); [by left| |];
      right; (split; [done|]); [by left|]. rewrite take_nil.
    right. split; [|by left]. apply calm_snoc; [done|done|]. split; [exists Read; apply list_elem_of_further, list_elem_of_here|].
    intros id' ->%list_elem_of_singleton. apply list_elem_of_here.
Qed.

Lemma lasting_independent held held' x y :
  exclude held held' -> exclude held' held -> final x = false -> lasting held x -> covered held' y -> ~ depends x y.
Proof.
  intros Hab Hba Hf [[m Hm] Hx] (_ & Hdy & Hwy) [E Hd].
  assert ((exists n, y = WriteDb n) \/ exists n ids, x = ReadDocs n ids /\ share x y) as [[n ->]|(n & ids & -> & id & Hi & Hj)]
    by (destruct x, y; eauto; done).
  - cbn in E. subst n. by apply (Hba _ _ Hwy) in Hm.
  - cbn in E. subst n. by apply (Hab _ Write (Hx id Hi)), Hdy.
Qed.

(** ** Moving accesses *)

Inductive swap : trace -> trace -> Prop :=
  | swap_at l i x j y l' :
      i <> j -> ~ depends x y -> swap (l ++ (i, x) :: (j, y) :: l') (l ++ (j, y) :: (i, x) :: l').

Notation reorders := (rtc swap).

Lemma reorders_app l1 l2 l l' : reorders l l' -> reorders (l1 ++ l ++ l2) (l1 ++ l' ++ l2).
Proof.
  induction 1 as [l|l l' l'' [pre i x j y post Hij Hd] _ IH]; [done|].
  eapply rtc_l; [|exact IH].
  change (?a ++ ?b :: ?c :: ?d) with (a ++ [b; c] ++ d). rewrite <- !app_assoc, (app_assoc l1), (app_assoc l1). cbn [app].
  by apply swap_at.
Qed.

Definition independent (e f : nat * access) : Prop := e.1 <> f.1 -> ~ depends e.2 f.2.

Lemma reorders_past e l :
  Forall (fun f => e.1 <> f.1 /\ independent e f) l -> reorders (e :: l) (l ++ [e]).
Proof.
  induction 1 as [|f l [Hne Hind] _ IH]; [done|]. destruct e as [i x], f as [j y]. cbn [app].
  eapply rtc_l; [apply (swap_at []); [done|by apply Hind]|]. cbn [app].
  apply (reorders_app [(j, y)] [] _ _) in IH. by rewrite !app_nil_r in IH.
Qed.

(** The accesses of one thread gathered at the front. *)
Lemma reorders_gather i tr :
  StronglySorted independent tr ->
  reorders tr (filter (fun e => e.1 = i) tr ++ filter (fun e => e.1 <> i) tr).
Proof.
  induction 1 as [|e tr _ IH HF]; [done|]. rewrite !filter_cons. destruct (decide (e.1 = i)) as [He|He].
  - rewrite decide_False by (intros Hn; by apply Hn). apply (reorders_app [e] [] _ _) in IH. by rewrite !app_nil_r in IH.
  - rewrite decide_True by done. etransitivity.
    + apply (reorders_app [e] [] _ _) in IH. rewrite !app_nil_r in IH. exact IH.
    + change ([e] ++ ?l ++ ?r) with ((e :: l) ++ r). rewrite <- (app_nil_l (e :: _)), <- app_assoc.
      rewrite (cons_middle e). rewrite (app_assoc _ [e]). apply (reorders_app [] _ _ _), reorders_past.
      apply Forall_forall. intros f [Hf Hin]%list_elem_of_filter. split; [congruence|].
      rewrite Forall_forall in HF. by apply HF.
Qed.

Lemma remove_dups_snoc {A : Type} `{EqDecision A} (l : list A) x :
  remove_dups (l ++ [x]) = filter (fun y => y <> x) (remove_dups l) ++ [x].
Proof.
  induction l as [|y l IH]; [done|]. cbn [app remove_dups]. destruct (decide_rel elem_of y l) as [Hy|Hy].
  - destruct (decide_rel elem_of y (l ++ [x])) as [|Hn]; [done|]. destruct Hn. apply elem_of_app. by left.
  - rewrite filter_cons. destruct (decide_rel elem_of y (l ++ [x])) as [Hin|Hn].
    + apply elem_of_app in Hin as [?|E%list_elem_of_singleton]; [done|]. subst y. by rewrite decide_False by (intros E; by apply E).
    + rewrite decide_True, IH; [done|]. intros ->. apply Hn, elem_of_app. right. by apply list_elem_of_singleton.
Qed.

(** ** The invariant of a run *)

Definition madeBy (i : nat) (tr : trace) : list access := (filter (fun e => e.1 = i) tr).*2.

(** The thread makes no more accesses. *)
Definition spent (s : system) (i : nat) : Prop :=
  match s !! i with Some th => accessesOf (th_todo th) = [] | None => True end.

#[global] Instance spent_dec s i : Decision (spent s i).
Proof. unfold spent. destruct (s !! i); apply _. Defined.

(** The accesses of the operations that have more to make. *)
Definition inProgress (s : system) (tr : trace) : trace := filter (fun e => ~ spent s e.1) tr.

Definition doneOrder (s : system) (tr : trace) : list nat := filter (spent s) (serialOrder tr).

Section Runs.
Variable calls : list (call * nat).

Record upTo (tr : trace) (s : system) : Prop := UpTo {
  up_wf : wfSystem s;
  up_length : length s = length calls;
  up_known e : e ∈ tr -> (e.1 < length calls)%nat;
  up_threads i th c : s !! i = Some th -> calls !! i = Some c ->
    accessesOf (lockPlan c) = madeBy i tr ++ accessesOf (th_todo th) /\
    strict (madeBy i tr) (th_held th) (th_todo th);
}.

Lemma madeBy_app i tr tr' : madeBy i (tr ++ tr') = madeBy i tr ++ madeBy i tr'.
Proof. unfold madeBy. by rewrite filter_app, fmap_app. Qed.

Lemma madeBy_other i j x : i <> j -> madeBy j [(i, x)] = [].
Proof. intros Hij. unfold madeBy. by rewrite filter_cons_False. Qed.

Lemma madeBy_same i x : madeBy i [(i, x)] = [x].
Proof. unfold madeBy. by rewrite filter_cons_True. Qed.

(** What a step does to its thread. *)
Inductive moved (th : thread) : list access -> thread -> Prop :=
  | moved_lock l m rest held pending pending' :
      th = Thread held pending (Acquire l m :: rest) -> moved th [] (Thread ((l, m) :: held) pending' rest)
  | moved_announce l held pending pending' rest :
      th = Thread held pending (Acquire l Write :: rest) -> moved th [] (Thread held pending' (Acquire l Write :: rest))
  | moved_release l m rest h held pending :
      th = Thread (h :: held) pending (Release l m :: rest) -> moved th [] (Thread held pending rest)
  | moved_access x rest held pending :
      th = Thread held pending (Access x :: rest) -> moved th [x] (Thread held pending rest).

Lemma does_moved s e s' : does s e s' ->
  exists i th th' xs, s !! i = Some th /\ s' = <[i := th']> s /\ e = map (pair i) xs /\ moved th xs th'.
Proof.
  intros [i held l rest Hi _|i held l rest Hi _|i held l rest Hi _|i held l m rest Hi|i held x rest Hi].
  - eexists i, _, _, []. split_and!; [exact Hi|done|done|by econstructor].
  - eexists i, _, _, []. split_and!; [exact Hi|done|done|by eapply moved_announce].
  - eexists i, _, _, []. split_and!; [exact Hi|done|done|by econstructor].
  - eexists i, _, _, []. split_and!; [exact Hi|done|done|by eapply moved_release].
  - eexists i, _, _, [x]. split_and!; [exact Hi|done|done|by econstructor].
Qed.

Lemma moved_strict th xs th' past :
  moved th xs th' -> strict past (th_held th) (th_todo th) -> strict (past ++ xs) (th_held th') (th_todo th').
Proof.
  intros [] Hs; subst; rewrite ?app_nil_r; cbn [th_held th_todo strict] in *; [|done| |];
    (destruct Hs as [Hn|[_ Hs]]; [by apply strict_spent|exact Hs]).
Qed.

Lemma moved_accesses th xs th' : moved th xs th' -> accessesOf (th_todo th) = xs ++ accessesOf (th_todo th').
Proof. by intros []; subst. Qed.

Lemma upTo_start : upTo [] (start calls).
Proof.
  split; [apply wfSystem_start|by apply length_map|by intros e ?%elem_of_nil|].
  intros i th c Hi Hc. apply list_lookup_fmap_Some in Hi as (c' & -> & Hc'). assert (c' = c) as -> by congruence.
  split; [done|]. apply lockPlan_strict.
Qed.

Lemma madeBy_pairs i xs : madeBy i (map (pair i) xs) = xs.
Proof. unfold madeBy. induction xs as [|x xs IH]; [done|]. cbn [map]. rewrite filter_cons_True by done. cbn. by rewrite IH. Qed.

Lemma madeBy_pairs_other i j xs : i <> j -> madeBy j (map (pair i) xs) = [].
Proof. intros Hij. unfold madeBy. induction xs as [|x xs IH]; [done|]. cbn [map]. by rewrite filter_cons_False. Qed.

Lemma upTo_does tr s e s' : upTo tr s -> does s e s' -> upTo (tr ++ e) s'.
Proof.
  intros Hup Hd. assert (wfSystem s') as Hwf by (eapply wf_step; [apply Hup|by exists e]).
  destruct (does_moved s e s' Hd) as (i & th & th' & xs & Hi & -> & -> & Hm). destruct Hup as [_ Hlen Hknown Hth].
  split; [done|by rewrite length_insert| |].
  - intros e' [He|(x & -> & _)%list_elem_of_fmap]%elem_of_app; [by apply Hknown|]. rewrite <- Hlen. cbn. by eapply lookup_lt_Some.
  - intros j thj c Hj Hc. rewrite madeBy_app. apply list_lookup_insert_Some in Hj as [(<- & <- & _)|[Hne Hj]].
    + destruct (Hth i th c Hi Hc) as [E Hs]. rewrite madeBy_pairs. split; [|by eapply moved_strict].
      by rewrite E, (moved_accesses _ _ _ Hm), app_assoc.
    + rewrite madeBy_pairs_other, app_nil_r by done. by apply Hth.
Qed.

Lemma run_upTo tr s : run (start calls) tr s -> upTo tr s.
Proof. induction 1 as [|tr s e s' _ IH Hd]; [apply upTo_start|by eapply upTo_does]. Qed.

Lemma madeBy_elem j y tr : (j, y) ∈ tr -> y ∈ madeBy j tr.
Proof. intros Hin. apply list_elem_of_fmap. exists (j, y). split; [done|]. by apply list_elem_of_filter. Qed.

(** What is about to be accessed depends on nothing the others in progress have done. *)
Lemma inProgress_independent tr s i held x rest :
  upTo tr s -> s !! i = Some (Thread held None (Access x :: rest)) ->
  Forall (fun e => independent e (i, x)) (inProgress s tr).
Proof.
  intros [Hwf Hlen Hknown Hth] Hi. apply Forall_forall. intros [j y] [Hns Hin]%list_elem_of_filter Hne. cbn [fst snd] in *.
  specialize (Hknown _ Hin) as Hj. cbn in Hj. destruct (lookup_lt_is_Some_2 calls j Hj) as [c Hc].
  rewrite <- Hlen in Hj. destruct (lookup_lt_is_Some_2 s j Hj) as [th Htj].
  unfold spent in Hns. rewrite Htj in Hns. destruct (Hth j th c Htj Hc) as [_ [?|Hcalm]%strict_calm]; [done|].
  unfold calm in Hcalm. rewrite Forall_forall in Hcalm. destruct (Hcalm y (madeBy_elem j y tr Hin)) as [Hf Hl].
  destruct (accessing_covered s i x Hwf) as (th' & Hi' & Hx); [by eexists _, _|]. assert (th' = Thread held None (Access x :: rest)) as -> by congruence.
  eapply lasting_independent; [by eapply (wf_exclude s j i)|by eapply (wf_exclude s i j)|done|done|done].
Qed.

Lemma spent_same s i th th' j :
  s !! i = Some th -> spent (<[i := th']> s) j <-> (if decide (j = i) then accessesOf (th_todo th') = [] else spent s j).
Proof.
  intros Hi. unfold spent. destruct (decide (j = i)) as [->|Hne].
  - rewrite list_lookup_insert_eq; [done|]. by eapply lookup_lt_Some.
  - by rewrite list_lookup_insert_ne.
Qed.

(** The operations done are behind each other, those in progress after them. *)
Definition arranged (tr : trace) (s : system) : Prop :=
  reorders tr (serial calls (doneOrder s tr) ++ inProgress s tr) /\ StronglySorted independent (inProgress s tr).

Lemma arranged_quiet tr s s' : (forall j, spent s' j <-> spent s j) -> arranged tr s -> arranged tr s'.
Proof.
  intros Hsp. unfold arranged. assert (inProgress s' tr = inProgress s tr) as ->.
  { apply list_filter_iff. intros e. by rewrite Hsp. }
  assert (doneOrder s' tr = doneOrder s tr) as ->; [|done]. apply list_filter_iff, Hsp.
Qed.

Lemma StronglySorted_snoc {A : Type} (R : A -> A -> Prop) l x :
  StronglySorted R l -> Forall (fun y => R y x) l -> StronglySorted R (l ++ [x]).
Proof.
  induction 1 as [|y l HS IH HF]; intros Hx; cbn [app]; [by repeat constructor|]. apply Forall_cons in Hx as [? ?].
  constructor; [by apply IH|]. apply Forall_app. split; [done|]. by apply Forall_singleton.
Qed.

Lemma serialOrder_snoc tr i x : serialOrder (tr ++ [(i, x)]) = filter (fun j => j <> i) (serialOrder tr) ++ [i].
Proof. unfold serialOrder. rewrite fmap_app. apply remove_dups_snoc. Qed.

Lemma arranged_access tr s i held x rest :
  upTo tr s -> s !! i = Some (Thread held None (Access x :: rest)) -> arranged tr s ->
  arranged (tr ++ [(i, x)]) (<[i := Thread held None rest]> s).
Proof.
  intros Hup Hi [Hr HS]. pose proof (inProgress_independent tr s i held x rest Hup Hi) as Hind.
  set (s' := <[i := _]> s). assert (forall j, spent s' j <-> if decide (j = i) then accessesOf rest = [] else spent s j) as Hsp
    by (intros j; exact (spent_same s i _ (Thread held None rest) j Hi)).
  assert (~ spent s i) as Hns by (unfold spent; by rewrite Hi).
  assert (filter (spent s') (filter (fun j => j <> i) (serialOrder tr)) = doneOrder s tr) as Hdone.
  { rewrite list_filter_filter. apply list_filter_iff. intros j. rewrite Hsp. destruct (decide (j = i)) as [->|Hne]; naive_solver. }
  unfold arranged. assert (doneOrder s' (tr ++ [(i, x)]) = doneOrder s tr ++ filter (spent s') [i]) as ->.
  { unfold doneOrder. rewrite serialOrder_snoc, filter_app. by f_equal. }
  assert (spent s' i <-> accessesOf rest = []) as Hspi by (rewrite Hsp; by rewrite decide_True).
  assert (reorders (tr ++ [(i, x)]) (serial calls (doneOrder s tr) ++ inProgress s tr ++ [(i, x)])) as Hr'.
  { apply (reorders_app [] [(i, x)]) in Hr. cbn [app] in Hr. by rewrite <- app_assoc in Hr. }
  assert (StronglySorted independent (inProgress s tr ++ [(i, x)])) as HS' by (by apply StronglySorted_snoc).
  destruct (decide (accessesOf rest = [])) as [Hrest|Hrest].
  - assert (inProgress s' (tr ++ [(i, x)]) = filter (fun e => e.1 <> i) (inProgress s tr ++ [(i, x)])) as ->.
    { unfold inProgress. rewrite !filter_app, !filter_cons_False, !filter_nil by (cbn; tauto). rewrite list_filter_filter. f_equal.
      apply list_filter_iff. intros [j y]. cbn. rewrite Hsp. destruct (decide (j = i)) as [->|Hne]; naive_solver. }
    rewrite filter_cons_True, filter_nil by tauto. split; [|by apply ssorted_filter].
    unfold serial. rewrite map_app, concat_app. cbn [map concat]. rewrite app_nil_r, <- app_assoc. etransitivity; [exact Hr'|].
    apply (reorders_gather i) in HS'. apply (reorders_app (serial calls (doneOrder s tr)) []) in HS'. rewrite !app_nil_r in HS'.
    assert (filter (fun e => e.1 = i) (inProgress s tr ++ [(i, x)]) = block calls i) as <-; [|done].
    destruct Hup as [_ Hlen _ Hth]. assert (i < length calls)%nat as Hlt by (rewrite <- Hlen; by eapply lookup_lt_Some).
    destruct (lookup_lt_is_Some_2 calls i Hlt) as [c Hc]. destruct (Hth i _ c Hi Hc) as [E _]. unfold block. rewrite Hc, E. cbn [th_todo].
    cbn [accessesOf omap list_omap]. fold (accessesOf rest). rewrite Hrest, map_app, filter_app, filter_cons_True by done. f_equal.
    unfold inProgress, madeBy. clear -Hns. induction tr as [|[j y] tr IH]; [done|]. rewrite !filter_cons. cbn [fst].
    destruct (decide (j = i)) as [->|Hne].
    + rewrite decide_True by done. rewrite filter_cons_True by done. cbn. by rewrite IH.
    + destruct (decide (~ spent s j)); [by rewrite filter_cons_False|done].
  - assert (inProgress s' (tr ++ [(i, x)]) = inProgress s tr ++ [(i, x)]) as ->.
    { unfold inProgress. rewrite filter_app, filter_cons_True, filter_nil by (cbn; tauto). f_equal.
      apply list_filter_iff. intros [j y]. cbn. rewrite Hsp. destruct (decide (j = i)) as [->|Hne]; naive_solver. }
    rewrite filter_cons_False, filter_nil, app_nil_r by tauto. done.
Qed.

Lemma run_arranged tr s : run (start calls) tr s -> arranged tr s.
Proof.
  induction 1 as [|tr s e s' Hrun IH Hd]; [split; [done|constructor]|]. apply run_upTo in Hrun as Hup.
  destruct Hd as [i held l rest Hi _|i held l rest Hi _|i held l rest Hi _|i held l m rest Hi|i held x rest Hi];
    [..|by apply arranged_access]; rewrite app_nil_r; (eapply arranged_quiet; [|exact IH]); intros j;
    rewrite (spent_same _ _ _ _ j Hi); (destruct (decide (j = i)) as [->|]; [|done]); unfold spent; by rewrite Hi.
Qed.
End Runs.

(** ** The effect of a run *)

Section Effect.
Context {S : Type} (exec : nat -> access -> S -> S).

(** What the accesses of a trace do, each thread's [exec] among the others'. *)
Definition effect (tr : trace) (state : S) : S := fold_left (fun state e => exec e.1 e.2 state) tr state.

(** Accesses of different threads that do not depend on each other commute; [V] may
    say that the accesses are valid ones. *)
Definition commutingOn (V : access -> Prop) : Prop := forall i j x y state,
  i <> j -> V x -> V y -> ~ depends x y -> exec j y (exec i x state) = exec i x (exec j y state).

Definition commuting : Prop := commutingOn (fun _ => True).

Lemma reorders_effect V tr tr' state :
  commutingOn V -> Forall (fun e => V e.2) tr -> reorders tr tr' -> effect tr state = effect tr' state.
Proof.
  intros Hc HV Hr. revert HV. induction Hr as [|? ? tr'' [l i x j y l' Hij Hd] _ IH]; [done|]. intros HV.
  rewrite Forall_app, !Forall_cons in HV. destruct HV as (Hl & Hx & Hy & Hl').
  rewrite <- IH by (rewrite Forall_app, !Forall_cons; done).
  unfold effect. rewrite !fold_left_app. cbn [fold_left fst snd]. by rewrite Hc.
Qed.
End Effect.

Lemma remove_dups_app {A : Type} `{EqDecision A} (l1 l2 : list A) :
  remove_dups (l1 ++ l2) = filter (fun x => x ∉ l2) (remove_dups l1) ++ remove_dups l2.
Proof.
  induction l1 as [|x l1 IH]; [done|]. cbn [app remove_dups]. destruct (decide_rel elem_of x l1) as [Hx|Hx].
  - destruct (decide_rel elem_of x (l1 ++ l2)) as [|Hn]; [done|]. destruct Hn. apply elem_of_app. by left.
  - rewrite filter_cons. destruct (decide_rel elem_of x (l1 ++ l2)) as [Hin|Hn]; rewrite elem_of_app in *.
    + by rewrite decide_False by tauto.
    + by rewrite decide_True, IH by tauto.
Qed.

(** In [order], [i] comes before [j]. *)
Definition precedes (order : list nat) (i j : nat) : Prop :=
  exists l1 l2, order = l1 ++ l2 /\ i ∈ l1 /\ j ∈ l2.

(** The accesses of the calls. *)
Definition planned (calls : list (call * nat)) (V : access -> Prop) : Prop :=
  forall c x, c ∈ calls -> x ∈ accessesOf (lockPlan c) -> V x.

Lemma run_planned calls V tr s : planned calls V -> run (start calls) tr s -> Forall (fun e => V e.2) tr.
Proof.
  intros HV Hrun%run_upTo. destruct Hrun as [_ Hlen Hknown Hth]. apply Forall_forall. intros [i x] Hin.
  specialize (Hknown _ Hin) as Hi. cbn [fst] in Hi. destruct (lookup_lt_is_Some_2 calls i Hi) as [c Hc].
  rewrite <- Hlen in Hi. destruct (lookup_lt_is_Some_2 s i Hi) as [th Ht]. destruct (Hth i th c Ht Hc) as [E _].
  apply (HV c x); [by eapply list_elem_of_lookup_2|]. rewrite E. apply elem_of_app. left. by apply madeBy_elem.
Qed.

Section Finished.
Variables (calls : list (call * nat)) (tr : trace) (s : system).
Hypotheses (Hrun : run (start calls) tr s) (Hfin : finished s).

Lemma finished_spent i : spent s i.
Proof using Hfin.
  unfold spent. destruct (s !! i) as [th|] eqn:Hi; [|done]. unfold finished in Hfin. rewrite Forall_forall in Hfin.
  by rewrite (Hfin th) by (by eapply list_elem_of_lookup_2).
Qed.

Lemma finished_effect {S : Type} (exec : nat -> access -> S -> S) V state :
  commutingOn exec V -> planned calls V -> effect exec tr state = effect exec (serial calls (serialOrder tr)) state.
Proof using Hrun Hfin.
  intros Hc HV. pose proof finished_spent as Hspent. apply run_arranged in Hrun as Harr. destruct Harr as [Hr _].
  assert (inProgress s tr = []) as E.
  { unfold inProgress. clear -Hspent. induction tr as [|e tr' IH]; [done|].
    rewrite filter_cons_False; [exact IH|]. intros Hn. by apply Hn. }
  assert (doneOrder s tr = serialOrder tr) as Hd.
  { unfold doneOrder. clear -Hspent. induction (serialOrder tr) as [|i l IH]; [done|]. by rewrite filter_cons_True, IH. }
  rewrite E, Hd, app_nil_r in Hr. eapply reorders_effect; [exact Hc|by eapply run_planned|exact Hr].
Qed.

Lemma finished_order i c : calls !! i = Some c -> accessesOf (lockPlan c) <> [] -> i ∈ serialOrder tr.
Proof using Hrun Hfin.
  intros Hi Ha. apply run_upTo in Hrun as [_ Hlen _ Hth]. apply lookup_lt_Some in Hi as Hlt. rewrite <- Hlen in Hlt.
  destruct (lookup_lt_is_Some_2 s i Hlt) as [th Ht]. destruct (Hth i th c Ht Hi) as [E _].
  pose proof (finished_spent i) as Hspent. unfold spent in Hspent. rewrite Ht in Hspent. rewrite Hspent, app_nil_r in E. rewrite E in Ha.
  apply elem_of_remove_dups. unfold madeBy in Ha. destruct (filter _ tr) as [|e l] eqn:Hf; [done|].
  assert (e ∈ filter (fun e => e.1 = i) tr) as [<- Hin]%list_elem_of_filter by (rewrite Hf; apply list_elem_of_here).
  by apply list_elem_of_fmap_2.
Qed.

Lemma serialOrder_known i : i ∈ serialOrder tr -> (i < length calls)%nat.
Proof using Hrun.
  intros (e & -> & He)%elem_of_remove_dups%list_elem_of_fmap. apply run_upTo in Hrun as [_ _ Hknown _]. by apply Hknown.
Qed.
End Finished.

(** An operation that has ended before another begins comes first. *)
Lemma serialOrder_precedes tr1 tr2 i j :
  i ∈ tr1.*1 -> i ∉ tr2.*1 -> j ∈ tr2.*1 -> precedes (serialOrder (tr1 ++ tr2)) i j.
Proof.
  intros Hi1 Hi2 Hj. unfold serialOrder. rewrite fmap_app, remove_dups_app. eexists _, _. split; [done|].
  split; [|by apply elem_of_remove_dups]. apply list_elem_of_filter. split; [done|]. by apply elem_of_remove_dups.
Qed.

(** C15: concurrent operations are serializable: whatever the accesses do, as long as
    those that do not depend on each other commute, a run of operations under the
    locks ends in the state in which the operations end that are run one after
    another in the order of their last accesses; every operation that makes an
    access is in this order once, and one that ended before another began is before
    it. *)
Theorem locks_serialize {S : Type} (exec : nat -> access -> S -> S) calls tr s :
  commuting exec -> run (start calls) tr s -> finished s ->
  (forall state, effect exec tr state = effect exec (serial calls (serialOrder tr)) state) /\
  NoDup (serialOrder tr) /\
  (forall i c, calls !! i = Some c -> accessesOf (lockPlan c) <> [] -> i ∈ serialOrder tr) /\
  (forall tr1 tr2 i j, tr = tr1 ++ tr2 -> i ∈ tr1.*1 -> i ∉ tr2.*1 -> j ∈ tr2.*1 -> precedes (serialOrder tr) i j).
Proof.
  intros Hc Hrun Hfin. split_and!.
  - intros state. by eapply finished_effect; [exact Hrun|exact Hfin|exact Hc|].
  - apply NoDup_remove_dups.
  - by eapply finished_order.
  - intros tr1 tr2 i j ->. apply serialOrder_precedes.
Qed.

(** ** A run *)

(** The next step of a thread, if it can make one. *)
Definition stepThread (s : system) (i : nat) : option (trace * system) :=
  match s !! i with
  | Some (Thread held None (Acquire l Read :: rest)) =>
      if decide (noWriter s l) then Some ([], <[i := Thread ((l, Read) :: held) None rest]> s) else None
  | Some (Thread held None (Acquire l Write :: rest)) =>
      if decide (noWriter s l) then Some ([], <[i := Thread held (Some l) (Acquire l Write :: rest)]> s) else None
  | Some (Thread held (Some l') (Acquire l Write :: rest)) =>
      if decide (l' = l /\ noReader s l) then Some ([], <[i := Thread ((l, Write) :: held) None rest]> s) else None
  | Some (Thread (h :: held) None (Release l m :: rest)) =>
      if decide (h = (l, m)) then Some ([], <[i := Thread held None rest]> s) else None
  | Some (Thread held None (Access x :: rest)) => Some ([(i, x)], <[i := Thread held None rest]> s)
  | _ => None
  end.

Lemma stepThread_does s i e s' : stepThread s i = Some (e, s') -> does s e s'.
Proof.
  unfold stepThread. destruct (s !! i) as [[held pending todo]|] eqn:Hi; [|done].
  destruct held as [|h held], pending as [l'|], todo as [|[l []|l m|x] rest]; try done; try case_decide as Hd; try done;
    intros [= <- <-]; subst; try (by econstructor); destruct Hd as [-> Hd]; by econstructor.
Qed.

(** The threads make their steps in the given order. *)
Fixpoint schedule (l : list nat) (s : system) : option (trace * system) :=
  match l with
  | [] => Some ([], s)
  | i :: l' =>
      '(e, s1) ← stepThread s i;
      '(tr, s2) ← schedule l' s1;
      Some (e ++ tr, s2)
  end.

Lemma schedule_run l s0 tr0 s tr s' : run s0 tr0 s -> schedule l s = Some (tr, s') -> run s0 (tr0 ++ tr) s'.
Proof.
  revert tr0 s tr. induction l as [|i l IH]; intros tr0 s tr Hrun; cbn [schedule].
  - intros [= <- <-]. by rewrite app_nil_r.
  - destruct (stepThread s i) as [[e s1]|] eqn:He; [|done]. cbn [mbind option_bind].
    destruct (schedule l s1) as [[tr2 s2]|] eqn:Hl; [|done]. intros [= <- <-]. rewrite app_assoc.
    eapply IH; [|exact Hl]. eapply run_does; [exact Hrun|by eapply stepThread_does].
Qed.

(** Documents as the threads that wrote them last. *)
Definition simExec (i : nat) (x : access) (docs : gmap (bytes * bytes) nat) : gmap (bytes * bytes) nat :=
  match x with
  | WriteDb n => filter (fun kv => kv.1.1 <> n) docs
  | WriteDocs n ids => foldr (fun id docs => <[(n, id) := i]> docs) docs ids
  | _ => docs
  end.

Definition simWrites (i : nat) (x : access) (k : bytes * bytes) : option (option nat) :=
  match x with
  | WriteDb n => if decide (k.1 = n) then Some None else None
  | WriteDocs n ids => if decide (k.1 = n /\ k.2 ∈ ids) then Some (Some i) else None
  | _ => None
  end.

Lemma simExec_lookup i x docs k : simExec i x docs !! k = default (docs !! k) (simWrites i x k).
Proof.
  destruct k as [m id], x as [n|n|n ids|n ids|n ids|n]; cbn [simExec simWrites fst snd]; try done.
  - case_decide as Hm; cbn [default].
    + apply map_lookup_filter_None. right. intros v _ Hn. by apply Hn.
    + apply option_eq. intros v. rewrite map_lookup_filter_Some. cbn. tauto.
  - induction ids as [|id' ids IH]; cbn [foldr]; [by rewrite decide_False by (by intros [_ ?%elem_of_nil])|].
    destruct (decide ((n, id') = (m, id))) as [[= -> ->]|Hne].
    + rewrite lookup_insert_eq, decide_True; [done|]. split; [done|apply list_elem_of_here].
    + rewrite lookup_insert_ne, IH by done. case_decide as H1; case_decide as H2; try done; rewrite elem_of_cons in *; naive_solver.
Qed.

Lemma simWrites_inv i x k v : simWrites i x k = Some v ->
  accessDb x = k.1 /\ ((exists n, x = WriteDb n) \/ exists n ids, x = WriteDocs n ids /\ k.2 ∈ ids).
Proof.
  destruct x as [n|n|n ids|n ids|n ids|n]; cbn [simWrites]; try done; case_decide as Hk; try done; intros _.
  - split; [done|]. left. by exists n.
  - split; [by destruct Hk|]. right. exists n, ids. by destruct Hk.
Qed.

Lemma simExec_commuting : commuting simExec.
Proof.
  intros i j x y docs _ _ _ Hd. apply map_eq. intros k. rewrite !simExec_lookup.
  destruct (simWrites i x k) as [vx|] eqn:Hx; [|done]. destruct (simWrites j y k) as [vy|] eqn:Hy; [|done].
  destruct Hd. apply simWrites_inv in Hx as [Ex Hx], Hy as [Ey Hy]. split; [congruence|].
  destruct Hx as [[n ->]|(n & ids & -> & Hi)]; [done|]. destruct Hy as [[n' ->]|(n' & ids' & -> & Hj)]; [done|]. by exists k.2.
Qed.

(** Two documents of one database are written while it is read. *)
Definition simRunCalls : list (call * nat) :=
  [(CallWriteDoc (str "a") (str "x"), 3%nat); (CallWriteDoc (str "a") (str "y"), 3%nat); (CallReadDb (str "a"), 2%nat)].

Definition simSteps : list nat := [0; 1; 2; 1; 0; 1; 0; 1; 1; 0; 2; 0; 1; 2; 0; 1; 1; 2; 0; 0]%nat.

Definition simTrace : trace :=
  match schedule simSteps (start simRunCalls) with Some (tr, _) => tr | None => [] end.


Definition simEnd : system :=
  match schedule simSteps (start simRunCalls) with Some (_, s) => s | None => [] end.

(** The reader sees the document that the second thread has written and not the
    other: it is between the two. *)
Lemma locks_serialize_witness :
  simTrace <> serial simRunCalls [1; 2; 0]%nat /\
  effect simExec simTrace ∅ = effect simExec (serial simRunCalls [1; 2; 0]%nat) ∅.
Proof.
  assert (schedule simSteps (start simRunCalls) = Some (simTrace, simEnd)) as E by (by vm_compute).
  assert (finished simEnd) as Hfin by (vm_compute; repeat constructor).
  assert (serialOrder simTrace = [1; 2; 0]%nat) as Ho by (by vm_compute).
  destruct (locks_serialize simExec simRunCalls simTrace simEnd simExec_commuting
    (schedule_run simSteps _ [] _ simTrace simEnd (run_start _) E) Hfin) as [He _].
  split; [intros Hn; vm_compute in Hn; discriminate Hn|]. rewrite <- Ho. apply He.
Defined.
