(* ===== verification/Host.v ===== *)
(** * The host

    What the program calls outside itself, as an interface: the Pebble key-value
    store, the random source, the clock and the request's context.  Each call
    takes the state of the world and returns a result and a new state, so a call
    can fail at any time and two calls need not agree.

    [Host] is the interface, [HostSpec] the documented behaviour the theorems
    rely on.  Effectful Go code is a state-passing function in the monad [M]. *)

From S2P Require Import Prelude GoErrors Keys.

(** ** Pebble *)

(** The queued operations of a [pebble.Batch], in order. *)
Inductive batchOp :=
  | BSet (k v : bytes)
  | BDelete (k : bytes)
  | BDeleteRange (lo hi : bytes).

Notation batch := (list batchOp).

(** An iterator reads a consistent view taken when it is opened: the entries it
    will deliver are settled then, with the error it stops at, if any. *)
Record iter := Iter {
  it_entries : list (bytes * bytes);
  it_err : option error;
}.

(** A [context.Context]: the background one never ends, the request's may. *)
Inductive context := Background | RequestCtx.

Class Host (W : Type) := {
  snapshot : Type;
  pebbleOpen : W -> option error * W;
  pebbleGet : bytes -> W -> (error + bytes) * W;
  pebbleSet : bytes -> bytes -> W -> option error * W;
  pebbleIter : option bytes -> option bytes -> W -> (error + iter) * W;
  pebbleSnapshot : W -> snapshot * W;
  snapshotGet : snapshot -> bytes -> W -> (error + bytes) * W;
  snapshotIter : snapshot -> option bytes -> option bytes -> W -> (error + iter) * W;
  pebbleQueue : batchOp -> W -> option error * W;
  pebbleCommit : batch -> W -> option error * W;
  pebbleClose : W -> option error * W;
  batchLen : batch -> Z;
  randRead : nat -> W -> (error + bytes) * W;
  nowMillis : W -> Z * W;
  requestErr : W -> option error * W;
  requestExpired : W -> bool * W;
}.

(** What a batch does to the keys of the store. *)
Definition applyOp (c : gmap bytes bytes) (op : batchOp) : gmap bytes bytes :=
  match op with
  | BSet k v => <[k := v]> c
  | BDelete k => delete k c
  | BDeleteRange lo hi => filter (fun kv => ~ (lo <=b kv.1 /\ kv.1 <b hi)) c
  end.

Definition applyBatch (c : gmap bytes bytes) (b : batch) : gmap bytes bytes :=
  fold_left applyOp b c.

(** The entries of a range, in key order. *)
Definition isScan (c : gmap bytes bytes) (lo hi : option bytes) (l : list (bytes * bytes)) : Prop :=
  StronglySorted (fun a b => blt a.1 b.1) l /\
  forall k v, (k, v) ∈ l <-> c !! k = Some v /\ in_bounds lo hi k = true.

(** An iterator that stops at an error has delivered the first of them. *)
Definition isPartialScan (c : gmap bytes bytes) (lo hi : option bytes) (l : list (bytes * bytes))
    : Prop :=
  exists l', isScan c lo hi (l ++ l').

(** The documented behaviour.  [contents] is what the store holds, [faulty] that
    some call has failed for a reason of its own (an I/O error, corruption, a
    cancelled request), which never stops being so. *)
Class HostSpec (W : Type) `{Host W} := {
  contents : W -> gmap bytes bytes;
  faulty : W -> Prop;
  snapContents : snapshot -> gmap bytes bytes;

  pebbleOpen_spec w :
    let '(r, w') := pebbleOpen w in
    contents w' = contents w /\ (faulty w -> faulty w') /\
    match r with None => True | Some e => foreign e /\ faulty w' end;
  pebbleGet_spec k w :
    let '(r, w') := pebbleGet k w in
    contents w' = contents w /\ (faulty w -> faulty w') /\
    match r with
    | inr v => contents w !! k = Some v
    | inl e => foreign e /\
        (errorsIs pebbleErrNotFound e = true /\ contents w !! k = None \/
         errorsIs pebbleErrNotFound e = false /\ faulty w')
    end;
  pebbleSet_spec k v w :
    let '(r, w') := pebbleSet k v w in
    (faulty w -> faulty w') /\
    match r with
    | None => contents w' = <[k := v]> (contents w)
    | Some e => foreign e /\ faulty w' /\
        (contents w' = contents w \/ contents w' = <[k := v]> (contents w))
    end;
  pebbleIter_spec lo hi w :
    let '(r, w') := pebbleIter lo hi w in
    contents w' = contents w /\ (faulty w -> faulty w') /\
    match r with
    | inr it =>
        match it_err it with
        | None => isScan (contents w) lo hi (it_entries it)
        | Some e => foreign e /\ faulty w' /\ isPartialScan (contents w) lo hi (it_entries it)
        end
    | inl e => foreign e /\ faulty w'
    end;
  pebbleSnapshot_spec w :
    let '(s, w') := pebbleSnapshot w in
    contents w' = contents w /\ (faulty w -> faulty w') /\ snapContents s = contents w;
  snapshotGet_spec s k w :
    let '(r, w') := snapshotGet s k w in
    contents w' = contents w /\ (faulty w -> faulty w') /\
    match r with
    | inr v => snapContents s !! k = Some v
    | inl e => foreign e /\
        (errorsIs pebbleErrNotFound e = true /\ snapContents s !! k = None \/
         errorsIs pebbleErrNotFound e = false /\ faulty w')
    end;
  snapshotIter_spec s lo hi w :
    let '(r, w') := snapshotIter s lo hi w in
    contents w' = contents w /\ (faulty w -> faulty w') /\
    match r with
    | inr it =>
        match it_err it with
        | None => isScan (snapContents s) lo hi (it_entries it)
        | Some e => foreign e /\ faulty w' /\ isPartialScan (snapContents s) lo hi (it_entries it)
        end
    | inl e => foreign e /\ faulty w'
    end;
  pebbleQueue_spec op w :
    let '(r, w') := pebbleQueue op w in
    contents w' = contents w /\ (faulty w -> faulty w') /\
    match r with None => True | Some e => foreign e /\ faulty w' end;
  (** A batch is atomic: after a failed commit it is applied whole or not at all. *)
  pebbleCommit_spec b w :
    let '(r, w') := pebbleCommit b w in
    (faulty w -> faulty w') /\
    match r with
    | None => contents w' = applyBatch (contents w) b
    | Some e => foreign e /\ faulty w' /\
        (contents w' = contents w \/ contents w' = applyBatch (contents w) b)
    end;
  pebbleClose_spec w :
    let '(r, w') := pebbleClose w in
    contents w' = contents w /\ (faulty w -> faulty w') /\
    match r with None => True | Some e => foreign e /\ faulty w' end;
  randRead_spec n w :
    let '(r, w') := randRead n w in
    contents w' = contents w /\ (faulty w -> faulty w') /\
    match r with inr b => length b = n | inl e => foreign e /\ faulty w' end;
  nowMillis_spec w :
    let '(_, w') := nowMillis w in
    contents w' = contents w /\ (faulty w -> faulty w');
  requestErr_spec w :
    let '(r, w') := requestErr w in
    contents w' = contents w /\ (faulty w -> faulty w') /\
    match r with
    | None => True
    | Some e => (e = ctxDeadlineExceeded \/ e = ctxCanceled) /\ faulty w'
    end;
  requestExpired_spec w :
    let '(r, w') := requestExpired w in
    contents w' = contents w /\ (faulty w -> faulty w') /\ (r = true -> faulty w');
}.

(** ** The monad *)

Definition M (W A : Type) : Type := W -> res A * W.

#[global] Instance M_ret {W} : MRet (M W) := fun A a w => (Ok a, w).
#[global] Instance M_bind {W} : MBind (M W) := fun A B k m w =>
  match m w with
  | (Ok a, w') => k a w'
  | (Err e, w') => (Err e, w')
  | (OutOfFuel, w') => (OutOfFuel, w')
  end.

Definition throw {W A} (e : error) : M W A := fun w => (Err e, w).
Definition outOfFuel {W A} : M W A := fun w => (OutOfFuel, w).
Definition lift {W A} (r : res A) : M W A := fun w => (r, w).

(** [if err != nil { return f(err) }] around a call. *)
Definition onErr {W A} (f : error -> error) (m : M W A) : M W A := fun w =>
  match m w with
  | (Err e, w') => (Err (f e), w')
  | r => r
  end.

(** The code that looks at the error itself. *)
Definition catch {W A} (m : M W A) : M W (error + A) := fun w =>
  match m w with
  | (Ok a, w') => (Ok (inr a), w')
  | (Err e, w') => (Ok (inl e), w')
  | (OutOfFuel, w') => (OutOfFuel, w')
  end.

Definition ofSum {W A} (f : W -> (error + A) * W) : M W A := fun w =>
  match f w with
  | (inr a, w') => (Ok a, w')
  | (inl e, w') => (Err e, w')
  end.

Definition ofOpt {W} (f : W -> option error * W) : M W unit := fun w =>
  match f w with
  | (None, w') => (Ok (), w')
  | (Some e, w') => (Err e, w')
  end.

Definition ofVal {W A} (f : W -> A * W) : M W A := fun w => let '(a, w') := f w in (Ok a, w').

(** ** Errors of the store (storage.go) *)

Definition wrapStore (err : error) : error :=
  let kind := if errorsIs pebbleErrCorruption err then errCorruptData else errStoreUnavailable in
  EWrap [kind : error; wrapf err].

Definition isStoreUnavailable (err : error) : bool :=
  errorsIs errStoreUnavailable err || errorsIs pebbleErrClosed err.

Lemma outside_wrapStore e : foreign e -> outside (wrapStore e).
Proof.
  intros Hf. apply outside_join; [|by apply outside_wrapf, foreign_outside].
  by destruct (errorsIs pebbleErrCorruption e); apply outside_sentinel.
Qed.
#[export] Hint Resolve outside_wrapStore : goerr.

Section Calls.
Context {W : Type} `{Host W}.

Definition dbGet (k : bytes) : M W bytes := ofSum (pebbleGet k).
Definition snapGet (s : snapshot) (k : bytes) : M W bytes := ofSum (snapshotGet s k).
Definition newSnapshot : M W snapshot := ofVal pebbleSnapshot.
Definition newIter (lo hi : option bytes) : M W iter :=
  onErr wrapStore (ofSum (pebbleIter lo hi)).
Definition snapIter (s : snapshot) (lo hi : option bytes) : M W iter :=
  onErr wrapStore (ofSum (snapshotIter s lo hi)).
Definition close : M W unit := onErr wrapStore (ofOpt pebbleClose).
Definition rand (n : nat) : M W bytes := onErr wrapf (ofSum (randRead n)).
Definition now : M W Z := ofVal nowMillis.

(** [ctx.Err()], the error returned as it is. *)
Definition ctxErr (ctx : context) : M W unit :=
  match ctx with
  | Background => mret ()
  | RequestCtx => ofOpt requestErr
  end.

(** [deadline, ok := ctx.Deadline(); ok && !time.Now().Before(deadline)]. *)
Definition ctxExpired (ctx : context) : M W bool :=
  match ctx with
  | Background => mret false
  | RequestCtx => ofVal requestExpired
  end.

(** [batch.Set], [batch.Delete] and [batch.DeleteRange]. *)
Definition queue (b : batch) (op : batchOp) : M W batch :=
  _ ← onErr wrapStore (ofOpt (pebbleQueue op)); mret (b ++ [op]).

(** [batch.Commit(pebble.Sync)]. *)
Definition commit (b : batch) : M W unit := onErr wrapStore (ofOpt (pebbleCommit b)).

(** [defer func() { if err := x.Close(); err != nil { result = errors.Join(result,
    wrapStore(.., err)) } }()]: the body runs, then the handle is closed on every
    path. *)
Definition deferClose {A} (body : M W A) : M W A := fun w =>
  let '(r, w1) := body w in
  let '(c, w2) := close w1 in
  match c, r with
  | Err ce, Ok _ => (Err (wrapf ce), w2)
  | Err ce, Err e => (Err (join e ce), w2)
  | _, _ => (r, w2)
  end.

(** [iter.First()] and [iter.SeekGE(key)] followed by a step over [key] itself;
    the entries from there on. *)
Fixpoint dropBelow (key : bytes) (l : list (bytes * bytes)) : list (bytes * bytes) :=
  match l with
  | (k, v) :: l' => if bltb k key then dropBelow key l' else l
  | [] => []
  end.

Definition seekAfter (key : bytes) (l : list (bytes * bytes)) : list (bytes * bytes) :=
  match dropBelow key l with
  | (k, v) :: l' => if decide (k = key) then l' else (k, v) :: l'
  | [] => []
  end.

(** [iter.Error()] after the loop: the error shows once the iterator has run out
    of entries, [rest] being those it has not moved past. *)
Definition iterError (it : iter) (rest : list (bytes * bytes)) : M W unit :=
  match rest, it_err it with
  | [], Some e => throw (wrapStore e)
  | _, _ => mret ()
  end.
End Calls.
