(* ===== verification/Crypto.v ===== *)
(** * Encryption

    The record formats of format.go, the keys and records of crypto.go and the
    document records of document.go.  AES-GCM, HKDF-SHA256, SHA-256 and Zstandard
    are an interface, [Crypto], with the behaviour the program relies on in
    [CryptoSpec]. *)

From S2P Require Import Prelude GoErrors Codec Text Validation Keys Host.

(** ** Formats (format.go) *)

Definition storeMetaVersion : byte := x01.
Definition dbRecordVersion : byte := x01.
Definition docRecordVersion : byte := x01.
Definition cipherSuite1 : byte := x01.
Definition wrappingKey1 : byte := x01.

Definition keySize : Z := 32.
Definition storeSaltLen : Z := 32.
Definition gcmNonceLen : Z := 12.
Definition gcmTagLen : Z := 16.
Definition storeMetaHeaderLen : Z := 1 + 1 + storeSaltLen + gcmNonceLen.
Definition dbRecordHeaderLen : Z := 1 + 1 + gcmNonceLen.
Definition docRecordHeaderLen : Z := 1 + 1 + 16 + 8 + gcmNonceLen.

Definition maxStoredDocBytes : Z := 64 * 2 ^ 20.
Definition maxDocRecordBytes : Z := maxStoredDocBytes + 2 ^ 20.

(** ** The interface *)

Class Crypto := {
  gcmSeal : bytes -> bytes -> bytes -> bytes -> bytes;
  gcmOpen : bytes -> bytes -> bytes -> bytes -> option bytes;
  hkdfSha256 : bytes -> bytes -> bytes -> bytes;
  sha256 : bytes -> bytes;
  zstdWriterErr : option error;
  zstdReaderErr : option error;
  zstdEncode : bytes -> bytes;
  zstdDecode : Z -> bytes -> option bytes;
}.

(** AES keys have 16, 24 or 32 bytes. *)
Definition aesKeyLen (key : bytes) : bool :=
  (len key =? 16) || (len key =? 24) || (len key =? 32).

(** Seal appends a tag of sixteen bytes and Open accepts exactly what Seal made
    of the same key, nonce and associated data; the derived keys have 32 bytes;
    a compressed document decompresses to itself within its own length; the
    constructors of the compressor refuse no more than invalid options, and the
    program's are constants. *)
Class CryptoSpec `{Crypto} := {
  gcmOpen_gcmSeal key nonce plain ad :
    aesKeyLen key = true -> len nonce = gcmNonceLen ->
    gcmOpen key nonce (gcmSeal key nonce plain ad) ad = Some plain;
  gcmOpen_inv key nonce sealed ad plain :
    gcmOpen key nonce sealed ad = Some plain -> sealed = gcmSeal key nonce plain ad;
  len_gcmSeal key nonce plain ad : len (gcmSeal key nonce plain ad) = len plain + gcmTagLen;
  len_hkdf secret salt info : len (hkdfSha256 secret salt info) = keySize;
  len_sha256 data : len (sha256 data) = 32;
  zstdDecode_zstdEncode cap plain :
    len plain <= cap -> zstdDecode cap (zstdEncode plain) = Some plain;
  zstdWriterErr_none : zstdWriterErr = None;
  zstdReaderErr_none : zstdReaderErr = None;
}.

(** ** Keys (crypto.go) *)

Definition wrappingInfo : bytes := str "kantandb/wrapping/v1".
Definition cursorInfo : bytes := str "kantandb/cursor/v1".
Definition documentInfo : bytes := str "kantandb/document/v1".
Definition storeADInfo : bytes := str "kantandb/store-metadata/v1".
Definition databaseAD : bytes := str "kantandb/database-record/v1".
Definition documentAD : bytes := str "kantandb/document-record/v1".

(** The associated data of a record: everything before the ciphertext. *)
Definition recordAD (domain key header : bytes) : bytes :=
  domain ++ putUint64 (len key) ++ key ++ header.

Section Records.
Context `{Crypto}.

Definition deriveWrapKey (masterKey salt : bytes) : bytes :=
  hkdfSha256 masterKey salt wrappingInfo.

Definition deriveKey (input info : bytes) : res bytes :=
  if negb (len input =? keySize) then Err EText else Ok (hkdfSha256 input [] info).

Definition deriveCursorKey (databaseKey : bytes) : res bytes := deriveKey databaseKey cursorInfo.

Definition documentKeyInfo (id : bytes) : bytes := documentInfo ++ putUint64 (len id) ++ id.

Definition deriveDocumentKey (databaseKey id : bytes) : res bytes :=
  deriveKey databaseKey (documentKeyInfo id).

(** [newGCM] and [newQueryCipher]: the key, once its length is an AES one. *)
Definition newGCM (key : bytes) : res bytes :=
  if aesKeyLen key then Ok key else Err EText.

(** ** Database records *)

Definition dbRecordHeader (nonce : bytes) : bytes := dbRecordVersion :: wrappingKey1 :: nonce.

Definition unwrapDBKey (wrappingKey pebbleKey value : bytes) : res bytes :=
  if negb (len value =? dbRecordHeaderLen + keySize + gcmTagLen)
     || negb (beqb (at_ value 0) dbRecordVersion) || negb (beqb (at_ value 1) wrappingKey1)
  then Err errCorruptData
  else
    box ← newGCM wrappingKey;
    let header := take (Z.to_nat dbRecordHeaderLen) value in
    match gcmOpen box (drop 2 header) (drop (Z.to_nat dbRecordHeaderLen) value)
            (recordAD databaseAD pebbleKey header) with
    | Some key => if len key =? keySize then Ok key else Err errCorruptData
    | None => Err errCorruptData
    end.

(** ** Documents (document.go) *)

Record storedDoc := StoredDoc {
  sd_json : bytes;
  sd_revision : revision;
}.

Definition docRecordHeader (rev : revision) (length : Z) (nonce : bytes) : bytes :=
  docRecordVersion :: cipherSuite1 :: rev ++ putUint64 length ++ nonce.

(** The header, the revision and the length of a record. *)
Definition parseDocRecord (value : bytes) : res (bytes * revision * Z) :=
  if (len value <? docRecordHeaderLen + gcmTagLen) || (maxDocRecordBytes <? len value) then
    Err errCorruptData
  else if negb (beqb (at_ value 0) docRecordVersion) || negb (beqb (at_ value 1) cipherSuite1) then
    Err errCorruptData
  else
    let header := take (Z.to_nat docRecordHeaderLen) value in
    Ok (header, take 16 (drop 2 header), getUint64 (take 8 (drop 18 header))).

Definition openDoc (pebbleKey databaseKey id value : bytes) : res storedDoc :=
  '(header, rev, length) ← parseDocRecord value;
  key ← map_err wrapf (deriveDocumentKey databaseKey id);
  box ← newGCM key;
  match gcmOpen box (drop 26 header) (drop (Z.to_nat docRecordHeaderLen) value)
          (recordAD documentAD pebbleKey header) with
  | None => Err errCorruptData
  | Some compressed =>
      if maxStoredDocBytes <? length then Err errCorruptData
      else match zstdReaderErr with
        | Some e => Err (wrapf e)
        | None =>
            match zstdDecode length compressed with
            | Some json =>
                if len json =? length then Ok (StoredDoc json rev) else Err errCorruptData
            | None => Err errCorruptData
            end
        end
  end.
End Records.

(** ** Sealing *)

Section Sealing.
Context {W : Type} `{Host W} `{Crypto}.

Definition wrapDBKey (wrappingKey pebbleKey databaseKey : bytes) : M W bytes :=
  if negb (len databaseKey =? keySize) then throw EText
  else
    box ← lift (newGCM wrappingKey);
    nonce ← rand 12;
    let header := dbRecordHeader nonce in
    mret (header ++ gcmSeal box nonce databaseKey (recordAD databaseAD pebbleKey header)).

Definition sealDoc (pebbleKey databaseKey id : bytes) (rev : revision) (json : bytes) : M W bytes :=
  if maxStoredDocBytes <? len json then throw EText
  else
    key ← onErr wrapf (lift (deriveDocumentKey databaseKey id));
    _ ← match zstdWriterErr with Some e => throw (wrapf e) | None => mret () end;
    let compressed := zstdEncode json in
    if maxDocRecordBytes - docRecordHeaderLen - gcmTagLen <? len compressed then throw EText
    else
      box ← lift (newGCM key);
      nonce ← rand 12;
      let header := docRecordHeader rev (len json) nonce in
      mret (header ++ gcmSeal box nonce compressed (recordAD documentAD pebbleKey header)).

(** ** Store metadata *)

(** [value, closer, err := db.Get(key)]: [None] where the error is
    [pebble.ErrNotFound], any other error wrapped. *)
Definition lookupKey (key : bytes) : M W (option bytes) :=
  r ← catch (dbGet key);
  match r with
  | inr value => mret (Some value)
  | inl e => if errorsIs pebbleErrNotFound e then mret None else throw (wrapStore e)
  end.

Definition storeVerifier : bytes := sha256 (str "kantandb/store/verifier/v1").

Definition storeEmpty : M W bool :=
  it ← newIter None None;
  deferClose (
    let empty := match it_entries it with [] => true | _ => false end in
    _ ← iterError it (it_entries it);
    mret empty).

Definition storeMetaHeader (salt nonce : bytes) : bytes :=
  storeMetaVersion :: wrappingKey1 :: salt ++ nonce.

Definition initStoreMeta (masterKey : bytes) : M W bytes :=
  empty ← storeEmpty;
  if negb empty then throw errInvalidStoreKey
  else
    salt ← rand 32;
    let key := deriveWrapKey masterKey salt in
    box ← lift (newGCM key);
    nonce ← rand 12;
    let header := storeMetaHeader salt nonce in
    let value := header ++ gcmSeal box nonce storeVerifier
                             (recordAD storeADInfo storeMetaKey header) in
    _ ← onErr wrapStore (ofOpt (pebbleSet storeMetaKey value));
    mret key.

Definition openStoreMeta (value masterKey : bytes) : res bytes :=
  if negb (len value =? storeMetaHeaderLen + len storeVerifier + gcmTagLen)
     || negb (beqb (at_ value 0) storeMetaVersion) || negb (beqb (at_ value 1) wrappingKey1)
  then Err errInvalidStoreKey
  else
    let header := take (Z.to_nat storeMetaHeaderLen) value in
    let key := deriveWrapKey masterKey (take 32 (drop 2 header)) in
    box ← newGCM key;
    match gcmOpen box (drop 34 header) (drop (Z.to_nat storeMetaHeaderLen) value)
            (recordAD storeADInfo storeMetaKey header) with
    | Some plain => if decide (plain = storeVerifier) then Ok key else Err errInvalidStoreKey
    | None => Err errInvalidStoreKey
    end.

Definition initStoreCrypto (masterKey : bytes) : M W bytes :=
  if negb (len masterKey =? keySize) then throw errInvalidStoreKey
  else
    value ← lookupKey storeMetaKey;
    match value with
    | None => initStoreMeta masterKey
    | Some value =>
        _ ← close;
        match openStoreMeta value masterKey with
        | Ok key => mret key
        | _ => throw errInvalidStoreKey
        end
    end.

(** ** Opening a store (storage.go) *)

(** The store is its wrapping key; the database behind it is the host's. *)
Definition openStore (masterKey : bytes) : M W bytes :=
  _ ← onErr wrapf (ofOpt pebbleOpen);
  wrappingKey ← catch (initStoreCrypto masterKey);
  match wrappingKey with
  | inr key => mret key
  | inl err =>
      closed ← catch (ofOpt pebbleClose);
      throw (match closed with inl closeErr => join err (wrapf closeErr) | inr _ => err end)
  end.

Definition closeStore : M W unit := onErr wrapf (ofOpt pebbleClose).
End Sealing.

(** ** Lemmas: what is sealed opens *)

Lemma take_app_len {A} n (l k : list A) : length l = n -> take n (l ++ k) = l.
Proof. intros <-. apply take_app_length. Qed.

Lemma drop_app_len {A} n (l k : list A) : length l = n -> drop n (l ++ k) = k.
Proof. intros <-. apply drop_app_length. Qed.

Lemma length_putUint64 x : length (putUint64 x) = 8%nat.
Proof. apply length_putBE. Qed.

Lemma getUint64_putUint64 x : 0 <= x < 2 ^ 64 -> getUint64 (putUint64 x) = x.
Proof.
  intros Hx. unfold getUint64, putUint64. rewrite getBE_putBE.
  change (256 ^ Z.of_nat 8) with (2 ^ 64). by apply Z.mod_small.
Qed.

Lemma length_len {A} (l : list A) n : len l = Z.of_nat n -> length l = n.
Proof. unfold len. lia. Qed.

Lemma aesKeyLen_32 key : len key = keySize -> aesKeyLen key = true.
Proof. unfold aesKeyLen. by intros ->. Qed.

Lemma newGCM_32 key : len key = keySize -> newGCM key = Ok key.
Proof. intros H. unfold newGCM. by rewrite aesKeyLen_32. Qed.

Section RoundTrips.
Context `{CryptoSpec}.

(** The documents that fit a record. *)
Definition sealable (json : bytes) : bool :=
  (len json <=? maxStoredDocBytes)
  && (len (zstdEncode json) <=? maxDocRecordBytes - docRecordHeaderLen - gcmTagLen).

Definition sealedDoc (pebbleKey key nonce : bytes) (rev : revision) (json : bytes) : bytes :=
  docRecordHeader rev (len json) nonce
    ++ gcmSeal key nonce (zstdEncode json)
         (recordAD documentAD pebbleKey (docRecordHeader rev (len json) nonce)).

Lemma length_docRecordHeader rev length nonce :
  wf_revision rev -> List.length nonce = 12%nat ->
  List.length (docRecordHeader rev length nonce) = 38%nat.
Proof.
  intros Hr Hn. apply (length_len _ 16) in Hr. unfold docRecordHeader. cbn [List.length].
  rewrite !length_app, length_putUint64, Hr, Hn. done.
Qed.

Lemma parseDocRecord_sealedDoc pebbleKey key nonce rev json :
  wf_revision rev -> length nonce = 12%nat -> sealable json = true ->
  parseDocRecord (sealedDoc pebbleKey key nonce rev json)
  = Ok (docRecordHeader rev (len json) nonce, rev, len json).
Proof.
  intros Hr Hn [H1%Z.leb_le H2%Z.leb_le]%andb_true_iff.
  pose proof (length_docRecordHeader rev (len json) nonce Hr Hn) as Hh.
  unfold parseDocRecord, sealedDoc. set (h := docRecordHeader _ _ _) in *.
  rewrite len_app, len_gcmSeal. unfold len at 1 3. rewrite Hh.
  pose proof (len_nonneg (zstdEncode json)). change docRecordHeaderLen with 38 in *.
  destruct (Z.ltb_spec (Z.of_nat 38 + (len (zstdEncode json) + gcmTagLen)) (38 + gcmTagLen)); [lia|].
  destruct (Z.ltb_spec maxDocRecordBytes (Z.of_nat 38 + (len (zstdEncode json) + gcmTagLen))); [lia|].
  cbn [orb]. change (Z.to_nat 38) with 38%nat. rewrite take_app_len by done.
  assert (at_ (h ++ gcmSeal key nonce (zstdEncode json) (recordAD documentAD pebbleKey h)) 0
          = docRecordVersion) as -> by done.
  assert (at_ (h ++ gcmSeal key nonce (zstdEncode json) (recordAD documentAD pebbleKey h)) 1
          = cipherSuite1) as -> by done.
  rewrite !beqb_refl. cbn [orb negb]. apply (length_len _ 16) in Hr.
  assert (drop 2 h = rev ++ putUint64 (len json) ++ nonce) as -> by done.
  replace (drop 18 h) with (putUint64 (len json) ++ nonce).
  - rewrite take_app_len, take_app_len by (done || apply length_putUint64).
    rewrite getUint64_putUint64; [done|]. pose proof (len_nonneg json).
    unfold maxStoredDocBytes in H1. lia.
  - change 18%nat with (2 + 16)%nat. rewrite <- drop_drop.
    change (drop 2 h) with (rev ++ putUint64 (len json) ++ nonce). by rewrite drop_app_len.
Qed.

Lemma deriveKey_32 dbk info : len dbk = keySize -> deriveKey dbk info = Ok (hkdfSha256 dbk [] info).
Proof. intros Hk. unfold deriveKey. by rewrite Hk. Qed.

Definition docKeyOf (dbk id : bytes) : bytes := hkdfSha256 dbk [] (documentKeyInfo id).

Lemma openDoc_sealedDoc pebbleKey dbk id nonce rev json :
  wf_revision rev -> length nonce = 12%nat -> sealable json = true -> len dbk = keySize ->
  openDoc pebbleKey dbk id (sealedDoc pebbleKey (docKeyOf dbk id) nonce rev json)
  = Ok (StoredDoc json rev).
Proof.
  intros Hr Hn Hs Hk. unfold openDoc. rewrite parseDocRecord_sealedDoc by done.
  cbn [mbind res_bind]. unfold deriveDocumentKey. rewrite deriveKey_32 by done.
  cbn [map_err mbind res_bind]. rewrite newGCM_32 by apply len_hkdf. cbn [mbind res_bind].
  pose proof (length_docRecordHeader rev (len json) nonce Hr Hn) as Hh.
  unfold sealedDoc. set (h := docRecordHeader _ _ _) in *.
  change (Z.to_nat docRecordHeaderLen) with 38%nat. rewrite drop_app_len by done.
  assert (drop 26 h = nonce) as ->.
  { apply (length_len _ 16) in Hr. change 26%nat with (2 + (16 + 8))%nat. rewrite <- !drop_drop.
    change (drop 2 h) with (rev ++ putUint64 (len json) ++ nonce).
    rewrite drop_app_len by done. by rewrite drop_app_len by apply length_putUint64. }
  unfold docKeyOf. rewrite gcmOpen_gcmSeal; [|apply aesKeyLen_32, len_hkdf|unfold len; by rewrite Hn].
  apply andb_true_iff in Hs as [H1%Z.leb_le _].
  destruct (Z.ltb_spec maxStoredDocBytes (len json)); [lia|].
  rewrite zstdReaderErr_none, zstdDecode_zstdEncode by lia. by rewrite Z.eqb_refl.
Qed.

Definition wrappedKey (wrappingKey pebbleKey nonce dbk : bytes) : bytes :=
  dbRecordHeader nonce
    ++ gcmSeal wrappingKey nonce dbk (recordAD databaseAD pebbleKey (dbRecordHeader nonce)).

Lemma unwrapDBKey_wrappedKey wk pebbleKey nonce dbk :
  len wk = keySize -> length nonce = 12%nat -> len dbk = keySize ->
  unwrapDBKey wk pebbleKey (wrappedKey wk pebbleKey nonce dbk) = Ok dbk.
Proof.
  intros Hw Hn Hk. unfold unwrapDBKey, wrappedKey.
  assert (length (dbRecordHeader nonce) = 14%nat) as Hh by (simpl; by rewrite Hn).
  set (h := dbRecordHeader nonce) in *. rewrite len_app, len_gcmSeal, Hk.
  unfold len at 1. rewrite Hh. rewrite newGCM_32 by done.
  change (Z.of_nat 14 + (keySize + gcmTagLen) =? dbRecordHeaderLen + keySize + gcmTagLen) with true.
  change (Z.to_nat dbRecordHeaderLen) with 14%nat.
  rewrite take_app_len, drop_app_len by done.
  assert (at_ (h ++ gcmSeal wk nonce dbk (recordAD databaseAD pebbleKey h)) 0 = dbRecordVersion)
    as -> by done.
  assert (at_ (h ++ gcmSeal wk nonce dbk (recordAD databaseAD pebbleKey h)) 1 = wrappingKey1)
    as -> by done.
  rewrite !beqb_refl. cbn [negb orb mbind res_bind]. change (drop 2 h) with nonce.
  rewrite gcmOpen_gcmSeal; [|by apply aesKeyLen_32|unfold len; by rewrite Hn]. by rewrite Hk.
Qed.

Lemma unwrapDBKey_len wk pebbleKey value dbk :
  unwrapDBKey wk pebbleKey value = Ok dbk -> len dbk = keySize.
Proof.
  unfold unwrapDBKey. destruct (_ || _); [done|]. intros (box & _ & H')%res_bind_ok.
  destruct (gcmOpen _ _ _ _) as [key|]; [|done].
  destruct (Z.eqb_spec (len key) keySize); [|done]. by injection H' as <-.
Qed.
End RoundTrips.
