(* ===== verification/Wp.v ===== *)
(** * Reasoning about effectful code

    [reads c m P E]: run where the store holds [c], [m] leaves the store as it
    is; it returns a value in [P] or an exit in [E], unless something outside has
    failed.  [triple c m Q F] is the same for code that may write.  A failure
    outside shows as an error of its own kind, [outside]: never as a missing
    document, a conflict or any other answer of the program. *)

From S2P Require Import Prelude GoErrors Keys Host Crypto.

(** How a call ends other than by a value: [Some e] an error, [None] out of
    fuel. *)
Notation exits := (option error -> Prop).

Definition noExit : exits := fun _ => False.

(** The errors that only a failure outside explains. *)
Definition outsideExit : exits := fun x => exists e, x = Some e /\ outside e.

Section Wp.
Context {W : Type} `{HS : HostSpec W}.
Implicit Types c : gmap bytes bytes.
Implicit Types e : error.

(** The world changed, the store did not. *)
Definition frame (w w' : W) : Prop := contents w' = contents w /\ (faulty w -> faulty w').

#[global] Instance frame_refl : Reflexive frame.
Proof. by split. Qed.

#[global] Instance frame_trans : Transitive frame.
Proof. intros w1 w2 w3 [E1 F1] [E2 F2]. split; [congruence|auto]. Qed.

Definition reads {A : Type} (c : gmap bytes bytes) (m : M W A) (P : A -> Prop) (E : exits) : Prop :=
  forall w, contents w = c ->
    let '(r, w') := m w in
    frame w w' /\
    match r with
    | Ok a => P a
    | Err e => (faulty w' /\ outside e) \/ E (Some e)
    | OutOfFuel => E None
    end.

(** [Q r c']: the result and the store it leaves.  A run that meets a fault may
    stop in any state of [F]. *)
Definition triple {A : Type} (c : gmap bytes bytes) (m : M W A)
    (Q : res A -> gmap bytes bytes -> Prop) (F : gmap bytes bytes -> Prop) : Prop :=
  forall w, contents w = c ->
    let '(r, w') := m w in
    (faulty w -> faulty w') /\
    (Q r (contents w') \/ (exists e, r = Err e /\ outside e) /\ faulty w' /\ F (contents w')).

(** ** Structural rules *)

Lemma reads_ret {A : Type} c (a : A) (P : A -> Prop) (E : exits) : P a -> reads c (mret a) P E.
Proof. intros HP w <-. done. Qed.

Lemma reads_throw {A : Type} c e (P : A -> Prop) (E : exits) : E (Some e) -> reads c (throw e) P E.
Proof. intros HE w <-. split; [done|by right]. Qed.

Lemma reads_outOfFuel {A : Type} c (P : A -> Prop) (E : exits) : E None -> reads c outOfFuel P E.
Proof. intros HE w <-. done. Qed.

Lemma reads_lift {A : Type} c (r : res A) (P : A -> Prop) (E : exits) :
  match r with Ok a => P a | Err e => E (Some e) | OutOfFuel => E None end ->
  reads c (lift r) P E.
Proof. intros Hr w <-. split; [done|]. simpl. destruct r; auto. Qed.

Lemma reads_mono {A : Type} c (m : M W A) (P P' : A -> Prop) (E E' : exits) :
  reads c m P E -> (forall a, P a -> P' a) -> (forall x, E x -> E' x) -> reads c m P' E'.
Proof.
  intros Hm HP HE w Hw. specialize (Hm w Hw). destruct (m w) as [r w'].
  destruct Hm as [Hf Hr]. split; [done|]. destruct r; naive_solver.
Qed.

Lemma reads_exits {A : Type} c (m : M W A) (P : A -> Prop) (E : exits) :
  reads c m P noExit -> reads c m P E.
Proof. intros Hm. by eapply reads_mono. Qed.

Lemma reads_bind {A B : Type} c (m : M W A) (k : A -> M W B) P (P' : B -> Prop) (E : exits) :
  reads c m P E -> (forall a, P a -> reads c (k a) P' E) -> reads c (m ≫= k) P' E.
Proof.
  intros Hm Hk w Hw. specialize (Hm w Hw). unfold mbind, M_bind.
  destruct (m w) as [[a|e|] w1]; destruct Hm as [Hf Hr]; [|by split..].
  specialize (Hk a Hr w1). destruct (k a w1) as [r w2].
  destruct Hk as [Hf2 Hr2]; [destruct Hf; congruence|]. split; [by etrans|done].
Qed.

(** An error mapped by a function that keeps outside errors outside. *)
Lemma reads_onErr {A : Type} c f (m : M W A) (P : A -> Prop) (E : exits) :
  (forall e, outside e -> outside (f e)) ->
  reads c m P (fun x => E (f <$> x)) -> reads c (onErr f m) P E.
Proof.
  intros Hf Hm w Hw. specialize (Hm w Hw). unfold onErr.
  destruct (m w) as [[a|e|] w1]; try done. naive_solver.
Qed.

Lemma reads_wrapped {A : Type} c f (m : M W A) (P : A -> Prop) :
  (forall e, outside e -> outside (f e)) ->
  reads c m P noExit -> reads c (onErr f m) P noExit.
Proof. apply (reads_onErr c f m P noExit). Qed.

Lemma onErr_lift {A : Type} f (r : res A) w : onErr (W := W) f (lift r) w = lift (map_err f r) w.
Proof. by destruct r. Qed.

Lemma reads_onErr_lift {A : Type} c f (r : res A) (P : A -> Prop) (E : exits) :
  match r with Ok a => P a | Err e => E (Some (f e)) | OutOfFuel => E None end ->
  reads c (onErr f (lift r)) P E.
Proof.
  intros Hr w Hw. rewrite onErr_lift.
  refine (reads_lift c (map_err f r) P E _ w Hw). by destruct r.
Qed.

(** ** The calls of the host *)

Lemma reads_close c (P : unit -> Prop) (E : exits) : P () -> reads c close P E.
Proof.
  intros HP w Hw. unfold close, onErr, ofOpt. pose proof (pebbleClose_spec w) as HC.
  destruct (pebbleClose w) as [[e|] w']; destruct HC as (H1 & H2 & H3); split; auto; try done.
  left. destruct H3. auto with goerr.
Qed.

(** The deferred close adds its error to the one of the body. *)
Lemma reads_deferClose {A : Type} c (m : M W A) (P : A -> Prop) (E : exits) :
  reads c m P E ->
  (forall e ce, E (Some e) -> outside ce -> outside (join e ce) \/ E (Some (join e ce))) ->
  reads c (deferClose m) P E.
Proof.
  intros Hm HE w Hw. specialize (Hm w Hw). unfold deferClose.
  destruct (m w) as [r w1]. destruct Hm as [Hf Hr].
  pose proof (reads_close c (fun _ => True) noExit I w1) as HC.
  destruct (close w1) as [rc w2].
  destruct HC as [Hf2 HC2]; [destruct Hf; congruence|].
  assert (frame w w2) as Hf3 by (by etrans).
  assert (faulty w1 -> faulty w2) as Hf4 by apply Hf2.
  destruct rc as [u|ce|]; [|destruct HC2 as [[HC2 Hce]|[]]|destruct HC2].
  - split; [done|]. destruct r; [done| |done]. naive_solver.
  - destruct r as [a|e|]; (split; [done|]); [| |done].
    + left. auto with goerr.
    + destruct Hr as [[_ Hr]|Hr]; [left; auto with goerr|].
      destruct (HE e ce Hr Hce); auto.
Qed.

Lemma reads_deferClose_noExit {A : Type} c (m : M W A) (P : A -> Prop) :
  reads c m P noExit -> reads c (deferClose m) P noExit.
Proof. intros Hm. by apply reads_deferClose. Qed.

Lemma reads_deferClose_outside {A : Type} c (m : M W A) (P : A -> Prop) :
  reads c m P outsideExit -> reads c (deferClose m) P outsideExit.
Proof.
  intros Hm. apply reads_deferClose; [done|]. intros e ce (? & [= <-] & He) Hce. auto with goerr.
Qed.

Lemma reads_rand c n (E : exits) : reads c (rand n) (fun b => length b = n) E.
Proof.
  intros w Hw. unfold rand, onErr, ofSum. pose proof (randRead_spec n w) as HR.
  destruct (randRead n w) as [[e|b] w']; destruct HR as (H1 & H2 & H3); split; auto; try done.
  left. destruct H3. auto with goerr.
Qed.

Lemma reads_now c (E : exits) : reads c now (fun _ => True) E.
Proof.
  intros w Hw. unfold now, ofVal. pose proof (nowMillis_spec w) as HR.
  destruct (nowMillis w) as [z w']. by destruct HR.
Qed.

Lemma reads_ctxErr c ctx (E : exits) : reads c (ctxErr ctx) (fun _ => True) E.
Proof.
  intros w Hw. destruct ctx; [done|]. simpl. unfold ofOpt. pose proof (requestErr_spec w) as HR.
  destruct (requestErr w) as [[e|] w']; destruct HR as (H1 & H2 & H3); split; auto; try done.
  left. destruct H3 as [[-> | ->] Hf]; (split; [done|]); by apply outside_sentinel.
Qed.

(** The expiry of the deadline is a failure outside, which [k] reports. *)
Lemma reads_ctxExpired {A : Type} c ctx (k : bool -> M W A) (P : A -> Prop) (E : exits) e :
  reads c (k false) P E -> outside e -> k true = throw e -> reads c (ctxExpired ctx ≫= k) P E.
Proof.
  intros Hk Ho Ht w Hw. destruct ctx; [exact (Hk w Hw)|]. unfold mbind, M_bind. simpl. unfold ofVal.
  pose proof (requestExpired_spec w) as HR. destruct (requestExpired w) as [[] w1].
  - destruct HR as (H1 & H2 & H3). rewrite Ht. split; [by split|]. left. split; [by apply H3|done].
  - destruct HR as (H1 & H2 & _). specialize (Hk w1). rewrite H1 in Hk. specialize (Hk Hw).
    destruct (k false w1) as [r w2]. destruct Hk as [Hf Hr]. split; [|done]. etransitivity; [|exact Hf]. by split.
Qed.

Lemma reads_newSnapshot c (E : exits) :
  reads c newSnapshot (fun s => snapContents s = c) E.
Proof.
  intros w Hw. unfold newSnapshot, ofVal. pose proof (pebbleSnapshot_spec w) as HR.
  destruct (pebbleSnapshot w) as [s w']. destruct HR as (H1 & H2 & H3). by rewrite H3.
Qed.

(** A loop over an iterator: one that has met an error delivers a part of the
    entries only, and the body must then end with an outside error. *)
Lemma reads_ofIter {A : Type} c lo hi (m : M W iter) (body : iter -> M W A) P (E : exits) c0 :
  (forall w, contents w = c ->
     let '(r, w') := m w in
     frame w w' /\
     match r with
     | Ok it => match it_err it with
                | None => isScan c0 lo hi (it_entries it)
                | Some e => foreign e /\ faulty w' /\ isPartialScan c0 lo hi (it_entries it)
                end
     | Err e => faulty w' /\ outside e
     | OutOfFuel => False
     end) ->
  (forall it, it_err it = None -> isScan c0 lo hi (it_entries it) -> reads c (body it) P E) ->
  (forall it e, it_err it = Some e -> foreign e -> isPartialScan c0 lo hi (it_entries it) ->
     reads c (body it) P (fun x => outsideExit x \/ E x)) ->
  reads c (it ← m; body it) P E.
Proof.
  intros Hm Hgood Hbad w Hw. specialize (Hm w Hw). unfold mbind, M_bind.
  destruct (m w) as [[it|e|] w1]; destruct Hm as [Hf Hr]; [|by split; auto|done].
  assert (contents w1 = c) as Hc1 by (destruct Hf; congruence).
  destruct (it_err it) as [e|] eqn:He.
  - destruct Hr as (Hfe & Hf1 & Hp). specialize (Hbad it e He Hfe Hp w1 Hc1).
    destruct (body it w1) as [r w2]. destruct Hbad as [Hf2 Hr2].
    assert (faulty w2) by (by apply Hf2).
    split; [by etrans|]. unfold outsideExit in Hr2. destruct r; naive_solver.
  - specialize (Hgood it He Hr w1 Hc1). destruct (body it w1) as [r w2].
    destruct Hgood as [Hf2 Hr2]. split; [by etrans|done].
Qed.

Lemma reads_newIter {A : Type} c lo hi (body : iter -> M W A) P (E : exits) :
  (forall it, it_err it = None -> isScan c lo hi (it_entries it) -> reads c (body it) P E) ->
  (forall it e, it_err it = Some e -> foreign e -> isPartialScan c lo hi (it_entries it) ->
     reads c (body it) P (fun x => outsideExit x \/ E x)) ->
  reads c (it ← newIter lo hi; body it) P E.
Proof.
  apply reads_ofIter. intros w Hw. unfold newIter, onErr, ofSum.
  pose proof (pebbleIter_spec lo hi w) as HI.
  destruct (pebbleIter lo hi w) as [[e|it] w']; destruct HI as (H1 & H2 & H3).
  - split; [done|]. destruct H3. auto with goerr.
  - split; [done|]. by rewrite <- Hw.
Qed.

Lemma reads_snapIter {A : Type} c s lo hi (body : iter -> M W A) P (E : exits) :
  (forall it, it_err it = None -> isScan (snapContents s) lo hi (it_entries it) ->
     reads c (body it) P E) ->
  (forall it e, it_err it = Some e -> foreign e ->
     isPartialScan (snapContents s) lo hi (it_entries it) ->
     reads c (body it) P (fun x => outsideExit x \/ E x)) ->
  reads c (it ← snapIter s lo hi; body it) P E.
Proof.
  apply reads_ofIter. intros w Hw. unfold snapIter, onErr, ofSum.
  pose proof (snapshotIter_spec s lo hi w) as HI.
  destruct (snapshotIter s lo hi w) as [[e|it] w']; destruct HI as (H1 & H2 & H3).
  - split; [done|]. destruct H3. auto with goerr.
  - by split.
Qed.

(** [db.Get] and [snapshot.Get], the error seen by the caller. *)
Lemma reads_ofGet {A : Type} c k (f : W -> (error + bytes) * W) (body : error + bytes -> M W A) P
    (E : exits) c0 :
  (forall w, contents w = c ->
    let '(r, w') := f w in
    contents w' = c /\ (faulty w -> faulty w') /\
    match r with
    | inr v => c0 !! k = Some v
    | inl e => foreign e /\
        (errorsIs pebbleErrNotFound e = true /\ c0 !! k = None \/
         errorsIs pebbleErrNotFound e = false /\ faulty w')
    end) ->
  (forall v, c0 !! k = Some v -> reads c (body (inr v)) P E) ->
  (forall e, errorsIs pebbleErrNotFound e = true -> c0 !! k = None -> reads c (body (inl e)) P E) ->
  (forall e, errorsIs pebbleErrNotFound e = false -> foreign e ->
     reads c (body (inl e)) P outsideExit) ->
  reads c (r ← catch (ofSum f); body r) P E.
Proof.
  intros Hg H1 H2 H3 w Hw. specialize (Hg w Hw). unfold mbind, M_bind, catch, ofSum.
  destruct (f w) as [[e|v] w1]; destruct Hg as (Hc & Hf & Hr).
  - destruct Hr as (Hfe & [[He Hn]|[He Hn]]).
    + specialize (H2 e He Hn w1 Hc). destruct (body (inl e) w1) as [r w2].
      destruct H2 as [HF ?]. split; [etrans; [|exact HF]; by split; [congruence|]|done].
    + specialize (H3 e He Hfe w1 Hc). destruct (body (inl e) w1) as [r w2].
      destruct H3 as [HF Hr]. assert (faulty w2) by (by apply HF).
      split; [etrans; [|exact HF]; by split; [congruence|]|].
      unfold outsideExit in Hr. destruct r; naive_solver.
  - specialize (H1 v Hr w1 Hc). destruct (body (inr v) w1) as [r w2].
    destruct H1 as [HF ?]. split; [etrans; [|exact HF]; by split; [congruence|]|done].
Qed.

(** [lookupKey] gives the value of a key, [None] where there is none. *)
Lemma reads_lookupKey c k (E : exits) : reads c (lookupKey k) (fun o => o = c !! k) E.
Proof.
  unfold lookupKey. apply (reads_ofGet c k _ _ _ _ c).
  - intros w <-. pose proof (pebbleGet_spec k w) as HG.
    destruct (pebbleGet k w) as [[e|v] w']; naive_solver.
  - intros v Hv. by apply reads_ret.
  - intros e -> Hn. by apply reads_ret.
  - intros e -> He. apply reads_throw. eexists. split; [done|]. auto with goerr.
Qed.

Lemma reads_iterError_ok c it rest (E : exits) :
  it_err it = None -> reads c (iterError it rest) (fun _ => True) E.
Proof. intros He. unfold iterError. rewrite He. destruct rest; by apply reads_ret. Qed.

Lemma reads_iterError_bad c it e (P : unit -> Prop) :
  it_err it = Some e -> foreign e -> reads c (iterError it []) P outsideExit.
Proof.
  intros He Hf. unfold iterError. rewrite He. apply reads_throw. eexists.
  split; [done|]. auto with goerr.
Qed.

Lemma reads_queue c b op (E : exits) : reads c (queue b op) (fun b' => b' = b ++ [op]) E.
Proof.
  intros w Hw. unfold queue, onErr, ofOpt, mbind, M_bind. pose proof (pebbleQueue_spec op w) as HQ.
  destruct (pebbleQueue op w) as [[e|] w']; destruct HQ as (H1 & H2 & H3); split; auto; try done.
  left. destruct H3. auto with goerr.
Qed.

(** ** Code that writes *)

(** A prefix that only reads: its exits are exits of the whole. *)
Lemma triple_bind_reads {A B : Type} c (m : M W A) (k : A -> M W B) (P : A -> Prop) (E : exits) Q F :
  reads c m P E -> (forall a, P a -> triple c (k a) Q F) ->
  (forall e, E (Some e) -> Q (Err e) c) -> (E None -> Q OutOfFuel c) -> F c ->
  triple c (m ≫= k) Q F.
Proof.
  intros Hm Hk He Hn HF w Hw. specialize (Hm w Hw). unfold mbind, M_bind.
  destruct (m w) as [[a|e|] w1]; destruct Hm as [[Hc Hf] Hr].
  - specialize (Hk a Hr w1 ltac:(congruence)). destruct (k a w1) as [r w2].
    destruct Hk as [Hf2 Hr2]. split; [auto|done].
  - split; [done|]. rewrite Hc, Hw. destruct Hr as [[Hr Ho]|Hr]; [|by left; apply He].
    right. split; [by exists e|done].
  - split; [done|]. left. rewrite Hc, Hw. by apply Hn.
Qed.

Lemma triple_throw {A : Type} c e (Q : res A -> gmap bytes bytes -> Prop)
    (F : gmap bytes bytes -> Prop) : Q (Err e) c -> triple c (throw e) Q F.
Proof. intros HQ w <-. split; [done|by left]. Qed.

(** A result passed on. *)
Lemma triple_fmap {A B : Type} c (m : M W A) (f : A -> B)
    (Q : res B -> gmap bytes bytes -> Prop) (F : gmap bytes bytes -> Prop) :
  triple c m (fun r c' => Q (f <$> r) c') F -> triple c (a ← m; mret (f a)) Q F.
Proof.
  intros Hm w Hw. specialize (Hm w Hw). unfold mbind, M_bind.
  destruct (m w) as [[a|e|] w1]; destruct Hm as [Hf Hr]; (split; [done|]).
  - destruct Hr as [Hr|((e & He & _) & _)]; [by left|done].
  - destruct Hr as [Hr|((e' & He & Ho) & Hr)]; [by left|right]. split; [|done].
    injection He as <-. by exists e.
  - destruct Hr as [Hr|((e & He & _) & _)]; [by left|done].
Qed.

Lemma triple_commit c (b : batch) (Q : res unit -> gmap bytes bytes -> Prop)
    (F : gmap bytes bytes -> Prop) :
  Q (Ok ()) (applyBatch c b) -> F c -> F (applyBatch c b) -> triple c (commit b) Q F.
Proof.
  intros HQ HF1 HF2 w Hw. unfold commit, onErr, ofOpt. pose proof (pebbleCommit_spec b w) as HC.
  destruct (pebbleCommit b w) as [[e|] w']; destruct HC as (H2 & H3); (split; [done|]).
  - right. destruct H3 as (Ho & H3 & Hc). split; [eexists; auto with goerr|].
    rewrite Hw in Hc. by destruct Hc as [->| ->].
  - left. by rewrite H3, Hw.
Qed.

Lemma triple_deferClose {A : Type} c (m : M W A) (Q Q' : res A -> gmap bytes bytes -> Prop)
    (F : gmap bytes bytes -> Prop) :
  triple c m Q F ->
  (forall a c', Q (Ok a) c' -> Q' (Ok a) c' /\ F c') ->
  (forall e c', Q (Err e) c' -> Q' (Err e) c' /\ forall ce, outside ce ->
     outside (join e ce) /\ F c' \/ Q' (Err (join e ce)) c') ->
  (forall c', Q OutOfFuel c' -> Q' OutOfFuel c') ->
  triple c (deferClose m) Q' F.
Proof.
  intros Hm HQ HE HO w Hw. specialize (Hm w Hw). unfold deferClose.
  destruct (m w) as [r w1]. destruct Hm as [Hf Hr].
  pose proof (reads_close (contents w1) (fun _ => True) noExit I w1 eq_refl) as HC.
  destruct (close w1) as [rc w2]. destruct HC as [[Hc2 Hf2] HC2].
  destruct rc as [u|ce|]; [|destruct HC2 as [[HC2 Hce]|[]]|destruct HC2].
  - destruct r; (split; [auto|]); rewrite Hc2; naive_solver.
  - destruct r as [a|e|]; (split; [auto|]); rewrite Hc2.
    + destruct Hr as [Hr|((? & ? & _) & _)]; [|done]. right. split; [eexists; auto with goerr|].
      split; [done|]. by eapply HQ.
    + destruct Hr as [Hr|((e' & [= <-] & Ho) & _ & Hr)].
      * destruct (HE e _ Hr) as [_ HE']. destruct (HE' ce Hce) as [[? ?]|?]; [right|by left].
        split; [by eexists|done].
      * right. split; [eexists; auto with goerr|done].
    + destruct Hr as [Hr|((? & ? & _) & _)]; [left; auto|done].
Qed.

Lemma triple_mono {A : Type} c (m : M W A) (Q Q' : res A -> gmap bytes bytes -> Prop)
    (F F' : gmap bytes bytes -> Prop) :
  triple c m Q F -> (forall r c', Q r c' -> Q' r c') -> (forall c', F c' -> F' c') ->
  triple c m Q' F'.
Proof.
  intros Hm HQ HF w Hw. specialize (Hm w Hw). destruct (m w) as [r w'].
  destruct Hm as [Hf Hr]. split; [done|]. naive_solver.
Qed.

(** A deferred close around code that ends in a commit. *)
Lemma triple_deferWrite {A : Type} c (m : M W A) (Q : res A -> gmap bytes bytes -> Prop)
    (F : gmap bytes bytes -> Prop) :
  triple c m (fun r c' => exists a, r = Ok a /\ Q r c') F -> (forall a c', Q (Ok a) c' -> F c') ->
  triple c (deferClose m) Q F.
Proof.
  intros Hm HQ. eapply triple_deferClose; [exact Hm|..].
  - intros a c' (? & _ & ?). split; [done|]. by eapply HQ.
  - by intros e c' (? & ? & _).
  - by intros c' (? & ? & _).
Qed.
End Wp.
