(* ===== verification/Conn.v ===== *)
(** * The connection of a request

    The response a handler streams to: writes, flushes and deadlines that can
    fail, as an interface of their own; and the host with a piece of a handler's
    state beside it, so that the store's operations run unchanged in a handler
    that keeps state. *)

From S2P Require Import Prelude GoErrors Keys Host.

(** [http.ResponseWriter] and [http.ResponseController]. *)
Class Conn (W : Type) := {
  connWrite : bytes -> W -> option error * W;
  connFlush : W -> option error * W;
  connDeadline : W -> option error * W;
}.

(** What the client does is no business of the store. *)
Class ConnSpec (W : Type) `{HostSpec W} `{Conn W} := {
  connWrite_spec b w :
    let '(_, w') := connWrite b w in contents w' = contents w /\ (faulty w -> faulty w');
  connFlush_spec w :
    let '(_, w') := connFlush w in contents w' = contents w /\ (faulty w -> faulty w');
  connDeadline_spec w :
    let '(e, w') := connDeadline w in
    contents w' = contents w /\ (faulty w -> faulty w') /\ (forall err, e = Some err -> foreign err);
}.

(** A connection that takes all it is given, with or without deadlines. *)
Definition reliable (W : Type) `{Conn W} : Prop :=
  (forall b w, (connWrite b w).1 = None) /\ (forall w, (connFlush w).1 = None) /\
  (forall w e, (connDeadline w).1 = Some e -> errorsIs httpErrNotSupported e = true).

(** ** The host beside a state *)

Section Beside.
Context {W S : Type} `{Host W}.

Definition beside {A} (f : W -> A * W) : W * S -> A * (W * S) :=
  fun ws => let '(a, w') := f ws.1 in (a, (w', ws.2)).

#[global] Instance besideHost : Host (W * S) := {|
  snapshot := snapshot (W := W);
  pebbleOpen := beside pebbleOpen;
  pebbleGet k := beside (pebbleGet k);
  pebbleSet k v := beside (pebbleSet k v);
  pebbleIter lo hi := beside (pebbleIter lo hi);
  pebbleSnapshot := beside pebbleSnapshot;
  snapshotGet s k := beside (snapshotGet s k);
  snapshotIter s lo hi := beside (snapshotIter s lo hi);
  pebbleQueue op := beside (pebbleQueue op);
  pebbleCommit b := beside (pebbleCommit b);
  pebbleClose := beside pebbleClose;
  batchLen := batchLen (W := W);
  randRead n := beside (randRead n);
  nowMillis := beside nowMillis;
  requestErr := beside requestErr;
  requestExpired := beside requestExpired;
|}.

#[local] Obligation Tactic := idtac.

#[local] Ltac law L call := simpl; unfold beside; pose proof L; simpl; by destruct call.

#[global] Program Instance besideHostSpec `{!HostSpec W} : HostSpec (W * S) := {|
  contents ws := contents ws.1;
  faulty ws := faulty ws.1;
  snapContents s := snapContents (W := W) s;
|}.
Next Obligation. intros ? [w s]. law (pebbleOpen_spec (W := W) w) (pebbleOpen w). Qed.
Next Obligation. intros ? k [w s]. law (pebbleGet_spec (W := W) k w) (pebbleGet k w). Qed.
Next Obligation. intros ? k v [w s]. law (pebbleSet_spec (W := W) k v w) (pebbleSet k v w). Qed.
Next Obligation. intros ? lo hi [w s]. law (pebbleIter_spec (W := W) lo hi w) (pebbleIter lo hi w). Qed.
Next Obligation. intros ? [w s]. law (pebbleSnapshot_spec (W := W) w) (pebbleSnapshot w). Qed.
Next Obligation. intros ? sn k [w s]. law (snapshotGet_spec (W := W) sn k w) (snapshotGet (W := W) sn k w). Qed.
Next Obligation. intros ? sn lo hi [w s]. law (snapshotIter_spec (W := W) sn lo hi w) (snapshotIter (W := W) sn lo hi w). Qed.
Next Obligation. intros ? op [w s]. law (pebbleQueue_spec (W := W) op w) (pebbleQueue op w). Qed.
Next Obligation. intros ? b [w s]. law (pebbleCommit_spec (W := W) b w) (pebbleCommit b w). Qed.
Next Obligation. intros ? [w s]. law (pebbleClose_spec (W := W) w) (pebbleClose w). Qed.
Next Obligation. intros ? n [w s]. law (randRead_spec (W := W) n w) (randRead n w). Qed.
Next Obligation. intros ? [w s]. law (nowMillis_spec (W := W) w) (nowMillis w). Qed.
Next Obligation. intros ? [w s]. law (requestErr_spec (W := W) w) (requestErr w). Qed.
Next Obligation. intros ? [w s]. law (requestExpired_spec (W := W) w) (requestExpired w). Qed.

(** ** Code that leaves the state beside the host alone *)

Definition keeps {A} (m : M (W * S) A) : Prop := forall ws, (m ws).2.2 = ws.2.

Lemma keeps_ret {A} (a : A) : keeps (mret a).
Proof. by intros []. Qed.
Lemma keeps_throw {A} e : keeps (throw (A := A) e).
Proof. by intros []. Qed.
Lemma keeps_outOfFuel {A} : keeps (outOfFuel (A := A)).
Proof. by intros []. Qed.
Lemma keeps_lift {A} (r : res A) : keeps (lift r).
Proof. by intros []. Qed.

Lemma keeps_bind {A B} (m : M (W * S) A) (k : A -> M (W * S) B) :
  keeps m -> (forall a, keeps (k a)) -> keeps (m ≫= k).
Proof.
  intros Hm Hk ws. specialize (Hm ws). unfold mbind, M_bind. destruct (m ws) as [[a|e|] ws']; [|done..].
  simpl in Hm. rewrite (Hk a ws'). exact Hm.
Qed.

Lemma keeps_onErr {A} f (m : M (W * S) A) : keeps m -> keeps (onErr f m).
Proof. intros Hm ws. specialize (Hm ws). unfold onErr. by destruct (m ws) as [[] ?]. Qed.

Lemma keeps_catch {A} (m : M (W * S) A) : keeps m -> keeps (catch m).
Proof. intros Hm ws. specialize (Hm ws). unfold catch. by destruct (m ws) as [[] ?]. Qed.

Lemma keeps_ofSum {A} (f : W -> (error + A) * W) : keeps (ofSum (beside f)).
Proof. intros [w s]. unfold ofSum, beside. simpl. by destruct (f w) as [[] ?]. Qed.
Lemma keeps_ofOpt (f : W -> option error * W) : keeps (ofOpt (beside f)).
Proof. intros [w s]. unfold ofOpt, beside. simpl. by destruct (f w) as [[] ?]. Qed.
Lemma keeps_ofVal {A} (f : W -> A * W) : keeps (ofVal (beside f)).
Proof. intros [w s]. unfold ofVal, beside. simpl. by destruct (f w) as [? ?]. Qed.

Lemma keeps_close : keeps close.
Proof. apply keeps_onErr, keeps_ofOpt. Qed.

Lemma keeps_deferClose {A} (m : M (W * S) A) : keeps m -> keeps (deferClose m).
Proof.
  intros Hm ws. specialize (Hm ws). unfold deferClose. destruct (m ws) as [r ws1].
  pose proof (keeps_close ws1) as Hc. destruct (close ws1) as [[] ws2]; simpl in *; [|destruct r|];
    simpl; congruence.
Qed.

Lemma keeps_dbGet k : keeps (dbGet k).
Proof. apply keeps_ofSum. Qed.
Lemma keeps_newSnapshot : keeps newSnapshot.
Proof. apply keeps_ofVal. Qed.
Lemma keeps_snapIter sn lo hi : keeps (snapIter sn lo hi).
Proof. apply keeps_onErr, keeps_ofSum. Qed.
Lemma keeps_ctxErr ctx : keeps (ctxErr ctx).
Proof. destruct ctx; [apply keeps_ret|apply keeps_ofOpt]. Qed.
End Beside.

Create HintDb keeps.
#[export] Hint Resolve keeps_ret keeps_throw keeps_outOfFuel keeps_lift keeps_bind keeps_onErr
  keeps_catch keeps_close keeps_deferClose keeps_dbGet keeps_newSnapshot keeps_snapIter keeps_ctxErr : keeps.
