(* ===== verification/Bulk.v ===== *)
(** * Bulk import and export

    The NDJSON reader and writer of bulk.go.  The reader cuts a request body into
    lines through a [bufio.Reader], with limits on the line, the body and the
    number of documents; the writer buffers an export and flushes it. *)

From S2P Require Import Prelude GoErrors Text Validation Json Document Host Conn.

Definition bulkBufferSize : Z := 32 * 2 ^ 10.

(** ** [bufio.Reader] *)

(** The default size of its buffer. *)
Definition bufioSize : Z := 4096.

Fixpoint indexNewline (s : bytes) : option nat :=
  match s with
  | [] => None
  | c :: s' => if beqb c x0a then Some 0%nat else S <$> indexNewline s'
  end.

(** [ReadSlice('\n')]: the fragment, how it ends, and the reader after it.  A
    fragment without a newline fills the buffer or ends the input. *)
Definition readSlice (r : reader) : bytes * option error * reader :=
  match indexNewline (take (Z.to_nat bufioSize) (r_data r)) with
  | Some i => (take (S i) (r_data r), None, Reader (drop (S i) (r_data r)) (r_err r))
  | None =>
      if bufioSize <=? len (r_data r) then
        (take (Z.to_nat bufioSize) (r_data r), Some (bufioErrBufferFull : error),
         Reader (drop (Z.to_nat bufioSize) (r_data r)) (r_err r))
      else
        (r_data r, Some (match r_err r with Some e => e | None => ioEOF : error end), Reader [] (r_err r))
  end.

(** ** Lines *)

Definition lineLen (line : bytes) (complete : bool) : Z :=
  let length := len line in
  if complete && (0 <? length) && bool_decide (last line = Some x0a) then
    let length := length - 1 in
    if (0 <? length) && bool_decide (last (removelast line) = Some x0d) then length - 1 else length
  else length.

(** [bytes.TrimSuffix(line, []byte{c})]. *)
Definition trimSuffixByte (c : byte) (line : bytes) : bytes :=
  if bool_decide (last line = Some c) then removelast line else line.

Definition trimLineEnd (line : bytes) (complete : bool) : bytes :=
  if negb complete then line else trimSuffixByte x0d (trimSuffixByte x0a line).

(** [errors.Is(err, s)] of an error that may be nil. *)
Definition isErr (s : sentinel) (err : option error) : bool :=
  match err with Some e => errorsIs s e | None => false end.

Section Bulk.
Context {W : Type} `{Host W}.

(** [contextReader] over a body that arrives in chunks: every read first looks
    whether the context has ended. *)
Fixpoint contextReader (ctx : context) (chunks : list bytes) (end_ : option error) : M W reader :=
  ended ← catch (ctxErr ctx);
  match ended with
  | inl e => mret (Reader [] (Some e))
  | inr _ =>
      match chunks with
      | [] => mret (Reader [] end_)
      | chunk :: chunks' =>
          r ← contextReader ctx chunks' end_;
          mret (Reader (chunk ++ r_data r) (r_err r))
      end
  end.

Definition bulkDone (documents : list bytes) : M W (list bytes) :=
  if len documents =? 0 then throw errBulkEmpty else mret documents.

Definition bulkReadError (ctx : context) (err : error) : M W (list bytes) :=
  _ ← ctxErr ctx;
  expired ← ctxExpired ctx;
  if expired : bool then throw ctxDeadlineExceeded else throw (join errBulkRead err).

Fixpoint readBulk_loop (fuel : nat) (ctx : context) (r : reader) (maxLine maxBytes maxDocs : Z)
    (documents : list bytes) (line : bytes) (total lineNumber : Z) : M W (list bytes) :=
  match fuel with
  | O => outOfFuel
  | S f =>
      let '(fragment, err, r') := readSlice r in
      let total := total + len fragment in
      if maxBytes <? total then throw errBulkLimit
      else
        let line := line ++ fragment in
        let complete := match err with None => true | _ => false end in
        if maxLine <? lineLen line complete then throw (ELine lineNumber errBulkLimit)
        else if isErr bufioErrBufferFull err then
          readBulk_loop f ctx r' maxLine maxBytes maxDocs documents line total lineNumber
        else if negb complete && negb (isErr ioEOF err) then bulkReadError ctx (default EText err)
        else if isErr ioEOF err && (len line =? 0) then bulkDone documents
        else
          let line := trimLineEnd line complete in
          if len line =? 0 then throw (ELine lineNumber errInvalidDoc)
          else if maxDocs <=? len documents then throw (ELine lineNumber errBulkLimit)
          else
            match validateDoc line maxLine with
            | Err validateErr => throw (ELine lineNumber validateErr)
            | OutOfFuel => outOfFuel
            | Ok document =>
                let documents := documents ++ [document] in
                if isErr ioEOF err then bulkDone documents
                else readBulk_loop f ctx r' maxLine maxBytes maxDocs documents [] total (lineNumber + 1)
            end
  end.

(** A round that goes on consumes input. *)
Definition readBulkCtx (ctx : context) (r : reader) (maxLine maxBytes maxDocs : Z) : M W (list bytes) :=
  readBulk_loop (S (length (r_data r))) ctx r maxLine maxBytes maxDocs [] [] 0 1.

Definition readBulk (r : reader) (maxLine maxBytes maxDocs : Z) : M W (list bytes) :=
  readBulkCtx Background r maxLine maxBytes maxDocs.
End Bulk.

(** ** The export stream

    [bs_written] is what has reached the response, [bs_buffered] what waits in the
    [bufio.Writer]. *)

Record bulkStream := BulkStream {
  bs_written : bytes;
  bs_buffered : bytes;
  bs_pending : Z;
  bs_started : bool;
}.

Definition newBulkStream : bulkStream := BulkStream [] [] 0 false.

Section Stream.
Context {W : Type} `{Conn W}.

Definition getStream : M (W * bulkStream) bulkStream := fun ws => (Ok ws.2, ws).
Definition putStream (s : bulkStream) : M (W * bulkStream) unit := fun ws => (Ok (), (ws.1, s)).
Definition connCall (call : W -> option error * W) : M (W * bulkStream) unit := ofOpt (beside call).

(** A write to the response itself. *)
Definition directWrite (p : bytes) : M (W * bulkStream) unit :=
  _ ← connCall (connWrite p);
  s ← getStream;
  putStream (BulkStream (bs_written s ++ p) (bs_buffered s) (bs_pending s) (bs_started s)).

Definition bufCopy (p : bytes) : M (W * bulkStream) unit :=
  s ← getStream;
  putStream (BulkStream (bs_written s) (bs_buffered s ++ p) (bs_pending s) (bs_started s)).

(** [bufio.Writer.Flush]. *)
Definition bufFlush : M (W * bulkStream) unit :=
  s ← getStream;
  match bs_buffered s with
  | [] => mret ()
  | p =>
      _ ← connCall (connWrite p);
      putStream (BulkStream (bs_written s ++ p) [] (bs_pending s) (bs_started s))
  end.

(** [bufio.Writer.Write]: what does not fit fills the buffer and flushes it; a
    write larger than the buffer then goes through it. *)
Definition bufWrite (p : bytes) : M (W * bulkStream) unit :=
  s ← getStream;
  let available := bulkBufferSize - len (bs_buffered s) in
  if len p <=? available then bufCopy p
  else if len (bs_buffered s) =? 0 then directWrite p
  else
    let n := Z.to_nat available in
    _ ← bufCopy (take n p);
    _ ← bufFlush;
    let p := drop n p in
    if bulkBufferSize <? len p then directWrite p else bufCopy p.

(** [bufio.Writer.WriteByte]. *)
Definition bufWriteByte (c : byte) : M (W * bulkStream) unit :=
  s ← getStream;
  _ ← (if bulkBufferSize - len (bs_buffered s) <=? 0 then bufFlush else mret ());
  bufCopy [c].

Definition flush : M (W * bulkStream) unit :=
  _ ← bufFlush;
  s ← getStream;
  _ ← putStream (BulkStream (bs_written s) (bs_buffered s) 0 (bs_started s));
  connCall connFlush.

Definition streamWrite (document : bytes) : M (W * bulkStream) unit :=
  s ← getStream;
  _ ← (if bs_started s then mret ()
       else putStream (BulkStream (bs_written s) (bs_buffered s) (bs_pending s) true));
  _ ← bufWrite document;
  _ ← bufWriteByte x0a;
  s ← getStream;
  let pending := bs_pending s + len document + 1 in
  _ ← putStream (BulkStream (bs_written s) (bs_buffered s) pending (bs_started s));
  if pending <? bulkBufferSize then mret () else flush.
End Stream.
