(* ===== verification/BulkFacts.v ===== *)
(** * Bulk import and export: the reader and the stream

    The reader, which works on fragments of the size of a buffer, agrees with a
    reference that takes whole lines; the stream delivers what is written to it. *)

From S2P Require Import Prelude GoErrors Text Validation Json JsonRoundtrip Document Host Conn Wp Bulk.

(** ** The reference: whole lines *)

(** The lines of [data] after the part [cur] of the first, without their newlines,
    and whether they have one. *)
Fixpoint bulkLines (cur data : bytes) : list (bytes * bool) :=
  match data with
  | [] => match cur with [] => [] | _ => [(cur, false)] end
  | c :: data' => if beqb c x0a then (cur, true) :: bulkLines [] data' else bulkLines (cur ++ [c]) data'
  end.

(** The document of a line: a complete line may end in CR LF. *)
Definition lineText (line : bytes * bool) : bytes :=
  if line.2 then trimSuffixByte x0d line.1 else line.1.

(** The limit on a line, and on the buffers that are filled before its end is seen. *)
Definition lineFits (maxLine : Z) (line : bytes * bool) : bool :=
  (len (lineText line) <=? maxLine) && (bufioSize * (len line.1 / bufioSize) <=? maxLine).

Fixpoint checkLines (maxLine maxDocs k : Z) (documents : list bytes) (lines : list (bytes * bool))
    : error + list bytes :=
  match lines with
  | [] => inr documents
  | line :: lines' =>
      if negb (lineFits maxLine line) then inl (ELine k errBulkLimit)
      else if len (lineText line) =? 0 then inl (ELine k errInvalidDoc)
      else if maxDocs <=? len documents then inl (ELine k errBulkLimit)
      else match validateDoc (lineText line) maxLine with
           | Ok document => checkLines maxLine maxDocs (k + 1) (documents ++ [document]) lines'
           | Err e => inl (ELine k e)
           | OutOfFuel => inl EText
           end
  end.

Definition bulkOutcome (r : error + list bytes) : res (list bytes) :=
  match r with
  | inl e => Err e
  | inr [] => Err errBulkEmpty
  | inr documents => Ok documents
  end.

(** ** Fragments *)

Definition noNewline (s : bytes) : Prop := Forall (fun c => c <> x0a) s.

Lemma indexNewline_Some s i :
  indexNewline s = Some i -> exists t rest, s = t ++ x0a :: rest /\ noNewline t /\ length t = i.
Proof.
  revert i. induction s as [|c s IH]; intros i; cbn [indexNewline]; [done|].
  destruct (beqb_spec c x0a) as [->|Hc].
  - intros [= <-]. exists [], s. by repeat constructor.
  - destruct (indexNewline s) as [j|] eqn:E; [|done]. intros [= <-].
    destruct (IH j eq_refl) as (t & rest & -> & Ht & Hl). exists (c :: t), rest.
    split; [done|]. split; [by constructor|]. cbn [length]. by rewrite Hl.
Qed.

Lemma indexNewline_None s : indexNewline s = None -> noNewline s.
Proof.
  induction s as [|c s IH]; cbn [indexNewline]; [by constructor|].
  destruct (beqb_spec c x0a); [done|]. destruct (indexNewline s); [done|]. intros _.
  constructor; [done|by apply IH].
Qed.

Lemma bulkLines_app cur t data : noNewline t -> bulkLines cur (t ++ data) = bulkLines (cur ++ t) data.
Proof.
  intros Ht. revert cur. induction Ht as [|c t Hc Ht IH]; intros cur; [by rewrite app_nil_r|].
  cbn [app bulkLines]. destruct (beqb_spec c x0a); [done|]. by rewrite IH, <- app_assoc.
Qed.

Lemma bulkLines_newline cur t data :
  noNewline t -> bulkLines cur (t ++ x0a :: data) = (cur ++ t, true) :: bulkLines [] data.
Proof. intros Ht. rewrite bulkLines_app by done. done. Qed.

(** The line that has begun is the first. *)
Lemma bulkLines_head cur data :
  cur <> [] -> exists s b lines, bulkLines cur data = (cur ++ s, b) :: lines.
Proof.
  revert cur. induction data as [|c data IH]; intros cur Hcur; cbn [bulkLines].
  - exists [], false, []. rewrite app_nil_r. by destruct cur.
  - destruct (beqb c x0a); [by exists [], true, (bulkLines [] data); rewrite app_nil_r|].
    destruct (IH (cur ++ [c])) as (s & b & lines & ->); [by destruct cur|].
    exists (c :: s), b, lines. by rewrite <- app_assoc.
Qed.

Inductive slice (r : reader) : bytes * option error * reader -> Prop :=
  | slice_line t rest :
      r_data r = t ++ x0a :: rest -> noNewline t -> len t < bufioSize ->
      slice r (t ++ [x0a], None, Reader rest (r_err r))
  | slice_full t rest :
      r_data r = t ++ rest -> noNewline t -> len t = bufioSize ->
      slice r (t, Some (bufioErrBufferFull : error), Reader rest (r_err r))
  | slice_end :
      noNewline (r_data r) -> len (r_data r) < bufioSize ->
      slice r (r_data r, Some (default (ioEOF : error) (r_err r)), Reader [] (r_err r)).

Lemma readSlice_spec r : slice r (readSlice r).
Proof.
  unfold readSlice. set (n := Z.to_nat bufioSize).
  pose proof (take_drop n (r_data r)) as Htd. destruct (indexNewline (take n (r_data r))) as [i|] eqn:E.
  - apply indexNewline_Some in E as (t & rest & Et & Ht & Hi).
    assert (r_data r = t ++ x0a :: rest ++ drop n (r_data r)) as Ed.
    { rewrite <- Htd at 1. rewrite Et, <- app_assoc. done. }
    rewrite Ed at 1 2. subst i.
    set (u := drop n (r_data r)) in *. rewrite (cons_middle x0a), app_assoc.
    assert (S (length t) = length (t ++ [x0a])) as -> by (rewrite length_app; cbn; lia).
    rewrite take_app_length, drop_app_length.
    apply slice_line; [done|done|]. apply (f_equal length) in Et. rewrite length_app in Et.
    rewrite length_take in Et. cbn [length] in Et. unfold len, n, bufioSize in *. lia.
  - apply indexNewline_None in E. destruct (Z.leb_spec bufioSize (len (r_data r))) as [Hl|Hl].
    + apply slice_full; [done|done|]. unfold len, n, bufioSize in *. rewrite length_take. lia.
    + replace (match r_err r with Some e => e | None => ioEOF : error end) with (default (ioEOF : error) (r_err r))
        by (by destruct (r_err r)).
      apply slice_end; [|done]. rewrite take_ge in E; [done|]. unfold len, n, bufioSize in *. lia.
Qed.

(** ** Line ends *)

Lemma lineLen_complete t : lineLen (t ++ [x0a]) true = len (lineText (t, true)).
Proof.
  unfold lineLen, lineText, trimSuffixByte. cbn [fst snd andb].
  rewrite last_snoc, removelast_last, len_app. change (len [x0a]) with 1. pose proof (len_nonneg t).
  replace (0 <? len t + 1) with true by (symmetry; apply Z.ltb_lt; lia). cbn [andb].
  rewrite bool_decide_eq_true_2 by done. cbn [andb].
  replace (len t + 1 - 1) with (len t) by lia.
  destruct t as [|c t]; [done|].
  replace (0 <? len (c :: t)) with true by (symmetry; apply Z.ltb_lt; unfold len; cbn [length]; lia).
  cbn [andb]. case_bool_decide as Hl; [|done].
  destruct (exists_last (l := c :: t)) as (t' & c' & E); [done|]. rewrite E in *.
  rewrite removelast_last, len_app. change (len [c']) with 1. lia.
Qed.

Lemma lineLen_partial t : lineLen t false = len t.
Proof. done. Qed.

Lemma trimLineEnd_complete t : trimLineEnd (t ++ [x0a]) true = lineText (t, true).
Proof.
  unfold trimLineEnd, lineText. cbn [negb fst snd]. f_equal. unfold trimSuffixByte.
  rewrite last_snoc, bool_decide_eq_true_2 by done. by rewrite removelast_last.
Qed.

(** ** The loop *)

(** The outcome of the reference, or that the body is too large, which may be found
    first. *)
Definition agrees (fits : Prop) (spec : error + list bytes) (r : res (list bytes)) : Prop :=
  (fits -> r = bulkOutcome spec) /\
  (~ fits -> r = Err errBulkLimit \/ exists e, spec = inl e /\ r = Err e).

Lemma agrees_error fits e : agrees fits (inl e) (Err e).
Proof. split; [done|]. intros _. right. by exists e. Qed.

Lemma agrees_limit (fits : Prop) spec : ~ fits -> agrees fits spec (Err errBulkLimit).
Proof. intros Hn. split; [done|]. intros _. by left. Qed.

Lemma agrees_iff (fits fits' : Prop) spec r : (fits <-> fits') -> agrees fits spec r -> agrees fits' spec r.
Proof. unfold agrees. naive_solver. Qed.

Section Loop.
Context {W : Type} `{Host W} (maxLine maxBytes maxDocs : Z).

Lemma bulkDone_outcome documents (w : W) : bulkDone documents w = (bulkOutcome (inr documents), w).
Proof. unfold bulkDone. by destruct documents. Qed.

Lemma lineFits_complete p t :
  (bufioSize | len p) -> len p <= maxLine -> len t < bufioSize ->
  lineFits maxLine (p ++ t, true) = (len (lineText (p ++ t, true)) <=? maxLine).
Proof.
  intros [k Hk] Hp Ht. unfold lineFits. cbn [fst]. replace (bufioSize * (len (p ++ t) / bufioSize)) with (len p).
  - by rewrite (proj2 (Z.leb_le _ _) Hp), andb_true_r.
  - rewrite len_app, Hk, Z.div_add_l by done. pose proof (len_nonneg t). rewrite Z.div_small by done. lia.
Qed.

Lemma lineFits_partial p : lineFits maxLine (p, false) = (len p <=? maxLine).
Proof.
  unfold lineFits, lineText. cbn [fst snd]. destruct (Z.leb_spec (len p) maxLine); [|done].
  apply Z.leb_le. pose proof (Z.mul_div_le (len p) bufioSize eq_refl). lia.
Qed.

(** A line that fills a buffer beyond the limit is too long however it ends. *)
Lemma lineFits_full p s b : (bufioSize | len p) -> maxLine < len p -> lineFits maxLine (p ++ s, b) = false.
Proof.
  intros [k Hk] Hp. unfold lineFits. apply andb_false_iff. right. cbn [fst]. apply Z.leb_gt.
  rewrite len_app, Hk, Z.div_add_l by done. pose proof (len_nonneg s).
  pose proof (Z.div_pos (len s) bufioSize ltac:(done) eq_refl). unfold bufioSize in *. lia.
Qed.

(** What the loop does with a line once it has one; [next] goes on with the
    document. *)
Lemma lineTail_spec k documents line lines (next : bytes -> M W (list bytes)) (fits : Prop) w :
  lineFits maxLine line = true ->
  (forall document, exists r, next document w = (r, w) /\
     agrees fits (checkLines maxLine maxDocs (k + 1) (documents ++ [document]) lines) r) ->
  exists r,
    (if len (lineText line) =? 0 then throw (ELine k errInvalidDoc)
     else if maxDocs <=? len documents then throw (ELine k errBulkLimit)
     else match validateDoc (lineText line) maxLine with
          | Err validateErr => throw (ELine k validateErr)
          | OutOfFuel => outOfFuel
          | Ok document => next document
          end) w = (r, w) /\
    agrees fits (checkLines maxLine maxDocs k documents (line :: lines)) r.
Proof.
  intros Hf Hnext. cbn [checkLines]. rewrite Hf. cbn [negb].
  destruct (len (lineText line) =? 0); [eexists; split; [done|]; apply agrees_error|].
  destruct (maxDocs <=? len documents); [eexists; split; [done|]; apply agrees_error|].
  pose proof (validateDoc_total (lineText line) maxLine) as Ht.
  destruct (validateDoc (lineText line) maxLine) as [document|e|]; [apply Hnext| |done].
  eexists. split; [done|]. apply agrees_error.
Qed.

(** What the loop does at a position in the body, where [p] is the beginning of a
    line, kept from full buffers. *)
Definition loopAgrees (fuel : nat) (ctx : context) (w : W) (data : bytes) (documents : list bytes) (p : bytes)
    (total k : Z) : Prop :=
  exists r, readBulk_loop fuel ctx (Reader data None) maxLine maxBytes maxDocs documents p total k w = (r, w) /\
    agrees (total + len data <= maxBytes) (checkLines maxLine maxDocs k documents (bulkLines p data)) r.

Definition position (fuel : nat) (data p : bytes) : Prop :=
  (length data < fuel)%nat /\ noNewline p /\ (bufioSize | len p) /\ len p <= maxLine.

Section Round.
Variables (fuel : nat) (ctx : context) (w : W).
Context (IH : forall data documents p total k, position fuel data p -> loopAgrees fuel ctx w data documents p total k).

(** A round that gets a complete line, *)
Lemma loop_line t rest documents p total k :
  readSlice (Reader (t ++ x0a :: rest) None) = (t ++ [x0a], None, Reader rest None) ->
  position (S fuel) (t ++ x0a :: rest) p -> noNewline t -> len t < bufioSize ->
  loopAgrees (S fuel) ctx w (t ++ x0a :: rest) documents p total k.
Proof.
  intros Hs (Hf & Hp & Hd & Hl) Ht Htl. unfold loopAgrees. cbn [readBulk_loop]. rewrite Hs, bulkLines_newline by done.
  pose proof (len_nonneg rest) as Hr.
  assert (len (t ++ x0a :: rest) = len (t ++ [x0a]) + len rest) as Hlen
    by (by rewrite (cons_middle x0a), app_assoc, len_app).
  destruct (Z.ltb_spec maxBytes (total + len (t ++ [x0a]))) as [Hb|Hb].
  { eexists. split; [done|]. apply agrees_limit. lia. }
  rewrite (app_assoc p t), lineLen_complete. cbn [isErr negb andb].
  pose proof (lineFits_complete p t Hd Hl Htl) as Hfit.
  destruct (Z.ltb_spec maxLine (len (lineText (p ++ t, true)))) as [Hm|Hm].
  { eexists. split; [done|]. cbn [checkLines]. rewrite Hfit, (proj2 (Z.leb_gt _ _)) by done. apply agrees_error. }
  rewrite trimLineEnd_complete. apply lineTail_spec; [by rewrite Hfit; apply Z.leb_le|].
  intros document. destruct (IH rest (documents ++ [document]) [] (total + len (t ++ [x0a])) (k + 1)) as (r & Hr' & Ha).
  { split; [rewrite length_app in Hf; cbn [length] in Hf; lia|]. split; [constructor|]. split; [by exists 0|].
    pose proof (len_nonneg p). change (len (@nil byte)) with 0. lia. }
  exists r. split; [exact Hr'|]. eapply agrees_iff; [|exact Ha]. lia.
Qed.

(** a full buffer, *)
Lemma loop_full t rest documents p total k :
  readSlice (Reader (t ++ rest) None) = (t, Some (bufioErrBufferFull : error), Reader rest None) ->
  position (S fuel) (t ++ rest) p -> noNewline t -> len t = bufioSize ->
  loopAgrees (S fuel) ctx w (t ++ rest) documents p total k.
Proof.
  intros Hs (Hf & Hp & Hd & Hl) Ht Htl. unfold loopAgrees. cbn [readBulk_loop]. rewrite Hs.
  pose proof (len_nonneg rest) as Hr. rewrite (len_app t rest).
  destruct (Z.ltb_spec maxBytes (total + len t)) as [Hb|Hb].
  { eexists. split; [done|]. apply agrees_limit. lia. }
  rewrite lineLen_partial, bulkLines_app by done.
  assert (bufioSize | len (p ++ t)) as Hd' by (rewrite len_app, Htl; apply Z.divide_add_r; [done|by exists 1]).
  destruct (Z.ltb_spec maxLine (len (p ++ t))) as [Hm|Hm].
  { eexists. split; [done|]. destruct (bulkLines_head (p ++ t) rest) as (s & b & lines & ->); [by intros [-> ->]%app_nil|].
    cbn [checkLines]. rewrite lineFits_full by done. apply agrees_error. }
  cbn [isErr errorsIs]. rewrite bool_decide_eq_true_2 by done.
  destruct (IH rest documents (p ++ t) (total + len t) k) as (r & Hr' & Ha).
  { split; [rewrite length_app in Hf; unfold len, bufioSize in Htl; lia|]. split; [by apply Forall_app|done]. }
  exists r. split; [exact Hr'|]. eapply agrees_iff; [|exact Ha]. lia.
Qed.

(** or the end of the body. *)
Lemma loop_end data documents p total k :
  readSlice (Reader data None) = (data, Some (ioEOF : error), Reader [] None) ->
  position (S fuel) data p -> noNewline data -> loopAgrees (S fuel) ctx w data documents p total k.
Proof.
  intros Hs (Hf & Hp & Hd & Hl) Ht. unfold loopAgrees. cbn [readBulk_loop]. rewrite Hs.
  replace (bulkLines p data) with (bulkLines (p ++ data) []) by (by rewrite <- bulkLines_app, app_nil_r).
  cbn [bulkLines]. destruct (Z.ltb_spec maxBytes (total + len data)) as [Hb|Hb].
  { eexists. split; [done|]. apply agrees_limit. lia. }
  rewrite lineLen_partial. pose proof (lineFits_partial (p ++ data)) as Hfit.
  change (isErr bufioErrBufferFull (Some (ioEOF : error))) with false.
  change (isErr ioEOF (Some (ioEOF : error))) with true. cbn [negb andb].
  destruct (p ++ data) as [|b q] eqn:Eq.
  { destruct (Z.ltb_spec maxLine (len (@nil byte))) as [Hm|Hm].
    - pose proof (len_nonneg p). change (len (@nil byte)) with 0 in Hm. lia.
    - change (len (@nil byte) =? 0) with true. cbv iota. rewrite bulkDone_outcome. eexists. split; [done|]. split; [done|lia]. }
  destruct (Z.ltb_spec maxLine (len (b :: q))) as [Hm|Hm].
  { eexists. split; [done|]. cbn [checkLines]. rewrite Hfit, (proj2 (Z.leb_gt _ _)) by done. apply agrees_error. }
  rewrite (proj2 (Z.eqb_neq (len (b :: q)) 0)) by (unfold len; cbn [length]; lia).
  change (trimLineEnd (b :: q) false) with (lineText (b :: q, false)).
  apply lineTail_spec; [by rewrite Hfit; apply Z.leb_le|]. intros document. rewrite bulkDone_outcome.
  eexists. split; [done|]. split; [done|lia].
Qed.
End Round.

Lemma readBulk_loop_spec fuel ctx data documents p total k w :
  position fuel data p -> loopAgrees fuel ctx w data documents p total k.
Proof.
  revert data documents p total k. induction fuel as [|fuel IH]; intros data documents p total k Hpos; [destruct Hpos; lia|].
  pose proof (readSlice_spec (Reader data None)) as Hs. destruct (readSlice (Reader data None)) as [[fragment err] r'] eqn:Er.
  inversion Hs as [t rest Hdata Ht Htl E|t rest Hdata Ht Htl E|Ht Htl E]; cbn [r_data r_err] in *; subst; clear Hs.
  - by apply loop_line.
  - by apply loop_full.
  - by apply loop_end.
Qed.
End Loop.

(** ** Canonical documents *)

(** A document as [validateDoc] leaves it. *)
Definition canonical (maxBytes : Z) (document : bytes) : Prop := validateDoc document maxBytes = Ok document.

Lemma validateDoc_inv body maxBytes out :
  validateDoc body maxBytes = Ok out -> exists m, marshal (JObj m) = Ok out /\ len out <= maxBytes.
Proof.
  unfold validateDoc. destruct (_ <? _); [done|]. destruct (negb _); [done|].
  destruct (decodeJSON body) as [[[| | | | |m] rest]|]; try done.
  intros (u & _ & (out' & Ho & H2)%res_bind_ok)%res_bind_ok. unfold map_err in Ho.
  destruct (marshal (JObj m)) as [o|e|] eqn:Hm; [|done..]. apply Ok_inj in Ho as ->.
  destruct (Z.ltb_spec maxBytes (len out')); [done|]. apply Ok_inj in H2 as ->. by exists m.
Qed.

Lemma canonical_line maxBytes d :
  canonical maxBytes d -> noNewline d /\ d <> [] /\ lineText (d, true) = d /\ len d <= maxBytes.
Proof.
  intros (m & Hm & Hl)%validateDoc_inv. apply marshal_printable in Hm as Hp. split; [|split; [|split; [|done]]].
  - eapply Forall_impl; [exact Hp|]. by intros x Hx ->.
  - rewrite marshal_obj in Hm. apply res_bind_ok in Hm as (body & _ & <-%Ok_inj). done.
  - unfold lineText, trimSuffixByte. cbn [fst snd]. rewrite bool_decide_eq_false_2; [done|].
    intros (p & ->)%last_Some. apply Forall_app in Hp as [_ Hp]. apply Forall_cons in Hp as [Hp _]. done.
Qed.

(** What an export of the documents looks like. *)
Definition exportBytes (documents : list bytes) : bytes := concat (map (fun d => d ++ [x0a]) documents).

Lemma exportBytes_snoc documents d : exportBytes (documents ++ [d]) = exportBytes documents ++ d ++ [x0a].
Proof. unfold exportBytes. rewrite map_app, concat_app. cbn [map concat]. by rewrite app_nil_r. Qed.

Lemma bulkLines_export documents :
  Forall noNewline documents -> bulkLines [] (exportBytes documents) = map (fun d => (d, true)) documents.
Proof.
  induction 1 as [|d documents Hd HF IH]; [done|]. unfold exportBytes in *. cbn [map concat].
  rewrite <- app_assoc. cbn [app]. rewrite bulkLines_newline by done. by rewrite IH.
Qed.

Lemma checkLines_canonical maxLine maxDocs k done_ documents :
  Forall (canonical maxLine) documents -> len done_ + len documents <= maxDocs ->
  checkLines maxLine maxDocs k done_ (map (fun d => (d, true)) documents) = inr (done_ ++ documents).
Proof.
  intros HF. revert k done_. induction HF as [|d documents Hd HF IH]; intros k done_ Hl.
  { by rewrite app_nil_r. }
  destruct (canonical_line maxLine d Hd) as (_ & Hne & Ht & Hlen). cbn [map checkLines].
  unfold lineFits. rewrite Ht. cbn [fst]. rewrite (proj2 (Z.leb_le _ _) Hlen).
  pose proof (Z.mul_div_le (len d) bufioSize eq_refl). rewrite (proj2 (Z.leb_le _ _)) by lia. cbn [andb negb].
  rewrite len_cons in Hl. pose proof (len_nonneg documents).
  destruct (Z.eqb_spec (len d) 0) as [E|_]; [by apply len_0_nil in E|].
  rewrite (proj2 (Z.leb_gt _ _)) by lia. rewrite Hd, IH by (rewrite len_app; change (len [d]) with 1; lia).
  by rewrite <- app_assoc.
Qed.

(** ** The stream *)

Section Streams.
Context {W : Type} `{CS : ConnSpec W}.

(** [m] runs with the stream [s] beside the host: a value and the stream left
    satisfy [P], after a failure of the connection, which is not reliable then, the
    stream satisfies [E]. *)
Definition streams {A : Type} (s : bulkStream) (m : M (W * bulkStream) A)
    (P : A -> bulkStream -> Prop) (E : bulkStream -> Prop) : Prop :=
  forall w, let '(r, ws) := m (w, s) in
    contents ws.1 = contents w /\ (faulty w -> faulty ws.1) /\
    match r with Ok a => P a ws.2 | Err _ => ~ reliable W /\ E ws.2 | OutOfFuel => False end.

Lemma streams_bind {A B : Type} s (m : M (W * bulkStream) A) (k : A -> M (W * bulkStream) B) P P' E :
  streams s m P E -> (forall a s', P a s' -> streams s' (k a) P' E) -> streams s (m ≫= k) P' E.
Proof.
  intros Hm Hk w. specialize (Hm w). unfold mbind, M_bind. destruct (m (w, s)) as [[a|e|] [w1 s1]];
    destruct Hm as (Hc1 & Hf1 & Hr1); [|by split; [|split]|done].
  specialize (Hk a s1 Hr1 w1). destruct (k a (w1, s1)) as [r ws]. destruct Hk as (Hc2 & Hf2 & Hr2).
  cbn [fst snd] in *. split; [congruence|]. split; [auto|done].
Qed.

Lemma streams_ret {A : Type} s (a : A) (P : A -> bulkStream -> Prop) (E : bulkStream -> Prop) :
  P a s -> streams s (mret a) P E.
Proof. by intros HP w. Qed.

Lemma streams_get s (P : bulkStream -> bulkStream -> Prop) (E : bulkStream -> Prop) :
  P s s -> streams s getStream P E.
Proof. by intros HP w. Qed.

Lemma streams_put s s' (P : unit -> bulkStream -> Prop) (E : bulkStream -> Prop) :
  P () s' -> streams s (putStream s') P E.
Proof. by intros HP w. Qed.

Lemma streams_mono {A : Type} s (m : M (W * bulkStream) A) (P P' : A -> bulkStream -> Prop) (E E' : bulkStream -> Prop) :
  streams s m P E -> (forall a s', P a s' -> P' a s') -> (forall s', E s' -> E' s') -> streams s m P' E'.
Proof.
  intros Hm HP HE w. specialize (Hm w). destruct (m (w, s)) as [[a|e|] ws]; destruct Hm as (? & ? & ?);
    (split; [done|]); (split; [done|]); naive_solver.
Qed.

Lemma streams_write s b (P : unit -> bulkStream -> Prop) (E : bulkStream -> Prop) :
  P () s -> E s -> streams s (connCall (connWrite b)) P E.
Proof.
  intros HP HE w. unfold connCall, ofOpt, beside. cbn [fst snd]. pose proof (connWrite_spec b w) as Hc.
  destruct (connWrite b w) as [[e|] w'] eqn:Hw; destruct Hc; [|done]. split; [done|]. split; [done|].
  split; [|done]. intros [Hr _]. specialize (Hr b w). by rewrite Hw in Hr.
Qed.

Lemma streams_flush s (P : unit -> bulkStream -> Prop) (E : bulkStream -> Prop) :
  P () s -> E s -> streams s (connCall connFlush) P E.
Proof.
  intros HP HE w. unfold connCall, ofOpt, beside. cbn [fst snd]. pose proof (connFlush_spec w) as Hc.
  destruct (connFlush w) as [[e|] w'] eqn:Hw; destruct Hc; [|done]. split; [done|]. split; [done|].
  split; [|done]. intros (_ & Hr & _). specialize (Hr w). by rewrite Hw in Hr.
Qed.

(** All that has been written, sent or not; the buffer is within its size. *)
Definition sent (s : bulkStream) : bytes := bs_written s ++ bs_buffered s.
Definition fits (s : bulkStream) : Prop := len (bs_buffered s) <= bulkBufferSize.

(** After a failure: a part of what was written has been sent. *)
Definition cutOff (out : bytes) (s : bulkStream) : Prop :=
  bs_started s = true /\ exists rest, out = bs_written s ++ rest.

(** The stream after a write of [p]. *)
Definition wrote (s : bulkStream) (p : bytes) (s' : bulkStream) : Prop :=
  sent s' = sent s ++ p /\ fits s' /\ bs_started s' = bs_started s /\ bs_pending s' = bs_pending s.

Lemma cutOff_self s out : bs_started s = true -> cutOff (sent s ++ out) s.
Proof. intros Hs. split; [done|]. exists (bs_buffered s ++ out). unfold sent. by rewrite <- app_assoc. Qed.

Lemma streams_bufFlush s out :
  bs_started s = true -> fits s ->
  streams s bufFlush (fun _ s' => wrote s [] s' /\ bs_buffered s' = []) (cutOff (sent s ++ out)).
Proof.
  intros Hst Hf. unfold bufFlush. eapply streams_bind; [by apply (streams_get s (fun x y => x = s /\ y = s))|].
  intros ? ? [-> ->]. destruct (bs_buffered s) as [|b p] eqn:Hb.
  - apply streams_ret. split; [|done]. split; [by rewrite app_nil_r|]. done.
  - eapply streams_bind; [apply (streams_write s _ (fun _ y => y = s)); [done|by apply cutOff_self]|].
    intros ? ? ->. apply streams_put. split; [|done]. split; [|done]. unfold sent. cbn [bs_written bs_buffered].
    by rewrite Hb, !app_nil_r.
Qed.

Lemma streams_bufCopy s p E :
  len (bs_buffered s) + len p <= bulkBufferSize -> streams s (bufCopy p) (fun _ s' => wrote s p s') E.
Proof.
  intros Hl. unfold bufCopy. eapply streams_bind; [by apply (streams_get s (fun x y => x = s /\ y = s))|].
  intros ? ? [-> ->]. apply streams_put. split; [|split; [|done]].
  - unfold sent. cbn [bs_written bs_buffered]. by rewrite app_assoc.
  - unfold fits. cbn [bs_buffered]. by rewrite len_app.
Qed.

Lemma streams_directWrite s p out :
  bs_started s = true -> bs_buffered s = [] ->
  streams s (directWrite p) (fun _ s' => wrote s p s') (cutOff (sent s ++ out)).
Proof.
  intros Hst Hb. unfold directWrite.
  eapply streams_bind; [apply (streams_write s _ (fun _ y => y = s)); [done|by apply cutOff_self]|].
  intros ? ? ->. eapply streams_bind; [by apply (streams_get s (fun x y => x = s /\ y = s))|].
  intros ? ? [-> ->]. apply streams_put. unfold wrote, sent, fits. cbn [bs_written bs_buffered bs_started bs_pending].
  rewrite Hb, !app_nil_r. split; [done|]. split; [unfold bulkBufferSize; change (len (@nil byte)) with 0; lia|done].
Qed.

Lemma streams_bufWrite s p out :
  bs_started s = true -> fits s ->
  streams s (bufWrite p) (fun _ s' => wrote s p s') (cutOff (sent s ++ p ++ out)).
Proof.
  intros Hst Hf. unfold bufWrite. eapply streams_bind; [by apply (streams_get s (fun x y => x = s /\ y = s))|].
  intros ? ? [-> ->]. unfold fits in Hf. cbv zeta. set (n := Z.to_nat (bulkBufferSize - len (bs_buffered s))).
  destruct (Z.leb_spec (len p) (bulkBufferSize - len (bs_buffered s))) as [Hl|Hl];
    [apply streams_bufCopy; lia|].
  destruct (Z.eqb_spec (len (bs_buffered s)) 0) as [E|E].
  { apply len_0_nil in E. by apply streams_directWrite. }
  eapply streams_bind.
  { apply (streams_bufCopy s (take n p)). unfold len in *. rewrite length_take. lia. }
  intros [] s1 (Hs1 & Hf1 & Hst1 & Hp1). rewrite Hst in Hst1.
  assert (sent s ++ p ++ out = sent s1 ++ drop n p ++ out) as ->
    by (rewrite Hs1, <- !app_assoc; f_equal; by rewrite (app_assoc (take n p)), take_drop).
  eapply streams_bind; [by apply streams_bufFlush|].
  intros [] s2 ((Hs2 & Hf2 & Hst2 & Hp2) & Hb2). rewrite app_nil_r in Hs2. rewrite Hst1 in Hst2.
  assert (forall s3, wrote s2 (drop n p) s3 -> wrote s p s3) as Hw.
  { intros s3 (Hs3 & Hf3 & Hst3 & Hp3). split; [|split; [done|split; congruence]].
    rewrite Hs3, Hs2, Hs1, <- app_assoc. f_equal. apply take_drop. }
  rewrite <- Hs2. destruct (Z.ltb_spec bulkBufferSize (len (drop n p))) as [Hd|Hd].
  - eapply streams_mono; [by apply streams_directWrite| |by intros]. by intros [] s3 ?%Hw.
  - eapply streams_mono; [apply streams_bufCopy| |by intros s' Hs'; exact Hs'].
    + rewrite Hb2. change (len (@nil byte)) with 0. lia.
    + by intros [] s3 ?%Hw.
Qed.

Lemma streams_bufWriteByte s c out :
  bs_started s = true -> fits s ->
  streams s (bufWriteByte c) (fun _ s' => wrote s [c] s') (cutOff (sent s ++ [c] ++ out)).
Proof.
  intros Hst Hf. unfold bufWriteByte. eapply streams_bind; [by apply (streams_get s (fun x y => x = s /\ y = s))|].
  intros ? ? [-> ->]. eapply streams_bind.
  { instantiate (1 := fun _ s' => wrote s [] s' /\ len (bs_buffered s') < bulkBufferSize).
    destruct (Z.leb_spec (bulkBufferSize - len (bs_buffered s)) 0) as [Hl|Hl].
    - eapply streams_mono; [by apply streams_bufFlush| |by intros s' Hs'; exact Hs'].
      intros [] s' [Hw Hb]. split; [done|]. by rewrite Hb.
    - apply streams_ret. split; [|lia]. split; [by rewrite app_nil_r|done]. }
  intros [] s1 ((Hs1 & Hf1 & Hst1 & Hp1) & Hl). rewrite app_nil_r in Hs1.
  eapply streams_mono; [apply streams_bufCopy| |intros s' Hs'; exact Hs'].
  - change (len [c]) with 1. lia.
  - intros [] s2 (Hs2 & Hf2 & Hst2 & Hp2). split; [by rewrite Hs2, Hs1|]. split; [done|split; congruence].
Qed.

Lemma streams_flushAll s out :
  bs_started s = true -> fits s ->
  streams s flush (fun _ s' => sent s' = sent s /\ bs_buffered s' = [] /\ bs_started s' = true /\ fits s')
    (cutOff (sent s ++ out)).
Proof.
  intros Hst Hf. unfold flush. eapply streams_bind; [by apply streams_bufFlush|].
  intros [] s1 ((Hs1 & Hf1 & Hst1 & Hp1) & Hb). rewrite app_nil_r in Hs1.
  eapply streams_bind; [by apply (streams_get s1 (fun x y => x = s1 /\ y = s1))|]. intros ? ? [-> ->].
  set (s2 := BulkStream _ _ 0 _). eapply streams_bind; [by apply (streams_put s1 s2 (fun _ y => y = s2))|].
  intros ? ? ->. apply streams_flush.
  - split; [done|]. split; [done|]. split; [|done]. by rewrite <- Hst, <- Hst1.
  - split; [by rewrite <- Hst, <- Hst1|]. exists (bs_buffered s1 ++ out). rewrite <- Hs1. unfold sent.
    by rewrite <- app_assoc.
Qed.

(** What a stream holds after the documents [documents]. *)
Definition holdsExport (documents : list bytes) (s : bulkStream) : Prop :=
  sent s = exportBytes documents /\ fits s /\
  bs_started s = negb (bool_decide (documents = [])).

Lemma streams_streamWrite s documents d out :
  holdsExport documents s ->
  streams s (streamWrite d) (fun _ s' => holdsExport (documents ++ [d]) s')
    (cutOff (exportBytes (documents ++ [d]) ++ out)).
Proof.
  intros (Hs & Hf & Hst). unfold streamWrite.
  eapply streams_bind; [by apply (streams_get s (fun x y => x = s /\ y = s))|]. intros ? ? [-> ->].
  eapply streams_bind.
  { instantiate (1 := fun _ s' => sent s' = sent s /\ fits s' /\ bs_started s' = true).
    destruct (bs_started s) eqn:E; [by apply streams_ret|]. by apply streams_put. }
  intros [] s1 (Hs1 & Hf1 & Hst1). rewrite exportBytes_snoc, <- Hs, <- Hs1, <- !app_assoc.
  eapply streams_bind; [by apply streams_bufWrite|]. intros [] s2 (Hs2 & Hf2 & Hst2 & Hp2).
  rewrite Hst1 in Hst2. rewrite (app_assoc (sent s1)), <- Hs2.
  eapply streams_bind; [by apply streams_bufWriteByte|]. intros [] s3 (Hs3 & Hf3 & Hst3 & Hp3).
  rewrite Hst2 in Hst3. eapply streams_bind; [by apply (streams_get s3 (fun x y => x = s3 /\ y = s3))|].
  intros ? ? [-> ->]. cbv zeta. set (s4 := BulkStream _ _ _ _).
  eapply streams_bind; [by apply (streams_put s3 s4 (fun _ y => y = s4))|]. intros ? ? ->.
  assert (sent s4 = exportBytes (documents ++ [d])) as Hs4.
  { change (sent s4) with (sent s3). by rewrite Hs3, Hs2, Hs1, Hs, exportBytes_snoc, <- app_assoc. }
  assert (negb (bool_decide (documents ++ [d] = [])) = true) as Hne
    by (rewrite bool_decide_eq_false_2; [done|by destruct documents]).
  destruct (_ <? bulkBufferSize).
  - apply streams_ret. split; [done|]. split; [done|]. rewrite Hne. exact Hst3.
  - rewrite app_assoc, <- Hs3. change (sent s3) with (sent s4).
    eapply streams_mono; [by apply streams_flushAll| |intros s' Hs'; exact Hs'].
    intros [] s5 (Hs5 & _ & Hst5 & Hf5). split; [by rewrite Hs5|]. split; [done|]. by rewrite Hne.
Qed.
End Streams.
