(* ===== verification/Store.v ===== *)
(** * The document store

    storage.go, and the parts of index.go that read and write the store: one
    function per method of [*store], on the host's Pebble.  The database and
    document locks are left out here: each function is the critical section a
    call runs.  Retry loops take a bound on their rounds. *)

From S2P Require Import Prelude GoErrors Codec Text Validation Keys Json IndexValue Host Crypto.

Section Store.
Context {W : Type} `{Host W} `{Crypto}.

(** [s.wrappingKey]. *)
Variable wrappingKey : bytes.

(** ** Reading records *)

Definition authDBRecord (pebbleKey value : bytes) : res unit :=
  _ ← unwrapDBKey wrappingKey pebbleKey value; Ok ().

Definition makeDBRecord (pebbleKey : bytes) : M W bytes :=
  key ← rand 32;
  onErr wrapf (wrapDBKey wrappingKey pebbleKey key).

Definition hasDB (name : bytes) : M W bool :=
  value ← lookupKey (dbKey name);
  match value with
  | None => mret false
  | Some value =>
      closed ← catch close;
      match authDBRecord (dbKey name) value, closed with
      | Ok _, inr _ => mret true
      | Ok _, inl ce => throw (wrapf ce)
      | _, inr _ => throw (wrapf errCorruptData)
      | _, inl ce => throw (join (wrapf errCorruptData) ce)
      end
  end.

Definition has (key : bytes) : M W bool :=
  value ← lookupKey key;
  match value with
  | None => mret false
  | Some _ => _ ← close; mret true
  end.

Definition readDoc (database id databaseKey : bytes) : M W storedDoc :=
  let key := docKey database id in
  value ← lookupKey key;
  match value with
  | None => throw errDocNotFound
  | Some value =>
      deferClose (
        match openDoc key databaseKey id value with
        | Ok doc => mret doc
        | _ => throw (wrapf errCorruptData)
        end)
  end.

Definition databaseKey (name : bytes) : M W bytes :=
  value ← lookupKey (dbKey name);
  match value with
  | None => throw errDBNotFound
  | Some value =>
      deferClose (
        match unwrapDBKey wrappingKey (dbKey name) value with
        | Ok key => mret key
        | _ => throw (wrapf errCorruptData)
        end)
  end.

Definition documentDBKey (name : bytes) : M W bytes :=
  onErr (fun e => if errorsIs errDBNotFound e then errDocNotFound : error else e)
    (databaseKey name).

Definition cursorKey (name : bytes) : M W bytes :=
  dbk ← databaseKey name;
  onErr wrapf (lift (deriveCursorKey dbk)).

(** ** Index definitions (index.go) *)

Fixpoint indexes_loop (prefix : bytes) (l : list (bytes * bytes)) (defs : list indexDef)
    : M W (list indexDef) :=
  match l with
  | [] => mret defs
  | (key, value) :: l' =>
      match readPart (drop (length prefix) key) with
      | Some (namePart, []) =>
          match decodeIndexDef namePart value with
          | Ok def => indexes_loop prefix l' (defs ++ [def])
          | _ => throw (wrapf errCorruptData)
          end
      | _ => throw (wrapf errCorruptData)
      end
  end.

Definition def_le (a b : indexDef) : Prop := def_name a <=b def_name b.
#[local] Instance def_le_dec a b : Decision (def_le a b).
Proof. apply ble_dec. Defined.

Definition indexes (database : bytes) : M W (list indexDef) :=
  let prefix := indexDefPrefix database in
  it ← newIter (Some prefix) (prefixEnd prefix);
  deferClose (
    defs ← indexes_loop prefix (it_entries it) [];
    _ ← iterError it [];
    match validateIndexes defs with
    | Ok _ => mret (merge_sort def_le defs)
    | _ => throw (wrapf errCorruptData)
    end).

(** ** Index entries (index.go) *)

Fixpoint queueAll (b : batch) (ops : list batchOp) : M W batch :=
  match ops with
  | [] => mret b
  | op :: ops' => b' ← queue b op; queueAll b' ops'
  end.

Definition entryKeys (database id : bytes) (values : gmap bytes bytes) : list bytes :=
  map (fun nv => indexKey database nv.1 nv.2 id) (map_to_list values).

Definition setIndexEntries (b : batch) (database id : bytes) (values : gmap bytes bytes)
    : M W batch :=
  queueAll b (map (fun k => BSet k []) (entryKeys database id values)).

(** [for name, value := range m1 { if bytes.Equal(value, m2[name]) { continue } .. }] *)
Definition changedEntries (m1 m2 : gmap bytes bytes) : gmap bytes bytes :=
  filter (fun nv => nv.2 <> default [] (m2 !! nv.1)) m1.

Definition changeIndexEntries (b : batch) (database id : bytes) (old next : gmap bytes bytes)
    : M W batch :=
  b1 ← queueAll b (map BDelete (entryKeys database id (changedEntries old next)));
  queueAll b1 (map (fun k => BSet k []) (entryKeys database id (changedEntries next old))).

Definition deleteIndexEntries (b : batch) (database id : bytes) (values : gmap bytes bytes)
    : M W batch :=
  queueAll b (map BDelete (entryKeys database id values)).

(** ** Databases *)

Definition createDB (name : bytes) (defs : list indexDef) : M W unit :=
  _ ← lift (validateIndexes defs);
  exists_ ← onErr wrapf (hasDB name);
  if exists_ : bool then throw errDBExists
  else
    record ← makeDBRecord (dbKey name);
    deferClose (
      b ← queue [] (BSet (dbKey name) record);
      b ← queueAll b (map (fun def => BSet (indexDefKey name (def_name def)) (encodeIndexDef def)) defs);
      commit b).

Fixpoint listDBs_loop (l : list (bytes * bytes)) (limit : Z) (names : list bytes)
    : M W (list bytes * list (bytes * bytes)) :=
  match l with
  | [] => mret (names, [])
  | (key, value) :: l' =>
      if len names <? limit then
        match authDBRecord key value with
        | Ok _ => listDBs_loop l' limit (names ++ [drop (length dbPrefix) key])
        | _ => throw (wrapf errCorruptData)
        end
      else mret (names, l)
  end.

Definition listDBs (limit : Z) (cursor : bytes) : M W (list bytes) :=
  it ← newIter (Some dbPrefix) (prefixEnd dbPrefix);
  deferClose (
    let start := match cursor with [] => it_entries it | _ => seekAfter (dbKey cursor) (it_entries it) end in
    '(names, rest) ← listDBs_loop start limit [];
    _ ← iterError it rest;
    mret names).

(** [batch.DeleteRange(prefix, prefixEnd(prefix), nil)]. *)
Definition deletePrefix (prefix : bytes) : batchOp :=
  BDeleteRange prefix (default [] (prefixEnd prefix)).

Definition deleteDB (name : bytes) : M W unit :=
  exists_ ← onErr wrapf (hasDB name);
  if negb exists_ then throw errDBNotFound
  else
    deferClose (
      b ← queue [] (BDelete (dbKey name));
      b ← queue b (deletePrefix (docsPrefix name));
      b ← queue b (deletePrefix (indexDataPrefix name));
      b ← queue b (deletePrefix (indexDefPrefix name));
      commit b).

(** ** Revisions and IDs *)

Definition makeID : M W bytes :=
  random ← rand 16;
  millis ← now;
  mret (formatID random millis).

(** A revision other than the previous one. *)
Fixpoint makeRevision (fuel : nat) (previous : option revision) : M W revision :=
  match fuel with
  | O => outOfFuel
  | S f =>
      rev ← rand 16;
      match previous with
      | Some p => if decide (rev = p) then makeRevision f previous else mret rev
      | None => mret rev
      end
  end.

(** ** Documents *)

Definition getDoc (database id : bytes) : M W storedDoc :=
  dbk ← documentDBKey database;
  readDoc database id dbk.

Definition createDocWithID (fuel : nat) (database id json : bytes) : M W revision :=
  dbk ← databaseKey database;
  let key := docKey database id in
  exists_ ← onErr wrapf (has key);
  if exists_ : bool then throw errDocExists
  else
    defs ← indexes database;
    values ← lift (indexValues json defs);
    rev ← makeRevision fuel None;
    record ← onErr wrapf (sealDoc key dbk id rev json);
    deferClose (
      b ← queue [] (BSet key record);
      b ← setIndexEntries b database id values;
      _ ← commit b;
      mret rev).

(** A new ID on every round, while the last one was taken. *)
Fixpoint createDoc (fuel : nat) (database json : bytes) : M W (bytes * revision) :=
  match fuel with
  | O => outOfFuel
  | S f =>
      id ← makeID;
      r ← catch (createDocWithID fuel database id json);
      match r with
      | inr rev => mret (id, rev)
      | inl e => if errorsIs errDocExists e then createDoc f database json else throw e
      end
  end.

Fixpoint listDocs_loop (prefix : bytes) (l : list (bytes * bytes)) (limit : Z) (ids : list bytes)
    : M W (list bytes * list (bytes * bytes)) :=
  match l with
  | [] => mret (ids, [])
  | (key, value) :: l' =>
      if len ids <=? limit then
        match parseDocRecord value with
        | Ok _ => listDocs_loop prefix l' limit (ids ++ [drop (length prefix) key])
        | _ => throw (wrapf errCorruptData)
        end
      else mret (ids, l)
  end.

(** A page of IDs: at most [limit] of them, and whether more follow. *)
Definition pageOf (limit : Z) (ids : list bytes) : list bytes * bool :=
  if limit <? len ids then (take (Z.to_nat limit) ids, true) else (ids, false).

Definition listDocs (database : bytes) (limit : Z) (cursor : bytes) : M W (list bytes * bool) :=
  exists_ ← onErr wrapf (hasDB database);
  if negb exists_ then throw errDBNotFound
  else
    let prefix := docsPrefix database in
    it ← newIter (Some prefix) (prefixEnd prefix);
    deferClose (
      let start := match cursor with
                   | [] => it_entries it
                   | _ => seekAfter (docKey database cursor) (it_entries it)
                   end in
      '(ids, rest) ← listDocs_loop prefix start limit [];
      _ ← iterError it rest;
      mret (pageOf limit ids)).

Definition replaceDoc (fuel : nat) (database id json : bytes) (match_ : matchCond) : M W revision :=
  dbk ← documentDBKey database;
  let key := docKey database id in
  current ← readDoc database id dbk;
  if negb (matchRevision match_ (sd_revision current)) then throw errPreconditionFailed
  else
    defs ← indexes database;
    oldValues ← onErr (fun _ => wrapf errCorruptData) (lift (indexValues (sd_json current) defs));
    newValues ← lift (indexValues json defs);
    rev ← makeRevision fuel (Some (sd_revision current));
    record ← onErr wrapf (sealDoc key dbk id rev json);
    deferClose (
      b ← queue [] (BSet key record);
      b ← changeIndexEntries b database id oldValues newValues;
      _ ← commit b;
      mret rev).

Definition patchDoc (fuel : nat) (database id : bytes) (match_ : matchCond)
    (apply : bytes -> res bytes) : M W storedDoc :=
  dbk ← documentDBKey database;
  let key := docKey database id in
  current ← readDoc database id dbk;
  if negb (matchRevision match_ (sd_revision current)) then throw errPreconditionFailed
  else
    json ← lift (apply (sd_json current));
    defs ← indexes database;
    oldValues ← onErr (fun _ => wrapf errCorruptData) (lift (indexValues (sd_json current) defs));
    newValues ← lift (indexValues json defs);
    rev ← makeRevision fuel (Some (sd_revision current));
    record ← onErr wrapf (sealDoc key dbk id rev json);
    deferClose (
      b ← queue [] (BSet key record);
      b ← changeIndexEntries b database id oldValues newValues;
      _ ← commit b;
      mret (StoredDoc json rev)).

Definition deleteDoc (database id : bytes) (match_ : matchCond) : M W unit :=
  dbk ← documentDBKey database;
  let key := docKey database id in
  current ← readDoc database id dbk;
  if negb (matchRevision match_ (sd_revision current)) then throw errPreconditionFailed
  else
    defs ← indexes database;
    values ← onErr (fun _ => wrapf errCorruptData) (lift (indexValues (sd_json current) defs));
    deferClose (
      b ← queue [] (BDelete key);
      b ← deleteIndexEntries b database id values;
      commit b).

(** ** Bulk export and import *)

Fixpoint exportDocs_loop (ctx : context) (prefix dbk : bytes) (yield : bytes -> M W unit)
    (l : list (bytes * bytes)) : M W unit :=
  match l with
  | [] => mret ()
  | (key, value) :: l' =>
      _ ← ctxErr ctx;
      let id := drop (length prefix) key in
      if negb (is_ok (validateID id)) then throw (wrapf errCorruptData)
      else
        doc ← onErr wrapf (lift (openDoc key dbk id value));
        _ ← onErr wrapf (yield (sd_json doc));
        exportDocs_loop ctx prefix dbk yield l'
  end.

Definition exportDocs (ctx : context) (database : bytes) (yield : bytes -> M W unit) : M W unit :=
  dbk ← databaseKey database;
  snap ← newSnapshot;
  deferClose (
    let prefix := docsPrefix database in
    it ← snapIter snap (Some prefix) (prefixEnd prefix);
    deferClose (
      _ ← exportDocs_loop ctx prefix dbk yield (it_entries it);
      iterError it [])).

(** [makeImportIDs]: distinct IDs, each with a revision; an ID already [seen] is
    drawn again, the fuel bounding how often. *)
Fixpoint drawID (fuel : nat) (seen : list bytes) : M W bytes :=
  match fuel with
  | O => outOfFuel
  | S f => id ← makeID; if decide (id ∈ seen) then drawID f seen else mret id
  end.

Fixpoint makeImportIDs (fuel : nat) (count : nat) (seen : list bytes)
    : M W (list (bytes * revision)) :=
  match count with
  | O => mret []
  | S n =>
      id ← drawID fuel seen;
      rev ← makeRevision 1 None;
      rest ← makeImportIDs fuel n (id :: seen);
      mret ((id, rev) :: rest)
  end.

Fixpoint hasAnyDoc (database : bytes) (ids : list bytes) : M W bool :=
  match ids with
  | [] => mret false
  | id :: ids' =>
      exists_ ← onErr wrapf (has (docKey database id));
      if exists_ : bool then mret true else hasAnyDoc database ids'
  end.

Fixpoint chooseImportIDs (fuel : nat) (rounds : nat) (database : bytes) (count : nat)
    : M W (list (bytes * revision)) :=
  match rounds with
  | O => outOfFuel
  | S r =>
      ids ← makeImportIDs fuel count [];
      collision ← hasAnyDoc database (map fst ids);
      if collision : bool then chooseImportIDs fuel r database count else mret ids
  end.

Fixpoint importDocs_loop (ctx : context) (database dbk : bytes) (defs : list indexDef)
    (maxBatchBytes : Z) (line : Z) (l : list (bytes * (bytes * revision))) (b : batch)
    : M W batch :=
  match l with
  | [] => mret b
  | (document, (id, rev)) :: l' =>
      _ ← ctxErr ctx;
      values ← onErr (ELine line) (lift (indexValues document defs));
      let key := docKey database id in
      record ← onErr wrapf (sealDoc key dbk id rev document);
      b ← queue b (BSet key record);
      b ← setIndexEntries b database id values;
      if maxBatchBytes <? batchLen b then throw (ELine line errBulkLimit)
      else importDocs_loop ctx database dbk defs maxBatchBytes (line + 1) l' b
  end.

Definition importDocs (fuel : nat) (ctx : context) (database : bytes) (documents : list bytes)
    (maxBatchBytes : Z) : M W (list bytes) :=
  dbk ← databaseKey database;
  defs ← indexes database;
  ids ← chooseImportIDs fuel fuel database (length documents);
  deferClose (
    b ← importDocs_loop ctx database dbk defs maxBatchBytes 1 (zip documents ids) [];
    _ ← ctxErr ctx;
    _ ← commit b;
    mret (map fst ids)).
End Store.
