(* ===== verification/StoreRep.v ===== *)
(** * What the store holds

    The abstract state of the store, a map from database names to a key, index
    definitions and documents, and the relation [store_rep] between it and the
    keys and values Pebble holds.  The lemmas say which changes of the keys are
    which changes of the abstract state. *)

From S2P Require Import Prelude GoErrors Codec Text Validation Keys Json IndexValue Host Crypto.
From S2P Require Import Store.

(** ** The abstract state *)

Record ldb := Ldb {
  ldb_key : bytes;
  ldb_defs : list indexDef;
  ldb_docs : gmap bytes storedDoc;
}.

Notation astate := (gmap bytes ldb).

(** The indexed values of a document that has been accepted. *)
Definition docValues (defs : list indexDef) (document : bytes) : gmap bytes bytes :=
  match indexValues document defs with Ok m => m | _ => ∅ end.

(** The document is one the indexes of the database accept. *)
Definition indexable (defs : list indexDef) (document : bytes) : Prop :=
  exists values, indexValues document defs = Ok values.

Definition wfDoc (defs : list indexDef) (id : bytes) (doc : storedDoc) : Prop :=
  validID id /\ wf_revision (sd_revision doc) /\ indexable defs (sd_json doc) /\
  len (sd_json doc) <= maxStoredDocBytes.

Definition wfDb (name : bytes) (d : ldb) : Prop :=
  validName name /\ len (ldb_key d) = keySize /\ validateIndexes (ldb_defs d) = Ok () /\
  StronglySorted (keyed def_name) (ldb_defs d) /\ map_Forall (wfDoc (ldb_defs d)) (ldb_docs d).

Definition wfState (a : astate) : Prop := map_Forall wfDb a.

(** ** Keys, taken apart *)

Inductive skey :=
  | KDb (name : bytes)
  | KDoc (name id : bytes)
  | KDef (name index : bytes)
  | KIdx (name index value id : bytes).

#[global] Instance skey_eq_dec : EqDecision skey.
Proof. solve_decision. Defined.

Definition keyBytes (k : skey) : bytes :=
  match k with
  | KDb n => dbKey n
  | KDoc n id => docKey n id
  | KDef n i => indexDefKey n i
  | KIdx n i v id => indexKey n i v id
  end.

Definition keyName (k : skey) : bytes :=
  match k with KDb n | KDoc n _ | KDef n _ | KIdx n _ _ _ => n end.

Definition wfKey (k : skey) : Prop :=
  match k with
  | KDb n | KDoc n _ => validName n
  | KDef n i => validName n /\ validName i
  | KIdx n i v _ => validName n /\ validName i /\ validIndexValue v = true
  end.

(** What an abstract state puts at a key. *)
Inductive entry :=
  | EDb (key : bytes)
  | EDoc (key : bytes) (doc : storedDoc)
  | EDef (path : bytes)
  | EIdx.

Definition docEntries (defs : list indexDef) (o : option storedDoc) : gmap bytes bytes :=
  match o with Some doc => docValues defs (sd_json doc) | None => ∅ end.

Definition want (a : astate) (k : skey) : option entry :=
  match k with
  | KDb n => d ← a !! n; Some (EDb (ldb_key d))
  | KDoc n id => d ← a !! n; doc ← ldb_docs d !! id; Some (EDoc (ldb_key d) doc)
  | KDef n i => d ← a !! n; def ← findIndex (ldb_defs d) i; Some (EDef (def_path def))
  | KIdx n i v id =>
      d ← a !! n;
      v' ← docEntries (ldb_defs d) (ldb_docs d !! id) !! i;
      if decide (v' = v) then Some EIdx else None
  end.

(** What identifies a store: its wrapping key, and its metadata record, which no
    operation touches. *)
Record storeKey := StoreKey {
  sk_wk :> bytes;
  sk_meta : option bytes;
}.

Section Rep.
Context `{CryptoSpec}.
Variable wk : storeKey.

Definition holds (k : skey) (e : entry) (v : bytes) : Prop :=
  match e with
  | EDb key => unwrapDBKey wk (keyBytes k) v = Ok key
  | EDoc key doc =>
      match k with KDoc n id => openDoc (keyBytes k) key id v = Ok doc | _ => False end
  | EDef path => v = indexDefVersion :: path
  | EIdx => v = []
  end.

(** The keys of Pebble are those of the abstract state, each with its value; the
    store metadata stands beside them, unchanged. *)
Definition store_rep (c : gmap bytes bytes) (a : astate) : Prop :=
  wfState a /\ c !! storeMetaKey = sk_meta wk /\
  (forall k v, c !! k = Some v ->
     k = storeMetaKey \/ exists sk e, keyBytes sk = k /\ want a sk = Some e /\ holds sk e v) /\
  (forall sk e, want a sk = Some e -> exists v, c !! keyBytes sk = Some v /\ holds sk e v).

(** ** Well-formed states want well-formed keys *)

Lemma wfDb_defs n d def : wfDb n d -> def ∈ ldb_defs d -> validDef def.
Proof.
  intros (_ & _ & (_ & HF & _)%validateIndexes_spec & _) Hin. by eapply Forall_forall in HF.
Qed.

Lemma docEntries_wf n d o i v :
  wfDb n d -> docEntries (ldb_defs d) o !! i = Some v ->
  validName i /\ validIndexValue v = true.
Proof.
  intros Hd. unfold docEntries, docValues. destruct o as [doc|]; [|by rewrite lookup_empty].
  destruct (indexValues (sd_json doc) (ldb_defs d)) as [m| |] eqn:E; [|by rewrite lookup_empty..].
  intros Hv. destruct (indexValues_spec _ _ _ _ _ E Hv) as (? & def & Hin & <-).
  split; [|done]. by apply (wfDb_defs n d def).
Qed.

Lemma want_wf a sk e : wfState a -> want a sk = Some e -> wfKey sk.
Proof.
  intros Ha. destruct sk as [n|n id|n i|n i v id]; simpl;
    destruct (a !! n) as [d|] eqn:Hd; try done; pose proof (Ha n d Hd) as Hwf; simpl.
  - intros _. apply Hwf.
  - intros _. apply Hwf.
  - destruct (findIndex (ldb_defs d) i) as [def|] eqn:Hf; [|done]. intros _.
    apply findIndex_Some in Hf as [Hin <-].
    split; [apply Hwf|]. by apply (wfDb_defs n d def).
  - destruct (docEntries _ _ !! i) as [v'|] eqn:Hv; [|done]. simpl.
    destruct (decide (v' = v)) as [->|]; [|done]. intros _.
    split; [apply Hwf|]. by eapply docEntries_wf.
Qed.

Lemma want_db a sk e : want a sk = Some e -> is_Some (a !! keyName sk).
Proof. destruct sk; simpl; destruct (a !! _); naive_solver. Qed.

(** ** Distinct keys *)

Lemma keyBytes_inj k1 k2 : wfKey k1 -> wfKey k2 -> keyBytes k1 = keyBytes k2 -> k1 = k2.
Proof.
  assert (forall n id, exists r, docKey n id = x02 :: r) as Hdoc by (intros; by eexists).
  destruct k1 as [n|n id|n i|n i v id], k2 as [n'|n' id'|n' i'|n' i' v' id']; simpl;
    rewrite ?indexDefKey_app, ?indexKey_app; intros H1 H2 E; try discriminate E.
  - by injection E as ->.
  - destruct (docKey_inj _ _ _ _ (validName_no_nul _ H1) (validName_no_nul _ H2) E) as [-> ->]. done.
  - rewrite <- !indexDefKey_app in E.
    destruct H1, H2. by apply indexDefKey_inj in E as [-> ->]; [|apply validName_slice..].
  - rewrite <- !indexKey_app in E. destruct H1 as (H1 & H3 & H5), H2 as (H2 & H4 & H6).
    apply indexKey_inj in E as (-> & -> & E); [|by apply validName_slice..].
    by apply valid_app_inj in E as [-> ->].
Qed.

Lemma keyBytes_not_meta k : keyBytes k <> storeMetaKey.
Proof. destruct k; simpl; rewrite ?indexDefKey_app, ?indexKey_app; discriminate. Qed.

(** The keys of one database under each of its prefixes. *)
Lemma keyBytes_dbPrefix sk :
  dbPrefix `prefix_of` keyBytes sk <-> exists n, sk = KDb n.
Proof.
  split; [|by intros (n & ->); eexists].
  intros [k E]. destruct sk; simpl in E; rewrite ?indexDefKey_app, ?indexKey_app in E;
    try discriminate E. by eexists.
Qed.

Lemma keyBytes_docsPrefix n sk :
  validName n -> wfKey sk -> docsPrefix n `prefix_of` keyBytes sk <-> exists id, sk = KDoc n id.
Proof.
  intros Hn Hw. split; [|by intros (id & ->); eexists]. intros Hp. pose proof Hp as [k E].
  destruct sk as [n'|n' id|n' i|n' i v id]; simpl in E;
    rewrite ?indexDefKey_app, ?indexKey_app in E; try discriminate E.
  apply docsPrefix_prefix in Hp as ->; [by eexists|by apply validName_no_nul..].
Qed.

Lemma keyBytes_indexDefPrefix n sk :
  validName n -> wfKey sk -> indexDefPrefix n `prefix_of` keyBytes sk <-> exists i, sk = KDef n i.
Proof.
  intros Hn Hw. split.
  - intros Hp. pose proof Hp as [k E]. rewrite indexDefPrefix_app in E.
    destruct sk as [n'|n' id|n' i|n' i v id]; simpl in E;
      rewrite ?indexDefKey_app, ?indexKey_app in E; try discriminate E.
    apply indexDefPrefix_prefix in Hp as ->; [by eexists|apply validName_slice, Hn|].
    apply validName_slice, Hw.
  - intros (i & ->). simpl. rewrite indexDefPrefix_app, indexDefKey_app.
    by exists (appendPart [] i).
Qed.

Lemma keyBytes_indexDataPrefix n sk :
  validName n -> wfKey sk ->
  indexDataPrefix n `prefix_of` keyBytes sk <-> exists i v id, sk = KIdx n i v id.
Proof.
  intros Hn Hw. split.
  - intros Hp. pose proof Hp as [k E]. rewrite indexDataPrefix_app in E.
    destruct sk as [n'|n' id|n' i|n' i v id]; simpl in E;
      rewrite ?indexDefKey_app, ?indexKey_app in E; try discriminate E.
    apply indexDataPrefix_prefix in Hp as ->; [by do 3 eexists|apply validName_slice, Hn|].
    apply validName_slice, Hw.
  - intros (i & v & id & ->). simpl. rewrite indexDataPrefix_app, indexKey_app.
    by exists (appendPart [] i ++ v ++ id).
Qed.

(** ** Reading a represented store *)

Lemma rep_lookup c a sk e v :
  store_rep c a -> wfKey sk -> c !! keyBytes sk = Some v -> want a sk = Some e -> holds sk e v.
Proof.
  intros (_ & _ & _ & H3) _ Hv He. destruct (H3 _ _ He) as (v' & Hv' & ?). by simplify_eq.
Qed.

Lemma rep_lookup_inv c a sk v :
  store_rep c a -> wfKey sk -> c !! keyBytes sk = Some v ->
  exists e, want a sk = Some e /\ holds sk e v.
Proof.
  intros (Hwf & _ & H2 & _) Hk Hv. destruct (H2 _ _ Hv) as [Hm|(sk' & e & Hb & He & Hh)].
  { by apply keyBytes_not_meta in Hm. }
  apply keyBytes_inj in Hb as ->; [by eexists|by eapply want_wf|done].
Qed.

Lemma rep_lookup_None c a sk :
  store_rep c a -> wfKey sk -> c !! keyBytes sk = None <-> want a sk = None.
Proof.
  intros Hrep Hk. split; intros Hn.
  - destruct (want a sk) as [e|] eqn:He; [|done].
    destruct Hrep as (_ & _ & _ & H3). destruct (H3 _ _ He) as (v & Hv & _). congruence.
  - destruct (c !! keyBytes sk) as [v|] eqn:Hv; [|done].
    destruct (rep_lookup_inv _ _ _ _ Hrep Hk Hv) as (e & He & _). congruence.
Qed.

(** ** Changing a represented store

    The keys in [t] are rewritten to what the new state wants; outside of [t]
    neither the store nor the wants change. *)
Lemma rep_change (t : bytes -> bool) c c' a a' :
  store_rep c a -> wfState a' -> t storeMetaKey = false ->
  (forall k, t k = false -> c' !! k = c !! k) ->
  (forall sk, wfKey sk -> t (keyBytes sk) = false -> want a' sk = want a sk) ->
  (forall k v, t k = true -> c' !! k = Some v ->
     exists sk e, keyBytes sk = k /\ want a' sk = Some e /\ holds sk e v) ->
  (forall sk e, t (keyBytes sk) = true -> want a' sk = Some e ->
     exists v, c' !! keyBytes sk = Some v /\ holds sk e v) ->
  store_rep c' a'.
Proof.
  intros (Hwf & Hmeta & H2 & H3) Hwf' Hm Hc Hw Hin Hout.
  split; [done|]. split; [by rewrite Hc|]. split.
  - intros k v Hv. destruct (t k) eqn:Ht; [by right; apply Hin|]. rewrite Hc in Hv by done.
    destruct (H2 _ _ Hv) as [->|(sk & e & <- & He & Hh)]; [by left|right].
    exists sk, e. split; [done|]. split; [|done]. rewrite Hw; [done|by apply (want_wf a _ e)|done].
  - intros sk e He. destruct (t (keyBytes sk)) eqn:Ht; [by apply Hout|].
    rewrite Hc by done. apply H3. rewrite <- Hw; [done|by apply (want_wf a' _ e)|done].
Qed.

(** ** Batches *)

Lemma applyBatch_app (c : gmap bytes bytes) b1 b2 :
  applyBatch c (b1 ++ b2) = applyBatch (applyBatch c b1) b2.
Proof. apply fold_left_app. Qed.

Lemma applyBatch_deletes (c : gmap bytes bytes) l k :
  applyBatch c (map BDelete l) !! k = if decide (k ∈ l) then None else c !! k.
Proof.
  revert c. induction l as [|k' l IH]; intros c; simpl; [done|]. rewrite IH.
  destruct (decide (k ∈ l)) as [Hk|Hk]; [by rewrite decide_True by set_solver|].
  destruct (decide (k = k')) as [->|Hne].
  - rewrite lookup_delete_eq. by rewrite decide_True by set_solver.
  - rewrite lookup_delete_ne by done. by rewrite decide_False by set_solver.
Qed.

Lemma applyBatch_sets {A} (f : A -> bytes * bytes) (c : gmap bytes bytes) (l : list A) k :
  NoDup (map (fun x => fst (f x)) l) ->
  applyBatch c (map (fun x => BSet (fst (f x)) (snd (f x))) l) !! k =
  match list_find (fun x => fst (f x) = k) l with Some (_, x) => Some (snd (f x)) | None => c !! k end.
Proof.
  revert c. induction l as [|x l IH]; intros c Hnd; simpl; [done|].
  simpl in Hnd. apply NoDup_cons in Hnd as [Hx Hnd]. rewrite IH by done.
  destruct (decide (fst (f x) = k)) as [<-|Hne].
  - destruct (list_find _ l) as [[j y]|] eqn:Hf.
    + apply list_find_Some in Hf as (Hy & E & _). destruct Hx. apply list_elem_of_fmap.
      exists y. split; [done|]. by eapply list_elem_of_lookup_2.
    + by rewrite lookup_insert_eq.
  - destruct (list_find _ l) as [[j y]|]; simpl; [done|]. by rewrite lookup_insert_ne.
Qed.

Lemma applyBatch_marks (c : gmap bytes bytes) l k :
  applyBatch c (map (fun k => BSet k []) l) !! k = if decide (k ∈ l) then Some [] else c !! k.
Proof.
  revert c. induction l as [|k' l IH]; intros c; simpl; [done|]. rewrite IH.
  destruct (decide (k ∈ l)) as [Hk|Hk]; [by rewrite decide_True by set_solver|].
  destruct (decide (k = k')) as [->|Hne].
  - rewrite lookup_insert_eq. by rewrite decide_True by set_solver.
  - rewrite lookup_insert_ne by done. by rewrite decide_False by set_solver.
Qed.

(** ** Documents *)

Lemma elem_entryKeys n id m k :
  k ∈ entryKeys n id m <-> exists i v, m !! i = Some v /\ k = indexKey n i v id.
Proof.
  unfold entryKeys. rewrite list_elem_of_fmap. split.
  - intros ([i v] & -> & H'). apply elem_of_map_to_list in H'. by exists i, v.
  - intros (i & v & H' & ->). exists (i, v). split; [done|]. by apply elem_of_map_to_list.
Qed.

(** The document [id] of the database [n] becomes [o]. *)
Definition setDoc (a : astate) (n id : bytes) (o : option storedDoc) : astate :=
  alter (fun d => Ldb (ldb_key d) (ldb_defs d) (partial_alter (fun _ => o) id (ldb_docs d))) n a.

Lemma setDoc_lookup a n id o d :
  a !! n = Some d ->
  setDoc a n id o !! n
  = Some (Ldb (ldb_key d) (ldb_defs d) (partial_alter (fun _ => o) id (ldb_docs d))).
Proof. intros Hd. unfold setDoc. by rewrite lookup_alter_eq, Hd. Qed.

Lemma setDoc_wf a n id o d :
  wfState a -> a !! n = Some d -> (forall doc, o = Some doc -> wfDoc (ldb_defs d) id doc) ->
  wfState (setDoc a n id o).
Proof.
  intros Ha Hd Ho n' d'. unfold setDoc. destruct (decide (n' = n)) as [->|Hne].
  - rewrite lookup_alter_eq, Hd. intros [= <-].
    destruct (Ha n d Hd) as (H1 & H2 & H3 & H4 & H5). do 4 (split; [done|]).
    intros id' doc'. simpl. destruct (decide (id' = id)) as [->|Hid].
    + rewrite lookup_partial_alter_eq. auto.
    + rewrite lookup_partial_alter_ne by done. apply H5.
  - rewrite lookup_alter_ne by done. apply Ha.
Qed.

Lemma want_setDoc_other a n id o sk :
  sk <> KDoc n id -> (forall i v, sk <> KIdx n i v id) -> want (setDoc a n id o) sk = want a sk.
Proof.
  intros H1 H2. unfold setDoc.
  destruct sk as [n'|n' id'|n' i'|n' i' v' id']; simpl;
    (destruct (decide (n' = n)) as [->|Hne]; [rewrite lookup_alter_eq|by rewrite lookup_alter_ne]);
    destruct (a !! n) as [d|]; simpl; try done;
    rewrite lookup_partial_alter_ne by congruence; done.
Qed.

Lemma want_doc a n d id :
  a !! n = Some d -> want a (KDoc n id) = EDoc (ldb_key d) <$> ldb_docs d !! id.
Proof. intros Hd. simpl. rewrite Hd. simpl. by destruct (ldb_docs d !! id). Qed.

Lemma want_idx a n d i v id :
  a !! n = Some d ->
  want a (KIdx n i v id) = Some EIdx <->
  docEntries (ldb_defs d) (ldb_docs d !! id) !! i = Some v.
Proof.
  intros Hd. simpl. rewrite Hd. simpl. destruct (docEntries _ _ !! i) as [v'|]; simpl; [|done].
  destruct (decide (v' = v)) as [->|]; [done|]. split; [done|]. congruence.
Qed.

Lemma want_idx_EIdx a n i v id e : want a (KIdx n i v id) = Some e -> e = EIdx.
Proof.
  simpl. destruct (a !! n); simpl; [|done]. destruct (_ !! i); simpl; [|done].
  destruct (decide _); congruence.
Qed.

Lemma want_idx_ext a a' n d d' i v id :
  a !! n = Some d -> a' !! n = Some d' ->
  (docEntries (ldb_defs d) (ldb_docs d !! id) !! i = Some v <->
   docEntries (ldb_defs d') (ldb_docs d' !! id) !! i = Some v) ->
  want a' (KIdx n i v id) = want a (KIdx n i v id).
Proof.
  intros Hd Hd' Hiff. apply option_eq. intros e. split; intros He;
    pose proof (want_idx_EIdx _ _ _ _ _ _ He) as ->.
  - apply (want_idx a n d); [done|]. apply Hiff. by apply (want_idx a' n d').
  - apply (want_idx a' n d'); [done|]. apply Hiff. by apply (want_idx a n d).
Qed.

(** The entries removed, [D], and added, [S], take the index from the entries of
    the old document to those of the new one. *)
Definition entryChange (old new D S : gmap bytes bytes) : Prop :=
  S ⊆ new /\ D ⊆ old /\
  (forall i v, new !! i = Some v -> S !! i = Some v \/ old !! i = Some v) /\
  (forall i v, old !! i = Some v -> D !! i = Some v \/ new !! i = Some v) /\
  (forall i v, D !! i = Some v -> new !! i <> Some v).

(** The record of the document and the entries removed or added. *)
Definition docTouched (n id : bytes) (D S : gmap bytes bytes) (k : bytes) : Prop :=
  k = docKey n id \/ k ∈ entryKeys n id S \/ k ∈ entryKeys n id D.
#[global] Instance docTouched_dec n id D S k : Decision (docTouched n id D S k).
Proof. unfold docTouched. apply _. Defined.

(** The keys of [c'] are those of [c] but for the record of the document and its
    entries: its record is that of [o], the entries [S] are there, those of [D] are
    not. *)
Section SetDoc.
Variables (c c' : gmap bytes bytes) (a : astate) (n : bytes) (d : ldb) (id : bytes) (o : option storedDoc)
  (D S : gmap bytes bytes).
Context (Hrep : store_rep c a) (Hd : a !! n = Some d) (Ho : forall doc, o = Some doc -> wfDoc (ldb_defs d) id doc).
Context (Hdoc : match o with
                | Some doc => exists r, c' !! docKey n id = Some r /\ openDoc (docKey n id) (ldb_key d) id r = Ok doc
                | None => c' !! docKey n id = None
                end).
Context (Hc : forall k, k <> docKey n id ->
  c' !! k = if decide (k ∈ entryKeys n id S) then Some []
            else if decide (k ∈ entryKeys n id D) then None else c !! k).
Context (Hchange : entryChange (docEntries (ldb_defs d) (ldb_docs d !! id)) (docEntries (ldb_defs d) o) D S).

Notation touched := (docTouched n id D S).

Lemma setDoc_docs : exists d', setDoc a n id o !! n = Some d' /\ ldb_key d' = ldb_key d /\ ldb_defs d' = ldb_defs d /\
  ldb_docs d' !! id = o.
Proof. eexists. split; [by apply setDoc_lookup|]. do 2 (split; [done|]). apply lookup_partial_alter_eq. Qed.

Lemma setDoc_wants sk e : want (setDoc a n id o) sk = Some e -> wfKey sk.
Proof. apply want_wf. eapply setDoc_wf; [apply Hrep|done..]. Qed.

Lemma setDoc_want_idx i v :
  want (setDoc a n id o) (KIdx n i v id) = Some EIdx <-> docEntries (ldb_defs d) o !! i = Some v.
Proof. destruct setDoc_docs as (d' & Hd' & _ & Hdefs & Hdo). by rewrite (want_idx _ _ _ _ _ _ Hd'), Hdefs, Hdo. Qed.

Lemma entry_wfKey i v :
  docEntries (ldb_defs d) (ldb_docs d !! id) !! i = Some v \/ docEntries (ldb_defs d) o !! i = Some v ->
  wfKey (KIdx n i v id).
Proof.
  assert (wfDb n d) as Hwd by (by apply (proj1 Hrep)).
  intros [H'|H']; destruct (docEntries_wf n d _ i v Hwd H') as [? ?]; (split; [apply Hwd|done]).
Qed.

(** A key among those of the entries is that of its entry. *)
Lemma changed_entryKeys k :
  k ∈ entryKeys n id S \/ k ∈ entryKeys n id D -> exists i v, k = keyBytes (KIdx n i v id) /\ wfKey (KIdx n i v id) /\
    (k ∈ entryKeys n id S -> S !! i = Some v) /\ (k ∈ entryKeys n id D -> D !! i = Some v).
Proof.
  destruct Hchange as (HS & HD & _).
  assert (forall m i v, m = S \/ m = D -> m !! i = Some v -> wfKey (KIdx n i v id)) as Hwk.
  { intros m i v Hm Hv. apply entry_wfKey. destruct Hm as [->| ->]; eauto using lookup_weaken. }
  assert (forall m i v, m = S \/ m = D -> wfKey (KIdx n i v id) ->
            indexKey n i v id ∈ entryKeys n id m -> m !! i = Some v) as Hin.
  { intros m i v Hm Hk (i' & v' & Hv' & E)%elem_entryKeys.
    apply (keyBytes_inj (KIdx n i v id) (KIdx n i' v' id)) in E; [by simplify_eq|done|by eapply Hwk]. }
  intros Hk. assert (exists m i v, (m = S \/ m = D) /\ m !! i = Some v /\ k = indexKey n i v id) as (m & i & v & Hm & Hv & ->).
  { destruct Hk as [Hk|Hk]; apply elem_entryKeys in Hk as (i & v & Hv & ->); eauto 7. }
  exists i, v. split; [done|]. assert (wfKey (KIdx n i v id)) as Hwf by (by eapply Hwk). split; [done|].
  split; intros Hin'; eapply Hin; eauto.
Qed.

Lemma setDoc_untouched sk : wfKey sk -> ~ touched (keyBytes sk) -> want (setDoc a n id o) sk = want a sk.
Proof.
  destruct Hchange as (_ & _ & Hnew & Hold & _). intros Hsk Ht.
  destruct (decide (sk = KDoc n id)) as [->|Hnd]; [by destruct Ht; left|].
  destruct sk as [n'|n' id'|n' i'|n' i' v' id']; [by apply want_setDoc_other..|].
  destruct (decide (n' = n /\ id' = id)) as [[-> ->]|Hni]; [|apply want_setDoc_other; [done|]; intros i v [=]; tauto].
  destruct setDoc_docs as (d' & Hd' & _ & Hdefs & Hdo). apply (want_idx_ext _ _ _ d d'); [done..|]. rewrite Hdo, Hdefs.
  unfold docTouched in Ht. simpl in Ht. rewrite !elem_entryKeys in Ht. split; intros H'.
  - destruct (Hold _ _ H') as [?|?]; [|done]. destruct Ht. right; right; eauto.
  - destruct (Hnew _ _ H') as [?|?]; [|done]. destruct Ht. right; left; eauto.
Qed.

(** What is at a changed key is wanted there. *)
Lemma setDoc_written k v :
  touched k -> c' !! k = Some v -> exists sk e, keyBytes sk = k /\ want (setDoc a n id o) sk = Some e /\ holds sk e v.
Proof.
  intros Ht Hv. destruct setDoc_docs as (d' & Hd' & Hkey & Hdefs & Hdo).
  destruct (decide (k = docKey n id)) as [->|Hk].
  - destruct o as [doc|]; [|congruence]. destruct Hdoc as (r & Hr & Hop).
    exists (KDoc n id), (EDoc (ldb_key d) doc). split; [done|].
    rewrite (want_doc _ _ _ _ Hd'), Hdo, Hkey. split; [done|]. simpl. by simplify_eq.
  - destruct Ht as [?|Ht]; [done|]. rewrite Hc in Hv by done. destruct (changed_entryKeys k Ht) as (i & w & -> & _ & HkS & _).
    destruct (decide (_ ∈ entryKeys n id S)) as [HSk|HSk]; [|by rewrite decide_True in Hv by tauto].
    injection Hv as <-. exists (KIdx n i w id), EIdx. split; [done|]. split; [|done].
    apply setDoc_want_idx. eapply lookup_weaken; [by apply HkS|apply Hchange].
Qed.

(** What is wanted at a changed key is there. *)
Lemma setDoc_found sk e :
  touched (keyBytes sk) -> want (setDoc a n id o) sk = Some e -> exists v, c' !! keyBytes sk = Some v /\ holds sk e v.
Proof.
  intros Ht He. pose proof (setDoc_wants _ _ He) as Hsk. destruct setDoc_docs as (d' & Hd' & Hkey & Hdefs & Hdo).
  destruct Ht as [Ht|Ht].
  - apply (keyBytes_inj sk (KDoc n id)) in Ht as ->; [|done|by apply (proj1 Hrep n d)].
    rewrite (want_doc _ _ _ _ Hd'), Hdo, Hkey in He. destruct o as [doc|]; [|done]. injection He as <-. done.
  - destruct (changed_entryKeys _ Ht) as (i & v & E & Hk & HkS & HkD).
    apply keyBytes_inj in E as ->; [|done..]. pose proof (want_idx_EIdx _ _ _ _ _ _ He) as ->.
    apply setDoc_want_idx in He. exists []. split; [|done].
    rewrite Hc by (simpl; rewrite indexKey_app; discriminate).
    destruct (decide (_ ∈ entryKeys n id S)) as [|HnS]; [done|]. destruct Ht as [?|Ht]; [done|].
    destruct Hchange as (_ & _ & _ & _ & HDn). by destruct (HDn _ _ (HkD Ht)).
Qed.

Lemma rep_setDoc : store_rep c' (setDoc a n id o).
Proof.
  apply (rep_change (fun k => bool_decide (touched k)) c c' a); [done|by eapply setDoc_wf; [apply Hrep|..]|..].
  - apply bool_decide_eq_false. intros [H'|[H'|H']]; [done|..];
      apply elem_entryKeys in H' as (i & v & _ & H'); rewrite indexKey_app in H'; done.
  - intros k Hk%bool_decide_eq_false. unfold docTouched in Hk. rewrite Hc by tauto. by rewrite !decide_False by tauto.
  - intros sk Hsk Ht%bool_decide_eq_false. by apply setDoc_untouched.
  - intros k v Ht%bool_decide_eq_true. by apply setDoc_written.
  - intros sk e Ht%bool_decide_eq_true. by apply setDoc_found.
Qed.
End SetDoc.

(** ** Databases *)

Lemma def_sort_spec defs :
  NoDup (map def_name defs) ->
  StronglySorted (keyed def_name) (merge_sort def_le defs) /\
  Permutation (merge_sort def_le defs) defs.
Proof.
  intros Hnd. pose proof (merge_sort_Permutation def_le defs) as HP. split; [|done].
  assert (Transitive def_le) by (intros x y z; unfold def_le; apply transitivity).
  assert (Total def_le) by (intros x y; unfold def_le; apply total, _).
  assert (StronglySorted def_le (merge_sort def_le defs)) as HS
    by apply (StronglySorted_merge_sort _ _).
  assert (NoDup (map def_name (merge_sort def_le defs))) as Hnd'
    by (by rewrite HP).
  clear HP Hnd. induction HS as [|x l HS IH HF]; [constructor|].
  simpl in Hnd'. apply NoDup_cons in Hnd' as [Hx Hnd]. constructor; [by apply IH|].
  rewrite Forall_forall in HF. apply Forall_forall. intros y Hy.
  specialize (HF y Hy). unfold def_le in HF. apply ble_lt_eq in HF as [?|E]; [done|].
  destruct Hx. rewrite E. apply list_elem_of_fmap. by exists y.
Qed.

Lemma validateIndexes_perm defs defs' :
  Permutation defs defs' -> validateIndexes defs = Ok () -> validateIndexes defs' = Ok ().
Proof.
  intros HP. rewrite !validateIndexes_spec. unfold len. by rewrite HP.
Qed.

Definition newDb (key : bytes) (defs : list indexDef) : ldb := Ldb key (merge_sort def_le defs) ∅.

Lemma newDb_wf n key defs :
  validName n -> len key = keySize -> validateIndexes defs = Ok () -> wfDb n (newDb key defs).
Proof.
  intros Hn Hk Hv. pose proof Hv as (_ & _ & Hnd)%validateIndexes_spec.
  destruct (def_sort_spec defs Hnd) as [HS HP]. split; [done|]. split; [done|].
  split; [by eapply validateIndexes_perm|]. split; [done|]. apply map_Forall_empty.
Qed.

Lemma want_other a a' n sk :
  (forall n', n' <> n -> a' !! n' = a !! n') -> keyName sk <> n -> want a' sk = want a sk.
Proof. intros Ha Hk. destruct sk; simpl in *; by rewrite Ha. Qed.

Lemma want_absent a sk : a !! keyName sk = None -> want a sk = None.
Proof. intros Ha. destruct sk; simpl in *; by rewrite Ha. Qed.

Definition createBatch (n record : bytes) (defs : list indexDef) : batch :=
  BSet (dbKey n) record
    :: map (fun def => BSet (indexDefKey n (def_name def)) (encodeIndexDef def)) defs.

Lemma createBatch_lookup c n record defs k :
  validName n -> validateIndexes defs = Ok () ->
  (k = dbKey n -> applyBatch c (createBatch n record defs) !! k = Some record) /\
  (forall def, def ∈ defs -> k = indexDefKey n (def_name def) ->
     applyBatch c (createBatch n record defs) !! k = Some (encodeIndexDef def)) /\
  (k <> dbKey n -> (forall def, def ∈ defs -> k <> indexDefKey n (def_name def)) ->
     applyBatch c (createBatch n record defs) !! k = c !! k).
Proof.
  intros Hn Hv. pose proof Hv as (_ & HF & Hnd)%validateIndexes_spec. rewrite Forall_forall in HF.
  set (f := fun def => (indexDefKey n (def_name def), encodeIndexDef def)).
  assert (forall def def', def ∈ defs -> def' ∈ defs ->
            fst (f def) = fst (f def') -> def = def') as Hinj.
  { intros def def' H1 H2 E. apply indexDefKey_inj in E as [_ E].
    - pose proof (findIndex_elem _ _ Hnd H1) as F1. pose proof (findIndex_elem _ _ Hnd H2) as F2.
      rewrite E in F1. congruence.
    - by apply validName_slice.
    - by apply validName_slice.
    - by apply validName_slice, HF.
    - by apply validName_slice, HF. }
  assert (NoDup (map (fun def => fst (f def)) defs)) as Hnd'.
  { apply NoDup_fmap_2_strong; [by apply Hinj|]. by eapply NoDup_fmap_1. }
  unfold createBatch. change (BSet (dbKey n) record :: ?l) with ([BSet (dbKey n) record] ++ l).
  rewrite applyBatch_app. pose proof (applyBatch_sets f (applyBatch c [BSet (dbKey n) record])
    defs k Hnd') as HA. unfold f in HA at 1 2. cbn [fst snd] in HA. rewrite HA.
  destruct (list_find _ defs) as [[j def]|] eqn:Hf.
  - apply list_find_Some in Hf as (Hj & E & _). apply list_elem_of_lookup_2 in Hj.
    split; [intros ->; unfold f in E; simpl in E; by rewrite indexDefKey_app in E|].
    split; [|intros _ Hno; by destruct (Hno def Hj)].
    intros def' Hin ->. simpl in *. by rewrite (Hinj def def' Hj Hin E).
  - apply list_find_None in Hf. rewrite Forall_forall in Hf. cbn [applyBatch fold_left applyOp].
    split; [intros ->; by rewrite lookup_insert_eq|].
    split; [intros def Hin ->; by destruct (Hf def Hin)|].
    intros Hk _. by rewrite lookup_insert_ne.
Qed.

Section CreateDB.
Variables (c : gmap bytes bytes) (a : astate) (n key record : bytes) (defs : list indexDef).
Context (Hrep : store_rep c a) (Ha : a !! n = None) (Hn : validName n) (Hk : len key = keySize).
Context (Hv : validateIndexes defs = Ok ()) (Hr : unwrapDBKey wk (dbKey n) record = Ok key).

Notation a' := (<[n := newDb key defs]> a).
Notation touched k := (k = dbKey n \/ k ∈ map (fun def => indexDefKey n (def_name def)) defs).

Lemma newDb_find i def :
  findIndex (ldb_defs (newDb key defs)) i = Some def <-> def ∈ defs /\ def_name def = i.
Proof.
  pose proof Hv as (_ & _ & Hnd)%validateIndexes_spec. destruct (def_sort_spec defs Hnd) as [_ HP]. cbn [newDb ldb_defs].
  assert (def ∈ merge_sort def_le defs <-> def ∈ defs) as <- by (by rewrite HP).
  split; [apply findIndex_Some|]. intros [Hin <-]. apply findIndex_elem; [by rewrite HP|done].
Qed.

Lemma newDb_want_def i : want a' (KDef n i) = (def ← findIndex (ldb_defs (newDb key defs)) i; Some (EDef (def_path def))).
Proof. simpl. by rewrite lookup_insert_eq. Qed.

Lemma newDb_untouched sk : ~ touched (keyBytes sk) -> want a' sk = want a sk.
Proof.
  intros Ht. destruct (decide (keyName sk = n)) as [Hkn|Hkn];
    [|apply (want_other _ _ n); [|done]; intros; by apply lookup_insert_ne].
  rewrite (want_absent a) by (by rewrite Hkn).
  destruct sk as [n'|n' id'|n' i'|n' i' v' id']; simpl in Hkn; subst n'.
  - destruct Ht. by left.
  - simpl. by rewrite lookup_insert_eq.
  - rewrite newDb_want_def. destruct (findIndex _ i') as [def|] eqn:Hf; [|done]. apply newDb_find in Hf as [Hin <-].
    destruct Ht. right. apply list_elem_of_fmap. by exists def.
  - simpl. by rewrite lookup_insert_eq.
Qed.

Lemma newDb_written k v :
  touched k -> applyBatch c (createBatch n record defs) !! k = Some v ->
  exists sk e, keyBytes sk = k /\ want a' sk = Some e /\ holds sk e v.
Proof.
  intros [->|Ht] Hvk.
  - exists (KDb n), (EDb key). split; [done|]. split; [simpl; by rewrite lookup_insert_eq|].
    rewrite (proj1 (createBatch_lookup c n record defs (dbKey n) Hn Hv)) in Hvk by done. by injection Hvk as <-.
  - apply list_elem_of_fmap in Ht as (def & -> & Hin). exists (KDef n (def_name def)), (EDef (def_path def)). split; [done|].
    split; [by rewrite newDb_want_def, (proj2 (newDb_find (def_name def) def))|].
    rewrite (proj1 (proj2 (createBatch_lookup c n record defs _ Hn Hv)) def Hin) in Hvk by done. by injection Hvk as <-.
Qed.

Lemma newDb_found sk e :
  wfKey sk -> touched (keyBytes sk) -> want a' sk = Some e ->
  exists v, applyBatch c (createBatch n record defs) !! keyBytes sk = Some v /\ holds sk e v.
Proof.
  pose proof Hv as (_ & HF & _)%validateIndexes_spec. rewrite Forall_forall in HF. intros Hsk [Ht|Ht] He.
  - apply (keyBytes_inj sk (KDb n)) in Ht as ->; [|done..].
    simpl in He. rewrite lookup_insert_eq in He. injection He as <-. exists record. split; [|done]. by apply createBatch_lookup.
  - apply list_elem_of_fmap in Ht as (def & Ht & Hin).
    apply (keyBytes_inj sk (KDef n (def_name def))) in Ht as ->; [|done|split; [done|by apply HF]].
    rewrite newDb_want_def, (proj2 (newDb_find (def_name def) def)) in He by done. injection He as <-.
    exists (encodeIndexDef def). split; [|done]. by apply createBatch_lookup.
Qed.

Lemma rep_createDB : store_rep (applyBatch c (createBatch n record defs)) a'.
Proof.
  assert (wfState a') as Hwf' by (apply map_Forall_insert_2; [by apply newDb_wf|apply Hrep]).
  apply (rep_change (fun k => bool_decide (touched k)) c _ a); [done|done|..].
  - apply bool_decide_eq_false. intros [H'|H']; [done|].
    apply list_elem_of_fmap in H' as (def & H' & _). rewrite indexDefKey_app in H'. done.
  - intros k Ht%bool_decide_eq_false. apply createBatch_lookup; [done|done|tauto|].
    intros def Hin ->. destruct Ht. right. apply list_elem_of_fmap. by exists def.
  - intros sk _ Ht%bool_decide_eq_false. by apply newDb_untouched.
  - intros k v Ht%bool_decide_eq_true. by apply newDb_written.
  - intros sk e Ht%bool_decide_eq_true He. apply newDb_found; [by eapply want_wf|done|done].
Qed.
End CreateDB.

Lemma prefixEnd_is_Some x p : x <> xff -> is_Some (prefixEnd (x :: p)).
Proof.
  intros Hx. induction p as [|c p IH] using rev_ind.
  - unfold prefixEnd. simpl. destruct (beqb_spec x xff); [done|]. by eexists.
  - rewrite app_comm_cons, prefixEnd_snoc. destruct (negb _); [by eexists|done].
Qed.

Lemma applyOp_deletePrefix (c : gmap bytes bytes) x p k :
  x <> xff ->
  applyOp c (deletePrefix (x :: p)) !! k = if decide (x :: p `prefix_of` k) then None else c !! k.
Proof.
  intros Hx. destruct (prefixEnd_is_Some x p Hx) as [hi Hhi].
  unfold deletePrefix. rewrite Hhi. cbn [default applyOp].
  pose proof (prefixEnd_spec (x :: p) k) as HP. rewrite Hhi in HP. unfold in_bounds in HP.
  rewrite andb_true_iff, !bool_decide_eq_true in HP.
  rewrite map_lookup_filter. destruct (c !! k) as [v|]; simpl; [|by case_match].
  destruct (decide (x :: p `prefix_of` k)) as [Hp|Hp].
  - rewrite option_guard_False; [done|]. intros Hn. apply Hn. by apply HP.
  - rewrite option_guard_True; [done|]. by rewrite HP.
Qed.

Definition deleteBatch (n : bytes) : batch :=
  [BDelete (dbKey n); deletePrefix (docsPrefix n); deletePrefix (indexDataPrefix n);
   deletePrefix (indexDefPrefix n)].

Definition ofDb (n : bytes) (k : bytes) : Prop :=
  k = dbKey n \/ docsPrefix n `prefix_of` k \/ indexDataPrefix n `prefix_of` k \/
  indexDefPrefix n `prefix_of` k.

#[global] Instance ofDb_dec n k : Decision (ofDb n k).
Proof. unfold ofDb. apply _. Defined.

Lemma deleteBatch_lookup c n k :
  applyBatch c (deleteBatch n) !! k = if decide (ofDb n k) then None else c !! k.
Proof.
  destruct (decide (ofDb n k)) as [Ho|Ho]; unfold deleteBatch, ofDb in *;
    rewrite indexDefPrefix_app, indexDataPrefix_app in *;
    change (docsPrefix n) with (x02 :: n ++ [x00]) in *; cbn [applyBatch fold_left];
    rewrite !applyOp_deletePrefix by done; cbn [applyOp];
    repeat case_decide; try tauto.
  - destruct_or! Ho; try done. subst k. apply lookup_delete_eq.
  - by rewrite lookup_delete_ne by naive_solver.
Qed.

Lemma ofDb_key n sk : validName n -> wfKey sk -> ofDb n (keyBytes sk) <-> keyName sk = n.
Proof.
  intros Hn Hsk. unfold ofDb.
  rewrite keyBytes_docsPrefix, keyBytes_indexDataPrefix, keyBytes_indexDefPrefix by done.
  split.
  - intros [E|[(? & ->)|[(? & ? & ? & ->)|(? & ->)]]]; [|done..].
    by apply (keyBytes_inj sk (KDb n)) in E as ->.
  - intros <-. destruct sk; naive_solver.
Qed.

Lemma rep_deleteDB c a n :
  store_rep c a -> validName n ->
  store_rep (applyBatch c (deleteBatch n)) (delete n a).
Proof.
  intros Hrep Hn. assert (wfState (delete n a)) as Hwf' by (apply map_Forall_delete, Hrep).
  apply (rep_change (fun k => bool_decide (ofDb n k)) c _ a); [done|done|..].
  - apply bool_decide_eq_false. unfold ofDb. rewrite indexDefPrefix_app, indexDataPrefix_app.
    intros [?|[[? ?]|[[? ?]|[? ?]]]]; done.
  - intros k Ht%bool_decide_eq_false. rewrite deleteBatch_lookup. by rewrite decide_False.
  - intros sk Hsk Ht%bool_decide_eq_false. rewrite ofDb_key in Ht by done.
    apply (want_other _ _ n); [|done]. intros. by apply lookup_delete_ne.
  - intros k v Ht%bool_decide_eq_true Hv. rewrite deleteBatch_lookup in Hv.
    by rewrite decide_True in Hv.
  - intros sk e Ht%bool_decide_eq_true He. pose proof (want_wf _ _ _ Hwf' He) as Hsk.
    apply ofDb_key in Ht; [|done..]. rewrite want_absent in He; [done|].
    rewrite Ht. apply lookup_delete_eq.
Qed.
End Rep.
