(* ===== verification/StoreReads.v ===== *)
(** * Reading the store

    What the reading helpers of the store return on a store that represents an
    abstract state, and the records the writing operations make. *)

From S2P Require Import Prelude GoErrors Codec Text Validation Keys Json IndexValue Host Crypto.
From S2P Require Import Wp Store StoreRep.

(** ** Scans *)

Lemma scan_elem c (p : bytes) l k v :
  isScan c (Some p) (prefixEnd p) l -> (k, v) ∈ l <-> c !! k = Some v /\ p `prefix_of` k.
Proof. intros [_ Hl]. by rewrite Hl, prefixEnd_spec. Qed.

Lemma scan_NoDup c lo hi l : isScan c lo hi l -> NoDup l.
Proof.
  intros [Hs _]. induction Hs as [|x l Hs IH HF]; constructor; [|done].
  intros Hx. rewrite Forall_forall in HF. by destruct (irreflexivity blt x.1 (HF x Hx)).
Qed.

Section Reads.
Context {W : Type} `{HS : HostSpec W} `{CS : CryptoSpec}.
Variable wk : storeKey.

(** ** Records *)

Lemma reads_wrapDBKey c k dbk (E : exits) :
  len wk = keySize -> len dbk = keySize ->
  reads c (wrapDBKey wk k dbk) (fun r => unwrapDBKey wk k r = Ok dbk) E.
Proof.
  intros Hw Hk. unfold wrapDBKey. rewrite Hk. cbn [negb]. rewrite Z.eqb_refl. cbn [negb].
  rewrite newGCM_32 by done.
  eapply reads_bind; [by apply (reads_lift c (Ok (sk_wk wk)) (fun b => b = sk_wk wk))|]. intros ? ->.
  eapply reads_bind; [apply reads_rand|]. intros nonce Hn. apply reads_ret.
  by apply unwrapDBKey_wrappedKey.
Qed.

Lemma reads_makeDBRecord c k (E : exits) :
  len wk = keySize ->
  reads c (makeDBRecord wk k)
    (fun r => exists dbk, len dbk = keySize /\ unwrapDBKey wk k r = Ok dbk) E.
Proof.
  intros Hw. eapply reads_bind; [apply reads_rand|]. intros dbk Hk.
  assert (len dbk = keySize) as Hl by (unfold len; by rewrite Hk).
  apply reads_exits, reads_wrapped; [apply outside_wrapf|].
  eapply reads_mono; [by apply reads_wrapDBKey with (E := noExit)|eauto|done].
Qed.

Lemma reads_sealDoc c k dbk id rev json (E : exits) :
  len dbk = keySize -> wf_revision rev -> (sealable json = false -> E (Some EText)) ->
  reads c (sealDoc k dbk id rev json)
    (fun r => sealable json = true /\ openDoc k dbk id r = Ok (StoredDoc json rev)) E.
Proof.
  intros Hk Hr HE. unfold sealDoc, deriveDocumentKey. rewrite deriveKey_32 by done.
  unfold sealable in HE. rewrite Z.leb_antisym in HE.
  destruct (maxStoredDocBytes <? len json) eqn:Hl; [by apply reads_throw, HE|].
  cbn [negb andb] in HE.
  eapply reads_bind;
    [by apply (reads_onErr_lift c wrapf (Ok (docKeyOf dbk id)) (fun b => b = docKeyOf dbk id))|].
  intros ? ->. rewrite zstdWriterErr_none.
  eapply reads_bind; [by apply (reads_ret c () (fun _ => True))|]. intros _ _.
  rewrite Z.leb_antisym in HE.
  destruct (_ <? len (zstdEncode json)) eqn:Hz; [by apply reads_throw, HE|].
  rewrite newGCM_32 by apply len_hkdf.
  eapply reads_bind; [by apply (reads_lift c (Ok _) (fun b => b = docKeyOf dbk id))|].
  intros ? ->. eapply reads_bind; [apply reads_rand|]. intros nonce Hn. apply reads_ret.
  assert (sealable json = true) as Hs by (unfold sealable; by rewrite !Z.leb_antisym, Hl, Hz).
  split; [done|]. by apply openDoc_sealedDoc.
Qed.

Lemma sealable_len json : sealable json = true -> len json <= maxStoredDocBytes.
Proof. unfold sealable. rewrite andb_true_iff. by intros [?%Z.leb_le _]. Qed.

Lemma reads_makeRevision c fuel p (E : exits) :
  (0 < fuel)%nat -> (p <> None -> E None) ->
  reads c (makeRevision fuel p) (fun rev => wf_revision rev /\ p <> Some rev) E.
Proof.
  assert (forall rev : bytes, length rev = 16%nat -> wf_revision rev) as Hwf.
  { intros rev Hr. unfold wf_revision, len. by rewrite Hr. }
  intros Hf HE. destruct p as [p|].
  - clear Hf. induction fuel as [|fuel IH]; simpl; [by apply reads_outOfFuel, HE|].
    eapply reads_bind; [apply reads_rand|]. intros rev Hr.
    destruct (decide (rev = p)) as [->|Hne]; [done|]. apply reads_ret.
    split; [by apply Hwf|congruence].
  - destruct fuel as [|fuel]; [lia|]. simpl.
    eapply reads_bind; [apply reads_rand|]. intros rev Hr. apply reads_ret. auto.
Qed.

Lemma reads_makeID c (E : exits) : reads c makeID validID E.
Proof.
  eapply reads_bind; [apply reads_rand|]. intros random Hr.
  eapply reads_bind; [apply reads_now|]. intros millis _. apply reads_ret.
  by apply validID_formatID.
Qed.

(** ** Databases *)

Section State.
Context (c : gmap bytes bytes) (a : astate) (Hrep : store_rep wk c a).

Lemma rep_db n v :
  validName n -> c !! dbKey n = Some v ->
  exists d, a !! n = Some d /\ unwrapDBKey wk (dbKey n) v = Ok (ldb_key d) /\ wfDb n d.
Proof.
  intros Hn Hv. destruct (rep_lookup_inv wk c a (KDb n) v Hrep Hn Hv) as (e & He & Hh).
  simpl in He. destruct (a !! n) as [d|] eqn:Hd; [|done]. injection He as <-.
  exists d. split; [done|]. split; [done|]. by apply (proj1 Hrep).
Qed.

Lemma rep_db_None n : validName n -> c !! dbKey n = None -> a !! n = None.
Proof.
  intros Hn Hv. apply (rep_lookup_None wk c a (KDb n) Hrep Hn) in Hv.
  simpl in Hv. by destruct (a !! n).
Qed.

Lemma reads_hasDB n :
  validName n -> reads c (hasDB wk n) (fun b => b = bool_decide (is_Some (a !! n))) noExit.
Proof.
  intros Hn. unfold hasDB. eapply reads_bind; [apply reads_lookupKey|]. intros o ->.
  destruct (c !! dbKey n) as [v|] eqn:Hv.
  - destruct (rep_db n v Hn Hv) as (d & Hd & Hu & _). rewrite Hd.
    intros w Hw. unfold mbind, M_bind, catch, authDBRecord. rewrite Hu. cbn [mbind res_bind].
    pose proof (reads_close c (fun _ => True) noExit I w Hw) as HC.
    destruct (close w) as [[u|ce|] w']; destruct HC as [Hf HC]; [done| |done].
    split; [done|]. destruct HC as [[HC Ho]|[]]. left. auto with goerr.
  - apply rep_db_None in Hv; [|done]. apply reads_ret. by rewrite Hv.
Qed.

Definition dbMissing (n : bytes) (e : error) (x : option error) : Prop :=
  x = Some e /\ a !! n = None.

Lemma reads_databaseKey n :
  validName n ->
  reads c (databaseKey wk n) (fun k => exists d, a !! n = Some d /\ k = ldb_key d)
    (dbMissing n errDBNotFound).
Proof.
  intros Hn. unfold databaseKey. eapply reads_bind; [apply reads_lookupKey|]. intros o ->.
  destruct (c !! dbKey n) as [v|] eqn:Hv.
  - destruct (rep_db n v Hn Hv) as (d & Hd & Hu & _). rewrite Hu.
    apply reads_exits, reads_deferClose_noExit, reads_ret. by exists d.
  - apply rep_db_None in Hv; [|done]. by apply reads_throw.
Qed.

Lemma reads_documentDBKey n :
  validName n ->
  reads c (documentDBKey wk n) (fun k => exists d, a !! n = Some d /\ k = ldb_key d)
    (dbMissing n errDocNotFound).
Proof.
  intros Hn. unfold documentDBKey. apply reads_onErr.
  { intros e [He Hl]. by rewrite He. }
  eapply reads_mono; [by apply reads_databaseKey|done|]. by intros x [-> ?].
Qed.

(** ** Documents *)

Context (n : bytes) (d : ldb) (Hd : a !! n = Some d).

Lemma rep_wfDb : wfDb n d.
Proof. by apply (proj1 Hrep). Qed.

Lemma rep_validName : validName n.
Proof. apply rep_wfDb. Qed.

Lemma rep_dbk_len : len (ldb_key d) = keySize.
Proof. apply rep_wfDb. Qed.

Lemma rep_doc id v :
  c !! docKey n id = Some v ->
  exists doc, ldb_docs d !! id = Some doc /\ openDoc (docKey n id) (ldb_key d) id v = Ok doc /\
              wfDoc (ldb_defs d) id doc.
Proof.
  intros Hv. destruct (rep_lookup_inv wk c a (KDoc n id) v Hrep rep_validName Hv) as (e & He & Hh).
  simpl in He. rewrite Hd in He. simpl in He.
  destruct (ldb_docs d !! id) as [doc|] eqn:Hdoc; [|done]. injection He as <-.
  exists doc. split; [done|]. split; [done|]. destruct rep_wfDb as (_ & _ & _ & _ & HF). by apply HF.
Qed.

Lemma rep_doc_None id : c !! docKey n id = None <-> ldb_docs d !! id = None.
Proof.
  rewrite (rep_lookup_None wk c a (KDoc n id) Hrep rep_validName). simpl. rewrite Hd. simpl.
  by destruct (ldb_docs d !! id).
Qed.

Lemma reads_has id :
  reads c (has (docKey n id)) (fun b => b = bool_decide (is_Some (ldb_docs d !! id))) noExit.
Proof.
  unfold has. eapply reads_bind; [apply reads_lookupKey|]. intros o ->.
  destruct (c !! docKey n id) as [v|] eqn:Hv.
  - destruct (rep_doc id v Hv) as (doc & -> & _).
    eapply reads_bind; [by apply (reads_close c (fun _ => True))|]. intros _ _. by apply reads_ret.
  - apply rep_doc_None in Hv. rewrite Hv. by apply reads_ret.
Qed.

Definition docMissing (id : bytes) (x : option error) : Prop :=
  x = Some (errDocNotFound : error) /\ ldb_docs d !! id = None.

Lemma reads_readDoc id :
  reads c (readDoc n id (ldb_key d)) (fun doc => ldb_docs d !! id = Some doc) (docMissing id).
Proof.
  unfold readDoc. eapply reads_bind; [apply reads_lookupKey|]. intros o ->.
  destruct (c !! docKey n id) as [v|] eqn:Hv.
  - destruct (rep_doc id v Hv) as (doc & Hdoc & -> & _). 
    by apply reads_exits, reads_deferClose_noExit, reads_ret.
  - apply rep_doc_None in Hv. by apply reads_throw.
Qed.

(** ** Index definitions *)

Definition defEntry (def : indexDef) : bytes * bytes :=
  (indexDefKey n (def_name def), encodeIndexDef def).

Lemma defs_elem k v :
  c !! k = Some v /\ indexDefPrefix n `prefix_of` k <->
  exists def, def ∈ ldb_defs d /\ (k, v) = defEntry def.
Proof.
  pose proof rep_wfDb as Hwd. pose proof Hwd as (Hn & _ & Hv & _).
  pose proof Hv as (_ & HF & Hnd)%validateIndexes_spec. rewrite Forall_forall in HF. split.
  - intros [Hk Hp]. destruct Hrep as (Hwf & _ & H2 & _).
    destruct (H2 _ _ Hk) as [->|(sk & e & <- & He & Hh)].
    { rewrite indexDefPrefix_app in Hp. by destruct Hp. }
    pose proof (want_wf _ _ _ Hwf He) as Hsk.
    apply keyBytes_indexDefPrefix in Hp as (i & ->); [|done..].
    simpl in He. rewrite Hd in He. simpl in He.
    destruct (findIndex (ldb_defs d) i) as [def|] eqn:Hf; [|done]. injection He as <-.
    apply findIndex_Some in Hf as [Hin <-]. exists def. split; [done|]. simpl in Hh. by subst v.
  - intros (def & Hin & [= -> ->]). destruct Hrep as (_ & _ & _ & H3).
    destruct (H3 (KDef n (def_name def)) (EDef (def_path def))) as (v & Hv' & Hh).
    { simpl. rewrite Hd. simpl. by rewrite findIndex_elem. }
    simpl in Hh. subst v. split; [done|].
    apply (keyBytes_indexDefPrefix n (KDef n (def_name def))); [done| |by eexists].
    split; [done|by apply HF].
Qed.

Lemma reads_indexes_loop l acc (E : exits) :
  Forall (fun def => validDef def) l ->
  reads c (indexes_loop (indexDefPrefix n) (map defEntry l) acc) (fun defs => defs = acc ++ l) E.
Proof.
  assert (forall def, drop (length (indexDefPrefix n)) (indexDefKey n (def_name def))
                      = appendPart [] (def_name def) ++ []) as Hdrop.
  { intros def. rewrite indexDefKey_app, indexDefPrefix_app, app_comm_cons, drop_app_length.
    by rewrite app_nil_r. }
  revert acc. induction l as [|def l IH]; intros acc HF; cbn [map indexes_loop].
  { apply reads_ret. by rewrite app_nil_r. }
  apply Forall_cons in HF as [Hdef HF]. unfold defEntry at 1.
  rewrite Hdrop, readPart_appendPart by apply validName_slice, Hdef.
  rewrite decodeIndexDef_encode by done.
  eapply reads_mono; [by apply IH| |done]. intros defs ->. by rewrite <- app_assoc.
Qed.

Lemma outside_corrupt : outsideExit (Some (wrapf errCorruptData)).
Proof. eexists. split; [done|]. auto with goerr. Qed.

Lemma reads_indexes_loop_any p l acc :
  reads c (indexes_loop p l acc) (fun _ => True) outsideExit.
Proof.
  revert acc. induction l as [|[k v] l IH]; intros acc; cbn [indexes_loop];
    [by apply reads_ret|].
  destruct (readPart _) as [[np [|]]|]; [|by apply reads_throw, outside_corrupt..].
  destruct (decodeIndexDef np v); [done|by apply reads_throw, outside_corrupt..].
Qed.

Lemma reads_indexes : reads c (indexes n) (fun defs => defs = ldb_defs d) noExit.
Proof.
  pose proof rep_wfDb as (Hn & _ & Hv & Hsort & _).
  pose proof Hv as (_ & HF & Hnd)%validateIndexes_spec. rewrite Forall_forall in HF.
  unfold indexes. apply reads_newIter.
  - intros it Herr Hscan. apply reads_deferClose_noExit.
    destruct (Forall_exists_map defEntry (fun def => def ∈ ldb_defs d) (it_entries it))
      as (l & Hl & HFl).
    { intros [k v] Hin. apply (scan_elem _ _ _ _ _ Hscan), defs_elem in Hin. naive_solver. }
    rewrite Forall_forall in HFl.
    assert (NoDup l) as Hndl.
    { apply scan_NoDup in Hscan. rewrite Hl in Hscan. by apply NoDup_fmap_1 in Hscan. }
    assert (Permutation l (ldb_defs d)) as HP.
    { apply NoDup_Permutation; [done|by eapply NoDup_fmap_1|]. intros def. split; [auto|].
      intros Hin. assert (defEntry def ∈ it_entries it) as Hin'.
      { destruct (defEntry def) as [k v] eqn:E. apply (scan_elem _ _ _ _ _ Hscan), defs_elem. eauto. }
      rewrite Hl in Hin'. apply list_elem_of_fmap in Hin' as (def' & E & Hin'). apply (f_equal fst) in E as E1. cbn [fst defEntry] in E1.
      assert (def' = def) as <-; [|done]. apply indexDefKey_inj in E1 as [_ E1].
      - pose proof (findIndex_elem _ _ Hnd Hin) as F1.
        pose proof (findIndex_elem _ _ Hnd (HFl _ Hin')) as F2. rewrite E1 in F1. congruence.
      - by apply validName_slice.
      - by apply validName_slice.
      - by apply validName_slice, HF.
      - by apply validName_slice, HF, HFl. }
    rewrite Hl. eapply reads_bind.
    { apply reads_indexes_loop. apply Forall_forall. auto. }
    intros ? ->. cbn [app]. eapply reads_bind; [by apply reads_iterError_ok|]. intros _ _.
    rewrite (validateIndexes_perm (ldb_defs d) l) by done. apply reads_ret.
    apply (ssorted_unique (keyed def_name)); [|done|intros; by rewrite merge_sort_Permutation, HP].
    apply def_sort_spec. by rewrite HP.
  - intros it e Herr Hfe _. eapply reads_mono; [apply reads_deferClose_outside|done|by left].
    eapply reads_bind; [apply reads_indexes_loop_any|]. intros defs _.
    eapply reads_bind; [by apply (reads_iterError_bad c it e (fun _ => False))|done].
Qed.
End State.
End Reads.
