(* ===== verification/StoreSpec.v ===== *)
(** * What the store's operations do

    Each writing operation of the store against the abstract state: which state
    it leaves and what it returns, on every path.  [runs wk a m post mid]: from a
    store that represents [a], [m] ends with a result and a state in [post]; if
    something outside has failed, with an error and a state in [mid]. *)

From S2P Require Import Prelude GoErrors Codec Text Validation Keys Json IndexValue Host Crypto.
From S2P Require Import Wp Store StoreRep StoreReads.

Section Spec.
Context {W : Type} `{HS : HostSpec W} `{CS : CryptoSpec}.

Definition runs (wk : storeKey) (a : astate) {A : Type} (m : M W A) (post : res A -> astate -> Prop)
    (mid : astate -> Prop) : Prop :=
  forall w, store_rep wk (contents w) a ->
    let '(r, w') := m w in
    (faulty w -> faulty w') /\
    exists a', store_rep wk (contents w') a' /\
      (post r a' \/ (exists e, r = Err e /\ outside e) /\ faulty w' /\ mid a').

(** A reading operation leaves the store as it is. *)
Definition observes (wk : storeKey) (a : astate) {A : Type} (m : M W A) (post : res A -> Prop) : Prop :=
  forall w, store_rep wk (contents w) a ->
    let '(r, w') := m w in
    (faulty w -> faulty w') /\ contents w' = contents w /\
    (post r \/ (exists e, r = Err e /\ outside e) /\ faulty w').

Variable wk : storeKey.

Lemma runs_triple a {A : Type} (m : M W A) post mid :
  (forall c, store_rep wk c a ->
     triple c m (fun r c' => exists a', store_rep wk c' a' /\ post r a')
       (fun c' => exists a', store_rep wk c' a' /\ mid a')) ->
  runs wk a m post mid.
Proof.
  intros Hm w Hrep. specialize (Hm _ Hrep w eq_refl). destruct (m w) as [r w'].
  destruct Hm as [Hf Hr]. split; [done|]. naive_solver.
Qed.

Lemma observes_reads a {A : Type} (m : M W A) (P : A -> Prop) (E : exits) (post : res A -> Prop) :
  (forall c, store_rep wk c a -> reads c m P E) ->
  (forall x, P x -> post (Ok x)) -> (forall e, E (Some e) -> post (Err e)) ->
  (E None -> post OutOfFuel) -> observes wk a m post.
Proof.
  intros Hm HP He Hn w Hrep. specialize (Hm _ Hrep w eq_refl). destruct (m w) as [r w'].
  destruct Hm as [[Hc Hf] Hr]. split; [done|]. split; [done|].
  destruct r as [x|e|]; [left; auto| |left; auto].
  destruct Hr as [[? ?]|Hr]; [right; eauto|left; auto].
Qed.

(** ** Batches *)

Lemma reads_queueAll c b ops (E : exits) :
  reads c (queueAll b ops) (fun b' => b' = b ++ ops) E.
Proof.
  revert b. induction ops as [|op ops IH]; intros b; simpl.
  { apply reads_ret. by rewrite app_nil_r. }
  eapply reads_bind; [apply reads_queue|]. intros ? ->.
  eapply reads_mono; [apply IH| |done]. intros ? ->. by rewrite <- app_assoc.
Qed.

Lemma reads_setIndexEntries c b n id values (E : exits) :
  reads c (setIndexEntries b n id values)
    (fun b' => b' = b ++ map (fun k => BSet k []) (entryKeys n id values)) E.
Proof. apply reads_queueAll. Qed.

Lemma reads_deleteIndexEntries c b n id values (E : exits) :
  reads c (deleteIndexEntries b n id values)
    (fun b' => b' = b ++ map BDelete (entryKeys n id values)) E.
Proof. apply reads_queueAll. Qed.

Lemma reads_changeIndexEntries c b n id old next (E : exits) :
  reads c (changeIndexEntries b n id old next)
    (fun b' => b' = b ++ map BDelete (entryKeys n id (changedEntries old next))
                      ++ map (fun k => BSet k []) (entryKeys n id (changedEntries next old))) E.
Proof.
  unfold changeIndexEntries. eapply reads_bind; [apply reads_queueAll|]. intros ? ->.
  eapply reads_mono; [apply reads_queueAll| |done]. intros ? ->. by rewrite <- app_assoc.
Qed.

Lemma reads_indexValues c json defs (E : exits) :
  (forall e, indexValues json defs = Err e -> E (Some e)) ->
  reads c (lift (indexValues json defs)) (fun values => indexValues json defs = Ok values) E.
Proof.
  intros HE. apply reads_lift. destruct (indexValues json defs) as [m|e|] eqn:H'; [done|by apply HE|].
  by apply indexValues_total in H'.
Qed.

(** The entries an update of a document removes and adds. *)
Lemma changedEntries_lookup m1 m2 i v :
  changedEntries m1 m2 !! i = Some v <-> m1 !! i = Some v /\ v <> default [] (m2 !! i).
Proof. unfold changedEntries. rewrite map_lookup_filter_Some. done. Qed.

Lemma entryChange_changed old new :
  (forall i v, old !! i = Some v -> v <> []) -> (forall i v, new !! i = Some v -> v <> []) ->
  entryChange old new (changedEntries old new) (changedEntries new old).
Proof.
  assert (forall m1 m2 : gmap bytes bytes, (forall i v, m1 !! i = Some v -> v <> []) ->
    changedEntries m1 m2 ⊆ m1 /\
    forall i v, m1 !! i = Some v -> changedEntries m1 m2 !! i = Some v \/ m2 !! i = Some v) as HA.
  { intros m1 m2 Hne. split; [apply map_filter_subseteq|]. intros i v Hv.
    destruct (m2 !! i) as [v2|] eqn:Hv2.
    - destruct (decide (v = v2)) as [->|Hd]; [by right|left].
      apply changedEntries_lookup. by rewrite Hv2.
    - left. apply changedEntries_lookup. rewrite Hv2. split; [done|]. by apply (Hne i). }
  intros Ho Hn. destruct (HA old new Ho) as [H1 H2], (HA new old Hn) as [H3 H4].
  do 4 (split; [done|]). intros i v [_ Hne]%changedEntries_lookup Hv. by rewrite Hv in Hne.
Qed.

Lemma entryChange_create new : entryChange ∅ new ∅ new.
Proof.
  split; [done|]. split; [done|]. split; [by left|]. split; intros i v; by rewrite lookup_empty.
Qed.

Lemma entryChange_delete old : entryChange old ∅ old ∅.
Proof.
  split; [done|]. split; [done|]. split; [intros i v; by rewrite lookup_empty|].
  split; [by left|]. intros i v _. by rewrite lookup_empty.
Qed.

Lemma docEntries_nonempty n d o i v :
  wfDb n d -> docEntries (ldb_defs d) o !! i = Some v -> v <> [].
Proof. intros Hd Hv. destruct (docEntries_wf n d o i v Hd Hv). by apply validIndexValue_nonempty. Qed.

Lemma entryKeys_empty n id : entryKeys n id ∅ = [].
Proof. unfold entryKeys. by rewrite map_to_list_empty. Qed.

(** A batch that writes one document and changes its entries. *)
Lemma rep_batchDoc c a n d id op o D S :
  store_rep wk c a -> a !! n = Some d -> (forall doc, o = Some doc -> wfDoc (ldb_defs d) id doc) ->
  match o with
  | Some doc => exists r, op = BSet (docKey n id) r /\ openDoc (docKey n id) (ldb_key d) id r = Ok doc
  | None => op = BDelete (docKey n id)
  end ->
  entryChange (docEntries (ldb_defs d) (ldb_docs d !! id)) (docEntries (ldb_defs d) o) D S ->
  store_rep wk
    (applyBatch c ([op] ++ map BDelete (entryKeys n id D)
                     ++ map (fun k => BSet k []) (entryKeys n id S)))
    (setDoc a n id o).
Proof.
  intros Hrep Hd Ho Hop HE.
  assert (forall m, docKey n id ∉ entryKeys n id m) as Hni.
  { intros m (i & v & _ & E)%elem_entryKeys. rewrite indexKey_app in E. discriminate E. }
  apply (rep_setDoc wk c _ a n d id o D S); [done..| | |done].
  - rewrite !applyBatch_app, applyBatch_marks, decide_False, applyBatch_deletes, decide_False by done.
    destruct o as [doc|]; [destruct Hop as (r & -> & Hr)|subst op]; cbn [applyBatch fold_left applyOp].
    + exists r. by rewrite lookup_insert_eq.
    + apply lookup_delete_eq.
  - intros k Hk. rewrite !applyBatch_app, applyBatch_marks. case_decide; [done|].
    rewrite applyBatch_deletes. case_decide; [done|].
    destruct o as [doc|]; [destruct Hop as (r & -> & Hr)|subst op]; cbn [applyBatch fold_left applyOp].
    + by apply lookup_insert_ne.
    + by apply lookup_delete_ne.
Qed.

(** The record of a document of the database [d], and why there is none. *)
Lemma reads_sealed c a n d id json values rev :
  store_rep wk c a -> a !! n = Some d -> validID id -> wf_revision rev -> indexValues json (ldb_defs d) = Ok values ->
  reads c (onErr wrapf (sealDoc (docKey n id) (ldb_key d) id rev json))
    (fun record => openDoc (docKey n id) (ldb_key d) id record = Ok (StoredDoc json rev) /\
                   wfDoc (ldb_defs d) id (StoredDoc json rev))
    (fun x => exists e, x = Some e /\ e = wrapf EText /\ sealable json = false).
Proof.
  intros Hrep Hd Hid Hrev Hv. pose proof (rep_dbk_len wk c a Hrep n d Hd) as Hk.
  eapply reads_mono; [apply (reads_onErr _ _ _ _ (fun x => exists e, x = Some e /\ e = wrapf EText /\ sealable json = false)),
    reads_sealDoc; [apply outside_wrapf|done|done|intros Hs; by exists (wrapf EText)]| |done].
  intros record [Hs Hopen]. split; [done|]. split; [done|]. split; [done|]. split; [by exists values|]. by apply sealable_len.
Qed.

(** ** Creating a document *)

(** Why a creation fails, with the error it fails with. *)
Inductive createFails (a : astate) (n id json : bytes) : error -> Prop :=
  | create_no_db : a !! n = None -> createFails a n id json errDBNotFound
  | create_exists d : a !! n = Some d -> is_Some (ldb_docs d !! id) ->
      createFails a n id json errDocExists
  | create_not_indexable d e : a !! n = Some d -> ldb_docs d !! id = None ->
      indexValues json (ldb_defs d) = Err e -> createFails a n id json e
  | create_too_large d : a !! n = Some d -> ldb_docs d !! id = None ->
      indexable (ldb_defs d) json -> sealable json = false -> createFails a n id json (wrapf EText).

Inductive created (a : astate) (n id json : bytes) (rev : revision) (a' : astate) : Prop :=
  | Created d : a !! n = Some d -> ldb_docs d !! id = None -> wfDoc (ldb_defs d) id (StoredDoc json rev) ->
      a' = setDoc a n id (Some (StoredDoc json rev)) -> created a n id json rev a'.

Lemma triple_createDocWithID c a fuel n id json :
  store_rep wk c a -> validName n -> validID id -> (0 < fuel)%nat ->
  triple c (createDocWithID wk fuel n id json)
    (fun r c' => exists a', store_rep wk c' a' /\
       match r with
       | Ok rev => created a n id json rev a'
       | Err e => a' = a /\ createFails a n id json e
       | OutOfFuel => False
       end)
    (fun c' => exists a', store_rep wk c' a' /\ (a' = a \/ exists rev, created a n id json rev a')).
Proof.
  intros Hrep Hn Hid Hfuel.
  assert (exists a', store_rep wk c a' /\ (a' = a \/ exists rev, created a n id json rev a')) as HF
    by (exists a; auto).
  unfold createDocWithID.
  eapply triple_bind_reads;
    [by apply (reads_databaseKey wk c a)| | |by intros [? ?]|done]; cycle 1.
  { intros e [[= ->] Ha]. exists a. split; [done|]. split; [done|]. by apply create_no_db. }
  intros ? (d & Hd & ->).
  eapply triple_bind_reads; [apply reads_wrapped, (reads_has wk c a Hrep n d Hd); apply outside_wrapf| |done..].
  intros ? ->. case_bool_decide as Hex.
  { apply triple_throw. exists a. split; [done|]. split; [done|]. by apply (create_exists _ _ _ _ d). }
  apply eq_None_not_Some in Hex.
  eapply triple_bind_reads; [by apply (reads_indexes wk c a Hrep n d Hd)| |done..]. intros ? ->.
  eapply triple_bind_reads;
    [apply (reads_indexValues _ _ _ (fun x => exists e, x = Some e /\ createFails a n id json e))
    | |intros e (? & [= <-] & ?); by exists a|by intros (? & ? & ?)|done].
  { intros e He. exists e. split; [done|]. by apply (create_not_indexable _ _ _ _ d). }
  intros values Hv.
  eapply triple_bind_reads; [by apply (reads_makeRevision c fuel None noExit)| |done..].
  intros rev [Hrev _].
  eapply triple_bind_reads; [by apply (reads_sealed c a n d id json values rev)|
    |intros e (? & [= <-] & -> & ?); exists a|by intros (? & ? & ?)|done].
  2: { split; [done|]. split; [done|]. apply (create_too_large _ _ _ _ d); eauto. by exists values. }
  intros record [Hopen Hwd].
  assert (store_rep wk (applyBatch c ([BSet (docKey n id) record] ++
            map (fun k => BSet k []) (entryKeys n id values)))
          (setDoc a n id (Some (StoredDoc json rev)))) as Hrep'.
  { pose proof (rep_batchDoc c a n d id (BSet (docKey n id) record) (Some (StoredDoc json rev))
      ∅ values Hrep Hd) as HB. rewrite entryKeys_empty in HB.
    apply HB; [by intros ? [= <-]|by exists record|]. rewrite Hex. unfold docEntries, docValues.
    simpl. rewrite Hv. by apply entryChange_create. }
  assert (created a n id json rev (setDoc a n id (Some (StoredDoc json rev)))) as Hcr by by econstructor.
  apply triple_deferWrite.
  - eapply triple_bind_reads; [by apply reads_queue with (E := noExit)| |done..]. intros ? ->.
    eapply triple_bind_reads; [by apply reads_setIndexEntries with (E := noExit)| |done..]. intros ? ->.
    apply (triple_fmap c _ (fun _ => rev)). apply triple_commit; [|done|eauto]. exists rev. split; [done|]. by eexists.
  - intros r c' (a' & Hrep'' & Hr). exists a'. eauto.
Qed.

(** ** Changing a document *)

(** The common end of [replaceDoc] and [patchDoc]. *)
Definition storeUpdate {A : Type} (fuel : nat) (n id dbk : bytes) (current : storedDoc)
    (json : bytes) (f : revision -> A) : M W A :=
  defs ← indexes n;
  oldValues ← onErr (fun _ => wrapf errCorruptData) (lift (indexValues (sd_json current) defs));
  newValues ← lift (indexValues json defs);
  rev ← makeRevision fuel (Some (sd_revision current));
  record ← onErr wrapf (sealDoc (docKey n id) dbk id rev json);
  deferClose (
    b ← queue [] (BSet (docKey n id) record);
    b ← changeIndexEntries b n id oldValues newValues;
    _ ← commit b;
    mret (f rev)).

(** Why the change of a document of the database [d] to [json] fails. *)
Inductive updateFails (d : ldb) (json : bytes) : error -> Prop :=
  | update_not_indexable e :
      indexValues json (ldb_defs d) = Err e -> updateFails d json e
  | update_too_large : indexable (ldb_defs d) json -> sealable json = false ->
      updateFails d json (wrapf EText).

(** The document [id], which is [current], becomes [json] under a new revision. *)
Inductive updated (a : astate) (n id : bytes) (current : storedDoc) (json : bytes) (rev : revision)
    (a' : astate) : Prop :=
  | Updated d : a !! n = Some d -> ldb_docs d !! id = Some current -> rev <> sd_revision current ->
      wfDoc (ldb_defs d) id (StoredDoc json rev) ->
      a' = setDoc a n id (Some (StoredDoc json rev)) -> updated a n id current json rev a'.

Lemma indexable_values d id doc :
  wfDoc (ldb_defs d) id doc ->
  indexValues (sd_json doc) (ldb_defs d) = Ok (docEntries (ldb_defs d) (Some doc)).
Proof. intros (_ & _ & [values Hv] & _). unfold docEntries, docValues. by rewrite Hv. Qed.

Lemma triple_storeUpdate {A : Type} c a fuel n id d current json (f : revision -> A) :
  store_rep wk c a -> a !! n = Some d -> ldb_docs d !! id = Some current -> (0 < fuel)%nat ->
  triple c (storeUpdate fuel n id (ldb_key d) current json f)
    (fun r c' => exists a', store_rep wk c' a' /\
       match r with
       | Ok x => exists rev, x = f rev /\ updated a n id current json rev a'
       | Err e => a' = a /\ updateFails d json e
       | OutOfFuel => a' = a
       end)
    (fun c' => exists a', store_rep wk c' a' /\
       (a' = a \/ exists rev, updated a n id current json rev a')).
Proof.
  intros Hrep Hd Hcur Hfuel.
  assert (exists a', store_rep wk c a' /\ (a' = a \/ exists rev, updated a n id current json rev a'))
    as HF by (exists a; auto).
  pose proof (rep_wfDb wk c a Hrep n d Hd) as Hwn.
  assert (wfDoc (ldb_defs d) id current) as Hwc by (by apply Hwn). unfold storeUpdate.
  eapply triple_bind_reads; [by apply (reads_indexes wk c a Hrep n d Hd)| |done..]. intros ? ->.
  eapply triple_bind_reads;
    [by apply (reads_onErr_lift c _ _ (fun m => m = docEntries (ldb_defs d) (Some current)) noExit);
     rewrite (indexable_values d id)| |done..].
  intros ? ->.
  eapply triple_bind_reads;
    [apply (reads_indexValues _ _ _ (fun x => exists e, x = Some e /\ updateFails d json e))
    | |intros e (? & [= <-] & ?); by exists a|by intros (? & ? & ?)|done].
  { intros e He. exists e. split; [done|]. by constructor. }
  intros values Hv.
  eapply triple_bind_reads;
    [by apply (reads_makeRevision c fuel _ (fun x => x = None))| |done|by exists a|done].
  intros rev [Hrev Hne].
  eapply triple_bind_reads; [apply (reads_sealed c a n d id json values rev); [done..|apply Hwc|done|done]|
    |intros e (? & [= <-] & -> & ?); exists a|by intros (? & ? & ?)|done].
  2: { split; [done|]. split; [done|]. apply update_too_large; [by exists values|done]. }
  intros record [Hopen Hwd].
  set (a' := setDoc a n id (Some (StoredDoc json rev))).
  assert (updated a n id current json rev a') as Hup by (econstructor; eauto; congruence).
  assert (docEntries (ldb_defs d) (Some (StoredDoc json rev)) = values) as Hde
    by (unfold docEntries, docValues; simpl; by rewrite Hv).
  apply triple_deferWrite.
  - eapply triple_bind_reads; [by apply reads_queue with (E := noExit)| |done..]. intros ? ->.
    eapply triple_bind_reads; [by apply reads_changeIndexEntries with (E := noExit)| |done..].
    intros ? ->. apply (triple_fmap c _ (fun _ => f rev)).
    match goal with |- triple _ (commit ?b) _ _ =>
      assert (store_rep wk (applyBatch c b) a') as Hrep' end.
    { apply (rep_batchDoc c a n d id); [done|done|by intros ? [= <-]|by exists record|].
      rewrite Hcur, Hde. apply entryChange_changed; intros i v; [|rewrite <- Hde];
        by apply (docEntries_nonempty n). }
    apply triple_commit; [|done|eauto]. eexists. split; [done|]. exists a'.
    split; [done|]. simpl. eauto.
  - intros r c' (a'' & Hrep'' & Hr). exists a''. naive_solver.
Qed.

(** Reading the document to change, and its precondition. *)
Inductive lookupFails (a : astate) (n id : bytes) (m : matchCond) : error -> Prop :=
  | lookup_no_db : a !! n = None -> lookupFails a n id m errDocNotFound
  | lookup_no_doc d : a !! n = Some d -> ldb_docs d !! id = None -> lookupFails a n id m errDocNotFound
  | lookup_mismatch d current : a !! n = Some d -> ldb_docs d !! id = Some current ->
      matchRevision m (sd_revision current) = false -> lookupFails a n id m errPreconditionFailed.

(** The document is there, and its revision satisfies the precondition. *)
Definition lookupMatches (a : astate) (n id : bytes) (m : matchCond) (d : ldb) (current : storedDoc)
    : Prop :=
  a !! n = Some d /\ ldb_docs d !! id = Some current /\ matchRevision m (sd_revision current) = true.

Lemma triple_lookup {A : Type} c a n id m (k : bytes -> storedDoc -> M W A) Q F :
  store_rep wk c a -> validName n ->
  (forall d current, lookupMatches a n id m d current ->
     triple c (k (ldb_key d) current) Q F) ->
  (forall e, lookupFails a n id m e -> Q (Err e) c) -> F c ->
  triple c
    (dbk ← documentDBKey wk n;
     current ← readDoc n id dbk;
     if negb (matchRevision m (sd_revision current)) then throw errPreconditionFailed
     else k dbk current) Q F.
Proof.
  intros Hrep Hn Hk He HF.
  eapply triple_bind_reads;
    [by apply (reads_documentDBKey wk c a)| |intros e [[= ->] ?]|by intros [? ?]|done]; cycle 1.
  { by apply He, lookup_no_db. }
  intros ? (d & Hd & ->).
  eapply triple_bind_reads;
    [by apply (reads_readDoc wk c a Hrep n d Hd)| |intros e [[= ->] ?]|by intros [? ?]|done]; cycle 1.
  { apply He. by apply (lookup_no_doc _ _ _ _ d). }
  intros current Hcur. destruct (matchRevision m (sd_revision current)) eqn:Hm; simpl.
  - by apply Hk.
  - apply triple_throw, He. by apply (lookup_mismatch _ _ _ _ d current).
Qed.

Lemma triple_replaceDoc c a fuel n id json m :
  store_rep wk c a -> validName n -> (0 < fuel)%nat ->
  triple c (replaceDoc wk fuel n id json m)
    (fun r c' => exists a', store_rep wk c' a' /\
       match r with
       | Ok rev => exists d current, lookupMatches a n id m d current /\
                                     updated a n id current json rev a'
       | Err e => a' = a /\
           (lookupFails a n id m e \/
            exists d current, lookupMatches a n id m d current /\ updateFails d json e)
       | OutOfFuel => a' = a
       end)
    (fun c' => exists a', store_rep wk c' a' /\
       (a' = a \/ exists d current rev, lookupMatches a n id m d current /\
                   updated a n id current json rev a')).
Proof.
  intros Hrep Hn Hf.
  apply (triple_lookup c a n id m (fun dbk current => storeUpdate fuel n id dbk current json (fun r => r)));
    [done|done| |intros e He; exists a; auto|exists a; auto].
  intros d current Hl.
  eapply triple_mono; [apply (triple_storeUpdate c a fuel n id d current json); [done|apply Hl..|done]| |].
  - intros r c' (a' & Hrep' & Hr). exists a'. split; [done|].
    destruct r; [|split; [apply Hr|right]; naive_solver|done].
    destruct Hr as (rev & -> & Hr). eauto.
  - intros c' (a' & Hrep' & Hr). exists a'. naive_solver.
Qed.

Lemma triple_patchDoc c a fuel n id m (apply_ : bytes -> res bytes) :
  store_rep wk c a -> validName n -> (0 < fuel)%nat ->
  triple c (patchDoc wk fuel n id m apply_)
    (fun r c' => exists a', store_rep wk c' a' /\
       match r with
       | Ok doc => exists d current, lookupMatches a n id m d current /\
                     apply_ (sd_json current) = Ok (sd_json doc) /\
                     updated a n id current (sd_json doc) (sd_revision doc) a'
       | Err e => a' = a /\
           (lookupFails a n id m e \/
            exists d current, lookupMatches a n id m d current /\
              (apply_ (sd_json current) = Err e \/
               exists json, apply_ (sd_json current) = Ok json /\ updateFails d json e))
       | OutOfFuel => a' = a
       end)
    (fun c' => exists a', store_rep wk c' a' /\
       (a' = a \/ exists d current json rev, lookupMatches a n id m d current /\
                   apply_ (sd_json current) = Ok json /\ updated a n id current json rev a')).
Proof.
  intros Hrep Hn Hf.
  apply (triple_lookup c a n id m (fun dbk current =>
    json ← lift (apply_ (sd_json current));
    storeUpdate fuel n id dbk current json (fun r => StoredDoc json r)));
    [done|done| |intros e He; exists a; auto|exists a; auto].
  intros d current Hl.
  eapply triple_bind_reads;
    [apply (reads_lift c _ (fun j => apply_ (sd_json current) = Ok j)
       (fun x => match x with Some e => apply_ (sd_json current) = Err e | None => True end));
     by destruct (apply_ _)| | |intros _; by exists a|by exists a; auto].
  2: { intros e He. exists a. naive_solver. }
  intros json Hj.
  eapply triple_mono; [apply (triple_storeUpdate c a fuel n id d current json); [done|apply Hl..|done]| |].
  - intros r c' (a' & Hrep' & Hr). exists a'. split; [done|].
    destruct r; [|split; [apply Hr|right]; naive_solver|done].
    destruct Hr as (rev & -> & Hr). eauto.
  - intros c' (a' & Hrep' & Hr). exists a'. naive_solver.
Qed.

Lemma triple_deleteDoc c a n id m :
  store_rep wk c a -> validName n ->
  triple c (deleteDoc wk n id m)
    (fun r c' => exists a', store_rep wk c' a' /\
       match r with
       | Ok _ => (exists d current, lookupMatches a n id m d current) /\ a' = setDoc a n id None
       | Err e => a' = a /\ lookupFails a n id m e
       | OutOfFuel => False
       end)
    (fun c' => exists a', store_rep wk c' a' /\
       (a' = a \/ (exists d current, lookupMatches a n id m d current) /\ a' = setDoc a n id None)).
Proof.
  intros Hrep Hn.
  assert (exists a', store_rep wk c a' /\ (a' = a \/ (exists d current, lookupMatches a n id m d current) /\ a' = setDoc a n id None)) as HF
    by (exists a; auto).
  apply (triple_lookup c a n id m (fun dbk current =>
    defs ← indexes n;
    values ← onErr (fun _ => wrapf errCorruptData) (lift (indexValues (sd_json current) defs));
    deferClose (
      b ← queue [] (BDelete (docKey n id));
      b ← deleteIndexEntries b n id values;
      commit b))); [done|done| |by intros e He; exists a|done].
  intros d current (Hd & Hcur & Hm). pose proof (rep_wfDb wk c a Hrep n d Hd) as Hwn.
  assert (wfDoc (ldb_defs d) id current) as Hwc by (by apply Hwn).
  eapply triple_bind_reads; [by apply (reads_indexes wk c a Hrep n d Hd)| |done..]. intros ? ->.
  eapply triple_bind_reads;
    [by apply (reads_onErr_lift c _ _ (fun m => m = docEntries (ldb_defs d) (Some current)) noExit);
     rewrite (indexable_values d id)| |done..].
  intros ? ->. apply triple_deferWrite.
  - eapply triple_bind_reads; [by apply reads_queue with (E := noExit)| |done..]. intros ? ->.
    eapply triple_bind_reads; [by apply reads_deleteIndexEntries with (E := noExit)| |done..].
    intros ? ->.
    match goal with |- triple _ (commit ?b) _ _ =>
      assert (store_rep wk (applyBatch c b) (setDoc a n id None)) as Hrep' end.
    { pose proof (rep_batchDoc c a n d id (BDelete (docKey n id)) None
        (docEntries (ldb_defs d) (Some current)) ∅ Hrep Hd) as HB.
      rewrite entryKeys_empty, app_nil_r in HB. apply HB; [done..|].
      rewrite Hcur. apply entryChange_delete. }
    assert (exists d current, lookupMatches a n id m d current) as Hl by (by exists d, current).
    apply triple_commit; [|done|exists (setDoc a n id None); auto]. eexists. split; [done|].
    exists (setDoc a n id None). by split_and!.
  - intros r c' (a' & Hrep' & Hr). exists a'. naive_solver.
Qed.

(** ** Databases *)

(** Why a database is not created. *)
Inductive createDBFails (a : astate) (n : bytes) (defs : list indexDef) : error -> Prop :=
  | createDB_invalid e : validateIndexes defs = Err e -> createDBFails a n defs e
  | createDB_exists : validateIndexes defs = Ok () -> is_Some (a !! n) ->
      createDBFails a n defs errDBExists.

(** The database is new, empty and has a key of its own. *)
Inductive createdDB (a : astate) (n : bytes) (defs : list indexDef) (a' : astate) : Prop :=
  | CreatedDB key : a !! n = None -> validateIndexes defs = Ok () -> len key = keySize ->
      a' = <[n := newDb key defs]> a -> createdDB a n defs a'.

Lemma triple_createDB c a n defs :
  store_rep wk c a -> len wk = keySize -> validName n ->
  triple c (createDB wk n defs)
    (fun r c' => exists a', store_rep wk c' a' /\
       match r with
       | Ok _ => createdDB a n defs a'
       | Err e => a' = a /\ createDBFails a n defs e
       | OutOfFuel => False
       end)
    (fun c' => exists a', store_rep wk c' a' /\ (a' = a \/ createdDB a n defs a')).
Proof.
  intros Hrep Hwk Hn.
  assert (exists a', store_rep wk c a' /\ (a' = a \/ createdDB a n defs a')) as HF
    by (exists a; auto).
  pose proof (validateIndexes_total defs) as Htot. unfold createDB.
  eapply triple_bind_reads;
    [apply (reads_lift c _ (fun _ => validateIndexes defs = Ok ())
       (fun x => match x with Some e => validateIndexes defs = Err e | None => False end))
    | | |done|done].
  { by destruct (validateIndexes defs) as [[]| |]. }
  2: { intros e He. exists a. split; [done|]. split; [done|]. by constructor. }
  intros ? Hv. cbn beta in Hv.
  eapply triple_bind_reads;
    [by apply reads_wrapped, (reads_hasDB wk c a Hrep n Hn); apply outside_wrapf| |done..].
  intros ? ->. case_bool_decide as Hex.
  { apply triple_throw. exists a. split; [done|]. split; [done|]. by constructor. }
  apply eq_None_not_Some in Hex.
  eapply triple_bind_reads; [by apply reads_makeDBRecord with (E := noExit)| |done..].
  intros record (key & Hk & Hr). apply triple_deferWrite.
  - eapply triple_bind_reads; [by apply reads_queue with (E := noExit)| |done..]. intros ? ->.
    eapply triple_bind_reads; [by apply reads_queueAll with (E := noExit)| |done..]. intros ? ->.
    change (([] ++ [?x]) ++ ?l) with (x :: l). fold (createBatch n record defs).
    pose proof (rep_createDB wk c a n key record defs Hrep Hex Hn Hk Hv Hr) as Hrep'.
    assert (createdDB a n defs (<[n := newDb key defs]> a)) as Hcr by by econstructor.
    apply triple_commit; [|done|eauto]. eexists. split; [done|]. eauto.
  - intros r c' (a' & Hrep'' & Hr'). exists a'. eauto.
Qed.

Lemma triple_deleteDB c a n :
  store_rep wk c a -> validName n ->
  triple c (deleteDB wk n)
    (fun r c' => exists a', store_rep wk c' a' /\
       match r with
       | Ok _ => is_Some (a !! n) /\ a' = delete n a
       | Err e => a' = a /\ a !! n = None /\ e = errDBNotFound
       | OutOfFuel => False
       end)
    (fun c' => exists a', store_rep wk c' a' /\ (a' = a \/ a' = delete n a)).
Proof.
  intros Hrep Hn.
  assert (exists a', store_rep wk c a' /\ (a' = a \/ a' = delete n a)) as HF by (exists a; auto).
  unfold deleteDB.
  eapply triple_bind_reads;
    [by apply reads_wrapped, (reads_hasDB wk c a Hrep n Hn); apply outside_wrapf| |done..].
  intros ? ->. case_bool_decide as Hex; cbn [negb]; cycle 1.
  { apply eq_None_not_Some in Hex. apply triple_throw. by exists a. }
  apply triple_deferWrite.
  - do 4 (eapply triple_bind_reads; [by apply reads_queue with (E := noExit)| |done..]; intros ? ->).
    change ((((([] ++ [?x]) ++ [?y]) ++ [?z]) ++ [?t])) with [x; y; z; t]. fold (deleteBatch n).
    pose proof (rep_deleteDB wk c a n Hrep Hn) as Hrep'.
    apply triple_commit; [|done|eauto]. eexists. split; [done|]. eauto.
  - intros r c' (a' & Hrep'' & Hr'). exists a'. naive_solver.
Qed.

(** ** Creating a document under a generated ID *)

Lemma triple_createDoc c a fuel n json :
  store_rep wk c a -> validName n ->
  triple c (createDoc wk fuel n json)
    (fun r c' => exists a', store_rep wk c' a' /\
       match r with
       | Ok (id, rev) => validID id /\ created a n id json rev a'
       | Err e => a' = a /\ errorsIs errDocExists e = false /\
           exists id, validID id /\ createFails a n id json e
       | OutOfFuel => a' = a
       end)
    (fun c' => exists a', store_rep wk c' a' /\
       (a' = a \/ exists id rev, validID id /\ created a n id json rev a')).
Proof.
  intros Hrep Hn. revert c Hrep. induction fuel as [|fuel IH]; intros c Hrep; cbn [createDoc].
  { intros w <-. split; [done|]. left. by exists a. }
  eapply triple_bind_reads; [by apply reads_makeID with (E := noExit)| |done..|by exists a; auto].
  intros id Hid w Hw.
  pose proof (triple_createDocWithID c a (S fuel) n id json Hrep Hn Hid ltac:(lia) w Hw) as HT.
  unfold mbind, M_bind, catch. destruct (createDocWithID _ _ _ _ _ w) as [[rev|e|] w1].
  - destruct HT as [Hf HT]. split; [done|].
    destruct HT as [(a' & Hrep' & Hcr)|((? & ? & _) & _)]; [|done].
    left. exists a'. by simpl.
  - destruct HT as [Hf [(a' & Hrep' & -> & Hcf)|((? & [= <-] & Ho) & Hfw & HF)]].
    + destruct (errorsIs errDocExists e) eqn:He.
      * specialize (IH _ Hrep' w1 eq_refl). destruct (createDoc _ _ _ _ w1) as [r w2].
        destruct IH as [Hf2 IH]. split; [auto|done].
      * split; [done|]. left. exists a. split; [done|]. split; [done|]. split; [done|]. by exists id.
    + rewrite (proj1 Ho) by done. split; [done|]. right. split; [by exists e|]. split; [done|].
      destruct HF as (a' & Hrep' & Ha'). exists a'. naive_solver.
  - destruct HT as [Hf [(a' & Hrep' & [])|((? & ? & _) & _)]]. done.
Qed.
End Spec.
