(* ===== verification/StoreBulk.v ===== *)
(** * Bulk import and export

    [importDocs] writes all its documents in one batch or none of them;
    [exportDocs] hands the documents of a snapshot, in the order of their IDs, to
    its callback. *)

From S2P Require Import Prelude GoErrors Codec Text Validation Keys Json IndexValue Host Crypto.
From S2P Require Import Wp Store StoreRep StoreReads StoreSpec.

Section Bulk.
Context {W : Type} `{HS : HostSpec W} `{CS : CryptoSpec}.
Variable wk : storeKey.

(** ** Import *)

(** The documents of an import with the IDs and revisions drawn for them. *)
Definition importAll (a : astate) (n : bytes) (l : list (bytes * (bytes * revision))) : astate :=
  fold_left (fun a x => setDoc a n x.2.1 (Some (StoredDoc x.1 x.2.2))) l a.

(** A batch with these documents, each with its record and its index entries. *)
Inductive batchOf (n key : bytes) (defs : list indexDef) : list bytes -> batch -> Prop :=
  | batch_nil : batchOf n key defs [] []
  | batch_doc docs b doc id rev record :
      batchOf n key defs docs b -> openDoc (docKey n id) key id record = Ok (StoredDoc doc rev) ->
      batchOf n key defs (docs ++ [doc])
        (b ++ BSet (docKey n id) record :: map (fun k => BSet k []) (entryKeys n id (docValues defs doc))).

(** The batch of these documents is longer than [maxBatch] bytes. *)
Definition overBatch (n : bytes) (maxBatch : Z) (d : ldb) (docs : list bytes) : Prop :=
  exists b, batchOf n (ldb_key d) (ldb_defs d) docs b /\ maxBatch < batchLen b.

(** Why an import of [docs], which follow [before], fails, the first of them being on
    line [line]; [over] tells which documents are too many for one batch. *)
Inductive lineFails (over : list bytes -> Prop) (defs : list indexDef) : Z -> list bytes -> list bytes -> error -> Prop :=
  | line_not_indexable line before doc docs e :
      indexValues doc defs = Err e -> lineFails over defs line before (doc :: docs) (ELine line e)
  | line_too_large line before doc docs :
      indexable defs doc -> sealable doc = false -> lineFails over defs line before (doc :: docs) (wrapf EText)
  | line_limit line before doc docs :
      indexable defs doc -> sealable doc = true -> over (before ++ [doc]) ->
      lineFails over defs line before (doc :: docs) (ELine line errBulkLimit)
  | line_later line before doc docs e :
      indexable defs doc -> sealable doc = true -> lineFails over defs (line + 1) (before ++ [doc]) docs e ->
      lineFails over defs line before (doc :: docs) e.

Lemma lineFails_mono (over over' : list bytes -> Prop) defs line before docs e :
  (forall l, over l -> over' l) -> lineFails over defs line before docs e -> lineFails over' defs line before docs e.
Proof.
  intros Ho. induction 1; [by apply line_not_indexable|by apply line_too_large|apply line_limit; auto|by apply line_later].
Qed.

(** The error of a closed handle may be joined to it. *)
Definition orJoined (P : error -> Prop) (e : error) : Prop :=
  P e \/ exists e0 ce, P e0 /\ outside ce /\ e = join e0 ce.

Lemma setDoc_lookup_db a n id o d :
  a !! n = Some d ->
  exists d', setDoc a n id o !! n = Some d' /\ ldb_key d' = ldb_key d /\ ldb_defs d' = ldb_defs d /\
    forall id', id' <> id -> ldb_docs d' !! id' = ldb_docs d !! id'.
Proof.
  intros Hd. eexists. split; [by apply setDoc_lookup|]. split; [done|]. split; [done|].
  intros id' Hne. by apply lookup_partial_alter_ne.
Qed.

Definition freshIDs (d : ldb) (l : list (bytes * revision)) : Prop :=
  NoDup (map fst l) /\ Forall (fun x => validID x.1 /\ wf_revision x.2 /\ ldb_docs d !! x.1 = None) l.

Lemma reads_importDocs_loop c ctx n maxBatch line before docs ids b a d :
  batchOf n (ldb_key d) (ldb_defs d) before b ->
  store_rep wk (applyBatch c b) a -> a !! n = Some d -> length ids = length docs -> freshIDs d ids ->
  reads c (importDocs_loop ctx n (ldb_key d) (ldb_defs d) maxBatch line (zip docs ids) b)
    (fun b' => store_rep wk (applyBatch c b') (importAll a n (zip docs ids)) /\
               Forall (fun doc => indexable (ldb_defs d) doc /\ sealable doc = true) docs)
    (fun x => exists e, x = Some e /\ lineFails (overBatch n maxBatch d) (ldb_defs d) line before docs e).
Proof.
  revert line before ids b a d. induction docs as [|doc docs IH];
    intros line before [|[id rev] ids] b a d Hbatch Hrep Hd Hlen [Hnd HF]; try discriminate Hlen.
  { apply reads_ret. by split. }
  cbn [zip importDocs_loop importAll fold_left]. injection Hlen as Hlen.
  apply NoDup_cons in Hnd as [Hni Hnd]. apply Forall_cons in HF as [(Hid & Hrev & Habs) HF].
  pose proof (rep_dbk_len wk _ a Hrep n d Hd) as Hk. cbn [fst snd] in *.
  eapply reads_bind; [apply reads_ctxErr|]. intros _ _.
  eapply reads_bind;
    [apply (reads_onErr_lift c _ _ (fun m => indexValues doc (ldb_defs d) = Ok m))|].
  { pose proof (indexValues_total doc (ldb_defs d)).
    destruct (indexValues doc (ldb_defs d)) as [m|e|] eqn:He; [done| |done].
    eexists. split; [done|]. by constructor. }
  intros values Hv. assert (indexable (ldb_defs d) doc) as Hidx by by exists values.
  eapply reads_bind;
    [apply reads_onErr, reads_sealDoc; [apply outside_wrapf|done|done|]|].
  { intros Hs. exists (wrapf EText). split; [done|]. by apply line_too_large. }
  intros record [Hs Hopen].
  eapply reads_bind; [apply reads_queue|]. intros ? ->.
  eapply reads_bind; [apply reads_setIndexEntries|]. intros ? ->.
  assert (docValues (ldb_defs d) doc = values) as Hvalues by (unfold docValues; by rewrite Hv).
  pose proof (batch_doc _ _ _ _ _ _ _ _ _ Hbatch Hopen) as Hbatch'. rewrite Hvalues in Hbatch'.
  rewrite <- app_assoc. cbn [app].
  destruct (Z.ltb_spec maxBatch (batchLen (b ++ BSet (docKey n id) record :: map (fun k => BSet k []) (entryKeys n id values)))) as [Hover|_].
  { apply reads_throw. eexists. split; [done|]. apply line_limit; [done..|]. by eexists. }
  set (doc' := StoredDoc doc rev).
  destruct (setDoc_lookup_db a n id (Some doc') d Hd) as (d' & Hd' & Hk' & Hdefs' & Hdocs').
  rewrite <- Hk', <- Hdefs'. eapply reads_mono; [apply (IH _ (before ++ [doc]) _ _ (setDoc a n id (Some doc')) d')| |].
  - by rewrite Hk', Hdefs'.
  - rewrite applyBatch_app.
    pose proof (rep_batchDoc wk (applyBatch c b) a n d id (BSet (docKey n id) record) (Some doc')
      ∅ values Hrep Hd) as HB. rewrite entryKeys_empty in HB. apply HB; [|by exists record|].
    + intros ? [= <-]. split; [done|]. split; [done|]. split; [done|]. by apply sealable_len.
    + rewrite Habs. unfold docEntries, docValues. simpl. rewrite Hv. apply entryChange_create.
  - done.
  - done.
  - split; [done|]. apply Forall_forall. intros x Hx. rewrite Forall_forall in HF.
    destruct (HF x Hx) as (? & ? & Hx3). split; [done|]. split; [done|].
    rewrite Hdocs'; [exact Hx3|]. intros E. apply Hni. rewrite <- E.
    apply list_elem_of_fmap. by exists x.
  - intros b' [Hrep' HF']. split; [done|]. constructor; [by rewrite Hdefs'|done].
  - intros x (e & -> & He). exists e. split; [done|]. unfold overBatch in He. rewrite Hk', Hdefs' in *. by apply line_later.
Qed.

(** ** Drawing IDs *)

Definition drawn (count : nat) (seen : list bytes) (l : list (bytes * revision)) : Prop :=
  length l = count /\ NoDup (map fst l) /\
  Forall (fun x => validID x.1 /\ wf_revision x.2 /\ x.1 ∉ seen) l.

Lemma reads_drawID c fuel seen :
  reads c (drawID fuel seen) (fun id => validID id /\ id ∉ seen) (fun x => x = None).
Proof.
  induction fuel as [|fuel IH]; cbn [drawID]; [by apply reads_outOfFuel|].
  eapply reads_bind; [apply reads_makeID|]. intros id Hid.
  destruct (decide (id ∈ seen)); [done|]. by apply reads_ret.
Qed.

Lemma reads_makeImportIDs c fuel count seen :
  reads c (makeImportIDs fuel count seen) (drawn count seen) (fun x => x = None).
Proof.
  revert seen. induction count as [|count IH]; intros seen; cbn [makeImportIDs].
  { apply reads_ret. split; [done|]. split; constructor. }
  eapply reads_bind; [apply reads_drawID|]. intros id [Hid Hni].
  eapply reads_bind; [by apply reads_makeRevision; [lia|]|]. intros rev [Hrev _].
  eapply reads_bind; [apply IH|]. intros rest (Hlen & Hnd & HF). apply reads_ret.
  rewrite Forall_forall in HF. split; [simpl; by f_equal|]. split.
  - simpl. constructor; [|done]. intros (x & -> & Hx)%list_elem_of_fmap.
    destruct (HF x Hx) as (_ & _ & Hn). set_solver.
  - constructor; [done|]. apply Forall_forall. intros x Hx.
    destruct (HF x Hx) as (? & ? & ?). set_solver.
Qed.

Lemma reads_hasAnyDoc c a n d ids :
  store_rep wk c a -> a !! n = Some d ->
  reads c (hasAnyDoc n ids)
    (fun b => b = false -> Forall (fun id => ldb_docs d !! id = None) ids) noExit.
Proof.
  intros Hrep Hd. induction ids as [|id ids IH]; cbn [hasAnyDoc].
  { by apply reads_ret. }
  eapply reads_bind;
    [by apply reads_wrapped, (reads_has wk c a Hrep n d Hd); apply outside_wrapf|].
  intros ? ->. case_bool_decide as Hex; [by apply reads_ret|].
  eapply reads_mono; [exact IH| |done]. intros b Hb Hbf. constructor; [|by apply Hb].
  by apply eq_None_not_Some.
Qed.

Lemma reads_chooseImportIDs c a n d fuel rounds count :
  store_rep wk c a -> a !! n = Some d ->
  reads c (chooseImportIDs fuel rounds n count) (fun l => length l = count /\ freshIDs d l)
    (fun x => x = None).
Proof.
  intros Hrep Hd. induction rounds as [|rounds IH]; cbn [chooseImportIDs].
  { by apply reads_outOfFuel. }
  eapply reads_bind; [apply reads_makeImportIDs|]. intros l (Hlen & Hnd & HF).
  eapply reads_bind; [by apply reads_exits, (reads_hasAnyDoc c a n d)|]. intros [] Hb; [done|].
  apply reads_ret. split; [done|]. split; [done|]. specialize (Hb eq_refl).
  apply Forall_fmap in Hb. eapply Forall_impl; [by apply Forall_and; split; [exact HF|exact Hb]|].
  by intros x [(? & ? & ?) ?].
Qed.

(** ** The whole import *)

(** All documents are in, under fresh IDs of their own, in their order. *)
Inductive imported (a : astate) (n : bytes) (documents ids : list bytes) (a' : astate) : Prop :=
  | Imported d l : a !! n = Some d -> freshIDs d l -> ids = map fst l ->
      length l = length documents ->
      Forall (fun doc => indexable (ldb_defs d) doc /\ sealable doc = true) documents ->
      a' = importAll a n (zip documents l) -> imported a n documents ids a'.

(** Why an import fails; [over] tells which documents of a database are too many for
    one batch. *)
Inductive importFails (over : ldb -> list bytes -> Prop) (a : astate) (n : bytes) (documents : list bytes) : error -> Prop :=
  | import_no_db : a !! n = None -> importFails over a n documents errDBNotFound
  | import_line d e : a !! n = Some d -> orJoined (lineFails (over d) (ldb_defs d) 1 [] documents) e ->
      importFails over a n documents e.

(** What is said of the API leaves open how long a batch is. *)
Definition anyBatch (d : ldb) (docs : list bytes) : Prop := True.

Lemma importFails_any over a n documents e : importFails over a n documents e -> importFails anyBatch a n documents e.
Proof.
  intros [?|d e' Hd [He|(e0 & ce & He & Hce & ->)]]; [by apply import_no_db|..]; (eapply import_line; [done|]).
  - left. by eapply lineFails_mono.
  - right. exists e0, ce. split; [by eapply lineFails_mono|done].
Qed.

Lemma triple_importDocs c a fuel ctx n documents maxBatch :
  store_rep wk c a -> validName n ->
  triple c (importDocs wk fuel ctx n documents maxBatch)
    (fun r c' => exists a', store_rep wk c' a' /\
       match r with
       | Ok ids => imported a n documents ids a'
       | Err e => a' = a /\ importFails (overBatch n maxBatch) a n documents e
       | OutOfFuel => a' = a
       end)
    (fun c' => exists a', store_rep wk c' a' /\ (a' = a \/ exists ids, imported a n documents ids a')).
Proof.
  intros Hrep Hn.
  assert (exists a', store_rep wk c a' /\ (a' = a \/ exists ids, imported a n documents ids a'))
    as HF by (exists a; auto).
  unfold importDocs.
  eapply triple_bind_reads;
    [by apply (reads_databaseKey wk c a)| | |by intros [? ?]|done]; cycle 1.
  { intros e [[= ->] Ha]. exists a. split; [done|]. split; [done|]. by apply import_no_db. }
  intros ? (d & Hd & ->).
  eapply triple_bind_reads; [by apply (reads_indexes wk c a Hrep n d Hd)| |done..]. intros ? ->.
  eapply triple_bind_reads;
    [by apply (reads_chooseImportIDs c a n d)| |done|by exists a|done].
  intros l [Hlen Hfresh].
  eapply (triple_deferClose c _ (fun r c' => exists a', store_rep wk c' a' /\
       match r with
       | Ok ids => imported a n documents ids a'
       | Err e => a' = a /\ lineFails (overBatch n maxBatch d) (ldb_defs d) 1 [] documents e
       | OutOfFuel => False
       end)).
  - eapply triple_bind_reads;
      [by apply (reads_importDocs_loop c ctx n maxBatch 1 [] documents l [] a d); [constructor|..]| |
       |by intros (? & ? & ?)|done].
    2: { intros e (? & [= <-] & He). by exists a. }
    intros b [Hrep' HFd].
    eapply triple_bind_reads; [by apply reads_ctxErr with (E := noExit)| |done..]. intros _ _.
    apply (triple_fmap c _ (fun _ => map fst l)).
    assert (imported a n documents (map fst l) (importAll a n (zip documents l))) as Him
      by by econstructor.
    apply triple_commit; [|done|eauto]. simpl. eauto.
  - intros ids c' (a' & ? & ?). split; exists a'; eauto.
  - intros e c' (a' & Hrep' & -> & He). split.
    + exists a. split; [done|]. split; [done|]. apply (import_line _ _ _ _ d); [done|]. by left.
    + intros ce Hce. right. exists a. split; [done|]. split; [done|].
      apply (import_line _ _ _ _ d); [done|]. right. eauto.
  - by intros c' (? & _ & ?).
Qed.
End Bulk.
