(* ===== verification/StoreLists.v ===== *)
(** * Reading documents and pages

    [getDoc], the pages of [listDBs] and [listDocs], and the export: what they
    return on a store that represents an abstract state.  A page is the first
    keys, in order, after the cursor. *)

From S2P Require Import Prelude GoErrors Codec Text Validation Keys Json IndexValue Host Crypto.
From S2P Require Import Wp Store StoreRep StoreReads StoreSpec.

(** ** Sorted keys *)

Definition sortedKeys {A} (m : gmap bytes A) : list bytes := merge_sort ble (map fst (map_to_list m)).

Definition after (cursor : bytes) (keys : list bytes) : list bytes := filter (blt cursor) keys.

Lemma elem_sortedKeys {A} (m : gmap bytes A) k : k ∈ sortedKeys m <-> is_Some (m !! k).
Proof.
  unfold sortedKeys. rewrite merge_sort_Permutation. split.
  - intros ([k' v] & -> & Hin)%list_elem_of_fmap. apply elem_of_map_to_list in Hin. by eexists.
  - intros [v Hv]. apply list_elem_of_fmap. exists (k, v). split; [done|].
    by apply elem_of_map_to_list.
Qed.

Lemma ssorted_blt l : StronglySorted ble l -> NoDup l -> StronglySorted blt l.
Proof.
  induction 1 as [|x l HS IH HF]; [constructor|]. intros [Hx Hnd]%NoDup_cons.
  constructor; [by apply IH|]. rewrite Forall_forall in HF. apply Forall_forall. intros y Hy.
  specialize (HF y Hy). apply ble_lt_eq in HF as [?|<-]; done.
Qed.

Lemma sortedKeys_sorted {A} (m : gmap bytes A) : StronglySorted blt (sortedKeys m).
Proof.
  apply ssorted_blt; [apply (StronglySorted_merge_sort _ _)|].
  unfold sortedKeys. rewrite merge_sort_Permutation. apply NoDup_fst_map_to_list.
Qed.

Lemma sortedKeys_unique {A} (m : gmap bytes A) l :
  StronglySorted blt l -> (forall k, k ∈ l <-> is_Some (m !! k)) -> l = sortedKeys m.
Proof.
  intros HS Hl. apply (ssorted_unique blt); [done|apply sortedKeys_sorted|].
  intros k. by rewrite Hl, elem_sortedKeys.
Qed.

(** ** Seeking *)

Notation entryLt := (fun a b : bytes * bytes => blt a.1 b.1).

Lemma filter_all {A} (P : A -> Prop) `{!forall x, Decision (P x)} l : Forall P l -> filter P l = l.
Proof.
  induction 1 as [|x l Hx HF IH]; [done|]. rewrite filter_cons_True by done. by rewrite IH.
Qed.

Lemma seekAfter_filter key l :
  StronglySorted entryLt l -> seekAfter key l = filter (fun kv => key <b kv.1) l.
Proof.
  unfold seekAfter. induction 1 as [|[k v] l HS IH HF]; [done|]. cbn [dropBelow].
  destruct (bltb k key) eqn:Hlt.
  - apply bltb_lt in Hlt. rewrite filter_cons_False, <- IH; [done|]. simpl. intros Hgt.
    destruct (irreflexivity blt k). by etrans.
  - assert (~ k <b key) as Hge by (rewrite <- bltb_lt; congruence). clear Hlt IH.
    assert (forall kv, kv ∈ l -> key <b kv.1) as Hall.
    { intros kv Hkv. rewrite Forall_forall in HF. specialize (HF kv Hkv). simpl in HF.
      destruct (trichotomyT blt k key) as [[?|<-]|?]; [done|done|by etrans]. }
    assert (filter (fun kv => key <b kv.1) l = l) as Hl
      by (apply filter_all, Forall_forall; auto).
    destruct (decide (k = key)) as [->|Hne].
    + rewrite filter_cons_False; [done|]. simpl. apply (irreflexivity blt).
    + rewrite filter_cons_True, Hl; [done|]. simpl.
      by destruct (trichotomyT blt k key) as [[?|?]|?].
Qed.

(** The entries a listing starts from: all of them, or those after the cursor. *)
Lemma start_filter (kf : bytes -> bytes) cursor (l : list (bytes * bytes)) xs :
  (forall x y, kf x <b kf y <-> x <b y) -> l = map (fun x => (kf x.1, x.2)) xs ->
  StronglySorted entryLt l -> Forall (fun x => x.1 <> []) xs ->
  match cursor with [] => l | _ => seekAfter (kf cursor) l end
  = map (fun x => (kf x.1, x.2)) (filter (fun x => cursor <b x.1) xs).
Proof.
  intros Hkf Hl HS HF.
  assert (seekAfter (kf cursor) l
          = map (fun x => (kf x.1, x.2)) (filter (fun x => cursor <b x.1) xs)) as Hgen.
  { rewrite seekAfter_filter by done. subst l. clear HS HF.
    induction xs as [|x xs IH]; [done|]. cbn [map]. rewrite !filter_cons. simpl.
    specialize (Hkf cursor x.1). repeat case_decide; simpl; rewrite ?IH; done || tauto. }
  destruct cursor; [|exact Hgen]. rewrite filter_all; [done|].
  eapply Forall_impl; [exact HF|]. intros [[|c k] v]; simpl; done.
Qed.

Section Lists.
Context {W : Type} `{HS : HostSpec W} `{CS : CryptoSpec}.
Variable wk : storeKey.

Lemma reads_getDoc c a n id :
  store_rep wk c a -> validName n ->
  reads c (getDoc wk n id) (fun doc => exists d, a !! n = Some d /\ ldb_docs d !! id = Some doc)
    (fun x => x = Some (errDocNotFound : error) /\
              forall d, a !! n = Some d -> ldb_docs d !! id = None).
Proof.
  intros Hrep Hn. unfold getDoc.
  eapply reads_bind.
  { eapply reads_mono; [by apply (reads_documentDBKey wk c a)|exact (fun _ H => H)|].
    intros x [-> Ha]. split; [done|]. by rewrite Ha. }
  intros ? (d & Hd & ->).
  eapply reads_mono; [by apply (reads_readDoc wk c a Hrep n d Hd)|by eauto|].
  intros x [-> Hx]. split; [done|]. intros d' Hd'. by simplify_eq.
Qed.

(** ** The documents of a scan *)

Section Scan.
Context (c : gmap bytes bytes) (a : astate) (Hrep : store_rep wk c a).

Definition docEntry (n : bytes) (x : bytes * bytes) : bytes * bytes := (docKey n x.1, x.2).

Definition goodDoc (n : bytes) (d : ldb) (x : bytes * bytes) : Prop :=
  exists doc, ldb_docs d !! x.1 = Some doc /\ openDoc (docKey n x.1) (ldb_key d) x.1 x.2 = Ok doc /\
              wfDoc (ldb_defs d) x.1 doc.

Lemma docKey_lt n x y : docKey n x <b docKey n y <-> x <b y.
Proof. apply blt_app_same. Qed.

Lemma map_app_inv {A B} (f : A -> B) l l1 l2 :
  l1 ++ l2 = map f l -> exists k1 k2, l1 = map f k1 /\ l2 = map f k2 /\ l = k1 ++ k2.
Proof.
  revert l1. induction l as [|x l IH]; intros [|y l1] E; simpl in E; try done.
  - by exists [], [].
  - by exists [], (x :: l).
  - injection E as -> E. destruct (IH _ E) as (k1 & k2 & -> & -> & ->). by exists (x :: k1), k2.
Qed.

Lemma scan_docs n d l :
  a !! n = Some d -> isScan c (Some (docsPrefix n)) (prefixEnd (docsPrefix n)) l ->
  exists xs, l = map (docEntry n) xs /\ map fst xs = sortedKeys (ldb_docs d) /\
             Forall (goodDoc n d) xs.
Proof.
  intros Hd Hscan. pose proof (rep_validName wk c a Hrep n d Hd) as Hn.
  destruct (Forall_exists_map (docEntry n) (goodDoc n d) l) as (xs & Hl & HF).
  { intros [k v] Hin. apply (scan_elem _ _ _ _ _ Hscan) in Hin as [Hk [id ->]].
    change (docsPrefix n ++ id) with (docKey n id) in *.
    destruct (rep_doc wk c a Hrep n d Hd id v Hk) as (doc & ? & ? & ?).
    exists (id, v). split; [by exists doc|done]. }
  exists xs. split; [done|]. split; [|done]. apply sortedKeys_unique.
  - destruct Hscan as [Hs _]. rewrite Hl in Hs. clear -Hs.
    induction xs as [|x xs IH]; [constructor|]. simpl in *. inversion Hs as [|? ? Hs' HF]; subst.
    constructor; [by apply IH|]. rewrite Forall_map in HF. apply Forall_map.
    eapply Forall_impl; [exact HF|]. intros y. simpl. by rewrite docKey_lt.
  - intros id. split.
    + intros (x & -> & Hx)%list_elem_of_fmap. rewrite Forall_forall in HF.
      destruct (HF x Hx) as (doc & Hdoc & _). by eexists.
    + intros [doc Hdoc]. destruct (c !! docKey n id) as [v|] eqn:Hv.
      * assert ((docKey n id, v) ∈ l) as Hin.
        { apply (scan_elem _ _ _ _ _ Hscan). split; [done|]. by exists id. }
        rewrite Hl in Hin. apply list_elem_of_fmap in Hin as (x & E & Hx).
        injection E as E _. apply app_inv_head in E as ->.
        apply list_elem_of_fmap. by exists x.
      * apply (rep_doc_None wk c a Hrep n d Hd) in Hv. congruence.
Qed.

Lemma goodDoc_parse n d x : goodDoc n d x -> exists y, parseDocRecord x.2 = Ok y.
Proof.
  intros (doc & _ & Ho & _). unfold openDoc in Ho. apply res_bind_ok in Ho as (y & Hy & _).
  by exists y.
Qed.

(** The loop of [listDocs] takes one ID more than the limit. *)
Lemma reads_listDocs_loop n d limit xs ids (E : exits) :
  Forall (goodDoc n d) xs -> len ids <= limit + 1 ->
  reads c (listDocs_loop (docsPrefix n) (map (docEntry n) xs) limit ids)
    (fun r => let k := Z.to_nat (limit + 1 - len ids) in
              r = (ids ++ take k (map fst xs), map (docEntry n) (drop k xs))) E.
Proof.
  revert ids. induction xs as [|x xs IH]; intros ids HF Hlen; cbn [map listDocs_loop docEntry].
  { apply reads_ret. by rewrite take_nil, drop_nil, app_nil_r. }
  apply Forall_cons in HF as [Hx HF]. destruct (Z.leb_spec (len ids) limit) as [Hl|Hl].
  - destruct (goodDoc_parse n d x Hx) as [y ->].
    unfold docKey. rewrite drop_app_length.
    eapply reads_mono; [apply IH; [done|]| |done].
    { rewrite len_app. unfold len at 2. simpl. lia. }
    intros r. rewrite len_app. change (len [x.1]) with 1. intros ->.
    replace (Z.to_nat (limit + 1 - len ids)) with (S (Z.to_nat (limit + 1 - (len ids + 1)))) by lia.
    cbn [take drop]. by rewrite <- app_assoc.
  - apply reads_ret. replace (Z.to_nat (limit + 1 - len ids)) with 0%nat by lia.
    by rewrite take_0, drop_0, app_nil_r.
Qed.
End Scan.

(** A page: at most [limit] of the keys after the cursor, and whether there are
    more. *)
Definition page (limit : Z) (cursor : bytes) (keys : list bytes) : list bytes * bool :=
  (take (Z.to_nat limit) (after cursor keys), limit <? len (after cursor keys)).

Lemma pageOf_take limit l :
  0 <= limit ->
  pageOf limit (take (Z.to_nat (limit + 1)) l) = (take (Z.to_nat limit) l, limit <? len l).
Proof.
  intros Hl. unfold pageOf, len. rewrite length_take.
  destruct (Z.ltb_spec limit (Z.of_nat (length l))) as [Hlt|Hge].
  - replace (limit <? _) with true by (symmetry; apply Z.ltb_lt; lia).
    rewrite take_take. do 2 f_equal. lia.
  - replace (limit <? _) with false by (symmetry; apply Z.ltb_ge; lia).
    by rewrite !take_ge by lia.
Qed.

Lemma after_app cursor l1 l2 : after cursor (l1 ++ l2) = after cursor l1 ++ after cursor l2.
Proof. apply filter_app. Qed.

Lemma after_map cursor (xs : list (bytes * bytes)) :
  map fst (filter (fun x => cursor <b x.1) xs) = after cursor (map fst xs).
Proof.
  induction xs as [|x xs IH]; [done|]. unfold after. cbn [map]. rewrite !filter_cons.
  case_decide; simpl; by rewrite IH.
Qed.

Lemma reads_listDocs_body c a n d limit cursor it xs1 xs2 :
  store_rep wk c a -> a !! n = Some d -> 0 <= limit ->
  it_entries it = map (docEntry n) xs1 -> StronglySorted entryLt (it_entries it) ->
  map fst (xs1 ++ xs2) = sortedKeys (ldb_docs d) -> Forall (goodDoc n d) xs1 ->
  (it_err it = None -> xs2 = []) -> (forall e, it_err it = Some e -> foreign e) ->
  reads c
    (let start := match cursor with
                  | [] => it_entries it
                  | _ => seekAfter (docKey n cursor) (it_entries it)
                  end in
     '(ids, rest) ← listDocs_loop (docsPrefix n) start limit [];
     _ ← iterError it rest;
     mret (pageOf limit ids))
    (fun r => r = page limit cursor (sortedKeys (ldb_docs d)))
    (fun x => it_err it <> None /\ outsideExit x).
Proof.
  intros Hrep Hd Hlim Hl HS' Hkeys HF Hnone Hforeign. cbv zeta.
  rewrite (start_filter (docKey n) cursor (it_entries it) xs1);
    [|apply docKey_lt|done|done|].
  2: { eapply Forall_impl; [exact HF|]. intros x (doc & _ & _ & Hw). apply validID_nonempty, Hw. }
  set (ys := filter _ xs1). assert (Forall (goodDoc n d) ys) as HFy.
  { rewrite Forall_forall in *. intros x Hx. apply HF. apply list_elem_of_filter in Hx. apply Hx. }
  eapply reads_bind; [apply (reads_listDocs_loop c n d limit ys [] _ HFy); change (len []) with 0; lia|].
  intros [ids rest] [= -> ->]. change (len []) with 0. rewrite Z.sub_0_r. cbn [app].
  assert (page limit cursor (sortedKeys (ldb_docs d))
          = pageOf limit (take (Z.to_nat (limit + 1)) (map fst ys ++ after cursor (map fst xs2)))) as Hp.
  { rewrite pageOf_take by done. unfold ys. rewrite after_map, <- after_app, <- map_app, Hkeys. done. }
  destruct (it_err it) as [e|] eqn:Herr.
  - destruct (drop (Z.to_nat (limit + 1)) ys) as [|y ys'] eqn:Hdrop.
    + apply (reads_bind c _ _ (fun _ => False)); [|done]. eapply reads_mono;
        [apply (reads_iterError_bad c it e (fun _ => False) Herr); by apply Hforeign|done|].
      intros x Hx. by split.
    + eapply reads_bind; [by apply (reads_ret c () (fun _ => True))|]. intros _ _. apply reads_ret.
      rewrite Hp, take_app_le; [done|]. rewrite length_map.
      apply (f_equal length) in Hdrop. rewrite length_drop in Hdrop. simpl in Hdrop. lia.
  - rewrite (Hnone eq_refl) in Hp. eapply reads_bind; [by apply reads_iterError_ok|].
    intros _ _. apply reads_ret. rewrite Hp. simpl. by rewrite app_nil_r.
Qed.

Lemma scan_sorted c lo hi l : isScan c lo hi l -> StronglySorted entryLt l.
Proof. by intros []. Qed.

Lemma ssorted_app_l {A} (R : relation A) l1 l2 : StronglySorted R (l1 ++ l2) -> StronglySorted R l1.
Proof. intros HS'. by apply StronglySorted_app in HS' as (? & ? & ?). Qed.

Lemma reads_listDocs c a n limit cursor :
  store_rep wk c a -> validName n -> 0 <= limit ->
  reads c (listDocs wk n limit cursor)
    (fun r => exists d, a !! n = Some d /\ r = page limit cursor (sortedKeys (ldb_docs d)))
    (dbMissing a n errDBNotFound).
Proof.
  intros Hrep Hn Hlim. unfold listDocs.
  eapply reads_bind;
    [by apply reads_exits, reads_wrapped, (reads_hasDB wk c a Hrep n Hn); apply outside_wrapf|].
  intros ? ->. case_bool_decide as Hex; cbn [negb]; cycle 1.
  { apply eq_None_not_Some in Hex. by apply reads_throw. }
  destruct Hex as [d Hd]. apply reads_exits.
  eapply reads_mono with (P := fun r => r = page limit cursor (sortedKeys (ldb_docs d)));
    [apply reads_newIter|by eauto|done].
  - intros it Herr Hscan. apply reads_deferClose_noExit.
    destruct (scan_docs c a Hrep n d _ Hd Hscan) as (xs & Hl & Hkeys & HF).
    eapply reads_mono; [apply (reads_listDocs_body c a n d limit cursor it xs [])|done|];
      rewrite ?app_nil_r; try done; [by eapply scan_sorted|congruence|by intros x []].
  - intros it e Herr Hfe [l' Hscan].
    destruct (scan_docs c a Hrep n d _ Hd Hscan) as (xs & Hl & Hkeys & HF).
    apply map_app_inv in Hl as (xs1 & xs2 & Hl1 & Hl2 & ->). apply Forall_app in HF as [HF _].
    eapply reads_mono; [apply reads_deferClose_outside|done|by left].
    eapply reads_mono; [apply (reads_listDocs_body c a n d limit cursor it xs1 xs2)|done|];
      [done..| |done|done|congruence|congruence|by intros x []].
    by eapply ssorted_app_l, scan_sorted.
Qed.

(** ** The page of databases *)

Definition dbEntry (x : bytes * bytes) : bytes * bytes := (dbKey x.1, x.2).

Definition goodDb (a : astate) (x : bytes * bytes) : Prop :=
  validName x.1 /\ is_Some (a !! x.1) /\ authDBRecord wk (dbKey x.1) x.2 = Ok ().

Lemma scan_dbs c a l :
  store_rep wk c a -> isScan c (Some dbPrefix) (prefixEnd dbPrefix) l ->
  exists xs, l = map dbEntry xs /\ map fst xs = sortedKeys a /\ Forall (goodDb a) xs.
Proof.
  intros Hrep Hscan.
  destruct (Forall_exists_map dbEntry (goodDb a) l) as (xs & Hl & HF).
  { intros [k v] Hin. apply (scan_elem _ _ _ _ _ Hscan) in Hin as [Hk [n ->]].
    change (dbPrefix ++ n) with (dbKey n) in *. destruct Hrep as (Hwf & _ & H2 & H3).
    destruct (H2 _ _ Hk) as [?|(sk & e & E & He & Hh)]; [done|].
    destruct (proj1 (keyBytes_dbPrefix sk)) as (n' & ->); [by rewrite E; exists n|].
    simpl in E. injection E as ->. simpl in He.
    destruct (a !! n) as [d|] eqn:Hd; [|done]. injection He as <-.
    exists (n, v). split; [|done]. split; [apply (Hwf n d Hd)|]. split; [by exists d|].
    unfold authDBRecord. cbn [fst snd]. simpl in Hh. by rewrite Hh. }
  exists xs. split; [done|]. split; [|done]. apply sortedKeys_unique.
  - destruct Hscan as [Hs _]. rewrite Hl in Hs. clear -Hs.
    induction xs as [|x xs IH]; [constructor|]. simpl in *. inversion Hs as [|? ? Hs' HF]; subst.
    constructor; [by apply IH|]. rewrite Forall_map in HF. apply Forall_map.
    eapply Forall_impl; [exact HF|]. intros y. simpl. apply (blt_app_same dbPrefix).
  - intros n. split.
    + intros (x & -> & Hx)%list_elem_of_fmap. rewrite Forall_forall in HF. apply (HF x Hx).
    + intros [d Hd]. destruct Hrep as (Hwf & _ & H2 & H3).
      destruct (H3 (KDb n) (EDb (ldb_key d))) as (v & Hv & _); [simpl; by rewrite Hd|].
      assert ((dbKey n, v) ∈ l) as Hin.
      { apply (scan_elem _ _ _ _ _ Hscan). split; [done|]. by exists n. }
      rewrite Hl in Hin. apply list_elem_of_fmap in Hin as (x & E & Hx).
      injection E as -> _. apply list_elem_of_fmap. by exists x.
Qed.

Lemma reads_listDBs_loop c a limit xs names (E : exits) :
  Forall (goodDb a) xs -> len names <= limit ->
  reads c (listDBs_loop wk (map dbEntry xs) limit names)
    (fun r => let k := Z.to_nat (limit - len names) in
              r = (names ++ take k (map fst xs), map dbEntry (drop k xs))) E.
Proof.
  revert names. induction xs as [|x xs IH]; intros names HF Hlen; cbn [map listDBs_loop dbEntry].
  { apply reads_ret. by rewrite take_nil, drop_nil, app_nil_r. }
  apply Forall_cons in HF as [(_ & _ & Hx) HF]. destruct (Z.ltb_spec (len names) limit) as [Hl|Hl].
  - rewrite Hx. change (drop (length dbPrefix) (dbKey x.1)) with x.1.
    eapply reads_mono; [apply IH; [done|]| |done].
    { rewrite len_app. unfold len at 2. simpl. lia. }
    intros r. rewrite len_app. change (len [x.1]) with 1. intros ->.
    replace (Z.to_nat (limit - len names)) with (S (Z.to_nat (limit - (len names + 1)))) by lia.
    cbn [take drop]. by rewrite <- app_assoc.
  - apply reads_ret. replace (Z.to_nat (limit - len names)) with 0%nat by lia.
    by rewrite take_0, drop_0, app_nil_r.
Qed.

Lemma reads_listDBs_body c a limit cursor it xs1 xs2 :
  store_rep wk c a -> 0 <= limit ->
  it_entries it = map dbEntry xs1 -> StronglySorted entryLt (it_entries it) ->
  map fst (xs1 ++ xs2) = sortedKeys a -> Forall (goodDb a) xs1 ->
  (it_err it = None -> xs2 = []) -> (forall e, it_err it = Some e -> foreign e) ->
  reads c
    (let start := match cursor with
                  | [] => it_entries it
                  | _ => seekAfter (dbKey cursor) (it_entries it)
                  end in
     '(names, rest) ← listDBs_loop wk start limit [];
     _ ← iterError it rest;
     mret names)
    (fun r => r = take (Z.to_nat limit) (after cursor (sortedKeys a)))
    (fun x => it_err it <> None /\ outsideExit x).
Proof.
  intros Hrep Hlim Hl HS' Hkeys HF Hnone Hforeign. cbv zeta.
  rewrite (start_filter dbKey cursor (it_entries it) xs1);
    [|intros; apply (blt_app_same dbPrefix)|done|done|].
  2: { eapply Forall_impl; [exact HF|]. intros x [Hv _]. by apply validName_nonempty. }
  set (ys := filter _ xs1). assert (Forall (goodDb a) ys) as HFy.
  { rewrite Forall_forall in *. intros x Hx. apply HF. apply list_elem_of_filter in Hx. apply Hx. }
  eapply reads_bind; [apply (reads_listDBs_loop c a limit ys [] _ HFy); change (len []) with 0; lia|].
  intros [names rest] [= -> ->]. change (len []) with 0. rewrite Z.sub_0_r. cbn [app].
  assert (take (Z.to_nat limit) (after cursor (sortedKeys a))
          = take (Z.to_nat limit) (map fst ys ++ after cursor (map fst xs2))) as Hp.
  { unfold ys. by rewrite after_map, <- after_app, <- map_app, Hkeys. }
  destruct (it_err it) as [e|] eqn:Herr.
  - destruct (drop (Z.to_nat limit) ys) as [|y ys'] eqn:Hdrop.
    + apply (reads_bind c _ _ (fun _ => False)); [|done]. eapply reads_mono;
        [apply (reads_iterError_bad c it e (fun _ => False) Herr); by apply Hforeign|done|].
      intros x Hx. by split.
    + eapply reads_bind; [by apply (reads_ret c () (fun _ => True))|]. intros _ _. apply reads_ret.
      rewrite Hp, take_app_le; [done|]. rewrite length_map.
      apply (f_equal length) in Hdrop. rewrite length_drop in Hdrop. simpl in Hdrop. lia.
  - rewrite (Hnone eq_refl) in Hp. eapply reads_bind; [by apply reads_iterError_ok|].
    intros _ _. apply reads_ret. rewrite Hp. simpl. by rewrite app_nil_r.
Qed.

Lemma reads_listDBs c a limit cursor :
  store_rep wk c a -> 0 <= limit ->
  reads c (listDBs wk limit cursor)
    (fun r => r = take (Z.to_nat limit) (after cursor (sortedKeys a))) noExit.
Proof.
  intros Hrep Hlim. unfold listDBs. apply reads_newIter.
  - intros it Herr Hscan. apply reads_deferClose_noExit.
    destruct (scan_dbs c a _ Hrep Hscan) as (xs & Hl & Hkeys & HF).
    eapply reads_mono; [apply (reads_listDBs_body c a limit cursor it xs [])|done|];
      rewrite ?app_nil_r; try done; [by eapply scan_sorted|congruence|by intros x []].
  - intros it e Herr Hfe [l' Hscan].
    destruct (scan_dbs c a _ Hrep Hscan) as (xs & Hl & Hkeys & HF).
    apply map_app_inv in Hl as (xs1 & xs2 & Hl1 & Hl2 & ->). apply Forall_app in HF as [HF _].
    eapply reads_mono; [apply reads_deferClose_outside|done|by left].
    eapply reads_mono; [apply (reads_listDBs_body c a limit cursor it xs1 xs2)|done|];
      [done..| |done|done|congruence|congruence|by intros x []].
    by eapply ssorted_app_l, scan_sorted.
Qed.
End Lists.
