(* ===== verification/Range.v ===== *)
(** * Index queries

    The queries of index.go: the documents whose indexed value equals a value, and
    the pages of those whose value compares with one. *)

From S2P Require Import Prelude GoErrors Codec Text Validation Keys Json IndexValue Host Crypto.
From S2P Require Import Store.

(** ** Comparisons (server.go)

    [type cmpOp byte]. *)

Definition cmpOp : Type := byte.

Definition cmpEq : cmpOp := x00.
Definition cmpLT : cmpOp := x01.
Definition cmpLE : cmpOp := x02.
Definition cmpGT : cmpOp := x03.
Definition cmpGE : cmpOp := x04.

Definition opValid (op : cmpOp) : bool := bleb op cmpGE.

Record indexPage := IndexPage {
  ip_ids : list bytes;
  ip_lastValue : bytes;
  ip_more : bool;
}.

(** The bounds of a range query: those of the type, one of them moved to the
    value. *)
Definition rangeBounds (typePrefix boundary : bytes) (op : cmpOp) : option bytes * option bytes :=
  if beqb op cmpLT then (Some typePrefix, Some boundary)
  else if beqb op cmpLE then (Some typePrefix, prefixEnd boundary)
  else if beqb op cmpGT then (prefixEnd boundary, prefixEnd typePrefix)
  else if beqb op cmpGE then (Some boundary, prefixEnd typePrefix)
  else (Some typePrefix, prefixEnd typePrefix).

Section Range.
Context {W : Type} `{Host W} `{Crypto}.
Variable wrappingKey : bytes.

Definition snapshotHas (s : snapshot) (key : bytes) : M W bool :=
  r ← catch (snapGet s key);
  match r with
  | inr _ => _ ← close; mret true
  | inl e => if errorsIs pebbleErrNotFound e then mret false else throw (wrapStore e)
  end.

Fixpoint queryDocs_loop (ctx : context) (s : snapshot) (database prefix : bytes)
    (l : list (bytes * bytes)) (limit : Z) (ids : list bytes)
    : M W (list bytes * list (bytes * bytes)) :=
  match l with
  | [] => mret (ids, [])
  | (key, value) :: l' =>
      if len ids <=? limit then
        _ ← ctxErr ctx;
        let id := drop (length prefix) key in
        if negb (len value =? 0) || negb (is_ok (validateID id)) then throw (wrapf errCorruptData)
        else
          exists_ ← snapshotHas s (docKey database id);
          if negb exists_ then throw (wrapf errCorruptData)
          else queryDocs_loop ctx s database prefix l' limit (ids ++ [id])
      else mret (ids, l)
  end.

Definition queryDocsCtx (ctx : context) (database index encoded : bytes) (limit : Z) (cursor : bytes)
    : M W (list bytes * bool) :=
  exists_ ← onErr wrapf (hasDB wrappingKey database);
  if negb exists_ then throw errDBNotFound
  else
    defs ← indexes database;
    match findIndex defs index with
    | None => throw errIndexNotFound
    | Some _ =>
        if negb (validIndexValue encoded) then throw errInvalidIndexValue
        else
          let prefix := indexValuePrefix database index encoded in
          s ← newSnapshot;
          deferClose (
            it ← snapIter s (Some prefix) (prefixEnd prefix);
            deferClose (
              let start := match cursor with
                           | [] => it_entries it
                           | _ => seekAfter (prefix ++ cursor) (it_entries it)
                           end in
              '(ids, rest) ← queryDocs_loop ctx s database prefix start limit [];
              _ ← iterError it rest;
              mret (pageOf limit ids)))
    end.

Definition queryDocs (database index encoded : bytes) (limit : Z) (cursor : bytes)
    : M W (list bytes * bool) :=
  queryDocsCtx Background database index encoded limit cursor.

(** The loop of [queryRangePage]; [pastCursor] is false while it looks for the
    document the caller has seen last. *)
Fixpoint queryRange_loop (ctx : context) (s : snapshot) (database typePrefix afterID : bytes)
    (l : list (bytes * bytes)) (limit : Z) (pastCursor : bool) (ids values : list bytes)
    : M W (list bytes * list bytes * list (bytes * bytes)) :=
  match l with
  | [] => mret (ids, values, [])
  | (key, entry) :: l' =>
      if len ids <=? limit then
        _ ← ctxErr ctx;
        match splitIndexEntry typePrefix key with
        | None => throw (wrapf errCorruptData)
        | Some (value, id) =>
            if negb (len entry =? 0) || negb (is_ok (validateID id)) then
              throw (wrapf errCorruptData)
            else if negb pastCursor then
              queryRange_loop ctx s database typePrefix afterID l' limit
                (bool_decide (id = afterID)) ids values
            else
              exists_ ← snapshotHas s (docKey database id);
              if negb exists_ then throw (wrapf errCorruptData)
              else queryRange_loop ctx s database typePrefix afterID l' limit pastCursor
                     (ids ++ [id]) (values ++ [value])
        end
      else mret (ids, values, l)
  end.

(** The page: [values[limit-1]] is the value of the last document returned. *)
Definition rangePageOf (limit : Z) (ids values : list bytes) : indexPage :=
  if limit <? len ids then
    IndexPage (take (Z.to_nat limit) ids) (default [] (values !! Z.to_nat (limit - 1))) true
  else IndexPage ids [] false.

Definition queryRangePage (ctx : context) (database index : bytes) (op : cmpOp) (encoded : bytes)
    (limit : Z) (afterValue afterID : bytes) : M W indexPage :=
  exists_ ← onErr wrapf (hasDB wrappingKey database);
  if negb exists_ then throw errDBNotFound
  else
    defs ← indexes database;
    match findIndex defs index with
    | None => throw errIndexNotFound
    | Some _ =>
        if negb (opValid op) || beqb op cmpEq || negb (validIndexValue encoded)
           || negb (beqb (at_ encoded 0) x03) && negb (beqb (at_ encoded 0) x04)
        then throw errInvalidIndexValue
        else if (0 <? len afterValue)
                && (negb (validIndexValue afterValue) || negb (beqb (at_ afterValue 0) (at_ encoded 0))
                    || negb (is_ok (validateID afterID)))
        then throw errInvalidQueryCursor
        else
          let typePrefix := indexTypePrefix database index (at_ encoded 0) in
          let boundary := indexValuePrefix database index encoded in
          let '(lower, upper) := rangeBounds typePrefix boundary op in
          s ← newSnapshot;
          deferClose (
            it ← snapIter s lower upper;
            deferClose (
              let seek := 0 <? len afterValue in
              let start := if seek then seekAfter (indexKey database index afterValue afterID) (it_entries it)
                           else it_entries it in
              let pastCursor := seek || (len afterID =? 0) in
              '(ids, values, rest) ←
                 queryRange_loop ctx s database typePrefix afterID start limit pastCursor [] [];
              _ ← iterError it rest;
              mret (rangePageOf limit ids values)))
    end.

Definition queryRangeDocs (database index : bytes) (op : cmpOp) (encoded : bytes) (limit : Z)
    (cursor : bytes) : M W (list bytes * bool) :=
  page ← queryRangePage Background database index op encoded limit [] cursor;
  mret (ip_ids page, ip_more page).
End Range.
