(* ===== verification/StoreRange.v ===== *)
(** * What index queries return

    On a store that represents an abstract state, a query returns the first
    documents, in index order, whose indexed value satisfies its condition. *)

From S2P Require Import Prelude GoErrors Codec Text Validation Keys Json IndexValue Host Crypto.
From S2P Require Import Wp Store StoreRep StoreReads StoreSpec StoreLists Range.

(** ** The index of a database *)

(** The indexed value of a document. *)
Definition docValue (d : ldb) (index id : bytes) : option bytes :=
  docEntries (ldb_defs d) (ldb_docs d !! id) !! index.

Definition pairKey (x : bytes * bytes) : bytes := x.1 ++ x.2.
Definition pair_le (x y : bytes * bytes) : Prop := pairKey x <=b pairKey y.
#[global] Instance pair_le_dec x y : Decision (pair_le x y).
Proof. apply ble_dec. Defined.

(** The values and IDs in an index, ordered by value, then by ID. *)
Definition indexEntries (d : ldb) (index : bytes) : list (bytes * bytes) :=
  merge_sort pair_le
    (omap (fun id => v ← docValue d index id; Some (v, id)) (sortedKeys (ldb_docs d))).

(** The IDs of the documents with a value, in order. *)
Definition matching (d : ldb) (index encoded : bytes) : list bytes :=
  filter (fun id => docValue d index id = Some encoded) (sortedKeys (ldb_docs d)).

Definition opHolds (op : cmpOp) (c : comparison) : bool :=
  if beqb op cmpLT then match c with Lt => true | _ => false end
  else if beqb op cmpLE then match c with Gt => false | _ => true end
  else if beqb op cmpGT then match c with Gt => true | _ => false end
  else if beqb op cmpGE then match c with Lt => false | _ => true end
  else false.

(** The entries of a range: of the type of the value, in the relation with it. *)
Definition rangeEntries (d : ldb) (index : bytes) (op : cmpOp) (encoded : bytes)
    : list (bytes * bytes) :=
  filter (fun x => at_ x.1 0 = at_ encoded 0 /\ opHolds op (bcmp x.1 encoded) = true)
    (indexEntries d index).

(** What follows the entry of a document. *)
Fixpoint afterDoc (id : bytes) (l : list (bytes * bytes)) : list (bytes * bytes) :=
  match l with
  | [] => []
  | x :: l' => if decide (x.2 = id) then l' else afterDoc id l'
  end.

Definition afterCursor (afterValue afterID : bytes) (l : list (bytes * bytes)) : list (bytes * bytes) :=
  if 0 <? len afterValue then filter (fun x => afterValue ++ afterID <b pairKey x) l
  else if len afterID =? 0 then l else afterDoc afterID l.

Definition rangePage (limit : Z) (l : list (bytes * bytes)) : indexPage :=
  if limit <? len l then
    IndexPage (map snd (take (Z.to_nat limit) l))
      (default [] (fst <$> l !! Z.to_nat (limit - 1))) true
  else IndexPage (map snd l) [] false.

Lemma docValue_Some d i id v :
  docValue d i id = Some v -> is_Some (ldb_docs d !! id).
Proof.
  unfold docValue. destruct (ldb_docs d !! id); [by eexists|]. simpl. by rewrite lookup_empty.
Qed.

Lemma elem_indexEntries d i v id : (v, id) ∈ indexEntries d i <-> docValue d i id = Some v.
Proof.
  unfold indexEntries. rewrite merge_sort_Permutation, list_elem_of_omap. split.
  - intros (id' & _ & H). destruct (docValue d i id') eqn:E; [|done]. simpl in H. by simplify_eq.
  - intros H. exists id. split; [by apply elem_sortedKeys, (docValue_Some d i id v)|].
    by rewrite H.
Qed.

Lemma ssorted_strict {A} (R S : relation A) (l : list A) :
  StronglySorted R l -> NoDup l -> (forall x y, x ∈ l -> y ∈ l -> x <> y -> R x y -> S x y) ->
  StronglySorted S l.
Proof.
  induction 1 as [|x l HS IH HF]; [constructor|]. intros [Hx Hnd]%NoDup_cons HRS.
  constructor.
  - apply IH; [done|]. intros y z Hy Hz. apply HRS; by right.
  - rewrite Forall_forall in HF. apply Forall_forall. intros y Hy.
    apply HRS; [left|by right| |by apply HF]. congruence.
Qed.

Lemma sortedKeys_NoDup {A} (m : gmap bytes A) : NoDup (sortedKeys m).
Proof. unfold sortedKeys. rewrite merge_sort_Permutation. apply NoDup_fst_map_to_list. Qed.

Section Index.
Context (n : bytes) (d : ldb) (Hwd : wfDb n d).

Lemma docValue_valid i id v : docValue d i id = Some v -> validIndexValue v = true.
Proof. intros H. by apply (docEntries_wf n d _ i v Hwd) in H as [_ ?]. Qed.

Lemma indexEntries_NoDup i : NoDup (indexEntries d i).
Proof.
  unfold indexEntries. rewrite merge_sort_Permutation.
  pose proof (sortedKeys_NoDup (ldb_docs d)) as Hnd. revert Hnd.
  generalize (sortedKeys (ldb_docs d)). intros l. induction l as [|id l IH]; [constructor|].
  intros [Hx Hnd]%NoDup_cons. simpl. destruct (docValue d i id) as [v|]; simpl; [|by apply IH].
  constructor; [|by apply IH]. intros (id' & Hin & E)%list_elem_of_omap.
  destruct (docValue d i id'); [|done]. simpl in E. injection E as _ ->. done.
Qed.

Lemma indexEntries_sorted i : StronglySorted (keyed pairKey) (indexEntries d i).
Proof.
  assert (Transitive pair_le) by (intros x y z; unfold pair_le; apply transitivity).
  assert (Total pair_le) by (intros x y; unfold pair_le; apply total, _).
  apply (ssorted_strict pair_le);
    [apply (StronglySorted_merge_sort _ _)|apply indexEntries_NoDup|].
  intros [v1 id1] [v2 id2] H1 H2 Hne Hle. apply elem_indexEntries in H1, H2.
  apply ble_lt_eq in Hle as [?|E]; [done|]. destruct Hne.
  unfold pairKey in E. cbn [fst snd] in E.
  apply valid_app_inj in E as [-> ->]; eauto using docValue_valid.
Qed.

Lemma rangeEntries_sorted i op e : StronglySorted (keyed pairKey) (rangeEntries d i op e).
Proof. apply ssorted_filter, indexEntries_sorted. Qed.

(** Two entries compare as their values do, when these differ. *)
Lemma pair_compare v e id :
  validIndexValue v = true -> validIndexValue e = true ->
  bcmp (v ++ id) e = match bcmp v e with Eq => bcmp id [] | Lt => Lt | Gt => Gt end.
Proof.
  intros Hv He. rewrite <- (app_nil_r e) at 1. apply codeCmp_then, codeCmp_valid; done.
Qed.
End Index.

(** ** Bounds *)

Lemma prefixEnd_above p hi k :
  prefixEnd p = Some hi -> k <b hi <-> k <b p \/ p `prefix_of` k.
Proof.
  intros Hhi. pose proof (prefixEnd_spec p k) as Hk. rewrite Hhi in Hk. unfold in_bounds in Hk.
  rewrite andb_true_iff, !bool_decide_eq_true in Hk.
  pose proof (prefixEnd_spec p p) as Hp. rewrite Hhi in Hp. unfold in_bounds in Hp.
  rewrite andb_true_iff, !bool_decide_eq_true in Hp. destruct (proj2 Hp) as [_ Hph]; [done|].
  rewrite <- Hk. destruct (trichotomyT blt k p) as [[Hlt|Heq]|Hgt].
  - split; [by left|]. intros _. by etrans.
  - subst k. split; [|done]. intros _. right. split; [reflexivity|done].
  - assert (p <=b k) by (apply ble_lt_eq; by left). split; [tauto|].
    intros [Hlt|?]; [|tauto]. destruct (irreflexivity blt k). by etrans.
Qed.

Lemma ble_not_blt a b : a <=b b <-> ~ b <b a.
Proof. rewrite (blt_not_ble b a). destruct (decide (a <=b b)); tauto. Qed.

(** The bounds of a range query keep the keys of the type whose position relative
    to the boundary is the one asked for. *)
Definition rangeKey (op : cmpOp) (boundary k : bytes) : Prop :=
  if beqb op cmpLT then k <b boundary
  else if beqb op cmpLE then k <b boundary \/ boundary `prefix_of` k
  else if beqb op cmpGT then ~ (k <b boundary \/ boundary `prefix_of` k)
  else ~ k <b boundary.

Lemma opValid_cases op :
  opValid op = true -> beqb op cmpEq = false -> op = cmpLT \/ op = cmpLE \/ op = cmpGT \/ op = cmpGE.
Proof. destruct op; try discriminate; auto. Qed.

(** Which comparison a concrete operator is. *)
Ltac eval_op :=
  repeat match goal with
  | |- context [beqb ?a ?b] => let r := eval vm_compute in (beqb a b) in change (beqb a b) with r
  end; cbv iota beta.

Lemma rangeBounds_spec x T e op k :
  x <> xff -> opValid op = true -> beqb op cmpEq = false ->
  let '(lo, hi) := rangeBounds (x :: T) (x :: T ++ e) op in
  in_bounds lo hi k = true <-> x :: T `prefix_of` k /\ rangeKey op (x :: T ++ e) k.
Proof.
  intros Hx Hop Heq. set (P := x :: T). change (x :: T ++ e) with (P ++ e). set (B := P ++ e).
  destruct (prefixEnd_is_Some x T Hx) as [hiP HP]. fold P in HP.
  destruct (prefixEnd_is_Some x (T ++ e) Hx) as [hiB HB].
  change (x :: T ++ e) with B in HB.
  pose proof (prefixEnd_above P hiP k HP) as HPk. pose proof (prefixEnd_above B hiB k HB) as HBk.
  pose proof (prefixEnd_spec P k) as HPs. rewrite HP in HPs. unfold in_bounds in HPs.
  rewrite andb_true_iff, !bool_decide_eq_true in HPs.
  assert (P <=b B) as HPB by apply ble_app_r.
  assert (B <b hiP) as HBP.
  { apply (prefixEnd_above P hiP B HP). right. by apply prefix_app_r. }
  assert (hiB <=b hiP) as Hhi.
  { apply ble_not_blt. intros Hlt. apply (prefixEnd_above B hiB hiP HB) in Hlt as [Hlt|Hlt].
    - destruct (irreflexivity blt B). by etrans.
    - assert (hiP <b hiP) as Hbad; [|by destruct (irreflexivity blt hiP)].
      apply (prefixEnd_above P hiP hiP HP). right. etrans; [|exact Hlt]. by apply prefix_app_r. }
  assert (B <b hiB) as HBB by (apply (prefixEnd_above B hiB B HB); by right).
  unfold in_bounds, rangeKey, rangeBounds.
  destruct (opValid_cases op Hop Heq) as [->|[->|[->| ->]]]; eval_op;
    rewrite ?HP, ?HB, <- HPs, andb_true_iff, !bool_decide_eq_true, ?HBk.
  - split; [intros [? ?]; split; [split; [done|by etrans]|done]|tauto].
  - rewrite <- HBk. split; [|tauto]. intros [? ?]. split; [|done]. split; [done|].
    by eapply blt_le_trans.
  - rewrite ble_not_blt, HBk. split; [|tauto]. intros [Hn ?]. split; [|done]. split; [|done].
    rewrite <- HBk in Hn. apply ble_not_blt in Hn. etrans; [exact HPB|]. etrans; [|exact Hn].
    apply ble_lt_eq. by left.
  - rewrite ble_not_blt. split; [|tauto]. intros [Hn ?]. split; [|done]. split; [|done].
    apply ble_not_blt in Hn. by etrans.
Qed.

(** ** Scans *)

Definition idxEntry (n i : bytes) (x : bytes * bytes) : bytes * bytes := (indexKey n i x.1 x.2, []).

Definition idxBase (n i : bytes) : bytes := appendPart [] n ++ appendPart [] i.

Lemma indexKey_base n i v id : indexKey n i v id = x04 :: idxBase n i ++ v ++ id.
Proof. rewrite indexKey_app. unfold idxBase. by rewrite <- app_assoc. Qed.

Lemma indexTypePrefix_base n i tag : indexTypePrefix n i tag = x04 :: idxBase n i ++ [tag].
Proof.
  unfold indexTypePrefix. rewrite appendPart_app, indexDataPrefix_app. unfold idxBase.
  by rewrite <- !app_assoc.
Qed.

Lemma indexValuePrefix_base n i v : indexValuePrefix n i v = x04 :: idxBase n i ++ v.
Proof.
  unfold indexValuePrefix. rewrite appendPart_app, indexDataPrefix_app. unfold idxBase.
  by rewrite <- !app_assoc.
Qed.

Lemma idxEntry_lt n i x y : (idxEntry n i x).1 <b (idxEntry n i y).1 <-> keyed pairKey x y.
Proof. simpl. rewrite !indexKey_base. apply (blt_app_same (x04 :: idxBase n i)). Qed.

Lemma rangeKey_holds n i op e v id :
  validIndexValue v = true -> validIndexValue e = true -> opValid op = true -> beqb op cmpEq = false ->
  rangeKey op (x04 :: idxBase n i ++ e) (indexKey n i v id) <-> opHolds op (bcmp v e) = true.
Proof.
  intros Hv He Hop Heq. rewrite indexKey_base.
  assert (x04 :: idxBase n i ++ v ++ id <b x04 :: idxBase n i ++ e <-> bcmp v e = Lt) as Hlt.
  { rewrite !app_comm_cons, blt_app_same. unfold blt. rewrite pair_compare by done.
    destruct (bcmp v e); [|done..]. by destruct id. }
  assert (x04 :: idxBase n i ++ e `prefix_of` x04 :: idxBase n i ++ v ++ id <-> bcmp v e = Eq) as Heqp.
  { rewrite bcmp_eq. split.
    - intros [k E]. injection E as E. rewrite <- app_assoc in E. apply app_inv_head in E.
      symmetry in E. apply valid_app_inj in E as [-> _]; done.
    - intros ->. exists id. by rewrite <- app_comm_cons, <- app_assoc. }
  unfold rangeKey, opHolds.
  destruct (opValid_cases op Hop Heq) as [->|[->|[->| ->]]]; eval_op;
    rewrite ?Heqp, ?Hlt; destruct (bcmp v e); naive_solver.
Qed.

Section Scans.
Context `{CryptoSpec}.
Context (wk : storeKey) (c : gmap bytes bytes) (a : astate) (Hrep : store_rep wk c a).
Context (n : bytes) (d : ldb) (Hd : a !! n = Some d).

Lemma idx_elem i v id w :
  validName i -> c !! indexKey n i v id = Some w -> validIndexValue v = true ->
  docValue d i id = Some v /\ w = [].
Proof.
  intros Hi Hc Hv. pose proof (rep_validName wk c a Hrep n d Hd) as Hn.
  destruct (rep_lookup_inv wk c a (KIdx n i v id) w Hrep) as (e & He & Hh); [done|done|].
  pose proof (want_idx_EIdx _ _ _ _ _ _ He) as ->. split; [|done].
  by apply (want_idx a n d).
Qed.

Lemma idx_stored i v id :
  docValue d i id = Some v -> c !! indexKey n i v id = Some [].
Proof.
  intros Hv. destruct Hrep as (_ & _ & _ & H3).
  destruct (H3 (KIdx n i v id) EIdx) as (w & Hw & Hh); [by apply (want_idx a n d)|].
  simpl in Hh. by subst w.
Qed.

(** The keys under the entries of an index are those of index entries. *)
Lemma idx_key i k w :
  validName i -> c !! k = Some w -> x04 :: idxBase n i `prefix_of` k ->
  exists v id, k = indexKey n i v id /\ docValue d i id = Some v /\ w = [].
Proof.
  intros Hi Hc [r ->]. pose proof (rep_validName wk c a Hrep n d Hd) as Hn.
  destruct Hrep as (Hwf & _ & H2 & _). destruct (H2 _ _ Hc) as [?|(sk & e & E & He & Hh)]; [done|].
  pose proof (want_wf _ _ _ Hwf He) as Hsk.
  destruct (proj1 (keyBytes_indexDataPrefix n sk Hn Hsk)) as (i' & v & id & ->).
  { rewrite E, indexDataPrefix_app. unfold idxBase. rewrite <- !app_comm_cons, <- app_assoc.
    eexists. by rewrite app_comm_cons. }
  simpl in E. rewrite indexKey_app in E. unfold idxBase in E.
  injection E as E. rewrite <- app_assoc in E. apply app_inv_head in E.
  destruct Hsk as (_ & Hi' & _).
  apply appendPart_inj in E as [-> E]; [|by apply validName_slice..].
  exists v, id. split; [by rewrite indexKey_base, <- E|]. pose proof (want_idx_EIdx _ _ _ _ _ _ He) as ->.
  split; [by apply (want_idx a n d)|done].
Qed.

Lemma ssorted_idx i l :
  StronglySorted (keyed pairKey) l -> StronglySorted (keyed fst) (map (idxEntry n i) l).
Proof. apply ssorted_map. intros x y _ _. unfold keyed at 2. by rewrite idxEntry_lt. Qed.

Lemma scan_range i op e l :
  validName i -> validIndexValue e = true -> opValid op = true -> beqb op cmpEq = false ->
  (let '(lo, hi) := rangeBounds (indexTypePrefix n i (at_ e 0)) (indexValuePrefix n i e) op in
   isScan c lo hi l) ->
  l = map (idxEntry n i) (rangeEntries d i op e).
Proof.
  intros Hi He Hop Heq. pose proof (rep_wfDb wk c a Hrep n d Hd) as Hwd.
  destruct e as [|tag e']; [done|]. change (at_ (tag :: e') 0) with tag. set (e := tag :: e') in *.
  assert (indexValuePrefix n i e = x04 :: (idxBase n i ++ [tag]) ++ e') as HB.
  { rewrite indexValuePrefix_base. by rewrite <- app_assoc. }
  pose proof (fun k => rangeBounds_spec x04 (idxBase n i ++ [tag]) e' op k ltac:(done) Hop Heq) as Hspec.
  rewrite <- HB, <- indexTypePrefix_base in Hspec.
  destruct (rangeBounds _ _ op) as [lo hi]. intros [Hsort Hel].
  apply (ssorted_unique (keyed fst)); [exact Hsort|by apply ssorted_idx, rangeEntries_sorted with n|].
  intros [k w]. rewrite Hel, Hspec, indexTypePrefix_base, list_elem_of_fmap. split.
  - intros (Hc & [r ->] & Hr).
    destruct (idx_key i _ w Hi Hc) as (v & id & E & Hv & ->).
    { exists ([tag] ++ r). by rewrite <- !app_comm_cons, <- app_assoc. }
    exists (v, id). split; [by rewrite E|]. rewrite E in Hr. rewrite HB, <- app_assoc in Hr.
    pose proof (docValue_valid n d Hwd i id v Hv) as Hvv.
    apply rangeKey_holds in Hr; [|done..]. unfold rangeEntries. rewrite list_elem_of_filter.
    split; [|by apply elem_indexEntries]. split; [|done].
    rewrite indexKey_base in E. rewrite <- app_comm_cons, <- app_assoc in E.
    injection E as E. apply app_inv_head in E. destruct v as [|t v]; [done|]. by injection E.
  - intros ([v id] & [= -> ->] & Hin). unfold rangeEntries in Hin.
    apply list_elem_of_filter in Hin as [[Htag Hr] Hin]. apply elem_indexEntries in Hin.
    pose proof (docValue_valid n d Hwd i id v Hin) as Hvv. simpl in Htag, Hr.
    split; [by apply idx_stored|]. split.
    + destruct v as [|t v]; [done|]. unfold at_ in Htag. simpl in Htag. subst t.
      rewrite indexKey_base. exists (v ++ id). cbn [app]. by rewrite <- app_assoc.
    + rewrite HB, <- app_assoc. by apply rangeKey_holds.
Qed.

Lemma scan_matching i e l :
  validName i -> validIndexValue e = true ->
  isScan c (Some (indexValuePrefix n i e)) (prefixEnd (indexValuePrefix n i e)) l ->
  l = map (fun id => idxEntry n i (e, id)) (matching d i e).
Proof.
  intros Hi He Hscan. pose proof (rep_wfDb wk c a Hrep n d Hd) as Hwd.
  apply (ssorted_unique (keyed fst)); [by destruct Hscan| |].
  - apply (ssorted_map blt); [|apply ssorted_filter, sortedKeys_sorted].
    intros x y _ _ Hlt. unfold keyed. apply idxEntry_lt. by apply blt_app_same.
  - intros [k w]. rewrite (scan_elem c _ l k w Hscan), indexValuePrefix_base, list_elem_of_fmap. split.
    + intros [Hc [r ->]]. rewrite <- app_comm_cons, <- app_assoc, <- indexKey_base in *.
      destruct (idx_elem i e r w Hi Hc He) as [Hv ->]. exists r. split; [done|].
      apply list_elem_of_filter. split; [done|]. by apply elem_sortedKeys, (docValue_Some d i r e).
    + intros (id & [= -> ->] & Hin). apply list_elem_of_filter in Hin as [Hv _].
      split; [by apply idx_stored|]. rewrite indexKey_base. exists id.
      by rewrite <- app_comm_cons, <- app_assoc.
Qed.
End Scans.

(** ** The loops *)

Section Loops.
Context {W : Type} `{HS : HostSpec W} `{CS : CryptoSpec}.
Context (wk : storeKey) (c : gmap bytes bytes) (a : astate) (Hrep : store_rep wk c a).

Lemma reads_snapshotHas s key (E : exits) :
  snapContents s = c ->
  reads c (snapshotHas s key) (fun b => b = bool_decide (is_Some (c !! key))) E.
Proof.
  intros Hs. unfold snapshotHas. apply (reads_ofGet c key _ _ _ _ c).
  - intros w <-. pose proof (snapshotGet_spec s key w) as HG.
    destruct (snapshotGet s key w) as [[e|v] w']; rewrite Hs in HG; naive_solver.
  - intros v Hv. eapply reads_bind; [by apply (reads_close c (fun _ => True))|]. intros _ _.
    apply reads_ret. rewrite Hv. symmetry. by apply bool_decide_eq_true.
  - intros e -> Hn. apply reads_ret. rewrite Hn. symmetry. apply bool_decide_eq_false. by intros [].
  - intros e -> He. apply reads_throw. eexists. split; [done|]. auto with goerr.
Qed.

Context (n : bytes) (d : ldb) (Hd : a !! n = Some d).

Lemma docValue_stored i id v :
  docValue d i id = Some v -> validID id /\ bool_decide (is_Some (c !! docKey n id)) = true.
Proof.
  intros Hv. destruct (docValue_Some _ _ _ _ Hv) as [doc Hdoc].
  pose proof (rep_wfDb wk c a Hrep n d Hd) as (_ & _ & _ & _ & HF). split; [apply (HF id doc Hdoc)|].
  apply bool_decide_eq_true. destruct (c !! docKey n id) eqn:E; [by eexists|].
  apply (rep_doc_None wk c a Hrep n d Hd) in E. congruence.
Qed.

Definition goodEntry (i : bytes) (tag : byte) (x : bytes * bytes) : Prop :=
  docValue d i x.2 = Some x.1 /\ at_ x.1 0 = tag.

Lemma splitIndexEntry_idx i tag x :
  (tag = x03 \/ tag = x04) -> goodEntry i tag x ->
  splitIndexEntry (indexTypePrefix n i tag) (indexKey n i x.1 x.2) = Some (x.1, x.2).
Proof.
  intros Htag [Hv Ht]. pose proof (rep_wfDb wk c a Hrep n d Hd) as Hwd.
  pose proof (docValue_valid n d Hwd i _ _ Hv) as Hvv. destruct x as [[|t v] id]; [done|].
  cbn [fst snd] in *. unfold at_ in Ht. simpl in Ht. subst t.
  unfold indexTypePrefix, indexKey, indexValuePrefix. rewrite <- app_assoc.
  by apply splitIndexEntry_valid.
Qed.

(** What is left of a listing: all of it, or what follows a document. *)
Definition sel (past : bool) (afterID : bytes) (l : list (bytes * bytes)) : list (bytes * bytes) :=
  if past then l else afterDoc afterID l.

(** A loop over [xs] has collected [X]: all that was to be listed, or one more
    than the limit. *)
Definition collected {A} (limit : Z) (rest : list (bytes * bytes)) (all X : list A) (count : Z) : Prop :=
  rest = [] /\ X = all /\ count <= limit + 1 \/ rest <> [] /\ X `prefix_of` all /\ count = limit + 1.

Lemma reads_queryRange_loop ctx s i tag afterID xs limit past ids values (E : exits) :
  snapContents s = c -> (tag = x03 \/ tag = x04) -> Forall (goodEntry i tag) xs ->
  len ids <= limit + 1 ->
  reads c (queryRange_loop ctx s n (indexTypePrefix n i tag) afterID (map (idxEntry n i) xs)
             limit past ids values)
    (fun r => let '(ids', values', rest) := r in
       exists X, ids' = ids ++ map snd X /\ values' = values ++ map fst X /\
                 collected limit rest (sel past afterID xs) X (len ids')) E.
Proof.
  intros Hs Htag. revert past ids values.
  induction xs as [|x xs IH]; intros past ids values HF Hlen; cbn [map queryRange_loop idxEntry].
  { apply reads_ret. exists []. rewrite !app_nil_r. split; [done|]. split; [done|]. left.
    by destruct past. }
  apply Forall_cons in HF as [Hx HF]. destruct (Z.leb_spec (len ids) limit) as [Hl|Hl].
  - eapply reads_bind; [apply reads_ctxErr|]. intros _ _.
    rewrite splitIndexEntry_idx by done.
    destruct (docValue_stored i _ _ (proj1 Hx)) as [Hid Hin]. unfold validID in Hid. rewrite Hid.
    change (len [] =? 0) with true. cbn [negb orb is_ok]. destruct past; cbn [negb].
    + eapply reads_bind; [by apply reads_snapshotHas|]. intros ? ->. rewrite Hin. cbn [negb].
      eapply reads_mono; [apply IH; [done|rewrite len_app; unfold len at 2; simpl; lia]| |done].
      intros [[ids' values'] rest] (X & -> & -> & HX). exists (x :: X). cbn [map].
      rewrite <- !app_assoc in *. cbn [app] in *. split; [done|]. split; [done|].
      destruct HX as [(? & -> & ?)|(? & HX & ?)]; [by left|right]. split; [done|]. split; [|done].
      by apply prefix_cons.
    + cbn [sel afterDoc]. destruct (decide (x.2 = afterID)) as [Heq|Heq].
      * rewrite bool_decide_eq_true_2 by done. by apply (IH true).
      * rewrite bool_decide_eq_false_2 by done. by apply (IH false).
  - apply reads_ret. exists []. rewrite !app_nil_r. split; [done|]. split; [done|]. right.
    split; [done|]. split; [apply prefix_nil|lia].
Qed.

Lemma reads_queryDocs_loop ctx s i e ids0 limit ids (E : exits) :
  snapContents s = c -> Forall (fun id => docValue d i id = Some e) ids0 -> len ids <= limit + 1 ->
  reads c (queryDocs_loop ctx s n (indexValuePrefix n i e)
             (map (fun id => idxEntry n i (e, id)) ids0) limit ids)
    (fun r => let '(ids', rest) := r in
       exists X, ids' = ids ++ X /\ collected limit rest ids0 X (len ids')) E.
Proof.
  intros Hs. revert ids.
  induction ids0 as [|id ids0 IH]; intros ids HF Hlen; cbn [map queryDocs_loop idxEntry].
  { apply reads_ret. exists []. rewrite app_nil_r. split; [done|]. by left. }
  apply Forall_cons in HF as [Hx HF]. destruct (Z.leb_spec (len ids) limit) as [Hl|Hl].
  - eapply reads_bind; [apply reads_ctxErr|]. intros _ _. cbn [fst snd].
    unfold indexKey. rewrite drop_app_length.
    destruct (docValue_stored i _ _ Hx) as [Hid Hin]. unfold validID in Hid. rewrite Hid.
    change (len [] =? 0) with true. cbn [negb orb is_ok].
    eapply reads_bind; [by apply reads_snapshotHas|]. intros ? ->. rewrite Hin. cbn [negb].
    eapply reads_mono; [apply IH; [done|rewrite len_app; unfold len at 2; simpl; lia]| |done].
    intros [ids' rest] (X & -> & HX). exists (id :: X). rewrite <- !app_assoc in *. split; [done|].
    destruct HX as [(? & -> & ?)|(? & HX & ?)]; [by left|right]. split; [done|]. split; [|done].
    by apply prefix_cons.
  - apply reads_ret. exists []. rewrite !app_nil_r. split; [done|]. right.
    split; [done|]. split; [apply prefix_nil|lia].
Qed.
End Loops.

(** ** Pages *)

Lemma rangePageOf_collected limit all rest X :
  1 <= limit -> collected limit rest all X (len X) ->
  rangePageOf limit (map snd X) (map fst X) = rangePage limit all.
Proof.
  intros Hlim HX. unfold rangePageOf, rangePage. unfold len. rewrite length_map.
  change (Z.of_nat (length X)) with (len X). change (Z.of_nat (length all)) with (len all).
  destruct HX as [(_ & -> & Hle)|(_ & [Y ->] & Heq)].
  - destruct (limit <? len all); [|done]. by rewrite firstn_map, list_lookup_fmap.
  - rewrite len_app. pose proof (len_nonneg Y).
    replace (limit <? len X) with true by (symmetry; apply Z.ltb_lt; lia).
    replace (limit <? len X + len Y) with true by (symmetry; apply Z.ltb_lt; lia).
    assert (length X = S (Z.to_nat limit)) as HlX by (unfold len in Heq; lia).
    rewrite take_app_le, lookup_app_l by lia. by rewrite firstn_map, list_lookup_fmap.
Qed.

Lemma pageOf_collected limit rest all X :
  0 <= limit -> collected limit rest all X (len X) ->
  pageOf limit X = (take (Z.to_nat limit) all, limit <? len all).
Proof.
  intros Hlim HX. unfold pageOf. destruct HX as [(_ & -> & Hle)|(_ & [Y ->] & Heq)].
  - destruct (Z.ltb_spec limit (len all)); [done|]. rewrite take_ge; [done|].
    unfold len in *. lia.
  - rewrite len_app. pose proof (len_nonneg Y).
    replace (limit <? len X) with true by (symmetry; apply Z.ltb_lt; lia).
    replace (limit <? len X + len Y) with true by (symmetry; apply Z.ltb_lt; lia).
    rewrite take_app_le; [done|]. unfold len in *. lia.
Qed.

Lemma afterDoc_app id l1 l2 : afterDoc id l1 <> [] -> afterDoc id (l1 ++ l2) = afterDoc id l1 ++ l2.
Proof.
  induction l1 as [|x l1 IH]; simpl; [done|]. destruct (decide (x.2 = id)); [done|apply IH].
Qed.

Lemma afterCursor_app av aid l1 l2 :
  afterCursor av aid l1 <> [] -> afterCursor av aid l1 `prefix_of` afterCursor av aid (l1 ++ l2).
Proof.
  unfold afterCursor. destruct (0 <? len av); [|destruct (len aid =? 0)].
  - intros _. rewrite filter_app. by eexists.
  - intros _. by eexists.
  - intros Hne. rewrite afterDoc_app by done. by eexists.
Qed.

Lemma seek_idx n i key l :
  StronglySorted (keyed pairKey) l ->
  seekAfter (x04 :: idxBase n i ++ key) (map (idxEntry n i) l)
  = map (idxEntry n i) (filter (fun x => key <b pairKey x) l).
Proof.
  intros HS. rewrite seekAfter_filter by apply ssorted_idx, HS.
  clear HS. induction l as [|x l IH]; [done|]. cbn [map]. rewrite !filter_cons, IH.
  assert (x04 :: idxBase n i ++ key <b (idxEntry n i x).1 <-> key <b pairKey x) as Hiff.
  { simpl. rewrite indexKey_base. rewrite !app_comm_cons. apply blt_app_same. }
  repeat case_decide; tauto || done.
Qed.

Lemma Forall_filter_impl {A} (P Q : A -> Prop) `{!forall x, Decision (P x)} l :
  Forall Q l -> Forall Q (filter P l).
Proof.
  rewrite !Forall_forall. intros HQ x Hx. apply HQ. apply list_elem_of_filter in Hx. apply Hx.
Qed.

Section Queries.
Context {W : Type} `{HS : HostSpec W} `{CS : CryptoSpec}.
Context (wk : storeKey) (c : gmap bytes bytes) (a : astate) (Hrep : store_rep wk c a).

(** The common frame of the two queries: the checks, the snapshot, the iterator. *)
Inductive queryFails (n i : bytes) (valid validCursor : bool) : error -> Prop :=
  | query_no_db : a !! n = None -> queryFails n i valid validCursor errDBNotFound
  | query_no_index d : a !! n = Some d -> findIndex (ldb_defs d) i = None ->
      queryFails n i valid validCursor errIndexNotFound
  | query_value d : a !! n = Some d -> is_Some (findIndex (ldb_defs d) i) -> valid = false ->
      queryFails n i valid validCursor errInvalidIndexValue
  | query_cursor d : a !! n = Some d -> is_Some (findIndex (ldb_defs d) i) -> valid = true ->
      validCursor = false -> queryFails n i valid validCursor errInvalidQueryCursor.

Definition queryExit (n i : bytes) (valid validCursor : bool) : exits :=
  fun x => exists e, x = Some e /\ queryFails n i valid validCursor e.

Lemma reads_snapScan_gen {A : Type} s lo hi (body : iter -> M W A) (P : A -> Prop) (E : exits) :
  snapContents s = c -> (forall e ce, E (Some e) -> outside ce -> E (Some (join e ce))) ->
  (forall it l2, isScan c lo hi (it_entries it ++ l2) -> (it_err it = None -> l2 = []) ->
     (forall e, it_err it = Some e -> foreign e) ->
     reads c (body it) P (fun x => (it_err it <> None /\ outsideExit x) \/ E x)) ->
  reads c (deferClose (it ← snapIter s lo hi; deferClose (body it))) P E.
Proof.
  intros Hs HE Hbody. apply reads_deferClose; [|by intros e ce ? ?; right; apply HE].
  apply reads_snapIter; rewrite Hs.
  - intros it Herr Hscan. apply reads_deferClose; [|by intros e ce ? ?; right; apply HE].
    eapply reads_mono; [apply (Hbody it [])|done|]; rewrite ?app_nil_r; try done; [congruence|].
    intros x [[? _]|?]; done.
  - intros it e Herr Hfe [l' Hscan].
    eapply reads_mono with (E := fun x => outsideExit x \/ E x); [apply reads_deferClose|done|done].
    + eapply reads_mono; [apply (Hbody it l'); [done|congruence|congruence]|done|].
      intros x [[_ ?]|?]; [by left|by right].
    + intros e' ce [(? & [= <-] & Ho)|He] Hce; [left; auto with goerr|right; right; by apply HE].
Qed.

Lemma reads_snapScan {A : Type} s lo hi l (body : iter -> M W A) (P : A -> Prop) :
  snapContents s = c -> (forall l', isScan c lo hi l' -> l' = l) ->
  (forall it l2, l = it_entries it ++ l2 -> (it_err it = None -> l2 = []) ->
     (forall e, it_err it = Some e -> foreign e) ->
     reads c (body it) P (fun x => it_err it <> None /\ outsideExit x)) ->
  reads c (deferClose (it ← snapIter s lo hi; deferClose (body it))) P noExit.
Proof.
  intros Hs Hl Hbody. apply reads_snapScan_gen; [done|done|].
  intros it l2 Hscan Hnone Hfe. apply Hl in Hscan.
  eapply reads_mono; [by apply (Hbody it l2)|done|]. intros x ?. by left.
Qed.

Lemma reads_finish {A B : Type} it rest (X : list A) all all2 limit (r : B) (P : B -> Prop) :
  collected limit rest all X (len X) -> 0 <= limit ->
  (it_err it = None -> all = all2) -> (all <> [] -> all `prefix_of` all2) ->
  (forall e, it_err it = Some e -> foreign e) ->
  (collected limit rest all2 X (len X) -> P r) ->
  reads c (_ ← iterError it rest; mret r) P (fun x => it_err it <> None /\ outsideExit x).
Proof.
  intros HX Hlim Hall Hpre Hfe HP. destruct (it_err it) as [e|] eqn:Herr.
  - destruct HX as [(-> & -> & Hle)|(Hrest & HX & Hlen)].
    + apply (reads_bind c _ _ (fun _ => False)); [|done]. eapply reads_mono;
        [apply (reads_iterError_bad c it e (fun _ => False) Herr); by apply Hfe|done|].
      intros x Hx. by split.
    + unfold iterError. destruct rest as [|y rest]; [done|].
      eapply reads_bind; [by apply (reads_ret c () (fun _ => True))|]. intros _ _. apply reads_ret.
      apply HP. right. split; [done|]. split; [|done]. etrans; [exact HX|]. apply Hpre.
      intros ->. apply prefix_nil_inv in HX as ->. rewrite len_nil in Hlen. lia.
  - eapply reads_bind; [by apply reads_iterError_ok|]. intros _ _. apply reads_ret.
    apply HP. by rewrite <- Hall.
Qed.

(** ** The queries *)

Lemma reads_queryRange_body ctx s n d i op e limit av aid it l2 :
  a !! n = Some d -> snapContents s = c -> 1 <= limit -> (at_ e 0 = x03 \/ at_ e 0 = x04) ->
  map (idxEntry n i) (rangeEntries d i op e) = it_entries it ++ l2 ->
  (it_err it = None -> l2 = []) -> (forall e, it_err it = Some e -> foreign e) ->
  reads c
    (let seek := 0 <? len av in
     let start := if seek then seekAfter (indexKey n i av aid) (it_entries it) else it_entries it in
     let pastCursor := seek || (len aid =? 0) in
     '(ids, values, rest) ←
        queryRange_loop ctx s n (indexTypePrefix n i (at_ e 0)) aid start limit pastCursor [] [];
     _ ← iterError it rest;
     mret (rangePageOf limit ids values))
    (fun r => r = rangePage limit (afterCursor av aid (rangeEntries d i op e)))
    (fun x => it_err it <> None /\ outsideExit x).
Proof.
  intros Hd Hs Hlim Htag Hl Hnone Hfe. cbv zeta. symmetry in Hl.
  apply map_app_inv in Hl as (xs1 & xs2 & Hl1 & Hl2 & Hxs). rewrite Hl1, Hxs.
  pose proof (rep_wfDb wk c a Hrep n d Hd) as Hwd.
  pose proof (rangeEntries_sorted n d Hwd i op e) as HSort. rewrite Hxs in HSort.
  apply ssorted_app_l in HSort.
  assert (Forall (goodEntry d i (at_ e 0)) xs1) as HF.
  { apply Forall_forall. intros [v id] Hin.
    assert ((v, id) ∈ rangeEntries d i op e) as Hin' by (rewrite Hxs; apply elem_of_app; by left).
    apply list_elem_of_filter in Hin' as [[? _] ?]. split; [by apply elem_indexEntries|done]. }
  set (start := if 0 <? len av then filter (fun x => av ++ aid <b pairKey x) xs1 else xs1).
  set (past := (0 <? len av) || (len aid =? 0)).
  assert (sel past aid start = afterCursor av aid xs1) as Hsel.
  { unfold past, start, afterCursor, sel.
    by destruct (0 <? len av), (len aid =? 0). }
  replace (if 0 <? len av then _ else _) with (map (idxEntry n i) start); cycle 1.
  { unfold start. destruct (0 <? len av); [|done]. rewrite indexKey_base. by rewrite seek_idx. }
  eapply reads_bind.
  { apply (reads_queryRange_loop wk c a Hrep n d Hd ctx s i (at_ e 0) aid start limit past [] []);
      [done|done| |change (len []) with 0; lia].
    unfold start. destruct (0 <? len av); [by apply Forall_filter_impl|done]. }
  intros [[ids values] rest] (X & -> & -> & HX). cbn [app] in HX |- *.
  replace (len (map snd X)) with (len X) in HX by (unfold len; by rewrite length_map).
  eapply (reads_finish _ _ _ _ (afterCursor av aid (xs1 ++ xs2)));
    [exact HX|lia| | |exact Hfe|].
  - intros He. rewrite Hsel, (map_eq_nil _ _ (eq_sym (eq_trans (eq_sym (Hnone He)) Hl2))).
    by rewrite app_nil_r.
  - rewrite Hsel. apply afterCursor_app.
  - by apply rangePageOf_collected.
Qed.

Definition rangeValid (op : cmpOp) (e : bytes) : bool :=
  opValid op && negb (beqb op cmpEq) && validIndexValue e
  && (beqb (at_ e 0) x03 || beqb (at_ e 0) x04).

Definition rangeCursorValid (e av aid : bytes) : bool :=
  (len av =? 0) || validIndexValue av && beqb (at_ av 0) (at_ e 0) && is_ok (validateID aid).

(** What a query finds before it looks at any entry: the database and the index. *)
Lemma reads_findIndex {A : Type} n i valid validCursor (k : list indexDef -> M W A) (P : A -> Prop) :
  validName n ->
  (forall d, a !! n = Some d -> is_Some (findIndex (ldb_defs d) i) ->
     reads c (k (ldb_defs d)) P (queryExit n i valid validCursor)) ->
  reads c
    (exists_ ← onErr wrapf (hasDB wk n);
     if negb exists_ then throw errDBNotFound
     else
       defs ← indexes n;
       match findIndex defs i with
       | None => throw errIndexNotFound
       | Some _ => k defs
       end) P (queryExit n i valid validCursor).
Proof.
  intros Hn Hk. eapply reads_bind;
    [by apply reads_exits, reads_wrapped, (reads_hasDB wk c a Hrep n Hn); apply outside_wrapf|].
  intros ? ->. case_bool_decide as Hex; cbn [negb]; cycle 1.
  { apply eq_None_not_Some in Hex. apply reads_throw. eexists. split; [done|]. by constructor. }
  destruct Hex as [d Hd]. eapply reads_bind; [by apply reads_exits, (reads_indexes wk c a Hrep n d Hd)|].
  intros ? ->. destruct (findIndex (ldb_defs d) i) as [def|] eqn:Hi.
  - by apply Hk.
  - apply reads_throw. eexists. split; [done|]. by eapply query_no_index.
Qed.

Lemma findIndex_validName n d i :
  a !! n = Some d -> is_Some (findIndex (ldb_defs d) i) -> validName i.
Proof.
  intros Hd [def Hf]. apply findIndex_Some in Hf as [Hin <-].
  by apply (wfDb_defs n d def (rep_wfDb wk c a Hrep n d Hd) Hin).
Qed.

Lemma reads_queryRangePage ctx n i op e limit av aid :
  validName n -> 1 <= limit ->
  reads c (queryRangePage wk ctx n i op e limit av aid)
    (fun r => exists d, a !! n = Some d /\ is_Some (findIndex (ldb_defs d) i) /\
       rangeValid op e = true /\ rangeCursorValid e av aid = true /\
       r = rangePage limit (afterCursor av aid (rangeEntries d i op e)))
    (queryExit n i (rangeValid op e) (rangeCursorValid e av aid)).
Proof.
  intros Hn Hlim. unfold queryRangePage.
  apply (reads_findIndex n i _ _ (fun _ => _)); [done|]. intros d Hd Hi.
  replace (negb (opValid op) || _ || _ || _) with (negb (rangeValid op e)); cycle 1.
  { unfold rangeValid. by destruct (opValid op), (beqb op cmpEq), (validIndexValue e), (beqb _ _). }
  replace ((0 <? len av) && _) with (negb (rangeCursorValid e av aid)); cycle 1.
  { unfold rangeCursorValid. destruct (Z.eqb_spec (len av) 0) as [->|Hne]; [done|].
    pose proof (len_nonneg av). replace (0 <? len av) with true by (symmetry; apply Z.ltb_lt; lia).
    by destruct (validIndexValue av), (beqb (at_ av 0) _), (is_ok _). }
  destruct (rangeValid op e) eqn:Hv; cbn [negb]; cycle 1.
  { apply reads_throw. eexists. split; [done|]. by eapply query_value. }
  destruct (rangeCursorValid e av aid) eqn:Hcv; cbn [negb]; cycle 1.
  { apply reads_throw. eexists. split; [done|]. by eapply query_cursor. }
  pose proof Hv as Hv'. unfold rangeValid in Hv'.
  rewrite !andb_true_iff, orb_true_iff, negb_true_iff, !beqb_eq in Hv'.
  destruct Hv' as [[[Hop Heq] He] Htag]. pose proof (findIndex_validName n d i Hd Hi) as Hin.
  cbv zeta. destruct (rangeBounds _ _ op) as [lo hi] eqn:Hbounds.
  eapply reads_bind; [apply reads_newSnapshot|]. intros s Hs. apply reads_exits.
  eapply (reads_snapScan s lo hi (map (idxEntry n i) (rangeEntries d i op e))); [done|..].
  - intros l' Hl'. apply (scan_range wk c a Hrep n d Hd i op e l' Hin He Hop Heq).
    by rewrite Hbounds.
  - intros it l2 Hl Hnone Hfe. eapply reads_mono;
      [by apply (reads_queryRange_body ctx s n d i op e limit av aid it l2)| |done].
    intros r ->. by exists d.
Qed.

Lemma filter_pair_after e cursor ids :
  filter (fun x => e ++ cursor <b pairKey x) (map (pair e) ids) = map (pair e) (after cursor ids).
Proof.
  induction ids as [|id ids IH]; [done|]. unfold after. cbn [map]. rewrite !filter_cons.
  pose proof (blt_app_same e cursor id) as Hiff. change (pairKey (e, id)) with (e ++ id).
  repeat case_decide; cbn [map]; rewrite ?IH; tauto || done.
Qed.

Lemma reads_queryDocs_body ctx s n d i e limit cursor it l2 :
  a !! n = Some d -> snapContents s = c -> 0 <= limit ->
  map (fun id => idxEntry n i (e, id)) (matching d i e) = it_entries it ++ l2 ->
  (it_err it = None -> l2 = []) -> (forall e', it_err it = Some e' -> foreign e') ->
  reads c
    (let start := match cursor with
                  | [] => it_entries it
                  | _ => seekAfter (indexValuePrefix n i e ++ cursor) (it_entries it)
                  end in
     '(ids, rest) ← queryDocs_loop ctx s n (indexValuePrefix n i e) start limit [];
     _ ← iterError it rest;
     mret (pageOf limit ids))
    (fun r => r = page limit cursor (matching d i e))
    (fun x => it_err it <> None /\ outsideExit x).
Proof.
  intros Hd Hs Hlim Hl Hnone Hfe. cbv zeta. symmetry in Hl.
  apply map_app_inv in Hl as (xs1 & xs2 & Hl1 & Hl2 & Hxs).
  pose proof (rep_wfDb wk c a Hrep n d Hd) as Hwd.
  assert (StronglySorted blt xs1) as HSort.
  { apply (ssorted_app_l blt xs1 xs2). rewrite <- Hxs. apply ssorted_filter, sortedKeys_sorted. }
  assert (Forall (fun id => docValue d i id = Some e /\ id <> []) xs1) as HF.
  { apply Forall_forall. intros id Hin.
    assert (id ∈ matching d i e) as Hin' by (rewrite Hxs; apply elem_of_app; by left).
    apply list_elem_of_filter in Hin' as [Hv _]. split; [done|].
    by apply validID_nonempty, (docValue_stored wk c a Hrep n d Hd i id e). }
  replace (match cursor with [] => it_entries it | _ => _ end)
    with (map (fun id => idxEntry n i (e, id)) (after cursor xs1)); cycle 1.
  { rewrite Hl1. transitivity (map (idxEntry n i) (map (pair e) (after cursor xs1)));
      [by rewrite map_map|]. rewrite <- filter_pair_after.
    rewrite <- (map_map (pair e) (idxEntry n i)). rewrite indexValuePrefix_base.
    rewrite <- app_comm_cons, <- app_assoc. rewrite seek_idx; cycle 1.
    { apply (ssorted_map blt); [|done]. intros x y _ _ Hlt. by apply blt_app_same. }
    destruct cursor; [|done]. rewrite filter_all; [done|]. apply Forall_map.
    eapply Forall_impl; [exact HF|]. intros id [_ Hne]. apply blt_app_same.
    by destruct id. }
  eapply reads_bind.
  { apply (reads_queryDocs_loop wk c a Hrep n d Hd ctx s i e (after cursor xs1) limit []);
      [done| |change (len []) with 0; lia].
    apply Forall_filter_impl. eapply Forall_impl; [exact HF|]. by intros id []. }
  intros [ids rest] (X & -> & HX). cbn [app] in HX |- *.
  eapply (reads_finish _ _ _ _ (after cursor (matching d i e))); [exact HX|lia| | |exact Hfe|].
  - intros He. rewrite Hxs, (map_eq_nil _ _ (eq_sym (eq_trans (eq_sym (Hnone He)) Hl2))).
    by rewrite app_nil_r.
  - intros _. rewrite Hxs, after_app. by eexists.
  - intros HX'. unfold page. by apply (pageOf_collected _ _ _ _ Hlim HX').
Qed.

Lemma reads_queryDocsCtx ctx n i e limit cursor :
  validName n -> 0 <= limit ->
  reads c (queryDocsCtx wk ctx n i e limit cursor)
    (fun r => exists d, a !! n = Some d /\ is_Some (findIndex (ldb_defs d) i) /\
       validIndexValue e = true /\ r = page limit cursor (matching d i e))
    (queryExit n i (validIndexValue e) true).
Proof.
  intros Hn Hlim. unfold queryDocsCtx.
  apply (reads_findIndex n i _ _ (fun _ => _)); [done|]. intros d Hd Hi.
  destruct (validIndexValue e) eqn:He; cbn [negb]; cycle 1.
  { apply reads_throw. eexists. split; [done|]. by eapply query_value. }
  pose proof (findIndex_validName n d i Hd Hi) as Hin.
  cbv zeta. eapply reads_bind; [apply reads_newSnapshot|]. intros s Hs. apply reads_exits.
  eapply (reads_snapScan s _ _ (map (fun id => idxEntry n i (e, id)) (matching d i e))); [done|..].
  - intros l' Hl'. by apply (scan_matching wk c a Hrep n d Hd i e l' Hin He).
  - intros it l2 Hl Hnone Hfe. eapply reads_mono;
      [by apply (reads_queryDocs_body ctx s n d i e limit cursor it l2)| |done].
    intros r ->. by exists d.
Qed.
End Queries.

(** ** Resuming *)

Lemma after_lookup {A} (f : A -> bytes) (l : list A) k x :
  StronglySorted (keyed f) l -> l !! k = Some x ->
  filter (fun y => f x <b f y) l = drop (S k) l.
Proof.
  intros HS. revert k. induction HS as [|y l HS IH HF]; intros k; [done|].
  rewrite Forall_forall in HF. destruct k as [|k]; simpl; rewrite filter_cons.
  - intros [= ->]. rewrite decide_False by apply (irreflexivity blt). rewrite drop_0.
    by apply filter_all, Forall_forall.
  - intros Hx. rewrite decide_False, (IH k Hx); [done|].
    specialize (HF x (list_elem_of_lookup_2 _ _ _ Hx)). intros Hlt.
    destruct (irreflexivity blt (f x)). by etrans.
Qed.

Lemma filter_suffix {A} (f : A -> bytes) key (l : list A) :
  StronglySorted (keyed f) l -> exists j, filter (fun y => key <b f y) l = drop j l.
Proof.
  induction 1 as [|y l HS [j IH] HF]; [by exists 0%nat|].
  rewrite filter_cons. case_decide as Hlt; [|by exists (S j)].
  exists 0%nat. rewrite drop_0. f_equal. apply filter_all, Forall_forall. intros x Hx.
  rewrite Forall_forall in HF. specialize (HF x Hx). unfold keyed in HF. by etrans.
Qed.

Lemma afterDoc_suffix id l : exists j, afterDoc id l = drop j l.
Proof.
  induction l as [|x l [j IH]]; [by exists 0%nat|]. simpl. destruct (decide (x.2 = id)).
  - by exists 1%nat.
  - by exists (S j).
Qed.

Lemma afterCursor_suffix av aid l :
  StronglySorted (keyed pairKey) l -> exists j, afterCursor av aid l = drop j l.
Proof.
  intros HS. unfold afterCursor. destruct (0 <? len av); [by apply filter_suffix|].
  destruct (len aid =? 0); [by exists 0%nat|apply afterDoc_suffix].
Qed.

(** The ID of the last document of a page. *)
Definition lastID (p : indexPage) : bytes := default [] (last (ip_ids p)).

Lemma rangePage_last limit l :
  1 <= limit -> limit < len l ->
  exists x, l !! Z.to_nat (limit - 1) = Some x /\
            ip_lastValue (rangePage limit l) = x.1 /\ lastID (rangePage limit l) = x.2.
Proof.
  intros Hlim Hlt. unfold rangePage, lastID. rewrite (proj2 (Z.ltb_lt _ _) Hlt). cbn [ip_lastValue ip_ids].
  destruct (lookup_lt_is_Some_2 l (Z.to_nat (limit - 1))) as [x Hx]; [unfold len in Hlt; lia|].
  exists x. split; [done|]. rewrite Hx. split; [done|].
  rewrite last_lookup, length_map, length_take, Nat.min_l by (unfold len in Hlt; lia).
  rewrite list_lookup_fmap, lookup_take_lt by lia.
  replace (Init.Nat.pred (Z.to_nat limit)) with (Z.to_nat (limit - 1)) by lia. by rewrite Hx.
Qed.

Lemma rangePage_resume l limit av aid :
  StronglySorted (keyed pairKey) l -> Forall (fun x => x.1 <> []) l ->
  1 <= limit -> ip_more (rangePage limit (afterCursor av aid l)) = true ->
  let p := rangePage limit (afterCursor av aid l) in
  afterCursor (ip_lastValue p) (lastID p) l = drop (Z.to_nat limit) (afterCursor av aid l).
Proof.
  intros HS HF Hlim. destruct (afterCursor_suffix av aid l HS) as [j ->]. intros Hmore.
  assert (limit < len (drop j l)) as Hlt.
  { unfold rangePage in Hmore. by destruct (Z.ltb_spec limit (len (drop j l))). }
  cbv zeta. destruct (rangePage_last limit (drop j l) Hlim Hlt) as (x & Hx & -> & ->).
  rewrite lookup_drop in Hx. pose proof (list_elem_of_lookup_2 _ _ _ Hx) as Hin.
  rewrite Forall_forall in HF. specialize (HF x Hin).
  unfold afterCursor. replace (0 <? len x.1) with true; cycle 1.
  { symmetry. apply Z.ltb_lt. destruct x.1 as [|b v]; [done|]. rewrite len_cons.
    pose proof (len_nonneg v). lia. }
  change (x.1 ++ x.2) with (pairKey x). rewrite (after_lookup pairKey l _ x HS Hx), drop_drop.
  f_equal. lia.
Qed.

Lemma rangePage_more limit l : ip_more (rangePage limit l) = (limit <? len l).
Proof. unfold rangePage. by destruct (limit <? len l). Qed.

Lemma rangePage_ids limit l :
  0 <= limit -> ip_ids (rangePage limit l) = take (Z.to_nat limit) (map snd l).
Proof.
  intros Hlim. unfold rangePage. destruct (Z.ltb_spec limit (len l)) as [Hlt|Hge]; cbn [ip_ids].
  - by rewrite firstn_map.
  - rewrite take_ge; [done|]. rewrite length_map. unfold len in Hge. lia.
Qed.
