(* ===== verification/ExportFacts.v ===== *)
(** * Export: the documents reach the stream

    [exportDocs] run with a stream beside the host: it reads the store as any
    other operation does, and what it yields are the documents, in order. *)

From S2P Require Import Prelude GoErrors Codec Text Validation Keys Json IndexValue Document Host Crypto.
From S2P Require Import Conn Wp Store StoreRep StoreReads StoreSpec StoreLists Range StoreRange Bulk BulkFacts.

Section Exports.
Context {W : Type} `{CS : ConnSpec W} `{CryptoSpec}.

(** [m] runs where the store holds [c], with the stream [s] beside the host; an
    error is of [E], or a failure outside has left a stream of [F]. *)
Definition exports {A : Type} (c : gmap bytes bytes) (s : bulkStream) (m : M (W * bulkStream) A)
    (P : A -> bulkStream -> Prop) (E : error -> bulkStream -> Prop) (F : bulkStream -> Prop) : Prop :=
  forall w, contents w = c ->
    let '(r, ws) := m (w, s) in
    contents ws.1 = c /\ (faulty w -> faulty ws.1) /\
    match r with
    | Ok a => P a ws.2
    | Err e => (faulty ws.1 /\ outside e /\ F ws.2) \/ E e ws.2
    | OutOfFuel => False
    end.

Lemma exports_bind {A B : Type} c s (m : M (W * bulkStream) A) (k : A -> M (W * bulkStream) B) P P' E F :
  exports c s m P E F -> (forall a s', P a s' -> exports c s' (k a) P' E F) -> exports c s (m ≫= k) P' E F.
Proof.
  intros Hm Hk w Hw. specialize (Hm w Hw). unfold mbind, M_bind.
  destruct (m (w, s)) as [[a|e|] [w1 s1]]; destruct Hm as (Hc1 & Hf1 & Hr1); [|by split_and!..].
  cbn [fst snd] in *. specialize (Hk a s1 Hr1 w1 Hc1). destruct (k a (w1, s1)) as [r ws].
  destruct Hk as (Hc2 & Hf2 & Hr2). split; [done|]. split; [auto|done].
Qed.

Lemma exports_mono {A : Type} c s (m : M (W * bulkStream) A) (P P' : A -> bulkStream -> Prop)
    (E E' : error -> bulkStream -> Prop) (F F' : bulkStream -> Prop) :
  exports c s m P E F -> (forall a s', P a s' -> P' a s') -> (forall e s', E e s' -> E' e s') ->
  (forall s', F s' -> F' s') -> exports c s m P' E' F'.
Proof.
  intros Hm HP HE HF w Hw. specialize (Hm w Hw). destruct (m (w, s)) as [[a|e|] ws];
    destruct Hm as (? & ? & Hr); (split; [done|]); (split; [done|]); naive_solver.
Qed.

Lemma exports_ret {A : Type} c s (a : A) (P : A -> bulkStream -> Prop) (E : error -> bulkStream -> Prop)
    (F : bulkStream -> Prop) : P a s -> exports c s (mret a) P E F.
Proof. by intros HP w Hw. Qed.

(** What only reads the store leaves the stream as it is. *)
Lemma exports_reads {A : Type} c s (m : M (W * bulkStream) A) (P : A -> Prop) (E0 : exits)
    (E : error -> bulkStream -> Prop) (F : bulkStream -> Prop) :
  reads c m P E0 -> keeps m -> F s -> (forall e, E0 (Some e) -> E e s) -> ~ E0 None ->
  exports c s m (fun a s' => P a /\ s' = s) E F.
Proof.
  intros Hm Hk HF HE HN w Hw. specialize (Hm (w, s) Hw). specialize (Hk (w, s)).
  destruct (m (w, s)) as [r [w' s']]. cbn [fst snd] in *. subst s'. destruct Hm as [[Hc Hf] Hr].
  split; [by rewrite <- Hw|]. split; [exact Hf|]. destruct r as [a|e|]; [done| |by apply HN in Hr].
  destruct Hr as [[? ?]|?]; [by left|right; auto].
Qed.

Lemma exports_reads0 {A : Type} c s (m : M (W * bulkStream) A) (P : A -> Prop)
    (E : error -> bulkStream -> Prop) (F : bulkStream -> Prop) :
  reads c m P noExit -> keeps m -> F s -> exports c s m (fun a s' => P a /\ s' = s) E F.
Proof. intros. eapply exports_reads; [done..|by intros ? []|by intros []]. Qed.

Lemma exports_streams {A : Type} c s f (m : M (W * bulkStream) A) (P : A -> bulkStream -> Prop)
    (E : bulkStream -> Prop) (F : bulkStream -> Prop) :
  streams s m P E -> exports c s (onErr f m) P (fun _ s' => ~ reliable W /\ E s') F.
Proof.
  intros Hm w <-. specialize (Hm w). unfold onErr. destruct (m (w, s)) as [[a|e|] ws];
    destruct Hm as (? & ? & ?); split_and!; auto.
Qed.

Lemma exports_deferClose {A : Type} c s (m : M (W * bulkStream) A) (P : A -> bulkStream -> Prop)
    (E : error -> bulkStream -> Prop) (F : bulkStream -> Prop) :
  exports c s m P E F -> (forall a s', P a s' -> F s') ->
  (forall e ce s', E e s' -> outside ce -> E (join e ce) s') -> exports c s (deferClose m) P E F.
Proof.
  intros Hm HPF HE w Hw. specialize (Hm w Hw). unfold deferClose.
  destruct (m (w, s)) as [r [w1 s1]]. destruct Hm as (Hc1 & Hf1 & Hr). cbn [fst snd] in *.
  pose proof (reads_close c (fun _ => True) noExit I (w1, s1) Hc1) as HC.
  pose proof (keeps_close (w1, s1)) as Hk. destruct (close (w1, s1)) as [rc [w2 s2]]. cbn [fst snd] in *. subst s2.
  destruct HC as [[Hc2 Hf2] HC]. change (contents w2 = contents w1) in Hc2. change (faulty w1 -> faulty w2) in Hf2.
  assert (contents w2 = c) as Hc by congruence.
  destruct rc as [u|ce|]; [|destruct HC as [[Hfa Ho]|[]]|done].
  - destruct r as [a|e|]; cbn [fst snd]; split_and!; auto. destruct Hr as [(? & ? & ?)|?]; [left; auto|by right].
  - destruct r as [a|e|]; cbn [fst snd]; split_and!; auto.
    + left. split_and!; [done|auto with goerr|by eapply HPF].
    + destruct Hr as [(? & ? & ?)|?]; [left; split_and!; auto with goerr|right; by apply HE].
Qed.

Lemma exports_snapIter {A : Type} c s sn lo hi (body : iter -> M (W * bulkStream) A)
    (P : A -> bulkStream -> Prop) (E : error -> bulkStream -> Prop) (F : bulkStream -> Prop) :
  snapContents (W := W) sn = c -> F s ->
  (forall it l2, isScan c lo hi (it_entries it ++ l2) -> (it_err it = None -> l2 = []) ->
     (forall e, it_err it = Some e -> foreign e) ->
     exports c s (body it) P (fun e s' => it_err it <> None /\ outside e /\ F s' \/ E e s') F) ->
  exports c s (it ← snapIter (W := W * bulkStream) sn lo hi; body it) P E F.
Proof.
  intros Hsn HF Hbody w Hw. unfold mbind, M_bind, snapIter, onErr, ofSum.
  cbn [snapshotIter besideHost]. unfold beside. cbn [fst snd].
  pose proof (snapshotIter_spec sn lo hi w) as HI. destruct (snapshotIter (W := W) sn lo hi w) as [[e|it] w1].
  - destruct HI as (Hc & Hf & He & Hfa). cbn [fst snd]. split; [congruence|]. split; [done|].
    left. split_and!; auto with goerr.
  - destruct HI as (Hc & Hf & Hit). rewrite Hsn in Hit. destruct (it_err it) as [e|] eqn:Herr.
    + destruct Hit as (Hfe & Hfa & l2 & Hscan). assert (contents w1 = c) as Hw1 by congruence.
      pose proof (Hbody it l2 Hscan ltac:(congruence) ltac:(congruence) w1 Hw1) as Hb.
      destruct (body it (w1, s)) as [r ws]. destruct Hb as (Hc2 & Hf2 & Hr). split; [done|]. split; [auto|].
      destruct r as [a|e'|]; [done| |done]. destruct Hr as [Hr|[(_ & Ho & HF')|He]]; [by left|left; auto|by right].
    + assert (contents w1 = c) as Hw1 by congruence. rewrite <- (app_nil_r (it_entries it)) in Hit.
      pose proof (Hbody it [] Hit ltac:(done) ltac:(congruence) w1 Hw1) as Hb.
      destruct (body it (w1, s)) as [r ws]. destruct Hb as (Hc2 & Hf2 & Hr). split; [done|]. split; [auto|].
      destruct r as [a|e'|]; [done| |done]. destruct Hr as [Hr|[(Hn & _)|He]]; [by left|congruence|by right].
Qed.
End Exports.

(** ** The documents of a database *)

(** The stored documents, in the order of their IDs. *)
Definition exportedDocs (d : ldb) : list bytes :=
  omap (fun id => sd_json <$> ldb_docs d !! id) (sortedKeys (ldb_docs d)).

(** A part of the export has been sent, or nothing yet. *)
Definition sentPart (out : bytes) (s : bulkStream) : Prop :=
  (exists rest, out = bs_written s ++ rest) /\ (bs_started s = false -> bs_written s = []).

Lemma exportBytes_app l1 l2 : exportBytes (l1 ++ l2) = exportBytes l1 ++ exportBytes l2.
Proof. unfold exportBytes. by rewrite map_app, concat_app. Qed.

Lemma holdsExport_part documents s out : holdsExport documents s -> sentPart (exportBytes documents ++ out) s.
Proof.
  intros (Hs & _ & Hst). split.
  - exists (bs_buffered s ++ out). rewrite <- Hs. unfold sent. by rewrite <- app_assoc.
  - rewrite Hst. case_bool_decide as E; [|done]. intros _. subst documents. unfold sent in Hs.
    by apply app_nil in Hs as [? _].
Qed.

Section ExportDocs.
Context {W : Type} `{CS : ConnSpec W} `{CryptoSpec}.
Context (wk : storeKey) (c : gmap bytes bytes) (a : astate) (Hrep : store_rep wk c a).

Lemma keeps_lookupKey k : keeps (lookupKey (W := W * bulkStream) k).
Proof.
  unfold lookupKey. apply keeps_bind; [by auto with keeps|]. intros [e|v]; [|by auto with keeps].
  destruct (errorsIs pebbleErrNotFound e); by auto with keeps.
Qed.

Lemma keeps_databaseKey n : keeps (databaseKey (W := W * bulkStream) wk n).
Proof.
  apply keeps_bind; [apply keeps_lookupKey|]. intros [v|]; [|by auto with keeps].
  apply keeps_deferClose. destruct (unwrapDBKey _ _ _); by auto with keeps.
Qed.

Lemma keeps_iterError it rest : keeps (iterError (W := W * bulkStream) it rest).
Proof. unfold iterError. destruct rest; [|by auto with keeps]. destruct (it_err it); by auto with keeps. Qed.

Lemma exports_loop ctx n d xs done_ s out :
  a !! n = Some d -> Forall (goodDoc n d) xs -> holdsExport done_ s ->
  let full := exportBytes (done_ ++ omap (fun x => sd_json <$> ldb_docs d !! x.1) xs) ++ out in
  exports c s (exportDocs_loop ctx (docsPrefix n) (ldb_key d) streamWrite (map (docEntry n) xs))
    (fun _ s' => holdsExport (done_ ++ omap (fun x => sd_json <$> ldb_docs d !! x.1) xs) s')
    (fun _ s' => ~ reliable W /\ cutOff full s') (sentPart full).
Proof.
  intros Hd HF. revert done_ s. induction HF as [|x xs Hx HF IH]; intros done_ s Hs; cbv zeta.
  { cbn [map exportDocs_loop omap list_omap]. rewrite app_nil_r. by apply exports_ret. }
  destruct Hx as (doc & Hdoc & Ho & Hid & _). cbn [omap list_omap]. rewrite Hdoc. cbn [fmap option_fmap option_map].
  rewrite cons_middle, app_assoc. cbn [map exportDocs_loop docEntry].
  set (docs := omap _ xs) in *.
  assert (forall s', holdsExport done_ s' -> sentPart (exportBytes ((done_ ++ [sd_json doc]) ++ docs) ++ out) s') as Hpart.
  { intros s' Hs'. rewrite <- app_assoc, exportBytes_app, <- app_assoc. by apply holdsExport_part. }
  eapply exports_bind.
  { apply (exports_reads0 c s _ (fun _ => True)); [apply reads_ctxErr|by auto with keeps|by apply Hpart]. }
  intros _ ? [_ ->]. unfold docKey. rewrite drop_app_length, Hid. cbn [is_ok negb].
  change (docsPrefix n ++ x.1) with (docKey n x.1). rewrite Ho. eapply exports_bind.
  { apply (exports_reads0 c s _ (fun y => y = doc)); [by apply (reads_onErr_lift c wrapf (Ok doc))| |by apply Hpart].
    apply keeps_onErr, keeps_lift. }
  intros ? ? [-> ->]. eapply exports_bind.
  { apply exports_streams. rewrite exportBytes_app, <- app_assoc. by apply streams_streamWrite. }
  intros [] s' Hs'. apply (IH (done_ ++ [sd_json doc]) s' Hs').
Qed.

Lemma exports_exportDocs ctx n :
  validName n ->
  exports c newBulkStream (exportDocs wk ctx n streamWrite)
    (fun _ s => exists d, a !! n = Some d /\ holdsExport (exportedDocs d) s)
    (fun e s => e = errDBNotFound /\ a !! n = None /\ s = newBulkStream \/
                exists d, a !! n = Some d /\ ~ reliable W /\ cutOff (exportBytes (exportedDocs d)) s)
    (fun s => s = newBulkStream \/ exists d, a !! n = Some d /\ sentPart (exportBytes (exportedDocs d)) s).
Proof.
  intros Hn. unfold exportDocs. eapply exports_bind.
  { eapply exports_reads; [by apply (reads_databaseKey wk c a Hrep)|apply keeps_databaseKey|by left| |by intros [??]].
    intros e [[= ->] ?]. by left. }
  intros ? ? [(d & Hd & ->) ->]. eapply exports_bind.
  { eapply exports_reads0; [apply reads_newSnapshot|by auto with keeps|by left]. }
  intros sn ? [Hsn ->]. set (full := exportBytes (exportedDocs d)).
  eapply (exports_mono c _ _ (fun _ s => holdsExport (exportedDocs d) s) _ (fun _ s' => ~ reliable W /\ cutOff full s') _ (sentPart full));
    [|by intros _ s' ?; exists d|by intros e s' ?; right; exists d|by intros s' ?; right; exists d].
  assert (forall s', holdsExport (exportedDocs d) s' -> sentPart full s') as Hfull.
  { intros s' Hs'. unfold full. rewrite <- (app_nil_r (exportBytes _)). by apply holdsExport_part. }
  apply exports_deferClose; [|by intros _ s' ?; apply Hfull|done]. cbv zeta.
  assert (sentPart full newBulkStream) as Hnew by (split; [by exists full|done]).
  apply exports_snapIter; [done|done|]. intros it l2 Hscan Hnone Hfe.
  apply exports_deferClose;
    [|by intros _ s' ?; apply Hfull|intros e ce s' [(? & ? & ?)|?] ?; [left; split_and!; auto with goerr|by right]].
  destruct (scan_docs wk c a Hrep n d _ Hd Hscan) as (xs & Hl & Hkeys & HF).
  apply map_app_inv in Hl as (xs1 & xs2 & Hl1 & Hl2 & ->). apply Forall_app in HF as [HF _].
  rewrite Hl1.
  assert (exportedDocs d = omap (fun x => sd_json <$> ldb_docs d !! x.1) xs1
          ++ omap (fun x => sd_json <$> ldb_docs d !! x.1) xs2) as Hdocs.
  { unfold exportedDocs. rewrite <- Hkeys, <- omap_app. clear. by induction (xs1 ++ xs2) as [|x l IH]; [|csimpl; rewrite IH]. }
  apply exports_bind with (P := fun _ s' => holdsExport ([] ++ omap (fun x => sd_json <$> ldb_docs d !! x.1) xs1) s').
  { eapply exports_mono; [apply (exports_loop ctx n d xs1 [] newBulkStream
      (exportBytes (omap (fun x => sd_json <$> ldb_docs d !! x.1) xs2)) Hd HF); by split_and!| | |].
    - intros [] s' Hs'. exact Hs'.
    - intros e s'. cbn [app]. rewrite <- exportBytes_app, <- Hdocs. intros ?. by right.
    - intros s'. cbn [app]. by rewrite <- exportBytes_app, <- Hdocs. }
  intros [] s' Hs'. cbn [app] in Hs'.
  assert (sentPart full s') as Hps by (unfold full; rewrite Hdocs, exportBytes_app; by apply holdsExport_part).
  destruct (it_err it) as [e|] eqn:Herr.
  - eapply exports_mono; [eapply (exports_reads c s' _ (fun _ => False) outsideExit
      (fun e' s2 => outside e' /\ s2 = s') (sentPart full))| | |done].
    + apply (reads_iterError_bad c it e (fun _ => False) Herr); by apply Hfe.
    + apply keeps_iterError.
    + done.
    + intros e' (? & [= <-] & ?). by split.
    + by intros (? & ? & _).
    + by intros ? ? [? _].
    + intros e' ? [? ->]. by left.
  - eapply exports_mono; [apply (exports_reads0 c s' _ (fun _ => True) (fun _ _ => False) (sentPart full))| | |];
      [by apply reads_iterError_ok|apply keeps_iterError|exact Hps| |by intros ? ? []|done].
    intros [] ? [_ ->]. rewrite (Hnone eq_refl) in Hl2. destruct xs2; [|done].
    cbn [omap list_omap] in Hdocs. rewrite app_nil_r in Hdocs. by rewrite Hdocs.
Qed.
End ExportDocs.
