(* ===== verification/Cursor.v ===== *)
(** * Query cursors

    The encrypted cursors of query_cursor.go and path_cursor.go: the position of a
    query and the query itself, sealed under a key of the database, so that a
    client can only hand back what it was given. *)

From S2P Require Import Prelude GoErrors Codec Text Base64 Validation Keys IndexValue Host Crypto Wp.
From S2P Require Import Store Range.

(** ** Sealed tokens

    What the two kinds of cursor share: the cursor's bytes are sealed under a
    fresh nonce and written in base64. *)

Section Tokens.
Context {W : Type} `{Host W} `{Crypto}.

Definition sealToken (box data : bytes) : M W bytes :=
  nonce ← rand 12;
  mret (b64encode (nonce ++ gcmSeal box nonce data [])).

(** The bytes of a token, without the version they start with. *)
Definition openToken (version : byte) (maxSize : Z) (box token : bytes) : option bytes :=
  let maxEncrypted := maxSize + 12 + 16 in
  if (len token =? 0) || (b64encodedLen maxEncrypted <? len token) then None
  else
    sealed ← b64decode token;
    if negb (bool_decide (b64encode sealed = token)) || (maxEncrypted <? len sealed) then None
    else if len sealed <? 12 + 16 then None
    else
      data ← gcmOpen box (take 12 sealed) (drop 12 sealed) [];
      match data with
      | v :: rest => if (maxSize <? len data) || negb (beqb v version) then None else Some rest
      | [] => None
      end.
End Tokens.

(** [newQueryCipher] is [newGCM] with other error texts. *)
Definition newQueryCipher (key : bytes) : res bytes := newGCM key.

(** ** Cursors of index queries (query_cursor.go) *)

Record queryCursor := QueryCursor {
  qc_database : bytes;
  qc_index : bytes;
  qc_op : cmpOp;
  qc_value : bytes;
  qc_lastValue : bytes;
  qc_id : bytes;
}.

Definition queryCursorVersion : byte := x03.
Definition maxQueryCursorSize : Z :=
  1 + 10 + 63 + 10 + 63 + 1 + 10 + maxEncodedIndexValue + 10 + maxEncodedIndexValue + 10 + 36.
Definition maxEncryptedQueryCursorSize : Z := maxQueryCursorSize + 12 + 16.

(** The value and the last value fit the operator. *)
Definition lastValueFits (op : cmpOp) (value lastValue : bytes) : bool :=
  if beqb op cmpEq && negb (len lastValue =? 0) then false
  else if negb (beqb op cmpEq)
          && (negb (validIndexValue lastValue) || negb (beqb (at_ lastValue 0) (at_ value 0)))
  then false
  else true.

Definition validateQueryCursor (cursor : queryCursor) : res unit :=
  if negb (is_ok (validateName (qc_database cursor))) || negb (is_ok (validateName (qc_index cursor)))
     || negb (opValid (qc_op cursor)) || negb (validIndexValue (qc_value cursor))
     || negb (is_ok (validateID (qc_id cursor)))
  then Err errInvalidQueryCursor
  else if lastValueFits (qc_op cursor) (qc_value cursor) (qc_lastValue cursor) then Ok ()
  else Err errInvalidQueryCursor.

Definition queryCursorData (cursor : queryCursor) : bytes :=
  let data := [queryCursorVersion] in
  let data := appendPart data (qc_database cursor) in
  let data := appendPart data (qc_index cursor) in
  let data := data ++ [qc_op cursor] in
  let data := appendPart data (qc_value cursor) in
  let data := appendPart data (qc_lastValue cursor) in
  appendPart data (qc_id cursor).

Definition parseQueryCursor (rest : bytes) : option queryCursor :=
  '(database, rest) ← readPart rest;
  '(index, rest) ← readPart rest;
  match rest with
  | [] => None
  | op :: rest =>
      '(value, rest) ← readPart rest;
      '(lastValue, rest) ← readPart rest;
      '(id, rest) ← readPart rest;
      if negb (len rest =? 0) then None
      else Some (QueryCursor database index op value lastValue id)
  end.

Section QueryCursors.
Context {W : Type} `{Host W} `{Crypto}.

Definition encodeQueryCursor (box : bytes) (cursor : queryCursor) : M W bytes :=
  match validateQueryCursor cursor with
  | Ok _ => sealToken box (queryCursorData cursor)
  | _ => throw errInvalidQueryCursor
  end.

Definition decodeQueryCursor (box token : bytes) : res queryCursor :=
  match rest ← openToken queryCursorVersion maxQueryCursorSize box token; parseQueryCursor rest with
  | None => Err errInvalidQueryCursor
  | Some cursor => _ ← validateQueryCursor cursor; Ok cursor
  end.
End QueryCursors.

(** ** Cursors of path queries (path_cursor.go) *)

Definition queryMethod : bytes := str "QUERY".

Definition pathDialect : Type := byte.
Definition dialectJSONPath : pathDialect := x01.
Definition pathOrder : Type := byte.
Definition orderDocument : pathOrder := x01.
Definition orderIndex : pathOrder := x02.

Record pathCursor := PathCursor {
  pc_method : bytes;
  pc_dialect : pathDialect;
  pc_order : pathOrder;
  pc_database : bytes;
  pc_pathHash : bytes;
  pc_index : bytes;
  pc_op : cmpOp;
  pc_value : bytes;
  pc_lastValue : bytes;
  pc_id : bytes;
}.

Definition pathCursorVersion : byte := x02.
Definition sha256Size : Z := 32.
Definition maxPathCursorSize : Z :=
  1 + 10 + len queryMethod + 1 + 1 + 10 + 63 + 10 + sha256Size + 10 + 63 + 1 + 10
    + maxEncodedIndexValue + 10 + maxEncodedIndexValue + 10 + 36.
Definition maxEncryptedPathCursorSize : Z := maxPathCursorSize + 12 + 16.

Definition validatePathCursor (cursor : pathCursor) : res unit :=
  if negb (bool_decide (pc_method cursor = queryMethod)) || negb (beqb (pc_dialect cursor) dialectJSONPath)
     || negb (beqb (pc_order cursor) orderDocument) && negb (beqb (pc_order cursor) orderIndex)
  then Err errInvalidQueryCursor
  else if negb (is_ok (validateName (pc_database cursor))) then Err errInvalidQueryCursor
  else if negb (opValid (pc_op cursor)) || negb (validIndexValue (pc_value cursor))
          || negb (is_ok (validateID (pc_id cursor)))
  then Err errInvalidQueryCursor
  else if beqb (pc_order cursor) orderDocument then
    if negb (len (pc_index cursor) =? 0) || negb (len (pc_lastValue cursor) =? 0)
    then Err errInvalidQueryCursor else Ok ()
  else if negb (is_ok (validateName (pc_index cursor))) then Err errInvalidQueryCursor
  else if lastValueFits (pc_op cursor) (pc_value cursor) (pc_lastValue cursor) then Ok ()
  else Err errInvalidQueryCursor.

Definition pathCursorData (cursor : pathCursor) : bytes :=
  let data := [pathCursorVersion] in
  let data := appendPart data (pc_method cursor) in
  let data := data ++ [pc_dialect cursor; pc_order cursor] in
  let data := appendPart data (pc_database cursor) in
  let data := appendPart data (pc_pathHash cursor) in
  let data := appendPart data (pc_index cursor) in
  let data := data ++ [pc_op cursor] in
  let data := appendPart data (pc_value cursor) in
  let data := appendPart data (pc_lastValue cursor) in
  appendPart data (pc_id cursor).

Definition parsePathCursor (rest : bytes) : option pathCursor :=
  '(method, rest) ← readPart rest;
  match rest with
  | dialect :: order :: rest =>
      '(database, rest) ← readPart rest;
      '(hash, rest) ← readPart rest;
      if negb (len hash =? sha256Size) then None
      else
        '(index, rest) ← readPart rest;
        match rest with
        | [] => None
        | op :: rest =>
            '(value, rest) ← readPart rest;
            '(lastValue, rest) ← readPart rest;
            '(id, rest) ← readPart rest;
            if negb (len rest =? 0) then None
            else Some (PathCursor method dialect order database hash index op value lastValue id)
        end
  | _ => None
  end.

Section PathCursors.
Context {W : Type} `{Host W} `{Crypto}.

Definition encodePathCursor (box : bytes) (cursor : pathCursor) : M W bytes :=
  match validatePathCursor cursor with
  | Ok _ => sealToken box (pathCursorData cursor)
  | _ => throw errInvalidQueryCursor
  end.

Definition decodePathCursor (box token : bytes) : res pathCursor :=
  match rest ← openToken pathCursorVersion maxPathCursorSize box token; parsePathCursor rest with
  | None => Err errInvalidQueryCursor
  | Some cursor =>
      match validatePathCursor cursor with
      | Ok _ => Ok cursor
      | _ => Err errInvalidQueryCursor
      end
  end.

Definition pathHash (path : bytes) : bytes := sha256 path.
End PathCursors.

(** ** Round trips *)

Lemma len_appendPart p : len (appendPart [] p) <= 10 + len p.
Proof.
  unfold appendPart, appendUvarint. rewrite app_nil_l, len_app.
  pose proof (length_appendUvarint_loop 9 (len p)). lia.
Qed.

Lemma queryCursorData_app c :
  queryCursorData c
  = queryCursorVersion :: appendPart [] (qc_database c) ++ appendPart [] (qc_index c) ++ qc_op c
      :: appendPart [] (qc_value c) ++ appendPart [] (qc_lastValue c) ++ appendPart [] (qc_id c).
Proof.
  unfold queryCursorData. rewrite (appendPart_app _ (qc_id c)), (appendPart_app _ (qc_lastValue c)),
    (appendPart_app _ (qc_value c)), (appendPart_app _ (qc_index c)), (appendPart_app _ (qc_database c)).
  by rewrite <- !app_assoc.
Qed.

Lemma pathCursorData_app c :
  pathCursorData c
  = pathCursorVersion :: appendPart [] (pc_method c) ++ pc_dialect c :: pc_order c
      :: appendPart [] (pc_database c) ++ appendPart [] (pc_pathHash c) ++ appendPart [] (pc_index c)
      ++ pc_op c :: appendPart [] (pc_value c) ++ appendPart [] (pc_lastValue c)
      ++ appendPart [] (pc_id c).
Proof.
  unfold pathCursorData. rewrite (appendPart_app _ (pc_id c)), (appendPart_app _ (pc_lastValue c)),
    (appendPart_app _ (pc_value c)), (appendPart_app _ (pc_index c)), (appendPart_app _ (pc_pathHash c)),
    (appendPart_app _ (pc_database c)), (appendPart_app _ (pc_method c)).
  by rewrite <- !app_assoc.
Qed.

Lemma readPart_last part : slice_len part -> readPart (appendPart [] part) = Some (part, []).
Proof. intros Hs. rewrite <- (app_nil_r (appendPart [] part)). by apply readPart_appendPart. Qed.

(** The bounds that make a field a slice and a cursor short. *)
Lemma validateName_len n : is_ok (validateName n) = true -> len n <= 63.
Proof.
  unfold validateName. destruct n as [|c n]; [done|]. destruct (Z.ltb_spec 63 (len (c :: n))); [done|lia].
Qed.

Lemma validateID_len id : is_ok (validateID id) = true -> len id = 36.
Proof.
  destruct (validateID id) as [[]|e|] eqn:E; try done. intros _. unfold len.
  by rewrite (validID_length id E).
Qed.

Lemma validIndexValue_len v : validIndexValue v = true -> len v <= maxEncodedIndexValue.
Proof.
  unfold validIndexValue. destruct v as [|t v]; [done|].
  destruct (Z.ltb_spec maxEncodedIndexValue (len (t :: v))); [done|]. lia.
Qed.

Lemma lastValueFits_len op v lv :
  lastValueFits op v lv = true -> len lv <= maxEncodedIndexValue.
Proof.
  unfold lastValueFits. destruct (beqb op cmpEq); cbn [andb negb].
  - destruct (Z.eqb_spec (len lv) 0) as [->|]; [|done]. unfold maxEncodedIndexValue, maxIndexValue. lia.
  - destruct (validIndexValue lv) eqn:Hv; [|done]. intros _. by apply validIndexValue_len.
Qed.

Lemma slice_small l : len l <= 100000 -> slice_len l.
Proof. unfold slice_len. lia. Qed.

Record cursorBounds (db idx v lv id : bytes) : Prop := {
  cb_db : len db <= 63;
  cb_idx : len idx <= 63;
  cb_v : len v <= maxEncodedIndexValue;
  cb_lv : len lv <= maxEncodedIndexValue;
  cb_id : len id = 36;
}.

Lemma validateQueryCursor_bounds c : validateQueryCursor c = Ok () ->
  cursorBounds (qc_database c) (qc_index c) (qc_value c) (qc_lastValue c) (qc_id c).
Proof.
  unfold validateQueryCursor. destruct (_ || _) eqn:E; [done|]. destruct (lastValueFits _ _ _) eqn:El; [|done].
  intros _. rewrite !orb_false_iff, !negb_false_iff in E. destruct E as [[[[? ?] ?] ?] ?].
  split; [by apply validateName_len..|by apply validIndexValue_len| |by apply validateID_len].
  by eapply lastValueFits_len.
Qed.

Lemma validatePathCursor_bounds c : validatePathCursor c = Ok () ->
  cursorBounds (pc_database c) (pc_index c) (pc_value c) (pc_lastValue c) (pc_id c) /\
  pc_method c = queryMethod.
Proof.
  unfold validatePathCursor. destruct (_ || _) eqn:E1; [done|].
  destruct (is_ok (validateName (pc_database c))) eqn:E2; [|done]. cbn [negb].
  destruct (_ || _) eqn:E3 in |- *; [done|]. rewrite !orb_false_iff, !negb_false_iff in E1, E3.
  destruct E1 as [[Em _] _], E3 as [[_ Ev] Eid]. apply bool_decide_eq_true in Em.
  apply negb_false_iff in Eid.
  pose proof (validateName_len _ E2). pose proof (validIndexValue_len _ Ev). pose proof (validateID_len _ Eid).
  destruct (beqb (pc_order c) orderDocument).
  - destruct (_ || _) eqn:E4; [done|]. rewrite orb_false_iff, !negb_false_iff, !Z.eqb_eq in E4.
    destruct E4 as [E4 E5]. intros _. split; [|done]. split; try done; rewrite ?E4, ?E5;
      unfold maxEncodedIndexValue, maxIndexValue; lia.
  - destruct (is_ok (validateName (pc_index c))) eqn:E4; [|done]. cbn [negb].
    destruct (lastValueFits _ _ _) eqn:El; [|done]. intros _. split; [|done].
    split; try done; [by apply validateName_len|by eapply lastValueFits_len].
Qed.

Section Tokens.
Context {W : Type} `{HS : HostSpec W} `{CS : CryptoSpec}.

Lemma openToken_sealed version maxSize box nonce rest :
  len box = keySize -> length nonce = 12%nat -> len (version :: rest) <= maxSize ->
  openToken version maxSize box (b64encode (nonce ++ gcmSeal box nonce (version :: rest) [])) = Some rest.
Proof.
  intros Hb Hn Hl. unfold openToken. set (sealed := nonce ++ gcmSeal box nonce (version :: rest) []).
  pose proof (len_nonneg rest) as Hr0. rewrite len_cons in Hl.
  assert (len sealed = 12 + (1 + len rest + 16)) as Hs.
  { unfold sealed. rewrite len_app, len_gcmSeal, len_cons. unfold len at 1. rewrite Hn.
    unfold gcmTagLen. lia. }
  rewrite len_b64encode, b64decode_encode. cbn [mbind option_bind]. rewrite bool_decide_eq_true_2 by done.
  replace (b64encodedLen (len sealed) =? 0) with false; cycle 1.
  { symmetry. apply Z.eqb_neq. unfold b64encodedLen. Z.to_euclidean_division_equations. lia. }
  replace (b64encodedLen (maxSize + 12 + 16) <? b64encodedLen (len sealed)) with false; cycle 1.
  { symmetry. apply Z.ltb_ge, b64encodedLen_mono. lia. }
  replace (maxSize + 12 + 16 <? len sealed) with false by (symmetry; apply Z.ltb_ge; lia).
  replace (len sealed <? 12 + 16) with false by (symmetry; apply Z.ltb_ge; lia).
  cbn [orb negb]. unfold sealed. rewrite take_app_len, drop_app_len by done.
  rewrite gcmOpen_gcmSeal; [|by apply aesKeyLen_32|unfold len; by rewrite Hn].
  cbn [mbind option_bind]. rewrite len_cons, beqb_refl.
  by replace (maxSize <? 1 + len rest) with false by (symmetry; apply Z.ltb_ge; lia).
Qed.

Lemma reads_sealToken c version maxSize box rest (E : exits) :
  len box = keySize -> len (version :: rest) <= maxSize ->
  reads c (sealToken box (version :: rest))
    (fun token => openToken version maxSize box token = Some rest) E.
Proof.
  intros Hb Hl. unfold sealToken. eapply reads_bind; [apply reads_rand|]. intros nonce Hn.
  apply reads_ret. by apply openToken_sealed.
Qed.

(** A token that opens is a box sealed under the key. *)
Lemma openToken_inv version maxSize box token rest :
  openToken version maxSize box token = Some rest ->
  exists nonce, len nonce = 12 /\
    token = b64encode (nonce ++ gcmSeal box nonce (version :: rest) []).
Proof.
  unfold openToken. destruct (_ || _); [done|].
  destruct (b64decode token) as [sealed|]; [|done]. cbn [mbind option_bind].
  destruct (bool_decide_reflect (b64encode sealed = token)) as [Et|]; [|done]. cbn [negb orb].
  destruct (_ <? len sealed); [done|]. destruct (Z.ltb_spec (len sealed) (12 + 16)); [done|].
  destruct (gcmOpen _ _ _ _) as [data|] eqn:Ho; [|done]. cbn [mbind option_bind].
  destruct data as [|v rest']; [done|]. destruct (_ <? len (v :: rest')); [done|]. cbn [orb].
  destruct (beqb v version) eqn:Hv; [|done]. cbn [negb]. intros [= ->]. apply beqb_eq in Hv as ->.
  exists (take 12 sealed). apply gcmOpen_inv in Ho. split.
  - unfold len in *. rewrite length_take. lia.
  - rewrite <- Et, <- Ho. by rewrite take_drop.
Qed.

Lemma parseQueryCursor_data c : validateQueryCursor c = Ok () ->
  exists rest, queryCursorData c = queryCursorVersion :: rest /\ parseQueryCursor rest = Some c /\
    len (queryCursorVersion :: rest) <= maxQueryCursorSize.
Proof.
  intros Hv. pose proof (validateQueryCursor_bounds c Hv) as [H1 H2 H3 H4 H5].
  eexists. split; [apply queryCursorData_app|].
  unfold maxEncodedIndexValue, maxIndexValue in *. split.
  - unfold parseQueryCursor. do 5 (rewrite ?readPart_appendPart, ?readPart_last by (apply slice_small; lia);
      cbn [mbind option_bind]). by destruct c.
  - rewrite !len_cons, !len_app, !len_cons, !len_app. unfold maxQueryCursorSize, maxEncodedIndexValue, maxIndexValue.
    pose proof (len_appendPart (qc_database c)). pose proof (len_appendPart (qc_index c)).
    pose proof (len_appendPart (qc_value c)). pose proof (len_appendPart (qc_lastValue c)).
    pose proof (len_appendPart (qc_id c)). lia.
Qed.

Lemma parsePathCursor_data c : validatePathCursor c = Ok () -> len (pc_pathHash c) = sha256Size ->
  exists rest, pathCursorData c = pathCursorVersion :: rest /\ parsePathCursor rest = Some c /\
    len (pathCursorVersion :: rest) <= maxPathCursorSize.
Proof.
  intros Hv Hh. pose proof (validatePathCursor_bounds c Hv) as [[H1 H2 H3 H4 H5] Hm].
  eexists. split; [apply pathCursorData_app|].
  assert (len (pc_method c) = 5) as Hml by (by rewrite Hm).
  unfold maxEncodedIndexValue, maxIndexValue, sha256Size in *. split.
  - unfold parsePathCursor. do 8 (rewrite ?readPart_appendPart, ?readPart_last by (apply slice_small; lia);
      cbn [mbind option_bind]; rewrite ?Hh; cbn [negb]). by destruct c.
  - rewrite !len_cons, !len_app, !len_cons, !len_app, !len_cons, !len_app.
    unfold maxPathCursorSize, maxEncodedIndexValue, maxIndexValue, sha256Size.
    change (len queryMethod) with 5.
    pose proof (len_appendPart (pc_method c)). pose proof (len_appendPart (pc_database c)).
    pose proof (len_appendPart (pc_pathHash c)). pose proof (len_appendPart (pc_index c)).
    pose proof (len_appendPart (pc_value c)). pose proof (len_appendPart (pc_lastValue c)).
    pose proof (len_appendPart (pc_id c)). lia.
Qed.

Lemma reads_encodeQueryCursor c box cursor (E : exits) :
  len box = keySize -> validateQueryCursor cursor = Ok () ->
  reads c (encodeQueryCursor box cursor) (fun token => decodeQueryCursor box token = Ok cursor) E.
Proof.
  intros Hb Hv. unfold encodeQueryCursor. rewrite Hv.
  destruct (parseQueryCursor_data cursor Hv) as (rest & -> & Hp & Hl).
  eapply reads_mono; [by apply reads_sealToken with (E := E)| |done].
  intros token Ht. unfold decodeQueryCursor. rewrite Ht. cbn [mbind option_bind]. rewrite Hp.
  cbn [mbind res_bind]. by rewrite Hv.
Qed.

Lemma reads_encodePathCursor c box cursor (E : exits) :
  len box = keySize -> validatePathCursor cursor = Ok () -> len (pc_pathHash cursor) = sha256Size ->
  reads c (encodePathCursor box cursor) (fun token => decodePathCursor box token = Ok cursor) E.
Proof.
  intros Hb Hv Hh. unfold encodePathCursor. rewrite Hv.
  destruct (parsePathCursor_data cursor Hv Hh) as (rest & -> & Hp & Hl).
  eapply reads_mono; [by apply reads_sealToken with (E := E)| |done].
  intros token Ht. unfold decodePathCursor. rewrite Ht. cbn [mbind option_bind]. rewrite Hp.
  by rewrite Hv.
Qed.

Lemma validateQueryCursor_cases c :
  validateQueryCursor c = Ok () \/ validateQueryCursor c = Err errInvalidQueryCursor.
Proof. unfold validateQueryCursor. repeat case_match; auto. Qed.

Lemma validatePathCursor_cases c :
  validatePathCursor c = Ok () \/ validatePathCursor c = Err errInvalidQueryCursor.
Proof. unfold validatePathCursor. repeat case_match; auto. Qed.
End Tokens.
