(* ===== verification/Query.v ===== *)
(** * Path queries

    The QUERY method of query.go: the body of a request, the plan for its
    JSONPath, and its execution over an index or over the documents.  The JSONPath
    library is an interface. *)

From S2P Require Import Prelude GoErrors Codec Text Base64 Validation Keys Number Json IndexValue.
From S2P Require Import Document Host Crypto Store Range Cursor.

Definition maxQueryBody : Z := 64 * 2 ^ 10.
Definition maxQueryPath : Z := 256.
Definition maxPathDepth : Z := 16.
Definition maxPathSegments : Z := 32.
Definition maxQueryNodes : Z := 1000000.
Definition maxScanDocs : Z := 10000.
Definition defaultListLimit : Z := 100.
Definition maxListLimit : Z := 1000.

(** ** The JSONPath library *)

Inductive selector :=
  | SelName (name : bytes)
  | SelIndex (index : Z)
  | SelOther.

Record segment := Segment {
  seg_descendant : bool;
  seg_selectors : list selector;
}.

Class JSONPath := {
  jpath : Type;
  jpParse : bytes -> error + jpath;
  jpString : jpath -> bytes;
  jpSegments : jpath -> list segment;
  jpSelect : jpath -> json -> list json;
}.

(** ** The body of a query *)

Record pathQuery := PathQuery {
  pq_path : bytes;
  pq_value : json;
  pq_cursor : bytes;
  pq_op : cmpOp;
  pq_limit : Z;
}.

Definition parseCmpOp (raw : bytes) : cmpOp * bool :=
  if bool_decide (raw = str "eq") then (cmpEq, true)
  else if bool_decide (raw = str "lt") then (cmpLT, true)
  else if bool_decide (raw = str "le") then (cmpLE, true)
  else if bool_decide (raw = str "gt") then (cmpGT, true)
  else if bool_decide (raw = str "ge") then (cmpGE, true)
  else (cmpEq, false).

(** The members of an object as [Token], [More] and [Decode] deliver them, in
    order and with repetitions, up to the closing brace; [first] until a member
    has been read. *)
Fixpoint readFields (fuel : nat) (first : bool) (s : bytes) : option (list (bytes * json) * bytes) :=
  match fuel with
  | O => None
  | S f =>
      match skipSpace s with
      | [] => None
      | c :: r =>
          if beqb c "}" then Some ([], r)
          else
            let key := if first then c :: r else if beqb c "," then skipSpace r else [] in
            match key with
            | q :: s1 =>
                if beqb q x22 then
                  '(name, s2) ← readString (length key) s1;
                  match skipSpace s2 with
                  | colon :: s3 =>
                      if beqb colon ":" then
                        '(v, s4) ← decodeJSON s3;
                        '(fields, rest) ← readFields f false s4;
                        Some ((name, v) :: fields, rest)
                      else None
                  | [] => None
                  end
                else None
            | [] => None
            end
      end
  end.

(** [decoder.Decode] into a string and into an int: [null] leaves them as they
    are. *)
Definition decodeStr (v : json) (old : bytes) : option bytes :=
  match v with JStr s => Some s | JNull => Some old | _ => None end.

Definition decodeInt (v : json) (old : Z) : option Z :=
  match v with JNum lit => atoi lit | JNull => Some old | _ => None end.

Definition setField (query : pathQuery) (name : bytes) (v : json) : option pathQuery :=
  let 'PathQuery path value cursor op limit := query in
  if bool_decide (name = str "path") then
    path' ← decodeStr v path; Some (PathQuery path' value cursor op limit)
  else if bool_decide (name = str "op") then
    raw ← decodeStr v [];
    let '(op', ok) := parseCmpOp raw in
    if ok then Some (PathQuery path value cursor op' limit) else None
  else if bool_decide (name = str "value") then Some (PathQuery path v cursor op limit)
  else if bool_decide (name = str "limit") then
    limit' ← decodeInt v limit; Some (PathQuery path value cursor op limit')
  else if bool_decide (name = str "cursor") then
    cursor' ← decodeStr v cursor; Some (PathQuery path value cursor' op limit)
  else None.

Fixpoint setFields (query : pathQuery) (seen : list bytes) (fields : list (bytes * json))
    : option (pathQuery * list bytes) :=
  match fields with
  | [] => Some (query, seen)
  | (name, v) :: fields' =>
      if decide (name ∈ seen) then None
      else query' ← setField query name v; setFields query' (name :: seen) fields'
  end.

(** A number or a string, the values that are ordered. *)
Definition isOrdered (v : json) : bool := match v with JNum _ | JStr _ => true | _ => false end.

Definition decodePathQuery (body : bytes) : res pathQuery :=
  match skipSpace body with
  | c :: s =>
      if negb (beqb c "{") then Err EText
      else
        match readFields (S (length s)) true s with
        | None => Err EText
        | Some (fields, rest) =>
            match setFields (PathQuery [] JNull [] cmpEq defaultListLimit) [] fields with
            | None => Err EText
            | Some (query, seen) =>
                if negb (atEOF rest) then Err EText
                else if negb (bool_decide (str "path" ∈ seen)) || negb (bool_decide (str "value" ∈ seen))
                        || (len (pq_path query) =? 0) then Err EText
                else if (pq_limit query <? 1) || (maxListLimit <? pq_limit query) then Err EText
                else if negb (isScalar (pq_value query)) then Err EText
                else if negb (beqb (pq_op query) cmpEq) && negb (isOrdered (pq_value query)) then Err EText
                else Ok query
            end
        end
  | [] => Err EText
  end.

(** ** Paths *)

(** One character of a path outside or inside a quoted name. *)
Definition quoteStep (quote : option byte) (escaped : bool) (char : byte) : option (option byte * bool) :=
  match quote with
  | None => None
  | Some q =>
      Some (if escaped then (Some q, false)
            else if beqb char "\" then (Some q, true)
            else if beqb char q then (None, false) else (Some q, false))
  end.

Fixpoint pathDepth (path : bytes) (quote : option byte) (escaped : bool) (depth maxDepth : Z) : Z :=
  match path with
  | [] => maxDepth
  | char :: path' =>
      match quoteStep quote escaped char with
      | Some (quote', escaped') => pathDepth path' quote' escaped' depth maxDepth
      | None =>
          if beqb char "'" || beqb char x22 then pathDepth path' (Some char) escaped depth maxDepth
          else if beqb char "[" || beqb char "(" then
            pathDepth path' quote escaped (depth + 1) (Z.max maxDepth (depth + 1))
          else if beqb char "]" || beqb char ")" then pathDepth path' quote escaped (depth - 1) maxDepth
          else pathDepth path' quote escaped depth maxDepth
      end
  end.

Definition validatePathText (path : bytes) : res unit :=
  if (len path =? 0) || (maxQueryPath <? len path) || negb (utf8Valid path) then Err errInvalidPath
  else if maxPathDepth <? pathDepth path None false 0 0 then Err errInvalidPath
  else Ok ().

(** [None] is the panic of a delimiter that closes nothing. *)
Fixpoint safePath_loop (path : bytes) (prev : option byte) (quote : option byte) (escaped : bool)
    (delimiters : bytes) (descendants : Z) : option bool :=
  match path with
  | [] => Some (descendants <=? 1)
  | char :: path' =>
      match quoteStep quote escaped char with
      | Some (quote', escaped') =>
          safePath_loop path' (Some char) quote' escaped' delimiters descendants
      | None =>
          if beqb char "'" || beqb char x22 then
            safePath_loop path' (Some char) (Some char) escaped delimiters descendants
          else if beqb char "[" || beqb char "(" then
            safePath_loop path' (Some char) quote escaped (char :: delimiters) descendants
          else if beqb char "]" || beqb char ")" then
            match delimiters with
            | [] => None
            | _ :: delimiters' => safePath_loop path' (Some char) quote escaped delimiters' descendants
            end
          else if beqb char "," then
            match delimiters with
            | [] => None
            | d :: _ =>
                if beqb d "[" then Some false
                else safePath_loop path' (Some char) quote escaped delimiters descendants
            end
          else if beqb char "." then
            safePath_loop path' (Some char) quote escaped delimiters
              (if bool_decide (prev = Some ("."%byte)) then descendants + 1 else descendants)
          else safePath_loop path' (Some char) quote escaped delimiters descendants
      end
  end.

Definition safePath (path : bytes) : option bool := safePath_loop path None None false [] 0.

(** The names that an array reads as an index. *)
Definition isArrayIndex (name : bytes) : bool :=
  match atoi name with
  | Some index => (0 <=? index) && bool_decide (itoa index = name)
  | None => false
  end.

Definition escapeToken (name : bytes) : bytes :=
  replace1 "/" (str "~1") (replace1 "~" (str "~0") name).

Fixpoint pointer_loop (segments : list segment) (pointer : bytes) : option bytes :=
  match segments with
  | [] => Some pointer
  | seg :: segments' =>
      if seg_descendant seg then None
      else
        match seg_selectors seg with
        | [SelName name] =>
            if isArrayIndex name then None
            else pointer_loop segments' (pointer ++ str "/" ++ escapeToken name)
        | _ => None
        end
  end.

Section Query.
Context {W : Type} `{Host W} `{Crypto} `{JSONPath}.
Variable wrappingKey : bytes.

Definition jsonPathPointer (path : jpath) : option bytes :=
  pointer ← pointer_loop (jpSegments path) [];
  match pointer with [] => None | _ => Some pointer end.

(** ** Plans *)

Record pathPlan := PathPlan {
  pp_path : jpath;
  pp_text : bytes;
  pp_index : bytes;
}.

(** A runtime panic, which [api.recover] turns into an internal error. *)
Definition panicked : error := EText.

Fixpoint findPath (defs : list indexDef) (pointer : bytes) : bytes :=
  match defs with
  | [] => []
  | def :: defs' => if decide (def_path def = pointer) then def_name def else findPath defs' pointer
  end.

Definition planPathQuery (database raw : bytes) : M W pathPlan :=
  _ ← lift (validatePathText raw);
  match jpParse raw with
  | inl _ => throw (wrapf errInvalidPath)
  | inr path =>
      if maxPathSegments <? len (jpSegments path) then throw errInvalidPath
      else
        match safePath (jpString path) with
        | None => throw panicked
        | Some false => throw errInvalidPath
        | Some true =>
            exists_ ← onErr wrapf (hasDB wrappingKey database);
            if negb exists_ then throw errDBNotFound
            else
              match jsonPathPointer path with
              | None => mret (PathPlan path (jpString path) [])
              | Some pointer =>
                  defs ← indexes database;
                  mret (PathPlan path (jpString path) (findPath defs pointer))
              end
        end
  end.

(** ** Matching *)

(** The children of a value, the last one first: the top of the stack. *)
Definition children (v : json) : list json :=
  match v with
  | JArr l => reverse l
  | JObj m => reverse (map snd m)
  | _ => []
  end.

Fixpoint jsonNodes (v : json) : nat :=
  match v with
  | JArr l => S (fold_right (fun x n => (jsonNodes x + n)%nat) 0%nat l)
  | JObj m => S (fold_right (fun kv n => (jsonNodes (snd kv) + n)%nat) 0%nat m)
  | _ => 1%nat
  end.

(** Every round pops a value, so there are as many as the document has nodes; the
    order of the children of an object is immaterial. *)
Fixpoint checkNodes_loop (fuel : nat) (ctx : context) (stack : list json) (work limit : Z) : M W unit :=
  match stack with
  | [] => mret ()
  | value :: stack' =>
      match fuel with
      | O => outOfFuel
      | S f =>
          _ ← ctxErr ctx;
          if limit <=? work then throw errQueryLimit
          else checkNodes_loop f ctx (children value ++ stack') (work + 1) limit
      end
  end.

Definition checkQueryNodes (ctx : context) (root : json) (limit : Z) : M W unit :=
  checkNodes_loop (jsonNodes root) ctx [root] 0 limit.

Definition opMatches (op : cmpOp) (order : comparison) : bool :=
  match order with
  | Eq => beqb op cmpEq || beqb op cmpLE || beqb op cmpGE
  | Lt => beqb op cmpLT || beqb op cmpLE
  | Gt => beqb op cmpGT || beqb op cmpGE
  end.

Definition valueMatches (op : cmpOp) (expected : bytes) (value : json) : bool :=
  match encodeIndexValue value with
  | Ok actual =>
      if negb (beqb (at_ actual 0) (at_ expected 0)) then false
      else opMatches op (bcmp actual expected)
  | _ => false
  end.

Definition pathMatches (ctx : context) (path : jpath) (root : json) (op : cmpOp) (expected : bytes)
    (maxNodes : Z) : M W bool :=
  _ ← checkQueryNodes ctx root maxNodes;
  let values := jpSelect path root in
  _ ← ctxErr ctx;
  mret (existsb (valueMatches op expected) values).

(** ** The scan *)

Record pathPage := PathPage {
  pg_ids : list bytes;
  pg_lastID : bytes;
  pg_more : bool;
}.

Fixpoint queryPath_loop (ctx : context) (dbk prefix : bytes) (path : jpath) (op : cmpOp)
    (encoded : bytes) (limit maxWork : Z) (l : list (bytes * bytes)) (work : Z) (ids : list bytes)
    (lastID : bytes) : M W (pathPage * list (bytes * bytes)) :=
  match l with
  | [] => mret (PathPage ids lastID false, [])
  | (key, value) :: l' =>
      _ ← ctxErr ctx;
      if maxWork <=? work then mret (PathPage ids lastID true, l)
      else
        let id := drop (length prefix) key in
        if negb (is_ok (validateID id)) then throw (wrapf errCorruptData)
        else
          doc ← onErr wrapf (lift (openDoc key dbk id value));
          match decodeJSON (sd_json doc) with
          | None => throw (wrapf errCorruptData)
          | Some (root, _) =>
              matches ← pathMatches ctx path root op encoded maxQueryNodes;
              let ids' := if matches : bool then ids ++ [id] else ids in
              if limit <? len ids' then
                let ids'' := take (Z.to_nat limit) ids' in
                mret (PathPage ids'' (default [] (last ids'')) true, l)
              else queryPath_loop ctx dbk prefix path op encoded limit maxWork l' (work + 1) ids' id
          end
  end.

Definition queryPathDocs (ctx : context) (database : bytes) (path : jpath) (op : cmpOp) (value : json)
    (limit maxWork : Z) (afterID : bytes) : M W pathPage :=
  dbk ← databaseKey wrappingKey database;
  encoded ← lift (encodeIndexValue value);
  let prefix := docsPrefix database in
  s ← newSnapshot;
  deferClose (
    it ← snapIter s (Some prefix) (prefixEnd prefix);
    deferClose (
      let start := match afterID with
                   | [] => it_entries it
                   | _ => seekAfter (docKey database afterID) (it_entries it)
                   end in
      '(page, rest) ←
        queryPath_loop ctx dbk prefix path op encoded limit maxWork start 0 [] [];
      _ ← iterError it rest;
      mret page)).

(** ** Execution *)

Definition matchPathCursor (cursor : pathCursor) (database : bytes) (plan : pathPlan) (query : pathQuery)
    (encoded : bytes) : bool :=
  let order := match pp_index plan with [] => orderDocument | _ => orderIndex end in
  bool_decide (pc_method cursor = queryMethod) && beqb (pc_dialect cursor) dialectJSONPath
  && beqb (pc_order cursor) order && bool_decide (pc_database cursor = database)
  && bool_decide (pc_pathHash cursor = pathHash (pp_text plan))
  && bool_decide (pc_index cursor = pp_index plan) && beqb (pc_op cursor) (pq_op query)
  && bool_decide (pc_value cursor = encoded).

(** Where a query starts: after the document and the value its cursor names. *)
Definition pathStart (box database : bytes) (plan : pathPlan) (query : pathQuery) (encoded : bytes)
    : res (bytes * bytes) :=
  match pq_cursor query with
  | [] => Ok ([], [])
  | token =>
      match decodePathCursor box token with
      | Ok cursor =>
          if matchPathCursor cursor database plan query encoded
          then Ok (pc_id cursor, pc_lastValue cursor) else Err errInvalidQueryCursor
      | _ => Err errInvalidQueryCursor
      end
  end.

(** The IDs, the document and the value to resume after, and whether to. *)
Definition runPlan (ctx : context) (database : bytes) (plan : pathPlan) (query : pathQuery)
    (encoded afterID lastValue : bytes) : M W (list bytes * bytes * bytes * bool) :=
  match pp_index plan with
  | [] =>
      page ← queryPathDocs ctx database (pp_path plan) (pq_op query) (pq_value query) (pq_limit query)
               maxScanDocs afterID;
      mret (pg_ids page, pg_lastID page, lastValue, pg_more page)
  | index =>
      if beqb (pq_op query) cmpEq then
        '(ids, more) ← queryDocsCtx wrappingKey ctx database index encoded (pq_limit query) afterID;
        mret (ids, default [] (last ids), lastValue, more)
      else
        page ← queryRangePage wrappingKey ctx database index (pq_op query) encoded (pq_limit query)
                 lastValue afterID;
        mret (ip_ids page, default [] (last (ip_ids page)), ip_lastValue page, ip_more page)
  end.

Definition executePathQuery (ctx : context) (database : bytes) (plan : pathPlan) (query : pathQuery)
    : M W (list bytes * bytes) :=
  key ← cursorKey wrappingKey database;
  box ← lift (newQueryCipher key);
  encoded ← lift (encodeIndexValue (pq_value query));
  '(afterID, lastValue) ← lift (pathStart box database plan query encoded);
  '(ids, afterID, lastValue, more) ← runPlan ctx database plan query encoded afterID lastValue;
  if negb more then mret (ids, [])
  else
    let order := match pp_index plan with [] => orderDocument | _ => orderIndex end in
    token ← encodePathCursor box
      (PathCursor queryMethod dialectJSONPath order database (pathHash (pp_text plan)) (pp_index plan)
         (pq_op query) encoded lastValue afterID);
    mret (ids, token).
End Query.
