(* ===== verification/PathText.v ===== *)
(** * The text of a path

    The grammar behind [validatePathText] and [safePath] of query.go: bare
    characters and quoted texts, brackets that close each other, commas between
    them; and that the two loops decide it. *)

From S2P Require Import Prelude GoErrors Text Query.

(** ** Pieces *)

(** Of a quoted text only its place matters. *)
Inductive piece := Bare (c : byte) | Quoted.

Definition isQuote (c : byte) : Prop := c = "'"%byte \/ c = x22.

(** What stands between a quotation mark and the next that no backslash precedes. *)
Inductive quotation (q : byte) : bytes -> Prop :=
  | quotation_nil : quotation q []
  | quotation_plain c s : c <> "\"%byte -> c <> q -> quotation q s -> quotation q (c :: s)
  | quotation_escape c s : quotation q s -> quotation q ("\"%byte :: c :: s).

(** The last quoted text of a path may have no end. *)
Inductive lexes : bytes -> list piece -> Prop :=
  | lexes_nil : lexes [] []
  | lexes_bare c s ps : ~ isQuote c -> lexes s ps -> lexes (c :: s) (Bare c :: ps)
  | lexes_quoted q body s ps :
      isQuote q -> quotation q body -> lexes s ps -> lexes (q :: body ++ q :: s) (Quoted :: ps)
  | lexes_open q body : isQuote q -> quotation q body -> lexes (q :: body) [Quoted]
  | lexes_open_escape q body : isQuote q -> quotation q body -> lexes (q :: body ++ ["\"%byte]) [Quoted].

Lemma quotation_split q s : isQuote q ->
  exists body, quotation q body /\ (s = body \/ s = body ++ ["\"%byte] \/ exists s', s = body ++ q :: s').
Proof.
  intros Hq. assert (q <> "\"%byte) as Hne by (by destruct Hq as [-> | ->]).
  remember (length s) as m eqn:Hm. revert s Hm. induction m as [m IH] using lt_wf_ind. intros s ->.
  destruct s as [|c s]; [exists []; split; [constructor|by left]|].
  destruct (decide (c = q)) as [->|Hcq]; [exists []; split; [constructor|right; right; by exists s]|].
  destruct (decide (c = "\"%byte)) as [->|Hc]; cycle 1.
  { destruct (IH (length s) ltac:(cbn; lia) s eq_refl) as (body & Hb & Hs). exists (c :: body).
    split; [by constructor|]. destruct Hs as [->|[->|[s' ->]]]; [by left|right; by left|right; right; by exists s']. }
  destruct s as [|c s]; [exists []; split; [constructor|right; by left]|].
  destruct (IH (length s) ltac:(cbn; lia) s eq_refl) as (body & Hb & Hs). exists ("\"%byte :: c :: body).
  split; [by constructor|]. destruct Hs as [->|[->|[s' ->]]]; [by left|right; by left|right; right; by exists s'].
Qed.

Lemma lexes_total s : exists ps, lexes s ps.
Proof.
  remember (length s) as m eqn:Hm. revert s Hm. induction m as [m IH] using lt_wf_ind. intros s ->.
  destruct s as [|c s]; [exists []; constructor|].
  assert (isQuote c \/ ~ isQuote c) as [Hq|Hq].
  { unfold isQuote. destruct (decide (c = "'"%byte)), (decide (c = x22)); tauto. }
  - destruct (quotation_split c s Hq) as (body & Hb & [->|[->|[s' ->]]]); [by eexists; constructor..|].
    destruct (IH (length s')) with (s := s') as [ps Hps]; [cbn; rewrite length_app; cbn; lia|done|].
    eexists. by constructor.
  - destruct (IH (length s) ltac:(cbn; lia) s eq_refl) as [ps Hps]. eexists. by constructor.
Qed.

Lemma quote_beqb c : beqb c "'" || beqb c x22 = true <-> isQuote c.
Proof. unfold isQuote. by rewrite orb_true_iff, !beqb_eq. Qed.

Lemma noQuote_beqb c : ~ isQuote c -> beqb c "'" || beqb c x22 = false.
Proof. intros Hc. apply not_true_is_false. by rewrite quote_beqb. Qed.

Lemma beqb_either c x y : beqb c x || beqb c y = bool_decide (c ∈ [x; y]).
Proof.
  apply eq_true_iff_eq. rewrite orb_true_iff, !beqb_eq, bool_decide_eq_true. set_solver.
Qed.

(** ** Nesting *)

Definition bracket (p : piece) : Z :=
  match p with
  | Bare c => if decide (c ∈ ["["; "("]%byte) then 1 else if decide (c ∈ ["]"; ")"]%byte) then -1 else 0
  | Quoted => 0
  end.

(** The brackets that are open after some pieces. *)
Definition nesting (ps : list piece) : Z := foldr (fun p n => bracket p + n) 0 ps.

(** The text of a request's path: at no place more than [maxPathDepth] brackets are open. *)
Definition pathText (raw : bytes) : Prop :=
  1 <= len raw <= maxQueryPath /\ utf8Valid raw = true /\
  exists pieces, lexes raw pieces /\ forall i, nesting (take i pieces) <= maxPathDepth.

Fixpoint deepest (ps : list piece) : Z :=
  match ps with [] => 0 | p :: ps' => Z.max 0 (bracket p + deepest ps') end.

Lemma deepest_nonneg ps : 0 <= deepest ps.
Proof. destruct ps; cbn; lia. Qed.

Lemma deepest_nesting ps d bound :
  d <= bound -> d + deepest ps <= bound <-> forall i, d + nesting (take i ps) <= bound.
Proof.
  revert d. induction ps as [|p ps IH]; intros d Hd; cbn [deepest].
  { split; [intros _ i; rewrite take_nil; cbn; lia|lia]. }
  split.
  - intros Hb [|i]; cbn; [lia|]. pose proof (deepest_nonneg ps).
    enough (d + bracket p + nesting (take i ps) <= bound) by (unfold nesting in *; lia). apply IH; lia.
  - intros Hi. pose proof (Hi 1%nat) as Hone. cbn in Hone. rewrite take_0 in Hone. cbn in Hone.
    enough (d + bracket p + deepest ps <= bound) by lia. apply IH; [lia|]. intros i. specialize (Hi (S i)). cbn in Hi.
    unfold nesting. lia.
Qed.

Lemma pathDepth_quotation q body s d m : isQuote q -> quotation q body ->
  pathDepth (body ++ q :: s) (Some q) false d m = pathDepth s None false d m.
Proof.
  intros Hq Hb. assert (beqb q "\" = false) as Hne by (by destruct Hq as [-> | ->]).
  induction Hb as [|c body Hc Hcq _ IH|c body _ IH]; cbn [app pathDepth quoteStep].
  - by rewrite Hne, beqb_refl.
  - destruct (beqb_spec c "\"), (beqb_spec c q); done.
  - done.
Qed.

Lemma pathDepth_open q body s d m : quotation q body -> s = [] \/ s = ["\"%byte] ->
  pathDepth (body ++ s) (Some q) false d m = m.
Proof.
  intros Hb Hs. induction Hb as [|c body Hc Hcq _ IH|c body _ IH]; cbn [app pathDepth quoteStep].
  - by destruct Hs as [-> | ->].
  - destruct (beqb_spec c "\"), (beqb_spec c q); done.
  - done.
Qed.

Lemma pathDepth_lexes s ps d m :
  lexes s ps -> d <= m -> pathDepth s None false d m = Z.max m (d + deepest ps).
Proof.
  intros Hl. revert d m. induction Hl as [|c s ps Hc _ IH|q body s ps Hq Hb _ IH|q body Hq Hb|q body Hq Hb];
    intros d m Hd; cbn [pathDepth quoteStep deepest bracket].
  - lia.
  - rewrite noQuote_beqb by done. pose proof (deepest_nonneg ps).
    rewrite !beqb_either. repeat case_bool_decide; repeat case_decide; try done; rewrite IH by lia; lia.
  - rewrite (proj2 (quote_beqb q) Hq), pathDepth_quotation, IH by done. pose proof (deepest_nonneg ps). lia.
  - rewrite (proj2 (quote_beqb q) Hq). rewrite <- (app_nil_r body), pathDepth_open by auto. lia.
  - rewrite (proj2 (quote_beqb q) Hq), pathDepth_open by auto. lia.
Qed.

Lemma validatePathText_ok raw : validatePathText raw = Ok () <-> pathText raw.
Proof.
  unfold validatePathText, pathText. pose proof (len_nonneg raw).
  destruct (Z.eqb_spec (len raw) 0) as [?|?]; cbn [orb]; [split; [done|lia]|].
  destruct (Z.ltb_spec maxQueryPath (len raw)) as [?|?]; cbn [orb]; [split; [done|lia]|].
  destruct (utf8Valid raw); cbn [negb]; [|split; [done|by intros (_ & ? & _)]].
  assert (forall ps, lexes raw ps ->
            pathDepth raw None false 0 0 <= maxPathDepth <-> forall i, nesting (take i ps) <= maxPathDepth) as Hdeep.
  { intros ps Hps. rewrite (pathDepth_lexes _ _ _ _ Hps) by lia. rewrite Z.add_0_l.
    pose proof (deepest_nesting ps 0 maxPathDepth ltac:(done)) as Hd. setoid_rewrite Z.add_0_l in Hd. rewrite <- Hd.
    unfold maxPathDepth. lia. }
  destruct (Z.ltb_spec maxPathDepth (pathDepth raw None false 0 0)) as [?|?]; split; [done| |intros _|done].
  - intros (_ & _ & ps & Hps & Hi). apply (Hdeep ps Hps) in Hi. lia.
  - split; [lia|]. split; [done|]. destruct (lexes_total raw) as [ps Hps]. exists ps. split; [done|]. by apply Hdeep.
Qed.

(** ** Brackets and commas *)

Definition closes (op cl : byte) : Prop := op = "["%byte /\ cl = "]"%byte \/ op = "("%byte /\ cl = ")"%byte.

Definition delimiter (c : byte) : Prop := c ∈ ["["; "("; "]"; ")"; ","]%byte.

(** The pieces within a bracket, or outside all of them: the brackets in them close each
    other, and a comma stands directly in a bracket that may have commas. *)
Inductive group (commas : byte -> Prop) : option byte -> list piece -> Prop :=
  | group_nil within : group commas within []
  | group_quoted within ps : group commas within ps -> group commas within (Quoted :: ps)
  | group_bare within c ps :
      ~ isQuote c -> ~ delimiter c -> group commas within ps -> group commas within (Bare c :: ps)
  | group_comma op ps :
      commas op -> group commas (Some op) ps -> group commas (Some op) (Bare "," :: ps)
  | group_brackets within op cl inner ps :
      closes op cl -> group commas (Some op) inner -> group commas within ps ->
      group commas within (Bare op :: inner ++ Bare cl :: ps).

(** Commas between brackets of either kind, and no comma directly in square brackets:
    arguments of functions, and no lists of selectors. *)
Definition anyCommas (op : byte) : Prop := True.
Definition argumentCommas (op : byte) : Prop := op <> "["%byte.

Definition delimited (text : bytes) : Prop := exists pieces, lexes text pieces /\ group anyCommas None pieces.

(** A descendant step: two dots in a row. *)
Definition descends (ps : list piece) (i : nat) : Prop := ps !! i = Some (Bare ".") /\ ps !! S i = Some (Bare ".").

(** The text of a path that is accepted: no list of selectors, and at most one
    descendant step. *)
Definition safeText (text : bytes) : Prop :=
  exists pieces, lexes text pieces /\ group argumentCommas None pieces /\
    forall i j, descends pieces i -> descends pieces j -> i = j.

(** What the loop does with the delimiters, and how many descendant steps it counts. *)
Fixpoint delims_scan (ps : list piece) (delimiters : bytes) : option bool :=
  match ps with
  | [] => Some true
  | Quoted :: ps' => delims_scan ps' delimiters
  | Bare c :: ps' =>
      if decide (c ∈ ["["; "("]%byte) then delims_scan ps' (c :: delimiters)
      else if decide (c ∈ ["]"; ")"]%byte) then
        match delimiters with [] => None | _ :: delimiters' => delims_scan ps' delimiters' end
      else if decide (c = ","%byte) then
        match delimiters with
        | [] => None
        | d :: _ => if decide (d = "["%byte) then Some false else delims_scan ps' delimiters
        end
      else delims_scan ps' delimiters
  end.

#[global] Instance piece_eq_dec : EqDecision piece.
Proof. solve_decision. Defined.

Definition dot (p : piece) : bool := bool_decide (p = Bare ".").

Fixpoint steps (p : piece) (ps : list piece) : Z :=
  match ps with [] => 0 | p' :: ps' => (if dot p && dot p' then 1 else 0) + steps p' ps' end.

Lemma delims_scan_comma ps op delimiters :
  delims_scan (Bare "," :: ps) (op :: delimiters)
  = if decide (op = "["%byte) then Some false else delims_scan ps (op :: delimiters).
Proof. done. Qed.

Lemma delims_scan_bare c ps delimiters :
  ~ delimiter c -> delims_scan (Bare c :: ps) delimiters = delims_scan ps delimiters.
Proof. unfold delimiter. intros Hc. cbn [delims_scan]. by repeat (case_decide; [set_solver|]). Qed.

Lemma delims_scan_brackets op cl inner ps rest delimiters :
  closes op cl ->
  delims_scan ((Bare op :: inner ++ Bare cl :: ps) ++ rest) delimiters
  = delims_scan (inner ++ (Bare cl :: ps ++ rest)) (op :: delimiters) /\
  delims_scan (Bare cl :: ps ++ rest) (op :: delimiters) = delims_scan (ps ++ rest) delimiters.
Proof. intros Hcl. cbn [app]. rewrite <- app_assoc. by destruct Hcl as [[-> ->]|[-> ->]]. Qed.

Lemma delims_scan_arguments within ps rest delimiters :
  group argumentCommas within ps -> head delimiters = within ->
  delims_scan (ps ++ rest) delimiters = delims_scan rest delimiters.
Proof.
  intros Hg. revert rest delimiters.
  induction Hg as [?|? ps _ IH|? c ps _ Hc _ IH|op ps Hc _ IH|? op cl inner ps Hcl _ IHi _ IH];
    intros rest delimiters Hd; [done|by apply IH| | |].
  - cbn [app]. rewrite delims_scan_bare by done. by apply IH.
  - destruct delimiters as [|d delimiters]; [done|]. injection Hd as ->. cbn [app]. rewrite delims_scan_comma.
    rewrite decide_False by done. by apply IH.
  - destruct (delims_scan_brackets op cl inner ps rest delimiters Hcl) as [-> Hclose].
    rewrite IHi, Hclose by done. by apply IH.
Qed.

Lemma delims_scan_any within ps :
  group anyCommas within ps ->
  group argumentCommas within ps \/
  forall rest delimiters, head delimiters = within -> delims_scan (ps ++ rest) delimiters = Some false.
Proof.
  induction 1 as [?|? ps _ IH|? c ps Hq Hc _ IH|op ps _ _ IH|? op cl inner ps Hcl _ IHi _ IH].
  - left. constructor.
  - destruct IH as [?|IH]; [left; by constructor|right; exact IH].
  - destruct IH as [?|IH]; [left; by constructor|right; intros rest ds Hd]. cbn [app].
    rewrite delims_scan_bare by done. by apply IH.
  - destruct (decide (op = "["%byte)) as [->|Hop]; [right; by intros rest [|d ds] [= ->]|].
    destruct IH as [?|IH]; [left; by constructor|right; intros rest [|d ds] [= ->]]. cbn [app].
    rewrite delims_scan_comma, decide_False by done. by apply IH.
  - destruct IHi as [IHi|IHi]; [destruct IH as [IH|IH]; [left; by constructor|]|]; right; intros rest ds Hd;
      destruct (delims_scan_brackets op cl inner ps rest ds Hcl) as [-> Hclose]; [|by apply IHi].
    rewrite (delims_scan_arguments (Some op)), Hclose by done. by apply IH.
Qed.

(** ** Steps *)

Lemma descends_S p ps i : descends (p :: ps) (S i) <-> descends ps i.
Proof. done. Qed.

Lemma descends_0 p ps : descends (p :: ps) 0 <-> dot p = true /\ exists p' ps', ps = p' :: ps' /\ dot p' = true.
Proof.
  unfold descends, dot. rewrite bool_decide_eq_true. cbn. split.
  - intros [[= ->] Hs]. split; [done|]. destruct ps as [|p' ps]; [done|]. exists p', ps. split; [done|].
    rewrite bool_decide_eq_true. by injection Hs.
  - intros [-> (p' & ps' & -> & ->%bool_decide_eq_true)]. done.
Qed.

Lemma steps_nonneg p ps : 0 <= steps p ps.
Proof. revert p. induction ps as [|p' ps IH]; intros p; cbn [steps]; [done|]. specialize (IH p'). case_match; lia. Qed.

Lemma steps_none p ps : steps p ps <= 0 <-> forall i, ~ descends (p :: ps) i.
Proof.
  revert p. induction ps as [|p' ps IH]; intros p; cbn [steps].
  { split; [intros _ i Hi|done]. destruct Hi as [_ Hi]. by rewrite lookup_cons_ne_0, lookup_nil in Hi by done. }
  pose proof (steps_nonneg p' ps). specialize (IH p').
  destruct (dot p && dot p') eqn:Hdots.
  - apply andb_true_iff in Hdots as [Hp Hp']. split; [lia|]. intros Hi. exfalso. apply (Hi 0%nat), descends_0.
    split; [done|by exists p', ps].
  - rewrite Z.add_0_l, IH. split; intros Hi i; [|apply (Hi (S i))]. destruct i as [|i]; [|apply Hi].
    intros (Hp & ? & ? & [= <- <-] & Hp')%descends_0. by rewrite Hp, Hp' in Hdots.
Qed.

Lemma steps_once p ps :
  steps p ps <= 1 <-> forall i j, descends (p :: ps) i -> descends (p :: ps) j -> i = j.
Proof.
  revert p. induction ps as [|p' ps IH]; intros p; cbn [steps].
  { split; [intros _ i j [_ Hi]|done]. by rewrite lookup_cons_ne_0, lookup_nil in Hi by done. }
  pose proof (steps_nonneg p' ps). specialize (IH p'). destruct (dot p && dot p') eqn:Hdots.
  - apply andb_true_iff in Hdots as [Hp Hp'].
    assert (descends (p :: p' :: ps) 0) as Hhere by (apply descends_0; split; [done|by exists p', ps]).
    transitivity (steps p' ps <= 0); [lia|]. rewrite steps_none. split.
    + intros Hno [|i] [|j] Hi Hj; [done|exfalso; eapply Hno, Hj|exfalso; eapply Hno, Hi|exfalso; eapply Hno, Hi].
    + intros Hone i Hi. by specialize (Hone _ (S i) Hhere Hi).
  - rewrite Z.add_0_l, IH.
    assert (~ descends (p :: p' :: ps) 0) as Hno.
    { intros (Hp & ? & ? & [= <- <-] & Hp')%descends_0. by rewrite Hp, Hp' in Hdots. }
    split; [intros Hone [|i] [|j] Hi Hj; try done; f_equal; by apply Hone|].
    intros Hone i j Hi Hj. by injection (Hone (S i) (S j) Hi Hj).
Qed.

(** ** The loop of safePath *)

Lemma safePath_quotation q body s prev ds n : isQuote q -> quotation q body ->
  safePath_loop (body ++ q :: s) prev (Some q) false ds n = safePath_loop s (Some q) None false ds n.
Proof.
  intros Hq Hb. assert (beqb q "\" = false) as Hne by (by destruct Hq as [-> | ->]). revert prev.
  induction Hb as [|c body Hc Hcq _ IH|c body _ IH]; intros prev; cbn [app safePath_loop quoteStep].
  - by rewrite Hne, beqb_refl.
  - destruct (beqb_spec c "\"), (beqb_spec c q); done.
  - apply IH.
Qed.

Lemma safePath_open q body s prev ds n : quotation q body -> s = [] \/ s = ["\"%byte] ->
  safePath_loop (body ++ s) prev (Some q) false ds n = Some (n <=? 1).
Proof.
  intros Hb Hs. revert prev. induction Hb as [|c body Hc Hcq _ IH|c body _ IH];
    intros prev; cbn [app safePath_loop quoteStep].
  - by destruct Hs as [-> | ->].
  - destruct (beqb_spec c "\"), (beqb_spec c q); done.
  - apply IH.
Qed.

(** The piece a character leaves behind. *)
Definition behind (prev : option byte) : piece := match prev with Some c => Bare c | None => Quoted end.

Lemma behind_quote q : isQuote q -> dot (behind (Some q)) = false.
Proof. by intros [-> | ->]. Qed.

Lemma steps_quoted q ps : isQuote q -> steps Quoted ps = steps (behind (Some q)) ps.
Proof. intros Hq. destruct ps as [|p ps]; [done|]. cbn [steps]. by rewrite (behind_quote q Hq). Qed.

Lemma safePath_lexes s ps prev ds n :
  lexes s ps ->
  safePath_loop s prev None false ds n =
  match delims_scan ps ds with Some true => Some (n + steps (behind prev) ps <=? 1) | verdict => verdict end.
Proof.
  intros Hl. revert prev ds n. induction Hl as [|c s ps Hc _ IH|q body s ps Hq Hb _ IH|q body Hq Hb|q body Hq Hb];
    intros prev ds n; cbn [safePath_loop quoteStep delims_scan steps].
  - by rewrite Z.add_0_r.
  - assert (c <> "."%byte -> dot (Bare c) = false) as Hdot by (intros ?; unfold dot; case_bool_decide; congruence).
    rewrite noQuote_beqb, !beqb_either by done.
    destruct (decide (c ∈ ["["; "("]%byte)) as [Ho|Ho]; [rewrite (bool_decide_true _ Ho)|rewrite (bool_decide_false _ Ho)].
    { rewrite IH, Hdot by set_solver. by rewrite andb_false_r. }
    destruct (decide (c ∈ ["]"; ")"]%byte)) as [Hcl|Hcl]; [rewrite (bool_decide_true _ Hcl)|rewrite (bool_decide_false _ Hcl)].
    { destruct ds as [|d ds]; [done|]. rewrite IH, Hdot by set_solver. by rewrite andb_false_r. }
    destruct (beqb_spec c ",") as [->|Hcomma]; [rewrite decide_True by done|rewrite decide_False by done].
    { destruct ds as [|d ds]; [done|].
      destruct (beqb_spec d "["); [by rewrite decide_True by done|]. rewrite decide_False, IH by done.
      by rewrite andb_false_r. }
    destruct (beqb_spec c ".") as [->|Hd].
    + rewrite IH. destruct prev as [p|]; cbn [behind]; [|by rewrite bool_decide_false by done].
      destruct (decide (p = "."%byte)) as [->|Hp]; [rewrite bool_decide_true by done|rewrite bool_decide_false by congruence].
      * by rewrite Z.add_assoc.
      * assert (dot (Bare p) = false) as -> by (unfold dot; case_bool_decide; congruence). done.
    + rewrite IH, Hdot by done. by rewrite andb_false_r.
  - rewrite (proj2 (quote_beqb q) Hq), safePath_quotation, IH by done.
    by rewrite andb_false_r, (steps_quoted q ps Hq).
  - rewrite (proj2 (quote_beqb q) Hq). rewrite <- (app_nil_r body), safePath_open by auto.
    by rewrite andb_false_r, Z.add_0_r.
  - rewrite (proj2 (quote_beqb q) Hq), safePath_open by auto. by rewrite andb_false_r, Z.add_0_r.
Qed.

(** Where the delimiters are in pairs the loop does not panic, and it accepts just the
    texts it is there to accept. *)
Lemma safePath_delimited text :
  delimited text -> exists b, safePath text = Some b /\ (b = true <-> safeText text).
Proof.
  intros (ps & Hl & Hg). unfold safePath.
  assert (forall ps' n, lexes text ps' -> group argumentCommas None ps' ->
            safePath_loop text None None false [] n = Some (n + steps Quoted ps' <=? 1)) as Hsafe.
  { intros ps' n Hl' Hg'. rewrite (safePath_lexes _ _ _ _ _ Hl').
    pose proof (delims_scan_arguments None ps' [] [] Hg' eq_refl) as Hd. rewrite app_nil_r in Hd. by rewrite Hd. }
  assert (forall ps' : list piece, steps Quoted ps' <= 1 <-> forall i j, descends ps' i -> descends ps' j -> i = j) as Hst.
  { intros ps'. rewrite steps_once. split.
    - intros Hone i j Hi Hj. by injection (Hone (S i) (S j) Hi Hj).
    - intros Hone [|i] [|j] Hi Hj; [done|by destruct Hi|by destruct Hj|]. f_equal. by apply Hone. }
  destruct (delims_scan_any None ps Hg) as [Harg|Hno].
  - eexists. split; [by apply (Hsafe ps)|]. rewrite Z.leb_le, Z.add_0_l. split.
    + intros Hone. exists ps. split; [done|]. split; [done|]. by apply Hst.
    + intros (ps' & Hl' & Hg' & Hone). apply Hst in Hone.
      pose proof (Hsafe ps 0 Hl Harg) as Hs. rewrite (Hsafe ps' 0 Hl' Hg') in Hs. injection Hs as Hs. lia.
  - assert (forall n, safePath_loop text None None false [] n = Some false) as Hfalse.
    { intros n. rewrite (safePath_lexes _ _ _ _ _ Hl). specialize (Hno [] [] eq_refl). rewrite app_nil_r in Hno.
      by rewrite Hno. }
    exists false. split; [done|]. split; [done|]. intros (ps' & Hl' & Hg' & _).
    pose proof (Hsafe ps' (- steps Quoted ps') Hl' Hg') as Hs. rewrite Hfalse in Hs. injection Hs as Hs. lia.
Qed.

(** Text without delimiters, quotes and commas. *)
Definition plainChar (c : byte) : bool :=
  negb (beqb c "'" || beqb c x22 || beqb c "[" || beqb c "(" || beqb c "]" || beqb c ")" || beqb c ",").

Lemma delimited_plain text : Forall (fun c => plainChar c = true) text -> delimited text.
Proof.
  intros HF. exists (map Bare text). split.
  - induction HF as [|c text Hc _ IH]; [constructor|]. constructor; [|done]. intros [-> | ->]; done.
  - induction HF as [|c text Hc _ IH]; [constructor|]. constructor; [by intros [-> | ->]| |done].
    unfold delimiter. rewrite !elem_of_cons. intros Hd. by repeat (destruct Hd as [->|Hd]; [done|]); apply elem_of_nil in Hd.
Qed.
