(* ===== verification/QueryFacts.v ===== *)
(** * Plans and matches

    A path that names members one by one selects what a JSON Pointer finds, so an
    index on that pointer holds exactly the documents the path matches. *)

From S2P Require Import Prelude GoErrors Codec Text Base64 Validation Keys Number Json IndexValue.
From S2P Require Import Document Host Crypto Wp Store StoreRep StoreReads StoreSpec StoreLists Range.
From S2P Require Import StoreRange Cursor Query PathText.

(** ** What the JSONPath library promises *)

Definition nameSegment (name : bytes) : segment := Segment false [SelName name].

(** Names select members of objects, and nothing of other values. *)
Fixpoint selectNames (names : list bytes) (v : json) : list json :=
  match names with
  | [] => [v]
  | name :: names' =>
      match v with
      | JObj m => match objLookup name m with Some x => selectNames names' x | None => [] end
      | _ => []
      end
  end.

(** A parsed path of names selects as RFC 9535 says; its text is a path of RFC 9535,
    whose grammar has its brackets in pairs and its commas between them. *)
Class JSONPathSpec `{JSONPath} := {
  jpSelect_names path names v :
    jpSegments path = map nameSegment names -> jpSelect path v = selectNames names v;
  jpString_delimited raw path : jpParse raw = inr path -> delimited (jpString path);
}.

(** ** Pointers *)

Lemma replace2_other a b y c l : c <> a -> replace2 a b y (c :: l) = c :: replace2 a b y l.
Proof.
  intros Hc. cbn [replace2]. destruct l as [|d l]; [done|].
  destruct (beqb_spec c a); [done|]. done.
Qed.

Lemma replace2_hit a b y l : replace2 a b y (a :: b :: l) = y :: replace2 a b y l.
Proof. cbn [replace2]. by rewrite !beqb_refl. Qed.

Lemma replace2_miss a b y d l :
  d <> b -> replace2 a b y (a :: d :: l) = a :: replace2 a b y (d :: l).
Proof. intros Hd. cbn [replace2]. destruct (beqb_spec d b); [done|]. by rewrite andb_false_r. Qed.

Lemma replace1_cons a y c l :
  replace1 a y (c :: l) = (if beqb c a then y else [c]) ++ replace1 a y l.
Proof. done. Qed.

Lemma unescape_escape name : unescapeToken (escapeToken name) = name.
Proof.
  unfold unescapeToken, escapeToken.
  assert (forall s, replace2 "~" "1" "/" (replace1 "/" (str "~1") (replace1 "~" (str "~0") s))
                    = replace1 "~" (str "~0") s) as H1.
  { induction s as [|c s IH]; [done|]. rewrite (replace1_cons "~").
    destruct (beqb_spec c "~") as [->|Hc].
    - change (str "~0" ++ ?l) with ("~"%byte :: "0"%byte :: l). rewrite !(replace1_cons "/").
      change (beqb "~" "/") with false. change (beqb "0" "/") with false. cbn [app].
      rewrite replace2_miss, replace2_other by done. by rewrite IH.
    - cbn [app]. rewrite (replace1_cons "/"). destruct (beqb_spec c "/") as [->|Hc'].
      + change (str "~1" ++ ?l) with ("~"%byte :: "1"%byte :: l). by rewrite replace2_hit, IH.
      + cbn [app]. by rewrite replace2_other, IH. }
  rewrite H1. induction name as [|c s IH]; [done|]. rewrite replace1_cons.
  destruct (beqb_spec c "~") as [->|Hc].
  - change (str "~0" ++ ?l) with ("~"%byte :: "0"%byte :: l). by rewrite replace2_hit, IH.
  - cbn [app]. by rewrite replace2_other, IH.
Qed.

Lemma replace1_elem a y x l : x ∈ replace1 a y l -> x ∈ y \/ x <> a.
Proof.
  induction l as [|c l IH]; [by intros ?%elem_of_nil|]. rewrite replace1_cons, elem_of_app.
  intros [Hx|?]; [|by apply IH]. destruct (beqb_spec c a) as [->|Hc]; [by left|].
  apply elem_of_cons in Hx as [->|?%elem_of_nil]; [by right|done].
Qed.

Lemma escapeToken_no_slash name : ("/"%byte) ∉ escapeToken name.
Proof.
  unfold escapeToken. intros [Hin|?]%replace1_elem; [|done].
  cbn in Hin. set_solver.
Qed.

Lemma splitByte_app sep t s :
  sep ∉ t -> splitByte sep (t ++ sep :: s) = t :: splitByte sep s.
Proof.
  induction t as [|c t IH]; cbn [app splitByte].
  - by rewrite beqb_refl.
  - intros Hn. destruct (beqb_spec c sep) as [->|]; [set_solver|]. rewrite IH by set_solver. done.
Qed.

Lemma splitByte_one sep t : sep ∉ t -> splitByte sep t = [t].
Proof.
  induction t as [|c t IH]; cbn [splitByte]; [done|]. intros Hn.
  destruct (beqb_spec c sep) as [->|]; [set_solver|]. by rewrite IH by set_solver.
Qed.

Definition pointerOf (names : list bytes) : bytes :=
  concat (map (fun name => str "/" ++ escapeToken name) names).

Lemma pointer_tokens name names :
  splitByte "/" (drop 1 (pointerOf (name :: names))) = map escapeToken (name :: names).
Proof.
  unfold pointerOf. cbn [map concat]. change (drop 1 ((str "/" ++ ?t) ++ ?r)) with (t ++ r).
  revert name. induction names as [|n names IH]; intros name.
  - cbn [map concat]. rewrite app_nil_r. apply splitByte_one, escapeToken_no_slash.
  - cbn [map concat]. change ((str "/" ++ ?t) ++ ?r) with ("/"%byte :: (t ++ r)).
    rewrite splitByte_app by apply escapeToken_no_slash. by rewrite IH.
Qed.

Lemma pointer_loop_Some segs p0 p :
  pointer_loop segs p0 = Some p ->
  exists names, segs = map nameSegment names /\ Forall (fun n => isArrayIndex n = false) names /\
                p = p0 ++ pointerOf names.
Proof.
  revert p0. induction segs as [|[desc sels] segs IH]; intros p0; cbn [pointer_loop seg_descendant seg_selectors].
  - intros [= <-]. exists []. by rewrite app_nil_r.
  - destruct desc; [done|]. destruct sels as [|[n| |] [|]]; try done.
    destruct (isArrayIndex n) eqn:Hn; [done|]. intros (names & -> & HF & ->)%IH.
    exists (n :: names). split; [done|]. split; [by constructor|].
    unfold pointerOf. cbn [map concat]. by rewrite <- !app_assoc.
Qed.

(** On names that are no array indices a pointer finds what the names select. *)
Lemma pointerLoop_names names v :
  Forall (fun n => isArrayIndex n = false) names ->
  selectNames names v = match pointerLoop v (map escapeToken names) with Some x => [x] | None => [] end.
Proof.
  intros HF. revert v. induction HF as [|n names Hn HF IH]; intros v; [done|].
  cbn [selectNames map pointerLoop]. rewrite unescape_escape. destruct v as [| | | |l|m]; try done.
  - unfold isArrayIndex in Hn. destruct (atoi n) as [i|]; [|done]. cbn [mbind option_bind].
    destruct (Z.leb_spec 0 i) as [Hi|Hi].
    + cbn [andb] in Hn. rewrite Hn. cbn [negb]. by rewrite orb_true_r.
    + by rewrite (proj2 (Z.ltb_lt i 0)) by done.
  - destruct (objLookup n m) as [x|]; [|done]. cbn [mbind option_bind]. apply IH.
Qed.

Lemma pointer_loop_names names p0 :
  Forall (fun n => isArrayIndex n = false) names ->
  pointer_loop (map nameSegment names) p0 = Some (p0 ++ pointerOf names).
Proof.
  intros HF. revert p0. induction HF as [|n names Hn _ IH]; intros p0; cbn; [by rewrite app_nil_r|].
  rewrite Hn, IH. unfold pointerOf. cbn [map concat]. by rewrite <- !app_assoc.
Qed.

(** The names an array could read as the number of an element. *)
Definition arrayIndex (name : bytes) : Prop := exists i, 0 <= i <= maxInt64 /\ name = itoa i.

Lemma isArrayIndex_spec name : isArrayIndex name = true <-> arrayIndex name.
Proof.
  unfold isArrayIndex, arrayIndex. split.
  - destruct (atoi name) as [i|] eqn:Hi; [|done]. intros [Hpos Hname]%andb_true_iff.
    apply bool_decide_eq_true in Hname. exists i. split; [|done]. apply Z.leb_le in Hpos. split; [done|].
    by eapply atoi_max.
  - intros (i & Hi & ->). rewrite atoi_itoa by done. rewrite bool_decide_eq_true_2 by done.
    by rewrite (proj2 (Z.leb_le 0 i)) by lia.
Qed.

(** RFC 6901: the reference tokens of a pointer, each after a slash. *)
Definition escapeChar (c : byte) : bytes :=
  if decide (c = "~"%byte) then str "~0" else if decide (c = "/"%byte) then str "~1" else [c].
Definition pointerTo (names : list bytes) : bytes :=
  concat (map (fun name => str "/" ++ concat (map escapeChar name)) names).

Lemma escapeToken_chars name : escapeToken name = concat (map escapeChar name).
Proof.
  unfold escapeToken. induction name as [|c name IH]; [done|]. rewrite replace1_cons. cbn [map concat].
  rewrite <- IH. unfold escapeChar. destruct (beqb_spec c "~") as [->|Hc]; [done|].
  rewrite decide_False by done. cbn [app]. rewrite replace1_cons.
  destruct (beqb_spec c "/") as [->|Hs]; [done|]. by rewrite decide_False by done.
Qed.

Lemma pointerOf_pointerTo names : pointerOf names = pointerTo names.
Proof. unfold pointerOf, pointerTo. f_equal. apply map_ext. intros name. by rewrite escapeToken_chars. Qed.

(** A path of member names, none of which an array could read. *)
Definition memberPath `{JSONPath} (path : jpath) (names : list bytes) : Prop :=
  names <> [] /\ jpSegments path = map nameSegment names /\ Forall (fun name => ~ arrayIndex name) names.

Lemma memberPath_names names :
  Forall (fun name => ~ arrayIndex name) names <-> Forall (fun n => isArrayIndex n = false) names.
Proof. apply Forall_proper; [|done]. intros name. by rewrite <- isArrayIndex_spec, not_true_iff_false. Qed.

Lemma jsonPathPointer_Some `{JSONPath} path pointer :
  jsonPathPointer path = Some pointer <-> exists names, memberPath path names /\ pointer = pointerTo names.
Proof.
  unfold jsonPathPointer, memberPath. setoid_rewrite memberPath_names. split.
  - destruct (pointer_loop (jpSegments path) []) as [p|] eqn:Hl; [|done]. cbn [mbind option_bind].
    apply pointer_loop_Some in Hl as (names & Hsegs & HF & ->). cbn [app]. rewrite pointerOf_pointerTo.
    intros Hp. exists names. destruct names as [|name names]; [done|]. by injection Hp as <-.
  - intros (names & (Hne & -> & HF) & ->). rewrite pointer_loop_names by done. cbn [mbind option_bind app].
    rewrite pointerOf_pointerTo. by destruct names.
Qed.

(** ** Index values *)

Lemma findIndex_unique defs def def' :
  NoDup (map def_name defs) -> def ∈ defs -> def' ∈ defs -> def_name def = def_name def' -> def = def'.
Proof.
  intros Hnd H1 H2 E. pose proof (findIndex_elem _ _ Hnd H1) as F1.
  pose proof (findIndex_elem _ _ Hnd H2) as F2. rewrite E in F1. congruence.
Qed.

Lemma indexValues_loop_lookup root defs values0 values :
  NoDup (map def_name defs) ->
  indexValues_loop root defs values0 = Ok values ->
  (forall i, i ∉ map def_name defs -> values !! i = values0 !! i) /\
  (forall def, def ∈ defs -> values0 !! def_name def = None ->
     forall v, values !! def_name def = Some v <->
       exists x, pointerValue root (def_path def) = Some x /\ encodeIndexValue x = Ok v).
Proof.
  revert values0. induction defs as [|def defs IH]; intros values0; cbn [map indexValues_loop].
  { intros _ [= ->]. split; [done|]. set_solver. }
  intros [Hn Hnd]%NoDup_cons H.
  assert (exists values1, indexValues_loop root defs values1 = Ok values /\
    (forall i, i <> def_name def -> values1 !! i = values0 !! i) /\
    (values0 !! def_name def = None -> forall v, values1 !! def_name def = Some v <->
       exists x, pointerValue root (def_path def) = Some x /\ encodeIndexValue x = Ok v))
    as (values1 & H1 & Hother & Hself).
  { destruct (pointerValue root (def_path def)) as [x|] eqn:Hx.
    - destruct (encodeIndexValue x) as [e|e|] eqn:He; [| |done].
      + exists (<[def_name def := e]> values0). split; [done|].
        split; [intros i Hi; by rewrite lookup_insert_ne|].
        intros _ v. rewrite lookup_insert_eq. split; [intros [= <-]; by exists x|].
        intros (x' & [= <-] & Hv). congruence.
      + destruct (errorsIs _ _); [|done]. exists values0. split; [done|]. split; [done|].
        intros -> v. split; [done|]. intros (x' & [= <-] & Hv). congruence.
    - exists values0. split; [done|]. split; [done|]. intros -> v. split; [done|].
      by intros (x' & ? & _). }
  destruct (IH values1 Hnd H1) as [IHo IHs]. split.
  - intros i Hi. rewrite IHo by set_solver. apply Hother. set_solver.
  - intros def' [->|Hin]%elem_of_cons Hnone v.
    + rewrite IHo by done. by apply Hself.
    + assert (def_name def' <> def_name def) as Hne.
      { intros E. apply Hn. rewrite <- E. apply list_elem_of_fmap. by exists def'. }
      apply IHs; [done|]. by rewrite Hother.
Qed.

(** The value an index holds of a document is that of its pointer. *)
Lemma docValues_lookup defs document root rest def v :
  NoDup (map def_name defs) -> indexable defs document -> decodeJSON document = Some (root, rest) ->
  def ∈ defs -> def_path def <> [] ->
  docValues defs document !! def_name def = Some v <->
  exists x, pointerValue root (def_path def) = Some x /\ encodeIndexValue x = Ok v.
Proof.
  intros Hnd [values Hv] Hd Hin Hpath. unfold docValues. rewrite Hv. unfold indexValues in Hv.
  rewrite Hd in Hv. apply res_bind_ok in Hv as (root' & Hr & Hv). destruct (atEOF rest); [|done].
  destruct (indexValues_loop_lookup _ _ _ _ Hnd Hv) as [_ Hs]. rewrite (Hs def Hin (lookup_empty _) v).
  destruct root; try done; injection Hr as <-; [|done].
  unfold pointerValue. destruct (splitByte _ _) as [|t ts] eqn:Ht; [|done].
  exfalso. destruct (drop 1 (def_path def)) as [|c p]; [done|]. cbn [splitByte] in Ht.
  destruct (beqb c "/"); [done|]. by destruct (splitByte "/" p).
Qed.

(** ** Documents and matches *)

Section Matching.
Context `{JSONPathSpec} `{CryptoSpec}.

Definition docRoot (d : ldb) (id : bytes) : option json :=
  doc ← ldb_docs d !! id; '(root, _) ← decodeJSON (sd_json doc); Some root.

Definition pathHits (path : jpath) (op : cmpOp) (e : bytes) (d : ldb) (id : bytes) : bool :=
  match docRoot d id with
  | Some root => existsb (valueMatches op e) (jpSelect path root)
  | None => false
  end.

(** The IDs of the documents that a path query matches, in order. *)
Definition pathIDs (d : ldb) (path : jpath) (op : cmpOp) (e : bytes) : list bytes :=
  filter (fun id => pathHits path op e d id = true) (sortedKeys (ldb_docs d)).

Lemma opMatches_eq op c : opValid op = true -> opMatches op c = if beqb op cmpEq then
  match c with Eq => true | _ => false end else opHolds op c.
Proof. destruct op; try discriminate; intros _; destruct c; reflexivity. Qed.

Context (n : bytes) (d : ldb) (Hwd : wfDb n d).

Lemma wfDb_NoDup : NoDup (map def_name (ldb_defs d)).
Proof. destruct Hwd as (_ & _ & Hv & _). by apply validateIndexes_spec in Hv as (_ & _ & ?). Qed.

Lemma pathHits_value path op e pointer def id :
  jsonPathPointer path = Some pointer -> def ∈ ldb_defs d -> def_path def = pointer ->
  pathHits path op e d id = true <->
  exists v, docValue d (def_name def) id = Some v /\ at_ v 0 = at_ e 0 /\ opMatches op (bcmp v e) = true.
Proof.
  intros Hp Hin Hdef. unfold jsonPathPointer in Hp.
  destruct (pointer_loop (jpSegments path) []) as [p|] eqn:Hl; [|done]. cbn [mbind option_bind] in Hp.
  destruct p as [|c p]; [done|]. injection Hp as <-.
  apply pointer_loop_Some in Hl as (names & Hsegs & HF & Hptr). cbn [app] in Hptr.
  destruct names as [|n0 names]; [done|].
  unfold pathHits, docRoot, docValue, docEntries.
  destruct (ldb_docs d !! id) as [doc|] eqn:Hdoc; cbn [mbind option_bind]; cycle 1.
  { split; [done|]. intros (v & Hv & _). by rewrite lookup_empty in Hv. }
  destruct Hwd as (_ & _ & _ & _ & Hdocs). destruct (Hdocs id doc Hdoc) as (_ & _ & Hix & _).
  pose proof Hix as [values Hvals]. unfold indexValues in Hvals.
  destruct (decodeJSON (sd_json doc)) as [[root rest]|] eqn:Hd; [|done]. clear Hvals.
  cbn [mbind option_bind]. rewrite (jpSelect_names path (n0 :: names) root Hsegs).
  rewrite pointerLoop_names by done.
  assert (forall v, docValues (ldb_defs d) (sd_json doc) !! def_name def = Some v <->
            exists x, pointerValue root (def_path def) = Some x /\ encodeIndexValue x = Ok v) as Hval.
  { intros v. apply (docValues_lookup _ _ _ rest _ _ wfDb_NoDup Hix Hd Hin). by rewrite Hdef. }
  setoid_rewrite Hval. rewrite Hdef, Hptr. unfold pointerValue. rewrite pointer_tokens.
  destruct (pointerLoop root _) as [x|]; cbn [existsb]; cycle 1.
  { split; [done|]. by intros (v & (x & ? & _) & _). }
  rewrite orb_false_r. unfold valueMatches. destruct (encodeIndexValue x) as [v|err|] eqn:He.
  - destruct (beqb_spec (at_ v 0) (at_ e 0)) as [Ht|Ht]; cbn [negb].
    + split; [intros Hm; exists v; split; [by exists x|done]|].
      intros (v' & (x' & [= <-] & Hv') & _ & Hm). congruence.
    + split; [done|]. intros (v' & (x' & [= <-] & Hv') & Ht' & _). congruence.
  - split; [done|]. intros (v' & (x' & [= <-] & Hv') & _). congruence.
  - split; [done|]. intros (v' & (x' & [= <-] & Hv') & _). congruence.
Qed.

(** An equality query: the very list an index query answers. *)
Lemma matching_pathIDs path e pointer def :
  jsonPathPointer path = Some pointer -> def ∈ ldb_defs d -> def_path def = pointer ->
  matching d (def_name def) e = pathIDs d path cmpEq e.
Proof.
  intros Hp Hin Hdef. unfold matching, pathIDs. apply list_filter_iff. intros id.
  rewrite (pathHits_value path cmpEq e pointer def id Hp Hin Hdef). split.
  - intros Hv. exists e. split; [done|]. split; [done|]. by rewrite bcmp_refl.
  - intros (v & Hv & _ & Hm). rewrite opMatches_eq in Hm by done.
    destruct (bcmp v e) eqn:E; try done. apply bcmp_eq in E as <-. done.
Qed.

(** A range query: the same documents, ordered by value. *)
Lemma rangeEntries_pathIDs path op e pointer def :
  jsonPathPointer path = Some pointer -> def ∈ ldb_defs d -> def_path def = pointer ->
  opValid op = true -> beqb op cmpEq = false ->
  Permutation (map snd (rangeEntries d (def_name def) op e)) (pathIDs d path op e).
Proof.
  intros Hp Hin Hdef Hop Hne. apply NoDup_Permutation.
  - pose proof (indexEntries_NoDup d (def_name def)) as Hnd. unfold rangeEntries.
    assert (forall x, x ∈ filter (fun x => at_ x.1 0 = at_ e 0 /\ opHolds op (bcmp x.1 e) = true)
              (indexEntries d (def_name def)) -> docValue d (def_name def) x.2 = Some x.1) as Hel.
    { intros [v id] Hx. apply list_elem_of_filter in Hx as [_ Hx]. by apply elem_indexEntries. }
    apply (NoDup_filter (fun x => at_ x.1 0 = at_ e 0 /\ opHolds op (bcmp x.1 e) = true)) in Hnd.
    revert Hnd Hel. generalize (filter (fun x => at_ x.1 0 = at_ e 0 /\ opHolds op (bcmp x.1 e) = true)
      (indexEntries d (def_name def))) as l.
    induction l as [|x l IH]; [constructor|]. intros [Hx Hnd]%NoDup_cons Hel. cbn [map]. constructor.
    + intros (y & E & Hy)%list_elem_of_fmap. apply Hx.
      replace x with y; [done|]. destruct x as [v1 i1], y as [v2 i2]. cbn [snd] in E. subst i2.
      pose proof (Hel (v1, i1) ltac:(left)) as E1. pose proof (Hel (v2, i1) ltac:(by right)) as E2.
      cbn [fst snd] in *. congruence.
    + apply IH; [done|]. intros y Hy. apply Hel. by right.
  - apply NoDup_filter, sortedKeys_NoDup.
  - intros id. unfold pathIDs. rewrite list_elem_of_filter, elem_sortedKeys.
    rewrite (pathHits_value path op e pointer def id Hp Hin Hdef), list_elem_of_fmap. split.
    + intros ([v id'] & -> & Hx). unfold rangeEntries in Hx.
      apply list_elem_of_filter in Hx as [[Ht Hm] Hx]. apply elem_indexEntries in Hx.
      cbn [fst snd] in *. split; [|by eapply docValue_Some]. exists v. split; [done|]. split; [done|].
      rewrite opMatches_eq, Hne by done. done.
    + intros [(v & Hv & Ht & Hm) _]. exists (v, id). split; [done|]. unfold rangeEntries.
      rewrite list_elem_of_filter, elem_indexEntries. rewrite opMatches_eq, Hne in Hm by done. done.
Qed.
End Matching.

(** ** Plans *)

(** The index a query of a path reads: the first one on the pointer of its names. *)
Inductive usesIndex `{JSONPath} (d : ldb) (path : jpath) : bytes -> Prop :=
  | uses_first names before def behind :
      memberPath path names -> ldb_defs d = before ++ def :: behind -> def_path def = pointerTo names ->
      Forall (fun other => def_path other <> pointerTo names) before ->
      usesIndex d path (def_name def)
  | uses_none :
      (forall names, memberPath path names -> Forall (fun def => def_path def <> pointerTo names) (ldb_defs d)) ->
      usesIndex d path [].

Lemma findPath_first defs pointer :
  Forall (fun def => def_path def <> pointer) defs /\ findPath defs pointer = [] \/
  exists before def behind, defs = before ++ def :: behind /\ def_path def = pointer /\
    Forall (fun other => def_path other <> pointer) before /\ findPath defs pointer = def_name def.
Proof.
  induction defs as [|def defs IH]; cbn [findPath]; [by left|].
  destruct (decide (def_path def = pointer)) as [Hp|Hp].
  { right. by exists [], def, defs. }
  destruct IH as [[HF Hn]|(before & def' & behind & -> & Hp' & HF & Hn)]; [left; split; [by constructor|done]|].
  right. exists (def :: before), def', behind. repeat (split; [done|]). split; [by constructor|done].
Qed.

Lemma findPath_uses `{JSONPath} d path pointer :
  jsonPathPointer path = Some pointer -> usesIndex d path (findPath (ldb_defs d) pointer).
Proof.
  intros Hp. pose proof Hp as (names & Hm & ->)%jsonPathPointer_Some.
  destruct (findPath_first (ldb_defs d) (pointerTo names)) as [[HF ->]|(before & def & behind & Hd & Hdef & HF & ->)];
    [|by eapply uses_first]. apply uses_none. intros names' Hm'.
  assert (jsonPathPointer path = Some (pointerTo names')) as Hp' by (apply jsonPathPointer_Some; by exists names').
  rewrite Hp in Hp'. by injection Hp' as <-.
Qed.

Lemma noPointer_uses `{JSONPath} d path : jsonPathPointer path = None -> usesIndex d path [].
Proof.
  intros Hp. apply uses_none. intros names Hm.
  assert (jsonPathPointer path = Some (pointerTo names)) by (apply jsonPathPointer_Some; by exists names). congruence.
Qed.

Lemma usesIndex_def `{JSONPath} d path index :
  usesIndex d path index -> index <> [] ->
  exists pointer def, jsonPathPointer path = Some pointer /\ def ∈ ldb_defs d /\ def_path def = pointer /\
    index = def_name def.
Proof.
  intros [names before def behind Hm Hd Hdef _|?] Hne; [|done]. exists (pointerTo names), def.
  split; [apply jsonPathPointer_Some; by exists names|]. split; [rewrite Hd; set_solver|done].
Qed.
