(* ===== verification/QueryRuns.v ===== *)
(** * Running path queries

    What the scan and the plans return on a store that represents an abstract
    state. *)

From S2P Require Import Prelude GoErrors Codec Text Base64 Validation Keys Number Json IndexValue.
From S2P Require Import Document Host Crypto Wp Store StoreRep StoreReads StoreSpec StoreLists Range.
From S2P Require Import StoreRange Cursor Query PathText QueryFacts.

(** ** Counting nodes *)

Definition stackNodes (stack : list json) : nat := fold_right (fun v n => (jsonNodes v + n)%nat) 0%nat stack.

Lemma stackNodes_app a b : stackNodes (a ++ b) = (stackNodes a + stackNodes b)%nat.
Proof. induction a as [|v a IH]; [done|]. simpl. lia. Qed.

Lemma stackNodes_reverse l : stackNodes (reverse l) = stackNodes l.
Proof.
  induction l as [|v l IH]; [done|]. rewrite reverse_cons, stackNodes_app, IH. simpl. lia.
Qed.

Lemma stackNodes_children v : S (stackNodes (children v)) = jsonNodes v.
Proof.
  destruct v as [| | | |l|m]; try done; cbn [children jsonNodes]; rewrite stackNodes_reverse; [done|].
  f_equal. induction m as [|[k v] m IH]; [done|]. simpl. by rewrite IH.
Qed.

Lemma jsonNodes_pos v : (1 <= jsonNodes v)%nat.
Proof. rewrite <- stackNodes_children. lia. Qed.

Section Runs.
Context {W : Type} `{HS : HostSpec W} `{CS : CryptoSpec} `{JS : JSONPathSpec}.

Lemma reads_checkNodes_loop c ctx stack work limit fuel :
  (stackNodes stack <= fuel)%nat -> 0 <= work <= limit ->
  reads c (checkNodes_loop fuel ctx stack work limit)
    (fun _ => Z.of_nat (stackNodes stack) <= limit - work)
    (fun x => x = Some (errQueryLimit : error) /\ limit - work < Z.of_nat (stackNodes stack)).
Proof.
  revert stack work. induction fuel as [|f IH]; intros stack work Hf Hw;
    (destruct stack as [|v stack]; cbn [checkNodes_loop]; [apply reads_ret; simpl; lia|]).
  { pose proof (jsonNodes_pos v). simpl in Hf. lia. }
  eapply reads_bind; [apply reads_ctxErr|]. intros _ _. pose proof (stackNodes_children v) as Hc.
  simpl stackNodes in *. destruct (Z.leb_spec limit work) as [Hl|Hl].
  - apply reads_throw. split; [done|]. lia.
  - eapply reads_mono; [apply IH; [rewrite stackNodes_app; lia|lia]| |]; rewrite stackNodes_app;
      [intros _ ?; lia|]. intros x [-> ?]. split; [done|lia].
Qed.

Lemma reads_checkQueryNodes c ctx root limit :
  0 <= limit ->
  reads c (checkQueryNodes ctx root limit) (fun _ => Z.of_nat (jsonNodes root) <= limit)
    (fun x => x = Some (errQueryLimit : error) /\ limit < Z.of_nat (jsonNodes root)).
Proof.
  intros Hl. assert (stackNodes [root] = jsonNodes root) as E by (simpl; lia).
  eapply reads_mono; [apply (reads_checkNodes_loop c ctx [root] 0 limit (jsonNodes root)); lia| |];
    rewrite E, Z.sub_0_r; [done|]. intros x [-> ?]. by split.
Qed.

Lemma reads_pathMatches c ctx path root op e limit :
  0 <= limit ->
  reads c (pathMatches ctx path root op e limit)
    (fun b => b = existsb (valueMatches op e) (jpSelect path root))
    (fun x => x = Some (errQueryLimit : error) /\ limit < Z.of_nat (jsonNodes root)).
Proof.
  intros Hl. unfold pathMatches. eapply reads_bind; [by apply reads_checkQueryNodes|]. intros _ _.
  eapply reads_bind; [apply reads_ctxErr|]. intros _ _. by apply reads_ret.
Qed.

(** ** The page of a scan

    [scanPage limit maxWork hits keys]: of the first [maxWork] keys, those that
    hit, at most [limit]; the key the scan has got to; and whether it stopped
    before the end. *)

Definition scanPage (limit maxWork : Z) (hits : bytes -> bool) (keys : list bytes) : pathPage :=
  let seen := take (Z.to_nat maxWork) keys in
  let found := filter (fun id => hits id = true) seen in
  if limit <? len found then
    let ids := take (Z.to_nat limit) found in PathPage ids (default [] (last ids)) true
  else PathPage found (default [] (last seen)) (maxWork <? len keys).

(** The scan as a recursion over the keys. *)
Fixpoint scanFrom (limit maxWork : Z) (hits : bytes -> bool) (keys : list bytes) (work : Z)
    (ids : list bytes) (lastID : bytes) : pathPage * list bytes :=
  match keys with
  | [] => (PathPage ids lastID false, [])
  | id :: keys' =>
      if maxWork <=? work then (PathPage ids lastID true, keys)
      else
        let ids' := if hits id then ids ++ [id] else ids in
        if limit <? len ids' then
          let ids'' := take (Z.to_nat limit) ids' in (PathPage ids'' (default [] (last ids'')) true, keys)
        else scanFrom limit maxWork hits keys' (work + 1) ids' id
  end.

Lemma default_last {A} (x y : A) l : default y (last (x :: l)) = default x (last l).
Proof. rewrite last_cons. by destruct (last l). Qed.

Lemma scanFrom_spec limit maxWork hits keys work ids lastID :
  0 <= work <= maxWork -> len ids <= limit ->
  let seen := take (Z.to_nat (maxWork - work)) keys in
  let found := ids ++ filter (fun id => hits id = true) seen in
  (scanFrom limit maxWork hits keys work ids lastID).1
  = if limit <? len found then
      let ids := take (Z.to_nat limit) found in PathPage ids (default [] (last ids)) true
    else PathPage found (default lastID (last seen)) (maxWork - work <? len keys).
Proof.
  revert work ids lastID. induction keys as [|id keys IH]; intros work ids lastID Hw Hl; cbv zeta.
  { rewrite take_nil, filter_nil, app_nil_r. rewrite (proj2 (Z.ltb_ge _ _)) by done.
    cbn [scanFrom fst last default]. rewrite len_nil, (proj2 (Z.ltb_ge _ _)) by lia. done. }
  cbn [scanFrom]. destruct (Z.leb_spec maxWork work) as [Hle|Hlt].
  { replace (Z.to_nat (maxWork - work)) with 0%nat by lia. rewrite take_0, filter_nil, app_nil_r.
    rewrite (proj2 (Z.ltb_ge _ _)) by done. cbn [fst last default].
    rewrite len_cons. pose proof (len_nonneg keys). by rewrite (proj2 (Z.ltb_lt _ _)) by lia. }
  replace (Z.to_nat (maxWork - work)) with (S (Z.to_nat (maxWork - (work + 1)))) by lia. cbn [take].
  rewrite filter_cons, default_last. set (ids' := if hits id then ids ++ [id] else ids).
  replace (ids ++ (if decide (hits id = true) then _ else _))
    with (ids' ++ filter (fun id => hits id = true) (take (Z.to_nat (maxWork - (work + 1))) keys)); cycle 1.
  { unfold ids'. destruct (decide (hits id = true)) as [->|Hn]; [by rewrite <- app_assoc|].
    by rewrite (not_true_is_false _ Hn). }
  destruct (Z.ltb_spec limit (len ids')) as [Hlim|Hlim].
  - rewrite len_app. pose proof (len_nonneg (filter (fun id => hits id = true)
      (take (Z.to_nat (maxWork - (work + 1))) keys))).
    rewrite (proj2 (Z.ltb_lt _ _)) by lia. cbn [fst].
    rewrite take_app_le; [done|]. unfold len in *. lia.
  - rewrite IH by lia. cbv zeta. rewrite len_cons.
    replace (maxWork - (work + 1) <? len keys) with (maxWork - work <? 1 + len keys); [done|].
    destruct (Z.ltb_spec (maxWork - work) (1 + len keys)); symmetry; [apply Z.ltb_lt|apply Z.ltb_ge]; lia.
Qed.

Lemma scanFrom_page limit maxWork hits keys :
  0 <= maxWork -> 0 <= limit ->
  (scanFrom limit maxWork hits keys 0 [] []).1 = scanPage limit maxWork hits keys.
Proof. intros Hw Hl. rewrite scanFrom_spec by (rewrite ?len_nil; lia). by rewrite Z.sub_0_r. Qed.

(** A scan that has stopped does not look at what follows. *)
Lemma scanFrom_app limit maxWork hits l1 l2 work ids lastID :
  (scanFrom limit maxWork hits l1 work ids lastID).2 <> [] ->
  (scanFrom limit maxWork hits (l1 ++ l2) work ids lastID).1
  = (scanFrom limit maxWork hits l1 work ids lastID).1.
Proof.
  revert work ids lastID. induction l1 as [|id l1 IH]; intros work ids lastID; cbn [scanFrom app]; [done|].
  destruct (_ <=? _); [done|]. destruct (_ <? _); [done|]. apply IH.
Qed.

(** ** Reading the documents *)

Section Scan.
Context (wk : storeKey) (c : gmap bytes bytes) (a : astate) (Hrep : store_rep wk c a).
Context (n : bytes) (d : ldb) (Hd : a !! n = Some d).

(** A document of the database has more nodes than a query may look at. *)
Definition tooLarge : Prop :=
  exists id root, docRoot d id = Some root /\ maxQueryNodes < Z.of_nat (jsonNodes root).

Definition limitExit : exits :=
  fun x => exists e, x = Some e /\ errorsIs errQueryLimit e = true /\ tooLarge.

Lemma goodDoc_root x : goodDoc n d x -> exists doc root rest,
  ldb_docs d !! x.1 = Some doc /\ openDoc (docKey n x.1) (ldb_key d) x.1 x.2 = Ok doc /\
  validateID x.1 = Ok () /\ decodeJSON (sd_json doc) = Some (root, rest) /\ docRoot d x.1 = Some root.
Proof.
  intros (doc & Hdoc & Ho & Hid & _ & [values Hv] & _). unfold indexValues in Hv.
  destruct (decodeJSON (sd_json doc)) as [[root rest]|] eqn:Hj; [|done].
  exists doc, root, rest. repeat (split; [done|]). unfold docRoot. rewrite Hdoc.
  cbn [mbind option_bind]. by rewrite Hj.
Qed.

Lemma reads_queryPath_loop ctx path op e limit maxWork xs work ids lastID :
  Forall (goodDoc n d) xs ->
  reads c (queryPath_loop ctx (ldb_key d) (docsPrefix n) path op e limit maxWork (map (docEntry n) xs)
             work ids lastID)
    (fun r => let s := scanFrom limit maxWork (pathHits path op e d) (map fst xs) work ids lastID in
              r.1 = s.1 /\ (r.2 = [] -> s.2 = []) /\ (s.2 = [] -> r.2 = [])) limitExit.
Proof.
  intros HF. revert work ids lastID. induction HF as [|x xs Hx HF IH]; intros work ids lastID;
    cbn [map queryPath_loop docEntry scanFrom]; [by apply reads_ret|].
  eapply reads_bind; [apply reads_ctxErr|]. intros _ _.
  destruct (Z.leb_spec maxWork work); [by apply reads_ret|].
  destruct (goodDoc_root x Hx) as (doc & root & rest & Hdoc & Ho & Hid & Hj & Hr).
  unfold docKey. rewrite drop_app_length. rewrite Hid. cbn [is_ok negb].
  change (docsPrefix n ++ x.1) with (docKey n x.1). rewrite Ho.
  eapply reads_bind; [by apply (reads_onErr_lift c wrapf (Ok doc) (fun y => y = doc))|]. intros ? ->.
  rewrite Hj. eapply reads_bind.
  { eapply reads_mono; [by apply reads_pathMatches|exact (fun _ H => H)|].
    intros y [-> Hl]. exists errQueryLimit. split; [done|]. split; [done|]. by exists x.1, root. }
  intros ? ->. assert (pathHits path op e d x.1 = existsb (valueMatches op e) (jpSelect path root)) as Hh
    by (unfold pathHits; by rewrite Hr).
  rewrite <- Hh. destruct (limit <? len _); [by apply reads_ret|apply IH].
Qed.

Lemma reads_queryPath_body ctx path op e limit maxWork afterID it l2 :
  isScan c (Some (docsPrefix n)) (prefixEnd (docsPrefix n)) (it_entries it ++ l2) ->
  (it_err it = None -> l2 = []) -> (forall e', it_err it = Some e' -> foreign e') ->
  0 <= limit -> 0 <= maxWork ->
  reads c
    (let start := match afterID with
                  | [] => it_entries it
                  | _ => seekAfter (docKey n afterID) (it_entries it)
                  end in
     '(page, rest) ←
        queryPath_loop ctx (ldb_key d) (docsPrefix n) path op e limit maxWork start 0 [] [];
     _ ← iterError it rest;
     mret page)
    (fun r => r = scanPage limit maxWork (pathHits path op e d) (after afterID (sortedKeys (ldb_docs d))))
    (fun x => (it_err it <> None /\ outsideExit x) \/ limitExit x).
Proof.
  intros Hscan Hnone Hfe Hlim Hwork. cbv zeta.
  pose proof (ssorted_app_l _ _ _ (scan_sorted c _ _ _ Hscan)) as HSort.
  destruct (scan_docs wk c a Hrep n d _ Hd Hscan) as (xs & Hl & Hkeys & HF).
  apply map_app_inv in Hl as (xs1 & xs2 & Hl1 & Hl2 & ->). apply Forall_app in HF as [HF _].
  rewrite (start_filter (docKey n) afterID (it_entries it) xs1);
    [|apply docKey_lt|done|done|]; cycle 1.
  { eapply Forall_impl; [exact HF|]. intros x (doc & _ & _ & Hw). apply validID_nonempty, Hw. }
  set (ys := filter _ xs1).
  assert (Forall (goodDoc n d) ys) as HFy by (by apply Forall_filter_impl).
  eapply reads_bind.
  { eapply reads_mono; [by apply reads_queryPath_loop|exact (fun _ H => H)|]. intros x Hx. by right. }
  intros [page rest] (Hp & Hr1 & Hr2). cbn [fst snd] in *.
  assert (map fst ys = after afterID (map fst xs1)) as Hys by apply after_map.
  assert (after afterID (sortedKeys (ldb_docs d)) = map fst ys ++ after afterID (map fst xs2)) as Hall.
  { by rewrite Hys, <- after_app, <- map_app, Hkeys. }
  assert (rest <> [] \/ xs2 = [] ->
    page = scanPage limit maxWork (pathHits path op e d) (after afterID (sortedKeys (ldb_docs d)))) as Hpage.
  { intros Hcase. rewrite Hp, <- scanFrom_page, Hall by done. destruct Hcase as [Hne| ->].
    - rewrite scanFrom_app; [done|]. intros E. by apply Hne, Hr2.
    - by rewrite app_nil_r. }
  destruct (it_err it) as [e'|] eqn:Herr.
  - destruct rest as [|y rest'].
    + apply (reads_bind c _ _ (fun _ => False)); [|done]. eapply reads_mono;
        [apply (reads_iterError_bad c it e' (fun _ => False) Herr); by apply Hfe|done|].
      intros x Hx. left. by split.
    + eapply reads_bind; [by apply (reads_ret c () (fun _ => True))|]. intros _ _. apply reads_ret.
      apply Hpage. by left.
  - eapply reads_bind; [by apply reads_iterError_ok|]. intros _ _. apply reads_ret. apply Hpage. right.
    specialize (Hnone eq_refl). subst l2. by destruct xs2.
Qed.

End Scan.

Section Execute.
Context (wk : storeKey) (c : gmap bytes bytes) (a : astate) (Hrep : store_rep wk c a).

Lemma reads_queryPathDocs ctx n path op value e limit maxWork afterID :
  validName n -> encodeIndexValue value = Ok e -> 0 <= limit -> 0 <= maxWork ->
  reads c (queryPathDocs wk ctx n path op value limit maxWork afterID)
    (fun r => exists d, a !! n = Some d /\
       r = scanPage limit maxWork (pathHits path op e d) (after afterID (sortedKeys (ldb_docs d))))
    (fun x => x = Some (errDBNotFound : error) /\ a !! n = None \/
              exists d, a !! n = Some d /\ limitExit d x).
Proof.
  intros Hn He Hlim Hwork. unfold queryPathDocs. eapply reads_bind.
  { eapply reads_mono; [by apply (reads_databaseKey wk c a Hrep)|exact (fun _ H => H)|].
    intros x [-> ?]. by left. }
  intros ? (d & Hd & ->). rewrite He.
  eapply reads_bind; [by apply (reads_lift c (Ok e) (fun y => y = e))|]. intros ? ->. cbv zeta.
  eapply reads_bind; [apply reads_newSnapshot|]. intros s Hs.
  eapply reads_mono with (E := limitExit d) (P := fun r => r = scanPage _ _ _ _);
    [|intros r ->; by exists d|intros x Hx; right; by exists d].
  apply (reads_snapScan_gen c s); [done|..].
  - intros e1 ce (? & [= <-] & He1 & Ht) _. exists (join e1 ce). split; [done|]. split; [|done].
    by rewrite errorsIs_join, He1.
  - intros it l2 Hscan Hnone Hfe. by apply (reads_queryPath_body wk c a Hrep n d Hd ctx path op e limit maxWork afterID it l2).
Qed.

(** A page of an index: the IDs, where to resume, and whether to. *)
Definition indexAnswer (d : ldb) (index : bytes) (op : cmpOp) (limit : Z) (e afterID lastValue : bytes)
    : list bytes * bytes * bytes * bool :=
  if beqb op cmpEq then
    let '(ids, more) := page limit afterID (matching d index e) in
    (ids, default [] (last ids), lastValue, more)
  else
    let p := rangePage limit (afterCursor lastValue afterID (rangeEntries d index op e)) in
    (ip_ids p, default [] (last (ip_ids p)), ip_lastValue p, ip_more p).

(** What a plan answers. *)
Definition planAnswer (d : ldb) (plan : pathPlan) (query : pathQuery) (e afterID lastValue : bytes)
    : list bytes * bytes * bytes * bool :=
  match pp_index plan with
  | [] =>
      let p := scanPage (pq_limit query) maxScanDocs (pathHits (pp_path plan) (pq_op query) e d)
                 (after afterID (sortedKeys (ldb_docs d))) in
      (pg_ids p, pg_lastID p, lastValue, pg_more p)
  | index => indexAnswer d index (pq_op query) (pq_limit query) e afterID lastValue
  end.

(** Why the execution of a plan fails. *)
Inductive planFails (n : bytes) (plan : pathPlan) (query : pathQuery) (e av aid : bytes) : error -> Prop :=
  | plan_no_db : a !! n = None -> planFails n plan query e av aid errDBNotFound
  | plan_limit d err : a !! n = Some d -> pp_index plan = [] -> errorsIs errQueryLimit err = true ->
      tooLarge d -> planFails n plan query e av aid err
  | plan_index valid validCursor err : pp_index plan <> [] ->
      queryFails a n (pp_index plan) valid validCursor err ->
      (valid = validIndexValue e /\ validCursor = true \/
       valid = rangeValid (pq_op query) e /\ validCursor = rangeCursorValid e av aid) ->
      planFails n plan query e av aid err.

Definition planned (d : ldb) (plan : pathPlan) : Prop :=
  pp_index plan <> [] -> is_Some (findIndex (ldb_defs d) (pp_index plan)).

Lemma reads_runPlan ctx n plan query e afterID lastValue :
  validName n -> encodeIndexValue (pq_value query) = Ok e -> 1 <= pq_limit query ->
  reads c (runPlan wk ctx n plan query e afterID lastValue)
    (fun r => exists d, a !! n = Some d /\ planned d plan /\ r = planAnswer d plan query e afterID lastValue)
    (fun x => exists err, x = Some err /\ planFails n plan query e lastValue afterID err).
Proof.
  intros Hn He Hlim. unfold runPlan, planAnswer, indexAnswer, planned.
  destruct (pp_index plan) as [|b index'] eqn:Hix.
  - eapply reads_bind.
    { eapply reads_mono; [apply reads_queryPathDocs; [done|exact He|lia|unfold maxScanDocs; lia]
        |exact (fun _ H => H)|].
      intros x [[-> Hno]|(d & Hd & err & -> & Herr & Ht)]; eexists; (split; [done|]);
        [by apply plan_no_db|by eapply plan_limit]. }
    intros p (d & Hd & ->). apply reads_ret. by exists d.
  - destruct (beqb (pq_op query) cmpEq).
    + eapply reads_bind.
      { eapply reads_mono; [apply (reads_queryDocsCtx wk c a Hrep); [done|lia]|exact (fun _ H => H)|].
        intros x (err & -> & Herr). exists err. split; [done|].
        rewrite <- Hix in Herr. eapply plan_index; [by rewrite Hix|exact Herr|]. by left. }
      intros [ids more] (d & Hd & Hi & _ & E). apply reads_ret. exists d.
      destruct (page _ _ _) as [ids' more']. injection E as -> ->. done.
    + eapply reads_bind.
      { eapply reads_mono; [apply (reads_queryRangePage wk c a Hrep); [done|done]|exact (fun _ H => H)|].
        intros x (err & -> & Herr). exists err. split; [done|].
        rewrite <- Hix in Herr. eapply plan_index; [by rewrite Hix|exact Herr|]. by right. }
      intros p (d & Hd & Hi & _ & _ & ->). apply reads_ret. by exists d.
Qed.

(** ** Cursors *)

Lemma pathStart_ok box n plan query e aid av :
  pathStart box n plan query e = Ok (aid, av) ->
  aid = [] /\ av = [] \/
  exists cursor, validatePathCursor cursor = Ok () /\ matchPathCursor cursor n plan query e = true /\
    aid = pc_id cursor /\ av = pc_lastValue cursor.
Proof.
  unfold pathStart. destruct (pq_cursor query) as [|b token]; [intros [= <- <-]; by left|].
  unfold decodePathCursor. destruct (rest ← _; _) as [cursor|]; [|done].
  destruct (validatePathCursor_cases cursor) as [Hv|Hv]; rewrite Hv; [|done].
  destruct (matchPathCursor _ _ _ _ _) eqn:Hm; [|done]. intros [= <- <-]. right. by exists cursor.
Qed.

Lemma pathStart_lastValue box n plan query e aid av :
  pathStart box n plan query e = Ok (aid, av) ->
  pp_index plan = [] \/ beqb (pq_op query) cmpEq = true -> av = [].
Proof.
  intros [[_ ->]|(cursor & Hv & Hm & _ & ->)]%pathStart_ok Hcase; [done|].
  unfold matchPathCursor in Hm. rewrite !andb_true_iff, !bool_decide_eq_true, !beqb_eq in Hm.
  destruct Hm as [[[[[[[_ _] Ho] _] _] _] Hop] _]. unfold validatePathCursor in Hv.
  rewrite Ho in Hv. destruct (_ || _) in Hv; [done|]. destruct (negb _) in Hv; [done|].
  destruct (_ || _) in Hv; [done|]. destruct Hcase as [E|E].
  - rewrite E in Hv. change (beqb orderDocument orderDocument) with true in Hv. cbv iota in Hv.
    destruct (_ || _) eqn:E2 in Hv; [done|]. apply orb_false_iff in E2 as [_ E2].
    apply negb_false_iff, Z.eqb_eq in E2. by apply len_0_nil.
  - destruct (pp_index plan).
    { change (beqb orderDocument orderDocument) with true in Hv. cbv iota in Hv.
      destruct (_ || _) eqn:E2 in Hv; [done|]. apply orb_false_iff in E2 as [_ E2].
      apply negb_false_iff, Z.eqb_eq in E2. by apply len_0_nil. }
    change (beqb orderIndex orderDocument) with false in Hv. cbv iota in Hv.
    destruct (negb _) in Hv; [done|]. unfold lastValueFits in Hv. rewrite Hop, E in Hv.
    destruct (Z.eqb_spec (len (pc_lastValue cursor)) 0) as [E2|]; [|done]. by apply len_0_nil.
Qed.

Lemma validID_ok id : validID id -> is_ok (validateID id) = true.
Proof. intros Hid. unfold validID in Hid. by rewrite Hid. Qed.

Lemma last_take_elem {A} (P : A -> Prop) k l :
  Forall P l -> (0 < k)%nat -> l <> [] -> exists x, last (take k l) = Some x /\ P x.
Proof.
  intros HF Hk Hne. destruct (last (take k l)) as [x|] eqn:E.
  - exists x. split; [done|]. rewrite last_lookup in E. apply list_elem_of_lookup_2 in E.
    rewrite <- (take_drop k l) in HF. apply Forall_app in HF as [HF _].
    rewrite Forall_forall in HF. by apply HF.
  - apply last_None in E. destruct l; [done|]. destruct k; [lia|done].
Qed.

Lemma scanPage_more limit maxWork hits keys :
  1 <= limit -> 1 <= maxWork -> Forall validID keys -> pg_more (scanPage limit maxWork hits keys) = true ->
  validID (pg_lastID (scanPage limit maxWork hits keys)).
Proof.
  intros Hl Hw HF. unfold scanPage. cbv zeta. set (seen := take (Z.to_nat maxWork) keys).
  set (found := filter _ seen). assert (Forall validID seen) as HFs by (by apply Forall_take).
  assert (Forall validID found) as HFf by (by apply Forall_filter_impl).
  destruct (Z.ltb_spec limit (len found)) as [Hlt|Hge]; cbn [pg_more pg_lastID].
  - intros _. destruct (last_take_elem validID (Z.to_nat limit) found HFf) as (x & -> & Hx); [lia| |done].
    intros E. rewrite E, len_nil in Hlt. lia.
  - intros Hlt%Z.ltb_lt.
    destruct (last_take_elem validID (Z.to_nat maxWork) keys HF) as (x & Hx & Hv); [lia| |].
    + intros ->. rewrite len_nil in Hlt. lia.
    + fold seen in Hx. by rewrite Hx.
Qed.

Lemma docs_validID n d id : wfDb n d -> is_Some (ldb_docs d !! id) -> validID id.
Proof. intros (_ & _ & _ & _ & HF) [doc Hdoc]. apply (HF id doc Hdoc). Qed.

(** The position of a page that is not the last makes a valid cursor. *)
Lemma index_position n d ix op limit e aid av ids id' lv' :
  a !! n = Some d -> 1 <= limit -> opValid op = true -> av = [] \/ beqb op cmpEq = false ->
  indexAnswer d ix op limit e aid av = (ids, id', lv', true) ->
  validID id' /\ lastValueFits op e lv' = true.
Proof.
  intros Hd Hlim Hop Hav. pose proof (rep_wfDb wk c a Hrep n d Hd) as Hwd.
  assert (Forall validID (sortedKeys (ldb_docs d))) as HFk.
  { apply Forall_forall. intros id Hid. apply elem_sortedKeys in Hid. by eapply docs_validID. }
  unfold indexAnswer. destruct (beqb op cmpEq) eqn:Heq.
  - unfold page. intros [= _ <- <- Hmore%Z.ltb_lt]. split.
    + destruct (last_take_elem validID (Z.to_nat limit) (after aid (matching d ix e)))
        as (x & -> & Hx); [by apply Forall_filter_impl, Forall_filter_impl|lia| |done].
      intros E. rewrite E, len_nil in Hmore. lia.
    + unfold lastValueFits. rewrite Heq. by destruct Hav as [->|?].
  - intros E. apply (f_equal (fun r => (snd r, snd (fst r), snd (fst (fst r))))) in E.
    cbn [fst snd] in E. injection E as Hmore Hlv Hid.
    set (l := afterCursor av aid (rangeEntries d ix op e)) in *.
    rewrite rangePage_more in Hmore. apply Z.ltb_lt in Hmore.
    destruct (rangePage_last limit l Hlim Hmore) as (x & Hx & Hval & Hxid).
    unfold lastID in Hxid. rewrite Hval in Hlv. rewrite Hxid in Hid. subst id' lv'.
    assert (x ∈ rangeEntries d ix op e) as Hin.
    { destruct (afterCursor_suffix av aid (rangeEntries d ix op e)
        (rangeEntries_sorted n d Hwd _ _ _)) as [j Hj].
      unfold l in Hx. rewrite Hj, lookup_drop in Hx. by apply list_elem_of_lookup_2 in Hx. }
    unfold rangeEntries in Hin. apply list_elem_of_filter in Hin as [[Htag _] Hin].
    destruct x as [v id]. apply elem_indexEntries in Hin. cbn [fst snd] in *. split.
    + eapply docs_validID; [exact Hwd|]. by eapply docValue_Some.
    + unfold lastValueFits. rewrite Heq. cbn [andb negb].
      by rewrite (docValue_valid n d Hwd _ id v Hin), Htag, beqb_refl.
Qed.

Lemma answer_position n d plan query e aid av ids id' lv' :
  a !! n = Some d -> planned d plan -> 1 <= pq_limit query -> opValid (pq_op query) = true ->
  av = [] \/ pp_index plan <> [] /\ beqb (pq_op query) cmpEq = false ->
  planAnswer d plan query e aid av = (ids, id', lv', true) ->
  validID id' /\
  match pp_index plan with
  | [] => lv' = []
  | _ => validName (pp_index plan) /\ lastValueFits (pq_op query) e lv' = true
  end.
Proof.
  intros Hd Hplan Hlim Hop Hav. unfold planAnswer. unfold planned in Hplan.
  destruct (pp_index plan) as [|b ix] eqn:Hix.
  - pose proof (rep_wfDb wk c a Hrep n d Hd) as Hwd.
    assert (Forall validID (sortedKeys (ldb_docs d))) as HFk.
    { apply Forall_forall. intros id Hid. apply elem_sortedKeys in Hid. by eapply docs_validID. }
    intros [= _ <- <- Hmore]. split; [|by destruct Hav as [?|[? _]]].
    apply scanPage_more; [done|unfold maxScanDocs; lia|by apply Forall_filter_impl|done].
  - specialize (Hplan ltac:(done)). pose proof (findIndex_validName wk c a Hrep n d _ Hd Hplan) as Hvn.
    intros E. apply (index_position n) in E as [? ?]; [done|done|done|done|].
    destruct Hav as [?|[_ ?]]; [by left|by right].
Qed.

Definition withCursor (query : pathQuery) (token : bytes) : pathQuery :=
  PathQuery (pq_path query) (pq_value query) token (pq_op query) (pq_limit query).

(** The key of the cursors of a database: derived from its stored key, so that a
    cursor outlives the process that made it. *)
Definition cursorKeyOf (d : ldb) : bytes := hkdfSha256 (ldb_key d) [] cursorInfo.

Lemma reads_cursorKey n :
  validName n ->
  reads c (cursorKey wk n) (fun key => exists d, a !! n = Some d /\ key = cursorKeyOf d)
    (fun x => x = Some (errDBNotFound : error) /\ a !! n = None).
Proof.
  intros Hn. unfold cursorKey.
  eapply reads_bind; [by apply (reads_databaseKey wk c a Hrep)|]. intros ? (d & Hd & ->).
  apply reads_onErr_lift. unfold deriveCursorKey. rewrite deriveKey_32; [by exists d|].
  apply (rep_dbk_len wk c a Hrep n d Hd).
Qed.

(** The key is a cipher key of its length, so the cipher is always made. *)
Lemma reads_cursorBox {A : Type} n (k : bytes -> M W A) (P : A -> Prop) (E : exits) :
  validName n -> E (Some (errDBNotFound : error)) \/ is_Some (a !! n) ->
  (forall d, a !! n = Some d -> reads c (k (cursorKeyOf d)) P E) ->
  reads c (key ← cursorKey wk n; box ← lift (newQueryCipher key); k box) P E.
Proof.
  intros Hn HE Hk. eapply reads_bind.
  { eapply reads_mono; [by apply reads_cursorKey|exact (fun _ H => H)|].
    intros x [-> Hno]. destruct HE as [?|[d Hd]]; [done|congruence]. }
  intros ? (d & Hd & ->). unfold newQueryCipher. rewrite newGCM_32 by apply len_hkdf.
  eapply reads_bind; [by apply (reads_lift c (Ok _) (fun b => b = cursorKeyOf d))|].
  intros ? ->. by apply Hk.
Qed.

Inductive execFails (n : bytes) (plan : pathPlan) (query : pathQuery) : error -> Prop :=
  | exec_no_db : a !! n = None -> execFails n plan query errDBNotFound
  | exec_value d err : a !! n = Some d -> encodeIndexValue (pq_value query) = Err err ->
      execFails n plan query err
  | exec_cursor d e : a !! n = Some d -> encodeIndexValue (pq_value query) = Ok e ->
      (forall p, pathStart (cursorKeyOf d) n plan query e <> Ok p) ->
      execFails n plan query errInvalidQueryCursor
  | exec_plan d e aid av err : a !! n = Some d -> encodeIndexValue (pq_value query) = Ok e ->
      pathStart (cursorKeyOf d) n plan query e = Ok (aid, av) -> planFails n plan query e av aid err ->
      execFails n plan query err.

Definition answered (n : bytes) (plan : pathPlan) (query : pathQuery) (r : list bytes * bytes) : Prop :=
  exists d e aid av ids id' lv' more,
    a !! n = Some d /\ encodeIndexValue (pq_value query) = Ok e /\
    pathStart (cursorKeyOf d) n plan query e = Ok (aid, av) /\
    planAnswer d plan query e aid av = (ids, id', lv', more) /\ r.1 = ids /\
    if more : bool then pathStart (cursorKeyOf d) n plan (withCursor query r.2) e = Ok (id', lv')
    else r.2 = [].

Lemma pathStart_cases box n plan query e :
  (exists aid av, pathStart box n plan query e = Ok (aid, av)) \/
  pathStart box n plan query e = Err errInvalidQueryCursor.
Proof.
  unfold pathStart. destruct (pq_cursor query); [left; by eexists _, _|].
  destruct (decodePathCursor _ _); [|by right..].
  destruct (matchPathCursor _ _ _ _ _); [left; by eexists _, _|by right].
Qed.

Lemma matchPathCursor_self n plan query token e lv id :
  matchPathCursor
    (PathCursor queryMethod dialectJSONPath
       match pp_index plan with [] => orderDocument | _ => orderIndex end
       n (pathHash (pp_text plan)) (pp_index plan) (pq_op query) e lv id)
    n plan (withCursor query token) e = true.
Proof. unfold matchPathCursor. cbn. by rewrite !bool_decide_eq_true_2, !beqb_refl by done. Qed.

Lemma validate_position n plan query e lv id :
  validName n -> opValid (pq_op query) = true -> validIndexValue e = true -> validID id ->
  match pp_index plan with
  | [] => lv = []
  | _ => validName (pp_index plan) /\ lastValueFits (pq_op query) e lv = true
  end ->
  validatePathCursor
    (PathCursor queryMethod dialectJSONPath
       match pp_index plan with [] => orderDocument | _ => orderIndex end
       n (pathHash (pp_text plan)) (pp_index plan) (pq_op query) e lv id) = Ok ().
Proof.
  intros Hn Hop He Hid Hix. unfold validatePathCursor.
  cbn [pc_method pc_dialect pc_order pc_database pc_index pc_op pc_value pc_lastValue pc_id].
  rewrite bool_decide_eq_true_2, Hop, He, (validID_ok id Hid) by done.
  unfold validName in Hn. rewrite Hn. destruct (pp_index plan) as [|b ix].
  - by subst lv.
  - destruct Hix as [Hv Hl]. unfold validName in Hv. rewrite Hv.
    change (beqb orderIndex orderDocument) with false. cbn [is_ok negb orb andb].
    change (beqb dialectJSONPath dialectJSONPath) with true.
    change (beqb orderIndex orderIndex) with true. cbn [negb orb andb]. by rewrite Hl.
Qed.

Lemma reads_executePathQuery ctx n plan query :
  validName n -> 1 <= pq_limit query -> opValid (pq_op query) = true ->
  reads c (executePathQuery wk ctx n plan query) (answered n plan query)
    (fun x => exists err, x = Some err /\ execFails n plan query err).
Proof.
  intros Hn Hlim Hop. unfold executePathQuery.
  apply reads_cursorBox; [done| |].
  { destruct (a !! n) as [d|] eqn:Hd; [right; by eexists|left]. exists errDBNotFound.
    split; [done|]. by apply exec_no_db. }
  intros d Hd. destruct (encodeIndexValue (pq_value query)) as [e|err|] eqn:He;
    [|..|by apply encodeIndexValue_total in He].
  2: { apply (reads_bind c _ _ (fun _ => False)); [|done]. apply reads_lift. exists err.
       split; [done|]. by eapply exec_value. }
  eapply reads_bind; [by apply (reads_lift c (Ok e) (fun y => y = e))|]. intros ? ->.
  destruct (pathStart_cases (cursorKeyOf d) n plan query e) as [(aid & av & Hst)|Hst]; cycle 1.
  { apply (reads_bind c _ _ (fun _ => False)); [|done]. rewrite Hst. apply reads_lift.
    eexists. split; [done|]. eapply exec_cursor; [done|done|]. rewrite Hst. by intros p. }
  rewrite Hst. eapply reads_bind; [by apply (reads_lift c (Ok (aid, av)) (fun y => y = (aid, av)))|].
  intros ? ->. eapply reads_bind.
  { eapply reads_mono; [by apply reads_runPlan|exact (fun _ H => H)|].
    intros x (err & -> & Herr). exists err. split; [done|]. by eapply exec_plan. }
  intros [[[ids id'] lv'] more] (d' & Hd' & Hplan & Hans). assert (d' = d) as -> by congruence.
  symmetry in Hans. destruct more; cbn [negb]; cycle 1.
  { apply reads_ret. exists d, e, aid, av, ids, id', lv', false. done. }
  destruct (answer_position n d plan query e aid av ids id' lv' Hd Hplan Hlim Hop) as [Hid Hix];
    [|done|].
  { destruct (pp_index plan) as [|b ix] eqn:Hix.
    - left. eapply pathStart_lastValue; [exact Hst|by left].
    - destruct (beqb (pq_op query) cmpEq) eqn:Heq; [|by right].
      left. eapply pathStart_lastValue; [exact Hst|by right]. }
  cbv zeta. eapply reads_bind.
  { apply reads_encodePathCursor; [apply len_hkdf| |].
    - apply validate_position; [done|done|by eapply encodeIndexValue_valid|done|done].
    - unfold pathHash. cbn [pc_pathHash]. by rewrite len_sha256. }
  intros token Htok. apply reads_ret. exists d, e, aid, av, ids, id', lv', true.
  repeat (split; [done|]). cbn [snd]. unfold pathStart, withCursor. cbn [pq_cursor].
  destruct token as [|b token]; [discriminate Htok|]. rewrite Htok.
  change (PathQuery (pq_path query) (pq_value query) (b :: token) (pq_op query) (pq_limit query))
    with (withCursor query (b :: token)). by rewrite matchPathCursor_self.
Qed.
End Execute.

(** ** Planning *)

Section Planning.
Variables (wk : storeKey) (a : astate).

(** The paths that queries may have. *)
Definition acceptedPath (raw : bytes) (path : jpath) : Prop :=
  pathText raw /\ jpParse raw = inr path /\ len (jpSegments path) <= maxPathSegments /\ safeText (jpString path).

Inductive planError (n raw : bytes) : error -> Prop :=
  | plan_path err : errorsIs errInvalidPath err = true -> (forall path, ~ acceptedPath raw path) -> planError n raw err
  | plan_missing path : acceptedPath raw path -> a !! n = None -> planError n raw errDBNotFound.

Lemma validatePathText_cases raw : validatePathText raw = Ok () \/ validatePathText raw = Err errInvalidPath.
Proof. unfold validatePathText. repeat case_match; auto. Qed.

Lemma reads_planPathQuery c n raw :
  store_rep wk c a -> validName n ->
  reads c (planPathQuery wk n raw)
    (fun plan => exists d, a !! n = Some d /\ acceptedPath raw (pp_path plan) /\
       pp_text plan = jpString (pp_path plan) /\ usesIndex d (pp_path plan) (pp_index plan))
    (fun x => exists err, x = Some err /\ planError n raw err).
Proof.
  intros Hrep Hn. unfold planPathQuery.
  assert (forall err, errorsIs errInvalidPath err = true -> (forall path, ~ acceptedPath raw path) ->
            exists err', Some err = Some err' /\ planError n raw err') as Hrefused.
  { intros err Herr Hno. exists err. split; [done|]. by apply plan_path. }
  destruct (validatePathText_cases raw) as [Ht|Ht]; rewrite Ht; cycle 1.
  { apply (reads_bind c _ _ (fun _ => False)); [|done]. apply reads_lift. apply Hrefused; [done|].
    intros path (Hok%validatePathText_ok & _). by rewrite Ht in Hok. }
  eapply reads_bind; [by apply (reads_lift c (Ok ()) (fun _ => True))|]. intros _ _. apply validatePathText_ok in Ht.
  destruct (jpParse raw) as [e|path] eqn:Hp.
  { apply reads_throw, Hrefused; [done|]. by intros path (_ & Hp' & _); rewrite Hp in Hp'. }
  assert (forall path', jpParse raw = inr path' -> path' = path) as Hinj by (intros path' E; rewrite Hp in E; by injection E).
  destruct (Z.ltb_spec maxPathSegments (len (jpSegments path))) as [Hl|Hl].
  { apply reads_throw, Hrefused; [done|]. intros path' (_ & ->%Hinj & Hl' & _). lia. }
  destruct (safePath_delimited _ (jpString_delimited raw path Hp)) as (b & -> & Hb). destruct b; cycle 1.
  { apply reads_throw, Hrefused; [done|]. intros path' (_ & ->%Hinj & _ & Hsafe). by apply Hb in Hsafe. }
  assert (acceptedPath raw path) as Hacc by (split; [done|]; split; [done|]; split; [done|by apply Hb]).
  eapply reads_bind;
    [by apply reads_exits, reads_wrapped, (reads_hasDB wk c a Hrep n Hn); apply outside_wrapf|].
  intros ? ->. case_bool_decide as Hex; cbn [negb]; cycle 1.
  { apply eq_None_not_Some in Hex. apply reads_throw. eexists. split; [done|]. by eapply plan_missing. }
  destruct Hex as [d Hd]. destruct (jsonPathPointer path) as [pointer|] eqn:Hptr.
  - eapply reads_bind; [by apply reads_exits, (reads_indexes wk c a Hrep n d Hd)|]. intros ? ->.
    apply reads_ret. exists d. split; [done|]. split; [done|]. split; [done|]. by apply findPath_uses.
  - apply reads_ret. exists d. split; [done|]. split; [done|]. split; [done|]. by apply noPointer_uses.
Qed.
End Planning.
End Runs.
