(* ===== verification/Url.v ===== *)
(** * Query strings

    [url.ParseQuery] of the Go library, and the query parameters of a document
    list and of a database list (server.go). *)

From S2P Require Import Prelude GoErrors Text Validation Json Document Range Query Mime.

(** ** [url.ParseQuery] *)

(** [url.QueryUnescape]; [url.PathUnescape] leaves the plus sign alone. *)
Fixpoint unescape (plus : bool) (s : bytes) : option bytes :=
  match s with
  | [] => Some []
  | c :: s' =>
      if beqb c "%" then
        match s' with
        | a :: b :: s'' =>
            h ← fromHexChar a; l ← fromHexChar b;
            rest ← unescape plus s'';
            Some (z2b (h * 16 + l) :: rest)
        | _ => None
        end
      else
        rest ← unescape plus s';
        Some ((if plus && beqb c "+" then x20 else c) :: rest)
  end.

Definition queryUnescape : bytes -> option bytes := unescape true.

(** [Values]: the pairs in the order they were added. *)
Notation values := (list (bytes * bytes)).

(** One part of the string: [None] for an error, which the loop remembers. *)
Definition parsePair (part : bytes) : option values :=
  if bool_decide ((";"%byte) ∈ part) then None
  else
    match part with
    | [] => Some []
    | _ =>
        let '(key, value) := cutByte "=" part in
        key ← queryUnescape key;
        value ← queryUnescape (default [] value);
        Some [(key, value)]
    end.

(** The limit on the number of parts of recent Go releases. *)
Definition maxQueryParams : nat := 10000.

(** The pairs that could be read, and whether all could. *)
Definition parseQuery (query : bytes) : values * bool :=
  let parts := splitByte "&" query in
  if bool_decide (maxQueryParams < length parts)%nat then ([], false)
  else
    let pairs := map parsePair parts in
    (concat (map (default []) pairs), forallb (fun p => match p with Some _ => true | None => false end) pairs).

(** [values[name]]. *)
Definition valuesOf (name : bytes) (vs : values) : list bytes :=
  map snd (filter (fun kv => kv.1 = name) vs).

(** ** The query of a document list *)

Record docQuery := DocQuery {
  dq_value : json;
  dq_cursor : bytes;
  dq_index : bytes;
  dq_op : cmpOp;
  dq_limit : Z;
  dq_indexed : bool;
}.

(** The code and the message of a refusal, which are all that tells one from
    another: each is a Bad Request. *)
Notation refusal := (bytes * bytes)%type.

Definition invalidQuery : refusal := (str "invalid_query", str "Query is invalid").
Definition invalidLimit : refusal := (str "invalid_limit", str "Limit must be between 1 and 1000").
Definition invalidCursor : refusal := (str "invalid_cursor", str "Cursor is invalid").

Definition knownParam (name : bytes) : bool :=
  bool_decide (name ∈ [str "limit"; str "cursor"; str "index"; str "op"; str "value"]).

Definition parseLimit (raw : bytes) : option Z :=
  limit ← atoi raw;
  if (limit <? 1) || (maxListLimit <? limit) then None else Some limit.

Definition parseDocQuery (rawQuery : bytes) : refusal + docQuery :=
  let '(vs, ok) := parseQuery rawQuery in
  if negb ok then inl invalidQuery
  else if negb (forallb (fun kv => knownParam kv.1 && bool_decide (length (valuesOf kv.1 vs) = 1%nat)) vs)
  then inl invalidQuery
  else
    match match valuesOf (str "limit") vs with [] => Some defaultListLimit | raw :: _ => parseLimit raw end with
    | None => inl invalidLimit
    | Some limit =>
        let cursor := default [] (head (valuesOf (str "cursor") vs)) in
        match head (valuesOf (str "index") vs), head (valuesOf (str "value") vs), head (valuesOf (str "op") vs) with
        | None, Some _, _ | Some _, None, _ =>
            inl (str "invalid_query", str "Index and value must appear together")
        | None, None, Some _ => inl (str "invalid_query", str "Operator requires index and value")
        | None, None, None =>
            if negb (len cursor =? 0) && negb (is_ok (validateID cursor)) then inl invalidCursor
            else inr (DocQuery JNull cursor [] cmpEq limit false)
        | Some index, Some raw, rawOp =>
            if negb (is_ok (validateName index)) then inl (str "invalid_query", str "Index is invalid")
            else
              match decodeQueryValue raw with
              | Ok value =>
                  let '(op, ok) := match rawOp with Some o => parseCmpOp o | None => (cmpEq, true) end in
                  if negb ok then inl (str "invalid_query", str "Operator is invalid")
                  else if negb (beqb op cmpEq) && match value with JNull | JBool _ => true | _ => false end
                  then inl (str "invalid_query", str "Operator does not support this value")
                  else inr (DocQuery value cursor index op limit true)
              | _ => inl (str "invalid_query", str "Value must be one JSON scalar")
              end
        end
    end.

(** ** The query of a database list

    [r.URL.Query()] leaves out what cannot be read. *)
Definition parseListQuery (rawQuery : bytes) (validateCursor : bytes -> res unit) : refusal + (Z * bytes) :=
  let vs := (parseQuery rawQuery).1 in
  match match valuesOf (str "limit") vs with [] => Some defaultListLimit | raw :: _ => parseLimit raw end with
  | None => inl invalidLimit
  | Some limit =>
      let cursor := default [] (head (valuesOf (str "cursor") vs)) in
      if negb (len cursor =? 0) && negb (is_ok (validateCursor cursor)) then inl invalidCursor
      else inr (limit, cursor)
  end.
