(* ===== verification/DbRequest.v ===== *)
(** * Requests for a database

    [decodeDBRequest] of server.go: the decoding of a JSON body into a struct, as
    encoding/json does it.  Members are looked at in the order of the body, their
    names matched without regard to case, a repeated member is decoded into what
    the one before has left. *)

From S2P Require Import Prelude GoErrors Text Number Json IndexValue.

(** ** Bodies with their members in order

    [readValue] of Json.v keeps the last of the members with the same name, as a
    map does; here all of them stay, in the order of the body. *)

Fixpoint readTree (fuel : nat) (depth : Z) (s : bytes) {struct fuel} : option (json * bytes) :=
  match fuel with
  | O => None
  | S f =>
      match skipSpace s with
      | [] => None
      | c :: s' =>
          if beqb c "{" then
            if maxNestingDepth <=? depth then None else
            match skipSpace s' with
            | e :: r => if beqb e "}" then Some (JObj [], r) else treeMembers f (depth + 1) [] (e :: r)
            | [] => None
            end
          else if beqb c "[" then
            if maxNestingDepth <=? depth then None else
            match skipSpace s' with
            | e :: r => if beqb e "]" then Some (JArr [], r) else treeElems f (depth + 1) (e :: r)
            | [] => None
            end
          else if beqb c x22 then
            '(str, r) ← readString (length s) s'; Some (JStr str, r)
          else if beqb c "t" then readWord (str "true") (JBool true) (c :: s')
          else if beqb c "f" then readWord (str "false") (JBool false) (c :: s')
          else if beqb c "n" then readWord (str "null") JNull (c :: s')
          else '(lit, r) ← readNumber (c :: s'); Some (JNum lit, r)
      end
  end
with treeElems (fuel : nat) (depth : Z) (s : bytes) {struct fuel} : option (json * bytes) :=
  match fuel with
  | O => None
  | S f =>
      '(v, r) ← readTree f depth s;
      match skipSpace r with
      | e :: r' =>
          if beqb e "]" then Some (JArr [v], r')
          else if beqb e "," then
            '(vs, r'') ← treeElems f depth r';
            match vs with JArr l => Some (JArr (v :: l), r'') | _ => None end
          else None
      | [] => None
      end
  end
with treeMembers (fuel : nat) (depth : Z) (acc : list (bytes * json)) (s : bytes) {struct fuel}
    : option (json * bytes) :=
  match fuel with
  | O => None
  | S f =>
      match skipSpace s with
      | q :: s' =>
          if beqb q x22 then
            '(key, r) ← readString (length s) s';
            match skipSpace r with
            | colon :: r1 =>
                if beqb colon ":" then
                  '(v, r2) ← readTree f depth r1;
                  let acc' := acc ++ [(key, v)] in
                  match skipSpace r2 with
                  | e :: r3 =>
                      if beqb e "}" then Some (JObj acc', r3)
                      else if beqb e "," then treeMembers f depth acc' r3
                      else None
                  | [] => None
                  end
                else None
            | [] => None
            end
          else None
      | [] => None
      end
  end.

(** ** Structs *)

(** [foldName]: upper case, and the two other runes that fold into ASCII. *)
Fixpoint foldName (s : bytes) : bytes :=
  match s with
  | xc5 :: xbf :: s' => ("S"%byte) :: foldName s'
  | xe2 :: x84 :: xaa :: s' => ("K"%byte) :: foldName s'
  | c :: s' => (if in_range "a" "z" c then z2b (b2z c - 32) else c) :: foldName s'
  | [] => []
  end.

Definition isField (field name : bytes) : bool := bool_decide (foldName name = foldName field).

(** A string member: [null] leaves the field, any other value is an error. *)
Definition setString (v : json) (old : bytes) : option bytes :=
  match v with JStr s => Some s | JNull => Some old | _ => None end.

(** An element of the indexes, decoded into what its place holds. *)
Fixpoint setIndex (fields : list (bytes * json)) (old : indexDef) : option indexDef :=
  match fields with
  | [] => Some old
  | (name, v) :: fields' =>
      if isField (str "name") name then
        x ← setString v (def_name old); setIndex fields' (IndexDef x (def_path old))
      else if isField (str "path") name then
        x ← setString v (def_path old); setIndex fields' (IndexDef (def_name old) x)
      else None
  end.

Definition zeroIndex : indexDef := IndexDef [] [].

(** The elements of an array, from place [i] of the backing array on. *)
Fixpoint setElems (i : nat) (elems : list json) (backing : list indexDef) : option (list indexDef) :=
  match elems with
  | [] => Some backing
  | v :: elems' =>
      let old := default zeroIndex (backing !! i) in
      new ← match v with JObj fields => setIndex fields old | JNull => Some old | _ => None end;
      setElems (S i) elems' (if bool_decide (i < length backing)%nat then <[i := new]> backing else backing ++ [new])
  end.

(** The indexes: [None] for a nil pointer, otherwise the backing array and the
    length of the slice. *)
Definition setIndexes (v : json) (old : option (list indexDef * nat)) : option (option (list indexDef * nat)) :=
  match v with
  | JNull => Some None
  | JArr [] => Some (Some ([], 0%nat))
  | JArr elems =>
      let backing := match old with Some (b, _) => b | None => [] end in
      backing' ← setElems 0 elems backing;
      Some (Some (backing', length elems))
  | _ => None
  end.

Fixpoint setRequest (fields : list (bytes * json)) (name : bytes) (indexes : option (list indexDef * nat))
    : option (bytes * option (list indexDef * nat)) :=
  match fields with
  | [] => Some (name, indexes)
  | (key, v) :: fields' =>
      if isField (str "name") key then x ← setString v name; setRequest fields' x indexes
      else if isField (str "indexes") key then x ← setIndexes v indexes; setRequest fields' name x
      else None
  end.

(** The last member for the indexes is [null]. *)
Definition nullIndexes (fields : list (bytes * json)) : bool :=
  match last (filter (fun kv => isField (str "indexes") kv.1 = true) fields) with
  | Some (_, JNull) => true
  | _ => false
  end.

Record dbRequest := DbRequest {
  dr_name : bytes;
  dr_indexes : option (list indexDef);
}.

Definition indexDefs (r : dbRequest) : list indexDef := default [] (dr_indexes r).

Definition decodeDBRequest (body : bytes) : res dbRequest :=
  match readTree (readFuel body) 0 body with
  | None => Err EText
  | Some (v, rest) =>
      match match v with JObj fields => Some fields | JNull => Some [] | _ => None end with
      | None => Err EText
      | Some fields =>
          match setRequest fields [] None with
          | None => Err EText
          | Some (name, indexes) =>
              if negb (atEOF rest) then Err EText
              else if nullIndexes fields then Err EText
              else Ok (DbRequest name ((fun bn => take bn.2 bn.1) <$> indexes))
          end
      end
  end.

(** The request as [writeJSON] answers it. *)
Definition indexJson (d : indexDef) : json := JObj [(str "name", JStr (def_name d)); (str "path", JStr (def_path d))].

Definition requestJson (r : dbRequest) : json :=
  JObj ((str "name", JStr (dr_name r))
        :: match dr_indexes r with Some defs => [(str "indexes", JArr (map indexJson defs))] | None => [] end).

Definition quoted (s : string) : bytes := [x22] ++ str s ++ [x22].

Example decodeDBRequest_plain :
  decodeDBRequest (str "{" ++ quoted "name" ++ str ":" ++ quoted "books" ++ str "}")
  = Ok (DbRequest (str "books") None).
Proof. vm_compute. reflexivity. Qed.

Example decodeDBRequest_null :
  decodeDBRequest (str "{" ++ quoted "name" ++ str ":" ++ quoted "books" ++ str "," ++ quoted "indexes" ++ str ":null}")
  = Err EText.
Proof. vm_compute. reflexivity. Qed.

Lemma decodeDBRequest_total body : decodeDBRequest body <> OutOfFuel.
Proof. unfold decodeDBRequest. by repeat case_match. Qed.
