(* ===== verification/Flags.v ===== *)
(** * Command lines

    What the program uses of the flag package, with the integers and durations
    that [strconv] and [time] read for it. *)

From Stdlib Require Import SpecFloat.
From S2P Require Import Prelude GoErrors Text Mime.

(** ** Integers: [strconv.ParseInt(s, 0, 64)] *)

(** [c | ('x' - 'X')]. *)
Definition lowerBit (c : byte) : byte := z2b (Z.lor (b2z c) 32).

Definition digitValue (c : byte) : option Z :=
  if isDigit c then Some (b2z c - 48)
  else if in_range "a" "z" (lowerBit c) then Some (b2z (lowerBit c) - 87)
  else None.

(** The base a prefix selects, and what follows the prefix. *)
Definition basePrefix (s : bytes) : Z * bytes :=
  match s with
  | c :: s' =>
      if negb (beqb c "0") then (10, s)
      else match s' with
           | x :: _ :: _ =>
               if beqb (lowerBit x) "b" then (2, drop 1 s')
               else if beqb (lowerBit x) "o" then (8, drop 1 s')
               else if beqb (lowerBit x) "x" then (16, drop 1 s')
               else (8, s')
           | _ => (8, s')
           end
  | [] => (10, s)
  end.

Fixpoint digitsValue (base acc : Z) (s : bytes) : option Z :=
  match s with
  | [] => Some acc
  | c :: s' =>
      if beqb c "_" then digitsValue base acc s'
      else d ← digitValue c; if base <=? d then None else digitsValue base (acc * base + d) s'
  end.

(** Where an underscore may stand: what was seen before a character. *)
Inductive saw := SawStart | SawDigit | SawUnderscore | SawOther.

Fixpoint underscore_loop (hex : bool) (last : saw) (s : bytes) : bool :=
  match s with
  | [] => match last with SawUnderscore => false | _ => true end
  | c :: s' =>
      if isDigit c || hex && in_range "a" "f" (lowerBit c) then underscore_loop hex SawDigit s'
      else if beqb c "_" then
        match last with SawDigit => underscore_loop hex SawUnderscore s' | _ => false end
      else match last with SawUnderscore => false | _ => underscore_loop hex SawOther s' end
  end.

(** [s] has no sign here. *)
Definition underscoreOK (s : bytes) : bool :=
  match s with
  | c :: x :: s' =>
      let b := lowerBit x in
      if beqb c "0" && (beqb b "b" || beqb b "o" || beqb b "x")
      then underscore_loop (beqb b "x") SawDigit s'
      else underscore_loop false SawStart s
  | _ => underscore_loop false SawStart s
  end.

(** A number over the range of [uint64] is over that of [int64], so the error of
    either stands for both. *)
Definition parseUint (s : bytes) : option Z :=
  match s with
  | [] => None
  | _ =>
      let '(base, ds) := basePrefix s in
      n ← digitsValue base 0 ds;
      if existsb (fun c => beqb c "_") ds && negb (underscoreOK s) then None
      else if n <? 2 ^ 64 then Some n else None
  end.

Definition parseInt64 (s : bytes) : option Z :=
  let '(neg, s') :=
    match s with
    | c :: s' => if beqb c "+" then (false, s') else if beqb c "-" then (true, s') else (false, s)
    | [] => (false, s)
    end in
  n ← parseUint s';
  if negb neg && (2 ^ 63 <=? n) then None
  else if neg && (2 ^ 63 <? n) then None
  else Some (if neg then - n else n).

(** ** Durations: [time.ParseDuration] *)

(** [float64] arithmetic. *)
Definition f64 (z : Z) : spec_float := binary_normalize 53 1024 z 0 false.
Definition f64mul : spec_float -> spec_float -> spec_float := SFmul 53 1024.
Definition f64div : spec_float -> spec_float -> spec_float := SFdiv 53 1024.

(** [uint64(x)] of a float that is not negative. *)
Definition f64trunc (x : spec_float) : Z :=
  match x with
  | S754_finite _ m e => if 0 <=? e then Z.pos m * 2 ^ e else Z.pos m / 2 ^ (- e)
  | _ => 0
  end.

(** [leadingInt]: [None] when the number is over 2^63. *)
Fixpoint leadingInt (x : Z) (s : bytes) : option (Z * bytes) :=
  match s with
  | c :: s' =>
      if negb (isDigit c) then Some (x, s)
      else if 2 ^ 63 / 10 <? x then None
      else let x' := x * 10 + (b2z c - 48) in
           if 2 ^ 63 <? x' then None else leadingInt x' s'
  | [] => Some (x, [])
  end.

(** [leadingFraction]: digits past the range are read and dropped. *)
Fixpoint leadingFraction (x : Z) (scale : spec_float) (overflow : bool) (s : bytes) : Z * spec_float * bytes :=
  match s with
  | c :: s' =>
      if negb (isDigit c) then (x, scale, s)
      else if overflow then leadingFraction x scale true s'
      else if (2 ^ 63 - 1) / 10 <? x then leadingFraction x scale true s'
      else let y := x * 10 + (b2z c - 48) in
           if 2 ^ 63 <? y then leadingFraction x scale true s'
           else leadingFraction y (f64mul scale (f64 10)) false s'
  | [] => (x, scale, [])
  end.

Definition durationUnits : list (bytes * Z) :=
  [(str "ns", 1); (str "us", 1000); ([xc2; xb5; x73], 1000); ([xce; xbc; x73], 1000);
   (str "ms", 1000000); (str "s", 1000000000); (str "m", 60 * 1000000000); (str "h", 3600 * 1000000000)].

Definition findUnit (u : bytes) : option Z :=
  snd <$> List.find (fun p => bool_decide (p.1 = u)) durationUnits.

(** The unit is what stands before the next digit or period. *)
Fixpoint spanUnit (s : bytes) : bytes * bytes :=
  match s with
  | c :: s' => if beqb c "." || isDigit c then ([], s) else let '(u, r) := spanUnit s' in (c :: u, r)
  | [] => ([], [])
  end.

(** One number with its unit, in nanoseconds, and the rest of the string. *)
Definition durationPart (s : bytes) : option (Z * bytes) :=
  '(v, s1) ← leadingInt 0 s;
  let pre := negb (len s1 =? len s) in
  let '(f, scale, s2, post) :=
    match s1 with
    | c :: s' =>
        if beqb c "." then
          let '(f, scale, s2) := leadingFraction 0 (f64 1) false s' in (f, scale, s2, negb (len s2 =? len s'))
        else (0, f64 1, s1, false)
    | [] => (0, f64 1, s1, false)
    end in
  if negb pre && negb post then None
  else
    let '(u, s3) := spanUnit s2 in
    if len u =? 0 then None
    else
      unit_ ← findUnit u;
      if 2 ^ 63 / unit_ <? v then None
      else
        let v := v * unit_ in
        if 0 <? f then
          let v := v + f64trunc (f64mul (f64 f) (f64div (f64 unit_) scale)) in
          if 2 ^ 63 <? v then None else Some (v, s3)
        else Some (v, s3).

(** The sum is a [uint64]. *)
Fixpoint duration_loop (fuel : nat) (d : Z) (s : bytes) : option Z :=
  match s with
  | [] => Some d
  | c :: _ =>
      match fuel with
      | O => None
      | S f =>
          if negb (beqb c "." || isDigit c) then None
          else
            '(v, s') ← durationPart s;
            let d := (d + v) mod 2 ^ 64 in
            if 2 ^ 63 <? d then None else duration_loop f d s'
      end
  end.

Definition parseDuration (s : bytes) : option Z :=
  let '(neg, s) :=
    match s with
    | c :: s' => if beqb c "-" || beqb c "+" then (beqb c "-", s') else (false, s)
    | [] => (false, s)
    end in
  if bool_decide (s = str "0") then Some 0
  else if len s =? 0 then None
  else
    d ← duration_loop (length s) 0 s;
    if neg then Some (- d) else if 2 ^ 63 - 1 <? d then None else Some d.

(** ** Flags: [FlagSet.Parse] without boolean flags *)

Section Parse.
Context {C : Type} (formal : bytes -> option (bytes -> C -> option C)).

(** The name of a flag, with the value after [=] if there is one; [None] is a
    syntax error. *)
Definition flagName (s : bytes) : option (bytes * option bytes) :=
  let name := drop (if beqb (nth 1 s x00) "-" then 2 else 1)%nat s in
  match name with
  | [] => None
  | c :: _ => if beqb c "-" || beqb c "=" then None else Some (cutByte "=" name)
  end.

(** The flags up to the first argument that is none, and the arguments left. *)
Fixpoint parseFlags (args : list bytes) (cfg : C) : option (C * list bytes) :=
  match args with
  | [] => Some (cfg, [])
  | s :: args' =>
      if (len s <? 2) || negb (beqb (nth 0 s x00) "-") then Some (cfg, args)
      else if bool_decide (s = str "--") then Some (cfg, args')
      else
        '(name, value) ← flagName s;
        set ← formal name;
        match value with
        | Some v => cfg' ← set v cfg; parseFlags args' cfg'
        | None =>
            match args' with
            | v :: args'' => cfg' ← set v cfg; parseFlags args'' cfg'
            | [] => None
            end
        end
  end.

(** What every flag keeps is kept. *)
Lemma parseFlags_keeps (P : C -> Prop) :
  (forall name set v cfg cfg', formal name = Some set -> set v cfg = Some cfg' -> P cfg -> P cfg') ->
  forall n args cfg cfg' rest, (length args <= n)%nat -> parseFlags args cfg = Some (cfg', rest) -> P cfg -> P cfg'.
Proof.
  intros HP n. induction n as [|n IH]; intros args cfg cfg' rest Hn.
  { destruct args; [by intros [= <- <-]|simpl in Hn; lia]. }
  destruct args as [|s args]; [by intros [= <- <-]|]. cbn [parseFlags]. simpl in Hn.
  destruct (_ || _); [by intros [= <- <-]|]. case_bool_decide; [by intros [= <- <-]|].
  destruct (flagName s) as [[name value]|]; [|done]. cbn [mbind option_bind].
  destruct (formal name) as [set|] eqn:Hf; [|done]. cbn [mbind option_bind].
  destruct value as [v|]; [|destruct args as [|v args]; [done|]];
    (destruct (set v cfg) as [cfg1|] eqn:Hs; [|done]); cbn [mbind option_bind]; intros Hp Hc;
    (eapply IH; [|exact Hp|by eapply HP]); simpl in Hn; lia.
Qed.


(** A flag with its value in the next argument. *)
Lemma parseFlags_next s name set v args cfg :
  (len s <? 2) || negb (beqb (nth 0 s x00) "-") = false -> bool_decide (s = str "--") = false ->
  flagName s = Some (name, None) -> formal name = Some set ->
  parseFlags (s :: v :: args) cfg = (cfg' ← set v cfg; parseFlags args cfg').
Proof. intros H1 H2 H3 H4. cbn [parseFlags]. by rewrite H1, H2, H3; cbn [mbind option_bind]; rewrite H4. Qed.
End Parse.

(** ** What can be read *)

Lemma digitValue_nonneg c d : digitValue c = Some d -> 0 <= d.
Proof.
  unfold digitValue. destruct (isDigit c) eqn:E.
  - apply isDigit_val in E. intros [= <-]. lia.
  - destruct (in_range "a" "z" (lowerBit c)) eqn:E2; [|done]. intros [= <-].
    unfold in_range in E2. apply andb_true_iff in E2 as [E2 _]. apply Z.leb_le in E2. change (b2z "a") with 97 in E2. lia.
Qed.

Lemma digitsValue_nonneg base s acc n : 0 <= base -> 0 <= acc -> digitsValue base acc s = Some n -> 0 <= n.
Proof.
  intros Hb. revert acc. induction s as [|c s IH]; intros acc Ha; cbn [digitsValue]; [by intros [= <-]|].
  destruct (beqb c "_"); [by apply IH|]. destruct (digitValue c) as [d|] eqn:Hd; [|done]. cbn [mbind option_bind].
  apply digitValue_nonneg in Hd. destruct (base <=? d); [done|]. apply IH. nia.
Qed.

Lemma parseUint_nonneg s n : parseUint s = Some n -> 0 <= n.
Proof.
  unfold parseUint. destruct s as [|c s]; [done|]. destruct (basePrefix (c :: s)) as [base ds] eqn:Hb.
  destruct (digitsValue base 0 ds) as [u|] eqn:Hu; [|done]. cbn [mbind option_bind].
  destruct (_ && _); [done|]. destruct (u <? _); [|done]. intros [= <-].
  apply digitsValue_nonneg in Hu; [done| |done]. unfold basePrefix in Hb. repeat case_match; simplify_eq; lia.
Qed.

Lemma duration_loop_nonneg fuel d s v : 0 <= d -> duration_loop fuel d s = Some v -> 0 <= v.
Proof.
  revert d s. induction fuel as [|f IH]; intros d [|c s] Hd; cbn [duration_loop]; try done; [by intros [= <-]..|].
  destruct (negb _); [done|]. destruct (durationPart (c :: s)) as [[u s']|]; [|done]. cbn [mbind option_bind].
  destruct (_ <? _); [done|]. apply IH. by apply Z.mod_pos_bound.
Qed.

Lemma parseDuration_wide s d : parseDuration s = Some d -> d < 2 ^ 63.
Proof.
  unfold parseDuration. destruct (match s with [] => _ | _ => _ end) as [neg s'].
  case_bool_decide; [by intros [= <-]|]. destruct (len s' =? 0); [done|].
  destruct (duration_loop _ _ _) as [v|] eqn:Hv; [|done]. cbn [mbind option_bind].
  assert (0 <= v) as Hv0 by (by eapply duration_loop_nonneg).
  destruct neg; [intros [= <-]; lia|]. destruct (Z.ltb_spec (2 ^ 63 - 1) v); [done|]. intros [= <-]. lia.
Qed.

(** ** Integers: what is written reads back *)

Definition decimal (s : bytes) : Prop := Forall (fun c => isDigit c = true) s.

Lemma decimal_plain s : decimal s -> existsb (fun c => beqb c "_") s = false.
Proof.
  induction 1 as [|c s Hc _ IH]; [done|]. cbn [existsb]. rewrite IH, orb_false_r.
  destruct (beqb_spec c "_"); [by subst|done].
Qed.

Lemma digitsValue_decimal s acc : decimal s -> digitsValue 10 acc s = Some (decVal_acc acc s).
Proof.
  intros Hs. revert acc. induction Hs as [|c s Hc _ IH]; intros acc; [done|]. cbn [digitsValue].
  destruct (beqb_spec c "_"); [by subst|]. unfold digitValue. rewrite Hc. cbn [mbind option_bind].
  apply isDigit_val in Hc. rewrite (proj2 (Z.leb_gt 10 _)) by lia. rewrite IH.
  change (decVal_acc acc (c :: s)) with (decVal_acc (10 * acc + (b2z c - 48)) s). f_equal. f_equal. lia.
Qed.

Lemma parseUint_decString z : 0 <= z < 2 ^ 64 -> parseUint (decString z) = Some z.
Proof.
  intros Hz. destruct (decide (z = 0)) as [->|Hne]; [by vm_compute|].
  destruct (decString_spec z ltac:(lia)) as [Hv Hd]. destruct (decString_head z ltac:(lia)) as (c & s & E & Hc).
  rewrite E in *. unfold parseUint, basePrefix. destruct (beqb_spec c "0") as [|_]; [done|]. cbn [negb].
  rewrite digitsValue_decimal by done. cbn [mbind option_bind]. rewrite decimal_plain by done. cbn [andb].
  unfold decVal in Hv. rewrite Hv. by rewrite (proj2 (Z.ltb_lt _ _)) by lia.
Qed.

Lemma parseInt64_itoa z : - 2 ^ 63 <= z < 2 ^ 63 -> parseInt64 (itoa z) = Some z.
Proof.
  intros Hz. unfold itoa. destruct (Z.ltb_spec z 0) as [Hn|Hp].
  - unfold parseInt64. cbn [beqb]. change (beqb "-" "+") with false. change (beqb "-" "-") with true. cbv iota.
    rewrite parseUint_decString by lia. cbn [mbind option_bind negb andb].
    rewrite (proj2 (Z.ltb_ge _ _)) by lia. f_equal. lia.
  - destruct (decString_sign z Hp) as (c & s & E & Hc). unfold parseInt64. rewrite E.
    destruct (beqb_spec c "+"); [by subst|]. destruct (beqb_spec c "-"); [by subst|]. rewrite <- E.
    rewrite parseUint_decString by lia. cbn [mbind option_bind negb andb].
    by rewrite (proj2 (Z.leb_gt _ _)) by lia.
Qed.

(** ** Durations: nanoseconds read back *)

Lemma decVal_acc_mono s acc : decimal s -> 0 <= acc -> acc <= decVal_acc acc s.
Proof.
  intros Hs. revert acc. induction Hs as [|c s Hc _ IH]; intros acc Ha; [done|].
  apply isDigit_val in Hc. change (decVal_acc acc (c :: s)) with (decVal_acc (10 * acc + (b2z c - 48)) s).
  specialize (IH (10 * acc + (b2z c - 48))). lia.
Qed.

Lemma leadingInt_decimal s r x :
  decimal s -> 0 <= x -> decVal_acc x s <= 2 ^ 63 -> match r with c :: _ => isDigit c = false | [] => True end ->
  leadingInt x (s ++ r) = Some (decVal_acc x s, r).
Proof.
  intros Hs. revert x. induction Hs as [|c s Hc Hs IH]; intros x Hx Hv Hr.
  - destruct r as [|c r]; [done|]. cbn [app leadingInt]. by rewrite Hr.
  - cbn [app leadingInt]. rewrite Hc. cbn [negb]. apply isDigit_val in Hc.
    change (decVal_acc x (c :: s)) with (decVal_acc (10 * x + (b2z c - 48)) s) in *.
    pose proof (decVal_acc_mono s (10 * x + (b2z c - 48)) Hs ltac:(lia)) as Hm.
    replace (x * 10 + (b2z c - 48)) with (10 * x + (b2z c - 48)) by lia.
    rewrite (proj2 (Z.ltb_ge _ _)) by (change (2 ^ 63 / 10) with 922337203685477580; lia).
    rewrite (proj2 (Z.ltb_ge _ _)) by lia. apply IH; [lia|done|done].
Qed.

Definition durationArg (ns : Z) : bytes := decString ns ++ str "ns".

Lemma parseDuration_ns ns : 0 < ns < 2 ^ 63 -> parseDuration (durationArg ns) = Some ns.
Proof.
  intros Hns. unfold durationArg. destruct (decString_spec ns ltac:(lia)) as [Hv Hd].
  destruct (decString_sign ns ltac:(lia)) as (c & s & E & Hc). unfold decVal in Hv. rewrite E in *.
  unfold parseDuration. cbn [app].
  destruct (beqb_spec c "-"); [by subst|]. destruct (beqb_spec c "+"); [by subst|]. cbn [orb].
  rewrite bool_decide_eq_false_2 by (intros E'; apply (f_equal length) in E'; cbn in E'; rewrite length_app in E'; cbn in E'; lia).
  rewrite len_cons. rewrite (proj2 (Z.eqb_neq _ _)) by (pose proof (len_nonneg (s ++ str "ns")); lia).
  cbn [length duration_loop]. rewrite Hc, orb_true_r. cbn [negb].
  assert (durationPart (c :: s ++ str "ns") = Some (ns, [])) as ->.
  { unfold durationPart. change (c :: s ++ str "ns") with ((c :: s) ++ str "ns").
    rewrite leadingInt_decimal by (done || lia). rewrite Hv. cbn [mbind option_bind].
    rewrite len_app, len_cons. rewrite (proj2 (Z.eqb_neq _ _)) by (pose proof (len_nonneg s); lia).
    cbn -[findUnit Z.div Z.pow Z.ltb].
    change (findUnit _) with (Some 1). cbn -[Z.div Z.pow Z.ltb].
    rewrite (proj2 (Z.ltb_ge (2 ^ 63 / 1) ns)) by (rewrite Z.div_1_r; lia). cbn. by rewrite Z.mul_1_r. }
  cbn [mbind option_bind]. rewrite Z.add_0_l, Z.mod_small by lia. rewrite (proj2 (Z.ltb_ge _ _)) by lia.
  destruct (length (s ++ str "ns")); cbn [duration_loop mbind option_bind]; by rewrite (proj2 (Z.ltb_ge _ _)) by lia.
Qed.
