(* ===== verification/Config.v ===== *)
(** * Configuration

    config.go: the flags of the server, the checks on what they set, and the key
    file. *)

From S2P Require Import Prelude GoErrors Text Base64 Flags Crypto.

Record bulkConfig := BulkConfig {
  bc_maxBytes : Z;
  bc_maxDocuments : Z;
  bc_maxBatchBytes : Z;
  bc_timeout : Z;
  bc_concurrency : Z;
}.

Definition defaultMaxBodyBytes : Z := 2 ^ 20.

Definition defaultBulkConfig : bulkConfig :=
  BulkConfig (64 * 2 ^ 20) 1000 (128 * 2 ^ 20) (30 * 1000000000) 1.

Record config := Config {
  cf_addr : bytes;
  cf_dataPath : bytes;
  cf_keyFile : bytes;
  cf_maxBodyBytes : Z;
  cf_bulk : bulkConfig;
}.

Definition setBulk (f : bulkConfig -> bulkConfig) (cfg : config) : config :=
  Config (cf_addr cfg) (cf_dataPath cfg) (cf_keyFile cfg) (cf_maxBodyBytes cfg) (f (cf_bulk cfg)).

(** What [parseConfig] does once the flags are read; [nargs] is [flags.NArg()]. *)
Definition checkConfig (cfg : config) (nargs : Z) : res config :=
  if len (cf_addr cfg) =? 0 then Err EText
  else if len (cf_dataPath cfg) =? 0 then Err EText
  else if len (cf_keyFile cfg) =? 0 then Err EText
  else if (cf_maxBodyBytes cfg <=? 0) || (maxStoredDocBytes <? cf_maxBodyBytes cfg) then Err EText
  else
    let b := cf_bulk cfg in
    if (bc_maxBytes b <=? 0) || (bc_maxDocuments b <=? 0) || (bc_maxBatchBytes b <=? 0)
       || (bc_timeout b <=? 0) || (bc_concurrency b <=? 0)
    then Err EText
    else if negb (nargs =? 0) then Err EText
    else Ok cfg.

(** The flags, each with what it does to a value: [flags.StringVar],
    [flags.Int64Var] and [flags.IntVar], [flags.DurationVar]. *)
Definition formal (name : bytes) : option (bytes -> config -> option config) :=
  let stringVar f := Some (fun v cfg => Some (f v cfg)) in
  let intVar f := Some (fun v cfg => n ← parseInt64 v; Some (f n cfg)) in
  let bulkVar f := Some (fun v cfg => n ← parseInt64 v; Some (setBulk (f n) cfg)) in
  if bool_decide (name = str "addr") then
    stringVar (fun v c => Config v (cf_dataPath c) (cf_keyFile c) (cf_maxBodyBytes c) (cf_bulk c))
  else if bool_decide (name = str "data") then
    stringVar (fun v c => Config (cf_addr c) v (cf_keyFile c) (cf_maxBodyBytes c) (cf_bulk c))
  else if bool_decide (name = str "key-file") then
    stringVar (fun v c => Config (cf_addr c) (cf_dataPath c) v (cf_maxBodyBytes c) (cf_bulk c))
  else if bool_decide (name = str "max-body-bytes") then
    intVar (fun n c => Config (cf_addr c) (cf_dataPath c) (cf_keyFile c) n (cf_bulk c))
  else if bool_decide (name = str "bulk-max-bytes") then
    bulkVar (fun n b => BulkConfig n (bc_maxDocuments b) (bc_maxBatchBytes b) (bc_timeout b) (bc_concurrency b))
  else if bool_decide (name = str "bulk-max-documents") then
    bulkVar (fun n b => BulkConfig (bc_maxBytes b) n (bc_maxBatchBytes b) (bc_timeout b) (bc_concurrency b))
  else if bool_decide (name = str "bulk-max-batch-bytes") then
    bulkVar (fun n b => BulkConfig (bc_maxBytes b) (bc_maxDocuments b) n (bc_timeout b) (bc_concurrency b))
  else if bool_decide (name = str "bulk-timeout") then
    Some (fun v cfg =>
      n ← parseDuration v;
      Some (setBulk (fun b => BulkConfig (bc_maxBytes b) (bc_maxDocuments b) (bc_maxBatchBytes b) n (bc_concurrency b)) cfg))
  else if bool_decide (name = str "bulk-concurrency") then
    bulkVar (fun n b => BulkConfig (bc_maxBytes b) (bc_maxDocuments b) (bc_maxBatchBytes b) (bc_timeout b) n)
  else None.

Definition defaultConfig : config := Config (str ":8080") (str "data") [] defaultMaxBodyBytes defaultBulkConfig.

Definition parseConfig (args : list bytes) : res config :=
  match parseFlags formal args defaultConfig with
  | None => Err EText
  | Some (cfg, rest) => checkConfig cfg (len rest)
  end.

(** [file] is what [os.ReadFile] gives for the path. *)
Definition loadMasterKey (file : error + bytes) : res bytes :=
  match file with
  | inl err => Err (wrapf err)
  | inr encoded =>
      match stdDecode (trimSpace encoded) with
      | None => Err EText
      | Some key => if len key =? keySize then Ok key else Err EText
      end
  end.

(** ** What is accepted *)

Definition positive64 (z : Z) : Prop := 1 <= z < 2 ^ 63.

(** The limits the server works with. *)
Definition validConfig (cfg : config) : Prop :=
  cf_addr cfg <> [] /\ cf_dataPath cfg <> [] /\ cf_keyFile cfg <> [] /\
  1 <= cf_maxBodyBytes cfg <= maxStoredDocBytes /\
  positive64 (bc_maxBytes (cf_bulk cfg)) /\ positive64 (bc_maxDocuments (cf_bulk cfg)) /\
  positive64 (bc_maxBatchBytes (cf_bulk cfg)) /\ positive64 (bc_timeout (cf_bulk cfg)) /\
  positive64 (bc_concurrency (cf_bulk cfg)).

(** The fields of the widths they have in the program. *)
Definition wide (cfg : config) : Prop :=
  bc_maxBytes (cf_bulk cfg) < 2 ^ 63 /\ bc_maxDocuments (cf_bulk cfg) < 2 ^ 63 /\
  bc_maxBatchBytes (cf_bulk cfg) < 2 ^ 63 /\ bc_timeout (cf_bulk cfg) < 2 ^ 63 /\
  bc_concurrency (cf_bulk cfg) < 2 ^ 63.

Lemma checkConfig_ok cfg nargs :
  wide cfg -> checkConfig cfg nargs = Ok cfg <-> validConfig cfg /\ nargs = 0.
Proof.
  intros Hw. unfold wide in Hw. unfold checkConfig, validConfig, positive64. cbv zeta.
  assert (forall s : bytes, (len s =? 0) = true <-> s = []) as Hlen.
  { intros s. rewrite Z.eqb_eq. destruct s; [done|]. rewrite len_cons. pose proof (len_nonneg s). split; [lia|done]. }
  destruct (len (cf_addr cfg) =? 0) eqn:E1; [apply Hlen in E1; by split; [|intros [(? & _) _]]|].
  destruct (len (cf_dataPath cfg) =? 0) eqn:E2; [apply Hlen in E2; by split; [|intros [(_ & ? & _) _]]|].
  destruct (len (cf_keyFile cfg) =? 0) eqn:E3; [apply Hlen in E3; by split; [|intros [(_ & _ & ? & _) _]]|].
  destruct ((_ <=? 0) || (_ <? _)) eqn:E4; [split; [done|intros [(_ & _ & _ & ? & _) _]; lia]|].
  destruct (_ || (bc_concurrency _ <=? 0)) eqn:E5; [split; [done|intros [(_ & _ & _ & _ & ?) _]; lia]|].
  destruct (negb (nargs =? 0)) eqn:E6; [split; [done|intros [_ ?]; lia]|]. split; [intros _|done].
  rewrite <- not_true_iff_false, Hlen in E1, E2, E3. split_and!; try done; lia.
Qed.

Lemma checkConfig_same cfg nargs cfg' : checkConfig cfg nargs = Ok cfg' -> cfg' = cfg.
Proof. unfold checkConfig. cbv zeta. repeat (destruct (_ : bool); [done|]). by intros <-%Ok_inj. Qed.

(** A number a flag sets is one of its type. *)
Lemma parseInt64_wide s n : parseInt64 s = Some n -> n < 2 ^ 63.
Proof.
  unfold parseInt64. destruct (match s with [] => _ | _ => _ end) as [neg s']. destruct (parseUint s') as [u|] eqn:Hu; [|done].
  cbn [mbind option_bind]. intros H. assert (0 <= u) as Hu0 by (by eapply parseUint_nonneg).
  destruct neg; cbn [negb andb] in H.
  - destruct (2 ^ 63 <? u); [done|]. injection H as <-. lia.
  - destruct (Z.leb_spec (2 ^ 63) u); [done|]. injection H as <-. lia.
Qed.

Lemma formal_wide name set v cfg cfg' : formal name = Some set -> set v cfg = Some cfg' -> wide cfg -> wide cfg'.
Proof.
  unfold formal, wide. cbv zeta. intros Hf Hs Hw.
  repeat (case_bool_decide as Hname; [clear Hname; injection Hf as <-; cbv beta in Hs|clear Hname]); [..|done].
  all: try (destruct (parseInt64 v) as [n|] eqn:Hn; [apply parseInt64_wide in Hn|done]).
  all: try (destruct (parseDuration v) as [n|] eqn:Hn; [apply parseDuration_wide in Hn|done]).
  all: cbn [mbind option_bind] in Hs; injection Hs as <-; cbn in *; tauto.
Qed.

(** The command line that asks for a configuration. *)
Definition configArgs (cfg : config) : list bytes :=
  [str "-addr"; cf_addr cfg; str "-data"; cf_dataPath cfg; str "-key-file"; cf_keyFile cfg;
   str "-max-body-bytes"; itoa (cf_maxBodyBytes cfg);
   str "-bulk-max-bytes"; itoa (bc_maxBytes (cf_bulk cfg));
   str "-bulk-max-documents"; itoa (bc_maxDocuments (cf_bulk cfg));
   str "-bulk-max-batch-bytes"; itoa (bc_maxBatchBytes (cf_bulk cfg));
   str "-bulk-timeout"; durationArg (bc_timeout (cf_bulk cfg));
   str "-bulk-concurrency"; itoa (bc_concurrency (cf_bulk cfg))].

Lemma parseFlags_configArgs cfg :
  validConfig cfg -> parseFlags formal (configArgs cfg) defaultConfig = Some (cfg, []).
Proof.
  intros (_ & _ & _ & Hbody & H1 & H2 & H3 & H4 & H5). unfold configArgs. unfold positive64 in *.
  assert (maxStoredDocBytes < 2 ^ 63) as Hmax by done.
  pose proof (parseInt64_itoa (cf_maxBodyBytes cfg) ltac:(lia)) as E0.
  pose proof (parseInt64_itoa (bc_maxBytes (cf_bulk cfg)) ltac:(lia)) as E1.
  pose proof (parseInt64_itoa (bc_maxDocuments (cf_bulk cfg)) ltac:(lia)) as E2.
  pose proof (parseInt64_itoa (bc_maxBatchBytes (cf_bulk cfg)) ltac:(lia)) as E3.
  pose proof (parseDuration_ns (bc_timeout (cf_bulk cfg)) ltac:(lia)) as E4.
  pose proof (parseInt64_itoa (bc_concurrency (cf_bulk cfg)) ltac:(lia)) as E5.
  destruct cfg as [addr path file body [m1 m2 m3 m4 m5]]. cbn [cf_addr cf_dataPath cf_keyFile cf_maxBodyBytes cf_bulk
    bc_maxBytes bc_maxDocuments bc_maxBatchBytes bc_timeout bc_concurrency] in *.
  do 9 (erewrite parseFlags_next by reflexivity; cbv beta; rewrite ?E0, ?E1, ?E2, ?E3, ?E4, ?E5; cbn [mbind option_bind]).
  reflexivity.
Qed.

Lemma parseConfig_valid args cfg : parseConfig args = Ok cfg -> validConfig cfg.
Proof.
  unfold parseConfig. destruct (parseFlags _ _ _) as [[cfg1 rest]|] eqn:Hp; [|done]. intros Hc.
  pose proof (checkConfig_same _ _ _ Hc) as ->.
  eapply (parseFlags_keeps formal wide formal_wide) in Hp; [|done|by vm_compute].
  apply (proj1 (checkConfig_ok cfg1 (len rest) Hp) Hc).
Qed.

(** C36: the configurations the server can be started with: a command line that is
    accepted gives a valid one, within the limits the rest of the program relies
    on, and every valid one is given by some command line. *)
Theorem parseConfig_correct :
  (forall args cfg, parseConfig args = Ok cfg -> validConfig cfg) /\
  (forall cfg, validConfig cfg -> parseConfig (configArgs cfg) = Ok cfg).
Proof.
  split; [exact parseConfig_valid|].
  intros cfg Hcfg. unfold parseConfig. rewrite parseFlags_configArgs by done.
  apply checkConfig_ok; [|done]. unfold validConfig, positive64, wide in *. lia.
Qed.

Definition setTimeout (ns : Z) (b : bulkConfig) : bulkConfig :=
  BulkConfig (bc_maxBytes b) (bc_maxDocuments b) (bc_maxBatchBytes b) ns (bc_concurrency b).

(** The configuration of a server with the default limits. *)
Definition simConfig : config := Config (str ":80") (str "data") (str "key") defaultMaxBodyBytes defaultBulkConfig.

Lemma parseConfig_correct_witness :
  parseConfig (configArgs simConfig) = Ok simConfig /\
  validConfig (Config (str ":8080") (str "data") (str "k") defaultMaxBodyBytes
    (setTimeout 90000000000 defaultBulkConfig)).
Proof.
  split.
  - apply parseConfig_correct. by vm_compute.
  - apply (proj1 parseConfig_correct [str "--key-file=k"; str "-bulk-timeout"; str "1m30s"]). by vm_compute.
Defined.

(** ** The key file *)

Lemma loadMasterKey_length file key : loadMasterKey file = Ok key -> len key = keySize.
Proof.
  unfold loadMasterKey. destruct file as [e|encoded]; [done|]. destruct (stdDecode _); [|done].
  destruct (Z.eqb_spec (len l) keySize); [|done]. by intros <-%Ok_inj.
Qed.

(** A key in standard base64, with white space around it. *)
Lemma loadMasterKey_encoded ws1 key ws2 :
  Forall asciiSpace ws1 -> Forall asciiSpace ws2 -> len key = keySize ->
  loadMasterKey (inr (ws1 ++ stdEncode key ++ ws2)) = Ok key.
Proof.
  intros H1 H2 Hk. unfold loadMasterKey. rewrite trimSpace_word; [|done|done|apply stdEncode_word|].
  - rewrite stdDecode_encode, Hk. done.
  - by destruct key as [|a [|b [|c key]]].
Qed.
