(* ===== verification/Api.v ===== *)
(** * Handlers

    The HTTP handlers of server.go and of the bulk routes: each takes a request
    and the values of the path, calls the store, and maps what comes back to a
    response.  A handler writes its response in one piece at its end, so it is a
    function that returns it; the bulk export alone streams.  An error of a
    handler itself is a panic.  Logging is left out. *)

From S2P Require Import Prelude GoErrors Codec Text Validation Keys Json Document IndexValue Mime Patch Url DbRequest.
From S2P Require Import Host Conn Crypto Store Range Cursor Query Bulk Config.

(** ** Requests and responses *)

(** [rq_path] is [r.URL.Path], [rq_escaped] is [r.URL.EscapedPath()]. *)
Record request := Request {
  rq_method : bytes;
  rq_path : bytes;
  rq_escaped : bytes;
  rq_rawQuery : bytes;
  rq_header : list (bytes * bytes);
  rq_chunks : list bytes;
  rq_end : option error;
}.

(** The body, as it arrives from the network. *)
Definition rq_body (r : request) : reader := Reader (concat (rq_chunks r)) (rq_end r).

(** [r.Header.Values] and [r.Header.Get]. *)
Definition headerValues (name : string) (r : request) : list bytes :=
  map snd (filter (fun kv => kv.1 = str name) (rq_header r)).
Definition headerGet (name : string) (r : request) : bytes := default [] (head (headerValues name r)).

Record response := Response {
  rs_status : Z;
  rs_header : list (bytes * bytes);
  rs_body : bytes;
}.

(** [w.Header().Set]. *)
Definition setHeader (name : string) (value : bytes) (header : list (bytes * bytes)) : list (bytes * bytes) :=
  filter (fun kv => kv.1 <> str name) header ++ [(str name, value)].

Definition StatusOK : Z := 200.
Definition StatusCreated : Z := 201.
Definition StatusNoContent : Z := 204.
Definition StatusMovedPermanently : Z := 301.
Definition StatusTemporaryRedirect : Z := 307.
Definition StatusBadRequest : Z := 400.
Definition StatusNotFound : Z := 404.
Definition StatusMethodNotAllowed : Z := 405.
Definition StatusConflict : Z := 409.
Definition StatusPreconditionFailed : Z := 412.
Definition StatusRequestEntityTooLarge : Z := 413.
Definition StatusUnsupportedMediaType : Z := 415.
Definition StatusTooManyRequests : Z := 429.
Definition StatusInternalServerError : Z := 500.
Definition StatusServiceUnavailable : Z := 503.

(** [writeJSON] onto the headers set so far; what it is given can be encoded. *)
Definition writeJSON (header : list (bytes * bytes)) (status : Z) (value : json) : response :=
  Response status (setHeader "Content-Type" (str "application/json; charset=utf-8") header)
    (match marshal value with Ok body => body | _ => [] end).

Definition writeData (header : list (bytes * bytes)) (status : Z) (contentType body : bytes) : response :=
  Response status (setHeader "Content-Type" contentType header) body.

Definition errorBody (code message : bytes) : json :=
  JObj [(str "error", JObj [(str "code", JStr code); (str "message", JStr message)])].

Definition writeError (header : list (bytes * bytes)) (status : Z) (code message : bytes) : response :=
  writeJSON header status (errorBody code message).

Definition writeFailure (header : list (bytes * bytes)) (err : error) : response :=
  if errorsIs errCorruptData err then
    writeError header StatusInternalServerError (str "corrupt_data") (str "Stored data is corrupt")
  else if isStoreUnavailable err then
    writeError header StatusServiceUnavailable (str "service_unavailable") (str "Service is unavailable")
  else writeError header StatusInternalServerError (str "internal_error") (str "Internal server error").

(** *** The refusals the handlers share *)

Definition badMediaType : response :=
  writeError [] StatusUnsupportedMediaType (str "unsupported_media_type") (str "Content-Type must be application/json").
Definition badName (header : list (bytes * bytes)) : response :=
  writeError header StatusBadRequest (str "invalid_name") (str "Database name is invalid").
Definition bodyTooLarge (header : list (bytes * bytes)) : response :=
  writeError header StatusRequestEntityTooLarge (str "content_too_large") (str "Request body exceeds the size limit").
Definition documentTooLarge : response :=
  writeError [] StatusRequestEntityTooLarge (str "content_too_large") (str "Document exceeds the size limit").
Definition badRequest (header : list (bytes * bytes)) (code message : string) : response :=
  writeError header StatusBadRequest (str code) (str message).
Definition databaseNotFound (header : list (bytes * bytes)) : response :=
  writeError header StatusNotFound (str "database_not_found") (str "Database does not exist").
Definition documentNotFound : response :=
  writeError [] StatusNotFound (str "document_not_found") (str "Document does not exist").
Definition preconditionFailed : response :=
  writeError [] StatusPreconditionFailed (str "precondition_failed") (str "If-Match precondition failed").

(** ** JSON of the answers *)

Definition stringsJson (l : list bytes) : json := JArr (map JStr l).

Definition dbListJson (names : list bytes) : json := JObj [(str "databases", stringsJson names)].

Definition docListJson (ids : list bytes) (cursor : bytes) : json :=
  JObj [(str "documents", stringsJson ids); (str "cursor", JStr cursor)].

Definition docResponseJson (id : bytes) : json := JObj [(str "id", JStr id)].

(** ** The bulk responses (bulk.go) *)

Definition bulkErrorJson (code message : bytes) (line : Z) : json :=
  JObj [(str "success", JBool false);
        (str "error", JObj ((str "code", JStr code)
           :: (if line =? 0 then [] else [(str "line", JNum (itoa line))]) ++ [(str "message", JStr message)]))].

Definition writeBulkSuccess : response :=
  writeJSON [] StatusOK (JObj [(str "success", JBool true); (str "error", JObj [])]).

Definition writeBulkError (header : list (bytes * bytes)) (status : Z) (code message : string) (line : Z) : response :=
  writeJSON header status (bulkErrorJson (str code) (str message) line).

Definition failBulk (header : list (bytes * bytes)) (err : error) : response :=
  let line := default 0 (errorsAsLine err) in
  if errorsIs ctxDeadlineExceeded err || errorsIs ctxCanceled err then
    writeBulkError header StatusServiceUnavailable "bulk_timeout" "Bulk request exceeded the execution limit" line
  else if errorsIs errBulkLimit err || errorsIs errBodyTooLarge err then
    writeBulkError header StatusRequestEntityTooLarge "content_too_large" "Bulk import exceeds a size or count limit" line
  else if errorsIs errBulkEmpty err then
    writeBulkError header StatusBadRequest "invalid_document" "Import must contain a document" line
  else if errorsIs errInvalidDoc err then
    writeBulkError header StatusBadRequest "invalid_document" "Document must be a JSON object" line
  else if errorsIs errInvalidIndexValue err then
    writeBulkError header StatusBadRequest "invalid_document" "An indexed value exceeds the size limit" line
  else if errorsIs errBulkRead err then
    writeBulkError header StatusBadRequest "invalid_document" "Could not read import" line
  else if errorsIs errDBNotFound err then
    writeBulkError header StatusNotFound "database_not_found" "Database does not exist" line
  else if errorsIs errCorruptData err then
    writeBulkError header StatusInternalServerError "corrupt_data" "Stored data is corrupt" line
  else if isStoreUnavailable err then
    writeBulkError header StatusServiceUnavailable "service_unavailable" "Service is unavailable" line
  else writeBulkError header StatusInternalServerError "internal_error" "Internal server error" line.

(** ** The API *)

(** [ap_busySlots] are the bulk slots that other requests hold. *)
Record api := Api {
  ap_maxBodyBytes : Z;
  ap_bulk : bulkConfig;
  ap_busySlots : Z;
  ap_stopping : bool;
  ap_version : bytes;
}.

(** [errors.Is] of the error a call may return. *)
Definition failsWith {A} (s : sentinel) (r : res A) : bool :=
  match r with Err e => errorsIs s e | _ => false end.

Section Handlers.
Context {W : Type} `{Host W} `{Conn W} `{Crypto} `{JSONPath} `{JSONPatch}.
Variables (wk : bytes) (fuel : nat) (ap : api).

Definition welcome : M W response :=
  mret (writeJSON [] StatusOK (JObj [(str "name", JStr (str "KantanDB")); (str "version", JStr (ap_version ap))])).

Definition health : M W response := mret (writeJSON [] StatusOK (JObj [(str "status", JStr (str "ok"))])).

Definition createDBError (err : error) : response :=
  if errorsIs errDBExists err then
    writeError [] StatusConflict (str "database_exists") (str "Database already exists")
  else if errorsIs errInvalidIndex err then badRequest [] "invalid_request" "Index definitions are invalid"
  else writeFailure [] err.

Definition dbCreated (q : dbRequest) : response :=
  writeJSON (setHeader "Location" (str "/db/" ++ dr_name q) []) StatusCreated (requestJson q).

(** The refusal of a request, or what it asks for. *)
Definition requestDB (r : request) : response + dbRequest :=
  if negb (isJSON (headerGet "Content-Type" r)) then inl badMediaType
  else
    let body := readBody (rq_body r) (ap_maxBodyBytes ap) in
    if failsWith errBodyTooLarge body then inl (bodyTooLarge [])
    else
      match body with
      | Ok body =>
          match decodeDBRequest body with
          | Ok q => if negb (is_ok (validateName (dr_name q))) then inl (badName []) else inr q
          | _ => inl (badRequest [] "invalid_request" "Request body must contain a database name and optional indexes")
          end
      | _ => inl (badRequest [] "invalid_request" "Could not read request body")
      end.

Definition apiCreateDB (r : request) : M W response :=
  match requestDB r with
  | inl refused => mret refused
  | inr q =>
      made ← catch (Store.createDB wk (dr_name q) (indexDefs q));
      match made with
      | inl err => mret (createDBError err)
      | inr _ => mret (dbCreated q)
      end
  end.
Definition refused (header : list (bytes * bytes)) (why : refusal) : response :=
  writeError header StatusBadRequest why.1 why.2.

Definition requestDBs (r : request) : response + (Z * bytes) :=
  match parseListQuery (rq_rawQuery r) validateName with
  | inl why => inl (refused [] why)
  | inr page => inr page
  end.

Definition apiListDBs (r : request) : M W response :=
  match requestDBs r with
  | inl refused => mret refused
  | inr (limit, cursor) =>
      names ← catch (Store.listDBs wk limit cursor);
      match names with
      | inl err => mret (writeFailure [] err)
      | inr names => mret (writeJSON [] StatusOK (dbListJson names))
      end
  end.
Definition acceptQuery : list (bytes * bytes) := [(str "Accept-Query", str "application/json")].

(** The start of an indexed list: the encoded value, and where to resume. *)
Definition queryStart (box database : bytes) (query : docQuery) : res (bytes * bytes * bytes) :=
  encoded ← encodeIndexValue (dq_value query);
  match dq_cursor query with
  | [] => Ok (encoded, [], [])
  | token =>
      match decodeQueryCursor box token with
      | Ok cursor =>
          if bool_decide (qc_database cursor = database) && bool_decide (qc_index cursor = dq_index query)
             && beqb (qc_op cursor) (dq_op query) && bool_decide (qc_value cursor = encoded)
          then Ok (encoded, qc_lastValue cursor, qc_id cursor) else Err errInvalidQueryCursor
      | _ => Err errInvalidQueryCursor
      end
  end.

(** The query of an index: where the list starts, and its page with the
    value it ends at. *)
Definition listStart (database : bytes) (query : docQuery) : M W (bytes * (bytes * bytes * bytes)) :=
  key ← cursorKey wk database;
  box ← lift (newQueryCipher key);
  start ← lift (queryStart box database query);
  mret (box, start).

Definition listIndexed (database : bytes) (query : docQuery) (encoded lastValue cursor : bytes)
    : M W (list bytes * bytes * bool) :=
  if beqb (dq_op query) cmpEq then
    '(ids, more) ← queryDocsCtx wk RequestCtx database (dq_index query) encoded (dq_limit query) cursor;
    mret (ids, lastValue, more)
  else
    page ← queryRangePage wk RequestCtx database (dq_index query) (dq_op query) encoded (dq_limit query) lastValue cursor;
    mret (ip_ids page, ip_lastValue page, ip_more page).

Definition listAnswer (ids : list bytes) (cursor : bytes) : response :=
  writeJSON acceptQuery StatusOK (docListJson ids cursor).

Definition listError (err : error) : response :=
  if errorsIs errDBNotFound err then databaseNotFound acceptQuery
  else if errorsIs errIndexNotFound err then
    writeError acceptQuery StatusNotFound (str "index_not_found") (str "Index does not exist")
  else if errorsIs errInvalidIndexValue err then badRequest acceptQuery "invalid_query" "Query is invalid"
  else writeFailure acceptQuery err.

(** An error before the query may be one of the cursor. *)
Definition startError (err : error) : response :=
  if errorsIs errInvalidQueryCursor err then badRequest acceptQuery "invalid_cursor" "Cursor is invalid"
  else listError err.

Definition requestDocs (database : bytes) (r : request) : response + docQuery :=
  if negb (is_ok (validateName database)) then inl (badName acceptQuery)
  else match parseDocQuery (rq_rawQuery r) with
       | inl why => inl (refused acceptQuery why)
       | inr query => inr query
       end.

(** The branch of a query without an index. *)
Definition listPlain (database : bytes) (query : docQuery) : M W response :=
  page ← catch (Store.listDocs wk database (dq_limit query) (dq_cursor query));
  match page with
  | inl err => mret (listError err)
  | inr (ids, more) => mret (listAnswer ids (if more : bool then default [] (last ids) else []))
  end.

(** The branch of a query of an index. *)
Definition listQuery (database : bytes) (query : docQuery) : M W response :=
  start ← catch (listStart database query);
  match start with
  | inl err => mret (startError err)
  | inr (box, (encoded, lastValue, cursor)) =>
      page ← catch (listIndexed database query encoded lastValue cursor);
      match page with
      | inl err => mret (listError err)
      | inr (ids, lastValue, more) =>
          if negb more then mret (listAnswer ids [])
          else
            token ← catch (encodeQueryCursor box
              (QueryCursor database (dq_index query) (dq_op query) encoded lastValue (default [] (last ids))));
            match token with
            | inl err => mret (writeFailure acceptQuery err)
            | inr token => mret (listAnswer ids token)
            end
      end
  end.

Definition apiListDocs (database : bytes) (r : request) : M W response :=
  match requestDocs database r with
  | inl refused => mret refused
  | inr query => if dq_indexed query then listQuery database query else listPlain database query
  end.
Definition queryOptions : M W response :=
  mret (Response StatusNoContent
    (setHeader "Allow" (str "GET, POST, QUERY, DELETE, OPTIONS") acceptQuery) []).

Definition queryHeader : list (bytes * bytes) := setHeader "Cache-Control" (str "no-store") acceptQuery.

Definition queryError (err : error) : response :=
  if errorsIs errInvalidQueryCursor err then badRequest queryHeader "invalid_cursor" "Cursor is invalid"
  else if errorsIs errDBNotFound err then databaseNotFound queryHeader
  else if errorsIs errInvalidIndexValue err then badRequest queryHeader "invalid_query" "Query is invalid"
  else if errorsIs ctxDeadlineExceeded err then
    writeError queryHeader StatusServiceUnavailable (str "query_timeout") (str "Query exceeded the execution limit")
  else if errorsIs errQueryLimit err then
    writeError queryHeader StatusServiceUnavailable (str "query_limit") (str "Query exceeded the evaluation limit")
  else writeFailure queryHeader err.

Definition requestQuery (database : bytes) (r : request) : response + pathQuery :=
  if negb (is_ok (validateName database)) then inl (badName queryHeader)
  else if negb (len (rq_rawQuery r) =? 0) then
    inl (badRequest queryHeader "invalid_query" "URI query parameters are not supported")
  else if negb (isJSON (headerGet "Content-Type" r)) then
    inl (writeError queryHeader StatusUnsupportedMediaType (str "unsupported_media_type")
           (str "Content-Type must be application/json"))
  else
    let body := readBody (rq_body r) (Z.min (ap_maxBodyBytes ap) maxQueryBody) in
    if failsWith errBodyTooLarge body then inl (bodyTooLarge queryHeader)
    else
      match body with
      | Ok body =>
          match decodePathQuery body with
          | Ok query => inr query
          | _ => inl (badRequest queryHeader "invalid_query" "Query body is invalid")
          end
      | _ => inl (badRequest queryHeader "invalid_request" "Could not read request body")
      end.

Definition planRefused (err : error) : response :=
  if errorsIs errInvalidPath err then badRequest queryHeader "invalid_query" "Path is invalid"
  else queryError err.

Definition apiQueryDocs (database : bytes) (r : request) : M W response :=
  match requestQuery database r with
  | inl refused => mret refused
  | inr query =>
      plan ← catch (planPathQuery wk database (pq_path query));
      match plan with
      | inl err => mret (planRefused err)
      | inr plan =>
          answer ← catch (executePathQuery wk RequestCtx database plan query);
          match answer with
          | inl err => mret (queryError err)
          | inr (ids, cursor) => mret (writeJSON queryHeader StatusOK (docListJson ids cursor))
          end
      end
  end.
Definition noContent : response := Response StatusNoContent [] [].

Definition deleteDBError (err : error) : response :=
  if errorsIs errDBNotFound err then databaseNotFound [] else writeFailure [] err.

Definition apiDeleteDB (name : bytes) : M W response :=
  if negb (is_ok (validateName name)) then mret (badName [])
  else
    gone ← catch (Store.deleteDB wk name);
    match gone with
    | inl err => mret (deleteDBError err)
    | inr _ => mret noContent
    end.

(** *** Documents *)

(** [validDocPath]: the refusal of a path that is none. *)
Definition validDocPath (database id : bytes) : option response :=
  if negb (is_ok (validateName database)) then Some (badName [])
  else if negb (is_ok (validateID id)) then Some (badRequest [] "invalid_id" "Document ID is invalid")
  else None.

(** The body of a document request, read and validated, or the refusal of it. *)
Definition readDocument (r : request) : response + bytes :=
  let body := readBody (rq_body r) (ap_maxBodyBytes ap) in
  if failsWith errBodyTooLarge body then inl (bodyTooLarge [])
  else
    match body with
    | Ok body =>
        let document := validateDoc body (ap_maxBodyBytes ap) in
        if failsWith errBodyTooLarge document then inl documentTooLarge
        else
          match document with
          | Ok document => inr document
          | _ => inl (badRequest [] "invalid_document" "Document must be a JSON object")
          end
    | _ => inl (badRequest [] "invalid_document" "Could not read document")
    end.
Definition badIfMatch : response := badRequest [] "invalid_if_match" "If-Match is invalid".
Definition indexedTooLarge (code : string) : response :=
  badRequest [] code "An indexed value exceeds the size limit".

Definition createDocError (err : error) : response :=
  if errorsIs errDBNotFound err then databaseNotFound []
  else if errorsIs errInvalidIndexValue err then indexedTooLarge "invalid_document"
  else writeFailure [] err.

Definition docCreated (database id : bytes) (rev : revision) : response :=
  writeJSON (setHeader "ETag" (formatETag rev) (setHeader "Location" (str "/db/" ++ database ++ str "/" ++ id) []))
    StatusCreated (docResponseJson id).

Definition requestCreate (database : bytes) (r : request) : response + bytes :=
  if negb (isJSON (headerGet "Content-Type" r)) then inl badMediaType
  else if negb (is_ok (validateName database)) then inl (badName [])
  else readDocument r.

Definition apiCreateDoc (database : bytes) (r : request) : M W response :=
  match requestCreate database r with
  | inl refused => mret refused
  | inr document =>
      made ← catch (Store.createDoc wk fuel database document);
      match made with
      | inl err => mret (createDocError err)
      | inr made => mret (docCreated database made.1 made.2)
      end
  end.
(** A document with its revision. *)
Definition docAnswer (document : bytes) (rev : revision) : response :=
  writeData (setHeader "ETag" (formatETag rev) []) StatusOK (str "application/json") document.

Definition getDocError (err : error) : response :=
  if errorsIs errDocNotFound err then documentNotFound else writeFailure [] err.

Definition apiGetDoc (database id : bytes) : M W response :=
  match validDocPath database id with
  | Some refused => mret refused
  | None =>
      doc ← catch (Store.getDoc wk database id);
      match doc with
      | inl err => mret (getDocError err)
      | inr doc => mret (docAnswer (sd_json doc) (sd_revision doc))
      end
  end.

Definition replaceError (err : error) : response :=
  if errorsIs errDocNotFound err then documentNotFound
  else if errorsIs errPreconditionFailed err then preconditionFailed
  else if errorsIs errInvalidIndexValue err then indexedTooLarge "invalid_document"
  else writeFailure [] err.

Definition requestReplace (database id : bytes) (r : request) : response + (matchCond * bytes) :=
  if negb (isJSON (headerGet "Content-Type" r)) then inl badMediaType
  else
    match validDocPath database id with
    | Some refused => inl refused
    | None =>
        match parseIfMatch (headerValues "If-Match" r) with
        | Ok match_ =>
            match readDocument r with
            | inl refused => inl refused
            | inr document => inr (match_, document)
            end
        | _ => inl badIfMatch
        end
    end.

Definition apiReplaceDoc (database id : bytes) (r : request) : M W response :=
  match requestReplace database id r with
  | inl refused => mret refused
  | inr (match_, document) =>
      stored ← catch (Store.replaceDoc wk fuel database id document match_);
      match stored with
      | inl err => mret (replaceError err)
      | inr rev => mret (docAnswer document rev)
      end
  end.
Definition patchError (err : error) : response :=
  if errorsIs errDocNotFound err then documentNotFound
  else if errorsIs errPreconditionFailed err then preconditionFailed
  else if errorsIs errBodyTooLarge err then documentTooLarge
  else if errorsIs errInvalidPatch err then
    badRequest [] "invalid_patch" "Patch is invalid or produces a non-object document"
  else if errorsIs errInvalidIndexValue err then indexedTooLarge "invalid_patch"
  else writeFailure [] err.

Definition requestPatch (database id : bytes) (r : request) : response + (matchCond * bytes * bytes) :=
  match parsePatchType (headerGet "Content-Type" r) with
  | Ok mediaType =>
      match validDocPath database id with
      | Some refused => inl refused
      | None =>
          match parseIfMatch (headerValues "If-Match" r) with
          | Ok match_ =>
              let body := readBody (rq_body r) (ap_maxBodyBytes ap) in
              if failsWith errBodyTooLarge body then inl (bodyTooLarge [])
              else
                match body with
                | Ok body => inr (match_, body, mediaType)
                | _ => inl (badRequest [] "invalid_patch" "Could not read patch")
                end
          | _ => inl badIfMatch
          end
      end
  | _ =>
      inl (writeError [] StatusUnsupportedMediaType (str "unsupported_media_type")
             (str "Content-Type must select a supported patch format"))
  end.

Definition apiPatchDoc (database id : bytes) (r : request) : M W response :=
  match requestPatch database id r with
  | inl refused => mret refused
  | inr (match_, body, mediaType) =>
      stored ← catch (Store.patchDoc wk fuel database id match_
        (fun document => applyPatch document body mediaType (ap_maxBodyBytes ap)));
      match stored with
      | inl err => mret (patchError err)
      | inr doc => mret (docAnswer (sd_json doc) (sd_revision doc))
      end
  end.
Definition deleteDocError (err : error) : response :=
  if errorsIs errDocNotFound err then documentNotFound
  else if errorsIs errPreconditionFailed err then preconditionFailed
  else writeFailure [] err.

Definition requestDelete (database id : bytes) (r : request) : response + matchCond :=
  match validDocPath database id with
  | Some refused => inl refused
  | None => match parseIfMatch (headerValues "If-Match" r) with Ok match_ => inr match_ | _ => inl badIfMatch end
  end.

Definition apiDeleteDoc (database id : bytes) (r : request) : M W response :=
  match requestDelete database id r with
  | inl refused => mret refused
  | inr match_ =>
      gone ← catch (Store.deleteDoc wk database id match_);
      match gone with
      | inl err => mret (deleteDocError err)
      | inr _ => mret noContent
      end
  end.
(** *** Bulk *)

(** [takeBulkSlot], beside the slots of the other requests. *)
Definition takeBulkSlot : bool := ap_busySlots ap <? bc_concurrency (ap_bulk ap).

(** A deadline on the connection, or why it could not be set. *)
Definition setDeadline : M W (option error) := fun w => let '(e, w') := connDeadline w in (Ok e, w').

(** A read deadline stays when the context has ended. *)
Definition liftDeadline (r : request) : M W unit :=
  if bool_decide (rq_method r = str "POST") then
    ended ← catch (ctxErr RequestCtx);
    match ended with inl _ => mret () | inr _ => _ ← setDeadline; mret () end
  else _ ← setDeadline; mret ().

(** The refusals of [startBulk]. *)
Definition bulkRefused (database : bytes) (r : request) : option response :=
  if negb (is_ok (validateName database)) then
    Some (writeBulkError [] StatusBadRequest "invalid_name" "Database name is invalid" 0)
  else if negb (len (rq_rawQuery r) =? 0) then
    Some (writeBulkError [] StatusBadRequest "invalid_query" "URI query parameters are not supported" 0)
  else if negb takeBulkSlot then
    Some (writeBulkError [] StatusTooManyRequests "bulk_limit" "Too many bulk requests" 0)
  else None.

(** [startBulk] around the rest of a bulk handler: the slot is given back and the
    deadline lifted when it is done. *)
Definition startBulk (database : bytes) (r : request) (rest : M W response) : M W response :=
  match bulkRefused database r with
  | Some refused => mret refused
  | None =>
      deadlineErr ← setDeadline;
      if match deadlineErr with Some e => negb (errorsIs httpErrNotSupported e) | None => false end then
        mret (failBulk [] (default EText deadlineErr))
      else
        response ← rest;
        _ ← liftDeadline r;
        mret response
  end.
Definition exportHeader : list (bytes * bytes) :=
  setHeader "Cache-Control" (str "no-store") (setHeader "Content-Type" bulkMediaType []).

(** The response is what the stream has sent; once it has started an error can
    only cut it off. *)
Definition apiExportBulk (database : bytes) (r : request) : M W response :=
  startBulk database r (fun w =>
    let '(result, (w1, s)) := exportDocs (W := W * bulkStream) wk RequestCtx database streamWrite (w, newBulkStream) in
    match result with
    | Err err =>
        if bs_started s then (Ok (Response StatusOK exportHeader (bs_written s)), w1)
        else (Ok (failBulk exportHeader err), w1)
    | OutOfFuel => (OutOfFuel, w1)
    | Ok _ =>
        if negb (bs_started s) then (Ok (Response StatusOK exportHeader []), w1)
        else
          let '(_, (w2, s2)) := flush (w1, s) in
          (Ok (Response StatusOK exportHeader (bs_written s2)), w2)
    end).

Definition apiImportBulk (database : bytes) (r : request) : M W response :=
  if negb (isNDJSON (headerGet "Content-Type" r)) then
    mret (writeBulkError [] StatusUnsupportedMediaType "unsupported_media_type"
            "Content-Type must be application/x-ndjson" 0)
  else
    startBulk database r (
      body ← contextReader RequestCtx (rq_chunks r) (rq_end r);
      documents ← catch (readBulkCtx RequestCtx body (ap_maxBodyBytes ap) (bc_maxBytes (ap_bulk ap))
                           (bc_maxDocuments (ap_bulk ap)));
      match documents with
      | inl err => mret (failBulk [] err)
      | inr documents =>
          ids ← catch (importDocs wk fuel RequestCtx database documents (bc_maxBatchBytes (ap_bulk ap)));
          match ids with
          | inl err => mret (failBulk [] err)
          | inr _ => mret writeBulkSuccess
          end
      end).
End Handlers.
