(* ===== verification/Slots.v ===== *)
(** * The slots of bulk requests

    Bulk requests that run at the same time (server.go): [takeBulkSlot] and
    [freeBulkSlot] on the channel of slots, as the steps of a system of requests.
    What [Api] takes as given of the other requests, the slots they hold, is here
    what they have taken and not given back. *)

From S2P Require Import Prelude GoErrors Codec Text Validation Keys Json Document Patch Mime Url DbRequest Host Conn.
From S2P Require Import Crypto Store Range Cursor Query Bulk Config Api.
From stdpp Require Import relations.

#[local] Open Scope Z_scope.

(** A request has arrived, has its slot and runs, or is answered. *)
Inductive stage :=
  | Arrived (database : bytes) (r : request)
  | Running
  | Answered (resp : response).

(** [channel] is the number of values in [bulkSlots], a channel of capacity
    [bc_concurrency]. *)
Record bulkSystem := BulkSystem {
  channel : Z;
  stages : list stage;
}.

Section Slots.
Variables (ap : api).

(** The server as a request finds it. *)
Definition beside (slots : Z) : api :=
  Api (ap_maxBodyBytes ap) (ap_bulk ap) slots (ap_stopping ap) (ap_version ap).

(** A receive from the channel, which waits for a value. *)
Definition freeBulkSlot (slots : Z) : option Z := if 0 <? slots then Some (slots - 1) else None.

(** A request is refused, or takes a slot; a request that runs is answered, by
    [rest] or because its deadline could not be set, and its slot is given back. *)
Inductive advances (i : nat) (s : bulkSystem) : bulkSystem -> Prop :=
  | advances_refused database r refused :
      stages s !! i = Some (Arrived database r) -> bulkRefused (beside (channel s)) database r = Some refused ->
      advances i s (BulkSystem (channel s) (<[i := Answered refused]> (stages s)))
  | advances_taken database r :
      stages s !! i = Some (Arrived database r) -> bulkRefused (beside (channel s)) database r = None ->
      advances i s (BulkSystem (channel s + 1) (<[i := Running]> (stages s)))
  | advances_done resp slots :
      stages s !! i = Some Running -> freeBulkSlot (channel s) = Some slots ->
      advances i s (BulkSystem slots (<[i := Answered resp]> (stages s))).

Definition advance (s s' : bulkSystem) : Prop := exists i, advances i s s'.

Definition arrive (requests : list (bytes * request)) : bulkSystem :=
  BulkSystem 0 (map (fun x => Arrived x.1 x.2) requests).

(** ** The slots that are taken *)

Definition holdsSlot (x : stage) : nat := match x with Running => 1 | _ => 0 end.
Definition running (s : bulkSystem) : nat := sum_list_with holdsSlot (stages s).

Definition stepsLeft (x : stage) : nat := match x with Arrived _ _ => 2 | Running => 1 | Answered _ => 0 end.
Definition remaining (s : bulkSystem) : nat := sum_list_with stepsLeft (stages s).

Definition wfSlots (s : bulkSystem) : Prop :=
  channel s = Z.of_nat (running s) /\ 0 <= channel s <= bc_concurrency (ap_bulk ap).

Context (Hcap : 0 <= bc_concurrency (ap_bulk ap)).

Lemma bulkRefused_room slots n r : bulkRefused (beside slots) n r = None -> slots < bc_concurrency (ap_bulk ap).
Proof.
  unfold bulkRefused. do 2 (destruct (negb _); [done|]). unfold takeBulkSlot. cbn [beside ap_busySlots ap_bulk].
  by destruct (Z.ltb_spec slots (bc_concurrency (ap_bulk ap))).
Qed.

Lemma wf_arrive requests : wfSlots (arrive requests).
Proof.
  unfold wfSlots, running, arrive. cbn [channel stages]. split; [|done].
  induction requests as [|x requests IH]; [done|]. cbn [map sum_list_with holdsSlot]. lia.
Qed.

Lemma advance_wf s s' : advance s s' -> wfSlots s -> wfSlots s'.
Proof.
  intros [i Hs] [Hc Hb]. unfold wfSlots, running in *.
  destruct Hs as [n r refused Hi Hr|n r Hi Hr|resp slots Hi Hf]; cbn [channel stages];
    match goal with |- context [<[_ := ?x]> _] => pose proof (sum_list_insert holdsSlot _ _ _ x Hi) as E end;
    cbn [holdsSlot] in E.
  - lia.
  - apply bulkRefused_room in Hr. lia.
  - unfold freeBulkSlot in Hf. destruct (Z.ltb_spec 0 (channel s)); [|done]. injection Hf as <-. lia.
Qed.

Lemma wf_reached requests s : rtc advance (arrive requests) s -> wfSlots s.
Proof.
  intros Hs. pose proof (wf_arrive requests) as Hwf. induction Hs as [|s1 s2 s3 H12 _ IH]; [done|].
  by eapply IH, advance_wf.
Qed.

Lemma running_positive s i : stages s !! i = Some Running -> (0 < running s)%nat.
Proof.
  intros Hi. pose proof (sum_list_insert holdsSlot _ _ _ (Answered (Response 0 [] [])) Hi) as E.
  cbn [holdsSlot] in E. unfold running. lia.
Qed.

(** No request waits in [freeBulkSlot]. *)
Lemma running_done s i resp : wfSlots s -> stages s !! i = Some Running -> exists s', advances i s s' /\ stages s' !! i = Some (Answered resp).
Proof.
  intros [Hc _] Hi. pose proof (running_positive s i Hi). eexists. split.
  - eapply (advances_done i s resp (channel s - 1)); [done|]. unfold freeBulkSlot. by destruct (Z.ltb_spec 0 (channel s)); [|lia].
  - cbn [stages]. by eapply list_lookup_insert_eq, lookup_lt_Some.
Qed.

Lemma arrived_advances s i n r : stages s !! i = Some (Arrived n r) -> exists s', advances i s s'.
Proof.
  intros Hi. destruct (bulkRefused (beside (channel s)) n r) eqn:Hr; eexists;
    [by eapply advances_refused|by eapply advances_taken].
Qed.

Lemma advance_remaining s s' : advance s s' -> (remaining s' < remaining s)%nat.
Proof.
  intros [i Hs]. unfold remaining.
  destruct Hs as [n r refused Hi Hr|n r Hi Hr|resp slots Hi Hf]; cbn [stages];
    match goal with |- context [<[_ := ?x]> _] => pose proof (sum_list_insert stepsLeft _ _ _ x Hi) as E end;
    cbn [stepsLeft] in E; lia.
Qed.

Lemma remaining_arrive requests : remaining (arrive requests) = (2 * length requests)%nat.
Proof.
  unfold remaining, arrive. cbn [stages]. induction requests as [|x requests IH]; [done|].
  cbn [map sum_list_with stepsLeft length]. lia.
Qed.

(** A valid request is refused for want of a slot exactly when all are in use. *)
Lemma limited_iff s n r :
  wfSlots s -> validName n -> rq_rawQuery r = [] ->
  (bulkRefused (beside (channel s)) n r = None <-> Z.of_nat (running s) < bc_concurrency (ap_bulk ap)) /\
  (forall refused, bulkRefused (beside (channel s)) n r = Some refused ->
     rs_status refused = StatusTooManyRequests /\ Z.of_nat (running s) = bc_concurrency (ap_bulk ap)).
Proof.
  intros [Hc Hb] Hn Hq. unfold bulkRefused. unfold validName in Hn. rewrite Hn, Hq. cbn [is_ok negb len].
  change (negb (len [] =? 0)) with false. cbv iota. unfold takeBulkSlot. cbn [beside ap_busySlots ap_bulk].
  destruct (Z.ltb_spec (channel s) (bc_concurrency (ap_bulk ap))); cbn [negb].
  - split; [split; [lia|done]|done].
  - split; [split; [done|lia]|]. intros refused [= <-]. split; [done|lia].
Qed.

(** C26: the bulk requests that run at the same time are at most as many as the server
    is configured for, and they are exactly those that hold a slot; a request that
    runs always gives its slot back; a valid request that arrives runs if a slot is
    free and is answered with 429 if all are in use.  However the requests are
    interleaved, all are answered in the end and all slots are free again. *)
Theorem bulk_slots requests n s :
  nsteps advance n (arrive requests) s ->
  (channel s = Z.of_nat (running s) /\ Z.of_nat (running s) <= bc_concurrency (ap_bulk ap)) /\
  (forall i resp, stages s !! i = Some Running -> exists s', advances i s s' /\ stages s' !! i = Some (Answered resp)) /\
  (forall i database r, stages s !! i = Some (Arrived database r) -> validName database -> rq_rawQuery r = [] ->
     forall s', advances i s s' ->
       (stages s' !! i = Some Running /\ Z.of_nat (running s) < bc_concurrency (ap_bulk ap)) \/
       exists resp, stages s' !! i = Some (Answered resp) /\ rs_status resp = StatusTooManyRequests /\
         Z.of_nat (running s) = bc_concurrency (ap_bulk ap)) /\
  (n + remaining s <= 2 * length requests)%nat /\
  ((forall s', ~ advance s s') -> channel s = 0 /\ Forall (fun x => exists resp, x = Answered resp) (stages s)).
Proof.
  intros Hn. assert (wfSlots s) as Hwf by (by eapply wf_reached, rtc_nsteps_2).
  split; [destruct Hwf as [? [? ?]]; lia|]. split; [intros i resp; by apply running_done|]. split; [|split].
  - intros i d r Hi Hd Hq s' Hs. destruct (limited_iff s d r Hwf Hd Hq) as [Hroom Hfull].
    assert (forall x, <[i := x]> (stages s) !! i = Some x) as Hx by (intros x; by eapply list_lookup_insert_eq, lookup_lt_Some).
    destruct Hs as [d' r' refused Hi' Hr|d' r' Hi' Hr|resp slots Hi' _]; simplify_eq; cbn [stages].
    + right. exists refused. split; [done|]. by apply Hfull.
    + left. split; [done|]. by apply Hroom.
  - rewrite <- remaining_arrive. clear Hwf. induction Hn as [|m s1 s2 s3 H12 _ IH]; [done|]. apply advance_remaining in H12. lia.
  - intros Hstuck. assert (Forall (fun x => exists resp, x = Answered resp) (stages s)) as HF.
    { apply Forall_forall. intros x [i Hi]%list_elem_of_lookup. destruct x as [d r| |resp]; [| |by eexists].
      - destruct (arrived_advances s i d r Hi) as [s' ?]. destruct (Hstuck s'). by exists i.
      - destruct (running_done s i (Response 0 [] []) Hwf Hi) as (s' & ? & _). destruct (Hstuck s'). by exists i. }
    split; [|done]. destruct Hwf as [-> _]. unfold running. clear Hn Hstuck.
    induction HF as [|x l [resp ->] _ IH]; [done|]. cbn [sum_list_with holdsSlot]. lia.
Qed.
End Slots.

(** ** The theorem at work *)

(** One slot, and two exports. *)
Definition slotsApi : api := Api 4096 (BulkConfig 1 1 1 1 1) 0 false [].
Definition slotsRequest : request := Request (str "GET") (str "/bulk/a") (str "/bulk/a") [] [] [] None.
Definition slotsBusy : bulkSystem := BulkSystem 1 [Running; Arrived (str "a") slotsRequest].

Lemma slots_busy : nsteps (advance slotsApi) 1 (arrive [(str "a", slotsRequest); (str "a", slotsRequest)]) slotsBusy.
Proof.
  eapply nsteps_l; [|apply nsteps_O]. exists 0%nat.
  eapply (advances_taken slotsApi 0 (arrive [(str "a", slotsRequest); (str "a", slotsRequest)]) (str "a") slotsRequest);
    [reflexivity|by vm_compute].
Qed.

Lemma bulk_slots_witness :
  exists s', advance slotsApi slotsBusy s' /\ exists resp, stages s' !! 1%nat = Some (Answered resp) /\ rs_status resp = 429.
Proof.
  destruct (bulk_slots slotsApi ltac:(by vm_compute) _ _ _ slots_busy) as (_ & _ & Harrived & _).
  destruct (arrived_advances slotsApi slotsBusy 1 (str "a") slotsRequest eq_refl) as [s' Hs].
  destruct (Harrived 1%nat (str "a") slotsRequest eq_refl ltac:(by vm_compute) eq_refl s' Hs) as [[_ Hlt]|(resp & Hr & Hst & _)].
  - discriminate Hlt.
  - exists s'. split; [by exists 1%nat|]. exists resp. split; [exact Hr|exact Hst].
Defined.
