(* ===== verification/Routes.v ===== *)
(** * Routes

    The routing table of [handler] (server.go) and what is around it: the refusal
    of unclean paths and of requests to a stopping server, and the recovery from a
    panic.  The library's [http.ServeMux] is modelled for the patterns the program
    registers. *)

From S2P Require Import Prelude GoErrors Codec Text Validation Keys Json Document IndexValue Mime Patch Url DbRequest.
From S2P Require Import Host Conn Crypto Store Range Cursor Query Bulk Config Api.

(** ** Paths *)

(** [path.Clean] of a rooted path, by its parts: the stack of those kept. *)
Fixpoint cleanParts (parts kept : list bytes) : list bytes :=
  match parts with
  | [] => reverse kept
  | part :: parts' =>
      if bool_decide (part = []) || bool_decide (part = str ".") then cleanParts parts' kept
      else if bool_decide (part = str "..") then cleanParts parts' (tail kept)
      else cleanParts parts' (part :: kept)
  end.

Definition joinParts (parts : list bytes) : bytes := concat (map (fun p => ("/"%byte) :: p) parts).

(** [cleanPath] of net/http. *)
Definition cleanPath (p : bytes) : bytes :=
  let np := joinParts (cleanParts (splitByte "/" p) []) in
  match np with
  | [] => str "/"
  | _ => if bool_decide (last p = Some ("/"%byte)) then np ++ str "/" else np
  end.

(** ** Patterns *)

(** A literal segment, a wildcard for one segment, the end [{$}], and the rest of
    a pattern that ends in a slash. *)
Inductive pseg := Lit (s : bytes) | Wild | End_ | Rest.

#[export] Instance pseg_eq_dec : EqDecision pseg.
Proof. solve_decision. Defined.

Definition pathUnescape (s : bytes) : bytes := default s (unescape false s).

(** [firstSegment]: the segment after the slash the path begins with. *)
Definition firstSegment (path : bytes) : bytes * bytes :=
  if bool_decide (path = str "/") then (str "/", [])
  else
    let '(seg, rest) := cutByte "/" (drop 1 path) in
    (pathUnescape seg, match rest with Some r => ("/"%byte) :: r | None => [] end).

(** The values of the wildcards, where the pattern matches. *)
Fixpoint matchSegs (segs : list pseg) (path : bytes) : option (list bytes) :=
  match segs with
  | [] => match path with [] => Some [] | _ => None end
  | seg :: segs' =>
      match path with
      | [] => None
      | _ =>
          let '(first, rest) := firstSegment path in
          match seg with
          | Lit s => if bool_decide (first = s) then matchSegs segs' rest else None
          | Wild =>
              if bool_decide (first = str "/") then None
              else vars ← matchSegs segs' rest; Some (first :: vars)
          | End_ => if bool_decide (first = str "/") then matchSegs segs' rest else None
          | Rest => Some []
          end
      end
  end.

(** ** The table *)

Inductive target :=
  | TWelcome | THealth | TCreateDB | TListDBs | TListDocs | TQueryDocs | TQueryOptions | TDeleteDB
  | TCreateDoc | TGetDoc | TReplaceDoc | TPatchDoc | TDeleteDoc | TExportBulk | TImportBulk
  | TRedirect | TMethodNotAllowed | TNotFound.

Record entry := Entry {
  en_method : option bytes;
  en_segs : list pseg;
  en_target : target;
}.

Definition patRoot : list pseg := [End_].
Definition patHealth : list pseg := [Lit (str "healthz")].
Definition patDb : list pseg := [Lit (str "db")].
Definition patDatabase : list pseg := [Lit (str "db"); Wild].
Definition patDocument : list pseg := [Lit (str "db"); Wild; Wild].
Definition patBulk : list pseg := [Lit (str "bulk"); Wild].

Definition MethodGet : bytes := str "GET".
Definition MethodHead : bytes := str "HEAD".

(** [route]: the handler, for GET the refusal of HEAD, and the redirect of the
    path with a slash. *)
Definition route (method : string) (segs : list pseg) (t : target) : list entry :=
  [Entry (Some (str method)) segs t]
  ++ (if bool_decide (str method = MethodGet) then [Entry (Some MethodHead) segs TMethodNotAllowed] else [])
  ++ (if bool_decide (segs = patRoot) then [] else [Entry (Some (str method)) (segs ++ [End_]) TRedirect]).

Definition table : list entry :=
  route "GET" patRoot TWelcome
  ++ route "GET" patHealth THealth
  ++ route "POST" patDb TCreateDB
  ++ route "GET" patDb TListDBs
  ++ route "GET" patDatabase TListDocs
  ++ route "QUERY" patDatabase TQueryDocs
  ++ route "OPTIONS" patDatabase TQueryOptions
  ++ route "DELETE" patDatabase TDeleteDB
  ++ route "POST" patDatabase TCreateDoc
  ++ route "GET" patDocument TGetDoc
  ++ route "PUT" patDocument TReplaceDoc
  ++ route "PATCH" patDocument TPatchDoc
  ++ route "DELETE" patDocument TDeleteDoc
  ++ route "GET" patBulk TExportBulk
  ++ route "POST" patBulk TImportBulk
  ++ map (fun segs => Entry None segs TMethodNotAllowed)
       [patRoot; patHealth; patDb; patDatabase; patDocument; patBulk]
  ++ [Entry None [Rest] TNotFound].

(** The first pattern of a method that matches: those of one method exclude each
    other, but for the last one of all. *)
Fixpoint findEntry (method : option bytes) (path : bytes) (entries : list entry) : option (target * list bytes) :=
  match entries with
  | [] => None
  | e :: entries' =>
      if bool_decide (en_method e = method) then
        match matchSegs (en_segs e) path with
        | Some vars => Some (en_target e, vars)
        | None => findEntry method path entries'
        end
      else findEntry method path entries'
  end.

(** [matchMethodAndPath]: the method's own patterns, those of GET for HEAD, then
    those of any method. *)
Definition findRoute (method path : bytes) : target * list bytes :=
  match findEntry (Some method) path table with
  | Some found => found
  | None =>
      match (if bool_decide (method = MethodHead) then findEntry (Some MethodGet) path table else None) with
      | Some found => found
      | None => default (TNotFound, []) (findEntry None path table)
      end
  end.

(** ** Responses of the router *)

Definition methodNotAllowed : response :=
  writeError [] StatusMethodNotAllowed (str "method_not_allowed") (str "Method is not allowed").

Definition notFound : response := writeError [] StatusNotFound (str "route_not_found") (str "Route does not exist").

(** *** [http.Redirect] *)

Definition hexEscapeNonASCII (s : bytes) : bytes :=
  concat (map (fun c => if b2z c <? 128 then [c] else ("%"%byte) :: hexEncode [c]) s).

Definition htmlEscapeByte (c : byte) : bytes :=
  if beqb c "&" then str "&amp;" else if beqb c "<" then str "&lt;" else if beqb c ">" then str "&gt;"
  else if beqb c x22 then str "&#34;" else if beqb c "'" then str "&#39;" else [c].
Definition htmlEscape (s : bytes) : bytes := concat (map htmlEscapeByte s).

(** [url.Parse] accepts a rooted path with a query and a fragment: no control
    byte before the fragment, and escapes that can be read. *)
Definition isControl (c : byte) : bool := (b2z c <? 32) || beqb c x7f.
Definition urlParses (u : bytes) : bool :=
  let '(main, fragment) := cutByte "#" u in
  negb (existsb isControl main)
  && bool_decide (is_Some (unescape false (cutByte "?" main).1))
  && match fragment with Some f => bool_decide (is_Some (unescape false f)) | None => true end.

(** [path.Clean], keeping a trailing slash, of the path before the query. *)
Definition cleanLocation (u : bytes) : bytes :=
  if urlParses u then
    let '(path, query) := cutByte "?" u in
    cleanPath path ++ match query with Some q => ("?"%byte) :: q | None => [] end
  else u.

Definition statusText (status : Z) : bytes :=
  if status =? StatusMovedPermanently then str "Moved Permanently" else str "Temporary Redirect".

Definition redirect (r : request) (location : bytes) (status : Z) : response :=
  let url := cleanLocation location in
  let header := [(str "Location", hexEscapeNonASCII url)] in
  if bool_decide (rq_method r = MethodGet) then
    Response status (setHeader "Content-Type" (str "text/html; charset=utf-8") header)
      (str "<a href=" ++ [x22] ++ htmlEscape url ++ [x22] ++ str ">" ++ statusText status ++ str "</a>." ++ [x0a; x0a])
  else if bool_decide (rq_method r = MethodHead) then
    Response status (setHeader "Content-Type" (str "text/html; charset=utf-8") header) []
  else Response status header [].

Definition withQuery (path rawQuery : bytes) : bytes :=
  path ++ match rawQuery with [] => [] | _ => ("?"%byte) :: rawQuery end.

Definition redirectNoSlash (r : request) : response :=
  redirect r (withQuery (trimSuffixByte "/" (rq_path r)) (rq_rawQuery r))
    (if bool_decide (rq_method r = MethodGet) then StatusMovedPermanently else StatusTemporaryRedirect).

(** ** Serving *)

Fixpoint doubleSlash (path : bytes) : bool :=
  match path with
  | a :: ((b :: _) as path') => (beqb a "/" && beqb b "/") || doubleSlash path'
  | _ => false
  end.

(** The condition of [rejectUncleanPath]. *)
Definition uncleanPath (path : bytes) : bool :=
  doubleSlash path
  || existsb (fun part => bool_decide (part = str ".") || bool_decide (part = str "..")) (splitByte "/" path).

Section Serve.
Context {W : Type} `{Host W} `{Conn W} `{Crypto} `{JSONPath} `{JSONPatch}.
Variables (wk : bytes) (fuel : nat) (ap : api).

(** The handler of a pattern, with the values of its wildcards. *)
Definition handle (t : target) (vars : list bytes) (r : request) : M W response :=
  let database := default [] (vars !! 0%nat) in
  let id := default [] (vars !! 1%nat) in
  match t with
  | TWelcome => welcome ap
  | THealth => health
  | TCreateDB => apiCreateDB wk ap r
  | TListDBs => apiListDBs wk r
  | TListDocs => apiListDocs wk database r
  | TQueryDocs => apiQueryDocs wk ap database r
  | TQueryOptions => queryOptions
  | TDeleteDB => apiDeleteDB wk database
  | TCreateDoc => apiCreateDoc wk fuel ap database r
  | TGetDoc => apiGetDoc wk database id
  | TReplaceDoc => apiReplaceDoc wk fuel ap database id r
  | TPatchDoc => apiPatchDoc wk fuel ap database id r
  | TDeleteDoc => apiDeleteDoc wk database id r
  | TExportBulk => apiExportBulk wk ap database r
  | TImportBulk => apiImportBulk wk fuel ap database r
  | TRedirect => mret (redirectNoSlash r)
  | TMethodNotAllowed => mret methodNotAllowed
  | TNotFound => mret notFound
  end.

(** [ServeMux.ServeHTTP]: the redirect to a clean path, then the pattern.  It
    matches the escaped path; the clean path of one that gets here needs no
    escaping. *)
Definition mux (r : request) : M W response :=
  let path := cleanPath (rq_escaped r) in
  if bool_decide (path = rq_escaped r) then
    let '(t, vars) := findRoute (rq_method r) path in handle t vars r
  else mret (redirect r (withQuery path (rq_rawQuery r)) StatusMovedPermanently).

Definition rejectUncleanPath (r : request) : M W response :=
  if uncleanPath (rq_path r) then mret notFound else mux r.

Definition rejectStopping (r : request) : M W response :=
  if ap_stopping ap then
    mret (writeError [] StatusServiceUnavailable (str "service_unavailable") (str "Service is unavailable"))
  else rejectUncleanPath r.

(** [recover]: a panic of a handler comes before it has written anything. *)
Definition serve (r : request) : M W response :=
  result ← catch (rejectStopping r);
  match result with
  | inl err => mret (writeFailure [] err)
  | inr response => mret response
  end.
End Serve.
