(* ===== verification/Main.v ===== *)
(** * The process

    main.go and version.go: what a run of the server does from its arguments to
    its exit code.  The HTTP server of net/http and the signals are
    the [ending] of the run; the requests are served one after another, while the
    locks that order concurrent ones are in [Locks]. *)

From S2P Require Import Prelude GoErrors Codec Text Validation Keys Json Document Patch Url DbRequest.
From S2P Require Import Host Conn Crypto Store Range Cursor Query Bulk Config Api Routes.

(** ** version.go *)

Definition unknownVersion : bytes := str "unknown".

Definition selectVersion (release sha : bytes) : bytes :=
  if negb (len release =? 0) then release else if negb (len sha =? 0) then sha else unknownVersion.

(** ** The server's state *)

Definition newAPIWithBulk (maxBodyBytes : Z) (bulk : bulkConfig) (buildVersion : bytes) : api :=
  Api maxBodyBytes bulk 0 false buildVersion.

Definition stop (ap : api) : api :=
  Api (ap_maxBodyBytes ap) (ap_bulk ap) (ap_busySlots ap) true (ap_version ap).

(** How a run ends: the listener fails before any signal; or a signal comes, and
    with it the requests that arrive while the server stops, the results of
    [Shutdown] and [Close], and the error [ListenAndServe] returns at last. *)
Inductive ending :=
  | ServeFailed (err : error)
  | Signalled (late : list request) (shutdownErr closeErr : option error) (serveErr : error).

Definition wrapCloseErr (err : option error) : option error := wrapf <$> err.

(** [errors.Join] drops what is [nil]. *)
Definition joinOpt (e1 e2 : option error) : option error :=
  match e1, e2 with
  | None, None => None
  | Some e1, Some e2 => Some (join e1 e2)
  | Some e, None | None, Some e => Some (EWrap [e])
  end.

Section Run.
Context {W : Type} `{Host W} `{Conn W} `{Crypto} `{JSONPath} `{JSONPatch}.
Variables (fuel : nat) (cfg : config) (buildVersion : bytes).

(** The requests one after another, with the answer to each. *)
Fixpoint serveAll (wk : bytes) (ap : api) (requests : list request) (w : W) : list (res response) * W :=
  match requests with
  | [] => ([], w)
  | r :: requests' =>
      let '(answer, w1) := serve wk fuel ap r w in
      let '(answers, w2) := serveAll wk ap requests' w1 in
      (answer :: answers, w2)
  end.

(** From the start of the server to the end of [run]'s body: the answers that were
    sent, and its error. *)
Definition session (wk : bytes) (early : list request) (e : ending) : M W (list (res response) * option error) :=
  let ap := newAPIWithBulk (cf_maxBodyBytes cfg) (cf_bulk cfg) buildVersion in
  answers ← ofVal (serveAll wk ap early);
  match e with
  | ServeFailed err => mret (answers, if errorsIs httpErrServerClosed err then None else Some (wrapf err))
  | Signalled late shutdownErr closeErr serveErr =>
      lateAnswers ← ofVal (serveAll wk (stop ap) late);
      mret (answers ++ lateAnswers,
            match shutdownErr with
            | Some err => joinOpt (Some (wrapf err)) (wrapCloseErr closeErr)
            | None => if errorsIs httpErrServerClosed serveErr then None else Some (wrapf serveErr)
            end)
  end.

(** [file] is what [os.ReadFile] gives for the key file. *)
Definition run (file : error + bytes) (early : list request) (e : ending) : M W (list (res response) * option error) :=
  match loadMasterKey file with
  | Ok masterKey =>
      opened ← catch (openStore masterKey);
      match opened with
      | inl err => mret ([], Some (wrapf err))
      | inr wk =>
          '(answers, runErr) ← session wk early e;
          closed ← catch closeStore;
          mret (answers, match closed with inl err => joinOpt runErr (Some err) | inr _ => runErr end)
      end
  | Err err => mret ([], Some (wrapf err))
  | OutOfFuel => outOfFuel
  end.
End Run.

Definition exitCode (err : option error) : Z := match err with Some _ => 1 | None => 0 end.

(** What a process with these arguments answers, and its exit code; [readFile] is
    [os.ReadFile], and the state of the world is that of the data directory the
    arguments name.  The logs have no counterpart. *)
Definition main {W : Type} `{Host W} `{Conn W} `{Crypto} `{JSONPath} `{JSONPatch} (fuel : nat) (buildVersion : bytes)
    (readFile : bytes -> error + bytes) (args : list bytes) (early : list request) (e : ending)
    : M W (list (res response) * Z) :=
  match parseConfig args with
  | Ok cfg =>
      '(answers, err) ← run fuel cfg buildVersion (readFile (cf_keyFile cfg)) early e;
      mret (answers, exitCode err)
  | Err _ => mret ([], exitCode (Some EText))
  | OutOfFuel => outOfFuel
  end.
