(* ===== verification/RouteFacts.v ===== *)
(** * Routes: lemmas

    How the router sees a path made of plain segments, and which methods lead to
    which handlers. *)

From S2P Require Import Prelude GoErrors Codec Text Validation Keys Json Document IndexValue Mime Patch Url DbRequest.
From S2P Require Import Host Conn Crypto Store Range Cursor Query QueryFacts Bulk Config Api Routes.

(** ** Plain segments *)

(** A segment that stands for itself in a path. *)
Definition plainSegment (s : bytes) : Prop :=
  s <> [] /\ ("/"%byte) ∉ s /\ ("%"%byte) ∉ s /\ s <> str "." /\ s <> str "..".

Lemma unescape_plain plus s : ("%"%byte) ∉ s -> (plus = true -> ("+"%byte) ∉ s) -> unescape plus s = Some s.
Proof.
  induction s as [|c s IH]; intros Hp Hplus; [done|]. cbn [unescape].
  rewrite elem_of_cons in Hp. destruct (beqb_spec c "%") as [->|Hc]; [naive_solver|].
  rewrite IH by (try intros ->; rewrite ?elem_of_cons in *; naive_solver). cbn [mbind option_bind].
  destruct plus; [|done]. destruct (beqb_spec c "+") as [->|]; [|done].
  exfalso. apply Hplus; [done|]. by left.
Qed.

Lemma cutByte_app sep a b : sep ∉ a -> cutByte sep (a ++ sep :: b) = (a, Some b).
Proof.
  induction a as [|c a IH]; cbn [app cutByte]; [by rewrite beqb_refl|]. intros Hn.
  rewrite elem_of_cons in Hn. destruct (beqb_spec c sep) as [->|]; [naive_solver|]. by rewrite IH by naive_solver.
Qed.

Lemma cutByte_none sep a : sep ∉ a -> cutByte sep a = (a, None).
Proof.
  induction a as [|c a IH]; cbn [cutByte]; [done|]. intros Hn.
  rewrite elem_of_cons in Hn. destruct (beqb_spec c sep) as [->|]; [naive_solver|]. by rewrite IH by naive_solver.
Qed.

Lemma joinParts_cons p ps : joinParts (p :: ps) = ("/"%byte) :: p ++ joinParts ps.
Proof. done. Qed.

Lemma firstSegment_join p ps : plainSegment p -> firstSegment (joinParts (p :: ps)) = (p, joinParts ps).
Proof.
  intros (Hne & Hs & Hp & _). unfold firstSegment. rewrite joinParts_cons.
  rewrite bool_decide_eq_false_2 by (destruct p; [done|by intros [= -> ->]]).
  cbn [drop]. rewrite drop_0.
  assert (pathUnescape p = p) as Hu by (unfold pathUnescape; by rewrite unescape_plain).
  destruct ps as [|q ps].
  - change (joinParts []) with (@nil byte). rewrite app_nil_r, cutByte_none by done. by rewrite Hu.
  - rewrite joinParts_cons, cutByte_app by done. by rewrite Hu.
Qed.

(** ** Matching by segments *)

Fixpoint matchParts (segs : list pseg) (parts : list bytes) : option (list bytes) :=
  match segs, parts with
  | [], [] => Some []
  | Lit s :: segs', p :: parts' => if bool_decide (p = s) then matchParts segs' parts' else None
  | Wild :: segs', p :: parts' => vars ← matchParts segs' parts'; Some (p :: vars)
  | Rest :: _, _ :: _ => Some []
  | _, _ => None
  end.

Lemma matchSegs_parts segs parts :
  Forall plainSegment parts -> matchSegs segs (joinParts parts) = matchParts segs parts.
Proof.
  revert parts. induction segs as [|seg segs IH]; intros parts Hp.
  - by destruct Hp.
  - destruct Hp as [|p parts Hp HF]; [by destruct seg|]. cbn [matchSegs].
    rewrite firstSegment_join by done. rewrite joinParts_cons. destruct seg; cbn [matchParts].
    + by rewrite IH.
    + rewrite bool_decide_eq_false_2, IH; [done|done|]. intros ->. destruct Hp as (_ & Hs & _). by apply Hs; left.
    + rewrite bool_decide_eq_false_2; [done|]. intros ->. destruct Hp as (_ & Hs & _). by apply Hs; left.
    + done.
Qed.

Fixpoint findParts (method : option bytes) (parts : list bytes) (entries : list entry) : option (target * list bytes) :=
  match entries with
  | [] => None
  | e :: entries' =>
      if bool_decide (en_method e = method) then
        match matchParts (en_segs e) parts with
        | Some vars => Some (en_target e, vars)
        | None => findParts method parts entries'
        end
      else findParts method parts entries'
  end.

Lemma findEntry_parts method parts entries :
  Forall plainSegment parts -> findEntry method (joinParts parts) entries = findParts method parts entries.
Proof.
  intros Hp. induction entries as [|e entries IH]; [done|]. cbn [findEntry findParts].
  by rewrite matchSegs_parts, IH.
Qed.

Lemma findRoute_parts method parts found :
  Forall plainSegment parts -> findParts (Some method) parts table = Some found ->
  findRoute method (joinParts parts) = found.
Proof. intros Hp Hf. unfold findRoute. by rewrite findEntry_parts, Hf. Qed.

(** ** Clean paths *)

Lemma splitByte_join p ps :
  Forall (fun s => ("/"%byte) ∉ s) (p :: ps) -> splitByte "/" (p ++ joinParts ps) = p :: ps.
Proof.
  revert p. induction ps as [|q ps IH]; intros p HF; apply Forall_cons in HF as [Hp HF].
  - change (joinParts []) with (@nil byte). rewrite app_nil_r. by apply splitByte_one.
  - rewrite joinParts_cons, splitByte_app by done. by rewrite IH.
Qed.

Lemma cleanParts_plain parts kept :
  Forall plainSegment parts -> cleanParts parts kept = reverse kept ++ parts.
Proof.
  intros HF. revert kept. induction HF as [|p parts (Hne & _ & _ & Hd & Hdd) HF IH]; intros kept; cbn [cleanParts].
  - by rewrite app_nil_r.
  - rewrite !bool_decide_eq_false_2 by done. cbn [orb]. by rewrite IH, reverse_cons, <- app_assoc.
Qed.

Lemma plain_noSlash parts : Forall plainSegment parts -> Forall (fun s => ("/"%byte) ∉ s) parts.
Proof. intros HF. eapply Forall_impl; [exact HF|]. by intros s (_ & ? & _). Qed.

Lemma split_plain parts :
  Forall plainSegment parts -> parts <> [] -> splitByte "/" (joinParts parts) = [] :: parts.
Proof.
  intros HF Hne. destruct parts as [|p ps]; [done|].
  change (joinParts (p :: ps)) with (@nil byte ++ joinParts (p :: ps)). apply splitByte_join.
  constructor; [by intros ?%elem_of_nil|by apply plain_noSlash].
Qed.

Lemma last_joinParts p ps : Forall plainSegment (p :: ps) -> last (joinParts (p :: ps)) <> Some ("/"%byte).
Proof.
  revert p. induction ps as [|q ps IH]; intros p HF; apply Forall_cons in HF as [(Hne & Hs & _) HF].
  - rewrite joinParts_cons. change (joinParts []) with (@nil byte). rewrite app_nil_r.
    rewrite last_cons. destruct (last p) as [c|] eqn:E; [|by apply last_None in E].
    intros [= ->]. apply Hs. rewrite last_lookup in E. by apply list_elem_of_lookup_2 in E.
  - rewrite joinParts_cons, last_cons, last_app. specialize (IH q HF).
    destruct (last (joinParts (q :: ps))) eqn:E; [done|]. by apply last_None in E.
Qed.

Lemma cleanPath_plain parts : Forall plainSegment parts -> parts <> [] -> cleanPath (joinParts parts) = joinParts parts.
Proof.
  intros HF Hne. unfold cleanPath. rewrite split_plain by done. cbn [cleanParts]. rewrite bool_decide_eq_true_2 by done.
  cbn [orb]. rewrite cleanParts_plain by done. cbn [reverse rev_append app]. cbv zeta.
  destruct parts as [|p ps]; [done|]. rewrite joinParts_cons. rewrite <- joinParts_cons.
  rewrite bool_decide_eq_false_2; [done|]. by apply last_joinParts.
Qed.

Lemma doubleSlash_skip t s : ("/"%byte) ∉ t -> doubleSlash (t ++ s) = doubleSlash s.
Proof.
  induction t as [|c t IH]; [done|]. rewrite elem_of_cons. intros Hn. cbn [app doubleSlash].
  rewrite <- IH by naive_solver. destruct (t ++ s) as [|b r]; [done|].
  destruct (beqb_spec c "/") as [->|]; [naive_solver|done].
Qed.

Lemma doubleSlash_plain parts : Forall plainSegment parts -> doubleSlash (joinParts parts) = false.
Proof.
  induction 1 as [|p parts (Hne & Hs & _) HF IH]; [done|]. rewrite joinParts_cons.
  destruct p as [|c p]; [done|].
  change (doubleSlash ("/"%byte :: (c :: p) ++ joinParts parts))
    with ((beqb "/" "/" && beqb c "/") || doubleSlash ((c :: p) ++ joinParts parts)).
  rewrite doubleSlash_skip by done. rewrite IH, orb_false_r. rewrite elem_of_cons in Hs.
  destruct (beqb_spec c "/") as [->|]; [naive_solver|]. by rewrite andb_false_r.
Qed.

Lemma uncleanPath_plain parts : Forall plainSegment parts -> parts <> [] -> uncleanPath (joinParts parts) = false.
Proof.
  intros HF Hne. unfold uncleanPath. rewrite doubleSlash_plain, split_plain by done. cbn [orb existsb].
  clear Hne. induction HF as [|p parts (_ & _ & _ & Hd & Hdd) HF IH]; [done|]. cbn [existsb].
  by rewrite !(bool_decide_eq_false_2 (p = _)).
Qed.

Lemma validName_plain n : validName n -> plainSegment n.
Proof.
  rewrite validName_unfold. intros (_ & (c & rest & -> & Hc) & HF). rewrite Forall_forall in HF.
  split; [done|]. split; [by intros Hin%HF|]. split; [by intros Hin%HF|]. split; by intros [= -> _].
Qed.

Lemma validID_char id c : validID id -> c ∈ id -> c = ("-"%byte) \/ lowerHex c = true.
Proof.
  intros Hid (i & Hi)%list_elem_of_lookup. pose proof (validID_length id Hid) as Hlen.
  pose proof (lookup_lt_Some _ _ _ Hi) as Hlt.
  unfold validID, validateID in Hid. destruct (_ || negb (beqb (at_ id 23) "-")) eqn:Hd; [done|].
  rewrite !orb_false_iff, !negb_false_iff, !beqb_eq in Hd. destruct Hd as [[[[_ H8] H13] H18] H23].
  destruct (forallb _ (seq 0 36)) eqn:Hf; [|done]. rewrite forallb_forall in Hf.
  specialize (Hf i). rewrite in_seq in Hf. specialize (Hf ltac:(lia)). apply orb_true_iff in Hf.
  assert (at_ id i = c) as Hat by (unfold at_; by rewrite Hi).
  rewrite Hat in Hf. destruct Hf as [Hf|?]; [left|by right]. unfold is_dash in Hf.
  rewrite !orb_true_iff, !Nat.eqb_eq in Hf. destruct Hf as [[[-> | ->] | ->] | ->]; congruence.
Qed.

Lemma validID_plain id : validID id -> plainSegment id.
Proof.
  intros Hid. pose proof (validID_length id Hid) as Hlen. pose proof (validID_nonempty id Hid) as Hne.
  pose proof (validID_char id) as Hc.
  split; [done|]. split; [by intros [?|?]%(Hc _ Hid)|]. split; [by intros [?|?]%(Hc _ Hid)|].
  split; intros ->; discriminate Hlen.
Qed.

(** ** Methods *)

(** The method of the requests that a handler gets. *)
Definition targetMethod (t : target) : option bytes :=
  match t with
  | TCreateDB | TCreateDoc | TImportBulk => Some (str "POST")
  | TDeleteDB | TDeleteDoc => Some (str "DELETE")
  | TReplaceDoc => Some (str "PUT")
  | TPatchDoc => Some (str "PATCH")
  | _ => None
  end.

Definition entryMethod (e : entry) : bool :=
  match targetMethod (en_target e) with Some m => bool_decide (en_method e = Some m) | None => true end.

Lemma table_methods : forallb entryMethod table = true.
Proof. vm_compute. reflexivity. Qed.

Lemma findEntry_method method path t vars m :
  findEntry method path table = Some (t, vars) -> targetMethod t = Some m -> method = Some m.
Proof.
  pose proof table_methods as Ht. revert Ht. generalize table as entries. intros entries.
  induction entries as [|e entries IH]; [done|]. cbn [forallb findEntry]. intros [He Hes]%andb_true_iff.
  case_bool_decide as Hm; [|by apply IH]. destruct (matchSegs _ _); [|by apply IH].
  intros [= <- <-] Htm. unfold entryMethod in He. rewrite Htm, bool_decide_eq_true in He. congruence.
Qed.

Lemma findRoute_method method path t vars m :
  findRoute method path = (t, vars) -> targetMethod t = Some m -> method = m.
Proof.
  unfold findRoute. intros Hf Htm. destruct (findEntry (Some method) path table) as [[t1 v1]|] eqn:E1.
  { injection Hf as -> ->. pose proof (findEntry_method _ _ _ _ _ E1 Htm). congruence. }
  destruct (if bool_decide (method = MethodHead) then _ else _) as [[t2 v2]|] eqn:E2.
  { case_bool_decide; [|done]. injection Hf as -> ->. pose proof (findEntry_method _ _ _ _ _ E2 Htm) as [= <-].
    by destruct t. }
  destruct (findEntry None path table) as [[t3 v3]|] eqn:E3.
  - cbn [default] in Hf. injection Hf as -> ->. by pose proof (findEntry_method _ _ _ _ _ E3 Htm).
  - cbn [default] in Hf. by injection Hf as <- <-.
Qed.

(** ** The routes of plain paths *)

Definition routeParts (method : bytes) (parts : list bytes) : target * list bytes :=
  match findParts (Some method) parts table with
  | Some found => found
  | None =>
      match (if bool_decide (method = MethodHead) then findParts (Some MethodGet) parts table else None) with
      | Some found => found
      | None => default (TNotFound, []) (findParts None parts table)
      end
  end.

Lemma findRoute_plain method parts :
  Forall plainSegment parts -> findRoute method (joinParts parts) = routeParts method parts.
Proof. intros Hp. unfold findRoute, routeParts. by rewrite !findEntry_parts. Qed.

Definition tableMethods : list bytes :=
  map str ["GET"; "HEAD"; "POST"; "QUERY"; "OPTIONS"; "DELETE"; "PUT"; "PATCH"]%string.

Lemma table_methods_listed :
  forallb (fun e => match en_method e with Some m => bool_decide (m ∈ tableMethods) | None => true end) table = true.
Proof. vm_compute. reflexivity. Qed.

Lemma routeParts_other method parts :
  method ∉ tableMethods -> routeParts method parts = default (TNotFound, []) (findParts None parts table).
Proof.
  intros Hm. unfold routeParts. assert (findParts (Some method) parts table = None) as ->.
  { pose proof table_methods_listed as Ht. revert Ht. generalize table as entries. intros entries.
    induction entries as [|e entries IH]; [done|]. cbn [forallb findParts]. intros [He Hes]%andb_true_iff.
    rewrite bool_decide_eq_false_2; [by apply IH|]. intros E. rewrite E, bool_decide_eq_true in He. done. }
  rewrite bool_decide_eq_false_2; [done|]. intros ->. apply Hm. by right; left.
Qed.

(** A route for a method is one of those listed or that of any other method. *)
Lemma routeParts_cases (P : bytes -> target * list bytes -> Prop) parts :
  Forall (fun m => P m (routeParts m parts)) tableMethods ->
  (forall m, m ∉ tableMethods -> P m (default (TNotFound, []) (findParts None parts table))) ->
  forall m, P m (routeParts m parts).
Proof.
  intros Hin Hout m. destruct (decide (m ∈ tableMethods)) as [Hm|Hm].
  - by apply (proj1 (Forall_forall _ _) Hin).
  - rewrite routeParts_other by done. by apply Hout.
Qed.

(** The handlers of a path, by method; any other method is refused. *)
Definition byMethod (handlers : list (string * target)) (method : bytes) : target :=
  default TMethodNotAllowed (snd <$> find (fun h => bool_decide (str h.1 = method)) handlers).

Definition databaseHandlers : list (string * target) :=
  [("GET", TListDocs); ("QUERY", TQueryDocs); ("OPTIONS", TQueryOptions); ("DELETE", TDeleteDB); ("POST", TCreateDoc)]%string.
Definition documentHandlers : list (string * target) :=
  [("GET", TGetDoc); ("PUT", TReplaceDoc); ("PATCH", TPatchDoc); ("DELETE", TDeleteDoc)]%string.

Definition bulkHandlers : list (string * target) := [("GET", TExportBulk); ("POST", TImportBulk)]%string.
Definition collectionHandlers : list (string * target) := [("POST", TCreateDB); ("GET", TListDBs)]%string.
Definition healthHandlers : list (string * target) := [("GET", THealth)]%string.

Lemma byMethod_other handlers m :
  (forall h, h ∈ handlers -> str h.1 <> m) -> byMethod handlers m = TMethodNotAllowed.
Proof.
  intros Hm. unfold byMethod. induction handlers as [|h handlers IH]; [done|]. cbn [find].
  rewrite bool_decide_eq_false_2 by (apply Hm; by left). apply IH. intros h' Hh'. apply Hm. by right.
Qed.

Lemma route_handlers handlers parts vars :
  Forall plainSegment parts ->
  Forall (fun m => routeParts m parts = (byMethod handlers m, vars)) tableMethods ->
  Forall (fun h => str h.1 ∈ tableMethods) handlers ->
  default (TNotFound, []) (findParts None parts table) = (TMethodNotAllowed, vars) ->
  forall m, findRoute m (joinParts parts) = (byMethod handlers m, vars).
Proof.
  intros Hp Hin Hh Hnone m. rewrite findRoute_plain by done. revert m.
  apply (routeParts_cases (fun m t => t = (byMethod handlers m, vars))); [done|].
  intros m Hm. rewrite Hnone, byMethod_other; [done|]. intros h Hh' <-. apply Hm.
  by apply (proj1 (Forall_forall _ _) Hh).
Qed.

(** The checks of the table for a path, its segments being plain. *)
Ltac route_table :=
  apply route_handlers;
    [repeat (apply Forall_cons; split; [first [by apply validName_plain|by apply validID_plain]|]); constructor
    |repeat constructor; vm_compute; reflexivity
    |repeat constructor; apply (bool_decide_unpack _); vm_compute; exact I
    |vm_compute; reflexivity].

Lemma route_database n m :
  validName n -> findRoute m (joinParts [str "db"; n]) = (byMethod databaseHandlers m, [n]).
Proof. intros Hn. revert m. route_table. Qed.

Lemma route_document n id m :
  validName n -> validID id ->
  findRoute m (joinParts [str "db"; n; id]) = (byMethod documentHandlers m, [n; id]).
Proof. intros Hn Hid. revert m. route_table. Qed.

Lemma route_bulk n m :
  validName n -> findRoute m (joinParts [str "bulk"; n]) = (byMethod bulkHandlers m, [n]).
Proof. intros Hn. revert m. route_table. Qed.

Lemma route_collection m : findRoute m (joinParts [str "db"]) = (byMethod collectionHandlers m, []).
Proof. revert m. route_table. Qed.

Lemma route_health m : findRoute m (joinParts [str "healthz"]) = (byMethod healthHandlers m, []).
Proof. revert m. route_table. Qed.

(** A request for a plain path gets to its route. *)
Lemma plain_request parts :
  Forall plainSegment parts -> parts <> [] ->
  uncleanPath (joinParts parts) = false /\ cleanPath (joinParts parts) = joinParts parts.
Proof. intros HF Hne. split; [by apply uncleanPath_plain|by apply cleanPath_plain]. Qed.
