(* ===== verification/ApiFacts.v ===== *)
(** * How handlers answer

    The judgement [answers] for a handler over the abstract state of the store, its
    rules, and facts about the parts of a request a handler reads and about the
    responses it writes. *)

From S2P Require Import Prelude GoErrors Codec Text Validation Keys Json Document IndexValue Mime Patch Url DbRequest.
From S2P Require Import Host Conn Crypto Wp Store StoreRep StoreReads StoreSpec Range Cursor Query Bulk Config Api.

(** What a response and the state left by its handler have to satisfy. *)
Definition answer : Type := response -> astate -> Prop.

(** The answer that leaves the store as it is. *)
Definition says (a : astate) (resp : response) : answer := fun resp' a' => resp' = resp /\ a' = a.

Definition serverError (resp : response) : Prop := rs_status resp = 500 \/ rs_status resp = 503.

Section Answers.
Context {W : Type} `{HS : HostSpec W} `{CN : !Conn W} `{CS : CryptoSpec}.

(** Something outside has failed: the host, or the connection of the request. *)
Definition trouble (w : W) : Prop := faulty w \/ ~ reliable W.

(** From a store that represents [a], the handler ends with a response: one the
    specification allows with the state left, or, after a failure outside, one of
    [bad] with the state as it was or as the specification could have left it.  A
    handler never panics; one whose retries may run out, as [retry] tells, has changed
    nothing then. *)
Definition answers (wk : storeKey) (a : astate) (retry : Prop) (m : M W response) (spec : answer) (bad : response -> Prop) : Prop :=
  forall w, store_rep wk (contents w) a ->
    let '(r, w') := m w in
    (faulty w -> faulty w') /\
    exists a', store_rep wk (contents w') a' /\
      match r with
      | Ok resp => spec resp a' \/
                   trouble w' /\ bad resp /\ (a' = a \/ exists resp', spec resp' a')
      | Err _ => False
      | OutOfFuel => retry /\ a' = a
      end.

Variables (wk : storeKey) (a : astate) (retry : Prop).

Lemma answers_ret resp (spec : answer) bad : spec resp a -> answers wk a retry (mret resp) spec bad.
Proof. intros Hs w Hrep. split; [done|]. exists a. split; [done|]. by left. Qed.

(** A store operation that ends a handler. *)
Lemma answers_runs {A : Type} (m : M W A) post mid (f : error -> response) (g : A -> response) (spec : answer) bad :
  runs wk a m post mid ->
  (forall x a', post (Ok x) a' -> spec (g x) a') -> (forall e a', post (Err e) a' -> spec (f e) a') ->
  (forall a', post OutOfFuel a' -> retry /\ a' = a) -> (forall e, outside e -> bad (f e)) ->
  (forall a', mid a' -> a' = a \/ exists resp', spec resp' a') ->
  answers wk a retry (x ← catch m; match x with inl e => mret (f e) | inr v => mret (g v) end) spec bad.
Proof.
  intros Hm Hg Hf Hn Hb Hmid w Hrep. specialize (Hm w Hrep). unfold mbind, M_bind, catch.
  destruct (m w) as [[x|e|] w1]; destruct Hm as (Hfa & a' & Hrep' & Hr); cbn;
    (split; [done|]); exists a'; (split; [done|]).
  - destruct Hr as [Hr|((? & ? & _) & _)]; [|done]. left. by apply Hg.
  - destruct Hr as [Hr|((? & [= <-] & Ho) & Hfw & Hm)]; [left; by apply Hf|]. right.
    split; [by left|]. split; [by apply Hb|by apply Hmid].
  - destruct Hr as [Hr|((? & ? & _) & _)]; [|done]. by apply Hn.
Qed.

(** A store operation that only looks. *)
Lemma answers_observes {A : Type} (m : M W A) post (k : error + A -> M W response) (spec : answer) bad :
  observes wk a m post ->
  (forall x, post (Ok x) -> answers wk a retry (k (inr x)) spec bad) ->
  (forall e, post (Err e) -> answers wk a retry (k (inl e)) spec bad) ->
  (forall e, outside e -> exists resp, k (inl e) = mret resp /\ bad resp) -> ~ post OutOfFuel ->
  answers wk a retry (x ← catch m; k x) spec bad.
Proof.
  intros Hm Hok Herr Hout Hnf w Hrep. specialize (Hm w Hrep). unfold mbind, M_bind, catch.
  destruct (m w) as [[x|e|] w1]; destruct Hm as (Hfa & Hc & Hr); rewrite <- Hc in Hrep.
  - destruct Hr as [Hr|((? & ? & _) & _)]; [|done]. specialize (Hok x Hr w1 Hrep).
    destruct (k (inr x) w1) as [r w2]. destruct Hok as [? ?]. split; auto.
  - destruct Hr as [Hr|((? & [= <-] & Ho) & Hfw)].
    + specialize (Herr e Hr w1 Hrep). destruct (k (inl e) w1) as [r w2]. destruct Herr as [? ?]. split; auto.
    + destruct (Hout e Ho) as (resp & -> & Hb). cbn. split; [done|]. exists a. split; [done|]. right.
      split; [by left|]. split; [done|by left].
  - by destruct Hr as [Hr|((? & ? & _) & _)].
Qed.

Lemma answers_mono m (spec spec' : answer) (bad bad' : response -> Prop) :
  answers wk a retry m spec bad -> (forall resp a', spec resp a' -> spec' resp a') ->
  (forall resp, bad resp -> bad' resp) -> answers wk a retry m spec' bad'.
Proof.
  intros Hm Hs Hb w Hrep. specialize (Hm w Hrep). destruct (m w) as [[resp|e|] w'];
    destruct Hm as (Hf & a' & Hrep' & Hr); (split; [done|]); exists a'; (split; [done|]); [|done|done].
  destruct Hr as [Hr|(Ht & Hr & Ha)]; [left; auto|]. right. split; [done|]. split; [auto|].
  destruct Ha as [->|[resp' ?]]; [by left|right]. exists resp'. auto.
Qed.
End Answers.

(** ** Responses after a failure outside *)

Lemma writeFailure_serverError header e : serverError (writeFailure header e).
Proof. unfold writeFailure. destruct (errorsIs errCorruptData e); [by left|]. destruct (isStoreUnavailable e); [by right|by left]. Qed.

Lemma outside_not s e : outside e -> fault_sentinel s = false -> errorsIs s e = false.
Proof. intros [Ho _]. apply Ho. Qed.

(** An error from outside is none of the refusals a handler looks for. *)
Ltac outside_is Ho :=
  repeat match goal with
  | |- context [errorsIs ?s ?e] => rewrite (outside_not s e Ho eq_refl)
  end.

Section Outside.
Variables (e : error) (Ho : outside e).

Lemma createDBError_outside : serverError (createDBError e).
Proof. unfold createDBError. outside_is Ho. apply writeFailure_serverError. Qed.
Lemma deleteDBError_outside : serverError (deleteDBError e).
Proof. unfold deleteDBError. outside_is Ho. apply writeFailure_serverError. Qed.
Lemma createDocError_outside : serverError (createDocError e).
Proof. unfold createDocError. outside_is Ho. apply writeFailure_serverError. Qed.
Lemma getDocError_outside : serverError (getDocError e).
Proof. unfold getDocError. outside_is Ho. apply writeFailure_serverError. Qed.
Lemma replaceError_outside : serverError (replaceError e).
Proof. unfold replaceError. outside_is Ho. apply writeFailure_serverError. Qed.
Lemma patchError_outside : serverError (patchError e).
Proof. unfold patchError. outside_is Ho. apply writeFailure_serverError. Qed.
Lemma deleteDocError_outside : serverError (deleteDocError e).
Proof. unfold deleteDocError. outside_is Ho. apply writeFailure_serverError. Qed.
Lemma listError_outside : serverError (listError e).
Proof. unfold listError. outside_is Ho. apply writeFailure_serverError. Qed.
Lemma startError_outside : serverError (startError e).
Proof. unfold startError. outside_is Ho. apply listError_outside. Qed.
Lemma queryError_outside : serverError (queryError e).
Proof.
  unfold queryError. outside_is Ho. destruct (errorsIs ctxDeadlineExceeded e); [by right|].
  apply writeFailure_serverError.
Qed.
Lemma failBulk_outside header : serverError (failBulk header e).
Proof.
  unfold failBulk. outside_is Ho. destruct (errorsIs ctxDeadlineExceeded e || _); [by right|].
  cbn [orb]. destruct (errorsIs errCorruptData e); [by left|]. destruct (isStoreUnavailable e); [by right|by left].
Qed.
End Outside.

(** A bulk request that fails is told so. *)
Lemma failBulk_status header e : 400 <= rs_status (failBulk header e).
Proof. unfold failBulk. repeat (case_match; [done|]). done. Qed.

(** ** What a request holds *)

Lemma parseCmpOp_valid raw : opValid (parseCmpOp raw).1 = true.
Proof. unfold parseCmpOp. by repeat case_match. Qed.

Lemma setField_op query name v query' :
  setField query name v = Some query' -> opValid (pq_op query) = true -> opValid (pq_op query') = true.
Proof.
  destruct query as [path value cursor op limit]. unfold setField. cbn [pq_op].
  destruct (bool_decide (name = str "path")).
  { destruct (decodeStr v path); [|done]. by intros [= <-]. }
  destruct (bool_decide (name = str "op")).
  { destruct (decodeStr v []) as [raw|]; [|done]. cbn [mbind option_bind]. pose proof (parseCmpOp_valid raw) as Hv.
    destruct (parseCmpOp raw) as [op' []]; [|done]. by intros [= <-]. }
  destruct (bool_decide (name = str "value")); [by intros [= <-]|].
  destruct (bool_decide (name = str "limit")).
  { destruct (decodeInt v limit); [|done]. by intros [= <-]. }
  destruct (bool_decide (name = str "cursor")); [|done]. destruct (decodeStr v cursor); [|done]. by intros [= <-].
Qed.

Lemma setFields_op fields query seen query' seen' :
  setFields query seen fields = Some (query', seen') -> opValid (pq_op query) = true -> opValid (pq_op query') = true.
Proof.
  revert query seen. induction fields as [|[name v] fields IH]; intros query seen; cbn [setFields]; [by intros [= <- <-]|].
  destruct (decide (name ∈ seen)); [done|]. destruct (setField query name v) as [q|] eqn:Hq; [|done].
  cbn [mbind option_bind]. intros Hs Hop. by eapply IH, setField_op.
Qed.

Lemma decodePathQuery_ok body query :
  decodePathQuery body = Ok query ->
  1 <= pq_limit query <= maxListLimit /\ opValid (pq_op query) = true /\ isScalar (pq_value query) = true.
Proof.
  unfold decodePathQuery. destruct (skipSpace body) as [|c s]; [done|]. destruct (negb (beqb c "{")); [done|].
  destruct (readFields _ _ _) as [[fields rest]|]; [|done].
  destruct (setFields _ _ fields) as [[q seen]|] eqn:Hq; [|done].
  destruct (negb (atEOF rest)); [done|]. destruct (negb _ || negb _ || _); [done|].
  destruct (_ || _) eqn:Hl; [done|]. destruct (isScalar (pq_value q)) eqn:Hs; [|done]. cbn [negb].
  destruct (_ && _); [done|]. intros <-%Ok_inj. rewrite orb_false_iff, !Z.ltb_ge in Hl. split; [lia|]. split; [|done].
  by eapply setFields_op.
Qed.

Lemma parseLimit_range raw limit : parseLimit raw = Some limit -> 1 <= limit <= maxListLimit.
Proof.
  unfold parseLimit. destruct (atoi raw) as [z|]; [|done]. cbn [mbind option_bind].
  destruct ((z <? 1) || (maxListLimit <? z)) eqn:E; [done|]. intros [= <-].
  rewrite orb_false_iff, !Z.ltb_ge in E. lia.
Qed.

Lemma limit_range (raws : list bytes) limit :
  match raws with [] => Some defaultListLimit | raw :: _ => parseLimit raw end = Some limit ->
  1 <= limit <= maxListLimit.
Proof. destruct raws; [by intros [= <-]|apply parseLimit_range]. Qed.

(** A query that is accepted is one the store can be asked. *)
Lemma parseDocQuery_ok rawQuery query :
  parseDocQuery rawQuery = inr query ->
  1 <= dq_limit query <= maxListLimit /\ opValid (dq_op query) = true /\
  (dq_indexed query = true ->
     validName (dq_index query) /\ isScalar (dq_value query) = true /\
     (beqb (dq_op query) cmpEq = false -> isOrdered (dq_value query) = true)).
Proof.
  unfold parseDocQuery. destruct (parseQuery rawQuery) as [vs []]; [|done]. cbn [negb].
  destruct (negb (forallb _ vs)); [done|].
  destruct (match valuesOf (str "limit") vs with [] => _ | _ => _ end) as [limit|] eqn:Hl; [|done].
  apply limit_range in Hl. cbv zeta.
  destruct (head (valuesOf (str "index") vs)) as [index|], (head (valuesOf (str "value") vs)) as [raw|]; [|done..|].
  - destruct (validateName index) as [[]|e|] eqn:Hi; cbn [is_ok negb]; [|done..].
    destruct (decodeQueryValue raw) as [value|e|] eqn:Hv; [|done..].
    assert (isScalar value = true) as Hs by (apply decodeQueryValue_ok in Hv as [_ Hs]; exact Hs).
    assert (forall o : option bytes, opValid (match o with Some o => parseCmpOp o | None => (cmpEq, true) end).1 = true)
      as Hop by (intros [o|]; [apply parseCmpOp_valid|done]).
    specialize (Hop (head (valuesOf (str "op") vs))).
    destruct (match head (valuesOf (str "op") vs) with Some o => _ | None => _ end) as [op []]; cbn [negb]; [|done].
    destruct (negb (beqb op cmpEq) && _) eqn:Ho; [done|]. intros [= <-]. split; [done|]. split; [done|]. intros _.
    split; [exact Hi|]. split; [exact Hs|]. cbn [dq_op dq_value]. intros Hne. rewrite Hne in Ho. by destruct value.
  - destruct (head (valuesOf (str "op") vs)); [done|]. destruct (_ && _); [done|]. by intros [= <-].
Qed.

Lemma parseListQuery_ok rawQuery f limit cursor :
  parseListQuery rawQuery f = inr (limit, cursor) -> 1 <= limit <= maxListLimit.
Proof.
  unfold parseListQuery. cbv zeta.
  destruct (match valuesOf (str "limit") _ with [] => _ | _ => _ end) as [l|] eqn:Hl; [|done].
  destruct (_ && _); [done|]. intros [= <- _]. by apply limit_range in Hl.
Qed.
