(* ===== verification/ApiSpec.v ===== *)
(** * What the API promises

    The answers of the API as a specification over the abstract state: for a
    request that is not refused, each handler in terms of the databases and
    documents the state holds, whatever Pebble keys and ciphers are below.  The
    lemmas show that the handlers give these answers. *)

From S2P Require Import Prelude GoErrors Codec Text Validation Keys Json Document IndexValue Mime Patch Url DbRequest.
From S2P Require Import Host Conn Crypto Wp Store StoreRep StoreReads StoreSpec StoreBulk StoreLists Range StoreRange.
From S2P Require Import Cursor Query QueryFacts QueryRuns Bulk BulkFacts ExportFacts Config Api ApiFacts.

(** ** Databases *)

(** The answer to a request that may be refused. *)
Definition unlessRefused {A : Type} (a : astate) (front : response + A) (spec : A -> answer) : answer :=
  match front with inl refused => says a refused | inr x => spec x end.

Section Specs.
Context `{Crypto} `{JS : JSONPathSpec} `{JSONPatch}.
Variables (ap : api) (a : astate).

Definition createDBSpec (r : request) : answer :=
  unlessRefused a (requestDB ap r) (fun q resp a' =>
    resp = dbCreated q /\ createdDB a (dr_name q) (indexDefs q) a' \/
    exists e, createDBFails a (dr_name q) (indexDefs q) e /\ says a (createDBError e) resp a').

Definition listDBsSpec (r : request) : answer :=
  unlessRefused a (requestDBs r) (fun '(limit, cursor) =>
    says a (writeJSON [] StatusOK (dbListJson (take (Z.to_nat limit) (after cursor (sortedKeys a)))))).

Definition deleteDBSpec (name : bytes) : answer := fun resp a' =>
  if negb (is_ok (validateName name)) then says a (badName []) resp a'
  else match a !! name with
       | Some _ => resp = noContent /\ a' = delete name a
       | None => says a (databaseNotFound []) resp a'
       end.

(** ** Documents *)

Definition createDocSpec (database : bytes) (r : request) : answer :=
  unlessRefused a (requestCreate ap database r) (fun document resp a' =>
    (exists id rev, validID id /\ created a database id document rev a' /\ resp = docCreated database id rev) \/
    exists id e, createFails a database id document e /\ errorsIs errDocExists e = false /\
                 says a (createDocError e) resp a').

Definition getDocSpec (database id : bytes) : answer :=
  match validDocPath database id with
  | Some refused => says a refused
  | None =>
      match (d ← a !! database; ldb_docs d !! id) with
      | Some doc => says a (docAnswer (sd_json doc) (sd_revision doc))
      | None => says a documentNotFound
      end
  end.

Definition replaceDocSpec (database id : bytes) (r : request) : answer :=
  unlessRefused a (requestReplace ap database id r) (fun '(match_, document) resp a' =>
    (exists d current rev, lookupMatches a database id match_ d current /\
       updated a database id current document rev a' /\ resp = docAnswer document rev) \/
    exists e, (lookupFails a database id match_ e \/
               exists d current, lookupMatches a database id match_ d current /\ updateFails d document e) /\
              says a (replaceError e) resp a').

Definition patchDocSpec (database id : bytes) (r : request) : answer :=
  unlessRefused a (requestPatch ap database id r) (fun '(match_, body, mediaType) resp a' =>
    let apply_ document := applyPatch document body mediaType (ap_maxBodyBytes ap) in
    (exists d current document rev, lookupMatches a database id match_ d current /\
       apply_ (sd_json current) = Ok document /\
       updated a database id current document rev a' /\ resp = docAnswer document rev) \/
    exists e, (lookupFails a database id match_ e \/
               exists d current, lookupMatches a database id match_ d current /\
                 (apply_ (sd_json current) = Err e \/
                  exists document, apply_ (sd_json current) = Ok document /\ updateFails d document e)) /\
              says a (patchError e) resp a').

Definition deleteDocSpec (database id : bytes) (r : request) : answer :=
  unlessRefused a (requestDelete database id r) (fun match_ resp a' =>
    (exists d current, lookupMatches a database id match_ d current) /\
      resp = noContent /\ a' = setDoc a database id None \/
    exists e, lookupFails a database id match_ e /\ says a (deleteDocError e) resp a').

(** ** Lists and queries *)

Definition listPlainSpec (d : ldb) (query : docQuery) : answer :=
  let '(ids, more) := page (dq_limit query) (dq_cursor query) (sortedKeys (ldb_docs d)) in
  says a (listAnswer ids (if more : bool then default [] (last ids) else [])).

Definition withToken (query : docQuery) (token : bytes) : docQuery :=
  DocQuery (dq_value query) token (dq_index query) (dq_op query) (dq_limit query) (dq_indexed query).

(** A page of an index; when there is more, with a cursor from which the same
    query goes on where the page ends. *)
Definition listQuerySpec (database : bytes) (d : ldb) (query : docQuery) : answer :=
  match queryStart (cursorKeyOf d) database query with
  | Ok (encoded, lastValue, cursor) =>
      match findIndex (ldb_defs d) (dq_index query) with
      | None => says a (listError errIndexNotFound)
      | Some _ => fun resp a' =>
          let '(ids, id', lastValue', more) :=
            indexAnswer d (dq_index query) (dq_op query) (dq_limit query) encoded cursor lastValue in
          exists token, says a (listAnswer ids token) resp a' /\
            if more : bool
            then queryStart (cursorKeyOf d) database (withToken query token) = Ok (encoded, lastValue', id')
            else token = []
      end
  | Err e => says a (startError e)
  | OutOfFuel => fun _ _ => False
  end.

Definition listDocsSpec (database : bytes) (r : request) : answer :=
  unlessRefused a (requestDocs database r) (fun query =>
    match a !! database with
    | None => says a (databaseNotFound acceptQuery)
    | Some d => if dq_indexed query then listQuerySpec database d query else listPlainSpec d query
    end).

(** A path query: the answer of its plan from the position of the cursor, and a
    cursor from which the same query goes on. *)
Definition queryDocsSpec (database : bytes) (r : request) : answer :=
  unlessRefused a (requestQuery ap database r) (fun query resp a' =>
    (exists e, planError a database (pq_path query) e /\ says a (planRefused e) resp a') \/
    exists d plan, a !! database = Some d /\ acceptedPath (pq_path query) (pp_path plan) /\
      pp_text plan = jpString (pp_path plan) /\ usesIndex d (pp_path plan) (pp_index plan) /\
      ((exists e, execFails a database plan query e /\ says a (queryError e) resp a') \/
       exists ids cursor, answered a database plan query (ids, cursor) /\
         says a (writeJSON queryHeader StatusOK (docListJson ids cursor)) resp a')).
End Specs.

(** ** Bulk *)

Section Bulk.
Context `{CryptoSpec}.
Variables (ap : api) (a : astate).

Definition bulkSpec (database : bytes) (r : request) (rest : answer) : answer :=
  match bulkRefused ap database r with Some refused => says a refused | None => rest end.

(** An export: every document on a line of its own, in the order of the IDs. *)
Definition exportSpec (database : bytes) (r : request) : answer :=
  bulkSpec database r
    match a !! database with
    | None => says a (failBulk exportHeader errDBNotFound)
    | Some d => says a (Response StatusOK exportHeader (exportBytes (exportedDocs d)))
    end.

(** A failure outside ends an export with an error, or, once it has started, in the
    middle of what it sends. *)
Definition exportCut (database : bytes) (resp : response) : Prop :=
  serverError resp \/
  exists d part rest, a !! database = Some d /\ exportBytes (exportedDocs d) = part ++ rest /\
    resp = Response StatusOK exportHeader part.

(** An import: the documents of the lines, all or none; a body that breaks off is
    refused. *)
Definition importSpec (database : bytes) (r : request) : answer :=
  if negb (isNDJSON (headerGet "Content-Type" r)) then
    says a (writeBulkError [] StatusUnsupportedMediaType "unsupported_media_type"
              "Content-Type must be application/x-ndjson" 0)
  else
    bulkSpec database r
      (let data := concat (rq_chunks r) in
       let lines := checkLines (ap_maxBodyBytes ap) (bc_maxDocuments (ap_bulk ap)) 1 [] (bulkLines [] data) in
       match rq_end r with
       | Some _ => fun resp a' => exists e, says a (failBulk [] e) resp a'
       | None =>
           if bc_maxBytes (ap_bulk ap) <? len data then fun resp a' =>
             exists e : error, (e = errBulkLimit \/ lines = inl e) /\ says a (failBulk [] e) resp a'
           else match bulkOutcome lines with
                | Ok documents => fun resp a' =>
                    (exists ids, imported a database documents ids a' /\ resp = writeBulkSuccess) \/
                    exists e, importFails anyBatch a database documents e /\ says a (failBulk [] e) resp a'
                | Err e => says a (failBulk [] e)
                | OutOfFuel => fun _ _ => False
                end
       end).
End Bulk.
