(* ===== verification/ApiRuns.v ===== *)
(** * The handlers keep the promises

    Every handler of databases, documents, lists and queries gives the answers of
    ApiSpec.v. *)

From S2P Require Import Prelude GoErrors Codec Text Validation Keys Json Document IndexValue Mime Patch Url DbRequest.
From S2P Require Import Host Conn Crypto Wp Store StoreRep StoreReads StoreSpec StoreBulk StoreLists Range StoreRange.
From S2P Require Import Cursor Query QueryFacts QueryRuns Bulk BulkFacts ExportFacts Config Api ApiFacts ApiSpec.

Section Refused.
Context {W : Type} `{HS : HostSpec W} `{CN : !Conn W} `{CS : CryptoSpec}.

Lemma answers_unlessRefused {A : Type} wk a retry (front : response + A) (k : A -> M W response) spec bad :
  (forall x, front = inr x -> answers wk a retry (k x) (spec x) bad) ->
  answers wk a retry (match front with inl refused => mret refused | inr x => k x end) (unlessRefused a front spec) bad.
Proof. intros Hk. destruct front as [refused|x]; [by apply answers_ret|by apply Hk]. Qed.

Lemma validateName_valid n : is_ok (validateName n) = true -> validName n.
Proof. unfold validName. by destruct (validateName n) as [[]| |]. Qed.

Lemma validateName_cases n : validName n \/ is_ok (validateName n) = false.
Proof. unfold validName. destruct (validateName n) as [[]| |]; auto. Qed.

Lemma requestDB_ok ap r q : requestDB ap r = inr q -> validName (dr_name q).
Proof.
  unfold requestDB. destruct (negb (isJSON _)); [done|]. cbv zeta. destruct (failsWith _ _); [done|].
  destruct (readBody _ _) as [body| |]; [|done..]. destruct (decodeDBRequest body) as [q'| |]; [|done..].
  destruct (is_ok (validateName (dr_name q'))) eqn:E; [|done]. intros [= <-]. by apply validateName_valid.
Qed.

Lemma validDocPath_ok database id : validDocPath database id = None -> validName database.
Proof.
  unfold validDocPath. destruct (is_ok (validateName database)) eqn:E; [|done]. intros _. by apply validateName_valid.
Qed.

Lemma requestDocs_ok database r query :
  requestDocs database r = inr query -> validName database /\ parseDocQuery (rq_rawQuery r) = inr query.
Proof.
  unfold requestDocs. destruct (is_ok (validateName database)) eqn:E; [|done]. cbn [negb].
  destruct (parseDocQuery _) as [|q]; [done|]. intros [= <-]. split; [by apply validateName_valid|done].
Qed.
End Refused.

Section Runs.
Context {W : Type} `{HS : HostSpec W} `{CN : !Conn W} `{CS : CryptoSpec} `{JS : JSONPathSpec} `{JP : JSONPatch}.
Variables (wk : storeKey) (fuel : nat) (ap : api) (a : astate).
Context (Hwk : len wk = keySize) (Hfuel : (0 < fuel)%nat).

Lemma answers_createDB r : answers wk a False (apiCreateDB wk ap r) (createDBSpec ap a r) serverError.
Proof.
  apply answers_unlessRefused. intros q Hq%requestDB_ok. eapply answers_runs.
  - apply runs_triple. intros c Hrep. by apply triple_createDB.
  - intros [] a' Hc. by left.
  - intros e a' [-> He]. right. by exists e.
  - done.
  - apply createDBError_outside.
  - intros a' [->|Hc]; [by left|right]. eexists. by left.
Qed.

Lemma answers_listDBs r : answers wk a False (apiListDBs wk r) (listDBsSpec a r) serverError.
Proof.
  clear fuel Hfuel. apply answers_unlessRefused. intros [limit cursor] Hq. unfold requestDBs in Hq.
  destruct (parseListQuery _ _) as [|[l cur]] eqn:Hp; [done|]. injection Hq as -> ->.
  apply parseListQuery_ok in Hp. eapply answers_observes with (post := fun r => r = Ok _).
  - eapply observes_reads; [intros c Hrep; apply reads_listDBs; [done|lia]| |done|done]. by intros x ->.
  - intros x [= ->]. by apply answers_ret.
  - done.
  - intros e _. eexists. split; [done|]. apply writeFailure_serverError.
  - done.
Qed.

Lemma answers_deleteDB n : answers wk a False (apiDeleteDB wk n) (deleteDBSpec a n) serverError.
Proof.
  unfold apiDeleteDB, deleteDBSpec. destruct (validateName_cases n) as [Hn|Hn]; [|rewrite Hn; by apply answers_ret].
  replace (is_ok (validateName n)) with true by (unfold validName in Hn; by rewrite Hn). cbn [negb].
  eapply answers_runs.
  - apply runs_triple. intros c Hrep. by apply triple_deleteDB.
  - intros [] a' [[d Hd] ->]. by rewrite Hd.
  - intros e a' (-> & Hd & ->). by rewrite Hd.
  - done.
  - apply deleteDBError_outside.
  - intros a' [->| ->]; [by left|]. destruct (a !! n) as [d|] eqn:Hd; [right; by exists noContent|left].
    by apply delete_id.
Qed.

Lemma answers_createDoc n r :
  answers wk a True (apiCreateDoc wk fuel ap n r) (createDocSpec ap a n r) serverError.
Proof.
  apply answers_unlessRefused. intros document Hq. unfold requestCreate in Hq.
  destruct (negb (isJSON _)); [done|]. destruct (is_ok (validateName n)) eqn:Hn; [|done].
  apply validateName_valid in Hn. eapply answers_runs with (g := fun made => docCreated n made.1 made.2).
  - apply runs_triple. intros c Hrep. by apply triple_createDoc.
  - intros [id rev] a' [Hid Hc]. left. by exists id, rev.
  - intros e a' (-> & Hne & id & Hid & He). right. by exists id, e.
  - done.
  - apply createDocError_outside.
  - intros a' [->|(id & rev & Hid & Hc)]; [by left|right]. eexists. left. by exists id, rev.
Qed.

Lemma answers_getDoc n id : answers wk a False (apiGetDoc wk n id) (getDocSpec a n id) serverError.
Proof.
  unfold apiGetDoc, getDocSpec. destruct (validDocPath n id) as [refused|] eqn:Hp; [by apply answers_ret|].
  apply validDocPath_ok in Hp. eapply answers_observes with (post := fun r => match r with
    | Ok doc => (d ← a !! n; ldb_docs d !! id) = Some doc
    | Err e => e = errDocNotFound /\ (d ← a !! n; ldb_docs d !! id) = None
    | OutOfFuel => False end).
  - eapply observes_reads; [intros c Hrep; by apply reads_getDoc| | |by intros [? ?]].
    + intros doc (d & Hd & Hdoc). by rewrite Hd.
    + intros e [[= ->] Hno]. split; [done|]. destruct (a !! n) as [d|]; [by apply Hno|done].
  - intros doc Hdoc. apply answers_ret. by rewrite Hdoc.
  - intros e [-> Hno]. apply answers_ret. by rewrite Hno.
  - intros e Ho. eexists. split; [done|]. by apply getDocError_outside.
  - by intros [].
Qed.

Lemma answers_replaceDoc n id r :
  answers wk a True (apiReplaceDoc wk fuel ap n id r) (replaceDocSpec ap a n id r) serverError.
Proof.
  apply answers_unlessRefused. intros [m document] Hq. unfold requestReplace in Hq.
  destruct (negb (isJSON _)); [done|]. destruct (validDocPath n id) eqn:Hp; [done|]. apply validDocPath_ok in Hp.
  eapply answers_runs.
  - apply runs_triple. intros c Hrep. by apply triple_replaceDoc.
  - intros rev a' (d & current & Hl & Hu). left. by exists d, current, rev.
  - intros e a' [-> He]. right. by exists e.
  - done.
  - apply replaceError_outside.
  - intros a' [->|(d & current & rev & Hl & Hu)]; [by left|right]. eexists. left. by exists d, current, rev.
Qed.

Lemma answers_patchDoc n id r :
  answers wk a True (apiPatchDoc wk fuel ap n id r) (patchDocSpec ap a n id r) serverError.
Proof.
  apply answers_unlessRefused. intros [[m body] mediaType] Hq. unfold requestPatch in Hq.
  destruct (parsePatchType _); [|done..]. destruct (validDocPath n id) eqn:Hp; [done|]. apply validDocPath_ok in Hp.
  eapply answers_runs.
  - apply runs_triple. intros c Hrep. by apply triple_patchDoc.
  - intros doc a' (d & current & Hl & Ha & Hu). left. by exists d, current, (sd_json doc), (sd_revision doc).
  - intros e a' [-> He]. right. by exists e.
  - done.
  - apply patchError_outside.
  - intros a' [->|(d & current & json & rev & Hl & Ha & Hu)]; [by left|right]. eexists. left.
    by exists d, current, json, rev.
Qed.

Lemma answers_deleteDoc n id r : answers wk a False (apiDeleteDoc wk n id r) (deleteDocSpec a n id r) serverError.
Proof.
  apply answers_unlessRefused. intros m Hq. unfold requestDelete in Hq.
  destruct (validDocPath n id) eqn:Hp; [done|]. apply validDocPath_ok in Hp. eapply answers_runs.
  - apply runs_triple. intros c Hrep. by apply triple_deleteDoc.
  - intros [] a' [Hl ->]. by left.
  - intros e a' [-> He]. right. by exists e.
  - done.
  - apply deleteDocError_outside.
  - intros a' [->|[Hl ->]]; [by left|right]. eexists. by left.
Qed.

End Runs.

(** ** Lists *)

Section Lists.
Context {W : Type} `{HS : HostSpec W} `{CN : !Conn W} `{CS : CryptoSpec} `{JS : JSONPathSpec}.
Variables (wk : storeKey) (ap : api) (a : astate).

Lemma answers_listPlain n d query :
  validName n -> a !! n = Some d -> 1 <= dq_limit query ->
  answers wk a False (listPlain wk n query) (listPlainSpec a d query) serverError.
Proof.
  intros Hn Hd Hl. unfold listPlain, listPlainSpec.
  eapply answers_observes with (post := fun r => r = Ok (page (dq_limit query) (dq_cursor query) (sortedKeys (ldb_docs d)))).
  - eapply observes_reads; [intros c Hrep; apply reads_listDocs; [done|done|lia]| |intros e [[= ->] ?]; congruence|by intros [? ?]].
    intros x (d' & Hd' & ->). by simplify_eq.
  - intros x [= ->]. destruct (page _ _ _) as [ids more]. by apply answers_ret.
  - done.
  - intros e Ho. eexists. split; [done|]. by apply listError_outside.
  - done.
Qed.

(** An unknown database is found out by whatever looks at it first. *)
Lemma answers_noDb {A : Type} n (m : M W A) (P : A -> Prop) (E : exits) k header spec :
  a !! n = None -> (forall c, store_rep wk c a -> reads c m P E) ->
  (forall x, P x -> is_Some (a !! n)) -> (forall x, E x -> x = Some (errDBNotFound : error)) ->
  (forall e, outside e -> exists resp, k (inl e) = mret resp /\ serverError resp) ->
  k (inl (errDBNotFound : error)) = mret (databaseNotFound header) -> spec (databaseNotFound header) a ->
  answers wk a False (x ← catch m; k x) spec serverError.
Proof.
  intros Hno Hm HP HE Hout Hk Hs. eapply answers_observes with (post := fun r => r = Err (errDBNotFound : error)).
  - eapply observes_reads; [exact Hm| | |].
    + intros x Hx%HP. rewrite Hno in Hx. by destruct Hx.
    + by intros e [= ->]%HE.
    + by intros Hx%HE.
  - done.
  - intros e [= ->]. rewrite Hk. by apply answers_ret.
  - exact Hout.
  - done.
Qed.

Lemma reads_listStart c n query :
  store_rep wk c a -> validName n ->
  reads c (listStart wk n query)
    (fun r => exists d, a !! n = Some d /\ r.1 = cursorKeyOf d /\ queryStart (cursorKeyOf d) n query = Ok r.2)
    (fun x => exists e, x = Some e /\
       (a !! n = None /\ e = errDBNotFound \/
        exists d, a !! n = Some d /\ queryStart (cursorKeyOf d) n query = Err e)).
Proof.
  intros Hrep Hn. unfold listStart. apply (reads_cursorBox wk c a Hrep); [done| |].
  { destruct (a !! n) as [d|] eqn:Hd; [right; by eexists|left]. exists errDBNotFound. split; [done|]. by left. }
  intros d Hd. destruct (queryStart _ _ _) as [start|e|] eqn:Hs.
  - eapply reads_bind; [by apply (reads_lift c (Ok start) (fun y => y = start))|]. intros ? ->.
    apply reads_ret. by exists d.
  - apply (reads_bind c _ _ (fun _ => False)); [|done]. apply reads_lift. exists e. split; [done|]. right. by exists d.
  - exfalso. revert Hs. unfold queryStart. pose proof (encodeIndexValue_total (dq_value query)) as Ht.
    destruct (encodeIndexValue _) as [e|e|]; [|done..]. cbn [mbind res_bind].
    destruct (dq_cursor query); [done|]. destruct (decodeQueryCursor _ _); [|done..]. by destruct (_ && _).
Qed.

(** Where a list starts: at the beginning, or at a position that fits the query. *)
Lemma queryStart_ok box n query encoded lastValue cursor :
  queryStart box n query = Ok (encoded, lastValue, cursor) ->
  encodeIndexValue (dq_value query) = Ok encoded /\
  (lastValue = [] /\ cursor = [] \/ lastValueFits (dq_op query) encoded lastValue = true /\ validID cursor).
Proof.
  unfold queryStart. destruct (encodeIndexValue _) as [e|e|]; [|done..]. cbn [mbind res_bind].
  destruct (dq_cursor query) as [|b token]; [intros [= -> <- <-]; split; [done|by left]|].
  unfold decodeQueryCursor. destruct (rest ← _; _) as [qc|]; [|done].
  destruct (validateQueryCursor_cases qc) as [Hv|Hv]; rewrite Hv; cbn [mbind res_bind]; [|done].
  destruct (_ && _) eqn:Hm; [|done]. intros [= -> <- <-]. split; [done|]. right.
  rewrite !andb_true_iff, !bool_decide_eq_true, beqb_eq in Hm. destruct Hm as [[[_ _] Hop] Hval].
  unfold validateQueryCursor in Hv. rewrite Hop, Hval in Hv. destruct (_ || negb (is_ok (validateID _))) eqn:E in Hv; [done|].
  apply orb_false_iff in E as [_ E]. destruct (lastValueFits _ _ _); [|done]. split; [done|].
  unfold validID. by destruct (validateID (qc_id qc)) as [[]| |].
Qed.

Lemma rangeValid_value op value e :
  opValid op = true -> beqb op cmpEq = false -> encodeIndexValue value = Ok e -> isOrdered value = true ->
  rangeValid op e = true.
Proof.
  intros Hop Hne He Ho. unfold rangeValid. rewrite Hop, Hne, (encodeIndexValue_valid _ _ He). cbn [negb andb].
  apply encodeIndexValue_tag in He as (tag & rest & -> & Ht). by destruct value; simplify_eq/=.
Qed.

Lemma rangeCursorValid_fits op e av aid :
  beqb op cmpEq = false -> lastValueFits op e av = true -> validID aid -> rangeCursorValid e av aid = true.
Proof.
  intros Hne Hf Hid. unfold lastValueFits in Hf. rewrite Hne in Hf. cbn [andb negb] in Hf.
  destruct (negb (validIndexValue av) || _) eqn:E; [done|]. apply orb_false_iff in E as [E1 E2].
  apply negb_false_iff in E1, E2. unfold rangeCursorValid. rewrite E1, E2, (validID_ok aid Hid). by rewrite orb_true_r.
Qed.

Lemma reads_listIndexed c n d query encoded lastValue cursor :
  store_rep wk c a -> validName n -> a !! n = Some d -> 1 <= dq_limit query -> opValid (dq_op query) = true ->
  (beqb (dq_op query) cmpEq = false -> isOrdered (dq_value query) = true) ->
  encodeIndexValue (dq_value query) = Ok encoded ->
  lastValue = [] /\ cursor = [] \/ lastValueFits (dq_op query) encoded lastValue = true /\ validID cursor ->
  reads c (listIndexed wk n query encoded lastValue cursor)
    (fun r => let '(ids, lastValue', more) := r in is_Some (findIndex (ldb_defs d) (dq_index query)) /\
       indexAnswer d (dq_index query) (dq_op query) (dq_limit query) encoded cursor lastValue
       = (ids, default [] (last ids), lastValue', more))
    (fun x => x = Some (errIndexNotFound : error) /\ findIndex (ldb_defs d) (dq_index query) = None).
Proof.
  intros Hrep Hn Hd Hlim Hop Hord He Hstart. unfold listIndexed, indexAnswer.
  destruct (beqb (dq_op query) cmpEq) eqn:Heq.
  - eapply reads_bind.
    { eapply reads_mono; [apply (reads_queryDocsCtx wk c a Hrep); [done|lia]|exact (fun _ H => H)|].
      intros x (err & -> & Herr). destruct Herr as [?|d' Hd' ?|? ? ? Hv|? ? ? ? ?]; [congruence|by simplify_eq| |done].
      by rewrite (encodeIndexValue_valid _ _ He) in Hv. }
    intros [ids more] (d' & Hd' & Hi & _ & E). simplify_eq. apply reads_ret. rewrite <- E. by split.
  - specialize (Hord eq_refl). pose proof (rangeValid_value _ _ _ Hop Heq He Hord) as Hrv.
    assert (rangeCursorValid encoded lastValue cursor = true) as Hrc.
    { destruct Hstart as [[-> ->]|[Hf Hid]]; [done|]. by eapply rangeCursorValid_fits. }
    eapply reads_bind.
    { eapply reads_mono; [apply (reads_queryRangePage wk c a Hrep); [done|done]|exact (fun _ H => H)|].
      intros x (err & -> & Herr). destruct Herr as [?|d' Hd' ?|? ? ? ?|? ? ? ? ?]; [congruence|by simplify_eq|congruence..]. }
    intros p (d' & Hd' & Hi & _ & _ & ->). simplify_eq. apply reads_ret. by split.
Qed.

Lemma validate_listCursor n query encoded lv id :
  validName n -> validName (dq_index query) -> opValid (dq_op query) = true ->
  encodeIndexValue (dq_value query) = Ok encoded -> validID id -> lastValueFits (dq_op query) encoded lv = true ->
  validateQueryCursor (QueryCursor n (dq_index query) (dq_op query) encoded lv id) = Ok ().
Proof.
  intros Hn Hi Hop He Hid Hf. unfold validateQueryCursor. cbn [qc_database qc_index qc_op qc_value qc_lastValue qc_id].
  unfold validName in Hn, Hi. rewrite Hn, Hi, Hop, (encodeIndexValue_valid _ _ He), (validID_ok id Hid). cbn. by rewrite Hf.
Qed.

(** The stages of an index query: the position to start from, *)
Lemma observes_listStart n d query :
  validName n -> a !! n = Some d ->
  observes wk a (listStart wk n query) (fun r => match r with
    | Ok start => start.1 = cursorKeyOf d /\ queryStart (cursorKeyOf d) n query = Ok start.2
    | Err e => queryStart (cursorKeyOf d) n query = Err e
    | OutOfFuel => False end).
Proof.
  intros Hn Hd. eapply observes_reads; [intros c Hrep; by apply reads_listStart| | |].
  - intros start (d' & Hd' & ?). by simplify_eq.
  - intros e (? & [= <-] & [[? ?]|(d' & Hd' & ?)]); [congruence|by simplify_eq].
  - by intros (? & ? & _).
Qed.

Section Indexed.
Variables (n : bytes) (d : ldb) (query : docQuery) (encoded lastValue cursor : bytes).
Context (Hn : validName n) (Hd : a !! n = Some d) (Hlim : 1 <= dq_limit query) (Hop : opValid (dq_op query) = true).
Context (Hord : beqb (dq_op query) cmpEq = false -> isOrdered (dq_value query) = true).
Context (Hs : queryStart (cursorKeyOf d) n query = Ok (encoded, lastValue, cursor)).

(** the page, *)
Lemma observes_listIndexed :
  observes wk a (listIndexed wk n query encoded lastValue cursor) (fun r => match r with
    | Ok (ids, lastValue', more) => is_Some (findIndex (ldb_defs d) (dq_index query)) /\
       indexAnswer d (dq_index query) (dq_op query) (dq_limit query) encoded cursor lastValue
       = (ids, default [] (last ids), lastValue', more)
    | Err e => e = errIndexNotFound /\ findIndex (ldb_defs d) (dq_index query) = None
    | OutOfFuel => False end).
Proof.
  destruct (queryStart_ok _ _ _ _ _ _ Hs) as [He Hstart].
  eapply observes_reads; [intros c Hrep; by apply (reads_listIndexed c n d)| | |].
  - by intros [[ids lv] more].
  - by intros e [[= ->] ?].
  - by intros [? ?].
Qed.

(** and the cursor, from which the query goes on where the page ends. *)
Lemma observes_listCursor ids lv' :
  validName (dq_index query) ->
  indexAnswer d (dq_index query) (dq_op query) (dq_limit query) encoded cursor lastValue = (ids, default [] (last ids), lv', true) ->
  observes wk a (encodeQueryCursor (cursorKeyOf d)
      (QueryCursor n (dq_index query) (dq_op query) encoded lv' (default [] (last ids)))) (fun r => match r with
    | Ok token => queryStart (cursorKeyOf d) n (withToken query token) = Ok (encoded, lv', default [] (last ids))
    | _ => False end).
Proof.
  intros Hin Hans. destruct (queryStart_ok _ _ _ _ _ _ Hs) as [He Hstart].
  eapply observes_reads with (E := noExit) (P := fun token => decodeQueryCursor (cursorKeyOf d) token
      = Ok (QueryCursor n (dq_index query) (dq_op query) encoded lv' (default [] (last ids)))); [| |done|done].
  - intros c Hrep. apply reads_encodeQueryCursor; [apply len_hkdf|].
    assert (lastValue = [] \/ beqb (dq_op query) cmpEq = false) as Hlv.
    { destruct (beqb (dq_op query) cmpEq) eqn:Heq; [left|by right].
      destruct Hstart as [[-> _]|[Hf _]]; [done|]. unfold lastValueFits in Hf. rewrite Heq in Hf.
      destruct (Z.eqb_spec (len lastValue) 0) as [E|]; [by apply len_0_nil|done]. }
    destruct (index_position wk c a Hrep n d _ _ _ _ _ _ _ _ _ Hd Hlim Hop Hlv Hans) as [Hid Hf].
    by apply validate_listCursor.
  - intros token Htok. unfold queryStart, withToken. cbn [dq_value dq_cursor dq_index dq_op]. rewrite He. cbn [mbind res_bind].
    destruct token as [|b token]; [discriminate Htok|]. rewrite Htok. cbn [qc_database qc_index qc_op qc_value].
    by rewrite !bool_decide_eq_true_2, beqb_refl by done.
Qed.
End Indexed.

Lemma answers_listQuery n d query :
  validName n -> a !! n = Some d -> 1 <= dq_limit query -> opValid (dq_op query) = true ->
  validName (dq_index query) -> (beqb (dq_op query) cmpEq = false -> isOrdered (dq_value query) = true) ->
  answers wk a False (listQuery wk n query) (listQuerySpec a n d query) serverError.
Proof.
  intros Hn Hd Hlim Hop Hin Hord. unfold listQuery, listQuerySpec.
  eapply answers_observes; [by apply observes_listStart| | |by intros e Ho; eexists; split; [done|]; apply startError_outside|by intros []].
  2: { intros e ->. by apply answers_ret. }
  intros [box [[encoded lastValue] cursor]] [Hbox Hs]. cbn [fst snd] in Hbox, Hs. subst box. rewrite Hs.
  eapply answers_observes; [by apply observes_listIndexed| | |by intros e Ho; eexists; split; [done|]; apply listError_outside|by intros []].
  2: { intros e [-> ->]. by apply answers_ret. }
  intros [[ids lv'] more] [[def Hi] Hans]. rewrite Hi, Hans. destruct more; cbn [negb]; cycle 1.
  { apply answers_ret. by exists []. }
  eapply answers_observes; [by eapply observes_listCursor| |done| |by intros []].
  - intros token Htok. apply answers_ret. by exists token.
  - intros e Ho. eexists. split; [done|]. apply writeFailure_serverError.
Qed.

Lemma answers_listDocs n r : answers wk a False (apiListDocs wk n r) (listDocsSpec a n r) serverError.
Proof.
  apply answers_unlessRefused. intros query [Hn Hq]%requestDocs_ok.
  destruct (parseDocQuery_ok _ _ Hq) as (Hlim & Hop & Hix). destruct (a !! n) as [d|] eqn:Hd.
  - destruct (dq_indexed query); [|apply answers_listPlain; [done|done|lia]].
    destruct (Hix eq_refl) as (Hi & _ & Hord). apply answers_listQuery; try done; lia.
  - destruct (dq_indexed query).
    + eapply (answers_noDb n _ _ _ _ acceptQuery); [done|intros c Hrep; by apply reads_listStart|..].
      * intros start (d & ? & _). by exists d.
      * intros x (e & -> & [[_ ->]|(d & ? & _)]); [done|congruence].
      * intros e Ho. eexists. split; [done|]. by apply startError_outside.
      * done.
      * done.
    + eapply (answers_noDb n _ _ _ _ acceptQuery); [done|intros c Hrep; apply reads_listDocs; [done|done|lia]|..].
      * intros page (d & ? & _). by exists d.
      * by intros x [-> ?].
      * intros e Ho. eexists. split; [done|]. by apply listError_outside.
      * done.
      * done.
Qed.

(** ** Path queries *)

Lemma requestQuery_ok n r query :
  requestQuery ap n r = inr query -> validName n /\ exists body, decodePathQuery body = Ok query.
Proof.
  unfold requestQuery. destruct (is_ok (validateName n)) eqn:E; [|done]. cbn [negb].
  destruct (negb _); [done|]. destruct (negb _); [done|]. cbv zeta. destruct (failsWith _ _); [done|].
  destruct (readBody _ _) as [body| |]; [|done..]. destruct (decodePathQuery body) as [q| |] eqn:Hq; [|done..].
  intros [= <-]. split; [by apply validateName_valid|by exists body].
Qed.

Lemma planRefused_outside e : outside e -> serverError (planRefused e).
Proof. intros Ho. unfold planRefused. outside_is Ho. by apply queryError_outside. Qed.

Lemma answers_queryDocs n r : answers wk a False (apiQueryDocs wk ap n r) (queryDocsSpec ap a n r) serverError.
Proof.
  apply answers_unlessRefused. intros query [Hn [body Hq]]%requestQuery_ok.
  destruct (decodePathQuery_ok _ _ Hq) as (Hlim & Hop & _).
  eapply answers_observes.
  { eapply observes_reads with (post := fun r => match r with
      | Ok plan => exists d, a !! n = Some d /\ acceptedPath (pq_path query) (pp_path plan) /\
          pp_text plan = jpString (pp_path plan) /\ usesIndex d (pp_path plan) (pp_index plan)
      | Err e => planError a n (pq_path query) e
      | OutOfFuel => False end);
      [intros c Hrep; by apply (reads_planPathQuery wk a c)| | |by intros (? & ? & _)].
    - intros plan (d & ? & ? & ? & ?). by exists d.
    - by intros e (? & [= <-] & ?). }
  - intros plan (d & Hd & Hp & Ht & Hix). eapply answers_observes.
    + eapply observes_reads with (post := fun r => match r with
        | Ok p => answered a n plan query p | Err e => execFails a n plan query e | OutOfFuel => False end);
        [intros c Hrep; apply (reads_executePathQuery wk c a Hrep); [done|lia|done]|done| |by intros (? & ? & _)].
      by intros e (? & [= <-] & ?).
    + intros [ids cursor] Hans. apply answers_ret. right. exists d, plan. do 4 (split; [done|]). right.
      by exists ids, cursor.
    + intros e He. apply answers_ret. right. exists d, plan. do 4 (split; [done|]). left. by exists e.
    + intros e Ho. eexists. split; [done|]. by apply queryError_outside.
    + by intros [].
  - intros e He. apply answers_ret. left. by exists e.
  - intros e Ho. eexists. split; [done|]. by apply planRefused_outside.
  - by intros [].
Qed.
End Lists.
