(* ===== verification/BulkRuns.v ===== *)
(** * The bulk handlers

    What [exportBulk] and [importBulk] answer: the reading of the body against the
    whole-line reference, a body that breaks off, and the stream of an export. *)

From S2P Require Import Prelude GoErrors Codec Text Validation Keys Json Document IndexValue Mime Patch Url DbRequest.
From S2P Require Import Host Conn Crypto Wp Store StoreRep StoreReads StoreSpec StoreBulk StoreLists Range.
From S2P Require Import Cursor Query Bulk BulkFacts ExportFacts Config Api ApiFacts ApiSpec ApiRuns.

(** ** Reading *)

Section Reading.
Context {W : Type} `{HS : HostSpec W}.
Variables (maxLine maxBytes maxDocs : Z).

Lemma readBulkCtx_lines ctx data w :
  0 <= maxLine ->
  exists r, readBulkCtx ctx (Reader data None) maxLine maxBytes maxDocs w = (r, w) /\
    agrees (len data <= maxBytes) (checkLines maxLine maxDocs 1 [] (bulkLines [] data)) r.
Proof.
  intros Hl. unfold readBulkCtx. cbn [r_data].
  apply (readBulk_loop_spec maxLine maxBytes maxDocs (S (length data)) ctx data [] [] 0 1 w).
  split; [lia|]. split; [by constructor|]. split; [apply Z.divide_0_r|done].
Qed.

(** A reader that ends in an error the loop does not take for the end. *)
Definition breaksOff (e : error) : Prop := errorsIs ioEOF e = false /\ errorsIs bufioErrBufferFull e = false.

Lemma readSlice_broken data e :
  breaksOff e ->
  let '(fragment, err, r') := readSlice (Reader data (Some e)) in
  r_err r' = Some e /\ (length (r_data r') <= length data)%nat /\
  match err with
  | None => (length (r_data r') < length data)%nat
  | Some err => err = bufioErrBufferFull /\ (length (r_data r') < length data)%nat \/ err = e
  end.
Proof.
  intros He. unfold readSlice. cbn [r_data r_err].
  destruct (indexNewline _) as [i|] eqn:Hi.
  - apply indexNewline_Some in Hi as (t & rest & Ht & _ & Hlen). cbn [r_data r_err]. rewrite length_drop.
    apply (f_equal length) in Ht. rewrite length_take, length_app in Ht. cbn [length] in Ht. split; [done|]. split; lia.
  - destruct (Z.leb_spec bufioSize (len data)) as [Hl|Hl]; cbn [r_data r_err]; (split; [done|]).
    + rewrite length_drop. unfold len, bufioSize in *. split; [lia|]. left. split; [done|lia].
    + split; [simpl; lia|]. by right.
Qed.

Lemma reads_bulkReadError c ctx e (P : list bytes -> Prop) :
  reads c (bulkReadError ctx e) P (fun x => x <> None).
Proof.
  unfold bulkReadError. eapply reads_bind; [apply reads_ctxErr|]. intros _ _.
  apply (reads_ctxExpired c ctx _ _ _ ctxDeadlineExceeded); [by apply reads_throw|by apply outside_sentinel|done].
Qed.

(** Such a body is never accepted. *)
Lemma reads_readBulk_broken c ctx e fuel data documents line total k :
  breaksOff e -> (length data < fuel)%nat ->
  reads c (readBulk_loop fuel ctx (Reader data (Some e)) maxLine maxBytes maxDocs documents line total k)
    (fun _ => False) (fun x => x <> None).
Proof.
  intros He. revert data documents line total k.
  induction fuel as [|f IH]; intros data documents line total k Hf; [lia|]. cbn [readBulk_loop].
  pose proof (readSlice_broken data e He) as Hs.
  destruct (readSlice (Reader data (Some e))) as [[fragment err] [data' end_]]. cbn [r_data r_err] in Hs.
  destruct Hs as (-> & Hle & Hs). cbv zeta.
  destruct (maxBytes <? _); [by apply reads_throw|]. destruct (maxLine <? _); [by apply reads_throw|].
  destruct err as [err|].
  - destruct Hs as [[-> Hlt]| ->]; [apply IH; lia|]. destruct He as [He1 He2]. cbn [isErr]. rewrite He1, He2.
    apply reads_bulkReadError.
  - cbn [isErr negb andb]. destruct (_ =? 0); [by apply reads_throw|]. destruct (_ <=? _); [by apply reads_throw|].
    destruct (validateDoc _ _) eqn:Hv; [apply IH; lia|by apply reads_throw|by apply validateDoc_total in Hv].
Qed.

Lemma reads_readBulkCtx_broken c ctx e data :
  breaksOff e ->
  reads c (readBulkCtx ctx (Reader data (Some e)) maxLine maxBytes maxDocs) (fun _ => False) (fun x => x <> None).
Proof. intros He. apply reads_readBulk_broken; [done|]. simpl. lia. Qed.

(** The body as the loop sees it: all of it, or what came before the context ended. *)
Lemma contextReader_spec ctx chunks end_ w :
  let '(r, w') := contextReader ctx chunks end_ w in
  contents w' = contents w /\ (faulty w -> faulty w') /\
  exists body, r = Ok body /\
    (body = Reader (concat chunks) end_ \/
     faulty w' /\ exists e, r_err body = Some e /\ breaksOff e).
Proof.
  revert w. induction chunks as [|chunk chunks IH]; intros w; cbn [contextReader];
    unfold mbind, M_bind, catch;
    pose proof (reads_ctxErr (contents w) ctx noExit w eq_refl) as Hc.
  all: assert (forall e w1, ctxErr ctx w = (Err e, w1) -> breaksOff e) as Hend.
  1, 3: intros e w1; destruct ctx; [done|]; cbn [ctxErr]; unfold ofOpt;
        pose proof (requestErr_spec w) as Hr; destruct (requestErr w) as [[e'|] w2]; [|done];
        intros [= <- <-]; by destruct Hr as (_ & _ & [-> | ->] & _).
  all: destruct (ctxErr ctx w) as [[[]|e|] w1] eqn:Hctx; destruct Hc as [[Hc1 Hf1] Hr].
  all: try by destruct Hr.
  all: try (split; [done|]; split; [done|]; eexists; split; [reflexivity|]; right; destruct Hr as [[Hfa _]|[]];
            split; [done|]; exists e; split; [done|]; by eapply Hend).
  - split; [done|]. split; [done|]. eexists. split; [reflexivity|]. by left.
  - specialize (IH w1). destruct (contextReader ctx chunks end_ w1) as [r w2].
    destruct IH as (Hc2 & Hf2 & body & -> & Hb). cbn. split; [congruence|]. split; [auto|].
    eexists. split; [reflexivity|]. cbn [r_err].
    destruct Hb as [->|(Hfa & e & He & Hbr)]; [by left|right]. split; [done|]. by exists e.
Qed.
End Reading.

(** ** The handlers *)

Section Handlers.
Context {W : Type} `{CN : ConnSpec W} `{CS : CryptoSpec}.
Variables (wk : storeKey) (fuel : nat) (ap : api) (a : astate).

Lemma bulkRefused_ok n r : bulkRefused ap n r = None -> validName n.
Proof.
  unfold bulkRefused. destruct (is_ok (validateName n)) eqn:E; [|done]. intros _. by apply validateName_valid.
Qed.

Lemma setDeadline_frame w :
  let '(r, w') := setDeadline w in
  contents w' = contents w /\ (faulty w -> faulty w') /\
  exists o, r = Ok o /\
    forall e, o = Some e -> foreign e /\ (errorsIs httpErrNotSupported e = false -> ~ reliable W).
Proof.
  unfold setDeadline. pose proof (connDeadline_spec w) as Hs. destruct (connDeadline w) as [o w'] eqn:Hd.
  destruct Hs as (Hc & Hf & He). split; [done|]. split; [done|]. exists o. split; [done|].
  intros e ->. split; [by apply He|]. intros Hne (_ & _ & Hr). specialize (Hr w e). rewrite Hd in Hr.
  rewrite Hr in Hne; done.
Qed.

Lemma liftDeadline_frame r w :
  let '(x, w') := liftDeadline r w in contents w' = contents w /\ (faulty w -> faulty w') /\ x = Ok ().
Proof.
  assert (forall w0, let '(x, w') := (_ ← setDeadline; mret ()) w0 in
    contents w' = contents w0 /\ (faulty w0 -> faulty w') /\ x = Ok ()) as Hset.
  { intros w0. unfold mbind, M_bind. pose proof (setDeadline_frame w0) as Hs.
    destruct (setDeadline w0) as [x w1]. by destruct Hs as (? & ? & o & -> & _). }
  unfold liftDeadline. destruct (bool_decide _); [|apply Hset].
  unfold mbind at 1, M_bind at 1, catch. pose proof (reads_ctxErr (contents w) RequestCtx noExit w eq_refl) as Hc.
  destruct (ctxErr RequestCtx w) as [[[]|e|] w1]; destruct Hc as [[Hc Hf] Hr]; [|done|done].
  specialize (Hset w1). destruct ((_ ← setDeadline; mret ()) w1) as [x w2]. destruct Hset as (? & ? & ->).
  split; [congruence|]. split; [auto|done].
Qed.

Lemma answers_startBulk n r retry m (spec : answer) (bad : response -> Prop) :
  (validName n -> answers wk a retry m spec bad) -> (forall e, outside e -> bad (failBulk [] e)) ->
  answers wk a retry (startBulk ap n r m) (bulkSpec ap a n r spec) bad.
Proof.
  intros Hm Hb. unfold startBulk, bulkSpec. destruct (bulkRefused ap n r) as [refused|] eqn:Hr; [by apply answers_ret|].
  specialize (Hm (bulkRefused_ok _ _ Hr)). intros w Hrep. unfold mbind at 1, M_bind at 1.
  pose proof (setDeadline_frame w) as Hs. destruct (setDeadline w) as [? w1].
  destruct Hs as (Hc1 & Hf1 & o & -> & Ho). rewrite <- Hc1 in Hrep.
  destruct (match o with Some e => negb (errorsIs httpErrNotSupported e) | None => false end) eqn:Hfail.
  - destruct o as [e|]; [|done]. destruct (Ho e eq_refl) as [Hfe Hrel]. cbn. split; [done|]. exists a. split; [done|].
    right. split; [right; apply Hrel; by destruct (errorsIs _ e)|]. split; [by apply Hb, foreign_outside|by left].
  - specialize (Hm w1 Hrep). unfold mbind at 1, M_bind at 1. destruct (m w1) as [[resp|e|] w2]; destruct Hm as (Hf2 & a' & Hrep' & Hr');
      [|done|by split; [auto|exists a']].
    unfold mbind at 1, M_bind at 1. pose proof (liftDeadline_frame r w2) as Hl.
    destruct (liftDeadline r w2) as [? w3]. destruct Hl as (Hc3 & Hf3 & ->). cbn. split; [auto|].
    exists a'. rewrite Hc3. split; [done|]. destruct Hr' as [?|([?|?] & ?)]; [by left|right..]; (split; [|done]);
      [left; auto|by right].
Qed.

(** *** Export *)

Lemma answers_exportBulk n r : answers wk a False (apiExportBulk wk ap n r) (exportSpec ap a n r) (exportCut a n).
Proof.
  apply answers_startBulk; [|intros e Ho; left; by apply failBulk_outside].
  intros Hn w Hrep. pose proof (exports_exportDocs wk (contents w) a Hrep RequestCtx n Hn w eq_refl) as He.
  destruct (exportDocs wk RequestCtx n streamWrite (w, newBulkStream)) as [[[]|e|] [w1 s]];
    cbn [fst snd] in He; destruct He as (Hc & Hf & He); rewrite <- Hc in Hrep; [| |done].
  - destruct He as (d & Hd & Hs & Hfit & Hst). rewrite Hd.
    destruct (bs_started s) eqn:Hstart; cbn [negb].
    + pose proof (streams_flushAll s [] Hstart Hfit w1) as Hfl.
      destruct (flush (w1, s)) as [[[]|e|] [w2 s2]]; cbn [fst snd] in Hfl; destruct Hfl as (Hc2 & Hf2 & Hr); [| |done];
        (split; [auto|]); exists a; rewrite Hc2; (split; [done|]).
      * left. destruct Hr as (Hsent & Hbuf & _). split; [|done].
        unfold sent in Hsent at 1. rewrite Hbuf, app_nil_r in Hsent. by rewrite Hsent, Hs.
      * right. destruct Hr as (Hnr & _ & rest & Hrest). split; [by right|]. split; [|by left]. right.
        exists d, (bs_written s2), rest. split; [done|]. split; [by rewrite <- Hs, <- Hrest, app_nil_r|done].
    + split; [done|]. exists a. split; [done|]. left. split; [|done]. f_equal.
      symmetry in Hst. apply negb_false_iff, bool_decide_eq_true in Hst. by rewrite Hst.
  - assert (forall out rest, out = bs_written s ++ rest -> bs_started s = true ->
      (exists d, a !! n = Some d /\ exportBytes (exportedDocs d) = out) ->
      exportCut a n (Response StatusOK exportHeader (bs_written s))) as Hpart.
    { intros out rest Hout Hst (d & Hd & E). right. exists d, (bs_written s), rest. split; [done|]. split; [|done]. congruence. }
    destruct He as [(Hfa & Ho & Hs)|[(-> & Hd & ->)|(d & Hd & Hnr & Hst & rest & Hrest)]].
    + destruct (bs_started s) eqn:Hstart; (split; [done|]); exists a; (split; [done|]); right; (split; [by left|]);
        (split; [|by left]).
      * destruct Hs as [->|(d & Hd & [[rest Hrest] _])]; [done|]. eapply Hpart; [exact Hrest|done|by exists d].
      * left. by apply failBulk_outside.
    + cbn [bs_started newBulkStream]. split; [done|]. exists a. split; [done|]. left. by rewrite Hd.
    + rewrite Hst. split; [done|]. exists a. split; [done|]. right. split; [by right|]. split; [|by left].
      eapply Hpart; [exact Hrest|done|by exists d].
Qed.

(** *** Import *)

Definition wfEnd (r : request) : Prop := forall e, rq_end r = Some e -> breaksOff e.

(** A body that ends in an error is refused. *)
Lemma answers_brokenBody n maxLine maxBytes maxDocs maxBatch data e :
  breaksOff e ->
  answers wk a True
    (documents ← catch (readBulkCtx RequestCtx (Reader data (Some e)) maxLine maxBytes maxDocs);
     match documents with
     | inl err => mret (failBulk [] err)
     | inr documents =>
         ids ← catch (importDocs wk fuel RequestCtx n documents maxBatch);
         match ids with inl err => mret (failBulk [] err) | inr _ => mret writeBulkSuccess end
     end)
    (fun resp a' => exists e, says a (failBulk [] e) resp a') (fun resp => 400 <= rs_status resp).
Proof.
  intros He. eapply answers_observes with (post := fun r => match r with Err _ => True | _ => False end).
  - eapply observes_reads; [intros c Hrep; by apply reads_readBulkCtx_broken|done|done|done].
  - done.
  - intros err _. apply answers_ret. by exists err.
  - intros err _. eexists. split; [done|apply failBulk_status].
  - by intros [].
Qed.

Lemma answers_importLines n maxBatch documents :
  validName n ->
  answers wk a True
    (ids ← catch (importDocs wk fuel RequestCtx n documents maxBatch);
     match ids with inl err => mret (failBulk [] err) | inr _ => mret writeBulkSuccess end)
    (fun resp a' => (exists ids, imported a n documents ids a' /\ resp = writeBulkSuccess) \/
                    exists e, importFails anyBatch a n documents e /\ says a (failBulk [] e) resp a')
    (fun resp => 400 <= rs_status resp).
Proof.
  intros Hn. eapply answers_runs with (g := fun _ => writeBulkSuccess).
  - apply runs_triple. intros c Hrep. by apply triple_importDocs.
  - intros ids a' Hi. left. by exists ids.
  - intros e a' [-> He]. right. exists e. split; [by eapply importFails_any|done].
  - done.
  - intros e _. apply failBulk_status.
  - intros a' [->|[ids Hi]]; [by left|right]. eexists. left. by exists ids.
Qed.

Lemma answers_importBulk n r :
  0 <= ap_maxBodyBytes ap -> wfEnd r ->
  answers wk a True (apiImportBulk wk fuel ap n r) (importSpec ap a n r) (fun resp => 400 <= rs_status resp).
Proof.
  intros Hmax Hend. unfold apiImportBulk, importSpec. destruct (negb (isNDJSON _)); [by apply answers_ret|].
  apply answers_startBulk; [|intros e _; apply failBulk_status].
  intros Hn w Hrep. unfold mbind at 1, M_bind at 1.
  pose proof (contextReader_spec RequestCtx (rq_chunks r) (rq_end r) w) as Hr.
  destruct (contextReader RequestCtx (rq_chunks r) (rq_end r) w) as [? w1].
  destruct Hr as (Hc & Hf & body & -> & Hb). rewrite <- Hc in Hrep.
  assert (forall m spec, answers wk a True m spec (fun resp => 400 <= rs_status resp) ->
    let '(x, w') := m w1 in (faulty w -> faulty w') /\ exists a', store_rep wk (contents w') a' /\
      match x with
      | Ok resp => spec resp a' \/ trouble w' /\ 400 <= rs_status resp /\ (a' = a \/ exists resp', spec resp' a')
      | Err _ => False | OutOfFuel => True /\ a' = a end) as Hgo.
  { intros m spec Hm. specialize (Hm w1 Hrep). destruct (m w1) as [x w2]. destruct Hm as [Hf2 Hm]. split; [auto|done]. }
  assert (forall m (spec : answer),
    answers wk a True m (fun resp a' => exists e, says a (failBulk [] e) resp a') (fun resp => 400 <= rs_status resp) ->
    faulty w1 ->
    let '(x, w') := m w1 in (faulty w -> faulty w') /\ exists a', store_rep wk (contents w') a' /\
      match x with
      | Ok resp => spec resp a' \/ trouble w' /\ 400 <= rs_status resp /\ (a' = a \/ exists resp', spec resp' a')
      | Err _ => False | OutOfFuel => True /\ a' = a end) as Hbad.
  { intros m spec Hm Hfa. specialize (Hm w1 Hrep). destruct (m w1) as [x w2]. destruct Hm as (Hf2 & a' & Hrep' & Hm).
    split; [auto|]. exists a'. split; [done|]. destruct x as [resp|e|]; [|done|done]. right.
    split; [left; auto|]. destruct Hm as [(e & -> & ->)|(_ & Hb' & [->|(? & e & _ & ->)])];
      (split; [try done; apply failBulk_status|by left]). }
  destruct Hb as [->|(Hfa & e & He & Hbr)].
  - clear Hbad. destruct (rq_end r) as [e|] eqn:Hre; [apply Hgo, answers_brokenBody, Hend, Hre|].
    apply Hgo. clear Hgo w Hc Hf w1 Hrep. intros w Hrep. unfold mbind at 1, M_bind at 1, catch at 1.
    destruct (readBulkCtx_lines (ap_maxBodyBytes ap) (bc_maxBytes (ap_bulk ap)) (bc_maxDocuments (ap_bulk ap))
      RequestCtx (concat (rq_chunks r)) w Hmax) as (res & -> & Hfits & Hover).
    destruct (Z.ltb_spec (bc_maxBytes (ap_bulk ap)) (len (concat (rq_chunks r)))) as [Hlt|Hle].
    + destruct Hover as [->|(e & Hspec & ->)]; [lia|..]; cbn; (split; [done|]); exists a; (split; [done|]); left;
        eexists; (split; [|done]); [by left|by right].
    + rewrite Hfits by done. destruct (bulkOutcome _) as [documents|e|] eqn:Hout.
      * by apply (answers_importLines n (bc_maxBatchBytes (ap_bulk ap)) documents Hn w).
      * cbn. split; [done|]. exists a. split; [done|]. by left.
      * by destruct (checkLines _ _ _ _ _) as [|[|]].
  - destruct body as [data end_]. cbn [r_err] in He. subst end_.
    apply Hbad; [by apply answers_brokenBody|done].
Qed.
End Handlers.
