(* ===== verification/Serving.v ===== *)
(** * Serving a request

    The specification of the whole server: what is around the routes, the routes,
    and the handlers' specifications behind them; the server meets it.  Then what
    the specification says of any request: which ones leave the store alone, and
    that every document a request stores is canonical. *)

From S2P Require Import Prelude GoErrors Codec Text Validation Keys Json Document IndexValue Mime Patch Url DbRequest.
From S2P Require Import Host Conn Crypto Wp Store StoreRep StoreReads StoreSpec StoreBulk StoreLists Range StoreRange.
From S2P Require Import Cursor Query QueryFacts QueryRuns Bulk BulkFacts ExportFacts Config Api Routes RouteFacts.
From S2P Require Import ApiFacts ApiSpec ApiRuns BulkRuns.

Definition stopped : response :=
  writeError [] StatusServiceUnavailable (str "service_unavailable") (str "Service is unavailable").

Section Spec.
Context `{CryptoSpec} `{JS : JSONPathSpec} `{JSONPatch}.
Variables (ap : api) (a : astate).

Definition handlerSpec (t : target) (vars : list bytes) (r : request) : answer :=
  let database := default [] (vars !! 0%nat) in
  let id := default [] (vars !! 1%nat) in
  match t with
  | TWelcome =>
      says a (writeJSON [] StatusOK (JObj [(str "name", JStr (str "KantanDB")); (str "version", JStr (ap_version ap))]))
  | THealth => says a (writeJSON [] StatusOK (JObj [(str "status", JStr (str "ok"))]))
  | TCreateDB => createDBSpec ap a r
  | TListDBs => listDBsSpec a r
  | TListDocs => listDocsSpec a database r
  | TQueryDocs => queryDocsSpec ap a database r
  | TQueryOptions =>
      says a (Response StatusNoContent (setHeader "Allow" (str "GET, POST, QUERY, DELETE, OPTIONS") acceptQuery) [])
  | TDeleteDB => deleteDBSpec a database
  | TCreateDoc => createDocSpec ap a database r
  | TGetDoc => getDocSpec a database id
  | TReplaceDoc => replaceDocSpec ap a database id r
  | TPatchDoc => patchDocSpec ap a database id r
  | TDeleteDoc => deleteDocSpec a database id r
  | TExportBulk => exportSpec ap a database r
  | TImportBulk => importSpec ap a database r
  | TRedirect => says a (redirectNoSlash r)
  | TMethodNotAllowed => says a methodNotAllowed
  | TNotFound => says a notFound
  end.

(** What a failure outside makes of an answer. *)
Definition handlerBad (t : target) (vars : list bytes) (resp : response) : Prop :=
  match t with
  | TExportBulk => exportCut a (default [] (vars !! 0%nat)) resp
  | TImportBulk => 400 <= rs_status resp
  | _ => serverError resp
  end.

Definition serveSpec (r : request) : answer :=
  if ap_stopping ap then says a stopped
  else if uncleanPath (rq_path r) then says a notFound
  else
    let path := cleanPath (rq_escaped r) in
    if bool_decide (path = rq_escaped r) then
      let '(t, vars) := findRoute (rq_method r) path in handlerSpec t vars r
    else says a (redirect r (withQuery path (rq_rawQuery r)) StatusMovedPermanently).

Definition serveBad (r : request) : response -> Prop :=
  let '(t, vars) := findRoute (rq_method r) (cleanPath (rq_escaped r)) in handlerBad t vars.
End Spec.

(** The handlers that draw random bytes until they are new. *)
Definition retries (t : target) : Prop :=
  match t with TCreateDoc | TReplaceDoc | TPatchDoc | TImportBulk => True | _ => False end.

Definition serveRetries (r : request) : Prop := retries (findRoute (rq_method r) (cleanPath (rq_escaped r))).1.

(** ** The server meets the specification *)

Section Serve.
Context {W : Type} `{CN : ConnSpec W} `{CS : CryptoSpec} `{JS : JSONPathSpec} `{JP : JSONPatch}.
Variables (wk : storeKey) (fuel : nat) (ap : api) (a : astate).
Context (Hwk : len wk = keySize) (Hfuel : (0 < fuel)%nat) (Hmax : 0 <= ap_maxBodyBytes ap).

Lemma answers_handle t vars r :
  wfEnd r -> answers wk a (retries t) (handle wk fuel ap t vars r) (handlerSpec ap a t vars r) (handlerBad a t vars).
Proof.
  intros Hend. destruct t; cbn [handle handlerSpec handlerBad]; cbv zeta; try by apply answers_ret.
  - by apply answers_createDB.
  - by apply answers_listDBs.
  - by apply answers_listDocs.
  - by apply answers_queryDocs.
  - by apply answers_deleteDB.
  - by apply answers_createDoc.
  - by apply answers_getDoc.
  - by apply answers_replaceDoc.
  - by apply answers_patchDoc.
  - by apply answers_deleteDoc.
  - by apply answers_exportBulk.
  - by apply answers_importBulk.
Qed.

(** [recover] has nothing to do. *)
Lemma answers_recover retry m (spec : answer) (bad : response -> Prop) :
  answers wk a retry m spec bad ->
  answers wk a retry (result ← catch m;
                match result with inl err => mret (writeFailure [] err) | inr response => mret response end) spec bad.
Proof.
  intros Hm w Hrep. specialize (Hm w Hrep). unfold mbind, M_bind, catch.
  destruct (m w) as [[resp|e|] w1]; cbn; [done| |done]. by destruct Hm as (_ & ? & _ & []).
Qed.

Lemma answers_serve r :
  wfEnd r -> answers wk a (serveRetries r) (serve wk fuel ap r) (serveSpec ap a r) (serveBad a r).
Proof.
  intros Hend. apply answers_recover. unfold rejectStopping, rejectUncleanPath, mux, serveSpec, serveBad, serveRetries.
  destruct (ap_stopping ap); [by apply answers_ret|]. destruct (uncleanPath _); [by apply answers_ret|]. cbv zeta.
  destruct (bool_decide _); [|by apply answers_ret]. destruct (findRoute _ _) as [t vars]. by apply answers_handle.
Qed.
End Serve.

(** ** What the specification says of every request *)

(** A document that is stored has passed [validateDoc], and would again. *)
Definition storesCanonical (maxBytes : Z) (a : astate) : Prop :=
  forall n d id doc, a !! n = Some d -> ldb_docs d !! id = Some doc -> canonical maxBytes (sd_json doc).

Lemma storesCanonical_empty maxBytes : storesCanonical maxBytes ∅.
Proof. intros n d id doc Hd. by rewrite lookup_empty in Hd. Qed.

Lemma storesCanonical_setDoc maxBytes a n id o :
  storesCanonical maxBytes a -> (forall doc, o = Some doc -> canonical maxBytes (sd_json doc)) ->
  storesCanonical maxBytes (setDoc a n id o).
Proof.
  intros Ha Ho n' d' id' doc'. unfold setDoc. destruct (decide (n' = n)) as [->|Hne].
  - rewrite lookup_alter_eq. destruct (a !! n) as [d|] eqn:Hd; [|done]. intros [= <-]. cbn [ldb_docs].
    destruct (decide (id' = id)) as [->|Hid].
    + rewrite lookup_partial_alter_eq. apply Ho.
    + rewrite lookup_partial_alter_ne by done. by apply (Ha n d).
  - rewrite lookup_alter_ne by done. apply Ha.
Qed.

Lemma storesCanonical_delete maxBytes a n : storesCanonical maxBytes a -> storesCanonical maxBytes (delete n a).
Proof. intros Ha n' d id doc [_ Hd]%lookup_delete_Some. by apply (Ha n' d id doc). Qed.

Lemma storesCanonical_new maxBytes a n key defs :
  storesCanonical maxBytes a -> storesCanonical maxBytes (<[n := newDb key defs]> a).
Proof.
  intros Ha n' d id doc. destruct (decide (n' = n)) as [->|Hne].
  - rewrite lookup_insert_eq. intros [= <-]. cbn [ldb_docs newDb]. by rewrite lookup_empty.
  - rewrite lookup_insert_ne by done. apply Ha.
Qed.

Lemma storesCanonical_importAll maxBytes n documents l a :
  storesCanonical maxBytes a -> Forall (canonical maxBytes) documents ->
  storesCanonical maxBytes (importAll a n (zip documents l)).
Proof.
  intros Ha HF. revert l a Ha. induction HF as [|doc documents Hdoc HF IH]; intros l a Ha; [done|].
  destruct l as [|x l]; [done|]. cbn [zip zip_with]. unfold importAll. cbn [fold_left]. apply IH.
  apply storesCanonical_setDoc; [done|]. by intros ? [= <-].
Qed.

Lemma validateDoc_idem body maxBytes out : validateDoc body maxBytes = Ok out -> canonical maxBytes out.
Proof. intros Hv. pose proof (validateDoc_cases body maxBytes) as Hc. rewrite Hv in Hc. unfold canonical. tauto. Qed.

Lemma checkLines_canonical_all maxLine maxDocs k documents lines documents' :
  checkLines maxLine maxDocs k documents lines = inr documents' -> Forall (canonical maxLine) documents ->
  Forall (canonical maxLine) documents'.
Proof.
  revert k documents. induction lines as [|line lines IH]; intros k documents; cbn [checkLines]; [by intros [= <-]|].
  destruct (negb _); [done|]. destruct (_ =? 0); [done|]. destruct (_ <=? _); [done|].
  destruct (validateDoc _ _) as [d|e|] eqn:Hv; [|done..]. intros Hc HF. eapply IH; [exact Hc|].
  apply Forall_app. split; [done|]. constructor; [by eapply validateDoc_idem|constructor].
Qed.

Section Facts.
Context `{CryptoSpec} `{JS : JSONPathSpec} `{JSONPatch}.
Variables (ap : api) (a : astate).

Lemma unlessRefused_cases {A : Type} (front : response + A) spec resp a' :
  unlessRefused a front spec resp a' -> a' = a \/ exists x, front = inr x /\ spec x resp a'.
Proof. destruct front as [refused|x]; [intros [_ ->]; by left|right; by exists x]. Qed.

Ltac front_cases H := apply unlessRefused_cases in H as [->|(?x & ?Hx & H)]; [done|].

Lemma listQuerySpec_same n d query resp a' : listQuerySpec a n d query resp a' -> a' = a.
Proof.
  unfold listQuerySpec. destruct (queryStart _ _ _) as [[[encoded lastValue] cursor]|e|]; [|by intros [_ ->]|done].
  destruct (findIndex _ _); [|by intros [_ ->]]. destruct (indexAnswer _ _ _ _ _ _ _) as [[[ids id'] lv'] more].
  by intros (token & [_ ->] & _).
Qed.

(** A handler that is not one of the writing methods leaves the store alone. *)
Lemma handlerSpec_reads t vars r resp a' :
  targetMethod t = None -> handlerSpec ap a t vars r resp a' -> a' = a.
Proof.
  destruct t; intros Ht; try discriminate Ht; clear Ht; cbn [handlerSpec]; cbv zeta; try by intros [_ ->].
  - intros Hs. front_cases Hs. destruct x. by destruct Hs as [_ ->].
  - intros Hs. front_cases Hs. destruct (a !! _); [|by destruct Hs as [_ ->]].
    destruct (dq_indexed x); [by eapply listQuerySpec_same|]. unfold listPlainSpec in Hs.
    destruct (page _ _ _). by destruct Hs as [_ ->].
  - intros Hs. front_cases Hs. destruct Hs as [(e & _ & [_ ->])|(d & plan & _ & _ & _ & _ & Hs)]; [done|].
    destruct Hs as [(e & _ & [_ ->])|(ids & cursor & _ & [_ ->])]; done.
  - unfold getDocSpec. destruct (validDocPath _ _); [by intros [_ ->]|]. destruct (_ ≫= _); by intros [_ ->].
  - unfold exportSpec, bulkSpec. destruct (bulkRefused _ _ _); [by intros [_ ->]|]. destruct (a !! _); by intros [_ ->].
Qed.

(** What a writing handler does when it does anything. *)
Definition writes (a' : astate) : Prop :=
  a' = a \/
  (exists n key defs, a' = <[n := newDb key defs]> a) \/
  (exists n, a' = delete n a) \/
  (exists n id o, a' = setDoc a n id o /\ forall doc, o = Some doc -> canonical (ap_maxBodyBytes ap) (sd_json doc)) \/
  exists n documents l, a' = importAll a n (zip documents l) /\ Forall (canonical (ap_maxBodyBytes ap)) documents.

Lemma readDocument_canonical r document :
  readDocument ap r = inr document -> canonical (ap_maxBodyBytes ap) document.
Proof.
  unfold readDocument. cbv zeta. destruct (failsWith _ (readBody _ _)); [done|]. destruct (readBody _ _) as [body| |]; [|done..].
  destruct (failsWith _ _); [done|]. destruct (validateDoc _ _) as [d| |] eqn:Hv; [|done..]. intros [= <-].
  by eapply validateDoc_idem.
Qed.

Lemma requestReplace_canonical n id r match_ document :
  requestReplace ap n id r = inr (match_, document) -> canonical (ap_maxBodyBytes ap) document.
Proof.
  unfold requestReplace. destruct (negb _); [done|]. destruct (validDocPath _ _); [done|].
  destruct (parseIfMatch _); [|done..]. destruct (readDocument ap r) as [|document'] eqn:Hr; [done|].
  intros [= _ <-]. by eapply readDocument_canonical.
Qed.

(** A handler that changes the store answers with a success, and what it stores
    is canonical. *)
Lemma handlerSpec_writes t vars r resp a' :
  handlerSpec ap a t vars r resp a' -> a' = a \/ rs_status resp < 400 /\ writes a'.
Proof.
  destruct (targetMethod t) as [m|] eqn:Ht; [|intros Hs; left; by eapply handlerSpec_reads].
  destruct t; try discriminate Ht; clear Ht; cbn [handlerSpec]; cbv zeta; intros Hs.
  - apply unlessRefused_cases in Hs as [->|(q & Hq & Hs)]; [by left|].
    destruct Hs as [[-> Hc]|(e & _ & [_ ->])]; [right|by left]. split; [done|]. destruct Hc as [key _ _ _ ->].
    right. left. by exists (dr_name q), key, (indexDefs q).
  - unfold deleteDBSpec in Hs. destruct (negb _); [destruct Hs as [_ ->]; by left|].
    destruct (a !! _); [|destruct Hs as [_ ->]; by left]. destruct Hs as [-> ->]. right. split; [done|].
    right. right. left. by eexists.
  - apply unlessRefused_cases in Hs as [->|(document & Hq & Hs)]; [by left|].
    destruct Hs as [(id & rev & _ & Hc & ->)|(id & e & _ & _ & [_ ->])]; [right|by left]. split; [done|].
    destruct Hc as [d _ _ _ ->]. do 3 right. left. eexists _, _, _. split; [done|]. intros doc [= <-].
    unfold requestCreate in Hq. destruct (negb _); [done|]. destruct (negb _); [done|]. by eapply readDocument_canonical.
  - apply unlessRefused_cases in Hs as [->|([m' document] & Hq & Hs)]; [by left|].
    destruct Hs as [(d & current & rev & _ & Hu & ->)|(e & _ & [_ ->])]; [right|by left]. split; [done|].
    destruct Hu as [d' _ _ _ _ ->]. do 3 right. left. eexists _, _, _. split; [done|]. intros doc [= <-].
    by eapply requestReplace_canonical.
  - apply unlessRefused_cases in Hs as [->|([[m' body] mediaType] & Hq & Hs)]; [by left|].
    destruct Hs as [(d & current & document & rev & _ & Ha & Hu & ->)|(e & _ & [_ ->])]; [right|by left]. split; [done|].
    destruct Hu as [d' _ _ _ _ ->]. do 3 right. left. eexists _, _, _. split; [done|]. intros doc [= <-].
    apply applyPatch_ok in Ha as (result & _ & Hv). by eapply validateDoc_idem.
  - apply unlessRefused_cases in Hs as [->|(m' & Hq & Hs)]; [by left|].
    destruct Hs as [(_ & -> & ->)|(e & _ & [_ ->])]; [right|by left]. split; [done|].
    do 3 right. left. by eexists _, _, None.
  - unfold importSpec, bulkSpec in Hs. destruct (negb _); [destruct Hs as [_ ->]; by left|].
    destruct (bulkRefused _ _ _); [destruct Hs as [_ ->]; by left|].
    destruct (rq_end r); [destruct Hs as (e' & [_ ->]); by left|].
    destruct (_ <? _); [destruct Hs as (e' & _ & [_ ->]); by left|].
    destruct (bulkOutcome _) as [documents|e|] eqn:Hout; [|destruct Hs as [_ ->]; by left|done].
    destruct Hs as [(ids & Hi & ->)|(e & _ & [_ ->])]; [right|by left]. split; [done|].
    destruct Hi as [d l _ _ _ _ _ ->]. do 4 right. eexists _, documents, l. split; [done|].
    destruct (checkLines _ _ _ _ _) as [|[|d0 ds]] eqn:Hc; [done|done|]. injection Hout as <-.
    by eapply checkLines_canonical_all.
Qed.

Lemma serveSpec_handler r resp a' :
  serveSpec ap a r resp a' ->
  a' = a \/ exists t vars, findRoute (rq_method r) (cleanPath (rq_escaped r)) = (t, vars) /\
                          handlerSpec ap a t vars r resp a'.
Proof.
  unfold serveSpec. destruct (ap_stopping ap); [intros [_ ->]; by left|]. destruct (uncleanPath _); [intros [_ ->]; by left|].
  cbv zeta. destruct (bool_decide _); [|intros [_ ->]; by left]. destruct (findRoute _ _) as [t vars]. intros Hs. right.
  by exists t, vars.
Qed.

Definition writingMethods : list bytes := [str "POST"; str "PUT"; str "PATCH"; str "DELETE"].

Lemma serveSpec_reads r resp a' :
  rq_method r ∉ writingMethods -> serveSpec ap a r resp a' -> a' = a.
Proof.
  intros Hm [->|(t & vars & Hf & Hs)]%serveSpec_handler; [done|]. destruct (targetMethod t) as [m|] eqn:Ht.
  - exfalso. apply Hm. pose proof (findRoute_method _ _ _ _ _ Hf Ht) as ->. unfold writingMethods.
    rewrite !elem_of_cons. destruct t; simplify_eq/=; tauto.
  - by eapply handlerSpec_reads.
Qed.

Lemma serveSpec_errors r resp a' : 400 <= rs_status resp -> serveSpec ap a r resp a' -> a' = a.
Proof.
  intros He [->|(t & vars & Hf & Hs)]%serveSpec_handler; [done|]. apply handlerSpec_writes in Hs as [->|[? _]]; [done|lia].
Qed.

Lemma serveSpec_canonical r resp a' :
  storesCanonical (ap_maxBodyBytes ap) a -> serveSpec ap a r resp a' -> storesCanonical (ap_maxBodyBytes ap) a'.
Proof.
  intros Ha [->|(t & vars & Hf & Hs)]%serveSpec_handler; [done|]. apply handlerSpec_writes in Hs as [->|[_ Hw]]; [done|].
  destruct Hw as [->|[(n & key & defs & ->)|[(n & ->)|[(n & id & o & -> & Ho)|(n & docs & l & -> & HF)]]]].
  - done.
  - by apply storesCanonical_new.
  - by apply storesCanonical_delete.
  - by apply storesCanonical_setDoc.
  - by apply storesCanonical_importAll.
Qed.
End Facts.

(** ** Requests for plain paths *)

Definition plainRequest (method : string) (parts : list bytes) (r : request) : Prop :=
  rq_method r = str method /\ rq_path r = joinParts parts /\ rq_escaped r = joinParts parts.

Section Plain.
Context `{CryptoSpec} `{JS : JSONPathSpec} `{JSONPatch}.
Variables (ap : api).

(** A request for a plain path is answered by the handler of its route. *)
Lemma serveSpec_plain a r method parts t vars :
  plainRequest method parts r -> Forall plainSegment parts -> parts <> [] ->
  findRoute (str method) (joinParts parts) = (t, vars) -> ap_stopping ap = false ->
  serveSpec ap a r = handlerSpec ap a t vars r /\ serveBad a r = handlerBad a t vars /\ serveRetries r = retries t.
Proof.
  intros (Hm & Hp & He) HF Hne Hr Hstop. destruct (plain_request parts HF Hne) as [Hu Hc].
  unfold serveSpec, serveBad, serveRetries. rewrite Hstop, Hp, He, Hu, Hc, Hm, Hr. cbv zeta.
  by rewrite bool_decide_eq_true_2.
Qed.

Lemma plainDocument n id : validName n -> validID id -> Forall plainSegment [str "db"; n; id].
Proof.
  intros Hn Hid. repeat (apply Forall_cons; split); [by apply validName_plain| |by apply validID_plain|constructor].
  by apply validName_plain.
Qed.

Lemma plainDatabase n : validName n -> Forall plainSegment [str "db"; n].
Proof. intros Hn. repeat (apply Forall_cons; split); [by apply validName_plain..|constructor]. Qed.

Lemma plainBulk n : validName n -> Forall plainSegment [str "bulk"; n].
Proof. intros Hn. repeat (apply Forall_cons; split); [by apply validName_plain..|constructor]. Qed.

(** *** Refusals are errors *)

Lemma readDocument_refused r refused : readDocument ap r = inl refused -> 400 <= rs_status refused.
Proof. unfold readDocument. intros E. by repeat (case_match; simplify_eq). Qed.

Lemma requestCreate_refused n r refused : requestCreate ap n r = inl refused -> 400 <= rs_status refused.
Proof. unfold requestCreate. destruct (negb _); [by intros [= <-]|]. destruct (negb _); [by intros [= <-]|]. apply readDocument_refused. Qed.

Lemma validDocPath_refused n id refused : validDocPath n id = Some refused -> 400 <= rs_status refused.
Proof. unfold validDocPath. destruct (negb _); [by intros [= <-]|]. by destruct (negb _); [intros [= <-]|]. Qed.

Lemma requestReplace_refused n id r refused : requestReplace ap n id r = inl refused -> 400 <= rs_status refused.
Proof.
  unfold requestReplace. destruct (negb _); [by intros [= <-]|].
  destruct (validDocPath n id) eqn:Hp; [intros [= <-]; by eapply validDocPath_refused|].
  destruct (parseIfMatch _); [|by intros [= <-]..]. destruct (readDocument ap r) eqn:Hr; intros [= <-].
  by eapply readDocument_refused.
Qed.

Lemma requestPatch_refused n id r refused : requestPatch ap n id r = inl refused -> 400 <= rs_status refused.
Proof.
  unfold requestPatch. destruct (parsePatchType _); [|by intros [= <-]..].
  destruct (validDocPath n id) eqn:Hp; [intros [= <-]; by eapply validDocPath_refused|].
  destruct (parseIfMatch _); [|by intros [= <-]..]. cbv zeta. destruct (failsWith _ _); [by intros [= <-]|].
  destruct (readBody _ _); by intros [= <-].
Qed.

Lemma requestDelete_refused n id r refused : requestDelete n id r = inl refused -> 400 <= rs_status refused.
Proof.
  unfold requestDelete. destruct (validDocPath n id) eqn:Hp; [intros [= <-]; by eapply validDocPath_refused|].
  destruct (parseIfMatch _); by intros [= <-].
Qed.

Lemma writeFailure_status header e : 400 <= rs_status (writeFailure header e).
Proof. by destruct (writeFailure_serverError header e) as [-> | ->]. Qed.

Lemma createDocError_status e : 400 <= rs_status (createDocError e).
Proof. unfold createDocError. repeat (case_match; [done|]). apply writeFailure_status. Qed.
Lemma replaceError_status e : 400 <= rs_status (replaceError e).
Proof. unfold replaceError. repeat (case_match; [done|]). apply writeFailure_status. Qed.
Lemma patchError_status e : 400 <= rs_status (patchError e).
Proof. unfold patchError. repeat (case_match; [done|]). apply writeFailure_status. Qed.
Lemma deleteDocError_status e : 400 <= rs_status (deleteDocError e).
Proof. unfold deleteDocError. repeat (case_match; [done|]). apply writeFailure_status. Qed.

(** *** Stale preconditions *)

(** The document has another revision. *)
Definition moved (a : astate) (n id : bytes) (rev : revision) : Prop :=
  forall d current, a !! n = Some d -> ldb_docs d !! id = Some current -> sd_revision current <> rev.

Lemma moved_noMatch a n id rev d current :
  moved a n id rev -> ~ lookupMatches a n id (MatchCond true false rev) d current.
Proof.
  intros Hm (Hd & Hc & Hmatch). apply (Hm d current Hd Hc). unfold matchRevision in Hmatch. cbn in Hmatch.
  by apply bool_decide_eq_true in Hmatch.
Qed.

(** A PUT that succeeds gives the document another revision than the one it named. *)
Lemma replaceDoc_moves a n id rev r resp a' :
  parseIfMatch (headerValues "If-Match" r) = Ok (MatchCond true false rev) -> rs_status resp = StatusOK ->
  replaceDocSpec ap a n id r resp a' -> moved a' n id rev.
Proof.
  intros Hm Hst Ha. unfold replaceDocSpec, unlessRefused in Ha.
  destruct (requestReplace ap n id r) as [refused|[m document]] eqn:Hq.
  { apply requestReplace_refused in Hq. destruct Ha as [-> _]. by rewrite Hst in Hq. }
  destruct Ha as [(d & current & rev' & Hl & Hu & ->)|(e & _ & [-> _])]; cycle 1.
  { pose proof (replaceError_status e) as He. by rewrite Hst in He. }
  assert (m = MatchCond true false rev) as ->.
  { unfold requestReplace in Hq. destruct (negb _); [done|]. destruct (validDocPath _ _); [done|].
    rewrite Hm in Hq. destruct (readDocument ap r); [done|]. by injection Hq. }
  destruct Hu as [d' Hd Hc Hne _ ->]. destruct Hl as (Hd2 & Hc2 & Hmatch).
  unfold matchRevision in Hmatch. cbn in Hmatch. apply bool_decide_eq_true in Hmatch.
  intros d2 current2. rewrite (setDoc_lookup _ _ _ _ _ Hd). intros [= <-]. cbn [ldb_docs].
  rewrite lookup_partial_alter_eq. intros [= <-]. cbn [sd_revision]. congruence.
Qed.

Section Stale.
Variables (a : astate) (n id : bytes) (rev : revision) (r : request).
Context (Hmoved : moved a n id rev) (Hm : parseIfMatch (headerValues "If-Match" r) = Ok (MatchCond true false rev)).

Lemma replaceDoc_stale resp a' : replaceDocSpec ap a n id r resp a' -> 400 <= rs_status resp /\ a' = a.
Proof.
  intros Ha. unfold replaceDocSpec, unlessRefused in Ha.
  destruct (requestReplace ap n id r) as [refused|[m document]] eqn:Hq.
  { apply requestReplace_refused in Hq. by destruct Ha as [-> ->]. }
  assert (m = MatchCond true false rev) as ->.
  { unfold requestReplace in Hq. destruct (negb _); [done|]. destruct (validDocPath _ _); [done|].
    rewrite Hm in Hq. destruct (readDocument ap r); [done|]. by injection Hq. }
  destruct Ha as [(d & current & rev' & Hl & _)|(e & _ & [-> ->])]; [by apply moved_noMatch in Hl|].
  split; [apply replaceError_status|done].
Qed.

Lemma patchDoc_stale resp a' : patchDocSpec ap a n id r resp a' -> 400 <= rs_status resp /\ a' = a.
Proof.
  intros Ha. unfold patchDocSpec, unlessRefused in Ha.
  destruct (requestPatch ap n id r) as [refused|[[m body] mediaType]] eqn:Hq.
  { apply requestPatch_refused in Hq. by destruct Ha as [-> ->]. }
  assert (m = MatchCond true false rev) as ->.
  { unfold requestPatch in Hq. destruct (parsePatchType _); [|done..]. destruct (validDocPath _ _); [done|].
    rewrite Hm in Hq. cbv zeta in Hq. destruct (failsWith _ _); [done|]. destruct (readBody _ _); [by injection Hq|done..]. }
  destruct Ha as [(d & current & document & rev' & Hl & _)|(e & _ & [-> ->])]; [by apply moved_noMatch in Hl|].
  split; [apply patchError_status|done].
Qed.

Lemma deleteDoc_stale resp a' : deleteDocSpec a n id r resp a' -> 400 <= rs_status resp /\ a' = a.
Proof.
  intros Ha. unfold deleteDocSpec, unlessRefused in Ha.
  destruct (requestDelete n id r) as [refused|m] eqn:Hq.
  { apply requestDelete_refused in Hq. by destruct Ha as [-> ->]. }
  assert (m = MatchCond true false rev) as ->.
  { unfold requestDelete in Hq. destruct (validDocPath _ _); [done|]. rewrite Hm in Hq. by injection Hq. }
  destruct Ha as [((d & current & Hl) & _)|(e & _ & [-> ->])]; [by apply moved_noMatch in Hl|].
  split; [apply deleteDocError_status|done].
Qed.
End Stale.

(** The requests that change a document on a condition. *)
Definition changesDoc (n id : bytes) (r : request) : Prop :=
  plainRequest "PUT" [str "db"; n; id] r \/ plainRequest "PATCH" [str "db"; n; id] r \/
  plainRequest "DELETE" [str "db"; n; id] r.


Lemma changesDoc_stale a n id rev r :
  changesDoc n id r -> validName n -> validID id -> ap_stopping ap = false -> moved a n id rev ->
  parseIfMatch (headerValues "If-Match" r) = Ok (MatchCond true false rev) ->
  (forall resp a', serveSpec ap a r resp a' -> 400 <= rs_status resp /\ a' = a) /\
  (forall resp, serveBad a r resp -> 400 <= rs_status resp).
Proof.
  intros Hp Hn Hid Hstop Hmoved Hm. pose proof (plainDocument n id Hn Hid) as HF.
  assert (forall resp, serverError resp -> 400 <= rs_status resp) as Hbad by (by intros ? [-> | ->]).
  destruct Hp as [Hp|[Hp|Hp]].
  - destruct (serveSpec_plain a r _ _ TReplaceDoc [n; id] Hp HF) as (-> & -> & _); [done|by rewrite route_document|done|].
    split; [|exact Hbad]. intros resp a'. by apply (replaceDoc_stale a n id rev).
  - destruct (serveSpec_plain a r _ _ TPatchDoc [n; id] Hp HF) as (-> & -> & _); [done|by rewrite route_document|done|].
    split; [|exact Hbad]. intros resp a'. by apply (patchDoc_stale a n id rev).
  - destruct (serveSpec_plain a r _ _ TDeleteDoc [n; id] Hp HF) as (-> & -> & _); [done|by rewrite route_document|done|].
    split; [|exact Hbad]. intros resp a'. by apply (deleteDoc_stale a n id rev).
Qed.

(** An export that succeeds, and the import of what it has sent. *)
Lemma export_success a n r resp a' :
  exportSpec ap a n r resp a' -> rs_status resp = StatusOK ->
  takeBulkSlot ap = true /\ a' = a /\
  exists d, a !! n = Some d /\ resp = Response StatusOK exportHeader (exportBytes (exportedDocs d)).
Proof.
  unfold exportSpec, bulkSpec. destruct (bulkRefused ap n r) as [refused|] eqn:Hr.
  { intros [-> _] Hst. unfold bulkRefused in Hr. repeat (destruct (negb _); [by simplify_eq/=|]). done. }
  assert (takeBulkSlot ap = true) as Hslot.
  { unfold bulkRefused in Hr. destruct (negb (is_ok _)); [done|]. destruct (negb (_ =? 0)); [done|].
    by destruct (takeBulkSlot ap). }
  destruct (a !! n) as [d|]; intros [-> ->] Hst; [|done]. split; [done|]. split; [done|]. by exists d.
Qed.

Lemma exportedDocs_canonical maxBytes a n d :
  storesCanonical maxBytes a -> a !! n = Some d -> Forall (canonical maxBytes) (exportedDocs d).
Proof.
  intros Ha Hd. apply Forall_forall. intros json Hin. unfold exportedDocs in Hin.
  apply list_elem_of_omap in Hin as (id & _ & Hid). destruct (ldb_docs d !! id) as [doc|] eqn:Hdoc; [|done].
  injection Hid as <-. by apply (Ha n d id doc).
Qed.

Lemma import_exported a n d m r resp a' :
  storesCanonical (ap_maxBodyBytes ap) a -> a !! n = Some d -> exportedDocs d <> [] ->
  len (exportedDocs d) <= bc_maxDocuments (ap_bulk ap) ->
  len (exportBytes (exportedDocs d)) <= bc_maxBytes (ap_bulk ap) ->
  takeBulkSlot ap = true -> validName m -> headerGet "Content-Type" r = bulkMediaType -> rq_rawQuery r = [] ->
  concat (rq_chunks r) = exportBytes (exportedDocs d) -> rq_end r = None ->
  importSpec ap a m r resp a' ->
  (exists ids, imported a m (exportedDocs d) ids a' /\ resp = writeBulkSuccess) \/
  exists e, importFails anyBatch a m (exportedDocs d) e /\ says a (failBulk [] e) resp a'.
Proof.
  intros Ha Hd Hne Hcount Hsize Hslot Hm Hct Hraw Hbody Hend. pose proof (exportedDocs_canonical _ _ _ _ Ha Hd) as HF.
  unfold importSpec, bulkSpec, bulkRefused. unfold validName in Hm. rewrite Hct, Hm, Hraw, Hslot, Hend, Hbody.
  change (isNDJSON bulkMediaType) with true. change (len (@nil byte) =? 0) with true. cbn [negb is_ok]. cbv zeta.
  rewrite (proj2 (Z.ltb_ge _ _)) by done. rewrite bulkLines_export.
  2: { eapply Forall_impl; [exact HF|]. by intros doc (? & _)%canonical_line. }
  rewrite (checkLines_canonical _ _ 1 [] _ HF) by (change (len (@nil bytes)) with 0; lia). cbn [app].
  by destruct (exportedDocs d).
Qed.

(** A server that is stopping answers nothing but that. *)
Lemma served_running a r resp a' :
  serveSpec ap a r resp a' -> rs_status resp <> StatusServiceUnavailable -> ap_stopping ap = false.
Proof. unfold serveSpec. destruct (ap_stopping ap); [|done]. by intros [-> _]. Qed.
End Plain.
