(* ===== verification/Shared.v ===== *)
(** * A store that is shared

    A host for operations that run at the same time: each has an environment of its
    own, which answers all calls that are not about the keys of the store and says
    which calls fail, and all work on the same contents.  The host has the documented
    behaviour of [HostSpec]. *)

From S2P Require Import Prelude GoErrors Keys Host.

#[local] Open Scope Z_scope.

(** ** Scans *)

Definition entry_le (a b : bytes * bytes) : Prop := a.1 <=b b.1.
#[global] Instance entry_le_dec a b : Decision (entry_le a b).
Proof. apply ble_dec. Defined.

Definition scanOf (c : gmap bytes bytes) (lo hi : option bytes) : list (bytes * bytes) :=
  merge_sort entry_le (filter (fun kv => in_bounds lo hi kv.1 = true) (map_to_list c)).

Definition getOf (c : gmap bytes bytes) (k : bytes) : error + bytes :=
  match c !! k with Some v => inr v | None => inl (pebbleErrNotFound : error) end.

Lemma scanOf_spec c lo hi : isScan c lo hi (scanOf c lo hi).
Proof.
  unfold scanOf. set (l := filter _ _).
  assert (Permutation (merge_sort entry_le l) l) as HP by apply merge_sort_Permutation.
  assert (Transitive entry_le) by (intros x y z; unfold entry_le; apply transitivity).
  assert (Total entry_le) by (intros x y; unfold entry_le; apply total, _).
  assert (NoDup (map fst (merge_sort entry_le l))) as Hnd.
  { rewrite HP. unfold l. pose proof (NoDup_fst_map_to_list c) as Hn0. revert Hn0.
    generalize (map_to_list c). intros m. induction m as [|x m IH]; [done|].
    cbn [map]. rewrite filter_cons. intros [Hx Hm]%NoDup_cons. case_decide; [|by apply IH].
    cbn [map]. constructor; [|by apply IH]. intros (y & E & Hy)%list_elem_of_fmap.
    apply Hx. rewrite E. apply list_elem_of_fmap. exists y. split; [done|].
    apply list_elem_of_filter in Hy. apply Hy. }
  split.
  - assert (StronglySorted entry_le (merge_sort entry_le l)) as HS
      by apply (StronglySorted_merge_sort _ _).
    clear HP. induction HS as [|x m HS IH HF]; [constructor|].
    cbn [map] in Hnd. apply NoDup_cons in Hnd as [Hx Hnd]. constructor; [by apply IH|].
    rewrite Forall_forall in HF. apply Forall_forall. intros y Hy. specialize (HF y Hy).
    unfold entry_le in HF. apply ble_lt_eq in HF as [?|E]; [done|].
    destruct Hx. rewrite E. apply list_elem_of_fmap. by exists y.
  - intros k v. rewrite HP. unfold l. rewrite list_elem_of_filter, elem_of_map_to_list. simpl. tauto.
Qed.

Lemma getOf_spec (c : gmap bytes bytes) k (f : Prop) :
  match getOf c k with
  | inr v => c !! k = Some v
  | inl e => foreign e /\
      (errorsIs pebbleErrNotFound e = true /\ c !! k = None \/
       errorsIs pebbleErrNotFound e = false /\ f)
  end.
Proof.
  unfold getOf. destruct (c !! k); [done|]. split; [by apply foreign_foreign_sentinel|]. by left.
Qed.

Lemma scanOf_agree (c c' : gmap bytes bytes) lo hi :
  (forall k, in_bounds lo hi k = true -> c !! k = c' !! k) -> scanOf c lo hi = scanOf c' lo hi.
Proof.
  intros Hc. destruct (scanOf_spec c lo hi) as [HS Hl]. destruct (scanOf_spec c' lo hi) as [HS' Hl'].
  apply (ssorted_unique (keyed fst)); [done..|]. intros [k v]. rewrite Hl, Hl'. split; intros [E Hk]; (split; [|done]).
  - by rewrite <- Hc.
  - by rewrite Hc.
Qed.

(** ** The environment of an operation *)

Class Env (E : Type) := {
  (** Whether a call of the store fails, and whether a commit that fails is applied
      for all that. *)
  envFault : E -> option error * E;
  envApplied : E -> bool * E;
  (** Where an iterator stops that does not get to the end of its range. *)
  envStop : E -> option (nat * error) * E;
  envRand : nat -> E -> (error + bytes) * E;
  envNow : E -> Z * E;
  envRequest : E -> option error * E;
  envExpired : E -> bool * E;
  envBatchLen : batch -> Z;
}.

Class EnvSpec (E : Type) `{Env E} := {
  envFaulty : E -> Prop;
  envFault_spec e :
    let '(r, e') := envFault e in
    (envFaulty e -> envFaulty e') /\
    match r with None => True | Some err => foreign err /\ errorsIs pebbleErrNotFound err = false /\ envFaulty e' end;
  envApplied_spec e : let '(_, e') := envApplied e in envFaulty e -> envFaulty e';
  envStop_spec e :
    let '(r, e') := envStop e in
    (envFaulty e -> envFaulty e') /\ match r with None => True | Some (_, err) => foreign err /\ envFaulty e' end;
  envRand_spec n e :
    let '(r, e') := envRand n e in
    (envFaulty e -> envFaulty e') /\ match r with inr b => length b = n | inl err => foreign err /\ envFaulty e' end;
  envNow_spec e : let '(_, e') := envNow e in envFaulty e -> envFaulty e';
  envRequest_spec e :
    let '(r, e') := envRequest e in
    (envFaulty e -> envFaulty e') /\
    match r with None => True | Some err => (err = ctxDeadlineExceeded \/ err = ctxCanceled) /\ envFaulty e' end;
  envExpired_spec e :
    let '(r, e') := envExpired e in (envFaulty e -> envFaulty e') /\ (r = true -> envFaulty e');
}.

(** ** The host *)

Section Shared.
Context {E : Type} `{Env E}.
Notation SW := (gmap bytes bytes * E)%type.

(** A call that is not about the keys. *)
Definition aside {A : Type} (f : E -> A * E) (w : SW) : A * SW := let '(x, e) := f w.2 in (x, (w.1, e)).

Definition getIn (c : gmap bytes bytes) (k : bytes) (e : E) : (error + bytes) * E :=
  match envFault e with
  | (Some err, e') => (inl err, e')
  | (None, e') => (getOf c k, e')
  end.

Definition iterIn (c : gmap bytes bytes) (lo hi : option bytes) (e : E) : (error + iter) * E :=
  match envFault e with
  | (Some err, e1) => (inl err, e1)
  | (None, e1) =>
      match envStop e1 with
      | (Some (n, err), e2) => (inr (Iter (take n (scanOf c lo hi)) (Some err)), e2)
      | (None, e2) => (inr (Iter (scanOf c lo hi) None), e2)
      end
  end.

(** A write that may fail, and may then be made or not. *)
Definition writing (f : gmap bytes bytes -> gmap bytes bytes) (w : SW) : option error * SW :=
  match envFault w.2 with
  | (Some err, e1) => let '(applied, e2) := envApplied e1 in (Some err, (if applied : bool then f w.1 else w.1, e2))
  | (None, e1) => (None, (f w.1, e1))
  end.

#[global] Instance sharedHost : Host SW := {|
  snapshot := gmap bytes bytes;
  pebbleOpen := aside envFault;
  pebbleGet k w := aside (getIn w.1 k) w;
  pebbleSet k v := writing (fun c => <[k := v]> c);
  pebbleIter lo hi w := aside (iterIn w.1 lo hi) w;
  pebbleSnapshot w := (w.1, w);
  snapshotGet s k := aside (getIn s k);
  snapshotIter s lo hi := aside (iterIn s lo hi);
  pebbleQueue _ := aside envFault;
  pebbleCommit b := writing (fun c => applyBatch c b);
  pebbleClose := aside envFault;
  batchLen := envBatchLen;
  randRead n := aside (envRand n);
  nowMillis := aside envNow;
  requestErr := aside envRequest;
  requestExpired := aside envExpired;
|}.

Context `{!EnvSpec E}.

Lemma fault_spec w :
  let '(r, w') := aside envFault w in
  w'.1 = w.1 /\ (envFaulty w.2 -> envFaulty w'.2) /\
  match r with None => True | Some err => foreign err /\ envFaulty w'.2 end.
Proof.
  pose proof (envFault_spec w.2) as Hf. unfold aside. destruct (envFault w.2) as [[err|] e']; cbn [fst snd]; naive_solver.
Qed.

Lemma getIn_spec c k w :
  let '(r, w') := aside (getIn c k) w in
  w'.1 = w.1 /\ (envFaulty w.2 -> envFaulty w'.2) /\
  match r with
  | inr v => c !! k = Some v
  | inl e => foreign e /\
      (errorsIs pebbleErrNotFound e = true /\ c !! k = None \/ errorsIs pebbleErrNotFound e = false /\ envFaulty w'.2)
  end.
Proof.
  pose proof (envFault_spec w.2) as Hf. unfold aside, getIn.
  destruct (envFault w.2) as [[err|] e']; cbn [fst snd]; destruct Hf as [Hf He]; (split; [done|]); (split; [done|]).
  - destruct He as (? & ? & ?). split; [done|]. by right.
  - apply getOf_spec.
Qed.

Lemma iterIn_spec c lo hi w :
  let '(r, w') := aside (iterIn c lo hi) w in
  w'.1 = w.1 /\ (envFaulty w.2 -> envFaulty w'.2) /\
  match r with
  | inr it =>
      match it_err it with
      | None => isScan c lo hi (it_entries it)
      | Some e => foreign e /\ envFaulty w'.2 /\ isPartialScan c lo hi (it_entries it)
      end
  | inl e => foreign e /\ envFaulty w'.2
  end.
Proof.
  pose proof (envFault_spec w.2) as Hf. unfold aside, iterIn.
  destruct (envFault w.2) as [[err|] e1]; cbn [fst snd]; [naive_solver|].
  pose proof (envStop_spec e1) as Hs. destruct (envStop e1) as [[[n err]|] e2]; cbn [fst snd it_err it_entries].
  - destruct Hs as [Hs [He He2]]. split; [done|]. split; [naive_solver|]. split; [done|]. split; [done|].
    exists (drop n (scanOf c lo hi)). rewrite take_drop. apply scanOf_spec.
  - split; [done|]. split; [naive_solver|]. apply scanOf_spec.
Qed.

Lemma writing_spec f w :
  let '(r, w') := writing f w in
  (envFaulty w.2 -> envFaulty w'.2) /\
  match r with
  | None => w'.1 = f w.1
  | Some e => foreign e /\ envFaulty w'.2 /\ (w'.1 = w.1 \/ w'.1 = f w.1)
  end.
Proof.
  pose proof (envFault_spec w.2) as Hf. unfold writing. destruct (envFault w.2) as [[err|] e1]; [|cbn [fst snd]; naive_solver].
  pose proof (envApplied_spec e1) as Ha. destruct (envApplied e1) as [[] e2]; cbn [fst snd]; naive_solver.
Qed.

#[local] Obligation Tactic := idtac.

#[global] Program Instance sharedHostSpec : HostSpec SW := {|
  contents := fst;
  faulty w := envFaulty w.2;
  snapContents := fun s => s;
|}.
Next Obligation. exact fault_spec. Qed.
Next Obligation. intros k w. exact (getIn_spec w.1 k w). Qed.
Next Obligation. intros k v w. exact (writing_spec _ w). Qed.
Next Obligation. intros lo hi w. exact (iterIn_spec w.1 lo hi w). Qed.
Next Obligation. done. Qed.
Next Obligation. exact getIn_spec. Qed.
Next Obligation. exact iterIn_spec. Qed.
Next Obligation. intros op. exact fault_spec. Qed.
Next Obligation. intros b w. exact (writing_spec _ w). Qed.
Next Obligation. exact fault_spec. Qed.
Next Obligation.
  intros n w. pose proof (envRand_spec n w.2) as Hr. cbn. unfold aside. destruct (envRand n w.2). cbn in *. naive_solver.
Qed.
Next Obligation. intros w. pose proof (envNow_spec w.2) as Hr. cbn. unfold aside. destruct (envNow w.2). by cbn. Qed.
Next Obligation.
  intros w. pose proof (envRequest_spec w.2) as Hr. cbn. unfold aside. destruct (envRequest w.2). cbn. naive_solver.
Qed.
Next Obligation.
  intros w. pose proof (envExpired_spec w.2) as Hr. cbn. unfold aside. destruct (envExpired w.2). cbn. naive_solver.
Qed.
End Shared.
