(* ===== verification/Footprint.v ===== *)
(** * What the operations touch

    The link between the store and its locks.  [confined] says of code that it behaves
    the same on two contents that agree on the keys the accesses of its plan read, and
    that it changes the store by one batch at its end, of keys the accesses write.  The
    lemmas show it for the operations of [Store], [Range] and [Query], on a shared
    store, and the theorem for all of them. *)

From S2P Require Import Prelude GoErrors Codec Text Validation Keys Json IndexValue Host Crypto Store StoreRep StoreReads StoreSpec Range StoreRange.
From S2P Require Import Cursor Query Locks Serial Shared.

#[local] Open Scope Z_scope.

(** ** Keys *)

(** The keys a batch may change. *)
Definition opKeys (op : batchOp) (k : bytes) : Prop :=
  match op with
  | BSet k' _ | BDelete k' => k = k'
  | BDeleteRange lo hi => lo <=b k /\ k <b hi
  end.

Definition batchKeys (b : batch) (k : bytes) : Prop := Exists (fun op => opKeys op k) b.

(** The keys of a document and of its index entries. *)
Definition docKeys (n id k : bytes) : Prop := k = docKey n id \/ indexDataPrefix n `prefix_of` k /\ id `suffix_of` k.

(** What accesses are of keys. *)
Definition readKeys (x : access) (k : bytes) : Prop :=
  match x with
  | ReadDb n | WriteDb n => k = dbKey n \/ indexDefPrefix n `prefix_of` k
  | ReadDocs n ids | ProbeDocs n ids => Exists (fun id => k = docKey n id) ids
  | WriteDocs _ _ => False
  | ViewDocs n => docsPrefix n `prefix_of` k \/ indexDataPrefix n `prefix_of` k
  end.

Definition writeKeys (x : access) (k : bytes) : Prop :=
  match x with
  | WriteDb n =>
      k = dbKey n \/ indexDefPrefix n `prefix_of` k \/ docsPrefix n `prefix_of` k \/ indexDataPrefix n `prefix_of` k
  | WriteDocs n ids => Exists (fun id => docKeys n id k) ids
  | _ => False
  end.

#[global] Instance readKeys_dec x k : Decision (readKeys x k).
Proof. destruct x; apply _. Defined.
#[global] Instance writeKeys_dec x k : Decision (writeKeys x k).
Proof. destruct x; unfold writeKeys, docKeys; apply _. Defined.

Definition readable (l : list access) (k : bytes) : Prop := Exists (fun x => readKeys x k) l.
Definition writable (l : list access) (k : bytes) : Prop := Exists (fun x => writeKeys x k) l.

Definition agree (R : bytes -> Prop) (c c' : gmap bytes bytes) : Prop := forall k, R k -> c !! k = c' !! k.

Section Calls.
Context {E : Type} `{Env E}.
Notation SW := (gmap bytes bytes * E)%type.
Implicit Types (R : bytes -> Prop) (C : option (bytes -> Prop)).

(** On contents that agree on [R] the two pieces of code do the same: they have the same
    result, of [Q], and commit nothing or the same batch of keys in [C]. *)
Definition twin R C {A : Type} (m m' : M SW A) (Q : A -> Prop) : Prop :=
  forall c c' e, agree R c c' -> exists r b e',
    m (c, e) = (r, (applyBatch c b, e')) /\ m' (c', e) = (r, (applyBatch c' b, e')) /\
    (b = [] \/ exists P, C = Some P /\ forall k, batchKeys b k -> P k) /\
    (forall x, r = Ok x -> Q x).
End Calls.

(** Code that reads keys in [R] only, and then commits at most once, to keys in [C]. *)
Notation calls R C m Q := (twin R C m m Q).

Definition confined {E : Type} `{Env E} (l : list access) {A : Type} (m : M (gmap bytes bytes * E) A) : Prop :=
  calls (readable l) (Some (writable l)) m (fun _ => True).

(** *** Rules *)

Section Rules.
Context {E : Type} `{Env E}.
Notation SW := (gmap bytes bytes * E)%type.
Implicit Types (R : bytes -> Prop) (C : option (bytes -> Prop)).

(** Code that leaves the store alone. *)
Lemma calls_quiet R C {A : Type} (f : E -> res A * E) (m : M SW A) (Q : A -> Prop) :
  (forall c e, m (c, e) = let '(r, e') := f e in (r, (c, e'))) -> (forall e x, (f e).1 = Ok x -> Q x) -> calls R C m Q.
Proof.
  intros Hm HQ c c' e _. specialize (HQ e). rewrite !Hm. destruct (f e) as [r e']. exists r, [], e'.
  split; [done|]. split; [done|]. split; [by left|done].
Qed.

Lemma calls_ret R C {A : Type} (x : A) (Q : A -> Prop) : Q x -> calls R C (mret x : M SW A) Q.
Proof. intros HQ. apply (calls_quiet R C (fun e => (Ok x, e))); [done|]. by intros ?? [= <-]. Qed.

Lemma calls_throw R C {A : Type} err (Q : A -> Prop) : calls R C (throw err : M SW A) Q.
Proof. by apply (calls_quiet R C (fun e => (Err err, e))). Qed.

Lemma calls_outOfFuel R C {A : Type} (Q : A -> Prop) : calls R C (outOfFuel : M SW A) Q.
Proof. by apply (calls_quiet R C (fun e => (OutOfFuel, e))). Qed.

Lemma calls_lift R C {A : Type} (r : res A) (Q : A -> Prop) : (forall x, r = Ok x -> Q x) -> calls R C (lift r : M SW A) Q.
Proof. intros HQ. by apply (calls_quiet R C (fun e => (r, e))). Qed.

Lemma twin_mono R C {A : Type} (m m' : M SW A) (Q Q' : A -> Prop) :
  twin R C m m' Q -> (forall x, Q x -> Q' x) -> twin R C m m' Q'.
Proof. intros Hm HQ c c' e Hc. destruct (Hm c c' e Hc) as (r & b & e' & ? & ? & ? & ?). exists r, b, e'. naive_solver. Qed.

Lemma twin_bind R C {A B : Type} (m m' : M SW A) (k k' : A -> M SW B) (P : A -> Prop) (Q : B -> Prop) :
  twin R None m m' P -> (forall x, P x -> twin R C (k x) (k' x) Q) -> twin R C (m ≫= k) (m' ≫= k') Q.
Proof.
  intros Hm Hk c c' e Hc. destruct (Hm c c' e Hc) as (r & b & e' & E1 & E2 & [->|(? & [=] & _)] & HP).
  unfold mbind, M_bind. rewrite E1, E2. destruct r as [x|err|].
  - exact (Hk x (HP x eq_refl) c c' e' Hc).
  - exists (Err err), [], e'. split; [done|]. split; [done|]. by split; [left|].
  - exists OutOfFuel, [], e'. split; [done|]. split; [done|]. by split; [left|].
Qed.

Lemma twin_seq R C {A B : Type} (m m' : M SW A) (k k' : A -> M SW B) (Q : B -> Prop) :
  twin R None m m' (fun _ => True) -> (forall x, twin R C (k x) (k' x) Q) -> twin R C (m ≫= k) (m' ≫= k') Q.
Proof. intros Hm Hk. eapply twin_bind; [exact Hm|]. auto. Qed.

(** After a commit there is nothing but the result. *)
Lemma twin_fmap R C {A B : Type} (m m' : M SW A) (f : A -> B) (P : A -> Prop) (Q : B -> Prop) :
  twin R C m m' P -> (forall x, P x -> Q (f x)) -> twin R C (x ← m; mret (f x)) (x ← m'; mret (f x)) Q.
Proof.
  intros Hm HQ c c' e Hc. destruct (Hm c c' e Hc) as (r & b & e' & E1 & E2 & Hb & HP). unfold mbind, M_bind. rewrite E1, E2.
  destruct r as [x|err|]; eexists _, b, e'; (split; [reflexivity|]); (split; [reflexivity|]); (split; [done|]);
    [|done|done]. intros ? [= <-]. auto.
Qed.

Lemma twin_onErr R C {A : Type} (f : error -> error) (m m' : M SW A) (Q : A -> Prop) : twin R C m m' Q -> twin R C (onErr f m) (onErr f m') Q.
Proof.
  intros Hm c c' e Hc. destruct (Hm c c' e Hc) as (r & b & e' & E1 & E2 & Hb & HP). unfold onErr. rewrite E1, E2.
  destruct r as [x|err|]; eexists _, b, e'; (split; [reflexivity|]); (split; [reflexivity|]); by split.
Qed.

Lemma twin_catch R C {A : Type} (m m' : M SW A) (Q : A -> Prop) :
  twin R C m m' Q -> twin R C (catch m) (catch m') (fun r => match r with inr x => Q x | inl _ => True end).
Proof.
  intros Hm c c' e Hc. destruct (Hm c c' e Hc) as (r & b & e' & E1 & E2 & Hb & HP). unfold catch. rewrite E1, E2.
  destruct r as [x|err|]; eexists _, b, e'; (split; [reflexivity|]); (split; [reflexivity|]); (split; [done|]); naive_solver.
Qed.

Lemma twin_deferClose R C {A : Type} (m m' : M SW A) (Q : A -> Prop) :
  twin R C m m' Q -> twin R C (deferClose m) (deferClose m') Q.
Proof.
  intros Hm c c' e Hc. destruct (Hm c c' e Hc) as (r & b & e' & E1 & E2 & Hb & HP). unfold deferClose. rewrite E1, E2.
  unfold close, onErr, ofOpt. cbn [pebbleClose sharedHost]. unfold aside. cbn [fst snd].
  destruct (envFault e') as [[err|] e2]; destruct r as [x|err'|]; eexists _, b, e2;
    (split; [reflexivity|]); (split; [reflexivity|]); by split.
Qed.

(** *** Calls of the host *)

Lemma ofSum_aside R C {A : Type} (f f' : E -> (error + A) * E) :
  (forall e, f e = f' e) -> twin R C (ofSum (aside f)) (ofSum (aside f')) (fun _ => True).
Proof.
  intros Hf c c' e _. unfold ofSum, aside. cbn [fst snd]. rewrite Hf. destruct (f' e) as [[err|x] e'];
    eexists _, [], e'; (split; [reflexivity|]); (split; [reflexivity|]); by split; [left|].
Qed.

Lemma ofOpt_aside R C (f : E -> option error * E) : calls R C (ofOpt (aside f)) (fun _ => True).
Proof.
  intros c c' e _. unfold ofOpt, aside. cbn [fst snd]. destruct (f e) as [[err|] e'];
    eexists _, [], e'; (split; [reflexivity|]); (split; [reflexivity|]); by split; [left|].
Qed.

Lemma ofVal_aside R C {A : Type} (f : E -> A * E) : calls R C (ofVal (aside f)) (fun _ => True).
Proof.
  intros c c' e _. unfold ofVal, aside. cbn [fst snd]. destruct (f e) as [x e'];
    eexists _, [], e'; (split; [reflexivity|]); (split; [reflexivity|]); by split; [left|].
Qed.

Lemma getIn_agree R c c' k e : agree R c c' -> R k -> getIn c k e = getIn c' k e.
Proof. intros Hc HR. unfold getIn, getOf. by rewrite (Hc k HR). Qed.

Lemma iterIn_agree R c c' lo hi e :
  agree R c c' -> (forall k, in_bounds lo hi k = true -> R k) -> iterIn c lo hi e = iterIn c' lo hi e.
Proof. intros Hc HR. unfold iterIn. by rewrite (scanOf_agree c c') by auto. Qed.

Lemma calls_dbGet R C k : R k -> calls R C (dbGet (W := SW) k) (fun _ => True).
Proof.
  intros HR c c' e Hc. unfold dbGet, ofSum. cbn [pebbleGet sharedHost]. unfold aside. cbn [fst snd].
  rewrite (getIn_agree R c c' k e) by done. destruct (getIn c' k e) as [[err|x] e'];
    eexists _, [], e'; (split; [reflexivity|]); (split; [reflexivity|]); by split; [left|].
Qed.

Lemma calls_newIter R C lo hi :
  (forall k, in_bounds lo hi k = true -> R k) -> calls R C (newIter (W := SW) lo hi) (fun _ => True).
Proof.
  intros HR. apply twin_onErr. intros c c' e Hc. unfold ofSum. cbn [pebbleIter sharedHost]. unfold aside. cbn [fst snd].
  rewrite (iterIn_agree R c c' lo hi e) by done. destruct (iterIn c' lo hi e) as [[err|x] e'];
    eexists _, [], e'; (split; [reflexivity|]); (split; [reflexivity|]); by split; [left|].
Qed.

(** A snapshot is looked at where the contents may be. *)
Lemma twin_snapshot R C {B : Type} (k k' : snapshot -> M SW B) (Q : B -> Prop) :
  (forall s s', agree R s s' -> twin R C (k s) (k' s') Q) -> twin R C (newSnapshot ≫= k) (newSnapshot ≫= k') Q.
Proof. intros Hk c c' e Hc. exact (Hk c c' Hc c c' e Hc). Qed.

Lemma twin_snapGet R C s s' k :
  agree R s s' -> R k -> twin R C (snapGet (W := SW) s k) (snapGet (W := SW) s' k) (fun _ => True).
Proof. intros Hs HR. apply ofSum_aside. intros e. by eapply getIn_agree. Qed.

Lemma twin_snapIter R C s s' lo hi :
  agree R s s' -> (forall k, in_bounds lo hi k = true -> R k) ->
  twin R C (snapIter (W := SW) s lo hi) (snapIter (W := SW) s' lo hi) (fun _ => True).
Proof. intros Hs HR. apply twin_onErr, ofSum_aside. intros e. by eapply iterIn_agree. Qed.

(** A scan of a prefix. *)
Lemma calls_prefixIter R C p :
  (forall k, p `prefix_of` k -> R k) -> calls R C (newIter (W := SW) (Some p) (prefixEnd p)) (fun _ => True).
Proof. intros HR. apply calls_newIter. intros k Hk%prefixEnd_spec. auto. Qed.

Lemma twin_prefixSnapIter R C s s' p :
  agree R s s' -> (forall k, p `prefix_of` k -> R k) ->
  twin R C (snapIter (W := SW) s (Some p) (prefixEnd p)) (snapIter (W := SW) s' (Some p) (prefixEnd p)) (fun _ => True).
Proof. intros Hs HR. apply twin_snapIter; [done|]. intros k Hk%prefixEnd_spec. auto. Qed.

Lemma calls_close R C : calls R C (close (W := SW)) (fun _ => True).
Proof. apply twin_onErr, ofOpt_aside. Qed.

Lemma calls_rand R C n : calls R C (rand (W := SW) n) (fun _ => True).
Proof. by apply twin_onErr, ofSum_aside. Qed.

Lemma calls_now R C : calls R C (now (W := SW)) (fun _ => True).
Proof. apply ofVal_aside. Qed.

Lemma calls_ctxErr R C ctx : calls R C (ctxErr (W := SW) ctx) (fun _ => True).
Proof. destruct ctx; [by apply calls_ret|]. apply ofOpt_aside. Qed.

Lemma calls_iterError R C it rest : calls R C (iterError (W := SW) it rest) (fun _ => True).
Proof. unfold iterError. destruct rest; [destruct (it_err it)|]; first [by apply calls_ret|apply calls_throw]. Qed.

Lemma calls_queue R C b op : calls R C (queue (W := SW) b op) (fun b' => b' = b ++ [op]).
Proof. eapply twin_bind; [apply twin_onErr, ofOpt_aside|]. intros _ _. by apply calls_ret. Qed.

Lemma calls_queueAll R C ops : forall b, calls R C (queueAll (W := SW) b ops) (fun b' => b' = b ++ ops).
Proof.
  induction ops as [|op ops IH]; intros b; cbn [queueAll]; [apply calls_ret; by rewrite app_nil_r|].
  eapply twin_bind; [apply calls_queue|]. intros ? ->. eapply twin_mono; [apply IH|]. intros ? ->. by rewrite <- app_assoc.
Qed.

Lemma calls_commit R (P : bytes -> Prop) b :
  (forall k, batchKeys b k -> P k) -> calls R (Some P) (commit (W := SW) b) (fun _ => True).
Proof.
  intros HP. apply twin_onErr. intros c c' e _. unfold ofOpt. cbn [pebbleCommit sharedHost]. unfold writing. cbn [fst snd].
  destruct (envFault e) as [[err|] e1]; [destruct (envApplied e1) as [[] e2]|].
  - exists (Err err), b, e2. split; [done|]. split; [done|]. split; [|done]. right. by exists P.
  - exists (Err err), [], e2. split; [done|]. split; [done|]. by split; [left|].
  - exists (Ok ()), b, e1. split; [done|]. split; [done|]. split; [|done]. right. by exists P.
Qed.
End Rules.

Create HintDb calls.
#[export] Hint Resolve calls_throw calls_outOfFuel calls_close calls_rand calls_now calls_ctxErr calls_iterError : calls.
#[export] Hint Extern 1 (twin _ _ (mret _) (mret _) (fun _ => True)) => apply calls_ret; exact I : calls.
#[export] Hint Extern 1 (twin _ _ (lift _) (lift _) (fun _ => True)) => apply calls_lift; intros; exact I : calls.

Ltac calls_step :=
  match goal with
  | |- twin _ _ _ _ _ => solve [auto with calls]
  | |- twin _ _ (newSnapshot ≫= _) _ _ => apply twin_snapshot; intros ? ? ?
  | |- twin _ _ (mbind _ _) _ _ => apply twin_seq; [|intros ?]
  | |- twin _ _ (onErr _ _) _ _ => apply twin_onErr
  | |- twin _ _ (catch _) _ (fun _ => True) => eapply twin_mono; [apply twin_catch with (Q := fun _ => True)|done]
  | |- twin _ _ (deferClose _) _ _ => apply twin_deferClose
  | |- twin _ _ (match ?x with _ => _ end) _ _ => destruct x eqn:?
  end.
Ltac calls := repeat (calls_step; cbv zeta).

(** ** The operations *)

Section Operations.
Context {E : Type} `{Env E} `{Crypto} `{JSONPath}.
Notation SW := (gmap bytes bytes * E)%type.
Implicit Types (R : bytes -> Prop) (C : option (bytes -> Prop)).
Variable wk : bytes.

Lemma calls_lookupKey R C k : R k -> calls R C (lookupKey (W := SW) k) (fun _ => True).
Proof. intros HR. unfold lookupKey. calls. by apply calls_dbGet. Qed.
#[local] Hint Resolve calls_lookupKey : calls.

Lemma calls_has R C k : R k -> calls R C (has (W := SW) k) (fun _ => True).
Proof. intros HR. unfold has. calls. Qed.

Lemma calls_hasDB R C n : R (dbKey n) -> calls R C (hasDB (W := SW) wk n) (fun _ => True).
Proof. intros HR. unfold hasDB. calls. Qed.

Lemma calls_databaseKey R C n : R (dbKey n) -> calls R C (databaseKey (W := SW) wk n) (fun _ => True).
Proof. intros HR. unfold databaseKey. calls. Qed.

Lemma calls_documentDBKey R C n : R (dbKey n) -> calls R C (documentDBKey (W := SW) wk n) (fun _ => True).
Proof. intros HR. by apply twin_onErr, calls_databaseKey. Qed.

Lemma calls_readDoc R C n id dbk : R (docKey n id) -> calls R C (readDoc (W := SW) n id dbk) (fun _ => True).
Proof. intros HR. unfold readDoc. calls. Qed.

Lemma calls_indexes_loop R C prefix l : forall defs, calls R C (indexes_loop (W := SW) prefix l defs) (fun _ => True).
Proof. induction l as [|[k v] l IH]; intros defs; cbn [indexes_loop]; calls. Qed.

Lemma calls_indexes R C n :
  (forall k, indexDefPrefix n `prefix_of` k -> R k) -> calls R C (indexes (W := SW) n) (fun _ => True).
Proof.
  intros HR. unfold indexes. cbv zeta. apply twin_seq; [by apply calls_prefixIter|intros it].
  pose proof calls_indexes_loop as Hloop. calls.
Qed.

Lemma calls_makeRevision R C fuel p : calls R C (makeRevision (W := SW) fuel p) (fun _ => True).
Proof. induction fuel as [|fuel IH]; cbn [makeRevision]; calls. Qed.

Lemma calls_makeID R C : calls R C (makeID (W := SW)) (fun _ => True).
Proof. unfold makeID. calls. Qed.

Lemma calls_sealDoc R C k dbk id rev json : calls R C (sealDoc (W := SW) k dbk id rev json) (fun _ => True).
Proof. unfold sealDoc. calls. Qed.

Lemma calls_makeDBRecord R C k : calls R C (makeDBRecord (W := SW) wk k) (fun _ => True).
Proof. unfold makeDBRecord, wrapDBKey. calls. Qed.
End Operations.

#[export] Hint Resolve calls_lookupKey calls_has calls_hasDB calls_databaseKey calls_documentDBKey calls_readDoc
  calls_makeRevision calls_makeID calls_sealDoc calls_makeDBRecord : calls.

(** *** The batches *)

Lemma batchKeys_app b1 b2 k : batchKeys (b1 ++ b2) k <-> batchKeys b1 k \/ batchKeys b2 k.
Proof. apply Exists_app. Qed.

Lemma batchKeys_one op k : batchKeys [op] k <-> opKeys op k.
Proof. unfold batchKeys. rewrite Exists_cons, Exists_nil. tauto. Qed.

Lemma batchKeys_map {A : Type} (f : A -> batchOp) l k : batchKeys (map f l) k <-> exists x, x ∈ l /\ opKeys (f x) k.
Proof.
  unfold batchKeys. rewrite Exists_exists. split.
  - intros (op & (x & -> & Hx)%list_elem_of_fmap & Hk). by exists x.
  - intros (x & Hx & Hk). exists (f x). split; [by apply list_elem_of_fmap_2|done].
Qed.

Lemma deletePrefix_keys x p k : x <> xff -> opKeys (deletePrefix (x :: p)) k -> x :: p `prefix_of` k.
Proof.
  intros Hx. unfold deletePrefix, opKeys. destruct (prefixEnd_is_Some x p Hx) as [hi Hp]. rewrite Hp. cbn [default].
  intros [Hlo Hhi]. apply prefixEnd_spec. rewrite Hp. unfold in_bounds. by rewrite !bool_decide_eq_true_2.
Qed.

Lemma indexData_value i v n k : indexValuePrefix n i v `prefix_of` k -> indexDataPrefix n `prefix_of` k.
Proof. unfold indexValuePrefix. rewrite appendPart_app. intros [r ->]. rewrite <- !app_assoc. by eexists. Qed.

Lemma indexData_type i t n k : indexTypePrefix n i t `prefix_of` k -> indexDataPrefix n `prefix_of` k.
Proof. unfold indexTypePrefix. rewrite appendPart_app. intros [r ->]. rewrite <- !app_assoc. by eexists. Qed.

Lemma entryKeys_doc n id values k : k ∈ entryKeys n id values -> docKeys n id k.
Proof.
  intros (i & v & Hi & ->)%elem_entryKeys. right. unfold indexKey. split; [|by eexists].
  eapply indexData_value. by eexists.
Qed.

Lemma entrySets_doc n id values k :
  batchKeys (map (fun k => BSet k []) (entryKeys n id values)) k -> docKeys n id k.
Proof. intros (k' & Hk & ->)%batchKeys_map. by eapply entryKeys_doc. Qed.

Lemma entryDeletes_doc n id values k : batchKeys (map BDelete (entryKeys n id values)) k -> docKeys n id k.
Proof. intros (k' & Hk & ->)%batchKeys_map. by eapply entryKeys_doc. Qed.

(** *** Writing documents *)

Section Documents.
Context {E : Type} `{Env E} `{Crypto}.
Notation SW := (gmap bytes bytes * E)%type.
Variables (wk : bytes) (n id : bytes).

Notation plan := [ReadDb n; ReadDocs n [id]; WriteDocs n [id]].
Notation R := (readable plan).
Notation P := (writable plan).

Lemma plan_db : R (dbKey n).
Proof. by do 2 left. Qed.

Lemma plan_defs k : indexDefPrefix n `prefix_of` k -> R k.
Proof. intros Hk. left. by right. Qed.

Lemma plan_doc : R (docKey n id).
Proof. right. by do 2 left. Qed.

Lemma plan_writes k : docKeys n id k -> P k.
Proof. intros Hk. do 2 right. by do 2 left. Qed.
#[local] Hint Resolve plan_db plan_defs plan_doc : calls.

Lemma plan_indexes C : calls R C (indexes (W := SW) n) (fun _ => True).
Proof. apply calls_indexes, plan_defs. Qed.
#[local] Hint Resolve plan_indexes : calls.

Lemma confined_createDocWithID fuel json : confined plan (createDocWithID (W := SW) wk fuel n id json).
Proof.
  unfold confined, createDocWithID. cbv zeta. apply twin_seq; [auto with calls|intros dbk].
  apply twin_seq; [calls|intros []]; [apply calls_throw|]. do 4 (apply twin_seq; [calls|intros ?]). apply twin_deferClose.
  eapply twin_bind; [apply calls_queue|intros ? ->]. eapply twin_bind; [apply calls_queueAll|intros ? ->].
  apply twin_fmap with (P := fun _ => True); [|done]. apply calls_commit.
  intros k [Hk%batchKeys_one|Hk]%batchKeys_app; apply plan_writes; [by left|by eapply entrySets_doc].
Qed.

(** What [replaceDoc] and [patchDoc] do with the document they have read. *)
Lemma calls_update {A : Type} fuel dbk current json (f : revision -> A) :
  calls R (Some P) (storeUpdate (W := SW) fuel n id dbk current json f) (fun _ => True).
Proof.
  unfold storeUpdate. do 5 (apply twin_seq; [calls|intros ?]). apply twin_deferClose.
  eapply twin_bind; [apply calls_queue|intros ? ->]. unfold changeIndexEntries.
  eapply twin_bind; [eapply twin_bind; [apply calls_queueAll|intros ? ->]; apply calls_queueAll|intros ? ->].
  apply twin_fmap with (P := fun _ => True); [|done]. apply calls_commit.
  intros k [[Hk%batchKeys_one|Hk]%batchKeys_app|Hk]%batchKeys_app; apply plan_writes;
    [by left|by eapply entryDeletes_doc|by eapply entrySets_doc].
Qed.

Lemma confined_replaceDoc fuel json m : confined plan (replaceDoc (W := SW) wk fuel n id json m).
Proof.
  unfold confined, replaceDoc. cbv zeta. do 2 (apply twin_seq; [auto with calls|intros ?]).
  destruct (negb _); [apply calls_throw|]. apply (calls_update fuel _ _ json (fun rev => rev)).
Qed.

Lemma confined_patchDoc fuel m apply_ : confined plan (patchDoc (W := SW) wk fuel n id m apply_).
Proof.
  unfold confined, patchDoc. cbv zeta. do 2 (apply twin_seq; [auto with calls|intros ?]).
  destruct (negb _); [apply calls_throw|]. apply twin_seq; [auto with calls|intros json].
  apply (calls_update fuel _ _ json (StoredDoc json)).
Qed.

Lemma confined_deleteDoc m : confined plan (deleteDoc (W := SW) wk n id m).
Proof.
  unfold confined, deleteDoc. cbv zeta. do 2 (apply twin_seq; [auto with calls|intros ?]).
  destruct (negb _); [apply calls_throw|]. do 2 (apply twin_seq; [calls|intros ?]). apply twin_deferClose.
  eapply twin_bind; [apply calls_queue|intros ? ->]. eapply twin_bind; [apply calls_queueAll|intros ? ->].
  apply calls_commit. intros k [Hk%batchKeys_one|Hk]%batchKeys_app; apply plan_writes; [by left|by eapply entryDeletes_doc].
Qed.
End Documents.

(** *** Writing databases *)

Section Databases.
Context {E : Type} `{Env E} `{Crypto}.
Notation SW := (gmap bytes bytes * E)%type.
Variables (wk : bytes) (n : bytes).

Notation plan := [WriteDb n].

Lemma plan_record : readable plan (dbKey n).
Proof. by do 2 left. Qed.

Lemma plan_database k :
  k = dbKey n \/ indexDefPrefix n `prefix_of` k \/ docsPrefix n `prefix_of` k \/ indexDataPrefix n `prefix_of` k ->
  writable plan k.
Proof. intros Hk. by left. Qed.
#[local] Hint Resolve plan_record : calls.

Lemma confined_createDB defs : confined plan (createDB (W := SW) wk n defs).
Proof.
  unfold confined, createDB. apply twin_seq; [auto with calls|intros _].
  apply twin_seq; [apply twin_onErr; auto with calls|intros exists_]. destruct exists_; [apply calls_throw|].
  apply twin_seq; [auto with calls|intros record]. apply twin_deferClose.
  eapply twin_bind; [apply calls_queue|intros ? ->]. eapply twin_bind; [apply calls_queueAll|intros ? ->].
  apply calls_commit. intros k [Hk%batchKeys_one|(def & _ & ->)%batchKeys_map]%batchKeys_app; apply plan_database.
  - by left.
  - right. left. unfold indexDefKey. rewrite appendPart_app. by eexists.
Qed.

Lemma confined_deleteDB : confined plan (deleteDB (W := SW) wk n).
Proof.
  unfold confined, deleteDB. apply twin_seq; [apply twin_onErr; auto with calls|intros exists_].
  destruct (negb exists_); [apply calls_throw|]. apply twin_deferClose.
  do 4 (eapply twin_bind; [apply calls_queue|intros ? ->]). apply calls_commit. intros k Hk. apply plan_database.
  rewrite !batchKeys_app, !batchKeys_one in Hk.
  destruct Hk as [[[[Hk%Exists_nil|Hk]|Hk]|Hk]|Hk]; [done|by left|right..].
  - right. left. unfold docsPrefix, appendKey, docPrefix in *. cbn [app] in *. by apply deletePrefix_keys.
  - right. right. rewrite indexDataPrefix_app in *. by apply deletePrefix_keys.
  - left. rewrite indexDefPrefix_app in *. by apply deletePrefix_keys.
Qed.
End Databases.

(** *** Reading *)

Section Reading.
Context {E : Type} `{Env E} `{Crypto} `{JSONPath}.
Notation SW := (gmap bytes bytes * E)%type.
Variables (wk : bytes) (n : bytes).
Implicit Types (ctx : context) (s : gmap bytes bytes) (C : option (bytes -> Prop)) (R : bytes -> Prop).

Notation plan := [ReadDb n; ViewDocs n].

Lemma view_db : readable plan (dbKey n).
Proof. by do 2 left. Qed.

Lemma view_defs k : indexDefPrefix n `prefix_of` k -> readable plan k.
Proof. intros Hk. left. by right. Qed.

Lemma view_docs k : docsPrefix n `prefix_of` k -> readable plan k.
Proof. intros Hk. right. left. by left. Qed.

Lemma view_doc id : readable plan (docKey n id).
Proof. apply view_docs. by eexists. Qed.

Lemma view_entries k : indexDataPrefix n `prefix_of` k -> readable plan k.
Proof. intros Hk. right. left. by right. Qed.
#[local] Hint Resolve view_db view_doc : calls.

Lemma calls_view_indexes C : calls (readable plan) C (indexes (W := SW) n) (fun _ => True).
Proof. eapply twin_mono; [apply calls_indexes, view_defs|done]. Qed.
#[local] Hint Resolve calls_view_indexes : calls.

Lemma calls_view_iter C : calls (readable plan) C (newIter (W := SW) (Some (docsPrefix n)) (prefixEnd (docsPrefix n))) (fun _ => True).
Proof. apply calls_prefixIter, view_docs. Qed.

Lemma twin_view_snapIter C s s' : agree (readable plan) s s' ->
  twin (readable plan) C (snapIter (W := SW) s (Some (docsPrefix n)) (prefixEnd (docsPrefix n)))
    (snapIter (W := SW) s' (Some (docsPrefix n)) (prefixEnd (docsPrefix n))) (fun _ => True).
Proof. intros Hs. apply twin_prefixSnapIter; [done|apply view_docs]. Qed.
#[local] Hint Resolve calls_view_iter twin_view_snapIter : calls.

Lemma confined_getDoc id : confined plan (getDoc (W := SW) wk n id).
Proof. unfold confined, getDoc. calls. Qed.

Lemma calls_listDocs_loop R C p l limit : forall ids, calls R C (listDocs_loop (W := SW) p l limit ids) (fun _ => True).
Proof. induction l as [|[k v] l IH]; intros ids; cbn [listDocs_loop]; calls. Qed.
#[local] Hint Resolve calls_listDocs_loop : calls.

Lemma confined_listDocs limit cursor : confined plan (listDocs (W := SW) wk n limit cursor).
Proof. unfold confined, listDocs. calls. Qed.

Lemma calls_exportDocs_loop (R : bytes -> Prop) (ctx : context) (p dbk : bytes) (yield : bytes -> M SW unit) (l : list (bytes * bytes)) :
  (forall (json : bytes) (C : option (bytes -> Prop)), calls R C (yield json) (fun _ => True)) ->
  forall (C : option (bytes -> Prop)), calls R C (exportDocs_loop ctx p dbk yield l) (fun _ => True).
Proof. intros Hy. induction l as [|[k v] l IH]; intros C; cbn [exportDocs_loop]; calls. Qed.

(** [yield] is what the caller does with a document; it does not call the store. *)
Definition quiet (yield : bytes -> M SW unit) : Prop :=
  forall (json : bytes) (R : bytes -> Prop) (C : option (bytes -> Prop)), calls R C (yield json) (fun _ => True).

Lemma confined_exportDocs (ctx : context) (yield : bytes -> M SW unit) : quiet yield -> confined plan (exportDocs wk ctx n yield).
Proof.
  intros Hy. pose proof (fun json => Hy json (readable plan)) as Hy'.
  pose proof (calls_exportDocs_loop (readable plan) ctx (docsPrefix n)) as Hloop.
  unfold confined, exportDocs. calls.
Qed.

Lemma twin_snapshotHas C s s' k : agree (readable plan) s s' -> readable plan k ->
  twin (readable plan) C (snapshotHas (W := SW) s k) (snapshotHas (W := SW) s' k) (fun _ => True).
Proof.
  intros Hs HR. unfold snapshotHas.
  apply twin_seq; [eapply twin_mono; [apply twin_catch, twin_snapGet; [exact Hs|exact HR]|done]|]. intros r. calls.
Qed.
#[local] Hint Resolve twin_snapshotHas : calls.

Lemma twin_queryDocs_loop C ctx s s' p l limit : agree (readable plan) s s' -> forall ids,
  twin (readable plan) C (queryDocs_loop (W := SW) ctx s n p l limit ids)
    (queryDocs_loop (W := SW) ctx s' n p l limit ids) (fun _ => True).
Proof. intros Hs. induction l as [|[k v] l IH]; intros ids; cbn [queryDocs_loop]; calls. Qed.
#[local] Hint Resolve twin_queryDocs_loop : calls.

Lemma confined_queryDocs ctx i e limit cursor : confined plan (queryDocsCtx (W := SW) wk ctx n i e limit cursor).
Proof.
  assert (forall s s' C, agree (readable plan) s s' ->
    twin (readable plan) C (snapIter (W := SW) s (Some (indexValuePrefix n i e)) (prefixEnd (indexValuePrefix n i e)))
      (snapIter (W := SW) s' (Some (indexValuePrefix n i e)) (prefixEnd (indexValuePrefix n i e))) (fun _ => True)) as Hiter.
  { intros s s' C Hs. apply twin_prefixSnapIter; [done|]. intros k Hk. by eapply view_entries, indexData_value. }
  unfold confined, queryDocsCtx. calls.
Qed.

Lemma twin_queryRange_loop C ctx s s' p aid l limit : agree (readable plan) s s' -> forall past ids values,
  twin (readable plan) C (queryRange_loop (W := SW) ctx s n p aid l limit past ids values)
    (queryRange_loop (W := SW) ctx s' n p aid l limit past ids values) (fun _ => True).
Proof. intros Hs. induction l as [|[k v] l IH]; intros past ids values; cbn [queryRange_loop]; calls. Qed.
#[local] Hint Resolve twin_queryRange_loop : calls.

(** The bounds of a range keep to the values of the type. *)
Lemma range_entries i op e lo hi k :
  opValid op = true -> beqb op cmpEq = false -> validIndexValue e = true ->
  rangeBounds (indexTypePrefix n i (at_ e 0)) (indexValuePrefix n i e) op = (lo, hi) -> in_bounds lo hi k = true ->
  readable plan k.
Proof.
  intros Hop Hne He Hb Hk. destruct e as [|t e]; [discriminate He|]. change (at_ (t :: e) 0) with t in Hb.
  assert (indexTypePrefix n i t = x04 :: appendPart [] n ++ appendPart [] i ++ [t]) as ET.
  { unfold indexTypePrefix. rewrite appendPart_app, indexDataPrefix_app. by rewrite <- !app_assoc. }
  assert (indexValuePrefix n i (t :: e) = x04 :: (appendPart [] n ++ appendPart [] i ++ [t]) ++ e) as EV.
  { unfold indexValuePrefix. rewrite appendPart_app, indexDataPrefix_app. by rewrite <- !app_assoc. }
  pose proof (rangeBounds_spec x04 (appendPart [] n ++ appendPart [] i ++ [t]) e op k ltac:(done) Hop Hne) as Hspec.
  rewrite ET, EV in Hb. rewrite Hb in Hspec. destruct Hspec as [Hspec _]. destruct (Hspec Hk) as [Hp _].
  apply view_entries, (indexData_type i t). by rewrite ET.
Qed.

Lemma confined_queryRangePage ctx i op e limit av aid :
  confined plan (queryRangePage (W := SW) wk ctx n i op e limit av aid).
Proof.
  unfold confined, queryRangePage. apply twin_seq; [apply twin_onErr; auto with calls|intros exists_].
  destruct (negb exists_); [apply calls_throw|]. apply twin_seq; [auto with calls|intros defs].
  destruct (findIndex defs i); [|apply calls_throw].
  destruct (negb (opValid op) || _ || _ || _) eqn:Hv; [apply calls_throw|].
  rewrite !orb_false_iff, !negb_false_iff in Hv. destruct Hv as [[[Hop Hne] He] _].
  destruct (_ && _); [apply calls_throw|]. cbv zeta. destruct (rangeBounds _ _ op) as [lo hi] eqn:Hb.
  assert (forall s s' C, agree (readable plan) s s' ->
    twin (readable plan) C (snapIter (W := SW) s lo hi) (snapIter (W := SW) s' lo hi) (fun _ => True)) as Hiter.
  { intros s s' C Hs. apply twin_snapIter; [done|]. intros k. by apply (range_entries i op e). }
  calls.
Qed.

Lemma confined_planPathQuery raw : confined plan (planPathQuery (W := SW) wk n raw).
Proof. unfold confined, planPathQuery. calls. Qed.

Lemma calls_checkNodes R C fuel ctx : forall stack work limit,
  calls R C (checkNodes_loop (W := SW) fuel ctx stack work limit) (fun _ => True).
Proof. induction fuel as [|fuel IH]; intros stack work limit; cbn [checkNodes_loop]; calls. Qed.

Lemma calls_pathMatches R C ctx path root op e limit :
  calls R C (pathMatches (W := SW) ctx path root op e limit) (fun _ => True).
Proof. pose proof calls_checkNodes as Hn. unfold pathMatches, checkQueryNodes. calls. Qed.

Lemma calls_queryPath_loop R C ctx dbk p path op e limit maxWork l : forall work ids lastID,
  calls R C (queryPath_loop (W := SW) ctx dbk p path op e limit maxWork l work ids lastID) (fun _ => True).
Proof.
  pose proof calls_pathMatches as Hm. induction l as [|[k v] l IH]; intros work ids lastID; cbn [queryPath_loop]; calls.
Qed.
#[local] Hint Resolve calls_queryPath_loop : calls.

Lemma confined_queryPathDocs ctx path op value limit maxWork aid :
  confined plan (queryPathDocs (W := SW) wk ctx n path op value limit maxWork aid).
Proof. unfold confined, queryPathDocs. calls. Qed.
End Reading.

(** *** Importing *)

(** An import that has drawn its IDs, and the revisions of its documents: what is left
    to do for [importDocs] when the draws before the last met a document. *)
Section Importing.
Context {W : Type} `{Host W} `{Crypto}.
Variable wk : bytes.

Definition importDrawn (ctx : context) (database dbk : bytes) (defs : list indexDef) (documents : list bytes)
    (maxBatchBytes : Z) (ids : list (bytes * revision)) : M W (list bytes) :=
  deferClose (
    b ← importDocs_loop ctx database dbk defs maxBatchBytes 1 (zip documents ids) [];
    _ ← ctxErr ctx;
    _ ← commit b;
    mret (map fst ids)).

Lemma importDocs_drawn fuel ctx database documents maxBatchBytes :
  importDocs wk fuel ctx database documents maxBatchBytes =
  (dbk ← databaseKey wk database;
   defs ← indexes database;
   ids ← chooseImportIDs fuel fuel database (length documents);
   importDrawn ctx database dbk defs documents maxBatchBytes ids).
Proof. reflexivity. Qed.

Definition importWith (ctx : context) (database : bytes) (documents : list bytes) (maxBatchBytes : Z)
    (ids : list (bytes * revision)) : M W (list bytes) :=
  dbk ← databaseKey wk database;
  defs ← indexes database;
  collision ← hasAnyDoc database (map fst ids);
  if collision : bool then throw errDocExists else importDrawn ctx database dbk defs documents maxBatchBytes ids.
End Importing.

Section Imports.
Context {E : Type} `{Env E} `{Crypto}.
Notation SW := (gmap bytes bytes * E)%type.
Variables (wk n : bytes) (ids : list (bytes * revision)).

Notation plan := [ReadDb n; ReadDocs n (map fst ids); WriteDocs n (map fst ids)].

Lemma import_doc id : id ∈ map fst ids -> readable plan (docKey n id).
Proof. intros Hid. right. left. apply Exists_exists. by exists id. Qed.

Lemma import_writes id k : id ∈ map fst ids -> docKeys n id k -> writable plan k.
Proof. intros Hid Hk. do 2 right. left. apply Exists_exists. by exists id. Qed.

Lemma calls_hasAnyDoc (R : bytes -> Prop) (C : option (bytes -> Prop)) l :
  (forall id, id ∈ l -> R (docKey n id)) -> calls R C (hasAnyDoc (W := SW) n l) (fun _ => True).
Proof.
  induction l as [|id l IH]; intros HR; cbn [hasAnyDoc]; [by apply calls_ret|].
  apply twin_seq; [apply twin_onErr, calls_has, HR, list_elem_of_here|]. intros []; [by apply calls_ret|].
  apply IH. intros id' Hid. by apply HR, list_elem_of_further.
Qed.

Lemma calls_importDocs_loop (C : option (bytes -> Prop)) ctx dbk defs max : forall (l : list (bytes * (bytes * revision))) line b,
  Forall (fun x => x.2.1 ∈ map fst ids) l -> (forall k, batchKeys b k -> writable plan k) ->
  calls (readable plan) C (importDocs_loop (W := SW) ctx n dbk defs max line l b)
    (fun b' => forall k, batchKeys b' k -> writable plan k).
Proof.
  induction l as [|[document [id rev]] l IH]; intros line b Hl Hb; cbn [importDocs_loop]; [by apply calls_ret|].
  apply Forall_cons in Hl as [Hid Hl]. cbn [fst snd] in Hid. cbv zeta. do 3 (apply twin_seq; [calls|intros ?]).
  eapply twin_bind; [apply calls_queue|intros ? ->]. eapply twin_bind; [apply calls_queueAll|intros ? ->].
  destruct (max <? _); [apply calls_throw|]. apply IH; [done|].
  intros k [[Hk|Hk%batchKeys_one]%batchKeys_app|Hk]%batchKeys_app; [by apply Hb|..];
    apply (import_writes id); try done; [by left|by eapply entrySets_doc].
Qed.

Lemma zip_ids {A : Type} (l : list A) : Forall (fun x => x.2.1 ∈ map fst ids) (zip l ids).
Proof.
  apply Forall_forall. intros [x [id rev]] Hin%elem_of_zip_r. apply list_elem_of_fmap. by exists (id, rev).
Qed.

Lemma confined_importWith ctx documents max : confined plan (importWith (W := SW) wk ctx n documents max ids).
Proof.
  unfold confined, importWith. apply twin_seq; [apply calls_databaseKey; by do 2 left|intros dbk].
  apply twin_seq; [apply calls_indexes; intros k Hk; left; by right|intros defs].
  apply twin_seq; [apply calls_hasAnyDoc, import_doc|intros []]; [apply calls_throw|]. apply twin_deferClose.
  eapply twin_bind; [apply calls_importDocs_loop; [apply zip_ids|by intros k ?%Exists_nil]|intros b Hb].
  apply twin_seq; [calls|intros _]. apply twin_fmap with (P := fun _ => True); [|done]. by apply calls_commit.
Qed.
End Imports.
