(* ===== verification/Concurrent.v ===== *)
(** * Concurrent operations on the store

    [Serial] says that runs under the locks are serializable for accesses that commute.
    Here the accesses are those of the code: each thread runs an operation of the store,
    which sees what its accesses have read when they were made and changes the store at
    its last one.  The keys of accesses that do not depend on each other are apart, so
    the threads end with the answers and the contents of the same operations run one
    after another. *)

From S2P Require Import Prelude GoErrors Codec Text Validation Keys Json IndexValue Host Crypto Store Range.
From S2P Require Import Cursor Query Locks Serial Shared Footprint.
From stdpp Require Import relations.

#[local] Open Scope Z_scope.

(** ** The operations *)

Inductive answer :=
  | NoAnswer
  | RevisionAnswer (rev : revision)
  | DocAnswer (doc : storedDoc)
  | IDsAnswer (ids : list bytes) (more : bool)
  | RangeAnswer (page : indexPage)
  | PathAnswer (page : pathPage).

Section Operations.
Context {E : Type} `{Env E} `{CR : Crypto} `{JP : JSONPath}.
Notation SW := (gmap bytes bytes * E)%type.

Inductive storeOp :=
  | OpCreateDB (name : bytes) (defs : list indexDef)
  | OpDeleteDB (name : bytes)
  | OpCreateDoc (fuel : nat) (database id json : bytes)
  | OpReplaceDoc (fuel : nat) (database id json : bytes) (match_ : matchCond)
  | OpPatchDoc (fuel : nat) (database id : bytes) (match_ : matchCond) (apply : bytes -> res bytes)
  | OpDeleteDoc (database id : bytes) (match_ : matchCond)
  | OpImportDocs (ctx : context) (database : bytes) (documents : list bytes) (maxBatchBytes : Z)
      (taken : list (list bytes)) (ids : list (bytes * revision))
  | OpGetDoc (database id : bytes)
  | OpListDocs (database : bytes) (limit : Z) (cursor : bytes)
  | OpExportDocs (ctx : context) (database : bytes) (yield : bytes -> M SW unit)
  | OpQueryDocs (ctx : context) (database index encoded : bytes) (limit : Z) (cursor : bytes)
  | OpQueryRange (ctx : context) (database index : bytes) (op : cmpOp) (encoded : bytes) (limit : Z)
      (afterValue afterID : bytes)
  | OpQueryPath (ctx : context) (database : bytes) (path : jpath) (op : cmpOp) (value : json)
      (limit maxWork : Z) (afterID : bytes).

Definition planOf (o : storeOp) : call :=
  match o with
  | OpCreateDB n _ | OpDeleteDB n => CallWriteDb n
  | OpCreateDoc _ n id _ | OpReplaceDoc _ n id _ _ | OpPatchDoc _ n id _ _ | OpDeleteDoc n id _ => CallWriteDoc n id
  | OpImportDocs _ n _ _ taken ids => CallImport n taken (map fst ids)
  | OpGetDoc n _ | OpListDocs n _ _ | OpExportDocs _ n _ | OpQueryDocs _ n _ _ _ _ | OpQueryRange _ n _ _ _ _ _ _
  | OpQueryPath _ n _ _ _ _ _ _ => CallReadDb n
  end.

Definition codeOf (wk : bytes) (o : storeOp) : M SW answer :=
  match o with
  | OpCreateDB n defs => _ ← createDB wk n defs; mret NoAnswer
  | OpDeleteDB n => _ ← deleteDB wk n; mret NoAnswer
  | OpCreateDoc fuel n id json => rev ← createDocWithID wk fuel n id json; mret (RevisionAnswer rev)
  | OpReplaceDoc fuel n id json m => rev ← replaceDoc wk fuel n id json m; mret (RevisionAnswer rev)
  | OpPatchDoc fuel n id m apply => doc ← patchDoc wk fuel n id m apply; mret (DocAnswer doc)
  | OpDeleteDoc n id m => _ ← deleteDoc wk n id m; mret NoAnswer
  | OpImportDocs ctx n documents max _ ids => l ← importWith wk ctx n documents max ids; mret (IDsAnswer l false)
  | OpGetDoc n id => doc ← getDoc wk n id; mret (DocAnswer doc)
  | OpListDocs n limit cursor => p ← listDocs wk n limit cursor; mret (IDsAnswer p.1 p.2)
  | OpExportDocs ctx n yield => _ ← exportDocs wk ctx n yield; mret NoAnswer
  | OpQueryDocs ctx n i e limit cursor => p ← queryDocsCtx wk ctx n i e limit cursor; mret (IDsAnswer p.1 p.2)
  | OpQueryRange ctx n i op e limit av aid => p ← queryRangePage wk ctx n i op e limit av aid; mret (RangeAnswer p)
  | OpQueryPath ctx n path op v limit max aid => p ← queryPathDocs wk ctx n path op v limit max aid; mret (PathAnswer p)
  end.

(** What an export does with a document does not call the store. *)
Definition quietOp (o : storeOp) : Prop := match o with OpExportDocs _ _ yield => quiet yield | _ => True end.

(** The names and IDs are those that handlers let through. *)
Definition validOp (o : storeOp) : Prop :=
  quietOp o /\
  match planOf o with
  | CallWriteDb n | CallReadDb n => validName n
  | CallWriteDoc n id => validName n /\ validID id
  | CallImport n taken ids => validName n /\ Forall (Forall validID) taken /\ Forall validID ids
  end.

(** A plan that no error cuts short. *)
Definition whole : nat := 3.

Definition isProbe (x : access) : bool := match x with ProbeDocs _ _ => true | _ => false end.

(** The accesses that matter to what the operation does: an import forgets the draws
    that met a document. *)
Definition kept (c : call) : list access := filter (fun x => isProbe x = false) (accessesOf (lockPlan (c, whole))).

Lemma confined_answer {A : Type} (l : list access) (m : M SW A) (f : A -> answer) : confined l m -> confined l (x ← m; mret (f x)).
Proof. intros Hm. by apply twin_fmap with (P := fun _ => True). Qed.

Lemma accessesOf_cons a l :
  accessesOf (a :: l) = match a with Access x => x :: accessesOf l | _ => accessesOf l end.
Proof. by destruct a. Qed.

Lemma accessesOf_app l1 l2 : accessesOf (l1 ++ l2) = accessesOf l1 ++ accessesOf l2.
Proof. apply omap_app. Qed.

Lemma accessesOf_lockDocs l : accessesOf (lockDocs l) = [].
Proof. unfold lockDocs. by induction l. Qed.

Lemma accessesOf_round n body ids : accessesOf (importRound n body ids) = accessesOf body.
Proof.
  unfold importRound. pose proof (accessesOf_unlockDocs (stripesOf n ids) []) as Hu. rewrite app_nil_r in Hu.
  by rewrite !accessesOf_app, accessesOf_lockDocs, Hu, app_nil_r.
Qed.

Lemma accessesOf_import n taken ids :
  accessesOf (lockPlan (CallImport n taken ids, whole)) =
  ReadDb n :: map (ProbeDocs n) taken ++ [ReadDocs n ids; WriteDocs n ids].
Proof.
  unfold lockPlan, importPlan, locked. cbn [fst snd app]. rewrite !accessesOf_cons, <- app_assoc, !accessesOf_app, accessesOf_round.
  f_equal. cbn. f_equal.
  induction taken as [|draw taken IH]; [done|]. cbn [map concat]. rewrite accessesOf_app, accessesOf_round, IH. done.
Qed.

Lemma kept_import n taken ids : kept (CallImport n taken ids) = [ReadDb n; ReadDocs n ids; WriteDocs n ids].
Proof.
  unfold kept. rewrite accessesOf_import, filter_cons_True by done. f_equal. rewrite filter_app.
  replace (filter _ (map (ProbeDocs n) taken)) with (@nil access); [done|].
  induction taken as [|draw taken IH]; [done|]. cbn [map]. by rewrite filter_cons_False.
Qed.

(** The code of every operation touches the keys of its accesses. *)
Lemma confined_codeOf wk o : quietOp o -> confined (kept (planOf o)) (codeOf wk o).
Proof using.
  intros Hq. destruct o; cbn [planOf codeOf]; apply confined_answer; try rewrite kept_import;
    [apply confined_createDB|apply confined_deleteDB|apply confined_createDocWithID|apply confined_replaceDoc
    |apply confined_patchDoc|apply confined_deleteDoc|apply confined_importWith|apply confined_getDoc|apply confined_listDocs
    |by apply confined_exportDocs|apply confined_queryDocs|apply confined_queryRangePage|apply confined_queryPathDocs].
Qed.
End Operations.

Arguments storeOp E {JP}.

(** ** Keys apart *)

(** All the keys of a database. *)
Notation keysOf n := (writeKeys (WriteDb n)).

Definition validAccess (x : access) : Prop := validName (accessDb x) /\ Forall validID (lockedIDs x).

Lemma docKeys_of n id k : docKeys n id k -> keysOf n k.
Proof. intros [->|[Hk _]]; [do 2 right; left; by eexists|by do 3 right]. Qed.

Lemma accessKeys_of x k : readKeys x k \/ writeKeys x k -> keysOf (accessDb x) k.
Proof.
  destruct x as [n|n|n ids|n ids|n ids|n]; cbn [readKeys accessDb]; intros [Hk|Hk]; try done.
  - destruct Hk; [by left|by right; left].
  - destruct Hk; [by left|by right; left].
  - apply Exists_exists in Hk as (id & _ & ->). apply (docKeys_of n id). by left.
  - apply Exists_exists in Hk as (id & _ & ->). apply (docKeys_of n id). by left.
  - apply Exists_exists in Hk as (id & _ & Hk). by eapply docKeys_of.
  - destruct Hk; [by do 2 right; left|by do 3 right].
Qed.

(** A key belongs to one database. *)
Lemma keysOf_inj n n' k : validName n -> validName n' -> keysOf n k -> keysOf n' k -> n = n'.
Proof.
  intros Hn Hn'. pose proof (validName_slice n Hn) as Hs. pose proof (validName_slice n' Hn') as Hs'.
  apply validName_no_nul in Hn, Hn'. unfold writeKeys, dbKey, docsPrefix, appendKey, dbPrefix, docPrefix.
  rewrite !indexDefPrefix_app, !indexDataPrefix_app. cbn [app].
  intros [->|[[r ->]|[[r ->]|[r ->]]]] [E|[[r' E]|[[r' E]|[r' E]]]]; try discriminate E; injection E as E; try done.
  - by apply appendPart_inj in E as [-> _].
  - rewrite <- !app_assoc in E. by apply app_no_sep_inj in E as [-> _].
  - by apply appendPart_inj in E as [-> _].
Qed.

Lemma suffix_same (l1 l2 k : bytes) : length l1 = length l2 -> l1 `suffix_of` k -> l2 `suffix_of` k -> l1 = l2.
Proof. intros Hl [r ->] [r' E]. by apply app_inj_2 in E as [_ ->]. Qed.

(** A key belongs to one document. *)
Lemma docKeys_inj n id id' k : validName n -> validID id -> validID id' -> docKeys n id k -> docKeys n id' k -> id = id'.
Proof.
  intros Hn%validName_no_nul Hid Hid'. pose proof (validID_length id Hid) as Hl. pose proof (validID_length id' Hid') as Hl'.
  rewrite <- Hl' in Hl. unfold docKeys. rewrite indexDataPrefix_app. intros [->|[Hp Hk]] [E|[Hp' Hk']].
  - by apply docKey_inj in E as [_ ->].
  - by destruct Hp' as [? [=]].
  - subst k. by destruct Hp as [? [=]].
  - by eapply suffix_same.
Qed.

(** What an access writes, those that do not depend on it neither read nor write. *)
Lemma independent_keys x y k :
  validAccess x -> validAccess y -> ~ depends x y -> isProbe y = false ->
  writeKeys x k -> ~ (readKeys y k \/ writeKeys y k).
Proof.
  intros [Hx Hxs] [Hy Hys] Hd Hp Hk Hk'. rewrite Forall_forall in Hxs, Hys.
  assert (accessDb x = accessDb y) as E.
  { apply (keysOf_inj _ _ k); [done|done|apply accessKeys_of; by right|by apply accessKeys_of]. }
  destruct Hd. split; [done|]. destruct x as [n|n|n ids|n ids|n ids|n]; try done.
  destruct y as [n'|n'|n' ids'|n' ids'|n' ids'|n']; cbn [accessDb lockedIDs] in *; subst n'; try done.
  - apply Exists_exists in Hk as (id & _ & Hk). exfalso. destruct Hk' as [Hk'|[]]. unfold docKeys in Hk. cbn [readKeys] in Hk'.
    rewrite indexDefPrefix_app, indexDataPrefix_app in *. destruct Hk as [->|[[? ->] _]], Hk' as [[=]|[? [=]]].
  - apply Exists_exists in Hk as (id & Hid & Hk). destruct Hk' as [Hk'|[]]. apply Exists_exists in Hk' as (id' & Hid' & ->).
    exists id. split; [done|]. replace id with id'; [done|].
    apply (docKeys_inj n id' id (docKey n id')); [done|by auto|by auto|by left|done].
  - apply Exists_exists in Hk as (id & Hid & Hk). destruct Hk' as [[]|Hk']. apply Exists_exists in Hk' as (id' & Hid' & Hk').
    exists id. split; [done|]. by rewrite (docKeys_inj n id id' k) by auto.
Qed.

(** ** Running the operations *)

(** [c], with the keys in [P] as they are in [c']. *)
Definition mix (P : bytes -> Prop) `{!forall k, Decision (P k)} (c c' : gmap bytes bytes) : gmap bytes bytes :=
  filter (fun kv => ~ P kv.1) c ∪ filter (fun kv => P kv.1) c'.

Definition touched (x : access) (k : bytes) : Prop := readKeys x k \/ writeKeys x k.

#[global] Instance touched_dec x k : Decision (touched x k).
Proof. unfold touched. apply _. Defined.

(** What an access finds. *)
Definition sees (x : access) (c : gmap bytes bytes) : gmap bytes bytes := filter (fun kv => touched x kv.1) c.

(** The contents as they were seen. *)
Definition recall (seen : list (access * gmap bytes bytes)) (c : gmap bytes bytes) : gmap bytes bytes :=
  fold_right (fun ag c => mix (readKeys ag.1) c ag.2) c seen.

Lemma lookup_mix (P : bytes -> Prop) `{!forall k, Decision (P k)} c c' k :
  mix P c c' !! k = if decide (P k) then c' !! k else c !! k.
Proof.
  unfold mix. destruct (decide (P k)) as [HP|HP].
  - rewrite lookup_union_r by (apply map_lookup_filter_None; right; intros v _ Hn; by apply Hn).
    destruct (c' !! k) as [v|] eqn:Hv; [by apply map_lookup_filter_Some|]. apply map_lookup_filter_None. by left.
  - rewrite lookup_union_l by (apply map_lookup_filter_None; right; intros v _ Hn; by apply HP).
    destruct (c !! k) as [v|] eqn:Hv; [by apply map_lookup_filter_Some|]. apply map_lookup_filter_None. by left.
Qed.

Lemma lookup_sees x c k : sees x c !! k = if decide (touched x k) then c !! k else None.
Proof.
  unfold sees. destruct (decide (touched x k)) as [HP|HP].
  - destruct (c !! k) as [v|] eqn:Hv; [by apply map_lookup_filter_Some|]. apply map_lookup_filter_None. by left.
  - apply map_lookup_filter_None. right. intros v _ Hn. by apply HP.
Qed.

Section Running.
Context {E : Type} `{Env E} `{CR : Crypto} `{JP : JSONPath}.
Notation SW := (gmap bytes bytes * E)%type.

(** An operation in its thread: what it has seen, its environment, and the answer it
    has given. *)
Record opState := OpState {
  s_seen : list (access * gmap bytes bytes);
  s_env : E;
  s_answer : option (res answer);
}.

(** An access, from what it finds to what the keys it writes are then.  The code runs at
    the last access, on what the operation has seen. *)
Definition act (m : M SW answer) (x : access) (now : gmap bytes bytes) (s : opState) : gmap bytes bytes * opState :=
  if final x then
    let '(r, (c, e)) := m (recall (s_seen s) now, s_env s) in
    (c, OpState (s_seen s) e (Some r))
  else (now, OpState ((x, now) :: s_seen s) (s_env s) (s_answer s)).

Definition shared : Type := gmap bytes bytes * gmap nat opState.

Variables (wk : bytes) (ops : list (storeOp E)).

Definition exec (i : nat) (x : access) (st : shared) : shared :=
  match ops !! i, st.2 !! i with
  | Some o, Some s =>
      if isProbe x then st
      else
        let '(c, s') := act (codeOf wk o) x (sees x st.1) s in
        (mix (writeKeys x) st.1 c, <[i := s']> st.2)
  | _, _ => st
  end.

(** The states before their first access. *)
Definition opStates (envs : list E) : gmap nat opState := map_seq 0 (map (fun e => OpState [] e None) envs).

Definition answerOf (states : gmap nat opState) (i : nat) : option (res answer) := states !! i ≫= s_answer.

(** The operations one after another. *)
Fixpoint inTurn (order : list nat) (envs : list E) (c : gmap bytes bytes) : list (nat * res answer) * gmap bytes bytes :=
  match order with
  | [] => ([], c)
  | i :: order' =>
      match ops !! i, envs !! i with
      | Some o, Some e =>
          let '(r, (c1, _)) := codeOf wk o (c, e) in
          let '(answers, c2) := inTurn order' envs c1 in
          ((i, r) :: answers, c2)
      | _, _ => inTurn order' envs c
      end
  end.

(** *** Accesses commute *)

Lemma sees_mix x y c c' :
  (forall k, writeKeys x k -> ~ touched y k) -> sees y (mix (writeKeys x) c c') = sees y c.
Proof.
  intros Hd. apply map_eq. intros k. rewrite !lookup_sees. destruct (decide (touched y k)) as [Hk|]; [|done].
  rewrite lookup_mix, decide_False; [done|]. intros Hw. by apply (Hd k).
Qed.

Lemma mix_mix x y c cx cy :
  (forall k, writeKeys x k -> ~ writeKeys y k) ->
  mix (writeKeys y) (mix (writeKeys x) c cx) cy = mix (writeKeys x) (mix (writeKeys y) c cy) cx.
Proof.
  intros Hd. apply map_eq. intros k. rewrite !lookup_mix. destruct (decide (writeKeys y k)) as [Hy|Hy]; [|done].
  destruct (decide (writeKeys x k)) as [Hx|]; [|done]. by destruct (Hd k).
Qed.

Lemma exec_probe i x st : isProbe x = true -> exec i x st = st.
Proof. intros Hx. unfold exec. rewrite Hx. by destruct (ops !! i), (st.2 !! i). Qed.

Lemma exec_none i x st : ops !! i = None \/ st.2 !! i = None -> exec i x st = st.
Proof. unfold exec. intros [E'|E']; rewrite E'; by destruct (ops !! i), (st.2 !! i). Qed.

Lemma exec_act i x o s c L : ops !! i = Some o -> L !! i = Some s -> isProbe x = false ->
  exec i x (c, L) = let '(c', s') := act (codeOf wk o) x (sees x c) s in (mix (writeKeys x) c c', <[i := s']> L).
Proof. intros Ho Hs Hx. unfold exec. cbn [fst snd]. by rewrite Ho, Hs, Hx. Qed.

Lemma exec_others i x j st : i <> j -> (exec i x st).2 !! j = st.2 !! j.
Proof.
  intros Hij. unfold exec. destruct (ops !! i), (st.2 !! i), (isProbe x); try done.
  destruct (act _ _ _ _). cbn [snd]. by apply lookup_insert_ne.
Qed.

Lemma depends_sym x y : depends x y -> depends y x.
Proof.
  intros [Hdb Hd]. split; [done|]. destruct x, y; try done; destruct Hd as (id & ? & ?); by exists id.
Qed.

Lemma exec_commuting : commutingOn exec validAccess.
Proof.
  intros i j x y [c L] Hij Hx Hy Hd.
  destruct (isProbe x) eqn:Px; [by rewrite !(exec_probe i x)|]. destruct (isProbe y) eqn:Py; [by rewrite !(exec_probe j y)|].
  destruct (ops !! i) as [oi|] eqn:Hoi; [|by rewrite !(exec_none i x) by auto].
  destruct (ops !! j) as [oj|] eqn:Hoj; [|by rewrite !(exec_none j y) by auto].
  destruct (L !! i) as [si|] eqn:Hi; [|by rewrite !(exec_none i x) by (right; rewrite ?exec_others by done; done)].
  destruct (L !! j) as [sj|] eqn:Hj; [|by rewrite !(exec_none j y) by (right; rewrite ?exec_others by done; done)].
  assert (forall k, writeKeys x k -> ~ touched y k) as Hxy by (intros k; by apply independent_keys).
  assert (forall k, writeKeys y k -> ~ touched x k) as Hyx.
  { intros k. apply independent_keys; [done|done| |done]. by intros ?%depends_sym. }
  rewrite (exec_act i x oi si), (exec_act j y oj sj) by done.
  destruct (act _ x _ si) as [cx si'] eqn:Ex. destruct (act _ y _ sj) as [cy sj'] eqn:Ey.
  rewrite (exec_act j y oj sj), (exec_act i x oi si) by (done || by rewrite lookup_insert_ne).
  rewrite !sees_mix by done. rewrite Ex, Ey, (insert_insert_ne L i j) by done. f_equal.
  apply mix_mix. intros k Hk Hk'. apply (Hxy k Hk). by right.
Qed.

(** *** An operation on its own *)

Lemma applyOp_lookup c c' op k : c !! k = c' !! k -> applyOp c op !! k = applyOp c' op !! k.
Proof.
  intros Hk. destruct op as [k' v|k'|lo hi]; cbn [applyOp].
  - destruct (decide (k' = k)) as [->|]; [by rewrite !lookup_insert_eq|by rewrite !lookup_insert_ne].
  - destruct (decide (k' = k)) as [->|]; [by rewrite !lookup_delete_eq|by rewrite !lookup_delete_ne].
  - apply option_eq. intros v. by rewrite !map_lookup_filter_Some, Hk.
Qed.

Lemma applyBatch_lookup c c' b k : c !! k = c' !! k -> applyBatch c b !! k = applyBatch c' b !! k.
Proof.
  unfold applyBatch. revert c c'. induction b as [|op b IH]; intros c c' Hk; [done|]. apply IH. by apply applyOp_lookup.
Qed.

Lemma applyBatch_other c b k : ~ batchKeys b k -> applyBatch c b !! k = c !! k.
Proof.
  unfold applyBatch, batchKeys. revert c. induction b as [|op b IH]; intros c; [done|]. rewrite Exists_cons. intros Hk.
  cbn [fold_left]. rewrite IH by tauto. destruct op as [k' v|k'|lo hi]; cbn [applyOp opKeys] in *.
  - apply lookup_insert_ne. naive_solver.
  - apply lookup_delete_ne. naive_solver.
  - apply option_eq. intros v. rewrite map_lookup_filter_Some. cbn. tauto.
Qed.

Lemma mix_sees x c : mix (writeKeys x) c (sees x c) = c.
Proof.
  apply map_eq. intros k. rewrite lookup_mix, lookup_sees. destruct (decide (writeKeys x k)); [|done].
  rewrite decide_True; [done|by right].
Qed.

(** What was seen of contents is as it is there. *)
Lemma recall_lookup c base l k :
  (readable l k \/ base !! k = c !! k) -> recall (map (fun x => (x, sees x c)) l) base !! k = c !! k.
Proof.
  unfold readable. induction l as [|x l IH]; cbn [map recall foldr]; rewrite ?Exists_cons, ?Exists_nil; [by intros [[]|]|].
  intros Hk. rewrite lookup_mix. cbn [fst snd]. destruct (decide (readKeys x k)) as [Hx|Hx].
  - rewrite lookup_sees, decide_True; [done|by left].
  - apply IH. tauto.
Qed.

(** The operation, from what it has seen, is the operation on the contents. *)
Lemma act_final o c e l x s :
  confined (l ++ [x]) (codeOf wk o) -> Forall (fun y => final y = false) l -> final x = true ->
  s_seen s = map (fun y => (y, sees y c)) (reverse l) -> s_env s = e ->
  let '(c', s') := act (codeOf wk o) x (sees x c) s in
  mix (writeKeys x) c c' = (codeOf wk o (c, e)).2.1 /\ s_answer s' = Some (codeOf wk o (c, e)).1.
Proof.
  intros Hm Hl Hx Hseen <-. unfold act. rewrite Hx, Hseen. set (base := recall _ _).
  assert (forall k, readable l k \/ touched x k -> base !! k = c !! k) as Hbase.
  { intros k Hk. apply recall_lookup. destruct Hk as [Hk|Hk].
    - left. unfold readable. by rewrite reverse_Permutation.
    - right. by rewrite lookup_sees, decide_True. }
  destruct (Hm base c (s_env s)) as (r & b & e' & -> & -> & Hb & _).
  { intros k [Hk|Hk]%Exists_app; apply Hbase; [by left|]. apply Exists_cons in Hk as [Hk|Hk%Exists_nil]; [|done]. right. by left. }
  cbn [fst snd s_answer]. split; [|done]. apply map_eq. intros k. rewrite lookup_mix.
  destruct (decide (writeKeys x k)) as [Hk|Hk].
  - apply applyBatch_lookup, Hbase. right. by right.
  - symmetry. apply applyBatch_other. intros Hbk. destruct Hb as [->|(P & [= <-] & HP)]; [by apply Exists_nil in Hbk|].
    apply HP, Exists_app in Hbk. destruct Hbk as [Hbk|Hbk].
    + apply Exists_exists in Hbk as (y & Hy & Hw). rewrite Forall_forall in Hl. specialize (Hl y Hy). by destruct y.
    + by apply Exists_cons in Hbk as [?|?%Exists_nil].
Qed.

Lemma effect_app tr1 tr2 (st : shared) : effect exec (tr1 ++ tr2) st = effect exec tr2 (effect exec tr1 st).
Proof. apply fold_left_app. Qed.

Lemma effect_kept i l (st : shared) :
  effect exec (map (pair i) l) st = effect exec (map (pair i) (filter (fun x => isProbe x = false) l)) st.
Proof.
  unfold effect. revert st. induction l as [|x l IH]; intros st; [done|]. rewrite filter_cons. cbn [map fold_left fst snd].
  destruct (isProbe x) eqn:Hx; [rewrite decide_False by done|rewrite decide_True by done; apply IH].
  by rewrite exec_probe.
Qed.

(** Accesses before the last one only look. *)
Lemma effect_looks i o l c L s :
  ops !! i = Some o -> Forall (fun x => final x = false /\ isProbe x = false) l -> L !! i = Some s ->
  effect exec (map (pair i) l) (c, L) =
  (c, <[i := OpState (map (fun x => (x, sees x c)) (reverse l) ++ s_seen s) (s_env s) (s_answer s)]> L).
Proof.
  intros Ho Hl. revert L s. induction Hl as [|x l [Hf Hp] _ IH]; intros L s Hi.
  - cbn. destruct s as [seen env a]. by rewrite insert_id.
  - unfold effect in *. cbn [map fold_left fst snd]. rewrite (exec_act i x o s) by done. unfold act. rewrite Hf, mix_sees.
    rewrite (IH _ (OpState ((x, sees x c) :: s_seen s) (s_env s) (s_answer s))) by (by rewrite lookup_insert_eq).
    rewrite insert_insert_eq. do 3 f_equal. by rewrite reverse_cons, map_app, <- app_assoc.
Qed.

Lemma kept_shape (o : storeOp E) : exists l x,
  kept (planOf o) = l ++ [x] /\ Forall (fun y => final y = false) l /\ final x = true /\ Forall (fun y => isProbe y = false) (l ++ [x]).
Proof.
  destruct o; cbn [planOf]; rewrite ?kept_import;
    first [by exists [], (WriteDb name); repeat constructor
          |by exists [ReadDb database], (ViewDocs database); repeat constructor
          |by eexists [_; _], _; split_and!; [reflexivity|repeat constructor..]].
Qed.

Notation plans := (map (fun o => (planOf o, whole)) ops).

(** An operation whose accesses follow one another does what its code does. *)
Lemma effect_block i o c L e :
  ops !! i = Some o -> quietOp o -> L !! i = Some (OpState [] e None) ->
  exists s, effect exec (Serial.block plans i) (c, L) = ((codeOf wk o (c, e)).2.1, <[i := s]> L) /\
    s_answer s = Some (codeOf wk o (c, e)).1.
Proof.
  intros Ho Hq Hi. unfold Serial.block. rewrite list_lookup_fmap, Ho. cbn [fmap option_fmap option_map]. rewrite effect_kept. fold (kept (planOf o)).
  pose proof (confined_codeOf wk o Hq) as Hm. destruct (kept_shape o) as (l & x & E' & Hl & Hx & Hp). rewrite E' in *.
  apply Forall_app in Hp as [Hpl [Hpx _]%Forall_cons]. rewrite map_app, effect_app. cbn [map].
  rewrite (effect_looks i o l c L (OpState [] e None) Ho); [|by apply Forall_and|done]. cbn [s_seen s_env s_answer].
  rewrite app_nil_r. unfold effect. cbn [fold_left fst snd].
  pose proof (act_final o c e l x (OpState (map (fun x => (x, sees x c)) (reverse l)) e None) Hm Hl Hx eq_refl eq_refl) as Ha.
  rewrite (exec_act i x o _ _ _ Ho (lookup_insert_eq _ _ _) Hpx). destruct (act _ _ _ _) as [c' s']. destruct Ha as [-> Ha].
  exists s'. by rewrite insert_insert_eq.
Qed.

(** Operations one after another. *)
Lemma effect_serial envs order c L :
  Forall quietOp ops -> NoDup order -> (forall i, i ∈ order -> (i < length ops)%nat) -> length envs = length ops ->
  (forall i e, i ∈ order -> envs !! i = Some e -> L !! i = Some (OpState [] e None)) ->
  let '(c', L') := effect exec (serial plans order) (c, L) in
  let '(answers, c2) := inTurn order envs c in
  c' = c2 /\ answers.*1 = order /\ (forall i r, (i, r) ∈ answers -> answerOf L' i = Some r) /\ (forall i, i ∉ order -> L' !! i = L !! i).
Proof.
  intros Hq Hnd. revert c L. induction Hnd as [|i order Hi Hnd IH]; intros c L Hlt Hlen Hfresh.
  { cbn. split; [done|]. split; [done|]. split; [by intros i r ?%elem_of_nil|done]. }
  destruct (lookup_lt_is_Some_2 ops i (Hlt i (list_elem_of_here _ _))) as [o Ho].
  destruct (lookup_lt_is_Some_2 envs i) as [e He]; [rewrite Hlen; apply Hlt, list_elem_of_here|].
  destruct (effect_block i o c L e Ho) as (s & Eb & Ha);
    [by eapply Forall_lookup_1|apply Hfresh; [apply list_elem_of_here|done]|].
  unfold serial. cbn [map concat inTurn]. fold (serial plans order). rewrite effect_app, Eb, Ho, He.
  destruct (codeOf wk o (c, e)) as [r [c1 e1]]. cbn [fst snd] in *.
  assert (forall j e, j ∈ order -> envs !! j = Some e -> <[i := s]> L !! j = Some (OpState [] e None)) as Hfresh'.
  { intros j e' Hj He'. rewrite lookup_insert_ne by (by intros ->). apply Hfresh; [by apply list_elem_of_further|done]. }
  specialize (IH c1 (<[i := s]> L) (fun j Hj => Hlt j (list_elem_of_further _ _ _ Hj)) Hlen Hfresh').
  destruct (effect exec _ _) as [c' L']. destruct (inTurn order envs c1) as [answers c2]. destruct IH as (-> & Ho1 & Hans & Hrest).
  split; [done|]. split; [cbn; by rewrite Ho1|]. split.
  - intros j r' [[= -> ->]|Hj]%elem_of_cons; [|by apply Hans]. unfold answerOf. by rewrite Hrest, lookup_insert_eq.
  - intros j Hj. apply not_elem_of_cons in Hj as [Hne Hj]. rewrite Hrest by done. by apply lookup_insert_ne.
Qed.
End Running.
