(* ===== verification/Patterns.v ===== *)
(** * The patterns of openapi.yaml

    The regular expressions of its schemas, with a matcher, and that the program's own
    checks accept nothing they do not match. *)

From S2P Require Import Prelude GoErrors Codec Text Validation Keys IndexValue.

(** ** Regular expressions *)

Inductive regex :=
  | Void
  | Eps
  | Class (set : byte -> bool)
  | Seq (r1 r2 : regex)
  | Alt (r1 r2 : regex)
  | Star (r : regex).

Inductive matches : regex -> bytes -> Prop :=
  | matches_eps : matches Eps []
  | matches_class set c : set c = true -> matches (Class set) [c]
  | matches_seq r1 r2 s1 s2 : matches r1 s1 -> matches r2 s2 -> matches (Seq r1 r2) (s1 ++ s2)
  | matches_left r1 r2 s : matches r1 s -> matches (Alt r1 r2) s
  | matches_right r1 r2 s : matches r2 s -> matches (Alt r1 r2) s
  | matches_stop r : matches (Star r) []
  | matches_more r s1 s2 : matches r s1 -> matches (Star r) s2 -> matches (Star r) (s1 ++ s2).

Fixpoint nullable (r : regex) : bool :=
  match r with
  | Void | Class _ => false
  | Eps | Star _ => true
  | Seq r1 r2 => nullable r1 && nullable r2
  | Alt r1 r2 => nullable r1 || nullable r2
  end.

(** What may follow [c] in a text that matches. *)
Fixpoint deriv (c : byte) (r : regex) : regex :=
  match r with
  | Void | Eps => Void
  | Class set => if set c then Eps else Void
  | Seq r1 r2 =>
      if nullable r1 then Alt (Seq (deriv c r1) r2) (deriv c r2) else Seq (deriv c r1) r2
  | Alt r1 r2 => Alt (deriv c r1) (deriv c r2)
  | Star r => Seq (deriv c r) (Star r)
  end.

Fixpoint accepts (r : regex) (s : bytes) : bool :=
  match s with [] => nullable r | c :: s' => accepts (deriv c r) s' end.

Lemma nullable_matches r : nullable r = true <-> matches r [].
Proof.
  split.
  - induction r as [| |set|r1 IH1 r2 IH2|r1 IH1 r2 IH2|r IH]; cbn; try done; [constructor| | |constructor].
    + intros [? ?]%andb_true_iff. apply (matches_seq r1 r2 [] []); auto.
    + intros [?|?]%orb_true_iff; [apply matches_left|apply matches_right]; auto.
  - intros Hm. remember [] as s eqn:Hs. induction Hm as [|set c Hc|r1 r2 s1 s2 _ IH1 _ IH2|r1 r2 s _ IH|r1 r2 s _ IH|r|r s1 s2 _ _ _ _];
      cbn; try done.
    + apply app_nil in Hs as [-> ->]. by rewrite IH1, IH2.
    + by rewrite IH.
    + rewrite IH by done. apply orb_true_r.
Qed.

Lemma matches_deriv c r s : matches r (c :: s) -> matches (deriv c r) s.
Proof.
  intros Hm. remember (c :: s) as cs eqn:Hs. revert s Hs.
  induction Hm as [|set c' Hc|r1 r2 s1 s2 Hm1 IH1 Hm2 IH2|r1 r2 s' _ IH|r1 r2 s' _ IH|r|r s1 s2 _ IH1 Hm2 IH2];
    intros s Hs; cbn [deriv]; try done.
  - injection Hs as -> <-. rewrite Hc. constructor.
  - destruct s1 as [|c1 s1]; cbn [app] in Hs.
    + apply nullable_matches in Hm1 as ->. apply matches_right. auto.
    + injection Hs as -> <-. destruct (nullable r1); [apply matches_left|]; apply matches_seq; auto.
  - apply matches_left. auto.
  - apply matches_right. auto.
  - destruct s1 as [|c1 s1]; cbn [app] in Hs; [by apply (IH2 s Hs)|]. injection Hs as -> <-. apply matches_seq; auto.
Qed.

Lemma deriv_matches c r s : matches (deriv c r) s -> matches r (c :: s).
Proof.
  revert s. induction r as [| |set|r1 IH1 r2 IH2|r1 IH1 r2 IH2|r IH]; intros s; cbn [deriv]; intros Hm.
  - inversion Hm.
  - inversion Hm.
  - destruct (set c) eqn:Hc; inversion Hm; subst. by constructor.
  - assert (forall s, matches (Seq (deriv c r1) r2) s -> matches (Seq r1 r2) (c :: s)) as Hseq.
    { intros s' Hs. inversion Hs as [| |? ? s1 s2 Hm1 Hm2| | | |]; subst.
      change (c :: s1 ++ s2) with ((c :: s1) ++ s2). apply matches_seq; auto. }
    destruct (nullable r1) eqn:Hn; [|auto]. apply nullable_matches in Hn.
    inversion Hm as [| | |? ? ? Hl|? ? ? Hr| |]; subst; [auto|]. apply (matches_seq r1 r2 []); auto.
  - inversion Hm; subst; [apply matches_left|apply matches_right]; auto.
  - inversion Hm as [| |? ? s1 s2 Hm1 Hm2| | | |]; subst. apply (matches_more r (c :: s1)); auto.
Qed.

Lemma accepts_matches r s : accepts r s = true <-> matches r s.
Proof.
  revert r. induction s as [|c s IH]; intros r; cbn [accepts]; [apply nullable_matches|]. rewrite IH.
  split; [apply deriv_matches|apply matches_deriv].
Qed.

(** [r{n}] and [r{0,n}]. *)
Fixpoint times (n : nat) (r : regex) : regex := match n with O => Eps | S n' => Seq r (times n' r) end.
Fixpoint upTo (n : nat) (r : regex) : regex := match n with O => Eps | S n' => Alt Eps (Seq r (upTo n' r)) end.

Lemma matches_times set s :
  Forall (fun c => set c = true) s -> matches (times (length s) (Class set)) s.
Proof. induction 1 as [|c s Hc _ IH]; cbn; [constructor|]. apply (matches_seq _ _ [c]); [by constructor|done]. Qed.

Lemma matches_upTo set s n :
  Forall (fun c => set c = true) s -> (length s <= n)%nat -> matches (upTo n (Class set)) s.
Proof.
  intros Hs. revert n. induction Hs as [|c s Hc _ IH]; intros [|n] Hn; cbn in *; [constructor|apply matches_left; constructor|lia|].
  apply matches_right, (matches_seq _ _ [c]); [by constructor|]. apply IH. lia.
Qed.

(** ** The patterns *)

Definition oneOf (chars : string) (c : byte) : bool := existsb (beqb c) (str chars).
Definition lit (c : byte) : regex := Class (beqb c).

(** [^[a-z][a-z0-9_-]{0,62}$] *)
Definition namePattern : regex :=
  Seq (Class (in_range "a" "z")) (upTo 62 (Class (fun c => in_range "a" "z" c || in_range "0" "9" c || oneOf "_-" c))).

(** [^[0-9a-f]{8}-[0-9a-f]{4}-7[0-9a-f]{3}-[89ab][0-9a-f]{3}-[0-9a-f]{12}$] *)
Definition hexDigits (n : nat) : regex := times n (Class (fun c => in_range "0" "9" c || in_range "a" "f" c)).
Definition idPattern : regex :=
  Seq (hexDigits 8) (Seq (lit "-") (Seq (hexDigits 4) (Seq (lit "-") (Seq (lit "7") (Seq (hexDigits 3)
    (Seq (lit "-") (Seq (Class (oneOf "89ab")) (Seq (hexDigits 3) (Seq (lit "-") (hexDigits 12)))))))))).

(** [^/(?:[^~]|~[01])*$] *)
Definition pathPattern : regex :=
  Seq (lit "/") (Star (Alt (Class (fun c => negb (beqb c "~"))) (Seq (lit "~") (Class (oneOf "01"))))).

(** The characters of a text, which are the bytes that start one. *)
Definition charLen (s : bytes) : Z := len (filter (fun c => cont c = false) s).

(** A string with [minLength], [maxLength] and [pattern]. *)
Definition patternText (minLength maxLength : Z) (pattern : regex) (s : bytes) : bool :=
  (minLength <=? charLen s) && (charLen s <=? maxLength) && accepts pattern s.

Definition nameText : bytes -> bool := patternText 1 63 namePattern.
Definition idText (s : bytes) : bool := accepts idPattern s.
Definition pointerText : bytes -> bool := patternText 1 256 pathPattern.

(** ** What the program checks matches *)

Lemma charLen_bounds c s : cont c = false -> 1 <= charLen (c :: s) <= len (c :: s).
Proof.
  intros Hc. unfold charLen, len. pose proof (length_filter (fun c => cont c = false) (c :: s)) as Hl.
  rewrite filter_cons_True in * by done. cbn [length] in *. lia.
Qed.

Lemma letter_cont c : in_range "a" "z" c = true -> cont c = false.
Proof. by destruct c. Qed.

Lemma validName_text n : validateName n = Ok () -> nameText n = true.
Proof.
  unfold validateName. destruct n as [|c s]; [done|].
  destruct (Z.ltb_spec 63 (len (c :: s))) as [?|Hl]; cbn [orb]; [done|].
  destruct (bleb "a" c) eqn:Ha; cbn [negb orb]; [|done]. destruct (bleb c "z") eqn:Hz; cbn [negb orb]; [|done].
  destruct (forallb validNameChar s) eqn:Hs; [|done]. intros _.
  assert (in_range "a" "z" c = true) as Hc by (unfold in_range; by rewrite Ha, Hz).
  pose proof (charLen_bounds c s (letter_cont c Hc)). unfold nameText, patternText.
  rewrite (proj2 (Z.leb_le 1 _)), (proj2 (Z.leb_le _ 63)) by lia. apply accepts_matches.
  apply (matches_seq _ _ [c]); [by constructor|]. apply matches_upTo; [|unfold len in Hl; cbn in Hl; lia].
  rewrite forallb_forall in Hs. apply Forall_forall. intros x Hx%list_elem_of_In%Hs. revert Hx. by destruct x.
Qed.

Lemma escapes_star s :
  validEscapes s = true -> matches (Star (Alt (Class (fun c => negb (beqb c "~"))) (Seq (lit "~") (Class (oneOf "01"))))) s.
Proof.
  remember (length s) as m eqn:Hm. revert s Hm. induction m as [m IH] using lt_wf_ind. intros s ->.
  destruct s as [|c s]; cbn [validEscapes]; [constructor|]. destruct (beqb_spec c "~") as [->|Hc].
  - destruct s as [|d s]; [done|]. intros [Hd Hs]%andb_true_iff. apply (matches_more _ ["~"%byte; d]).
    + apply matches_right, (matches_seq _ _ ["~"%byte] [d]); [by constructor|]. constructor. revert Hd. by destruct d.
    + apply (IH (length s)); [cbn; lia|done|done].
  - intros Hs. apply (matches_more _ [c]); [|by apply (IH (length s)); [cbn; lia|..]].
    apply matches_left. constructor. by destruct (beqb_spec c "~").
Qed.

Lemma validPointer_text p : validatePointer p = Ok () -> pointerText p = true.
Proof.
  unfold validatePointer. destruct p as [|c s]; [done|]. change (len (c :: s) =? 0) with false. cbn [orb].
  destruct (Z.ltb_spec maxIndexPath (len (c :: s))) as [?|Hl]; [done|].
  change (at_ (c :: s) 0) with c. cbn [orb]. destruct (beqb_spec c "/") as [->|?]; [|done]. cbn [negb orb].
  destruct (utf8Valid _); [|done]. cbn [negb]. destruct (validEscapes _) eqn:He; [|done]. intros _.
  pose proof (charLen_bounds "/" s eq_refl). unfold pointerText, patternText. unfold maxIndexPath in Hl.
  rewrite (proj2 (Z.leb_le 1 _)), (proj2 (Z.leb_le _ 256)) by lia. apply accepts_matches.
  apply (matches_seq _ _ ["/"%byte]); [by constructor|]. by apply escapes_star.
Qed.

(** Some of a text, from one of its bytes on. *)
Definition part (s : bytes) (i n : nat) : bytes := take n (drop i s).

Lemma matches_parts r1 r2 s i n m :
  matches r1 (part s i n) -> matches r2 (part s (i + n) m) -> matches (Seq r1 r2) (part s i (n + m)).
Proof.
  intros Hl Hr. unfold part in *. rewrite <- take_take_drop, drop_drop. by constructor.
Qed.

Lemma part_one s i : (i < length s)%nat -> part s i 1 = [at_ s i].
Proof.
  intros Hi. apply lookup_lt_is_Some in Hi as [c Hc]. unfold part, at_.
  rewrite (drop_S _ _ _ Hc), Hc. cbn [take]. by rewrite take_0.
Qed.

Lemma matches_hexDigits s i n :
  (i + n <= length s)%nat -> (forall j, (i <= j < i + n)%nat -> lowerHex (at_ s j) = true) ->
  matches (hexDigits n) (part s i n).
Proof.
  intros Hl Hj. assert (length (part s i n) = n) as Hn by (unfold part; rewrite length_take, length_drop; lia).
  unfold hexDigits. rewrite <- Hn at 1. apply matches_times. apply Forall_lookup. intros j c Hc.
  pose proof (lookup_lt_Some _ _ _ Hc) as Hlt. rewrite Hn in Hlt. unfold part in Hc. rewrite lookup_take_lt, lookup_drop in Hc by done.
  specialize (Hj (i + j)%nat ltac:(lia)). unfold at_ in Hj. rewrite Hc in Hj. exact Hj.
Qed.

Lemma validID_text id : validateID id = Ok () -> idText id = true.
Proof.
  unfold validateID. destruct (Z.eqb_spec (len id) 36) as [Hl|]; cbn [negb orb]; [|done].
  assert (length id = 36%nat) as Hlen by (unfold len in Hl; lia).
  destruct (beqb_spec (at_ id 8) "-") as [H8|]; cbn [negb orb]; [|done].
  destruct (beqb_spec (at_ id 13) "-") as [H13|]; cbn [negb orb]; [|done].
  destruct (beqb_spec (at_ id 18) "-") as [H18|]; cbn [negb orb]; [|done].
  destruct (beqb_spec (at_ id 23) "-") as [H23|]; cbn [negb orb]; [|done].
  destruct (forallb _ (seq 0 36)) eqn:Hhex; [|done].
  destruct (beqb_spec (at_ id 14) "7") as [H14|]; cbn [negb orb]; [|done].
  destruct (existsb (beqb (at_ id 19)) (str "89ab")) eqn:H19; cbn [negb]; [|done]. intros _.
  assert (forall i n, (i + n <= 36)%nat -> forallb (fun j => negb (is_dash j)) (seq i n) = true ->
            matches (hexDigits n) (part id i n)) as Hdigits.
  { intros i n Hi Hd. apply matches_hexDigits; [lia|]. intros j Hj. rewrite forallb_forall in Hhex, Hd.
    specialize (Hhex j). specialize (Hd j). rewrite in_seq in Hhex, Hd. specialize (Hhex ltac:(lia)).
    specialize (Hd ltac:(lia)). destruct (is_dash j); [done|exact Hhex]. }
  assert (forall i c, (i < 36)%nat -> at_ id i = c -> matches (lit c) (part id i 1)) as Hlit.
  { intros i c Hi <-. rewrite part_one by lia. constructor. apply beqb_refl. }
  apply accepts_matches. replace id with (part id 0 36) by (unfold part; rewrite drop_0, take_ge by lia; done).
  apply (matches_parts _ _ _ 0 8 28); [by apply Hdigits; [lia|]|].
  apply (matches_parts _ _ _ 8 1 27); [by apply Hlit; [lia|]|].
  apply (matches_parts _ _ _ 9 4 23); [by apply Hdigits; [lia|]|].
  apply (matches_parts _ _ _ 13 1 22); [by apply Hlit; [lia|]|].
  apply (matches_parts _ _ _ 14 1 21); [by apply Hlit; [lia|]|].
  apply (matches_parts _ _ _ 15 3 18); [by apply Hdigits; [lia|]|].
  apply (matches_parts _ _ _ 18 1 17); [by apply Hlit; [lia|]|].
  apply (matches_parts _ _ _ 19 1 16); [rewrite part_one by lia; by constructor|].
  apply (matches_parts _ _ _ 20 3 13); [by apply Hdigits; [lia|]|].
  apply (matches_parts _ _ _ 23 1 12); [by apply Hlit; [lia|]|]. by apply Hdigits; [lia|].
Qed.
