(* ===== verification/OpenApi.v ===== *)
(** * The contract of the API

    openapi.yaml, the description of the API the program is published with: the
    statuses each operation may answer with, the headers and the schema of the
    body of each.  The lemmas show that what the handlers answer is described. *)

From S2P Require Import Prelude GoErrors Codec Text Validation Number Keys Json JsonFacts JsonRoundtrip Document Base64 IndexValue Mime Patch.
From S2P Require Import Url DbRequest Host Conn Crypto Wp Store StoreRep StoreReads StoreSpec StoreBulk StoreLists Range StoreRange.
From S2P Require Import Cursor Query QueryFacts QueryRuns Bulk BulkFacts ExportFacts Config Api Routes RouteFacts ApiFacts ApiSpec.
From S2P Require Import ApiRuns BulkRuns Serving Patterns.

(** ** Schemas *)

(** An integer is written without fraction and exponent.  [SObj] lists the properties, each with whether it is required; there may be no
    others.  [SAny] is an object with any. *)
Inductive schema :=
  | SString (p : bytes -> bool)
  | SInteger
  | SBoolean (b : bool)
  | SArray (maxItems : option Z) (items : schema)
  | SObj (properties : list (string * (bool * schema)))
  | SAny.

Definition integerLit (s : bytes) : bool :=
  match s with
  | c :: s' => if beqb c "-" then negb (len s' =? 0) && forallb isDigit s' else forallb isDigit s
  | [] => false
  end.

Fixpoint satisfies (s : schema) (v : json) : bool :=
  match s, v with
  | SString p, JStr t => p t
  | SInteger, JNum lit => integerLit lit
  | SBoolean b, JBool b' => Bool.eqb b b'
  | SArray maxItems items, JArr l =>
      match maxItems with Some n => len l <=? n | None => true end && forallb (satisfies items) l
  | SObj properties, JObj m =>
      forallb (fun p => match objLookup (str p.1) m with Some v => satisfies p.2.2 v | None => negb p.2.1 end) properties
      && forallb (fun kv => existsb (fun p => bool_decide (str p.1 = kv.1)) properties) m
  | SAny, JObj _ => true
  | _, _ => false
  end.

Definition required (s : schema) : bool * schema := (true, s).
Definition optional (s : schema) : bool * schema := (false, s).
Definition anyString : schema := SString (fun _ => true).
Definition constString (s : string) : schema := SString (fun t => bool_decide (t = str s)).

Definition nameSchema : schema := SString nameText.
Definition documentID : schema := SString idText.
Definition indexSchema : schema :=
  SObj [("name", required nameSchema); ("path", required (SString pointerText))]%string.

Definition errorCodes : list bytes := map str
  ["bulk_limit"; "bulk_timeout"; "content_too_large"; "corrupt_data"; "database_exists"; "database_not_found";
   "document_not_found"; "index_not_found"; "internal_error"; "invalid_cursor"; "invalid_document"; "invalid_id";
   "invalid_if_match"; "invalid_limit"; "invalid_name"; "invalid_patch"; "invalid_query"; "invalid_request";
   "method_not_allowed"; "precondition_failed"; "query_limit"; "query_timeout"; "route_not_found";
   "service_unavailable"; "unsupported_media_type"]%string.
Definition isErrorCode (s : bytes) : bool := bool_decide (s ∈ errorCodes).
Definition errorCode : schema := SString isErrorCode.

Definition errorEnvelope : schema :=
  SObj [("error", required (SObj [("code", required errorCode); ("message", required anyString)]))]%string.
(** The schema's minimum of a line is not part of this. *)
Definition bulkError : schema :=
  SObj [("code", optional errorCode); ("line", optional SInteger); ("message", optional anyString)]%string.
Definition bulkResult (success : bool) : schema :=
  SObj [("success", required (SBoolean success)); ("error", required bulkError)]%string.
Definition serviceInfo : schema := SObj [("name", required (constString "KantanDB")); ("version", required anyString)]%string.
Definition healthSchema : schema := SObj [("status", required (constString "ok"))]%string.
Definition databaseSchema : schema :=
  SObj [("name", required nameSchema); ("indexes", optional (SArray (Some maxIndexes) indexSchema))]%string.
Definition databaseList : schema := SObj [("databases", required (SArray None nameSchema))]%string.
Definition documentList : schema :=
  SObj [("documents", required (SArray None documentID)); ("cursor", required anyString)]%string.
Definition documentCreated : schema := SObj [("id", required documentID)]%string.

(** ** Responses *)

Inductive content :=
  | Empty
  | AppJson (s : schema)
  | NDJson
  | AnyBody.

Definition bulkUnavailable : content := AppJson (bulkResult false).
Definition envelope : content := AppJson errorEnvelope.

Notation header := (string * (bytes -> bool))%type.

Definition etagText (s : bytes) : bool :=
  bool_decide (len s = 34) && bool_decide (head s = Some x22) && bool_decide (last s = Some x22)
  && forallb lowerHex (removelast (tail s)).
Definition hETag : header := ("ETag", etagText)%string.
Definition hLocation : header := ("Location", fun _ => true)%string.
Definition hNoStore : header := ("Cache-Control", fun s => bool_decide (s = str "no-store"))%string.
Definition hAcceptQuery : header := ("Accept-Query", fun s => bool_decide (s = str "application/json"))%string.
Definition hAllow : header := ("Allow", fun s => bool_decide (s = str "GET, POST, QUERY, DELETE, OPTIONS"))%string.

(** A response of an operation: its status, the headers it has, its body. *)
Notation described := (Z * list header * content)%type.

Definition failures (c : content) (statuses : list Z) : list described := map (fun status => (status, [], c)) statuses.

(** Behind a path or a method that the document does not have there is a 404, a 405,
    or a redirect to the path without its slash. *)
Definition errorsOf (t : target) : list Z :=
  match t with
  | TWelcome | THealth | TQueryOptions => [500; 503]
  | TListDBs => [400; 500; 503]
  | TCreateDB => [400; 409; 413; 415; 500; 503]
  | TListDocs | TDeleteDB | TGetDoc => [400; 404; 500; 503]
  | TCreateDoc | TQueryDocs => [400; 404; 413; 415; 500; 503]
  | TReplaceDoc | TPatchDoc => [400; 404; 412; 413; 415; 500; 503]
  | TDeleteDoc => [400; 404; 412; 500; 503]
  | TExportBulk => [400; 404; 429; 500; 503]
  | TImportBulk => [400; 404; 413; 415; 429; 500; 503]
  | TMethodNotAllowed => [405]
  | TNotFound => [404]
  | TRedirect => []
  end.

(** The redirect to a path without its slash. *)
Definition redirectStatus (method : bytes) : Z := if decide (method = str "GET") then 301 else 307.

Definition successesOf (t : target) : list described :=
  match t with
  | TWelcome => [(200, [], AppJson serviceInfo)]
  | THealth => [(200, [], AppJson healthSchema)]
  | TListDBs => [(200, [], AppJson databaseList)]
  | TCreateDB => [(201, [hLocation], AppJson databaseSchema)]
  | TListDocs => [(200, [hAcceptQuery], AppJson documentList)]
  | TQueryDocs => [(200, [hAcceptQuery; hNoStore], AppJson documentList)]
  | TQueryOptions => [(204, [hAcceptQuery; hAllow], Empty)]
  | TDeleteDB | TDeleteDoc => [(204, [], Empty)]
  | TCreateDoc => [(201, [hLocation; hETag], AppJson documentCreated)]
  | TGetDoc | TReplaceDoc | TPatchDoc => [(200, [hETag], AppJson SAny)]
  | TExportBulk => [(200, [hNoStore], NDJson)]
  | TImportBulk => [(200, [], AppJson (bulkResult true))]
  | TRedirect => [(301, [hLocation], AnyBody); (307, [hLocation], AnyBody)]
  | TMethodNotAllowed | TNotFound => []
  end.

Definition bulkTarget (t : target) : bool := match t with TExportBulk | TImportBulk => true | _ => false end.

Definition responsesOf (t : target) : list described :=
  successesOf t ++ failures (if bulkTarget t then bulkUnavailable else envelope) (errorsOf t).

(** ** Conformance *)

Definition headerOf (name : string) (resp : response) : list bytes :=
  map snd (filter (fun kv => kv.1 = str name) (rs_header resp)).

(** An export that is cut off is a beginning of such lines. *)
Definition carries (c : content) (resp : response) : Prop :=
  match c with
  | Empty => rs_body resp = []
  | AppJson s =>
      (exists mediaType, headerOf "Content-Type" resp = [mediaType] /\ isJSON mediaType = true) /\
      exists v, decodeOne (rs_body resp) = Some v /\ satisfies s v = true
  | NDJson =>
      (exists mediaType, headerOf "Content-Type" resp = [mediaType] /\ isNDJSON mediaType = true) /\
      exists documents rest, exportBytes documents = rs_body resp ++ rest /\
        Forall (fun document => exists v, decodeOne document = Some v /\ satisfies SAny v = true) documents
  | AnyBody => True
  end.

Definition conforms (t : target) (resp : response) : Prop :=
  exists d, d ∈ responsesOf t /\ rs_status resp = d.1.1 /\
    Forall (fun h => exists value, headerOf h.1 resp = [value] /\ h.2 value = true) d.1.2 /\ carries d.2 resp.

(** ** Headers *)

Lemma headerOf_same name value header : map snd (filter (fun kv => kv.1 = str name) (setHeader name value header)) = [value].
Proof.
  unfold setHeader. rewrite filter_app, list_filter_filter, filter_cons_True by done.
  rewrite (list_filter_iff _ (fun _ => False)) by (intros kv; tauto).
  assert (filter (fun _ : bytes * bytes => False) header = []) as ->; [|done]. by induction header.
Qed.

Lemma headerOf_other name name' value header :
  str name <> str name' ->
  map snd (filter (fun kv => kv.1 = str name) (setHeader name' value header)) = map snd (filter (fun kv => kv.1 = str name) header).
Proof.
  intros Hne. unfold setHeader. rewrite filter_app, list_filter_filter, filter_cons_False, filter_nil, app_nil_r by (cbn; congruence).
  f_equal. apply list_filter_iff. intros kv. split; [by intros [? _]|]. intros E. split; [done|congruence].
Qed.

(** ** JSON bodies *)

Lemma carries_writeJSON s h status v :
  wfText maxNestingDepth v -> satisfies s (norm v) = true -> carries (AppJson s) (writeJSON h status v).
Proof.
  intros Hw Hs. split.
  - eexists. split; [apply headerOf_same|]. by vm_compute.
  - destruct (marshal_written v _ Hw) as (out & Ho & _ & _). exists (norm v). split; [|done].
    unfold writeJSON. cbn [rs_body]. rewrite Ho. by apply decodeOne_text.
Qed.

Lemma utf8_ascii s : Forall (fun c => bleb c x7f = true) s -> utf8Valid s = true.
Proof. intros Hs. by apply runes_valid, digit_runes_ascii. Qed.

Lemma errorCode_utf8 c : c ∈ errorCodes -> utf8Valid c = true.
Proof.
  assert (forallb utf8Valid errorCodes = true) as H by (by vm_compute). rewrite forallb_forall in H.
  intros Hc. apply H. by apply list_elem_of_In.
Qed.

Lemma isErrorCode_true c : c ∈ errorCodes -> isErrorCode c = true.
Proof. intros Hc. by apply bool_decide_eq_true_2. Qed.

Ltac wf_text := repeat first [apply Forall_nil_2 | apply Forall_cons_2 | split | apply wt_obj | apply wt_str | apply wt_bool
  | apply wt_num | done | by vm_compute].

(** *** Errors *)

Definition isError (statuses : list Z) (resp : response) : Prop :=
  exists h status code message, resp = writeError h status code message /\ status ∈ statuses /\
    code ∈ errorCodes /\ utf8Valid message = true.

Definition isBulkError (statuses : list Z) (resp : response) : Prop :=
  exists h status code message line, resp = writeBulkError h status code message line /\ status ∈ statuses /\
    str code ∈ errorCodes /\ utf8Valid (str message) = true.

Lemma carries_error statuses resp : isError statuses resp -> rs_status resp ∈ statuses /\ carries envelope resp.
Proof.
  intros (h & status & code & message & -> & Hst & Hc & Hm). split; [done|]. apply errorCode_utf8 in Hc as Hu.
  apply carries_writeJSON; [unfold errorBody; by wf_text|].
  apply isErrorCode_true in Hc. revert Hc.
  unfold errorEnvelope, errorCode. generalize isErrorCode as p. intros p Hc. vm_compute. by rewrite Hc.
Qed.

Lemma itoa_valid z : isValidNumber (itoa z) = true.
Proof.
  assert (forall n, 0 <= n -> scanInt (decString n) = Some (decString n, [])) as Hscan.
  { intros n Hn. destruct (decString_spec n Hn) as [_ Hd]. destruct (decide (n = 0)) as [->|Hne]; [done|].
    destruct (decString_head n ltac:(lia)) as (c & s & E & Hc). rewrite E in *.
    assert (forall t, Forall (fun c => isDigit c = true) t -> span isDigit t = (t, [])) as Hspan.
    { induction 1 as [|d t Hdt _ IH]; [done|]. cbn [span]. by rewrite Hdt, IH. }
    unfold scanInt. apply Forall_cons in Hd as Hd'. destruct Hd' as [Hcd _]. rewrite Hcd, (Hspan _ Hd).
    destruct (beqb c "0") eqn:E0; [|done]. apply beqb_eq in E0. by destruct Hc. }
  unfold isValidNumber, splitNumber, itoa. destruct (Z.ltb_spec z 0) as [Hz|Hz].
  - change (beqb "-" "-") with true. cbv iota. rewrite Hscan by lia. done.
  - destruct (decString_spec z Hz) as [_ Hd]. destruct (decString z) as [|c s] eqn:E.
    + specialize (Hscan z Hz). by rewrite E in Hscan.
    + apply Forall_cons in Hd as [Hc _]. destruct (beqb c "-") eqn:E0; [apply beqb_eq in E0; by subst|].
      rewrite <- E, Hscan by done. done.
Qed.

Lemma itoa_integer z : integerLit (itoa z) = true.
Proof.
  assert (forall n, 0 <= n -> exists c s, decString n = c :: s /\ forallb isDigit (c :: s) = true /\ beqb c "-" = false) as Hdec.
  { intros n Hn. destruct (decString_spec n Hn) as [_ Hd]. destruct (decString_sign n Hn) as (c & s & E & Hc).
    rewrite E in *. exists c, s. split; [done|]. split; [|by destruct (beqb_spec c "-"); [subst|]].
    apply forallb_forall. by apply List.Forall_forall. }
  unfold itoa. destruct (Z.ltb_spec z 0) as [Hz|Hz].
  - destruct (Hdec (- z) ltac:(lia)) as (c & s & -> & Hd & _). unfold integerLit.
    change (beqb "-" "-") with true. cbv iota. by rewrite Hd.
  - destruct (Hdec z Hz) as (c & s & -> & Hd & Hc). unfold integerLit. by rewrite Hc.
Qed.

Lemma carries_bulkError statuses resp :
  isBulkError statuses resp -> rs_status resp ∈ statuses /\ carries bulkUnavailable resp.
Proof.
  intros (h & status & code & message & line & -> & Hst & Hc & Hm). split; [done|]. apply errorCode_utf8 in Hc as Hu.
  apply carries_writeJSON.
  - unfold bulkErrorJson. pose proof (itoa_valid line). destruct (line =? 0); cbn [app]; by wf_text.
  - apply isErrorCode_true in Hc. revert Hc.
    unfold bulkErrorJson, bulkResult, bulkError, errorCode. generalize isErrorCode as p, (str code) as c, (str message) as m.
    intros p c m Hc. pose proof (itoa_integer line) as Hi. revert Hi.
    generalize (itoa line) as l. intros l Hi. destruct (line =? 0); vm_compute in Hi |- *; by rewrite Hc, ?Hi.
Qed.

(** ** What the handlers answer with when they fail

    This is so whatever the host does: it is how the handlers are written. *)

Section Errors.
Context {W : Type} `{Host W} `{Conn W} `{Crypto} `{JSONPath} `{JSONPatch}.

Definition yields (m : M W response) (P : response -> Prop) : Prop :=
  forall w, match (m w).1 with Ok resp => P resp | _ => True end.

Lemma yields_ret resp (P : response -> Prop) : P resp -> yields (mret resp) P.
Proof. by intros HP w. Qed.

Lemma yields_bind {A : Type} (m : M W A) (k : A -> M W response) P : (forall x, yields (k x) P) -> yields (m ≫= k) P.
Proof. intros Hk w. unfold mbind, M_bind. destruct (m w) as [[x|e|] w1]; [apply Hk|done|done]. Qed.

Lemma yields_mono m (P Q : response -> Prop) : yields m P -> (forall resp, P resp -> Q resp) -> yields m Q.
Proof. intros Hm HQ w. specialize (Hm w). destruct (m w).1; auto. Qed.
End Errors.

(** A response that is no error, or one that is described. *)
Definition unless (P : response -> Prop) (resp : response) : Prop := rs_status resp < 400 \/ P resp.

Lemma isError_writeFailure statuses h e : 500 ∈ statuses -> 503 ∈ statuses -> isError statuses (writeFailure h e).
Proof.
  intros H5 H3. unfold writeFailure. destruct (errorsIs errCorruptData e); [|destruct (isStoreUnavailable e)];
    (eexists _, _, _, _; split; [reflexivity|]; split; [done|]; split; [by apply (bool_decide_unpack _); vm_compute|by vm_compute]).
Qed.

Ltac in_list := by apply (bool_decide_unpack _); vm_compute.
Ltac solve_error :=
  right; unfold badMediaType, badName, bodyTooLarge, documentTooLarge, badRequest, databaseNotFound, documentNotFound,
    preconditionFailed, badIfMatch, indexedTooLarge;
  first [apply isError_writeFailure; in_list
        |eexists _, _, _, _; split; [reflexivity|]; split; [in_list|]; split; [in_list|by vm_compute]
        |eexists _, _, _, _, _; split; [reflexivity|]; split; [in_list|]; split; [in_list|by vm_compute]].
Ltac yields_step :=
  match goal with
  | |- yields (mret _) _ => apply yields_ret
  | |- yields (mbind _ _) _ => apply yields_bind; intros ?
  | |- yields (match ?x with _ => _ end) _ => destruct x eqn:?
  | |- unless _ (match ?x with _ => _ end) => destruct x eqn:?
  end.

Lemma isError_mono statuses statuses' resp :
  isError statuses resp -> forallb (fun s => bool_decide (s ∈ statuses')) statuses = true -> isError statuses' resp.
Proof.
  intros (h & st & c & m & -> & Hst & ? & ?) Hs. exists h, st, c, m. split; [done|]. split; [|done].
  rewrite forallb_forall in Hs. apply list_elem_of_In, Hs in Hst. by apply bool_decide_eq_true in Hst.
Qed.

(** *** The refusals of requests *)

Section Refusals.
Context `{Crypto} `{JSONPath} `{JSONPatch}.
Variables (ap : api).

Ltac is_error :=
  unfold badMediaType, badName, bodyTooLarge, documentTooLarge, badRequest, databaseNotFound, documentNotFound,
    preconditionFailed, badIfMatch, indexedTooLarge;
  eexists _, _, _, _; split; [reflexivity|]; split; [in_list|]; split; [in_list|by vm_compute].
Ltac refusals := repeat match goal with
  | |- (match ?x with _ => _ end) = inl _ -> _ => destruct x eqn:?
  | |- inl _ = inl _ -> _ => intros [= <-]
  | |- inr _ = inl _ -> _ => intros [=]
  end; try is_error.

Lemma parseDocQuery_refused rawQuery why h : parseDocQuery rawQuery = inl why -> isError [400] (refused h why).
Proof. unfold parseDocQuery. cbv zeta. refusals. Qed.

Lemma parseListQuery_refused rawQuery f why : parseListQuery rawQuery f = inl why -> isError [400] (refused [] why).
Proof. unfold parseListQuery. cbv zeta. refusals. Qed.

Lemma requestDB_isError r resp : requestDB ap r = inl resp -> isError [400; 413; 415] resp.
Proof. unfold requestDB. cbv zeta. refusals. Qed.

Lemma requestDBs_isError r resp : requestDBs r = inl resp -> isError [400] resp.
Proof. unfold requestDBs. destruct (parseListQuery _ _) as [why|] eqn:E; refusals. by eapply parseListQuery_refused. Qed.

Lemma requestDocs_isError n r resp : requestDocs n r = inl resp -> isError [400] resp.
Proof.
  unfold requestDocs. destruct (negb _); [refusals|]. destruct (parseDocQuery _) as [why|] eqn:E; [|done].
  intros [= <-]. by eapply parseDocQuery_refused.
Qed.

Lemma requestQuery_isError n r resp : requestQuery ap n r = inl resp -> isError [400; 413; 415] resp.
Proof. unfold requestQuery. cbv zeta. refusals. Qed.

Lemma readDocument_isError r resp : readDocument ap r = inl resp -> isError [400; 413; 415] resp.
Proof. unfold readDocument. cbv zeta. refusals. Qed.

Lemma validDocPath_isError n id resp : validDocPath n id = Some resp -> isError [400] resp.
Proof. unfold validDocPath. destruct (negb _); [intros [= <-]; is_error|]. destruct (negb _); [intros [= <-]; is_error|done]. Qed.

Lemma requestCreate_isError n r resp : requestCreate ap n r = inl resp -> isError [400; 413; 415] resp.
Proof. unfold requestCreate. do 2 (destruct (negb _); [refusals|]). apply readDocument_isError. Qed.

Lemma requestReplace_isError n id r resp : requestReplace ap n id r = inl resp -> isError [400; 413; 415] resp.
Proof.
  unfold requestReplace. destruct (negb _); [refusals|].
  destruct (validDocPath n id) eqn:Hp; [intros [= <-]; by eapply isError_mono; [eapply validDocPath_isError|]|].
  destruct (parseIfMatch _); [|refusals..]. destruct (readDocument ap r) eqn:Hr; [|done]. intros [= <-].
  by eapply readDocument_isError.
Qed.

Lemma requestPatch_isError n id r resp : requestPatch ap n id r = inl resp -> isError [400; 413; 415] resp.
Proof.
  unfold requestPatch. destruct (parsePatchType _); [|refusals..].
  destruct (validDocPath n id) eqn:Hp; [intros [= <-]; by eapply isError_mono; [eapply validDocPath_isError|]|].
  cbv zeta. refusals.
Qed.

Lemma requestDelete_isError n id r resp : requestDelete n id r = inl resp -> isError [400] resp.
Proof.
  unfold requestDelete. destruct (validDocPath n id) eqn:Hp; [intros [= <-]; by eapply validDocPath_isError|]. refusals.
Qed.

Lemma bulkRefused_isError n r resp : bulkRefused ap n r = Some resp -> isBulkError [400; 429] resp.
Proof.
  unfold bulkRefused. do 3 (destruct (negb _); [intros [= <-]; eexists _, _, _, _, _; split; [reflexivity|];
    split; [in_list|]; split; [in_list|by vm_compute]|]). done.
Qed.

Lemma failBulk_isError h e : isBulkError [400; 404; 413; 500; 503] (failBulk h e).
Proof.
  unfold failBulk. repeat match goal with |- isBulkError _ (if ?x then _ else _) => destruct x end;
    (eexists _, _, _, _, _; split; [reflexivity|]; split; [in_list|]; split; [in_list|by vm_compute]).
Qed.
End Refusals.

(** *** The handlers *)

Section Handlers.
Context {W : Type} `{Host W} `{Conn W} `{Crypto} `{JSONPath} `{JSONPatch}.
Variables (wk : bytes) (fuel : nat) (ap : api).

Ltac refused_as lem := right; eapply isError_mono; [eapply lem; eassumption|by vm_compute].
Ltac yields_errors := repeat (cbv zeta beta; yields_step); try (by left); try solve_error.

Lemma createDB_errors r : yields (apiCreateDB wk ap r) (unless (isError (errorsOf TCreateDB))).
Proof. unfold apiCreateDB, createDBError. yields_errors. refused_as requestDB_isError. Qed.

Lemma listDBs_errors r : yields (apiListDBs wk r) (unless (isError (errorsOf TListDBs))).
Proof. unfold apiListDBs. yields_errors. refused_as requestDBs_isError. Qed.

Lemma listDocs_errors n r : yields (apiListDocs wk n r) (unless (isError (errorsOf TListDocs))).
Proof.
  unfold apiListDocs, listQuery, listPlain, startError, listError, listAnswer. yields_errors. refused_as requestDocs_isError.
Qed.

Lemma queryDocs_errors n r : yields (apiQueryDocs wk ap n r) (unless (isError (errorsOf TQueryDocs))).
Proof. unfold apiQueryDocs, planRefused, queryError. yields_errors. refused_as requestQuery_isError. Qed.

Lemma deleteDB_errors n : yields (apiDeleteDB wk n) (unless (isError (errorsOf TDeleteDB))).
Proof. unfold apiDeleteDB, deleteDBError. yields_errors. Qed.

Lemma createDoc_errors n r : yields (apiCreateDoc wk fuel ap n r) (unless (isError (errorsOf TCreateDoc))).
Proof. unfold apiCreateDoc, createDocError. yields_errors. refused_as requestCreate_isError. Qed.

Lemma getDoc_errors n id : yields (apiGetDoc wk n id) (unless (isError (errorsOf TGetDoc))).
Proof. unfold apiGetDoc, getDocError. yields_errors. refused_as validDocPath_isError. Qed.

Lemma replaceDoc_errors n id r : yields (apiReplaceDoc wk fuel ap n id r) (unless (isError (errorsOf TReplaceDoc))).
Proof. unfold apiReplaceDoc, replaceError. yields_errors. refused_as requestReplace_isError. Qed.

Lemma patchDoc_errors n id r : yields (apiPatchDoc wk fuel ap n id r) (unless (isError (errorsOf TPatchDoc))).
Proof. unfold apiPatchDoc, patchError. yields_errors. refused_as requestPatch_isError. Qed.

Lemma deleteDoc_errors n id r : yields (apiDeleteDoc wk n id r) (unless (isError (errorsOf TDeleteDoc))).
Proof. unfold apiDeleteDoc, deleteDocError. yields_errors. refused_as requestDelete_isError. Qed.

Lemma isBulkError_mono statuses statuses' resp :
  isBulkError statuses resp -> forallb (fun s => bool_decide (s ∈ statuses')) statuses = true -> isBulkError statuses' resp.
Proof.
  intros (h & st & c & m & line & -> & Hst & ? & ?) Hs. exists h, st, c, m, line. split; [done|]. split; [|done].
  rewrite forallb_forall in Hs. apply list_elem_of_In, Hs in Hst. by apply bool_decide_eq_true in Hst.
Qed.

(** The import may answer with any of these, the export does not use them all. *)
Notation bulkFailure := (unless (isBulkError (errorsOf TImportBulk))).

Lemma failBulk_bulkFailure h e : bulkFailure (failBulk h e).
Proof. right. eapply isBulkError_mono; [apply failBulk_isError|by vm_compute]. Qed.

Lemma startBulk_errors n r rest : yields rest bulkFailure -> yields (startBulk ap n r rest) bulkFailure.
Proof.
  intros Hrest. unfold startBulk. destruct (bulkRefused ap n r) as [refused|] eqn:Href.
  { apply yields_ret. right. eapply isBulkError_mono; [by eapply bulkRefused_isError|by vm_compute]. }
  apply yields_bind. intros e. destruct (match e with Some _ => _ | None => _ end); [apply yields_ret, failBulk_bulkFailure|].
  intros w. specialize (Hrest w). unfold mbind, M_bind. destruct (rest w) as [[resp|e'|] w1]; [|done|done].
  cbn [fst] in Hrest. by destruct (liftDeadline r w1) as [[u|e'|] w2].
Qed.

Lemma exportBulk_errors n r : yields (apiExportBulk wk ap n r) bulkFailure.
Proof.
  apply startBulk_errors. intros w. destruct (exportDocs _ _ _ _ _) as [[u|e|] [w1 s]]; [|..|done].
  - destruct (negb (bs_started s)); [by left|]. destruct (flush (w1, s)) as [x [w2 s2]]. by left.
  - destruct (bs_started s); [by left|]. apply failBulk_bulkFailure.
Qed.

Lemma importBulk_errors n r : yields (apiImportBulk wk fuel ap n r) bulkFailure.
Proof.
  unfold apiImportBulk. destruct (negb (isNDJSON _)); [apply yields_ret; solve_error|]. apply startBulk_errors.
  yields_errors; apply failBulk_bulkFailure.
Qed.

Definition failure (t : target) : response -> Prop :=
  if bulkTarget t then isBulkError (errorsOf TImportBulk) else isError (errorsOf t).

Lemma handle_errors t vars r : yields (handle wk fuel ap t vars r) (unless (failure t)).
Proof.
  destruct t; unfold failure; cbn [handle bulkTarget]; cbv zeta.
  1, 2, 7: apply yields_ret; by left.
  - apply createDB_errors.
  - apply listDBs_errors.
  - apply listDocs_errors.
  - apply queryDocs_errors.
  - apply deleteDB_errors.
  - apply createDoc_errors.
  - apply getDoc_errors.
  - apply replaceDoc_errors.
  - apply patchDoc_errors.
  - apply deleteDoc_errors.
  - apply exportBulk_errors.
  - apply importBulk_errors.
  - apply yields_ret. left. unfold redirectNoSlash, redirect. by repeat case_match.
  - apply yields_ret. unfold methodNotAllowed. solve_error.
  - apply yields_ret. unfold notFound. solve_error.
Qed.
End Handlers.
