(* ===== verification/Conforms.v ===== *)
(** * The answers are as openapi.yaml describes them

    What succeeds, read off the specification of the handlers: the names, the
    document IDs, the cursors and the documents an answer holds fit the schemas.
    With the failures of OpenApi.v: every answer of a handler is described. *)

From S2P Require Import Prelude GoErrors Codec Text Validation Number Keys Json JsonFacts JsonRoundtrip Document Base64 IndexValue Mime Patch.
From S2P Require Import Url DbRequest Host Conn Crypto Wp Store StoreRep StoreReads StoreSpec StoreBulk StoreLists Range StoreRange.
From S2P Require Import Cursor Query QueryFacts QueryRuns Bulk BulkFacts ExportFacts Config Api Routes RouteFacts ApiFacts ApiSpec.
From S2P Require Import ApiRuns BulkRuns Serving Patterns OpenApi.

(** ** The texts of an answer are UTF-8 *)

Lemma validName_utf8 name : validName name -> utf8Valid name = true.
Proof.
  intros (_ & _ & H)%validName_unfold. apply utf8_ascii. eapply Forall_impl; [exact H|]. intros c Hc. by destruct c.
Qed.

Lemma validID_utf8 id : validID id -> utf8Valid id = true.
Proof.
  intros Hid. apply utf8_ascii, Forall_forall. intros c [->|Hc]%(validID_char _ _ Hid); [done|]. by destruct c.
Qed.

Lemma b64char_ascii z : 0 <= z < 64 -> bleb (b64char z) x7f = true.
Proof.
  intros Hz. pose proof (b64val_char z Hz) as H. destruct (b64char z); first [reflexivity|discriminate H].
Qed.

Lemma b64encode_utf8 s : utf8Valid (b64encode s) = true.
Proof.
  apply utf8_ascii.
  induction s as [|a|a b|a b c s IH] using b64_ind; cbn [b64encode];
    repeat constructor; try (apply b64char_ascii, sextet_range; lia). exact IH.
Qed.

Lemma openToken_utf8 `{Crypto} version maxSize box token rest :
  openToken version maxSize box token = Some rest -> utf8Valid token = true.
Proof.
  unfold openToken. cbv zeta. destruct (_ || _); [done|]. destruct (b64decode token) as [sealed|]; [|done].
  cbn [mbind option_bind]. destruct (bool_decide (b64encode sealed = token)) eqn:E; [|done].
  intros _. apply bool_decide_eq_true in E as <-. apply b64encode_utf8.
Qed.

Lemma queryStart_utf8 `{Crypto} box n query token e v id :
  queryStart box n (withToken query token) = Ok (e, v, id) -> utf8Valid token = true.
Proof.
  unfold queryStart. cbn [withToken dq_value dq_cursor]. destruct (encodeIndexValue _); try done. cbn [mbind res_bind].
  destruct token as [|c t]; [done|]. destruct (decodeQueryCursor box (c :: t)) eqn:Hd; try done.
  intros _. unfold decodeQueryCursor in Hd. destruct (openToken _ _ _ _) eqn:Ho; [|done]. by eapply openToken_utf8.
Qed.

Lemma pathStart_utf8 `{Crypto} `{JSONPath} box n plan query token e r :
  pathStart box n plan (withCursor query token) e = Ok r -> utf8Valid token = true.
Proof.
  unfold pathStart. cbn [withCursor pq_cursor].
  destruct token as [|c t]; [done|]. destruct (decodePathCursor box (c :: t)) eqn:Hd; try done.
  intros _. unfold decodePathCursor in Hd. destruct (openToken _ _ _ _) eqn:Ho; [|done]. by eapply openToken_utf8.
Qed.

(** ** The bodies fit their schemas *)

Lemma satisfies_strings (P : bytes -> bool) maxItems l :
  Forall (fun s => P s = true) l -> match maxItems with Some n => len l <= n | None => True end ->
  satisfies (SArray maxItems (SString P)) (norm (stringsJson l)) = true.
Proof.
  intros Hl Hlen. unfold stringsJson. cbn [norm satisfies]. apply andb_true_iff. split.
  - destruct maxItems; [|done]. apply Z.leb_le. unfold len in *. by rewrite !length_map.
  - induction Hl as [|s l Hs _ IH]; [done|]. cbn [map norm forallb satisfies]. rewrite Hs. apply IH.
    destruct maxItems; [|done]. rewrite len_cons in Hlen. lia.
Qed.

Lemma wfText_strings d l : 0 < d -> Forall (fun s => utf8Valid s = true) l -> wfText d (stringsJson l).
Proof. intros Hd Hl. apply wt_arr; [done|]. apply Forall_map. eapply Forall_impl; [exact Hl|]. intros s Hs. by apply wt_str. Qed.

Lemma satisfies_list2 (s1 s2 : schema) v1 v2 :
  satisfies s1 (norm v1) = true -> satisfies s2 (norm v2) = true ->
  satisfies (SObj [("documents", required s1); ("cursor", required s2)]%string)
    (norm (JObj [(str "documents", v1); (str "cursor", v2)])) = true.
Proof. intros H1 H2. vm_compute in H1, H2 |- *. by rewrite H1, H2. Qed.

Lemma satisfies_databases (s : schema) v :
  satisfies s (norm v) = true ->
  satisfies (SObj [("databases", required s)]%string) (norm (JObj [(str "databases", v)])) = true.
Proof. intros H1. vm_compute in H1 |- *. by rewrite H1. Qed.

Lemma satisfies_created (s : schema) v :
  satisfies s (norm v) = true -> satisfies (SObj [("id", required s)]%string) (norm (JObj [(str "id", v)])) = true.
Proof. intros H1. vm_compute in H1 |- *. by rewrite H1. Qed.

Lemma satisfies_index (s1 s2 : schema) v1 v2 :
  satisfies s1 (norm v1) = true -> satisfies s2 (norm v2) = true ->
  satisfies (SObj [("name", required s1); ("path", required s2)]%string)
    (norm (JObj [(str "name", v1); (str "path", v2)])) = true.
Proof. intros H1 H2. vm_compute in H1, H2 |- *. by rewrite H1, H2. Qed.

Lemma satisfies_named (s1 s2 : schema) v1 :
  satisfies s1 (norm v1) = true ->
  satisfies (SObj [("name", required s1); ("indexes", optional s2)]%string) (norm (JObj [(str "name", v1)])) = true.
Proof. intros H1. vm_compute in H1 |- *. by rewrite H1. Qed.

Lemma satisfies_database (s1 s2 : schema) v1 v2 :
  satisfies s1 (norm v1) = true -> satisfies s2 (norm v2) = true ->
  satisfies (SObj [("name", required s1); ("indexes", optional s2)]%string)
    (norm (JObj [(str "name", v1); (str "indexes", v2)])) = true.
Proof. intros H1 H2. vm_compute in H1, H2 |- *. by rewrite H1, H2. Qed.

Lemma carries_docList h status ids cursor :
  Forall validID ids -> utf8Valid cursor = true ->
  carries (AppJson documentList) (writeJSON h status (docListJson ids cursor)).
Proof.
  intros Hids Hc. apply carries_writeJSON.
  - unfold docListJson. apply wt_obj; [done|]. repeat apply Forall_cons_2; [split; [done|]..|apply Forall_nil_2].
    + apply wfText_strings; [done|]. eapply Forall_impl; [exact Hids|]. apply validID_utf8.
    + by apply wt_str.
  - apply satisfies_list2; [|done]. apply satisfies_strings; [|done].
    eapply Forall_impl; [exact Hids|]. by apply validID_text.
Qed.

Lemma carries_dbList h status names :
  Forall validName names -> carries (AppJson databaseList) (writeJSON h status (dbListJson names)).
Proof.
  intros Hn. apply carries_writeJSON.
  - unfold dbListJson. apply wt_obj; [done|]. apply Forall_cons_2; [split; [done|]|apply Forall_nil_2].
    apply wfText_strings; [done|]. eapply Forall_impl; [exact Hn|]. apply validName_utf8.
  - apply satisfies_databases, satisfies_strings; [|done].
    eapply Forall_impl; [exact Hn|]. by apply validName_text.
Qed.

Lemma validDef_utf8 def : validDef def -> utf8Valid (def_name def) = true /\ utf8Valid (def_path def) = true.
Proof.
  intros [Hn Hp]. split; [by apply validName_utf8|]. unfold validatePointer in Hp.
  destruct (utf8Valid (def_path def)); [done|]. by rewrite orb_true_r in Hp.
Qed.

Lemma satisfies_indexes defs :
  Forall validDef defs -> forallb (satisfies indexSchema) (map norm (map indexJson defs)) = true.
Proof.
  induction 1 as [|def defs [? ?] _ IH]; [done|]. cbn [map forallb]. apply andb_true_iff. split; [|done].
  apply satisfies_index; [by apply validName_text|by apply validPointer_text].
Qed.

Lemma carries_database h status q :
  validName (dr_name q) -> validateIndexes (indexDefs q) = Ok () ->
  carries (AppJson databaseSchema) (writeJSON h status (requestJson q)).
Proof.
  unfold indexDefs, requestJson. intros Hn (Hlen & Hdefs & _)%validateIndexes_spec.
  assert (nameText (dr_name q) = true) as Hok by by apply validName_text.
  apply carries_writeJSON; destruct (dr_indexes q) as [defs|]; cbn [default] in *.
  - apply wt_obj; [done|]. repeat apply Forall_cons_2; [split; [done|]..|apply Forall_nil_2].
    + by apply wt_str, validName_utf8.
    + apply wt_arr; [done|]. apply Forall_map. eapply Forall_impl; [exact Hdefs|]. intros def [? ?]%validDef_utf8.
      unfold compose, indexJson. by wf_text.
  - apply validName_utf8 in Hn. by wf_text.
  - apply satisfies_database; [done|]. cbn [norm satisfies]. apply andb_true_iff. split.
    + apply Z.leb_le. unfold len in *. by rewrite !length_map.
    + by apply satisfies_indexes.
  - by apply satisfies_named.
Qed.

Lemma carries_docCreated h status id :
  validID id -> carries (AppJson documentCreated) (writeJSON h status (docResponseJson id)).
Proof.
  intros Hid. apply validID_utf8 in Hid as Hu. apply carries_writeJSON; [unfold docResponseJson; by wf_text|].
  apply satisfies_created. by apply validID_text.
Qed.

Lemma canonical_object maxBytes document :
  canonical maxBytes document -> exists v, decodeOne document = Some v /\ satisfies SAny v = true.
Proof.
  unfold canonical, validateDoc, ensureJSONEnd, decodeOne. destruct (_ <? _); [done|]. destruct (negb _); [done|].
  destruct (decodeJSON document) as [[[]rest]|]; try done. cbn [mbind option_bind]. destruct (atEOF rest); [|done].
  intros _. by eexists.
Qed.

Lemma carries_document maxBytes h status document :
  canonical maxBytes document -> carries (AppJson SAny) (writeData h status (str "application/json") document).
Proof.
  intros Hc. split; [|by eapply canonical_object]. eexists. split; [apply headerOf_same|]. by vm_compute.
Qed.

Lemma etagText_formatETag rev : wf_revision rev -> etagText (formatETag rev) = true.
Proof.
  intros Hr. unfold wf_revision, revisionLen, len in Hr. unfold etagText, formatETag. cbn [app].
  rewrite bool_decide_eq_true_2 by (rewrite len_cons, len_app; unfold len; rewrite length_hexEncode; cbn; lia).
  cbn [tail head]. rewrite removelast_last, lowerHex_hexEncode.
  change (x22 :: hexEncode rev ++ [x22]) with ((x22 :: hexEncode rev) ++ [x22]). rewrite last_snoc. by vm_compute.
Qed.

(** ** The IDs of an answer are IDs of documents *)

Section Answers.
Variables (n : bytes) (d : ldb).
Context (Hwd : wfDb n d).

Lemma validID_docValue i id v : docValue d i id = Some v -> validID id.
Proof. intros Hv. by eapply docs_validID, docValue_Some. Qed.

Lemma validID_after cursor : Forall validID (after cursor (sortedKeys (ldb_docs d))).
Proof.
  apply Forall_forall. intros id [_ Hid%elem_sortedKeys]%list_elem_of_filter. by eapply docs_validID.
Qed.

Lemma validID_page limit cursor : Forall validID (page limit cursor (sortedKeys (ldb_docs d))).1.
Proof. unfold page. cbn [fst]. apply Forall_take, validID_after. Qed.

Lemma validID_last ids : Forall validID ids -> utf8Valid (default [] (last ids)) = true.
Proof.
  intros Hids. destruct (last ids) as [id|] eqn:Hl; [|done]. cbn [default].
  apply validID_utf8. apply last_Some in Hl as [l ->]. by apply Forall_app in Hids as [_ [? _]%Forall_cons].
Qed.

Lemma validID_entries i op e l : l ⊆ rangeEntries d i op e -> Forall validID (map snd l).
Proof.
  intros Hl. apply Forall_map, Forall_forall. intros [v id] Hin%Hl.
  apply list_elem_of_filter in Hin as [_ Hin%elem_indexEntries]. by eapply validID_docValue.
Qed.

Lemma afterDoc_subseteq id l : afterDoc id l ⊆ l.
Proof. induction l as [|x l IH]; [done|]. cbn [afterDoc]. destruct (decide _); set_solver. Qed.

Lemma afterCursor_subseteq v id l : afterCursor v id l ⊆ l.
Proof.
  unfold afterCursor. destruct (0 <? len v); [intros x; by intros [_ ?]%list_elem_of_filter|].
  destruct (len id =? 0); [done|apply afterDoc_subseteq].
Qed.

Lemma validID_indexAnswer i op limit e aid av :
  Forall validID (indexAnswer d i op limit e aid av).1.1.1.
Proof.
  unfold indexAnswer. destruct (beqb op cmpEq).
  - unfold page. cbn [fst]. apply Forall_take, Forall_forall.
    intros id [_ [Hv _]%list_elem_of_filter]%list_elem_of_filter. by eapply validID_docValue.
  - cbn [fst]. unfold rangePage. destruct (_ <? _); cbn [ip_ids]; apply (validID_entries i op e).
    + intros x Hx. eapply afterCursor_subseteq, subseteq_take, Hx.
    + apply afterCursor_subseteq.
Qed.

Lemma validID_planAnswer `{JSONPath} plan query e aid av : Forall validID (planAnswer d plan query e aid av).1.1.1.
Proof.
  unfold planAnswer. destruct (pp_index plan) as [|c i]; [|apply validID_indexAnswer].
  pose proof (validID_after aid) as Hk. cbn [fst]. unfold scanPage.
  destruct (_ <? _); cbn [pg_ids]; [apply Forall_take|]; by apply Forall_filter_impl, Forall_take.
Qed.
End Answers.

(** ** What succeeds conforms *)

Lemma conforms_success t status headers c resp :
  (status, headers, c) ∈ successesOf t -> rs_status resp = status ->
  Forall (fun h : header => exists value, headerOf h.1 resp = [value] /\ h.2 value = true) headers ->
  carries c resp -> conforms t resp.
Proof.
  intros Hin Hst Hh Hc. exists (status, headers, c). split; [|done].
  unfold responsesOf. apply elem_of_app. by left.
Qed.

(** A response that is an error, or one that is described. *)
Notation fits t resp := (400 <= rs_status resp \/ conforms t resp).

Lemma isError_status statuses resp :
  isError statuses resp -> forallb (fun s => 400 <=? s) statuses = true -> 400 <= rs_status resp.
Proof.
  intros (h & st & c & m & -> & Hst & _) Hs. rewrite forallb_forall in Hs. apply Z.leb_le, Hs. by apply list_elem_of_In.
Qed.

Lemma headerOf_writeJSON name h status v :
  str name <> str "Content-Type" ->
  headerOf name (writeJSON h status v) = map snd (filter (fun kv => kv.1 = str name) h).
Proof. intros Hn. by apply headerOf_other. Qed.

Lemma headerOf_writeData name h status type body :
  str name <> str "Content-Type" ->
  headerOf name (writeData h status type body) = map snd (filter (fun kv => kv.1 = str name) h).
Proof. intros Hn. by apply headerOf_other. Qed.

(** [success i] answers with the [i]-th success of the operation. *)
Ltac the_header :=
  eexists; split; [rewrite ?headerOf_writeJSON, ?headerOf_writeData by done; first [apply headerOf_same|
    rewrite headerOf_other by done; apply headerOf_same|by vm_compute]|first [done|by vm_compute]].
Ltac success := eapply conforms_success;
  [cbn [successesOf]; first [by apply list_elem_of_here|apply list_elem_of_further; by apply list_elem_of_here]|done|
   repeat first [apply Forall_nil_2|apply Forall_cons_2; [the_header|]]|].

Ltac is_failure := unfold createDBError, startError, listError, planRefused, queryError, createDocError, replaceError, patchError,
  deleteDocError, writeFailure, badRequest; repeat case_match; by vm_compute.

Section Success.
Context `{CryptoSpec} `{JS : JSONPathSpec} `{JSONPatch}.
Variables (ap : api) (a : astate).
Context (Hwf : wfState a) (Hcanon : storesCanonical (ap_maxBodyBytes ap) a) (Hversion : utf8Valid (ap_version ap) = true).

Lemma createDB_fits r resp a' : createDBSpec ap a r resp a' -> fits TCreateDB resp.
Proof.
  unfold createDBSpec, unlessRefused. destruct (requestDB ap r) as [refused|q] eqn:Hq.
  { intros [-> _]. left. eapply isError_status; [by eapply requestDB_isError|done]. }
  intros [[-> [key _ Hv _ _]]|(e & _ & [-> _])].
  - right. unfold dbCreated. success. apply carries_database; [|done]. revert Hq. unfold requestDB, validName. cbv zeta.
    repeat case_match; try done. intros [= <-]. apply is_ok_unit. by apply negb_false_iff.
  - left. is_failure.
Qed.

Lemma listDBs_fits r resp a' : listDBsSpec a r resp a' -> fits TListDBs resp.
Proof.
  unfold listDBsSpec, unlessRefused. destruct (requestDBs r) as [refused|[limit cursor]] eqn:Hq.
  { intros [-> _]. left. eapply isError_status; [by eapply requestDBs_isError|done]. }
  intros [-> _]. right. success. apply carries_dbList, Forall_take, Forall_forall.
  intros n [_ [d Hd]%elem_sortedKeys]%list_elem_of_filter. apply (Hwf n d Hd).
Qed.

Lemma listAnswer_fits ids cursor : Forall validID ids -> utf8Valid cursor = true -> fits TListDocs (listAnswer ids cursor).
Proof. intros Hids Hc. right. unfold listAnswer. success. by apply carries_docList. Qed.

Lemma listDocs_fits n r resp a' : listDocsSpec a n r resp a' -> fits TListDocs resp.
Proof.
  unfold listDocsSpec, unlessRefused. destruct (requestDocs n r) as [refused|query] eqn:Hq.
  { intros [-> _]. left. eapply isError_status; [by eapply requestDocs_isError|done]. }
  destruct (a !! n) as [d|] eqn:Hd; [|intros [-> _]; by left]. pose proof (Hwf n d Hd) as Hwd.
  destruct (dq_indexed query).
  - unfold listQuerySpec. destruct (queryStart _ _ _) as [[[e v] cursor]|err|] eqn:Hs; cycle 1.
    { intros [-> _]. left. is_failure. }
    { done. }
    destruct (findIndex _ _); [|intros [-> _]; left; is_failure].
    pose proof (validID_indexAnswer n d Hwd (dq_index query) (dq_op query) (dq_limit query) e cursor v) as Hids.
    destruct (indexAnswer _ _ _ _ _ _ _) as [[[ids id'] lv'] more]. intros (token & [-> _] & Ht).
    apply listAnswer_fits; [done|]. destruct more; [by eapply queryStart_utf8|by rewrite Ht].
  - unfold listPlainSpec. pose proof (validID_page n d Hwd (dq_limit query) (dq_cursor query)) as Hids.
    destruct (page _ _ _) as [ids more]. cbn [fst] in Hids. intros [-> _].
    apply listAnswer_fits; [done|]. destruct more; [by apply validID_last|done].
Qed.

Lemma queryDocs_fits n r resp a' : queryDocsSpec ap a n r resp a' -> fits TQueryDocs resp.
Proof.
  unfold queryDocsSpec, unlessRefused. destruct (requestQuery ap n r) as [refused|query] eqn:Hq.
  { intros [-> _]. left. eapply isError_status; [by eapply requestQuery_isError|done]. }
  intros [(e & _ & [-> _])|(d & plan & Hd & _ & _ & _ & [(e & _ & [-> _])|(ids & cursor & Ha & [-> _])])].
  - left. is_failure.
  - left. is_failure.
  - right. unfold queryHeader. success. destruct Ha as (d' & e & aid & av & ids' & id' & lv' & more & Hd' & _ & _ & Hpa & <- & Hc).
    pose proof (validID_planAnswer n d' (Hwf n d' Hd') plan query e aid av) as Hids. rewrite Hpa in Hids.
    apply carries_docList; [done|]. cbn [snd] in Hc. destruct more; [by eapply pathStart_utf8|by rewrite Hc].
Qed.

Lemma deleteDB_fits n resp a' : deleteDBSpec a n resp a' -> fits TDeleteDB resp.
Proof.
  unfold deleteDBSpec. destruct (negb _); [intros [-> _]; by left|]. destruct (a !! n); [|intros [-> _]; by left].
  intros [-> _]. right. by success.
Qed.

Lemma createDoc_fits n r resp a' : createDocSpec ap a n r resp a' -> fits TCreateDoc resp.
Proof.
  unfold createDocSpec, unlessRefused. destruct (requestCreate ap n r) as [refused|document] eqn:Hq.
  { intros [-> _]. left. eapply isError_status; [by eapply requestCreate_isError|done]. }
  intros [(id & rev & Hid & [d _ _ (_ & Hrev & _) _] & ->)|(id & e & _ & _ & [-> _])].
  - right. apply etagText_formatETag in Hrev. unfold docCreated. success. by apply carries_docCreated.
  - left. is_failure.
Qed.

(** The document of an answer, with its revision. *)
Lemma docAnswer_fits t document rev :
  successesOf t = [(200, [hETag], AppJson SAny)] -> canonical (ap_maxBodyBytes ap) document -> wf_revision rev ->
  fits t (docAnswer document rev).
Proof.
  intros Ht Hd Hrev%etagText_formatETag. right. unfold docAnswer.
  eapply conforms_success; [rewrite Ht; by apply list_elem_of_here|done| |by eapply carries_document].
  apply Forall_cons_2; [the_header|done].
Qed.

Lemma getDoc_fits n id resp a' : getDocSpec a n id resp a' -> fits TGetDoc resp.
Proof.
  unfold getDocSpec. destruct (validDocPath n id) as [refused|] eqn:Hp.
  { intros [-> _]. left. eapply isError_status; [by eapply validDocPath_isError|done]. }
  destruct (d ← a !! n; ldb_docs d !! id) as [doc|] eqn:Hdoc; intros [-> _]; [|by left].
  apply bind_Some in Hdoc as (d & Hd & Hdoc). apply docAnswer_fits; [done|by eapply Hcanon|].
  destruct (Hwf n d Hd) as (_ & _ & _ & _ & Hdocs). apply (Hdocs id doc Hdoc).
Qed.

Lemma replaceDoc_fits n id r resp a' : replaceDocSpec ap a n id r resp a' -> fits TReplaceDoc resp.
Proof.
  unfold replaceDocSpec, unlessRefused. destruct (requestReplace ap n id r) as [refused|[match_ document]] eqn:Hq.
  { intros [-> _]. left. eapply isError_status; [by eapply requestReplace_isError|done]. }
  intros [(d & current & rev & _ & [d' _ _ _ (_ & Hrev & _) _] & ->)|(e & _ & [-> _])]; [|left; is_failure].
  apply docAnswer_fits; [done| |done]. by eapply requestReplace_canonical.
Qed.

Lemma patchDoc_fits n id r resp a' : patchDocSpec ap a n id r resp a' -> fits TPatchDoc resp.
Proof.
  unfold patchDocSpec, unlessRefused. destruct (requestPatch ap n id r) as [refused|[[match_ body] type]] eqn:Hq.
  { intros [-> _]. left. eapply isError_status; [by eapply requestPatch_isError|done]. }
  intros [(d & current & document & rev & _ & Hp & [d' _ _ _ (_ & Hrev & _) _] & ->)|(e & _ & [-> _])]; [|left; is_failure].
  apply docAnswer_fits; [done| |done]. apply applyPatch_ok in Hp as (result & _ & Hv). by eapply validateDoc_idem.
Qed.

Lemma deleteDoc_fits n id r resp a' : deleteDocSpec a n id r resp a' -> fits TDeleteDoc resp.
Proof.
  unfold deleteDocSpec, unlessRefused. destruct (requestDelete n id r) as [refused|match_] eqn:Hq.
  { intros [-> _]. left. eapply isError_status; [by eapply requestDelete_isError|done]. }
  intros [(_ & -> & _)|(e & _ & [-> _])]; [right; by success|left; is_failure].
Qed.

Lemma headerOf_one name value : map snd (filter (fun kv : bytes * bytes => kv.1 = str name) [(str name, value)]) = [value].
Proof. by rewrite filter_cons_True. Qed.

Lemma redirect_conforms r location status :
  status = 301 \/ status = 307 -> conforms TRedirect (redirect r location status).
Proof.
  intros Hst. assert (exists value, headerOf "Location" (redirect r location status) = [value] /\ true = true) as Hl.
  { exists (hexEscapeNonASCII (cleanLocation location)). split; [|done]. unfold redirect. cbv zeta.
    generalize (cleanLocation location) as url. intros url. unfold headerOf.
    destruct (bool_decide _); [|destruct (bool_decide _)]; cbn [rs_header];
      [rewrite headerOf_other by done; apply headerOf_one..|apply headerOf_one]. }
  assert (rs_status (redirect r location status) = status) as Hs by (unfold redirect; by repeat case_match).
  assert (forall st, (st, [hLocation], AnyBody) ∈ successesOf TRedirect -> status = st ->
            conforms TRedirect (redirect r location status)) as Hall.
  { intros st Hin <-. eapply conforms_success; [exact Hin|exact Hs| |done].
    exact (Forall_cons_2 _ hLocation [] Hl (Forall_nil_2 _)). }
  destruct Hst as [Hst|Hst]; (eapply Hall; [|exact Hst]); cbn [successesOf].
  - by apply list_elem_of_here.
  - apply list_elem_of_further. by apply list_elem_of_here.
Qed.

Lemma redirectNoSlash_status r : rs_status (redirectNoSlash r) = redirectStatus (rq_method r).
Proof.
  assert (forall location status, rs_status (redirect r location status) = status) as Hs
    by (intros location status; unfold redirect; by repeat case_match).
  unfold redirectNoSlash, redirectStatus. rewrite Hs. unfold MethodGet. by case_bool_decide; case_decide.
Qed.

(** *** Bulk *)

Lemma exported_conforms n d part rest :
  a !! n = Some d -> exportBytes (exportedDocs d) = part ++ rest ->
  conforms TExportBulk (Response StatusOK exportHeader part).
Proof.
  intros Hd E. eapply conforms_success; [by apply list_elem_of_here|done| |].
  - apply Forall_cons_2; [|done]. exists (str "no-store"). split; by vm_compute.
  - split; [exists bulkMediaType; split; by vm_compute|]. exists (exportedDocs d), rest. split; [done|].
    eapply Forall_impl; [by eapply exportedDocs_canonical|]. by apply canonical_object.
Qed.

(** An export that does not succeed answers with a status that is described. *)
Lemma export_fits n r resp a' :
  exportSpec ap a n r resp a' -> rs_status resp ∈ errorsOf TExportBulk \/ conforms TExportBulk resp.
Proof.
  unfold exportSpec, bulkSpec. destruct (bulkRefused ap n r) as [refused|] eqn:Hr.
  { intros [-> _]. left. apply bulkRefused_isError in Hr as (h & st & c & m & l & -> & Hst & _).
    cbn in Hst |- *. set_unfold in Hst. set_unfold. lia. }
  destruct (a !! n) as [d|] eqn:Hd; intros [-> _]; [|left; in_list].
  right. eapply exported_conforms; [done|by rewrite app_nil_r].
Qed.

Lemma exportCut_fits n resp :
  exportCut a n resp -> rs_status resp ∈ errorsOf TExportBulk \/ conforms TExportBulk resp.
Proof.
  intros [[Hs|Hs]|(d & part & rest & Hd & E & ->)]; [left; rewrite Hs; in_list..|]. right. by eapply exported_conforms.
Qed.

Lemma import_fits n r resp a' : importSpec ap a n r resp a' -> fits TImportBulk resp.
Proof.
  unfold importSpec, bulkSpec. destruct (negb _); [intros [-> _]; by left|].
  destruct (bulkRefused ap n r) as [refused|] eqn:Hr.
  { intros [-> _]. left. apply bulkRefused_isError in Hr as (h & st & c & m & l & -> & Hst & _).
    cbn in Hst |- *. set_unfold in Hst. lia. }
  destruct (rq_end r) as [broken|]; [intros (e & [-> _]); left; apply failBulk_status|].
  destruct (_ <? _); [intros (e & _ & [-> _]); left; apply failBulk_status|].
  destruct (bulkOutcome _) as [documents|e|]; [|intros [-> _]; left; apply failBulk_status|done].
  intros [(ids & _ & ->)|(e & _ & [-> _])]; [|left; apply failBulk_status].
  right. success. apply carries_writeJSON; [by wf_text|by vm_compute].
Qed.
End Success.

(** ** Every answer conforms *)

Section Handle.
Context {W : Type} `{CN : ConnSpec W} `{CS : CryptoSpec} `{JS : JSONPathSpec} `{JP : JSONPatch}.
Variables (wk : storeKey) (fuel : nat) (ap : api) (a : astate).
Context (Hwk : len wk = keySize) (Hfuel : (0 < fuel)%nat) (Hmax : 0 <= ap_maxBodyBytes ap).
Context (Hwf : wfState a) (Hcanon : storesCanonical (ap_maxBodyBytes ap) a) (Hversion : utf8Valid (ap_version ap) = true).

(** A status the operation may fail with, or a described answer. *)
Definition settled (t : target) (resp : response) : Prop :=
  (bulkTarget t = true /\ rs_status resp ∈ errorsOf t) \/ conforms t resp \/ 400 <= rs_status resp /\ t <> TExportBulk.

Lemma fits_settled t resp : t <> TExportBulk -> fits t resp -> settled t resp.
Proof. intros Ht [?|?]; right; [by right|by left]. Qed.

Lemma handlerSpec_settled t vars r resp a' : handlerSpec ap a t vars r resp a' -> settled t resp.
Proof.
  destruct t; cbn [handlerSpec]; cbv zeta; intros Hs; try (apply fits_settled; [done|]).
  - destruct Hs as [-> _]. right. success. apply carries_writeJSON; [by wf_text|by vm_compute].
  - destruct Hs as [-> _]. right. success. apply carries_writeJSON; [by wf_text|by vm_compute].
  - by eapply createDB_fits.
  - by eapply listDBs_fits.
  - by eapply listDocs_fits.
  - by eapply queryDocs_fits.
  - destruct Hs as [-> _]. right. by success.
  - by eapply deleteDB_fits.
  - by eapply createDoc_fits.
  - by eapply getDoc_fits.
  - by eapply replaceDoc_fits.
  - by eapply patchDoc_fits.
  - by eapply deleteDoc_fits.
  - destruct (export_fits ap a Hwf Hcanon Hversion _ _ _ _ Hs) as [?|?]; [by left|right; by left].
  - by eapply import_fits.
  - destruct Hs as [-> _]. right. unfold redirectNoSlash. apply redirect_conforms. destruct (bool_decide _); auto.
  - destruct Hs as [-> _]. by left.
  - destruct Hs as [-> _]. by left.
Qed.

Lemma handlerBad_settled t vars resp : handlerBad a t vars resp -> settled t resp.
Proof.
  destruct t; cbn [handlerBad]; intros Hs;
    try (apply fits_settled; [done|]; left; first [done|destruct Hs as [-> | ->]; by vm_compute]).
  destruct (exportCut_fits ap a Hcanon _ _ Hs) as [?|?]; [by left|right; by left].
Qed.

Lemma failure_conforms t resp :
  failure t resp -> (t = TExportBulk -> rs_status resp ∈ errorsOf t) -> conforms t resp.
Proof.
  intros Hf Ht. assert (rs_status resp ∈ errorsOf t /\ carries (if bulkTarget t then bulkUnavailable else envelope) resp) as [Hst Hc].
  { unfold failure in Hf. destruct t; cbn [bulkTarget] in *;
      first [by apply carries_error|apply carries_bulkError in Hf as [? ?]; auto]. }
  eexists (_, [], _). split; [|split; [reflexivity|split; [apply Forall_nil_2|exact Hc]]].
  unfold responsesOf, failures. apply elem_of_app. right. apply list_elem_of_fmap. by eexists.
Qed.

Lemma handle_conforms t vars r w resp w' :
  wfEnd r -> store_rep wk (contents w) a -> handle wk fuel ap t vars r w = (Ok resp, w') -> conforms t resp.
Proof.
  intros Hr Hrep Hh. pose proof (answers_handle wk fuel ap a Hwk Hfuel Hmax t vars r Hr w Hrep) as Ha.
  pose proof (handle_errors wk fuel ap t vars r w) as He. rewrite Hh in Ha, He. cbn [fst] in He.
  destruct Ha as (_ & a' & _ & Ha).
  assert (settled t resp) as [[Hb Hst]|[Hc|[Hst Ht]]].
  { destruct Ha as [Ha|(_ & Ha & _)]; [by eapply handlerSpec_settled|by eapply handlerBad_settled]. }
  - destruct He as [Hlt|He]; [|by apply failure_conforms].
    destruct t; try discriminate Hb; cbn in Hst; set_unfold in Hst; lia.
  - done.
  - destruct He as [Hlt|He]; [lia|by apply failure_conforms].
Qed.
End Handle.

(** *** While the server stops

    The answer is the same on every path, with the body of an error. *)

Lemma stopped_conforms t : conforms t stopped <-> bulkTarget t = false /\ 503 ∈ errorsOf t.
Proof.
  split.
  - intros ([[status headers] c] & Hin & Hst & _ & Hc). change (rs_status stopped) with 503 in Hst. cbn [fst snd] in Hst, Hc.
    subst status. destruct t; cbn [bulkTarget];
      try (split; [done|in_list]);
      apply (list_elem_of_fmap_2 (fun d => (d.1.1, d.2))) in Hin; cbn in Hin; set_unfold in Hin; destruct_or?; simplify_eq/=.
    all: destruct Hc as (_ & v & Hv & Hs); vm_compute in Hv; simplify_eq; vm_compute in Hs; discriminate Hs.
  - intros [Hb Hst]. apply failure_conforms; [|by intros ->]. unfold failure. rewrite Hb.
    eexists _, _, _, _. split; [reflexivity|]. split; [done|]. split; [in_list|by vm_compute].
Qed.
