(* ===== verification/Draws.v ===== *)
(** * Drawing until it is new

    IDs and revisions are drawn until one is new, which has no bound of its own.
    [FreshDraws] states of a host that its draws avoid a set of values from some
    point on, as the draws of a random source do; then every round is the last, and
    every request gets its response. *)

From S2P Require Import Prelude GoErrors Codec Text Validation Keys Json Document IndexValue Mime Patch Url DbRequest.
From S2P Require Import Host Conn Crypto Wp Store StoreRep StoreReads StoreSpec StoreBulk StoreLists Range.
From S2P Require Import Cursor Query QueryFacts Bulk BulkFacts ExportFacts Config Api Routes.
From S2P Require Import ApiFacts ApiSpec ApiRuns BulkRuns Serving.

(** [avoids k s w]: the next [k] draws from [w] on are not in [s], and no ID is
    drawn twice among them.  The other calls do not get in the way. *)
Class FreshDraws (W : Type) `{HO : Host W} `{CN : !Conn W} := {
  avoids : nat -> gset bytes -> W -> Prop;
  avoids_mono k k' s s' w : (k <= k')%nat -> s ⊆ s' -> avoids k' s' w -> avoids k s w;
  avoids_rand n k s w : avoids (S k) s w ->
    let '(r, w') := randRead n w in
    avoids k s w' /\ match r with inr b => n = 16%nat -> b ∉ s | inl _ => True end;
  avoids_id k s w b w1 : avoids (S k) s w -> randRead 16 w = (inr b, w1) ->
    let '(millis, w2) := nowMillis w1 in
    formatID b millis ∉ s /\ avoids k ({[formatID b millis]} ∪ s) w2;
  avoids_get key k s w : avoids k s w -> avoids k s (pebbleGet key w).2;
  avoids_iter lo hi k s w : avoids k s w -> avoids k s (pebbleIter lo hi w).2;
  avoids_queue op k s w : avoids k s w -> avoids k s (pebbleQueue op w).2;
  avoids_commit b k s w : avoids k s w -> avoids k s (pebbleCommit b w).2;
  avoids_close k s w : avoids k s w -> avoids k s (pebbleClose w).2;
  avoids_requestErr k s w : avoids k s w -> avoids k s (requestErr w).2;
  avoids_requestExpired k s w : avoids k s w -> avoids k s (requestExpired w).2;
  avoids_deadline k s w : avoids k s w -> avoids k s (connDeadline w).2;
}.

Create HintDb steady.

Section Steady.
Context {W : Type} `{FD : FreshDraws W} `{CR : Crypto}.
Implicit Types (s : gset bytes) (j k : nat).

(** The code returns after at most [j] draws, and the draws after it go on avoiding
    the set. *)
Definition steady j s {A : Type} (m : M W A) (P : A -> Prop) : Prop :=
  forall k w, avoids (j + k) s w ->
    avoids k s (m w).2 /\ match (m w).1 with Ok x => P x | Err _ => True | OutOfFuel => False end.

Lemma avoids_fewer j k s w : avoids (j + k) s w -> avoids k s w.
Proof. apply avoids_mono; [lia|done]. Qed.

Lemma steady_ret j s {A : Type} (x : A) (P : A -> Prop) : P x -> steady j s (mret x) P.
Proof. intros HP k w Hw%avoids_fewer. by split. Qed.

Lemma steady_throw j s {A : Type} e (P : A -> Prop) : steady j s (throw e) P.
Proof. intros k w Hw%avoids_fewer. by split. Qed.

Lemma steady_mono j j' s {A : Type} (m : M W A) (P Q : A -> Prop) :
  steady j s m P -> (j <= j')%nat -> (forall x, P x -> Q x) -> steady j' s m Q.
Proof.
  intros Hm Hj HP k w Hw. destruct (Hm k w) as [? Hr]; [by eapply avoids_mono; [|reflexivity|exact Hw]; lia|].
  split; [done|]. destruct (m w).1; auto.
Qed.

Lemma steady_bind j1 j2 s {A B : Type} (m : M W A) (f : A -> M W B) (P : A -> Prop) (Q : B -> Prop) :
  steady j1 s m P -> (forall x, P x -> steady j2 s (f x) Q) -> steady (j1 + j2) s (m ≫= f) Q.
Proof.
  intros Hm Hf k w Hw. rewrite <- Nat.add_assoc in Hw. specialize (Hm _ w Hw). unfold mbind, M_bind.
  destruct (m w) as [[x|e|] w1]; cbn [fst snd] in *; destruct Hm as [Hw1 Hr]; [by apply Hf| |done].
  split; [by eapply avoids_fewer|done].
Qed.

Lemma steady_lift j s {A : Type} (r : res A) : r <> OutOfFuel -> steady j s (lift r) (fun _ => True).
Proof. intros Hr k w Hw%avoids_fewer. split; [done|]. by destruct r. Qed.

Lemma steady_onErr j s {A : Type} f (m : M W A) (P : A -> Prop) : steady j s m P -> steady j s (onErr f m) P.
Proof. intros Hm k w Hw. specialize (Hm k w Hw). unfold onErr. by destruct (m w) as [[x|e|] w1]. Qed.

Lemma steady_catch j s {A : Type} (m : M W A) (P : A -> Prop) :
  steady j s m P -> steady j s (catch m) (fun x => match x with inr x => P x | inl _ => True end).
Proof. intros Hm k w Hw. specialize (Hm k w Hw). unfold catch. by destruct (m w) as [[x|e|] w1]. Qed.

Lemma steady_ofSum s {A : Type} (f : W -> (error + A) * W) :
  (forall k w, avoids k s w -> avoids k s (f w).2) -> steady 0 s (ofSum f) (fun _ => True).
Proof. intros Hf k w Hw. specialize (Hf k w Hw). unfold ofSum. by destruct (f w) as [[e|x] w1]. Qed.

Lemma steady_ofOpt s (f : W -> option error * W) :
  (forall k w, avoids k s w -> avoids k s (f w).2) -> steady 0 s (ofOpt f) (fun _ => True).
Proof. intros Hf k w Hw. specialize (Hf k w Hw). unfold ofOpt. by destruct (f w) as [[e|] w1]. Qed.

Lemma steady_close s : steady 0 s close (fun _ => True).
Proof. apply steady_onErr, steady_ofOpt. intros k w. apply avoids_close. Qed.

Lemma steady_deferClose j s {A : Type} (m : M W A) (P : A -> Prop) : steady j s m P -> steady j s (deferClose m) P.
Proof.
  intros Hm k w Hw. specialize (Hm k w Hw). unfold deferClose. destruct (m w) as [r w1]. cbn [fst snd] in Hm.
  destruct Hm as [Hw1 Hr]. pose proof (steady_close s k w1 Hw1) as Hc. destruct (close w1) as [[[]|ce|] w2];
    cbn [fst snd] in Hc; destruct Hc as [Hw2 Hc]; [by destruct r|by destruct r|done].
Qed.
End Steady.

(** The steps that are calls of the host, and the case distinctions between them;
    a call draws once or not at all. *)
Ltac steady_step :=
  match goal with
  | |- steady _ _ (mret _) _ => apply steady_ret; try done
  | |- steady _ _ (throw _) _ => apply steady_throw
  | |- steady _ _ (onErr _ _) _ => apply steady_onErr
  | |- steady _ _ (deferClose _) _ => apply steady_deferClose
  | |- steady _ _ (let '(_, _) := ?x in _) _ => destruct x
  | |- steady _ _ (match ?x with _ => _ end) _ => destruct x
  | |- steady _ _ (mbind _ _) _ => apply (steady_bind 0 _ _ _ _ (fun _ => True)); [solve [repeat (cbv beta; steady_step)]|intros ? _]
  | |- steady (S _) _ (mbind _ _) _ => apply (steady_bind 1 _ _ _ _ (fun _ => True)); [solve [repeat (cbv beta; steady_step)]|intros ? _]
  | |- steady _ _ _ _ => solve [eauto with steady]
  | |- steady _ _ _ _ => eapply steady_mono; [solve [eauto with steady]|lia|done]
  end.
Ltac steady := cbv zeta; repeat (cbv beta; steady_step).

(** ** The calls of the host *)

Section Calls.
Context {W : Type} `{FD : FreshDraws W} `{CR : Crypto}.
Implicit Types (s : gset bytes).

Lemma steady_dbGet s k : steady 0 s (dbGet k) (fun _ => True).
Proof. apply steady_ofSum. intros j w. apply avoids_get. Qed.

Lemma steady_newIter s lo hi : steady 0 s (newIter lo hi) (fun _ => True).
Proof. apply steady_onErr, steady_ofSum. intros k w. apply avoids_iter. Qed.

Lemma steady_rand s n : steady 1 s (rand n) (fun b => n = 16%nat -> b ∉ s).
Proof.
  apply steady_onErr. intros k w Hw. pose proof (avoids_rand n k s w Hw) as Hr. unfold ofSum.
  by destruct (randRead n w) as [[e|b] w1].
Qed.

Lemma steady_queue s b op : steady 0 s (queue b op) (fun _ => True).
Proof.
  unfold queue. apply (steady_bind 0 0 _ _ _ (fun _ => True)); [|intros; by apply steady_ret].
  apply steady_onErr, steady_ofOpt. intros k w. apply avoids_queue.
Qed.

Lemma steady_commit s b : steady 0 s (commit b) (fun _ => True).
Proof. apply steady_onErr, steady_ofOpt. intros k w. apply avoids_commit. Qed.

Lemma steady_ctxErr s ctx : steady 0 s (ctxErr ctx) (fun _ => True).
Proof. destruct ctx; [by apply steady_ret|]. apply steady_ofOpt. intros k w. apply avoids_requestErr. Qed.

Lemma steady_ctxExpired s ctx : steady 0 s (ctxExpired ctx) (fun _ => True).
Proof.
  destruct ctx; [by apply steady_ret|]. intros k w Hw. pose proof (avoids_requestExpired k s w Hw) as Hr.
  cbn [ctxExpired]. unfold ofVal. by destruct (requestExpired w).
Qed.

Lemma steady_iterError s it rest : steady 0 s (iterError it rest) (fun _ => True).
Proof. unfold iterError. repeat case_match; by first [apply steady_ret|apply steady_throw]. Qed.

(** An ID that is new, and is not drawn again. *)
Lemma makeID_fresh k s w :
  avoids (S k) s w ->
  let '(r, w') := makeID w in
  match r with Ok id => id ∉ s /\ avoids k ({[id]} ∪ s) w' | Err _ => avoids k s w' | OutOfFuel => False end.
Proof.
  intros Hw. pose proof (avoids_rand 16 k s w Hw) as Hr. pose proof (avoids_id k s w) as Hid.
  unfold makeID, rand, now, onErr, ofSum, ofVal, mbind, M_bind. destruct (randRead 16 w) as [[e|b] w1]; [by destruct Hr|].
  specialize (Hid b w1 Hw eq_refl). by destruct (nowMillis w1) as [ms w2].
Qed.
End Calls.
#[export] Hint Resolve steady_dbGet steady_newIter steady_rand steady_queue steady_commit steady_close steady_ctxErr
  steady_ctxExpired steady_iterError : steady.

(** ** The store *)

Lemma newGCM_returns key : newGCM key <> OutOfFuel.
Proof. unfold newGCM. by destruct (aesKeyLen key). Qed.

Section Code.
Context {W : Type} `{FD : FreshDraws W} `{CR : Crypto}.
Implicit Types (s : gset bytes).
Variable wk : bytes.

Lemma deriveDocumentKey_returns dbk id : deriveDocumentKey dbk id <> OutOfFuel.
Proof. unfold deriveDocumentKey, deriveKey. by destruct (negb _). Qed.

Hint Resolve steady_lift newGCM_returns deriveDocumentKey_returns indexValues_total : steady.

Lemma steady_lookupKey s k : steady 0 s (lookupKey k) (fun _ => True).
Proof.
  unfold lookupKey. eapply (steady_bind 0 0); [apply steady_catch, steady_dbGet|]. intros [e|v] _; [|by apply steady_ret].
  destruct (errorsIs _ e); [by apply steady_ret|apply steady_throw].
Qed.
Hint Resolve steady_lookupKey : steady.

Lemma steady_has s k : steady 0 s (has k) (fun _ => True).
Proof. unfold has. steady. Qed.

Lemma steady_databaseKey s n : steady 0 s (databaseKey wk n) (fun _ => True).
Proof. unfold databaseKey. steady. Qed.
Hint Resolve steady_has steady_databaseKey : steady.

Lemma steady_documentDBKey s n : steady 0 s (documentDBKey wk n) (fun _ => True).
Proof. unfold documentDBKey. steady. Qed.

Lemma steady_readDoc s n id dbk : steady 0 s (readDoc n id dbk) (fun _ => True).
Proof. unfold readDoc. steady. Qed.

Lemma steady_indexes_loop s prefix l defs : steady 0 s (indexes_loop prefix l defs) (fun _ => True).
Proof.
  revert defs. induction l as [|[key value] l IH]; intros defs; cbn [indexes_loop]; steady.
Qed.
Hint Resolve steady_indexes_loop : steady.

Lemma steady_indexes s n : steady 0 s (indexes n) (fun _ => True).
Proof. unfold indexes. steady. Qed.

Lemma steady_queueAll s b ops : steady 0 s (queueAll b ops) (fun _ => True).
Proof. revert b. induction ops as [|op ops IH]; intros b; cbn [queueAll]; steady. Qed.
Hint Resolve steady_queueAll steady_documentDBKey steady_readDoc steady_indexes : steady.

Lemma steady_setIndexEntries s b n id values : steady 0 s (setIndexEntries b n id values) (fun _ => True).
Proof. unfold setIndexEntries. steady. Qed.

Lemma steady_changeIndexEntries s b n id old next : steady 0 s (changeIndexEntries b n id old next) (fun _ => True).
Proof. unfold changeIndexEntries. steady. Qed.

Lemma steady_sealDoc s k dbk id rev json : steady 1 s (sealDoc k dbk id rev json) (fun _ => True).
Proof. unfold sealDoc. steady. Qed.
Hint Resolve steady_setIndexEntries steady_changeIndexEntries steady_sealDoc : steady.

(** A revision that the draws avoid is not drawn. *)
Lemma steady_makeRevision s fuel previous :
  (0 < fuel)%nat -> match previous with Some p => p ∈ s | None => True end ->
  steady 1 s (makeRevision fuel previous) (fun _ => True).
Proof.
  intros Hf Hp. destruct fuel as [|f]; [lia|]. cbn [makeRevision].
  eapply (steady_bind 1 0); [apply steady_rand|]. intros rev Hrev. specialize (Hrev eq_refl).
  destruct previous as [p|]; [|by apply steady_ret]. destruct (decide (rev = p)) as [->|_]; [done|by apply steady_ret].
Qed.
Hint Resolve steady_makeRevision : steady.

Lemma steady_createDocWithID s fuel n id json :
  (0 < fuel)%nat -> steady 2 s (createDocWithID wk fuel n id json) (fun _ => True).
Proof. intros Hf. unfold createDocWithID. steady. Qed.

Lemma steady_importDocs_loop s ctx n dbk defs maxBatch line l b :
  steady (length l) s (importDocs_loop ctx n dbk defs maxBatch line l b) (fun _ => True).
Proof.
  revert line b. induction l as [|[document [id rev]] l IH]; intros line b; cbn [importDocs_loop]; steady.
Qed.

Lemma steady_hasAnyDoc s n ids : steady 0 s (hasAnyDoc n ids) (fun _ => True).
Proof. induction ids as [|id ids IH]; cbn [hasAnyDoc]; steady. Qed.
End Code.
#[export] Hint Resolve steady_lift newGCM_returns deriveDocumentKey_returns indexValues_total steady_lookupKey steady_has
  steady_databaseKey steady_documentDBKey steady_readDoc steady_indexes steady_queueAll steady_setIndexEntries
  steady_changeIndexEntries steady_sealDoc steady_makeRevision steady_importDocs_loop steady_hasAnyDoc : steady.

(** ** What returns *)

(** Every ID and every revision in the state. *)
Definition covers (s : gset bytes) (a : astate) : Prop :=
  forall n d id doc, a !! n = Some d -> ldb_docs d !! id = Some doc -> id ∈ s /\ sd_revision doc ∈ s.

Section Returns.
Context {W : Type} `{FD : FreshDraws W} `{HS : !HostSpec W} `{CS : CryptoSpec}.
Implicit Types (s : gset bytes).
Variables (wk : storeKey) (s : gset bytes) (c : gmap bytes bytes) (a : astate).
Context (Hrep : store_rep wk c a) (Hs : covers s a).

Definition returns (k : nat) {A : Type} (m : M W A) : Prop :=
  forall w, contents w = c -> avoids k s w -> (m w).1 <> OutOfFuel.

Lemma returns_steady k {A : Type} (m : M W A) (P : A -> Prop) : steady k s m P -> returns k m.
Proof.
  intros Hm w _ Hw Hr. rewrite <- (Nat.add_0_r k) in Hw. destruct (Hm 0%nat w Hw) as [_ H']. by rewrite Hr in H'.
Qed.

Lemma returns_bind k {A B : Type} (m : M W A) (f : A -> M W B) (P Q : A -> Prop) (E : exits) :
  steady 0 s m P -> reads c m Q E -> (forall x, P x -> Q x -> returns k (f x)) -> returns k (m ≫= f).
Proof.
  intros Hm Hr Hk w Hc Hw. specialize (Hm k w Hw). specialize (Hr w Hc). unfold mbind, M_bind.
  destruct (m w) as [[x|e|] w1]; cbn [fst snd] in Hm; destruct Hm as [Hw1 Hx]; [|done|done].
  destruct Hr as [[Hc1 _] Hq]. apply Hk; [done|done|by rewrite Hc1|done].
Qed.

Lemma createDoc_returns fuel n json : validName n -> (0 < fuel)%nat -> returns 3 (createDoc wk fuel n json).
Proof.
  intros Hn Hf w Hc Hw. destruct fuel as [|f]; [lia|]. cbn [createDoc]. unfold mbind, M_bind, catch.
  pose proof (makeID_fresh 2 s w Hw) as Hid. pose proof (reads_makeID c noExit w Hc) as Hr.
  destruct (makeID w) as [[id|e|] w1]; [|done|done]. destruct Hid as [Hnew Hw1], Hr as [[Hc1 _] Hvalid].
  apply (avoids_mono 2 2 s) in Hw1; [|done|set_solver].
  pose proof (steady_createDocWithID wk s (S f) n id json ltac:(lia) 0%nat w1 Hw1) as Hsteady.
  pose proof (triple_createDocWithID wk c a (S f) n id json Hrep Hn Hvalid ltac:(lia) w1 ltac:(by rewrite Hc1)) as Ht.
  destruct (createDocWithID wk (S f) n id json w1) as [[rev|e|] w2]; cbn [fst snd] in Hsteady; [done| |by destruct Hsteady].
  assert (errorsIs errDocExists e = false) as ->; [|done].
  destruct Ht as [_ [(a' & _ & -> & He)|((? & [= <-] & Ho) & _)]]; [|by apply Ho].
  destruct He as [|d Hd [doc Hdoc]|d e Hd _ He|]; [done| |by eapply indexValues_errors|done].
  by destruct (Hs _ _ _ _ Hd Hdoc).
Qed.

(** The rest of an update draws a revision that is not the current one. *)
Lemma steady_storeUpdate {A : Type} fuel n id dbk current json (f : revision -> A) :
  (0 < fuel)%nat -> sd_revision current ∈ s -> steady 2 s (storeUpdate fuel n id dbk current json f) (fun _ => True).
Proof.
  intros Hf Hcur. unfold storeUpdate. steady.
Qed.

Lemma returns_lookup {A : Type} n id k (f : bytes -> storedDoc -> M W A) :
  validName n -> (forall dbk current, sd_revision current ∈ s -> returns k (f dbk current)) ->
  returns k (dbk ← documentDBKey wk n; current ← readDoc n id dbk; f dbk current).
Proof.
  intros Hn Hk. eapply returns_bind; [apply steady_documentDBKey|by apply (reads_documentDBKey wk c a Hrep)|].
  intros dbk _ (d & Hd & ->).
  eapply returns_bind; [apply steady_readDoc|by apply (reads_readDoc wk c a Hrep n d Hd)|].
  intros current _ Hcur. apply Hk. by destruct (Hs _ _ _ _ Hd Hcur).
Qed.

Lemma replaceDoc_returns fuel n id json m : validName n -> (0 < fuel)%nat -> returns 2 (replaceDoc wk fuel n id json m).
Proof.
  intros Hn Hf. apply (returns_lookup n id 2 (fun dbk current => if negb (matchRevision m (sd_revision current))
    then throw errPreconditionFailed else storeUpdate fuel n id dbk current json (fun r => r))); [done|].
  intros dbk current Hcur. destruct (negb _); [by eapply returns_steady, steady_throw with (P := fun _ => True)|].
  by eapply returns_steady, steady_storeUpdate.
Qed.

Lemma patchDoc_returns fuel n id m apply_ :
  validName n -> (0 < fuel)%nat -> (forall json, apply_ json <> OutOfFuel) -> returns 2 (patchDoc wk fuel n id m apply_).
Proof.
  intros Hn Hf Ha. apply (returns_lookup n id 2 (fun dbk current => if negb (matchRevision m (sd_revision current))
    then throw errPreconditionFailed else
      json ← lift (apply_ (sd_json current)); storeUpdate fuel n id dbk current json (fun r => StoredDoc json r))); [done|].
  intros dbk current Hcur. destruct (negb _); [by eapply returns_steady, steady_throw with (P := fun _ => True)|].
  eapply returns_steady, (steady_bind 0 2); [by apply steady_lift|]. intros json _. by apply steady_storeUpdate.
Qed.

(** IDs for an import, all at the first draw. *)
Lemma drawID_fresh fuel k seen w :
  (0 < fuel)%nat -> avoids (S k) (list_to_set seen ∪ s) w ->
  let '(r, w') := drawID fuel seen w in
  match r with
  | Ok id => id ∉ s /\ avoids k (list_to_set (id :: seen) ∪ s) w'
  | Err _ => avoids k s w'
  | OutOfFuel => False
  end.
Proof.
  intros Hf Hw. destruct fuel as [|fuel]; [lia|]. cbn [drawID].
  pose proof (makeID_fresh k (list_to_set seen ∪ s) w Hw) as Hid. unfold mbind, M_bind.
  destruct (makeID w) as [[id|e|] w1]; [|apply (avoids_mono _ k _ (list_to_set seen ∪ s)); [done|set_solver|done]|done].
  destruct Hid as [Hnew Hw1]. destruct (decide (id ∈ seen)) as [Hin|Hin]; [set_solver|]. cbn. split; [set_solver|].
  eapply avoids_mono; [reflexivity| |exact Hw1]. set_solver.
Qed.

Lemma makeImportIDs_fresh fuel count k seen w :
  (0 < fuel)%nat -> avoids (2 * count + k) (list_to_set seen ∪ s) w ->
  let '(r, w') := makeImportIDs fuel count seen w in
  avoids k s w' /\ match r with Ok l => Forall (fun x => x.1 ∉ s) l | Err _ => True | OutOfFuel => False end.
Proof.
  intros Hf. revert seen w. induction count as [|count IH]; intros seen w Hw; cbn [makeImportIDs].
  { split; [|done]. eapply avoids_mono; [| |exact Hw]; [lia|set_solver]. }
  replace (2 * S count + k)%nat with (S (S (2 * count + k))) in Hw by lia.
  pose proof (drawID_fresh fuel _ seen w Hf Hw) as Hid. unfold mbind at 1, M_bind at 1.
  destruct (drawID fuel seen w) as [[id|e|] w1]; [|split; [|done]; eapply avoids_mono; [|reflexivity|exact Hid]; lia|done].
  destruct Hid as [Hnew Hw1].
  pose proof (steady_makeRevision (list_to_set (id :: seen) ∪ s) 1 None ltac:(lia) I (2 * count + k)%nat w1 Hw1) as Hrev.
  unfold mbind at 1, M_bind at 1.
  destruct (makeRevision 1 None w1) as [[rev|e|] w2]; cbn [fst snd] in Hrev; destruct Hrev as [Hw2 Hr]; [| |done].
  - specialize (IH (id :: seen) w2 Hw2). unfold mbind, M_bind.
    destruct (makeImportIDs fuel count (id :: seen) w2) as [[l|e|] w3]; destruct IH as [Hw3 Hl]; [|done|done].
    split; [done|]. by constructor.
  - split; [|done]. eapply avoids_mono; [| |exact Hw2]; [lia|set_solver].
Qed.

Lemma reads_hasAnyDoc_true n d ids :
  a !! n = Some d -> Forall (fun id => ldb_docs d !! id = None) ids ->
  reads c (hasAnyDoc n ids) (fun b => b = false) noExit.
Proof.
  intros Hd. induction 1 as [|id ids Hid _ IH]; cbn [hasAnyDoc]; [by apply reads_ret|].
  eapply reads_bind; [by apply reads_wrapped, (reads_has wk c a Hrep n d Hd); apply outside_wrapf|].
  intros ? ->. rewrite Hid. by rewrite bool_decide_eq_false_2 by (by intros [? ?]).
Qed.

Lemma chooseImportIDs_returns fuel rounds n d count k w :
  (0 < fuel)%nat -> (0 < rounds)%nat -> a !! n = Some d -> contents w = c -> avoids (2 * count + k) s w ->
  let '(r, w') := chooseImportIDs fuel rounds n count w in avoids k s w' /\ r <> OutOfFuel.
Proof.
  intros Hf Hr Hd Hc Hw. destruct rounds as [|rounds]; [lia|]. cbn [chooseImportIDs]. unfold mbind, M_bind.
  pose proof (makeImportIDs_fresh fuel count k [] w Hf) as Hids.
  specialize (Hids ltac:(eapply avoids_mono; [reflexivity| |exact Hw]; set_solver)).
  pose proof (reads_makeImportIDs c fuel count [] w Hc) as Hreads.
  destruct (makeImportIDs fuel count [] w) as [[l|e|] w1]; destruct Hids as [Hw1 Hl]; [|done|done].
  destruct Hreads as [[Hc1 _] _]. pose proof (steady_hasAnyDoc s n (map fst l) k w1 Hw1) as Hany.
  pose proof (reads_hasAnyDoc_true n d (map fst l) Hd) as Hnone.
  specialize (Hnone ltac:(apply Forall_fmap; eapply Forall_impl; [exact Hl|intros [id rev] Hnew; apply eq_None_not_Some;
    intros [doc Hdoc]; by destruct (Hs _ _ _ _ Hd Hdoc)]) w1 ltac:(by rewrite Hc1)).
  destruct (hasAnyDoc n (map fst l) w1) as [[b|e|] w2]; cbn [fst snd] in Hany; destruct Hany as [Hw2 Hb]; [|done|done].
  destruct Hnone as [_ ->]. done.
Qed.

Lemma importDocs_returns fuel ctx n documents maxBatch :
  validName n -> (0 < fuel)%nat -> returns (3 * length documents) (importDocs wk fuel ctx n documents maxBatch).
Proof.
  intros Hn Hf. unfold importDocs.
  eapply returns_bind; [apply steady_databaseKey|by apply (reads_databaseKey wk c a)|]. intros dbk _ (d & Hd & ->).
  eapply returns_bind; [apply steady_indexes|by apply (reads_indexes wk c a Hrep n d Hd)|]. intros ? _ ->.
  intros w Hc Hw. pose proof (chooseImportIDs_returns fuel fuel n d (length documents) (length documents) w Hf Hf Hd Hc) as Hids.
  specialize (Hids ltac:(eapply avoids_mono; [|reflexivity|exact Hw]; lia)).
  unfold mbind at 1, M_bind at 1. destruct (chooseImportIDs _ _ _ _ w) as [[l|e|] w1]; destruct Hids as [Hw1 Hr]; [|done|done].
  assert (steady (length (zip documents l)) s (deferClose (
    b ← importDocs_loop ctx n (ldb_key d) (ldb_defs d) maxBatch 1 (zip documents l) [];
    _ ← ctxErr ctx; _ ← commit b; mret (map fst l))) (fun _ => True)) as Hrest.
  { apply steady_deferClose. rewrite <- (Nat.add_0_r (length (zip documents l))).
    eapply steady_bind; [apply steady_importDocs_loop|intros; steady]. }
  specialize (Hrest 0%nat w1 ltac:(eapply avoids_mono; [|reflexivity|exact Hw1]; rewrite length_zip_with; lia)). destruct (deferClose _ w1) as [[x|e|] w2]; [done|done|]. by destruct Hrest.
Qed.
End Returns.

(** ** Requests *)

Section Responds.
Context {W : Type} `{CN : ConnSpec W} `{FD : !FreshDraws W} `{CS : CryptoSpec} `{JS : JSONPathSpec} `{JP : JSONPatch}.
Variables (wk : storeKey) (fuel : nat) (ap : api) (a : astate).
Context (Hwk : len wk = keySize) (Hfuel : (0 < fuel)%nat) (Hmax : 0 <= ap_maxBodyBytes ap).
Variables (s : gset bytes) (c : gmap bytes bytes).
Context (Hrep : store_rep wk c a) (Hs : covers s a).

Lemma returns_mono j k {A : Type} (m : M W A) : (j <= k)%nat -> returns s c j m -> returns s c k m.
Proof. intros Hj Hm w Hc Hw. apply (Hm w Hc). by eapply avoids_mono. Qed.

Lemma returns_ret k {A : Type} (x : A) : returns s c k (mret x).
Proof. by intros w _ _. Qed.

Lemma apiCreateDoc_returns n r : returns s c 3 (apiCreateDoc wk fuel ap n r).
Proof.
  unfold apiCreateDoc. destruct (requestCreate ap n r) as [refused|document] eqn:Hq; [apply returns_ret|].
  unfold requestCreate in Hq. destruct (negb (isJSON _)); [done|]. destruct (is_ok (validateName n)) eqn:Hn; [|done].
  apply validateName_valid in Hn. intros w Hc Hw.
  pose proof (createDoc_returns wk s c a Hrep Hs fuel n document Hn Hfuel w Hc Hw) as Hr.
  unfold mbind, M_bind, catch. by destruct (createDoc _ _ _ _ w) as [[[id rev]|e|] w1].
Qed.

Lemma apiReplaceDoc_returns n id r : returns s c 2 (apiReplaceDoc wk fuel ap n id r).
Proof.
  unfold apiReplaceDoc. destruct (requestReplace ap n id r) as [refused|[m document]] eqn:Hq; [apply returns_ret|].
  unfold requestReplace in Hq. destruct (negb (isJSON _)); [done|].
  destruct (validDocPath n id) eqn:Hp; [done|]. apply validDocPath_ok in Hp. intros w Hc Hw.
  pose proof (replaceDoc_returns wk s c a Hrep Hs fuel n id document m Hp Hfuel w Hc Hw) as Hr.
  unfold mbind, M_bind, catch. by destruct (replaceDoc _ _ _ _ _ _ w) as [[rev|e|] w1].
Qed.

Lemma apiPatchDoc_returns n id r : returns s c 2 (apiPatchDoc wk fuel ap n id r).
Proof.
  unfold apiPatchDoc. destruct (requestPatch ap n id r) as [refused|[[m body] mediaType]] eqn:Hq; [apply returns_ret|].
  unfold requestPatch in Hq. destruct (parsePatchType _); [|done..].
  destruct (validDocPath n id) eqn:Hp; [done|]. apply validDocPath_ok in Hp. intros w Hc Hw.
  pose proof (patchDoc_returns wk s c a Hrep Hs fuel n id m (fun document => applyPatch document body mediaType (ap_maxBodyBytes ap))
    Hp Hfuel ltac:(intros; apply applyPatch_total) w Hc Hw) as Hr.
  unfold mbind, M_bind, catch. by destruct (patchDoc _ _ _ _ _ _ w) as [[doc|e|] w1].
Qed.

(** *** An import *)

Lemma steady_setDeadline : steady 0 s setDeadline (fun _ => True).
Proof.
  intros k w Hw. pose proof (avoids_deadline k s w Hw) as Hd. unfold setDeadline. by destruct (connDeadline w).
Qed.

Lemma steady_contextReader ctx chunks end_ : steady 0 s (contextReader ctx chunks end_) (fun _ => True).
Proof.
  induction chunks as [|chunk chunks IH]; cbn [contextReader];
    (eapply (steady_bind 0 0); [apply steady_catch, steady_ctxErr|intros [e|?] _; [by apply steady_ret|]]); [by apply steady_ret|].
  eapply (steady_bind 0 0); [exact IH|]. intros body _. by apply steady_ret.
Qed.

Lemma avoids_readBulk n f ctx r maxLine maxBytes maxDocs documents line total k w :
  avoids n s w -> avoids n s (readBulk_loop f ctx r maxLine maxBytes maxDocs documents line total k w).2.
Proof.
  assert (forall documents0 w0, avoids n s w0 -> avoids n s (bulkDone documents0 w0).2) as Hdone.
  { intros ds w0 Hw0. unfold bulkDone. by destruct (_ =? 0). }
  assert (forall err w0, avoids n s w0 -> avoids n s (bulkReadError ctx err w0).2) as Herr.
  { intros err w0 Hw0. assert (steady 0 s (bulkReadError ctx err) (fun _ => True)) as H' by (unfold bulkReadError; steady).
    by apply H'. }
  revert r documents line total k w. induction f as [|f IH]; intros r documents line total k w Hw; cbn [readBulk_loop]; [done|].
  destruct (readSlice r) as [[fragment err] r']. cbv zeta. repeat (case_match; try done); auto.
Qed.

Lemma checkLines_count maxLine maxDocs k documents lines documents' :
  checkLines maxLine maxDocs k documents lines = inr documents' -> len documents <= Z.max 0 maxDocs ->
  len documents' <= Z.max 0 maxDocs.
Proof.
  revert k documents. induction lines as [|line lines IH]; intros k documents; cbn [checkLines]; [by intros [= <-]|].
  destruct (negb _); [done|]. destruct (_ =? 0); [done|]. destruct (Z.leb_spec maxDocs (len documents)); [done|].
  destruct (validateDoc _ _) as [document|e|]; [|done|done]. intros Hc Hd. apply IH in Hc; [done|].
  rewrite len_app. change (len [document]) with 1. lia.
Qed.

Lemma readBulkCtx_returns k data end_ maxLine maxBytes maxDocs w :
  0 <= maxLine -> match end_ with Some e => breaksOff e | None => True end -> avoids k s w ->
  let '(x, w') := readBulkCtx RequestCtx (Reader data end_) maxLine maxBytes maxDocs w in
  contents w' = contents w /\ avoids k s w' /\ x <> OutOfFuel /\
  forall documents, x = Ok documents -> (length documents <= Z.to_nat maxDocs)%nat.
Proof.
  intros Hl He Hw.
  pose proof (avoids_readBulk k (S (length data)) RequestCtx (Reader data end_) maxLine maxBytes maxDocs [] [] 0 1 w Hw) as Hw'.
  change (readBulk_loop _ _ _ _ _ _ _ _ _ _ w) with (readBulkCtx RequestCtx (Reader data end_) maxLine maxBytes maxDocs w) in Hw'.
  destruct end_ as [e|].
  - pose proof (reads_readBulkCtx_broken maxLine maxBytes maxDocs (contents w) RequestCtx e data He w eq_refl) as Hr.
    destruct (readBulkCtx _ _ _ _ _ w) as [[x|e'|] w1]; destruct Hr as [[Hc _] Hr]; [done|by split_and!|by destruct Hr].
  - destruct (readBulkCtx_lines maxLine maxBytes maxDocs RequestCtx data w Hl) as (r & E & Hfit & Hover).
    rewrite E in Hw' |- *. split; [done|]. split; [done|].
    destruct (decide (len data <= maxBytes)) as [Hd|Hd].
    + rewrite (Hfit Hd). destruct (checkLines _ _ _ _ _) as [e|documents] eqn:Hcheck; [done|].
      apply checkLines_count in Hcheck; [|change (len (@nil bytes)) with 0; lia].
      destruct documents as [|d ds]; [done|]. split; [done|]. intros documents [= <-]. unfold len in Hcheck. lia.
    + by destruct (Hover Hd) as [->|(e & _ & ->)].
Qed.

(** The rest of an import, from the state before it. *)
Definition importRest (n : bytes) (body : reader) : M W response :=
  documents ← catch (readBulkCtx RequestCtx body (ap_maxBodyBytes ap) (bc_maxBytes (ap_bulk ap))
                       (bc_maxDocuments (ap_bulk ap)));
  match documents with
  | inl err => mret (failBulk [] err)
  | inr documents =>
      ids ← catch (importDocs wk fuel RequestCtx n documents (bc_maxBatchBytes (ap_bulk ap)));
      match ids with inl err => mret (failBulk [] err) | inr _ => mret writeBulkSuccess end
  end.

Lemma importRest_returns n data end_ :
  validName n -> match end_ with Some e => breaksOff e | None => True end ->
  returns s c (3 * Z.to_nat (bc_maxDocuments (ap_bulk ap))) (importRest n (Reader data end_)).
Proof.
  intros Hn He w Hc Hw. unfold importRest. unfold mbind at 1, M_bind at 1, catch at 1.
  pose proof (readBulkCtx_returns _ data end_ (ap_maxBodyBytes ap) (bc_maxBytes (ap_bulk ap)) (bc_maxDocuments (ap_bulk ap)) w
    Hmax He Hw) as Hr.
  destruct (readBulkCtx _ _ _ _ _ w) as [[documents|e|] w1]; destruct Hr as (Hc1 & Hw1 & Hr & Hcount); [|done|done].
  specialize (Hcount documents eq_refl).
  pose proof (importDocs_returns wk s c a Hrep Hs fuel RequestCtx n documents (bc_maxBatchBytes (ap_bulk ap)) Hn Hfuel w1
    ltac:(by rewrite Hc1) ltac:(eapply avoids_mono; [|reflexivity|exact Hw1]; lia)) as Hi.
  unfold mbind, M_bind, catch. by destruct (importDocs _ _ _ _ _ _ w1) as [[ids|e|] w2].
Qed.

Lemma apiImportBulk_returns n r : wfEnd r -> returns s c (3 * Z.to_nat (bc_maxDocuments (ap_bulk ap))) (apiImportBulk wk fuel ap n r).
Proof.
  intros Hend. unfold apiImportBulk. destruct (negb (isNDJSON _)); [apply returns_ret|]. unfold startBulk.
  destruct (bulkRefused ap n r) as [refused|] eqn:Href; [apply returns_ret|]. apply bulkRefused_ok in Href as Hn.
  intros w Hc Hw. unfold mbind at 1, M_bind at 1. pose proof (setDeadline_frame w) as Hset.
  pose proof (steady_setDeadline _ w Hw) as [Hw1 _]. destruct (setDeadline w) as [? w1]. cbn [fst snd] in Hw1.
  destruct Hset as (Hc1 & _ & o & -> & _). destruct (match o with Some _ => _ | None => false end); [done|].
  unfold mbind at 1, M_bind at 1. unfold mbind at 1, M_bind at 1.
  pose proof (contextReader_spec RequestCtx (rq_chunks r) (rq_end r) w1) as Hr.
  pose proof (steady_contextReader RequestCtx (rq_chunks r) (rq_end r) _ w1 Hw1) as [Hw2 _].
  destruct (contextReader RequestCtx (rq_chunks r) (rq_end r) w1) as [? w2]. cbn [fst snd] in Hw2.
  destruct Hr as (Hc2 & _ & [data end_] & -> & Hb).
  assert (match end_ with Some e => breaksOff e | None => True end) as He.
  { destruct Hb as [[= _ ->]|(_ & e & He & Hbr)]; [destruct (rq_end r) eqn:E; [by apply Hend|done]|]. cbn in He. by subst. }
  pose proof (importRest_returns n data end_ Hn He w2 ltac:(by rewrite Hc2, Hc1) Hw2) as Hrest.
  fold (importRest n (Reader data end_)). destruct (importRest n (Reader data end_) w2) as [[resp|e|] w3]; [|done|done].
  unfold mbind, M_bind. pose proof (liftDeadline_frame r w3) as Hlift.
  destruct (liftDeadline r w3) as [? w4]. by destruct Hlift as (_ & _ & ->).
Qed.

(** The draws a request may take. *)
Definition drawsOf : nat := 3 * Nat.max 1 (Z.to_nat (bc_maxDocuments (ap_bulk ap))).

Lemma handle_returns t vars r : wfEnd r -> returns s c drawsOf (handle wk fuel ap t vars r).
Proof.
  intros Hend w Hc Hw E. pose proof (answers_handle wk fuel ap a Hwk Hfuel Hmax t vars r Hend w ltac:(by rewrite Hc)) as Ha.
  assert (retries t) as Ht.
  { destruct (handle wk fuel ap t vars r w) as [[resp|e|] w1]; [done|done|]. by destruct Ha as (_ & _ & _ & ? & _). }
  clear Ha. assert (3 <= drawsOf /\ 2 <= drawsOf /\ 3 * Z.to_nat (bc_maxDocuments (ap_bulk ap)) <= drawsOf)%nat as (? & ? & ?)
    by (unfold drawsOf; lia).
  destruct t; try done; cbn [handle] in E; cbv zeta in E; revert E;
    (eapply (returns_mono _ drawsOf); [|try first [apply apiCreateDoc_returns|apply apiReplaceDoc_returns|apply apiPatchDoc_returns|by apply apiImportBulk_returns]|exact Hc|exact Hw]); done.
Qed.

(** Every request gets a response: the handlers that draw do so once. *)
Lemma serve_returns r : wfEnd r -> returns s c drawsOf (serve wk fuel ap r).
Proof.
  intros Hend w Hc Hw. unfold serve, rejectStopping, rejectUncleanPath, mux.
  destruct (ap_stopping ap); [done|]. destruct (uncleanPath _); [done|]. cbv zeta. destruct (bool_decide _); [|done].
  destruct (findRoute _ _) as [t vars]. pose proof (handle_returns t vars r Hend w Hc Hw) as Hh.
  unfold mbind, M_bind, catch. by destruct (handle wk fuel ap t vars r w) as [[resp|e|] w1].
Qed.
End Responds.
