(* ===== verification/Sim.v ===== *)
(** * A concrete host

    A host without failures and a toy cipher: the interfaces the theorems assume
    have instances, and the program runs on them. *)

From S2P Require Import Prelude GoErrors Codec Text Validation Keys Json IndexValue Host Crypto.
From S2P Require Import Wp Store StoreRep StoreReads StoreSpec Shared.

(** ** The host *)

Record world := World {
  w_store : gmap bytes bytes;
  w_clock : Z;
}.

(** The random bytes are the clock, which every reading advances. *)
Definition tick (w : world) : world := World (w_store w) (w_clock w + 1).

#[global] Instance simHost : Host world := {|
  snapshot := gmap bytes bytes;
  pebbleOpen w := (None, w);
  pebbleGet k w := (getOf (w_store w) k, w);
  pebbleSet k v w := (None, World (<[k := v]> (w_store w)) (w_clock w));
  pebbleIter lo hi w := (inr (Iter (scanOf (w_store w) lo hi) None), w);
  pebbleSnapshot w := (w_store w, w);
  snapshotGet s k w := (getOf s k, w);
  snapshotIter s lo hi w := (inr (Iter (scanOf s lo hi) None), w);
  pebbleQueue _ w := (None, w);
  pebbleCommit b w := (None, World (applyBatch (w_store w) b) (w_clock w));
  pebbleClose w := (None, w);
  batchLen b := 12 + len b;
  randRead n w := (inr (putBE n (w_clock w)), tick w);
  nowMillis w := (1700000000000 + w_clock w, tick w);
  requestErr w := (None, w);
  requestExpired w := (false, w);
|}.

#[local] Obligation Tactic := idtac.

#[global] Program Instance simHostSpec : HostSpec world := {|
  contents := w_store;
  faulty := fun _ => False;
  snapContents := fun s => s;
|}.
Next Obligation. done. Qed.
Next Obligation. intros k w. simpl. split; [done|]. split; [done|]. apply getOf_spec. Qed.
Next Obligation. done. Qed.
Next Obligation. intros lo hi w. simpl. split; [done|]. split; [done|]. apply scanOf_spec. Qed.
Next Obligation. done. Qed.
Next Obligation. intros s k w. simpl. split; [done|]. split; [done|]. apply getOf_spec. Qed.
Next Obligation. intros s lo hi w. simpl. split; [done|]. split; [done|]. apply scanOf_spec. Qed.
Next Obligation. done. Qed.
Next Obligation. done. Qed.
Next Obligation. done. Qed.
Next Obligation. intros n w. simpl. split; [done|]. split; [done|]. apply length_putBE. Qed.
Next Obligation. done. Qed.
Next Obligation. done. Qed.
Next Obligation. done. Qed.

(** ** The cipher: a keyed tag *)

Definition pad (n : nat) (s : bytes) : bytes := take n (s ++ replicate n x00).

Lemma length_pad n s : length (pad n s) = n.
Proof. unfold pad. rewrite length_take, length_app, length_replicate. lia. Qed.

#[global] Instance simCrypto : Crypto := {|
  gcmSeal key nonce plain ad := plain ++ pad 16 key;
  gcmOpen key nonce sealed ad :=
    let n := (length sealed - 16)%nat in
    if decide (drop n sealed = pad 16 key) then Some (take n sealed) else None;
  hkdfSha256 secret salt info := pad 32 secret;
  sha256 data := pad 32 data;
  zstdWriterErr := None;
  zstdReaderErr := None;
  zstdEncode s := s;
  zstdDecode cap s := if len s <=? cap then Some s else None;
|}.

#[global] Instance simCryptoSpec : CryptoSpec.
Proof.
  split; simpl.
  - intros key nonce plain ad _ _. rewrite length_app, length_pad.
    replace (length plain + 16 - 16)%nat with (length plain) by lia.
    rewrite drop_app_length, take_app_length. by rewrite decide_True.
  - intros key nonce sealed ad plain. case_decide as Hd; [|done]. intros [= <-].
    rewrite <- Hd. symmetry. apply take_drop.
  - intros key nonce plain ad. rewrite len_app. unfold len at 2. by rewrite length_pad.
  - intros. unfold len. by rewrite length_pad.
  - intros. unfold len. by rewrite length_pad.
  - intros cap plain Hl. by rewrite (proj2 (Z.leb_le _ _)).
  - done.
  - done.
Qed.

(** ** A store with a database *)

Definition simWk : storeKey := StoreKey (str "0123456789abcdef0123456789abcdef") None.
Definition simDb : bytes := str "books".
Definition simDefs : list indexDef :=
  [IndexDef (str "title") (str "/title"); IndexDef (str "pages") (str "/pages")].
Definition simID : bytes := formatID (putBE 16 7) 1700000000000.
Definition simJson : bytes :=
  str "{" ++ [x22] ++ str "title" ++ [x22] ++ str ":" ++ [x22] ++ str "Emma" ++ [x22] ++ str ","
    ++ [x22] ++ str "pages" ++ [x22] ++ str ":474}".

Definition world0 : world := World ∅ 1.

Lemma sim_rep0 : store_rep simWk ∅ ∅.
Proof.
  split; [done|]. split; [done|]. split; [intros k v Hv; by apply lookup_empty_Some in Hv|].
  intros sk e He. rewrite want_absent in He; [done|apply lookup_empty].
Qed.

Definition world1 : world := snd (createDB simWk simDb simDefs world0).

Lemma sim_rep1 :
  exists a, store_rep simWk (contents world1) a /\ exists key, a !! simDb = Some (newDb key simDefs).
Proof.
  pose proof (triple_createDB simWk ∅ ∅ simDb simDefs sim_rep0 eq_refl eq_refl
    world0 eq_refl) as H.
  unfold world1. assert (fst (createDB simWk simDb simDefs world0) = Ok ()) as Hok by (by vm_compute).
  destruct (createDB simWk simDb simDefs world0) as [r w1]. simpl in Hok. subst r.
  destruct H as [_ [(a & Hrep & Hc)|(_ & [] & _)]]. exists a. split; [done|].
  destruct Hc as [key _ _ _ ->]. exists key. apply lookup_insert_eq.
Qed.

(** On this host nothing fails, so a run ends as its specification says. *)
Lemma sim_runs {A : Type} wk a (m : M world A) post mid w :
  runs wk a m post mid -> store_rep wk (w_store w) a ->
  exists a', store_rep wk (w_store (snd (m w))) a' /\ post (fst (m w)) a'.
Proof.
  intros Hm Hrep. specialize (Hm w Hrep). destruct (m w) as [r w'].
  destruct Hm as (_ & a' & Hrep' & [Hp|(_ & [] & _)]). by exists a'.
Qed.

Lemma sim_observes {A : Type} wk a (m : M world A) post w :
  observes wk a m post -> store_rep wk (w_store w) a -> post (fst (m w)).
Proof.
  intros Hm Hrep. specialize (Hm w Hrep). destruct (m w) as [r w'].
  by destruct Hm as (_ & _ & [Hp|(_ & [])]).
Qed.

Definition world2 : world := snd (createDocWithID simWk 1 simDb simID simJson world1).

(** The same store with one document in it. *)
Lemma sim_rep2 :
  exists a d doc, store_rep simWk (w_store world2) a /\ a !! simDb = Some d /\
    ldb_docs d !! simID = Some doc /\ sd_json doc = simJson.
Proof.
  destruct sim_rep1 as (a & Hrep & key & Hd).
  pose proof (triple_createDocWithID simWk _ a 1 simDb simID simJson Hrep eq_refl eq_refl
    ltac:(lia) world1 eq_refl) as H.
  unfold world2.
  assert (is_ok (fst (createDocWithID simWk 1 simDb simID simJson world1)) = true) as Hok
    by (by vm_compute).
  destruct (createDocWithID simWk 1 simDb simID simJson world1) as [[rev|e|] w2]; try done.
  destruct H as [_ [(a' & Hrep' & Hc)|(_ & [] & _)]]. destruct Hc as [d Hd' _ _ ->].
  eexists _, _, (StoredDoc simJson rev). split; [exact Hrep'|].
  split; [by apply setDoc_lookup|]. split; [apply lookup_partial_alter_eq|done].
Qed.

(** The database of that document, as a value. *)
Lemma sim_db2 :
  exists a key rev, store_rep simWk (w_store world2) a /\
    a !! simDb = Some (Ldb key (merge_sort def_le simDefs) {[simID := StoredDoc simJson rev]}).
Proof.
  destruct sim_rep1 as (a & Hrep & key & Hd).
  pose proof (triple_createDocWithID simWk _ a 1 simDb simID simJson Hrep eq_refl eq_refl
    ltac:(lia) world1 eq_refl) as H.
  unfold world2.
  assert (is_ok (fst (createDocWithID simWk 1 simDb simID simJson world1)) = true) as Hok
    by (by vm_compute).
  destruct (createDocWithID simWk 1 simDb simID simJson world1) as [[rev|e|] w2]; try done.
  destruct H as [_ [(a' & Hrep' & Hc)|(_ & [] & _)]]. destruct Hc as [d Hd' _ _ ->].
  eexists _, key, rev. split; [exact Hrep'|]. assert (d = newDb key simDefs) as -> by congruence.
  etransitivity; [by apply setDoc_lookup|]. done.
Qed.

(** A second document, whose value comes before the first one's. *)
Definition simID3 : bytes := formatID (putBE 16 9) 1700000000001.
Definition simJson3 : bytes := str "{" ++ [x22] ++ str "pages" ++ [x22] ++ str ":250.5}".
Definition world3 : world := snd (createDocWithID simWk 1 simDb simID3 simJson3 world2).

Lemma sim_rep3 : exists a, store_rep simWk (w_store world3) a.
Proof.
  destruct sim_rep2 as (a & _ & _ & Hrep & _).
  pose proof (triple_createDocWithID simWk _ a 1 simDb simID3 simJson3 Hrep eq_refl eq_refl
    ltac:(lia) world2 eq_refl) as H.
  unfold world3. destruct (createDocWithID simWk 1 simDb simID3 simJson3 world2) as [r w3].
  destruct H as [_ [(a' & Hrep' & _)|(_ & [] & _)]]. by exists a'.
Qed.

(** The side conditions of a theorem at a concrete input. *)
Ltac sim_valid := first [reflexivity | lia].
