(* ===== verification/StoreTheorems.v ===== *)
(** * The store: theorems

    The operations of the store, as theorems about the program on any host and any
    cipher that behave as documented.  [a] is the abstract state the store holds;
    every theorem covers the success, each error with its cause, and the failures
    of the host, after which the store holds the old or the new state and nothing
    in between. *)

From S2P Require Import Prelude GoErrors Codec Text Validation Keys Json IndexValue Host Crypto.
From S2P Require Import Wp Store StoreRep StoreReads StoreSpec StoreBulk StoreLists Sim.

Section Writes.
Context {W : Type} `{HostSpec W} `{CryptoSpec}.
Variables (wk : storeKey) (a : astate).

(** C6: creating a document writes the document under a revision and the index
    entries of its values, in one step, or nothing; it fails, changing nothing,
    exactly when the database is missing, the ID is taken, an index rejects the
    document or a record cannot hold it. *)
Theorem createDocWithID_correct fuel n id json :
  validName n -> validID id -> (0 < fuel)%nat ->
  runs wk a (createDocWithID wk fuel n id json)
    (fun r a' => match r with
                 | Ok rev => created a n id json rev a'
                 | Err e => a' = a /\ createFails a n id json e
                 | OutOfFuel => False
                 end)
    (fun a' => a' = a \/ exists rev, created a n id json rev a').
Proof.
  intros Hn Hid Hf. apply runs_triple. intros c Hrep. by apply triple_createDocWithID.
Qed.

(** [createDoc] draws IDs until one is free: it returns a valid ID that named
    no document before and names this one now, and never reports a taken ID. *)
Lemma createDoc_correct fuel n json :
  validName n ->
  runs wk a (createDoc wk fuel n json)
    (fun r a' => match r with
                 | Ok (id, rev) => validID id /\ created a n id json rev a'
                 | Err e => a' = a /\ errorsIs errDocExists e = false /\
                            exists id, validID id /\ createFails a n id json e
                 | OutOfFuel => a' = a
                 end)
    (fun a' => a' = a \/ exists id rev, validID id /\ created a n id json rev a').
Proof. intros Hn. apply runs_triple. intros c Hrep. by apply triple_createDoc. Qed.

(** C5: replacing a document is a compare-and-swap on its revision: it happens
    only if the stored revision satisfies the precondition, gives a revision that
    differs from the one replaced, and moves the index entries from the old values
    to the new ones in the same step. *)
Theorem replaceDoc_correct fuel n id json m :
  validName n -> (0 < fuel)%nat ->
  runs wk a (replaceDoc wk fuel n id json m)
    (fun r a' => match r with
                 | Ok rev => exists d current, lookupMatches a n id m d current /\
                                               updated a n id current json rev a'
                 | Err e => a' = a /\
                     (lookupFails a n id m e \/
                      exists d current, lookupMatches a n id m d current /\ updateFails d json e)
                 | OutOfFuel => a' = a
                 end)
    (fun a' => a' = a \/ exists d current rev, lookupMatches a n id m d current /\ updated a n id current json rev a').
Proof. intros Hn Hf. apply runs_triple. intros c Hrep. by apply triple_replaceDoc. Qed.

(** C24: patching applies the patch to the stored document, under the same
    compare-and-swap, and returns the document it stored; an error of the patch
    changes nothing and is returned as it is. *)
Theorem patchDoc_correct fuel n id m apply_ :
  validName n -> (0 < fuel)%nat ->
  runs wk a (patchDoc wk fuel n id m apply_)
    (fun r a' => match r with
                 | Ok doc => exists d current, lookupMatches a n id m d current /\
                     apply_ (sd_json current) = Ok (sd_json doc) /\
                     updated a n id current (sd_json doc) (sd_revision doc) a'
                 | Err e => a' = a /\
                     (lookupFails a n id m e \/
                      exists d current, lookupMatches a n id m d current /\
                        (apply_ (sd_json current) = Err e \/
                         exists json, apply_ (sd_json current) = Ok json /\ updateFails d json e))
                 | OutOfFuel => a' = a
                 end)
    (fun a' => a' = a \/ exists d current json rev, lookupMatches a n id m d current /\
                  apply_ (sd_json current) = Ok json /\ updated a n id current json rev a').
Proof. intros Hn Hf. apply runs_triple. intros c Hrep. by apply triple_patchDoc. Qed.

(** C23: deleting a document removes it with all its index entries, if its
    revision satisfies the precondition; otherwise nothing changes. *)
Theorem deleteDoc_correct n id m :
  validName n ->
  runs wk a (deleteDoc wk n id m)
    (fun r a' => match r with
                 | Ok _ => (exists d current, lookupMatches a n id m d current) /\
                           a' = setDoc a n id None
                 | Err e => a' = a /\ lookupFails a n id m e
                 | OutOfFuel => False
                 end)
    (fun a' => a' = a \/ (exists d current, lookupMatches a n id m d current) /\ a' = setDoc a n id None).
Proof. intros Hn. apply runs_triple. intros c Hrep. by apply triple_deleteDoc. Qed.

(** C25: creating a database stores its key and its index definitions together,
    if the definitions are valid and the name is free. *)
Theorem createDB_correct n defs :
  len wk = keySize -> validName n ->
  runs wk a (createDB wk n defs)
    (fun r a' => match r with
                 | Ok _ => createdDB a n defs a'
                 | Err e => a' = a /\ createDBFails a n defs e
                 | OutOfFuel => False
                 end)
    (fun a' => a' = a \/ createdDB a n defs a').
Proof. intros Hw Hn. apply runs_triple. intros c Hrep. by apply triple_createDB. Qed.

(** C8: deleting a database removes its key, its documents, its index definitions
    and its index entries in one step, and nothing of any other database. *)
Theorem deleteDB_correct n :
  validName n ->
  runs wk a (deleteDB wk n)
    (fun r a' => match r with
                 | Ok _ => is_Some (a !! n) /\ a' = delete n a
                 | Err e => a' = a /\ a !! n = None /\ e = errDBNotFound
                 | OutOfFuel => False
                 end)
    (fun a' => a' = a \/ a' = delete n a).
Proof. intros Hn. apply runs_triple. intros c Hrep. by apply triple_deleteDB. Qed.


(** A page of documents holds the first [limit] IDs after the cursor, in
    order, and tells whether more follow; it is the same page after any failure
    of the host that lets it return one. *)
Lemma listDocs_correct n limit cursor :
  validName n -> 0 <= limit ->
  observes wk a (listDocs wk n limit cursor)
    (fun r => match r with
              | Ok p => exists d, a !! n = Some d /\ p = page limit cursor (sortedKeys (ldb_docs d))
              | Err e => e = errDBNotFound /\ a !! n = None
              | OutOfFuel => False
              end).
Proof.
  intros Hn Hl. eapply observes_reads; [intros c Hrep; by apply reads_listDocs|done| |by intros [? ?]].
  by intros e [[= ->] ?].
Qed.

(** A page of databases holds the first [limit] names after the cursor, in
    order. *)
Lemma listDBs_correct limit cursor :
  0 <= limit ->
  observes wk a (listDBs wk limit cursor)
    (fun r => r = Ok (take (Z.to_nat limit) (after cursor (sortedKeys a)))).
Proof.
  intros Hl. eapply observes_reads; [intros c Hrep; by apply reads_listDBs| |done|done].
  by intros x ->.
Qed.
End Writes.

(** ** The theorems at work

    Each theorem on the concrete host: its hypotheses hold there and the program
    takes the branch that succeeds. *)

Lemma createDocWithID_correct_witness :
  exists a a' rev, store_rep simWk (w_store world2) a' /\ created a simDb simID simJson rev a'.
Proof.
  destruct sim_rep1 as (a & Hrep & _).
  destruct (sim_runs simWk a _ _ _ world1
    (createDocWithID_correct simWk a 1 simDb simID simJson ltac:(sim_valid) ltac:(sim_valid)
       ltac:(sim_valid)) Hrep) as (a' & Hrep' & Hpost).
  exists a, a'. assert (is_ok (fst (createDocWithID simWk 1 simDb simID simJson world1)) = true) as Hok
    by (vm_compute; reflexivity).
  destruct (fst (createDocWithID simWk 1 simDb simID simJson world1)) as [rev|e|];
    [|discriminate Hok..]. exists rev. split; [exact Hrep'|exact Hpost].
Defined.

Lemma createDoc_correct_witness :
  exists a a' id rev, validID id /\ created a simDb id simJson rev a'.
Proof.
  destruct sim_rep1 as (a & Hrep & _).
  destruct (sim_runs simWk a _ _ _ world1
    (createDoc_correct simWk a 2 simDb simJson ltac:(sim_valid)) Hrep) as (a' & _ & Hpost).
  exists a, a'. assert (is_ok (fst (createDoc simWk 2 simDb simJson world1)) = true) as Hok
    by (vm_compute; reflexivity).
  destruct (fst (createDoc simWk 2 simDb simJson world1)) as [[id rev]|e|]; [|discriminate Hok..].
  exists id, rev. exact Hpost.
Defined.

Lemma replaceDoc_correct_witness :
  exists a a' current rev, updated a simDb simID current (str "{}") rev a'.
Proof.
  destruct sim_rep2 as (a & _ & _ & Hrep & _).
  set (m := MatchCond true true zeroRevision).
  destruct (sim_runs simWk a _ _ _ world2
    (replaceDoc_correct simWk a 1 simDb simID (str "{}") m ltac:(sim_valid) ltac:(sim_valid)) Hrep)
    as (a' & _ & Hpost).
  assert (is_ok (fst (replaceDoc simWk 1 simDb simID (str "{}") m world2)) = true) as Hok
    by (vm_compute; reflexivity).
  destruct (fst (replaceDoc simWk 1 simDb simID (str "{}") m world2)) as [rev|e|];
    [|discriminate Hok..]. destruct Hpost as (d & current & _ & Hup).
  exists a, a', current, rev. exact Hup.
Defined.

Lemma patchDoc_correct_witness :
  exists a a' current rev, updated a simDb simID current (str "{}") rev a'.
Proof.
  destruct sim_rep2 as (a & _ & _ & Hrep & _).
  set (m := MatchCond false false zeroRevision). set (f := fun _ : bytes => Ok (str "{}")).
  destruct (sim_runs simWk a _ _ _ world2
    (patchDoc_correct simWk a 1 simDb simID m f ltac:(sim_valid) ltac:(sim_valid)) Hrep)
    as (a' & _ & Hpost).
  assert (is_ok (fst (patchDoc simWk 1 simDb simID m f world2)) = true) as Hok
    by (vm_compute; reflexivity).
  destruct (fst (patchDoc simWk 1 simDb simID m f world2)) as [doc|e|];
    [|discriminate Hok..]. destruct Hpost as (d & current & _ & Hf & Hup).
  injection Hf as Hf. rewrite <- Hf in Hup. exists a, a', current, (sd_revision doc). exact Hup.
Defined.

Lemma deleteDoc_correct_witness :
  exists a, store_rep simWk
    (w_store (snd (deleteDoc simWk simDb simID (MatchCond false false zeroRevision) world2)))
    (setDoc a simDb simID None).
Proof.
  destruct sim_rep2 as (a & _ & _ & Hrep & _). exists a.
  set (m := MatchCond false false zeroRevision).
  destruct (sim_runs simWk a _ _ _ world2
    (deleteDoc_correct simWk a simDb simID m ltac:(sim_valid)) Hrep) as (a' & Hrep' & Hpost).
  assert (is_ok (fst (deleteDoc simWk simDb simID m world2)) = true) as Hok
    by (vm_compute; reflexivity).
  destruct (fst (deleteDoc simWk simDb simID m world2)) as [u|e|]; [|discriminate Hok..].
  destruct Hpost as [_ ->]. exact Hrep'.
Defined.

Lemma createDB_correct_witness : exists a', createdDB ∅ simDb simDefs a'.
Proof.
  destruct (sim_runs simWk ∅ _ _ _ world0
    (createDB_correct simWk ∅ simDb simDefs ltac:(sim_valid) ltac:(sim_valid)) sim_rep0)
    as (a' & _ & Hpost).
  assert (is_ok (fst (createDB simWk simDb simDefs world0)) = true) as Hok
    by (vm_compute; reflexivity).
  destruct (fst (createDB simWk simDb simDefs world0)) as [u|e|]; [|discriminate Hok..].
  exists a'. exact Hpost.
Defined.

Lemma deleteDB_correct_witness :
  exists a : astate, is_Some (a !! simDb) /\
    store_rep simWk (w_store (snd (deleteDB simWk simDb world2))) (delete simDb a).
Proof.
  destruct sim_rep2 as (a & _ & _ & Hrep & _). exists a.
  destruct (sim_runs simWk a _ _ _ world2
    (deleteDB_correct simWk a simDb ltac:(sim_valid)) Hrep) as (a' & Hrep' & Hpost).
  assert (is_ok (fst (deleteDB simWk simDb world2)) = true) as Hok by (vm_compute; reflexivity).
  destruct (fst (deleteDB simWk simDb world2)) as [u|e|]; [|discriminate Hok..].
  destruct Hpost as [Hs ->]. split; [exact Hs|exact Hrep'].
Defined.


