(* ===== verification/RangeTheorems.v ===== *)
(** * Index queries: theorems

    What the queries of index.go return, and that a client that follows the cursors
    of a range query sees every entry once. *)

From S2P Require Import Prelude GoErrors Codec Text Validation Keys Json IndexValue Host Crypto.
From S2P Require Import Wp Store StoreRep StoreReads StoreSpec StoreLists Range StoreRange Sim.

Section Queries.
Context {W : Type} `{HostSpec W} `{CryptoSpec}.
Variables (wk : storeKey) (a : astate).

(** C28: an equality query returns the first [limit] IDs after the cursor, in
    order, of the documents whose indexed value is the one asked for, and whether
    there are more; an unknown database or index and an ill-formed value are
    reported as such. *)
Theorem queryDocs_correct n i e limit cursor :
  validName n -> 0 <= limit ->
  observes wk a (queryDocs wk n i e limit cursor)
    (fun r => match r with
              | Ok p => exists d, a !! n = Some d /\ is_Some (findIndex (ldb_defs d) i) /\
                          validIndexValue e = true /\ p = page limit cursor (matching d i e)
              | Err e' => queryFails a n i (validIndexValue e) true e'
              | OutOfFuel => False
              end).
Proof.
  intros Hn Hl. unfold queryDocs.
  eapply observes_reads; [intros c Hrep; by apply reads_queryDocsCtx|done| |by intros [? [? ?]]].
  by intros e' (? & [= <-] & ?).
Qed.

(** C27: a page of a range query holds the first [limit] entries after the cursor,
    ordered by value and then by ID, whose value is of the type of the value asked
    for and in the relation with it; it fails for the stated causes only. *)
Theorem queryRangePage_correct ctx n i op e limit av aid :
  validName n -> 1 <= limit ->
  observes wk a (queryRangePage wk ctx n i op e limit av aid)
    (fun r => match r with
              | Ok p => exists d, a !! n = Some d /\ is_Some (findIndex (ldb_defs d) i) /\
                          rangeValid op e = true /\ rangeCursorValid e av aid = true /\
                          p = rangePage limit (afterCursor av aid (rangeEntries d i op e))
              | Err e' => queryFails a n i (rangeValid op e) (rangeCursorValid e av aid) e'
              | OutOfFuel => False
              end).
Proof.
  intros Hn Hl.
  eapply observes_reads; [intros c Hrep; by apply reads_queryRangePage|done| |by intros [? [? ?]]].
  by intros e' (? & [= <-] & ?).
Qed.

(** Two pages in a row, the second from where the first one ended. *)
Definition twoPages (ctx : context) (n i : bytes) (op : cmpOp) (e : bytes) (limit : Z) (av aid : bytes)
    : M W (indexPage * option indexPage) :=
  p ← queryRangePage wk ctx n i op e limit av aid;
  if ip_more p then
    q ← queryRangePage wk ctx n i op e limit (ip_lastValue p) (lastID p);
    mret (p, Some q)
  else mret (p, None).

Lemma reads_twoPages c ctx n i op e limit av aid :
  store_rep wk c a -> validName n -> 1 <= limit ->
  reads c (twoPages ctx n i op e limit av aid)
    (fun r => exists d, a !! n = Some d /\
       let l := afterCursor av aid (rangeEntries d i op e) in
       r = (rangePage limit l, if limit <? len l then Some (rangePage limit (drop (Z.to_nat limit) l))
                               else None))
    (queryExit a n i (rangeValid op e) (rangeCursorValid e av aid)).
Proof.
  intros Hrep Hn Hlim. unfold twoPages. eapply reads_bind; [by apply (reads_queryRangePage wk c a Hrep)|].
  intros p (d & Hd & Hi & Hv & Hcv & ->). pose proof (rep_wfDb wk c a Hrep n d Hd) as Hwd.
  pose proof (rangeEntries_sorted n d Hwd i op e) as HSort.
  assert (Forall (fun x => docValue d i x.2 = Some x.1 /\ at_ x.1 0 = at_ e 0) (rangeEntries d i op e))
    as HF.
  { apply Forall_forall. intros [v id] Hin. apply list_elem_of_filter in Hin as [[? _] Hin].
    by apply elem_indexEntries in Hin. }
  assert (Forall (fun x => x.1 <> []) (rangeEntries d i op e)) as Hne.
  { eapply Forall_impl; [exact HF|]. intros x [Hx _]. apply (docValue_valid n d Hwd) in Hx.
    by destruct x.1. }
  pose proof (rangePage_resume _ limit av aid HSort Hne Hlim) as Hres. cbv zeta in Hres.
  destruct (afterCursor_suffix av aid _ HSort) as [j Hj].
  set (l := afterCursor av aid (rangeEntries d i op e)) in *.
  rewrite rangePage_more in Hres |- *. destruct (Z.ltb_spec limit (len l)) as [Hlt|Hge]; cycle 1.
  { apply reads_ret. exists d. split; [done|]. cbv zeta. fold l. by rewrite (proj2 (Z.ltb_ge _ _)). }
  destruct (rangePage_last limit l Hlim Hlt) as (x & Hx & Hval & Hid).
  assert (x ∈ rangeEntries d i op e) as Hin.
  { rewrite Hj, lookup_drop in Hx. by apply list_elem_of_lookup_2 in Hx. }
  rewrite Forall_forall in HF. destruct (HF x Hin) as [Hxv Htag].
  assert (rangeCursorValid e (ip_lastValue (rangePage limit l)) (lastID (rangePage limit l)) = true)
    as Hcv2.
  { unfold rangeCursorValid. rewrite Hval, Hid, (docValue_valid n d Hwd i x.2 x.1 Hxv), Htag, beqb_refl.
    destruct (docValue_stored wk c a Hrep n d Hd i x.2 x.1 Hxv) as [Hvid _]. unfold validID in Hvid.
    rewrite Hvid. apply orb_true_r. }
  eapply reads_bind.
  { eapply reads_mono; [by apply (reads_queryRangePage wk c a Hrep)|exact (fun _ H => H)|].
    rewrite Hcv2. intros x' (e' & -> & He). exists e'. split; [done|].
    destruct He; [by apply query_no_db|by eapply query_no_index|by eapply query_value|done]. }
  intros q (d' & Hd' & _ & _ & _ & ->). assert (d' = d) as -> by congruence.
  rewrite (Hres eq_refl). apply reads_ret. exists d. split; [done|]. cbv zeta. fold l.
  by rewrite (proj2 (Z.ltb_lt _ _)).
Qed.

(** C9: the value and the ID a page ends with are a cursor that is accepted and
    resumes where the page stopped: two pages in a row are the first [2 * limit]
    entries after the first cursor, none missing, none twice; a page that says
    there are no more is the last. *)
Theorem queryRangePage_resumes ctx n i op e limit av aid :
  validName n -> 1 <= limit ->
  observes wk a (twoPages ctx n i op e limit av aid)
    (fun r => match r with
              | Ok (p, q) => exists d, a !! n = Some d /\
                  let all := map snd (afterCursor av aid (rangeEntries d i op e)) in
                  match q with
                  | Some q => ip_ids p ++ ip_ids q = take (Z.to_nat (2 * limit)) all /\
                              ip_more q = (2 * limit <? len all)
                  | None => ip_ids p = all
                  end
              | Err e' => queryFails a n i (rangeValid op e) (rangeCursorValid e av aid) e'
              | OutOfFuel => False
              end).
Proof.
  intros Hn Hl. eapply observes_reads; [intros c Hrep; by apply reads_twoPages| | |by intros [? [? ?]]].
  - intros [p q] (d & Hd & E). exists d. split; [done|]. cbv zeta in E |- *.
    set (l := afterCursor av aid (rangeEntries d i op e)) in *. injection E as -> ->.
    replace (len (map snd l)) with (len l) by (unfold len; by rewrite length_map).
    destruct (Z.ltb_spec limit (len l)) as [Hlt|Hge]; rewrite !rangePage_ids by lia.
    + rewrite rangePage_more, <- skipn_map. split.
      * rewrite take_take_drop. f_equal. lia.
      * unfold len in *. rewrite length_drop. destruct (Z.ltb_spec (2 * limit) (Z.of_nat (length l)));
          [apply Z.ltb_lt|apply Z.ltb_ge]; lia.
    + rewrite take_ge; [done|]. rewrite length_map. unfold len in Hge. lia.
  - by intros e' (? & [= <-] & ?).
Qed.
End Queries.

(** ** The theorems at work *)

Definition simPages : bytes := str "pages".

(** The index values of the numbers 474 and 100. *)
Definition sim474 : bytes := match encodeIndexValue (JNum (str "474")) with Ok v => v | _ => [] end.
Definition sim100 : bytes := match encodeIndexValue (JNum (str "100")) with Ok v => v | _ => [] end.

Lemma queryDocs_correct_witness :
  exists d : ldb, ([simID], false) = page 5 [] (matching d simPages sim474).
Proof.
  destruct sim_rep2 as (a & _ & _ & Hrep & _).
  pose proof (sim_observes simWk a _ _ world2
    (queryDocs_correct simWk a simDb simPages sim474 5 [] ltac:(sim_valid) ltac:(sim_valid)) Hrep)
    as Hpost.
  assert (fst (queryDocs simWk simDb simPages sim474 5 [] world2) = Ok ([simID], false)) as Hok
    by (vm_compute; reflexivity).
  rewrite Hok in Hpost. destruct Hpost as (d & _ & _ & _ & Hp). exists d. exact Hp.
Defined.

Lemma queryRangePage_correct_witness :
  exists d : ldb, [simID] = ip_ids (rangePage 5 (rangeEntries d simPages cmpGT sim100)).
Proof.
  destruct sim_rep2 as (a & _ & _ & Hrep & _).
  pose proof (sim_observes simWk a _ _ world2
    (queryRangePage_correct simWk a RequestCtx simDb simPages cmpGT sim100 5 [] []
       ltac:(sim_valid) ltac:(sim_valid)) Hrep) as Hpost.
  assert (fst (queryRangePage simWk RequestCtx simDb simPages cmpGT sim100 5 [] [] world2)
          = Ok (IndexPage [simID] [] false)) as Hok by (vm_compute; reflexivity).
  rewrite Hok in Hpost. destruct Hpost as (d & _ & _ & _ & _ & Hp). exists d.
  exact (f_equal ip_ids Hp).
Defined.

(** Two pages of one document each. *)
Lemma queryRangePage_resumes_witness :
  exists d : ldb,
    take 2 (map snd (afterCursor [] [] (rangeEntries d simPages cmpGT sim100))) = [simID3; simID].
Proof.
  destruct sim_rep3 as (a & Hrep).
  pose proof (sim_observes simWk a _ _ world3
    (queryRangePage_resumes simWk a RequestCtx simDb simPages cmpGT sim100 1 [] []
       ltac:(sim_valid) ltac:(sim_valid)) Hrep) as Hpost.
  assert (match fst (twoPages simWk RequestCtx simDb simPages cmpGT sim100 1 [] [] world3) with
          | Ok (p, Some q) => Some (ip_ids p, ip_ids q)
          | _ => None
          end = Some ([simID3], [simID])) as Hok by (vm_compute; reflexivity).
  destruct (fst (twoPages simWk RequestCtx simDb simPages cmpGT sim100 1 [] [] world3)) as [[p q]|e|];
    [|discriminate Hok..].
  destruct Hpost as (d & _ & Hq). cbv zeta in Hq. exists d.
  destruct q as [q|]; [|discriminate Hok]. injection Hok as Hp Hq'.
  destruct Hq as [Hq _]. rewrite Hp, Hq' in Hq. symmetry. exact Hq.
Defined.
