(* ===== verification/CryptoTheorems.v ===== *)
(** * Encryption: theorems

    Opening and reopening a store, the round trip of a record, and what ties a
    record to its place: the associated data and the derivation of the keys. *)

From S2P Require Import Prelude GoErrors Codec Text Validation Keys Json IndexValue Host Crypto.
From S2P Require Import Wp Store StoreRep StoreReads StoreSpec Sim.

(** ** Contexts that never coincide *)

Lemma putUint64_inj x y : 0 <= x < 2 ^ 64 -> 0 <= y < 2 ^ 64 -> putUint64 x = putUint64 y -> x = y.
Proof.
  intros Hx Hy E. rewrite <- (getUint64_putUint64 x Hx), <- (getUint64_putUint64 y Hy). by rewrite E.
Qed.

(** A field preceded by its length. *)
Lemma lengthField_inj k1 k2 r1 r2 :
  len k1 < 2 ^ 64 -> len k2 < 2 ^ 64 ->
  putUint64 (len k1) ++ k1 ++ r1 = putUint64 (len k2) ++ k2 ++ r2 -> k1 = k2 /\ r1 = r2.
Proof.
  intros H1 H2 E. pose proof (len_nonneg k1). pose proof (len_nonneg k2).
  apply app_inj_1 in E as [El E]; [|by rewrite !length_putUint64].
  apply putUint64_inj in El; [|lia..]. apply app_inj_1 in E; [done|]. unfold len in El. lia.
Qed.

Definition domains : list bytes := [storeADInfo; databaseAD; documentAD].

(** Two domains differ at a byte both have. *)
Fixpoint clash (d1 d2 : bytes) : bool :=
  match d1, d2 with
  | a :: d1', b :: d2' => negb (beqb a b) || clash d1' d2'
  | _, _ => false
  end.

Lemma clash_app d1 d2 r1 r2 : clash d1 d2 = true -> d1 ++ r1 <> d2 ++ r2.
Proof.
  revert d2. induction d1 as [|a d1 IH]; intros [|b d2]; try done. simpl.
  intros [Hne|Hc]%orb_true_iff [= -> E]; [by rewrite beqb_refl in Hne|by apply (IH d2)].
Qed.

(** The associated data of a record names its kind, its key and its header:
    no two records of the store, of one kind or of two, share it, so that a box
    moved to another record is not the box its associated data seals. *)
Lemma recordAD_injective d1 d2 k1 k2 h1 h2 :
  d1 ∈ domains -> d2 ∈ domains -> len k1 < 2 ^ 64 -> len k2 < 2 ^ 64 ->
  recordAD d1 k1 h1 = recordAD d2 k2 h2 -> d1 = d2 /\ k1 = k2 /\ h1 = h2.
Proof.
  unfold recordAD. intros Hd1 Hd2 H1 H2 E.
  assert (d1 = d2) as ->.
  { unfold domains in Hd1, Hd2. rewrite !elem_of_cons, elem_of_nil in Hd1, Hd2.
    destruct Hd1 as [->|[->|[->|[]]]], Hd2 as [->|[->|[->|[]]]]; try done;
      exfalso; revert E; apply clash_app; by vm_compute. }
  split; [done|]. apply app_inv_head in E. by apply lengthField_inj.
Qed.

(** the key of a document is derived from a context that names the document:
    two documents have different contexts, and none has the one of the database's
    cursors or of the wrapping key. *)
Lemma documentKeyInfo_separates id :
  documentKeyInfo id <> cursorInfo /\ documentKeyInfo id <> wrappingInfo /\
  forall id', len id < 2 ^ 64 -> len id' < 2 ^ 64 -> documentKeyInfo id = documentKeyInfo id' -> id = id'.
Proof.
  unfold documentKeyInfo. split; [|split].
  - rewrite <- (app_nil_r cursorInfo). apply clash_app. by vm_compute.
  - rewrite <- (app_nil_r wrappingInfo). apply clash_app. by vm_compute.
  - intros id' H1 H2 E. apply app_inv_head in E.
    rewrite <- (app_nil_r id), <- (app_nil_r id') in E at 2.
    by apply lengthField_inj in E as [-> _].
Qed.

(** ** Records *)

Section Records.
Context {W : Type} `{HostSpec W} `{CryptoSpec}.

(** C34: a sealed document opens, under the key and the ID it was sealed for, as
    the document that was sealed; [sealDoc] fails exactly when the document does
    not fit a record, unless the host has no random bytes. *)
Theorem sealDoc_openDoc c k dbk id rev json :
  len dbk = keySize -> wf_revision rev ->
  reads c (sealDoc k dbk id rev json)
    (fun value => sealable json = true /\ openDoc k dbk id value = Ok (StoredDoc json rev))
    (fun x => x <> None /\ sealable json = false).
Proof.
  intros Hk Hr. destruct (decide (sealable json = true)) as [Hs|Hs%not_true_iff_false].
  - apply reads_exits, reads_sealDoc; [done..|congruence].
  - apply reads_sealDoc; [done..|]. intros _. by split.
Qed.

(** The record of a document at its place, byte by byte: the version and the cipher
    suite, the revision, the length, the nonce, and the compressed document sealed
    under the document's key together with the Pebble key and all of the header. *)
Definition recordOf (k dbk id nonce : bytes) (rev : revision) (length : Z) (compressed : bytes) : bytes :=
  let header := [x01; x01] ++ rev ++ putUint64 length ++ nonce in
  header ++ gcmSeal (hkdfSha256 dbk [] (str "kantandb/document/v1" ++ putUint64 (len id) ++ id)) nonce compressed
              (str "kantandb/document-record/v1" ++ putUint64 (len k) ++ k ++ header).

Definition sealedAt (k dbk id value : bytes) (doc : storedDoc) : Prop :=
  exists nonce compressed,
    length (sd_revision doc) = 16%nat /\ length nonce = 12%nat /\
    zstdDecode (len (sd_json doc)) compressed = Some (sd_json doc) /\ len (sd_json doc) <= maxStoredDocBytes /\
    value = recordOf k dbk id nonce (sd_revision doc) (len (sd_json doc)) compressed /\ len value <= maxDocRecordBytes.

Lemma recordOf_header k dbk id nonce rev length compressed :
  recordOf k dbk id nonce rev length compressed =
  docRecordHeader rev length nonce
    ++ gcmSeal (docKeyOf dbk id) nonce compressed (recordAD documentAD k (docRecordHeader rev length nonce)).
Proof. reflexivity. Qed.

Lemma header_parts h : length h = 38%nat -> at_ h 0 = x01 -> at_ h 1 = x01 ->
  h = docRecordHeader (take 16 (drop 2 h)) (getUint64 (take 8 (drop 18 h))) (drop 26 h).
Proof.
  intros Hl Hv0 Hv1. destruct h as [|c0 [|c1 h]]; try done. change (at_ (c0 :: c1 :: h) 0) with c0 in Hv0.
  change (at_ (c0 :: c1 :: h) 1) with c1 in Hv1. subst. unfold docRecordHeader. cbn [drop]. do 2 f_equal.
  rewrite putUint64_getUint64 by (rewrite length_take, length_drop; cbn [length] in Hl; lia).
  rewrite <- (take_drop 16 h) at 1. f_equal. rewrite <- (take_drop 8 (drop 16 h)) at 1. by rewrite drop_drop.
Qed.

Lemma docRecordHeader_parts rev l nonce :
  length rev = 16%nat ->
  drop 2 (docRecordHeader rev l nonce) = rev ++ putUint64 l ++ nonce /\
  drop 18 (docRecordHeader rev l nonce) = putUint64 l ++ nonce /\ drop 26 (docRecordHeader rev l nonce) = nonce.
Proof.
  intros Hr. assert (drop 2 (docRecordHeader rev l nonce) = rev ++ putUint64 l ++ nonce) as E by done. split; [done|].
  assert (drop 18 (docRecordHeader rev l nonce) = putUint64 l ++ nonce) as E18.
  { change 18%nat with (2 + 16)%nat. by rewrite <- drop_drop, E, drop_app_len. }
  split; [done|]. change 26%nat with (18 + 8)%nat. by rewrite <- drop_drop, E18, drop_app_len by apply length_putUint64.
Qed.

Lemma openDoc_opens k dbk id value doc : len dbk = keySize -> sealedAt k dbk id value doc -> openDoc k dbk id value = Ok doc.
Proof.
  intros Hk (nonce & compressed & Hr & Hn & Hz & Hj & -> & Hl). rewrite recordOf_header in *. unfold openDoc, parseDocRecord.
  set (h := docRecordHeader _ _ _) in *. pose proof (length_docRecordHeader (sd_revision doc) (len (sd_json doc)) nonce) as Hh.
  specialize (Hh ltac:(unfold wf_revision, len; by rewrite Hr) Hn). fold h in Hh.
  assert (len h = 38) as Hlh by (unfold len; by rewrite Hh). rewrite len_app, len_gcmSeal, Hlh in *.
  pose proof (len_nonneg compressed). pose proof (len_nonneg (sd_json doc)). change docRecordHeaderLen with 38 in *.
  destruct (Z.ltb_spec (38 + (len compressed + gcmTagLen)) (38 + gcmTagLen)); [lia|].
  destruct (Z.ltb_spec maxDocRecordBytes (38 + (len compressed + gcmTagLen))); [lia|].
  cbn [orb]. change (Z.to_nat 38) with 38%nat. rewrite take_app_len, drop_app_len by done.
  set (box := gcmSeal _ _ _ _). assert (at_ (h ++ box) 0 = docRecordVersion) as -> by done.
  assert (at_ (h ++ box) 1 = cipherSuite1) as -> by done. rewrite !beqb_refl. cbn [orb negb mbind res_bind].
  unfold deriveDocumentKey. rewrite deriveKey_32 by done. cbn [map_err mbind res_bind]. rewrite newGCM_32 by apply len_hkdf.
  cbn [mbind res_bind]. destruct (docRecordHeader_parts (sd_revision doc) (len (sd_json doc)) nonce Hr) as (E & E18 & E26).
  fold h in E, E18, E26. rewrite E, E18, E26, !take_app_len by (done || apply length_putUint64).
  assert (len (sd_json doc) < 2 ^ 64) as Hj64 by (unfold maxStoredDocBytes in Hj; lia).
  rewrite getUint64_putUint64 by done. unfold box, docKeyOf. rewrite gcmOpen_gcmSeal;
    [|apply aesKeyLen_32, len_hkdf|unfold len; by rewrite Hn].
  destruct (Z.ltb_spec maxStoredDocBytes (len (sd_json doc))); [lia|].
  rewrite zstdReaderErr_none, Hz, Z.eqb_refl. by destruct doc.
Qed.

Lemma openDoc_sealedAt k dbk id value doc : openDoc k dbk id value = Ok doc -> sealedAt k dbk id value doc.
Proof.
  unfold openDoc, parseDocRecord. intros (((h & rev) & l) & Hp & Ho)%res_bind_ok.
  destruct (_ || _) eqn:Hlen in Hp; [done|]. destruct (_ || _) eqn:Hver in Hp; [done|].
  injection Hp as <- <- <-. set (h := take _ value) in *. set (l := getUint64 _) in *.
  unfold deriveDocumentKey, deriveKey in Ho.
  destruct (len dbk =? keySize); [|done]. cbn [negb map_err mbind res_bind] in Ho.
  rewrite newGCM_32 in Ho by apply len_hkdf. cbn [mbind res_bind] in Ho.
  destruct (gcmOpen _ _ _ _) as [compressed|] eqn:Hg; [|done].
  destruct (Z.ltb_spec maxStoredDocBytes l); [done|].
  destruct zstdReaderErr; [done|]. destruct (zstdDecode l compressed) as [json|] eqn:Hz; [|done].
  destruct (Z.eqb_spec (len json) l) as [El|]; [|done]. injection Ho as <-. cbn [sd_json sd_revision].
  apply orb_false_iff in Hlen as [Hmin%Z.ltb_ge Hmax%Z.ltb_ge]. apply orb_false_iff in Hver as [Hv0 Hv1].
  apply negb_false_iff, beqb_eq in Hv0, Hv1.
  assert (length value >= 54)%nat as Hv by (unfold len, docRecordHeaderLen, gcmNonceLen, gcmTagLen in *; lia).
  assert (length h = 38%nat) as Hh by (unfold h; rewrite length_take; change (Z.to_nat docRecordHeaderLen) with 38%nat; lia).
  assert (h = docRecordHeader (take 16 (drop 2 h)) l (drop 26 h)) as Eh.
  { apply header_parts; [done|..].
    - transitivity (at_ value 0); [|exact Hv0]. unfold h. destruct value; [cbn in Hv; lia|done].
    - transitivity (at_ value 1); [|exact Hv1]. unfold h. destruct value as [|? []]; [cbn in Hv; lia..|done]. }
  exists (drop 26 h), compressed. cbn [sd_revision sd_json]. split; [rewrite length_take, length_drop; lia|]. split; [rewrite length_drop; lia|].
  rewrite El. split; [done|]. split; [done|]. split; [|done]. rewrite recordOf_header, <- Eh.
  apply gcmOpen_inv in Hg. unfold docKeyOf. rewrite <- Hg. unfold h. by rewrite take_drop.
Qed.

(** The very box of the value is sealed twice: under the keys and with the associated
    data of two places that differ in one of these. *)
Definition boxTwice (dbk k1 id1 k2 id2 value : bytes) : Prop :=
  exists header box nonce c1 c2,
    value = header ++ box /\
    box = gcmSeal (hkdfSha256 dbk [] (documentKeyInfo id1)) nonce c1 (recordAD documentAD k1 header) /\
    box = gcmSeal (hkdfSha256 dbk [] (documentKeyInfo id2)) nonce c2 (recordAD documentAD k2 header) /\
    (documentKeyInfo id1, recordAD documentAD k1 header) <> (documentKeyInfo id2, recordAD documentAD k2 header).

(** C35: a document record belongs to its place: what opens as a document, at a Pebble
    key and for an ID, are exactly the records of this document that were sealed for
    both, with this revision and length.  A record that opens at two places has a box
    that is sealed in two contexts, which differ in the key's derivation or in the
    associated data. *)
Theorem openDoc_authentic k dbk id value doc :
  len dbk = keySize ->
  (openDoc k dbk id value = Ok doc <-> sealedAt k dbk id value doc) /\
  (forall k' id' doc', len k < 2 ^ 64 -> len k' < 2 ^ 64 -> len id < 2 ^ 64 -> len id' < 2 ^ 64 -> (k, id) <> (k', id') ->
     openDoc k dbk id value = Ok doc -> openDoc k' dbk id' value = Ok doc' -> boxTwice dbk k id k' id' value).
Proof.
  intros Hk. split; [split; [apply openDoc_sealedAt|by apply openDoc_opens]|].
  intros k' id' doc' Hl Hl' Hi Hi' Hne Ho (nonce' & c' & Hr' & Hn' & _ & _ & E' & _)%openDoc_sealedAt.
  apply openDoc_sealedAt in Ho as (nonce & c & Hr & Hn & _ & _ & E & _). rewrite recordOf_header in E, E'. rewrite E in E'.
  set (h := docRecordHeader _ _ nonce) in *. set (h' := docRecordHeader _ _ nonce') in *.
  assert (length h = 38%nat) as Hh by (apply length_docRecordHeader; [unfold wf_revision, len; by rewrite Hr|done]).
  assert (length h' = 38%nat) as Hh' by (apply length_docRecordHeader; [unfold wf_revision, len; by rewrite Hr'|done]).
  apply app_inj_1 in E' as [Eh Eb]; [|by rewrite Hh, Hh'].
  assert (nonce = nonce') as <-.
  { pose proof (f_equal (drop 26) Eh) as En. unfold h, h' in En.
    by rewrite !(fun r l n Hr => proj2 (proj2 (docRecordHeader_parts r l n Hr))) in En by done. }
  exists h, (gcmSeal (docKeyOf dbk id) nonce c (recordAD documentAD k h)), nonce, c, c'.
  split; [done|]. split; [done|]. split; [by rewrite Eb, Eh|]. intros Ep. pose proof (f_equal fst Ep) as Ei.
  pose proof (f_equal snd Ep) as Ea. cbn [fst snd] in Ei, Ea. destruct Hne. f_equal.
  - unfold recordAD in Ea. apply app_inv_head in Ea. by apply lengthField_inj in Ea as [-> _].
  - by apply (documentKeyInfo_separates id).
Qed.
End Records.

(** ** Opening a store *)

Section Opening.
Context {W : Type} `{HostSpec W} `{CryptoSpec}.

Lemma isScan_all_nil c l : isScan c None None l -> l = [] <-> c = ∅.
Proof.
  intros [_ Hl]. split.
  - intros ->. apply map_empty. intros k. destruct (c !! k) as [v|] eqn:Hv; [|done].
    assert ((k, v) ∈ []) as Hin by (by apply Hl). by apply elem_of_nil in Hin.
  - intros ->. destruct l as [|[k v] l]; [done|]. assert ((k, v) ∈ (k, v) :: l) as Hin by left.
    apply Hl in Hin as [Hin _]. by rewrite lookup_empty in Hin.
Qed.

Lemma reads_storeEmpty c : reads c storeEmpty (fun b => b = bool_decide (c = ∅)) noExit.
Proof.
  unfold storeEmpty. apply reads_newIter.
  - intros it Herr Hscan. apply reads_deferClose_noExit. cbv zeta.
    eapply reads_bind; [by apply reads_iterError_ok|]. intros _ _. apply reads_ret.
    pose proof (isScan_all_nil c _ Hscan) as Hnil. destruct (it_entries it);
      [rewrite bool_decide_eq_true_2|rewrite bool_decide_eq_false_2]; naive_solver.
  - intros it e Herr Hfe [l' Hscan].
    eapply reads_mono; [apply reads_deferClose_outside|done|by left]. cbv zeta.
    destruct (it_entries it) as [|x l] eqn:Hl.
    + eapply reads_bind; [by eapply (reads_iterError_bad c it e (fun _ => False))|done].
    + eapply reads_bind; [by apply (reads_ret c () (fun _ => True))|]. intros _ _. apply reads_ret.
      rewrite bool_decide_eq_false_2; [done|]. intros Hc. by apply (isScan_all_nil _ _ Hscan) in Hc.
Qed.

Definition storeMeta (key salt nonce : bytes) : bytes :=
  storeMetaHeader salt nonce
    ++ gcmSeal key nonce storeVerifier (recordAD storeADInfo storeMetaKey (storeMetaHeader salt nonce)).

Lemma openStoreMeta_storeMeta mk salt nonce :
  length salt = 32%nat -> length nonce = 12%nat ->
  openStoreMeta (storeMeta (deriveWrapKey mk salt) salt nonce) mk = Ok (deriveWrapKey mk salt).
Proof.
  intros Hs Hn. unfold openStoreMeta, storeMeta. set (h := storeMetaHeader salt nonce).
  assert (length h = 46%nat) as Hh.
  { unfold h, storeMetaHeader. cbn [length]. rewrite length_app, Hs, Hn. done. }
  rewrite len_app, len_gcmSeal. unfold len at 1. rewrite Hh.
  change storeMetaHeaderLen with 46. rewrite <- (Z.add_assoc 46), Z.eqb_refl.
  change (Z.to_nat 46) with 46%nat. rewrite take_app_len, drop_app_len by done.
  set (box := gcmSeal _ _ _ _).
  assert (at_ (h ++ box) 0 = storeMetaVersion) as -> by done.
  assert (at_ (h ++ box) 1 = wrappingKey1) as -> by done.
  rewrite !beqb_refl. cbn [negb orb].
  assert (take 32 (drop 2 h) = salt) as ->.
  { change (drop 2 h) with (salt ++ nonce). by apply take_app_len. }
  assert (drop 34 h = nonce) as ->.
  { change (drop 34 h) with (drop 32 (salt ++ nonce)). by apply drop_app_len. }
  assert (len (deriveWrapKey mk salt) = keySize) as Hk by apply len_hkdf.
  rewrite newGCM_32 by done. cbn [mbind res_bind]. unfold box.
  rewrite gcmOpen_gcmSeal; [by rewrite decide_True|by apply aesKeyLen_32|unfold len; by rewrite Hn].
Qed.

(** Metadata of a master key: under the wrapping key derived from it with the salt in
    the metadata, the verifier is sealed there, together with its place and its header.
    Any other value is of another master key, or of none. *)
Definition sealedMeta (mk value key : bytes) : Prop :=
  exists salt nonce, length salt = 32%nat /\ length nonce = 12%nat /\
    key = hkdfSha256 mk salt (str "kantandb/wrapping/v1") /\ value = storeMeta key salt nonce.

Lemma sealedMeta_key mk value key key' : sealedMeta mk value key -> sealedMeta mk value key' -> key' = key.
Proof.
  intros (salt & nonce & Hs & Hn & -> & ->) (salt' & nonce' & Hs' & Hn' & -> & E). unfold storeMeta in E.
  apply app_inj_1 in E as [[= E] _]; [|unfold storeMetaHeader; cbn [length]; by rewrite !length_app, Hs, Hs', Hn, Hn'].
  apply app_inj_1 in E as [-> _]; [done|by rewrite Hs, Hs'].
Qed.

Lemma openStoreMeta_sealed value mk key : openStoreMeta value mk = Ok key <-> sealedMeta mk value key.
Proof.
  split; [|intros (salt & nonce & Hs & Hn & -> & ->); by apply openStoreMeta_storeMeta].
  unfold openStoreMeta. destruct (_ || _) eqn:Hc; [done|]. apply orb_false_iff in Hc as [[Hl Hv0]%orb_false_iff Hv1].
  apply negb_false_iff in Hl, Hv0, Hv1. apply Z.eqb_eq in Hl. apply beqb_eq in Hv0, Hv1. cbv zeta.
  set (h := take _ value). set (salt := take 32 (drop 2 h)). rewrite newGCM_32 by apply len_hkdf. cbn [mbind res_bind].
  destruct (gcmOpen _ _ _ _) as [plain|] eqn:Hg; [|done]. destruct (decide (plain = storeVerifier)) as [->|]; [|done].
  intros <-%Ok_inj. apply gcmOpen_inv in Hg.
  assert (length value >= 46)%nat as Hlv by (unfold len, storeMetaHeaderLen, storeSaltLen, gcmNonceLen, gcmTagLen in *; lia).
  assert (length h = 46%nat) as Hh by (unfold h; rewrite length_take; change (Z.to_nat storeMetaHeaderLen) with 46%nat; lia).
  exists salt, (drop 34 h). split; [unfold salt; rewrite length_take, length_drop; lia|].
  split; [rewrite length_drop; lia|]. split; [done|].
  assert (storeMetaHeader salt (drop 34 h) = h) as Eh.
  { unfold salt. rewrite <- (take_drop (Z.to_nat storeMetaHeaderLen) value) in Hv0, Hv1. fold h in Hv0, Hv1.
    destruct h as [|c0 [|c1 h']]; [done..|]. unfold storeMetaHeader. cbn [app drop] in *.
    change (at_ (c0 :: ?l) 0) with c0 in Hv0. change (at_ (c0 :: c1 :: ?l) 1) with c1 in Hv1. subst c0 c1. do 2 f_equal.
    change 32%nat with (0 + 32)%nat at 2. by rewrite take_drop. }
  unfold storeMeta. rewrite Eh, <- (take_drop (Z.to_nat storeMetaHeaderLen) value). by f_equal.
Qed.

(** Opening with a master key: an empty store gets its metadata, one that has it
    is left as it is. *)
Inductive opened (c : gmap bytes bytes) (mk key : bytes) : gmap bytes bytes -> Prop :=
  | opened_new value : len mk = keySize -> c = ∅ -> sealedMeta mk value key ->
      opened c mk key {[storeMetaKey := value]}
  | opened_old value : len mk = keySize -> c !! storeMetaKey = Some value -> sealedMeta mk value key ->
      opened c mk key c.

(** Why a master key is refused. *)
Inductive refused (c : gmap bytes bytes) (mk : bytes) : Prop :=
  | refused_length : len mk <> keySize -> refused c mk
  | refused_foreign : c <> ∅ -> c !! storeMetaKey = None -> refused c mk
  | refused_key value : c !! storeMetaKey = Some value -> (forall key, ~ sealedMeta mk value key) -> refused c mk.

Lemma triple_set (c : gmap bytes bytes) (k v : bytes) (Q : res unit -> gmap bytes bytes -> Prop) (F : gmap bytes bytes -> Prop) :
  Q (Ok ()) (<[k := v]> c) -> F c -> F (<[k := v]> c) ->
  triple c (onErr wrapStore (ofOpt (pebbleSet k v))) Q F.
Proof.
  intros HQ HF1 HF2 w Hw. unfold onErr, ofOpt. pose proof (pebbleSet_spec k v w) as HS.
  destruct (pebbleSet k v w) as [[e|] w']; destruct HS as (H3 & H4); (split; [done|]).
  - right. destruct H4 as (Ho & H4 & Hc). split; [eexists; auto with goerr|].
    rewrite Hw in Hc. by destruct Hc as [->| ->].
  - left. by rewrite H4, Hw.
Qed.

Definition openOutcome (c : gmap bytes bytes) (mk : bytes) (r : res bytes) (c' : gmap bytes bytes)
    : Prop :=
  match r with
  | Ok key => opened c mk key c'
  | Err e => c' = c /\ refused c mk /\ errorsIs errInvalidStoreKey e = true
  | OutOfFuel => False
  end.

Definition openMiddle (c : gmap bytes bytes) (mk : bytes) (c' : gmap bytes bytes) : Prop :=
  c' = c \/ exists key, opened c mk key c'.

Lemma triple_initStoreMeta c mk :
  len mk = keySize -> c !! storeMetaKey = None ->
  triple c (initStoreMeta mk) (openOutcome c mk) (openMiddle c mk).
Proof.
  intros Hmk Hmeta. unfold initStoreMeta.
  eapply triple_bind_reads; [apply reads_storeEmpty| |done|done|by left]. intros ? ->.
  case_bool_decide as Hc; cbn [negb]; cycle 1.
  { apply triple_throw. split; [done|]. split; [by apply refused_foreign|done]. }
  eapply triple_bind_reads; [by apply (reads_rand c 32 noExit)| |done|done|by left]. intros salt Hs.
  cbv zeta. rewrite newGCM_32 by apply len_hkdf.
  eapply triple_bind_reads;
    [by apply (reads_lift c (Ok _) (fun b => b = deriveWrapKey mk salt) noExit)| |done|done|by left].
  intros ? ->.
  eapply triple_bind_reads; [by apply (reads_rand c 12 noExit)| |done|done|by left]. intros nonce Hn.
  assert (sealedMeta mk (storeMeta (deriveWrapKey mk salt) salt nonce) (deriveWrapKey mk salt)) as Hopen
    by (by exists salt, nonce).
  assert (opened c mk (deriveWrapKey mk salt)
            (<[storeMetaKey := storeMeta (deriveWrapKey mk salt) salt nonce]> c)) as Ho.
  { subst c. rewrite insert_empty. by apply opened_new. }
  apply (triple_fmap _ _ (fun _ => _)), triple_set; [exact Ho|by left|right; by eexists].
Qed.

Lemma triple_initStoreCrypto c mk :
  triple c (initStoreCrypto mk) (openOutcome c mk) (openMiddle c mk).
Proof.
  unfold initStoreCrypto. destruct (Z.eqb_spec (len mk) keySize) as [Hmk|Hmk]; cbn [negb]; cycle 1.
  { apply triple_throw. split; [done|]. split; [by apply refused_length|done]. }
  eapply triple_bind_reads; [apply (reads_lookupKey c storeMetaKey noExit)| |done|done|by left].
  intros ? ->. destruct (c !! storeMetaKey) as [value|] eqn:Hmeta; [|by apply triple_initStoreMeta].
  eapply triple_bind_reads; [by apply (reads_close c (fun _ => True) noExit)| |done|done|by left].
  intros _ _. destruct (openStoreMeta value mk) as [key|e|] eqn:Hopen.
  - intros w <-. split; [done|]. left. eapply opened_old; [done|exact Hmeta|by apply openStoreMeta_sealed].
  - apply triple_throw. split; [done|]. split; [|done]. apply (refused_key _ _ value); [done|].
    intros key Hkey%openStoreMeta_sealed. congruence.
  - apply triple_throw. split; [done|]. split; [|done]. apply (refused_key _ _ value); [done|].
    intros key Hkey%openStoreMeta_sealed. congruence.
Qed.

Lemma reads_open c (E : exits) : reads c (onErr wrapf (ofOpt pebbleOpen)) (fun _ => True) E.
Proof.
  intros w Hw. unfold onErr, ofOpt. pose proof (pebbleOpen_spec w) as HO.
  destruct (pebbleOpen w) as [[e|] w']; destruct HO as (H3 & H4 & H5); (split; [done|]); [|done].
  left. destruct H5. auto with goerr.
Qed.

Lemma triple_openStore c mk : triple c (openStore mk) (openOutcome c mk) (openMiddle c mk).
Proof.
  unfold openStore.
  eapply triple_bind_reads; [by apply (reads_open c noExit)|intros _ _|done|done|by left].
  intros w Hw. pose proof (triple_initStoreCrypto c mk w Hw) as HI.
  unfold mbind, M_bind, catch. destruct (initStoreCrypto mk w) as [[key|e|] w1]; [done| |done].
  destruct HI as [Hf HI]. unfold ofOpt, throw. pose proof (pebbleClose_spec w1) as HC.
  destruct (pebbleClose w1) as [[ce|] w2]; destruct HC as (Hc & Hf2 & HC); (split; [auto|]); rewrite Hc;
    destruct HI as [(H3 & H4 & H5)|((e' & [= <-] & Ho) & Hfa & Hm)]; auto.
  - left. split; [done|]. split; [done|]. rewrite errorsIs_join, H5. done.
  - right. destruct HC. split; [eexists; auto with goerr|auto].
  - by left.
  - right. split; [by exists e|auto].
Qed.

Lemma opened_again c mk key c' : opened c mk key c' -> exists value,
  c' !! storeMetaKey = Some value /\ sealedMeta mk value key.
Proof.
  intros [value _ _ Hv|value _ Hm Hv]; exists value; [by rewrite lookup_singleton_eq|done].
Qed.

Lemma opened_rep c mk key c' a wk :
  store_rep wk c a -> opened c mk key c' ->
  (c = ∅ /\ a = ∅ /\ store_rep (StoreKey key (c' !! storeMetaKey)) c' ∅) \/ c' = c.
Proof.
  intros Hrep [value _ Hc Hv|value _ _ _]; [left|by right]. split; [done|]. subst c. split.
  - apply map_empty. intros n. destruct (a !! n) as [d|] eqn:Hd; [|done].
    destruct Hrep as (_ & _ & _ & H3).
    destruct (H3 (KDb n) (EDb (ldb_key d))) as (v & Hl & _); [simpl; by rewrite Hd|].
    by rewrite lookup_empty in Hl.
  - split; [done|]. split; [done|]. split.
    + intros k v. rewrite lookup_singleton_Some. intros [<- _]. by left.
    + intros sk e He. rewrite want_absent in He; [done|apply lookup_empty].
Qed.

(** Opening a store, closing it and opening it again. *)
Definition reopen (mk mk' : bytes) : M W (bytes * bytes) :=
  key ← openStore mk;
  _ ← closeStore;
  key' ← openStore mk';
  mret (key, key').


(** The one box of the metadata is the verifier sealed under both wrapping keys. *)
Definition oneBox (c : gmap bytes bytes) (key key' : bytes) : Prop :=
  exists header nonce,
    let box := gcmSeal key nonce storeVerifier (recordAD storeADInfo storeMetaKey header) in
    c !! storeMetaKey = Some (header ++ box) /\
    box = gcmSeal key' nonce storeVerifier (recordAD storeADInfo storeMetaKey header).

Lemma sealedMeta_box mk mk' value key key' :
  sealedMeta mk value key -> sealedMeta mk' value key' -> exists header nonce,
    let box := gcmSeal key nonce storeVerifier (recordAD storeADInfo storeMetaKey header) in
    value = header ++ box /\ box = gcmSeal key' nonce storeVerifier (recordAD storeADInfo storeMetaKey header).
Proof.
  intros (salt & nonce & Hs & Hn & -> & ->) (salt' & nonce' & Hs' & Hn' & -> & E). unfold storeMeta in *.
  exists (storeMetaHeader salt nonce), nonce. split; [done|]. apply app_inj_1 in E as [Eh Eb];
    [|unfold storeMetaHeader; cbn [length]; by rewrite !length_app, Hs, Hs', Hn, Hn'].
  rewrite <- Eh in Eb. injection Eh as Eh. by apply app_inj_1 in Eh as [-> ->]; [|by rewrite Hs, Hs'].
Qed.

Lemma opened_twice c mk mk' key key' c1 c2 :
  opened c mk key c1 -> opened c1 mk' key' c2 -> c2 = c1 /\ (mk' = mk -> key' = key) /\ oneBox c1 key key'.
Proof.
  intros (value & Hm & Hv)%opened_again Ho. destruct Ho as [value' _ ->|value' _ Hm' Hv'];
    [by rewrite lookup_empty in Hm|]. assert (value' = value) as -> by congruence. split; [done|].
  split; [intros ->; by eapply sealedMeta_key|].
  destruct (sealedMeta_box _ _ _ _ _ Hv Hv') as (header & nonce & Ev & Eb). rewrite Ev in Hm. exists header, nonce. by split.
Qed.

Lemma opened_refused c mk key c' : opened c mk key c' -> ~ refused c' mk.
Proof.
  intros Ho. pose proof (opened_again _ _ _ _ Ho) as (value & Hm & Hv). intros [Hl|? ?|value' Hm' Hv'].
  - by destruct Ho.
  - congruence.
  - apply (Hv' key). assert (value' = value) as -> by congruence. done.
Qed.

Lemma reads_closeStore c (E : exits) : reads c closeStore (fun _ => True) E.
Proof.
  intros w Hw. unfold closeStore, onErr, ofOpt. pose proof (pebbleClose_spec w) as HC.
  destruct (pebbleClose w) as [[e|] w']; destruct HC as (H3 & H4 & H5); (split; [done|]); [|done].
  left. destruct H5. auto with goerr.
Qed.

(** C33: a store keeps its wrapping key: opened, closed and opened again with the
    same master key it gives the same wrapping key, and is never refused; the
    second opening changes nothing, whatever key it is given.  A master key is refused
    unless the metadata is the verifier sealed under the wrapping key it gives; one
    that is accepted beside the first has sealed the very same box. *)
Theorem reopen_correct (c : gmap bytes bytes) mk mk' :
  triple c (reopen mk mk')
    (fun r c' => match r with
                 | Ok (key, key') => opened c mk key c' /\ opened c' mk' key' c' /\
                                     (mk' = mk -> key' = key) /\ oneBox c' key key'
                 | Err e => errorsIs errInvalidStoreKey e = true /\
                     (c' = c /\ refused c mk \/
                      mk' <> mk /\ exists key, opened c mk key c' /\ refused c' mk')
                 | OutOfFuel => False
                 end)
    (fun c' => c' = c \/ exists key, opened c mk key c').
Proof.
  intros w Hw. pose proof (triple_openStore c mk w Hw) as H1'. unfold reopen, mbind, M_bind.
  destruct (openStore mk w) as [[key|e|] w1]; destruct H1' as [Hf H1']; cycle 1.
  { split; [done|]. destruct H1' as [(Hc & Hr & He)|((? & [= <-] & Ho) & Hfa & Hm)]; [by auto|].
    right. split; [by exists e|done]. }
  { split; [done|]. by destruct H1' as [?|((? & ? & _) & _)]. }
  destruct H1' as [Ho|((? & ? & _) & _)]; [|done]. unfold openOutcome in Ho.
  pose proof (reads_closeStore (contents w1) noExit w1 eq_refl) as HC.
  destruct (closeStore w1) as [[u|e|] w2]; destruct HC as [[Hc Hf2] HC]; [| |done].
  2: { split; [auto|]. right. destruct HC as [[? ?]|[]]. rewrite Hc. split; [by exists e|eauto]. }
  pose proof (triple_openStore (contents w1) mk' w2 Hc) as H2'.
  destruct (openStore mk' w2) as [[key'|e|] w3]; destruct H2' as [Hf3 H2']; (split; [auto|]).
  - destruct H2' as [Ho'|((? & ? & _) & _)]; [|done]. unfold openOutcome in Ho'.
    destruct (opened_twice _ _ _ _ _ _ _ Ho Ho') as (E & Hkey & Hbox). rewrite E in Ho' |- *. by left.
  - destruct H2' as [(-> & Hr & He)|(He & Hfa & Hm)].
    + left. split; [done|]. right. split; [|by exists key]. intros ->.
      by apply (opened_refused _ _ _ _ Ho).
    + destruct He as (? & [= <-] & He). right. split; [by exists e|]. split; [done|]. right. exists key.
      destruct Hm as [->|[key' Ho']]; [done|].
      by destruct (opened_twice _ _ _ _ _ _ _ Ho Ho') as [-> _].
  - by destruct H2' as [?|((? & ? & _) & _)].
Qed.
End Opening.

(** ** The theorems at work *)

Definition simSealed : bytes :=
  match fst (sealDoc (docKey simDb simID) simWk simID zeroRevision simJson world0) with
  | Ok value => value
  | _ => []
  end.

Lemma sealDoc_openDoc_witness :
  openDoc (docKey simDb simID) simWk simID simSealed = Ok (StoredDoc simJson zeroRevision).
Proof.
  pose proof (sealDoc_openDoc ∅ (docKey simDb simID) simWk simID zeroRevision simJson
    eq_refl eq_refl world0 eq_refl) as Hs.
  assert (is_ok (fst (sealDoc (docKey simDb simID) simWk simID zeroRevision simJson world0)) = true)
    as Hok by (vm_compute; reflexivity).
  unfold simSealed.
  destruct (sealDoc (docKey simDb simID) simWk simID zeroRevision simJson world0) as [[v|e|] w'];
    [|discriminate Hok..].
  exact (proj2 (proj2 Hs)).
Defined.

Lemma openDoc_authentic_witness :
  sealedAt (docKey simDb simID) simWk simID simSealed (StoredDoc simJson zeroRevision).
Proof.
  apply (openDoc_authentic (docKey simDb simID) simWk simID simSealed (StoredDoc simJson zeroRevision)); [reflexivity|].
  vm_compute. reflexivity.
Defined.

(** A new store, and the same one opened with another key. *)
Lemma reopen_correct_witness :
  exists key, opened ∅ simWk key (w_store (snd (reopen simWk (reverse simWk) world0))) /\
    refused (w_store (snd (reopen simWk (reverse simWk) world0))) (reverse simWk).
Proof.
  pose proof (reopen_correct ∅ simWk (reverse simWk) world0 eq_refl) as Ho.
  assert (match reopen simWk (reverse simWk) world0 with (Err _, w) => negb (bool_decide (w_store w = ∅))
          | _ => false end = true) as Hok by (vm_compute; reflexivity).
  destruct (reopen simWk (reverse simWk) world0) as [[p|e|] w]; [discriminate Hok| |discriminate Hok].
  destruct Ho as [_ [[_ [[Hc _]|[_ Ho]]]|(_ & [] & _)]]; [|exact Ho].
  exfalso. change (contents w) with (w_store w) in Hc. rewrite Hc in Hok. discriminate Hok.
Defined.

Lemma documentKeyInfo_separates_witness :
  documentKeyInfo simID = documentKeyInfo simID /\ simID = simID.
Proof.
  split; [reflexivity|].
  apply (proj2 (proj2 (documentKeyInfo_separates simID)) simID); reflexivity.
Defined.
