(* ===== verification/CursorTheorems.v ===== *)
(** * Cursors: theorems

    A cursor that was handed out decodes to the position it was made of; a token
    that decodes was sealed under the key of the database. *)

From S2P Require Import Prelude GoErrors Codec Text Base64 Validation Keys IndexValue Host Crypto Wp.
From S2P Require Import Store StoreRep StoreReads StoreSpec Range Cursor Sim.

Section Cursors.
Context {W : Type} `{HostSpec W} `{CryptoSpec}.

(** C31: the token made of a valid cursor, of an index query or of a path query,
    is accepted, under the same key, as this very cursor, whatever the lengths of
    its fields; an invalid cursor gets no token. *)
Theorem cursor_roundtrip c box cursor pathCursor :
  len box = keySize -> len (pc_pathHash pathCursor) = sha256Size ->
  reads c (encodeQueryCursor box cursor)
    (fun token => validateQueryCursor cursor = Ok () /\ decodeQueryCursor box token = Ok cursor)
    (fun x => x = Some (errInvalidQueryCursor : error) /\ validateQueryCursor cursor <> Ok ()) /\
  reads c (encodePathCursor box pathCursor)
    (fun token => validatePathCursor pathCursor = Ok () /\ decodePathCursor box token = Ok pathCursor)
    (fun x => x = Some (errInvalidQueryCursor : error) /\ validatePathCursor pathCursor <> Ok ()).
Proof.
  intros Hb Hh. split.
  - destruct (validateQueryCursor_cases cursor) as [Hv|Hv].
    + eapply reads_mono; [by apply reads_encodeQueryCursor with (E := noExit)|done|done].
    + unfold encodeQueryCursor. rewrite Hv. apply reads_throw. by split.
  - destruct (validatePathCursor_cases pathCursor) as [Hv|Hv].
    + eapply reads_mono; [by apply reads_encodePathCursor with (E := noExit)|done|done].
    + unfold encodePathCursor. rewrite Hv. apply reads_throw. by split.
Qed.

(** A token that a holder of the key has sealed as data of a kind. *)
Definition sealedUnder (box : bytes) (version : byte) (token : bytes) : Prop :=
  exists nonce rest, len nonce = 12 /\
    token = b64encode (nonce ++ gcmSeal box nonce (version :: rest) []).

Lemma openToken_version v1 v2 m1 m2 box token r1 r2 :
  openToken v1 m1 box token = Some r1 -> openToken v2 m2 box token = Some r2 -> v1 = v2.
Proof.
  unfold openToken. destruct (_ || _); [done|]. destruct ((len token =? 0) || (b64encodedLen (m2 + 12 + 16) <? len token)); [done|].
  destruct (b64decode token) as [sealed|]; [|done]. cbn [mbind option_bind].
  destruct (_ || _); [done|]. destruct (_ || _) in |- *; [by intros _|].
  destruct (_ <? _); [done|]. destruct (gcmOpen _ _ _ _) as [[|v rest]|]; try done.
  cbn [mbind option_bind]. destruct (_ || _) eqn:E1; [done|]. intros _.
  destruct (_ || _) eqn:E2 in |- *; [done|]. intros _.
  apply orb_false_iff in E1 as [_ E1], E2 as [_ E2]. apply negb_false_iff in E1, E2.
  apply beqb_eq in E1, E2. congruence.
Qed.

(** C30: a token is accepted only if it was sealed under the key, in the version of
    its kind, and holds a valid cursor: no token of one kind of query is accepted
    for the other, and every other text is refused with [errInvalidQueryCursor]. *)
Theorem cursor_authentic box token :
  (forall cursor, decodeQueryCursor box token = Ok cursor ->
     sealedUnder box queryCursorVersion token /\ validateQueryCursor cursor = Ok () /\
     forall pc, decodePathCursor box token <> Ok pc) /\
  (forall cursor, decodePathCursor box token = Ok cursor ->
     sealedUnder box pathCursorVersion token /\ validatePathCursor cursor = Ok ()) /\
  (forall e, decodeQueryCursor box token = Err e \/ decodePathCursor box token = Err e ->
     e = errInvalidQueryCursor).
Proof.
  unfold decodeQueryCursor, decodePathCursor.
  destruct (openToken queryCursorVersion _ _ _) as [r1|] eqn:E1; cbn [mbind option_bind].
  - destruct (openToken pathCursorVersion _ _ _) as [r2|] eqn:E2; cbn [mbind option_bind].
    { by pose proof (openToken_version _ _ _ _ _ _ _ _ E1 E2). }
    apply openToken_inv in E1 as (nonce & Hn & Ht).
    destruct (parseQueryCursor r1) as [cursor|]; [|naive_solver].
    destruct (validateQueryCursor_cases cursor) as [Hv|Hv]; rewrite Hv; cbn [mbind res_bind]; [|naive_solver].
    split; [|naive_solver]. intros ? [= <-]. split; [by exists nonce, r1|done].
  - split; [done|]. destruct (openToken pathCursorVersion _ _ _) as [r2|] eqn:E2; cbn [mbind option_bind];
      [|naive_solver].
    apply openToken_inv in E2 as (nonce & Hn & Ht).
    destruct (parsePathCursor r2) as [cursor|]; [|naive_solver].
    destruct (validatePathCursor_cases cursor) as [Hv|Hv]; rewrite Hv; [|naive_solver].
    split; [|naive_solver]. intros ? [= <-]. split; [by exists nonce, r2|done].
Qed.
End Cursors.

(** ** The theorems at work *)

Definition simCursor : queryCursor := QueryCursor simDb (str "pages") cmpEq [x02] [] simID.

Definition simPathCursor : pathCursor :=
  PathCursor queryMethod dialectJSONPath orderDocument simDb (pathHash (str "$.pages")) [] cmpGT [x02] []
    simID.

Definition simToken : bytes :=
  match fst (encodeQueryCursor simWk simCursor world0) with Ok t => t | _ => [] end.

Lemma cursor_roundtrip_witness :
  decodeQueryCursor simWk simToken = Ok simCursor /\ exists token, decodePathCursor simWk token = Ok simPathCursor.
Proof.
  pose proof (cursor_roundtrip ∅ simWk simCursor simPathCursor eq_refl eq_refl) as [Hq Hp].
  specialize (Hq world0 eq_refl). specialize (Hp world0 eq_refl).
  assert (is_ok (fst (encodeQueryCursor simWk simCursor world0)) = true) as Hok
    by (vm_compute; reflexivity).
  assert (is_ok (fst (encodePathCursor simWk simPathCursor world0)) = true) as Hok'
    by (vm_compute; reflexivity).
  unfold simToken. destruct (encodeQueryCursor simWk simCursor world0) as [[t|e|] w]; [|discriminate Hok..].
  destruct (encodePathCursor simWk simPathCursor world0) as [[t'|e|] w']; [|discriminate Hok'..].
  split; [exact (proj2 (proj2 Hq))|]. exists t'. exact (proj2 (proj2 Hp)).
Defined.

Lemma cursor_authentic_witness :
  sealedUnder simWk queryCursorVersion simToken /\ validateQueryCursor simCursor = Ok ().
Proof.
  destruct (cursor_authentic simWk simToken) as (Hq & _ & _).
  destruct (Hq simCursor) as (Hs & Hv & _); [vm_compute; reflexivity|]. split; [exact Hs|exact Hv].
Defined.
