(* ===== verification/QueryTheorems.v ===== *)
(** * Path queries: theorems

    A plan is what the path and the indexes allow; a plan over an index answers as
    a scan of the documents would; the execution of a plan returns its answer and a
    cursor that resumes it. *)

From S2P Require Import Prelude GoErrors Codec Text Base64 Validation Keys Number Json IndexValue.
From S2P Require Import Document Host Crypto Wp Store StoreRep StoreReads StoreSpec StoreLists Range.
From S2P Require Import StoreRange Cursor Query PathText QueryFacts QueryRuns Sim RangeTheorems.

Section Plans.
Context {W : Type} `{HostSpec W} `{CryptoSpec} `{JSONPathSpec}.
Variables (wk : storeKey) (a : astate).

(** C29: planning accepts a path just when its text is UTF-8 of 1 to 256 bytes with at
    most 16 brackets open at any place outside quotations, it parses, it has at most 32
    segments, and the text of the parsed path has no comma directly in square brackets
    and at most one descendant step; every other path is refused as an invalid path, and
    a missing database is the only other cause of failure: the check of the delimiters
    never panics.  The plan has the first index, in the order of the definitions, whose
    pointer is that of the path's member names escaped as RFC 6901 says, and none where
    the path is not one of member names, where an array could read a name as an index, or
    where no index has that pointer. *)
Theorem planPathQuery_correct n raw :
  validName n ->
  observes wk a (planPathQuery wk n raw)
    (fun r => match r with
              | Ok plan => exists d, a !! n = Some d /\ acceptedPath raw (pp_path plan) /\
                  pp_text plan = jpString (pp_path plan) /\ usesIndex d (pp_path plan) (pp_index plan)
              | Err err =>
                  errorsIs errInvalidPath err = true /\ (forall path, ~ acceptedPath raw path) \/
                  err = errDBNotFound /\ a !! n = None /\ exists path, acceptedPath raw path
              | OutOfFuel => False
              end).
Proof.
  intros Hn. eapply observes_reads; [intros c Hrep; by apply reads_planPathQuery|done| |by intros [? [? ?]]].
  intros err (? & [= <-] & [? Hno|path Hacc Hnone]); [by left|right]. split; [done|]. split; [done|]. by exists path.
Qed.

(** The plan that scans the documents. *)
Definition scanPlan (plan : pathPlan) : pathPlan := PathPlan (pp_path plan) (pp_text plan) [].

Lemma scanPage_page limit maxWork (hits : bytes -> bool) (keys : list bytes) :
  0 <= limit -> len keys <= maxWork ->
  (pg_ids (scanPage limit maxWork hits keys), pg_more (scanPage limit maxWork hits keys))
  = (take (Z.to_nat limit) (filter (fun id => hits id = true) keys),
     limit <? len (filter (fun id => hits id = true) keys)).
Proof.
  intros Hl Hk. unfold scanPage. cbv zeta. rewrite (take_ge keys) by (unfold len in Hk; lia).
  destruct (Z.ltb_spec limit (len (filter (fun id => hits id = true) keys))); cbn [pg_ids pg_more]; [done|].
  rewrite take_ge by (unfold len in *; lia). by rewrite (proj2 (Z.ltb_ge _ _)).
Qed.

(** C13: an index answers as a scan does.  Where a plan uses an index, an equality
    query gives the very page, and the same word about more, that a scan of all the
    documents gives from the same document; a query with an inequality finds the
    same documents, in the order of their values. *)
Theorem index_scan_agree n d plan query e aid av :
  wfDb n d -> usesIndex d (pp_path plan) (pp_index plan) -> pp_index plan <> [] ->
  opValid (pq_op query) = true -> 0 <= pq_limit query ->
  len (sortedKeys (ldb_docs d)) <= maxScanDocs ->
  (beqb (pq_op query) cmpEq = true ->
     let '(ids1, _, _, more1) := planAnswer d plan query e aid av in
     let '(ids2, _, _, more2) := planAnswer d (scanPlan plan) query e aid av in
     ids1 = ids2 /\ more1 = more2) /\
  (beqb (pq_op query) cmpEq = false ->
     Permutation (map snd (rangeEntries d (pp_index plan) (pq_op query) e))
       (pathIDs d (pp_path plan) (pq_op query) e)).
Proof.
  clear wk. intros Hwd Huse Hne Hop Hlim Hscan.
  destruct (usesIndex_def _ _ _ Huse Hne) as (pointer & def & Hptr & Hin & Hpath & Hplan). split.
  - intros Heq. unfold planAnswer, indexAnswer. cbn [pp_index scanPlan pp_path]. rewrite Hplan.
    destruct (def_name def) as [|b ix] eqn:Hname; [congruence|]. rewrite Heq. unfold page.
    pose proof Heq as Heq'. apply beqb_eq in Heq'. rewrite Heq', <- Hname.
    rewrite (matching_pathIDs n d Hwd (pp_path plan) e pointer def Hptr Hin Hpath).
    set (hits := pathHits (pp_path plan) cmpEq e d).
    assert (after aid (pathIDs d (pp_path plan) cmpEq e)
            = filter (fun id => hits id = true) (after aid (sortedKeys (ldb_docs d)))) as Hcomm.
    { unfold after, pathIDs. rewrite !list_filter_filter. apply list_filter_iff. intros id. tauto. }
    assert (len (after aid (sortedKeys (ldb_docs d))) <= maxScanDocs) as Hscan'.
    { unfold after, len in *. pose proof (length_filter (blt aid) (sortedKeys (ldb_docs d))). lia. }
    pose proof (scanPage_page (pq_limit query) maxScanDocs hits _ Hlim Hscan') as Hpage.
    rewrite Hcomm. by injection Hpage as -> ->.
  - intros Heq. rewrite Hplan.
    by apply (rangeEntries_pathIDs n d Hwd (pp_path plan) (pq_op query) e pointer def).
Qed.

(** C10: executing a plan returns the plan's answer on the documents of the
    database from the position of the cursor, if one is given and it belongs to
    this query; when there is more it also returns a cursor, and the same query
    with it starts where this answer ended; it fails only for the stated causes. *)
Theorem executePathQuery_correct ctx n plan query :
  validName n -> 1 <= pq_limit query -> opValid (pq_op query) = true ->
  observes wk a (executePathQuery wk ctx n plan query)
    (fun r => match r with
              | Ok p => answered a n plan query p
              | Err err => execFails a n plan query err
              | OutOfFuel => False
              end).
Proof.
  intros Hn Hlim Hop.
  eapply observes_reads; [intros c Hrep; by apply reads_executePathQuery|done| |by intros [? [? ?]]].
  by intros err (? & [= <-] & ?).
Qed.
End Plans.

(** ** The theorems at work *)

(** A JSONPath library for paths of plain names, [$.a.b]. *)
Definition simNames (raw : bytes) : option (list bytes) :=
  match splitByte "." raw with
  | root :: names => if decide (root = str "$") then Some names else None
  | [] => None
  end.

#[global] Instance simPath : JSONPath := {|
  jpath := bytes;
  jpParse raw :=
    if forallb plainChar raw
    then match simNames raw with Some _ => inr raw | None => inl EText end else inl EText;
  jpString path := path;
  jpSegments path := map nameSegment (default [] (simNames path));
  jpSelect path v := selectNames (default [] (simNames path)) v;
|}.

#[global] Instance simPathSpec : JSONPathSpec.
Proof.
  split; simpl.
  - intros path names v E. f_equal. revert E. generalize (default [] (simNames path)).
    intros l. revert names. induction l as [|x l IH]; intros [|y names]; try done.
    cbn [map]. unfold nameSegment at 1 3. intros E. pose proof (f_equal head E) as E1.
    pose proof (f_equal tail E) as E2. cbn [head tail] in E1, E2. injection E1 as ->.
    f_equal. by apply IH.
  - intros raw path. destruct (forallb plainChar raw) eqn:Hf; [|done].
    destruct (simNames raw); [|done]. intros [= <-]. apply delimited_plain, Forall_forall.
    intros c Hc. apply (proj1 (forallb_forall _ _) Hf). by apply list_elem_of_In.
Qed.

Definition simPlan : pathPlan := PathPlan (str "$.pages") (str "$.pages") (str "pages").
Definition simQuery (op : cmpOp) (lit : string) : pathQuery :=
  PathQuery (str "$.pages") (JNum (str lit)) [] op 1.

Lemma planPathQuery_correct_witness :
  (exists d : ldb, usesIndex d (str "$.pages") (str "pages")) /\ (forall path, ~ acceptedPath (str "$.a]") path).
Proof.
  destruct sim_rep2 as (a & _ & _ & Hrep & _). split.
  - pose proof (sim_observes simWk a _ _ world2
      (planPathQuery_correct simWk a simDb (str "$.pages") ltac:(sim_valid)) Hrep) as Hpost.
    assert (fst (planPathQuery simWk simDb (str "$.pages") world2) = Ok simPlan) as Hok
      by (vm_compute; reflexivity).
    rewrite Hok in Hpost. destruct Hpost as (d & _ & _ & _ & Hi). exists d. exact Hi.
  - pose proof (sim_observes simWk a _ _ world2
      (planPathQuery_correct simWk a simDb (str "$.a]") ltac:(sim_valid)) Hrep) as Hpost.
    assert (fst (planPathQuery simWk simDb (str "$.a]") world2) = Err (wrapf errInvalidPath)) as Herr
      by (vm_compute; reflexivity).
    rewrite Herr in Hpost. destruct Hpost as [(_ & Hno)|(Hmissing & _)]; [exact Hno|discriminate Hmissing].
Defined.

Lemma index_scan_agree_witness :
  exists (d : ldb) (ids : list bytes) id lv more,
    planAnswer d (scanPlan simPlan) (simQuery cmpEq "474.0") sim474 [] [] = (ids, id, lv, more) /\
    ids = [simID] /\ more = false.
Proof.
  destruct sim_db2 as (a & key & rev & Hrep & Hd). pose proof (rep_wfDb _ _ _ Hrep _ _ Hd) as Hwd.
  set (d := Ldb key (merge_sort def_le simDefs) {[simID := StoredDoc simJson rev]}).
  assert (usesIndex d (pp_path simPlan) (pp_index simPlan)) as Huse.
  { apply (uses_first d (pp_path simPlan) [str "pages"] [] (IndexDef (str "pages") (str "/pages")) (tail (ldb_defs d)));
      [|vm_compute; reflexivity..|constructor].
    split; [discriminate|]. split; [vm_compute; reflexivity|]. constructor; [|constructor].
    rewrite <- isArrayIndex_spec. vm_compute. discriminate. }
  destruct (index_scan_agree simDb d simPlan (simQuery cmpEq "474.0") sim474 [] [] Hwd Huse) as [Heq _];
    [discriminate|reflexivity|vm_compute; discriminate..|].
  specialize (Heq eq_refl). exists d.
  assert (planAnswer d simPlan (simQuery cmpEq "474.0") sim474 [] [] = ([simID], simID, [], false))
    as E by (vm_compute; reflexivity).
  rewrite E in Heq. destruct (planAnswer d (scanPlan simPlan) _ _ _ _) as [[[ids id] lv] more].
  destruct Heq as [<- <-]. exists [simID], id, lv, false.
  split; [reflexivity|]. split; reflexivity.
Defined.

(** A page of one document of two, with a cursor. *)
Lemma executePathQuery_correct_witness :
  exists (d : ldb) aid av, planAnswer d simPlan (simQuery cmpGT "100") sim100 [] [] = ([simID3], aid, av, true).
Proof.
  destruct sim_rep3 as (a & Hrep).
  pose proof (sim_observes simWk a _ _ world3
    (executePathQuery_correct simWk a RequestCtx simDb simPlan (simQuery cmpGT "100")
       ltac:(sim_valid) ltac:(vm_compute; discriminate) ltac:(sim_valid)) Hrep) as Hpost.
  assert (match fst (executePathQuery simWk RequestCtx simDb simPlan (simQuery cmpGT "100") world3) with
          | Ok (ids, []) => False | Ok (ids, _) => ids = [simID3] | _ => False end) as Hok
    by (vm_compute; reflexivity).
  destruct (fst (executePathQuery _ _ _ _ _ world3)) as [[ids token]|e|]; [|destruct Hok..].
  destruct Hpost as (d & e & aid & av & ids' & id' & lv' & more & _ & He & Hst & Hans & Hids & Hm).
  exists d, id', lv'.
  destruct token as [|b token]; [destruct Hok|]. cbn [fst snd] in Hids, Hm. subst ids' ids.
  destruct more; [|discriminate Hm].
  assert (e = sim100) as -> by (apply Ok_inj; by rewrite <- He).
  apply Ok_inj in Hst. injection Hst as <- <-. exact Hans.
Defined.
