(* ===== verification/BulkTheorems.v ===== *)
(** * Bulk bodies: theorems

    What a bulk import reads from a body, for the reader of [Bulk] in fragments. *)

From S2P Require Import Prelude GoErrors Text Validation Keys Json Document Host Conn Wp Store StoreSpec Bulk BulkFacts ExportFacts BulkRuns.
From S2P Require Import Sim.

#[local] Open Scope Z_scope.

(** The document whose member a is 1. *)
Definition simLine : bytes := [x7b; x22; x61; x22; x3a; x31; x7d].

(** C14: the body of an import is read as its lines: up to the limit on the whole
    body the reader, which sees fragments of the size of its buffer, gives the
    documents, or the error of the first bad line, that the reference on whole
    lines gives; over that limit it gives an error; and a body that breaks off
    is never accepted, whatever was in it. *)
Theorem readBulk_correct {W : Type} `{HS : HostSpec W} maxLine maxBytes maxDocs ctx data :
  0 <= maxLine ->
  (forall w, exists r, readBulkCtx ctx (Reader data None) maxLine maxBytes maxDocs w = (r, w) /\
     agrees (len data <= maxBytes) (checkLines maxLine maxDocs 1 [] (bulkLines [] data)) r) /\
  (forall e w, breaksOff e ->
     let '(r, w') := readBulkCtx ctx (Reader data (Some e)) maxLine maxBytes maxDocs w in
     contents w' = contents w /\ exists e', r = Err e').
Proof.
  intros Hl. split; [intros w; by apply readBulkCtx_lines|]. intros e w He.
  pose proof (reads_readBulkCtx_broken maxLine maxBytes maxDocs (contents w) ctx e data He w eq_refl) as Hr.
  destruct (readBulkCtx _ _ _ _ _ w) as [r w']. destruct Hr as [[Hc _] Hr]. split; [done|].
  destruct r as [documents|e'|]; [by destruct Hr|by exists e'|done].
Qed.

(** Two lines, the last without its newline; and a body that breaks off. *)
Lemma readBulk_correct_witness :
  readBulkCtx Background (Reader (simLine ++ [x0d; x0a] ++ simLine) None) 100 100 2 world0 = (Ok [simLine; simLine], world0) /\
  exists e, (readBulkCtx Background (Reader (simLine ++ [x0a]) (Some (ESentinel ctxCanceled))) 100 100 2 world0).1 = Err e.
Proof.
  destruct (readBulk_correct 100 100 2 Background (simLine ++ [x0d; x0a] ++ simLine) ltac:(lia)) as [Hlines _].
  destruct (readBulk_correct 100 100 2 Background (simLine ++ [x0a]) ltac:(lia)) as [_ Hbroken]. split.
  - destruct (Hlines world0) as (r & Hr & Hagrees & _). rewrite Hr. f_equal. rewrite Hagrees by (by vm_compute). by vm_compute.
  - specialize (Hbroken (ESentinel ctxCanceled) world0 ltac:(done)).
    destruct (readBulkCtx _ _ _ _ _ _) as [r w]. exact (proj2 Hbroken).
Defined.

(** A document line of exactly the size of the buffer, without and with CR. *)
Definition fullLine : bytes := [x7b; x22; x61; x22; x3a; x22] ++ replicate 4087 x61 ++ [x22; x7d].

(** The limit on a line does not count its end, with one exception: a line of
    exactly [maxLine] bytes is accepted with LF, and refused with CR LF when
    [maxLine + 1] is the size of the reader's buffer, since the buffer is then full
    before the LF is seen. *)
Lemma crlf_at_the_buffer {W : Type} `{HS : HostSpec W} (w : W) :
  let limit := len fullLine in
  (readBulkCtx Background (Reader (fullLine ++ [x0a]) None) limit 9000 1 w).1 = Ok [fullLine] /\
  (readBulkCtx Background (Reader (fullLine ++ [x0d; x0a]) None) limit 9000 1 w).1 = Err (ELine 1 errBulkLimit).
Proof.
  cbv zeta. split.
  - destruct (readBulkCtx_lines (len fullLine) 9000 1 Background (fullLine ++ [x0a]) w) as (r & -> & Hr & _); [by vm_compute|].
    cbn [fst]. rewrite Hr by (by vm_compute). by vm_compute.
  - destruct (readBulkCtx_lines (len fullLine) 9000 1 Background (fullLine ++ [x0d; x0a]) w) as (r & -> & Hr & _); [by vm_compute|].
    cbn [fst]. rewrite Hr by (by vm_compute). by vm_compute.
Qed.
