(* ===== verification/SimApi.v ===== *)
(** * A concrete server

    The concrete host with a connection that takes everything, a patch library for
    whole replacements, and requests to serve on it. *)

From S2P Require Import Prelude GoErrors Codec Text Validation Keys Json Document IndexValue Mime Patch Url DbRequest.
From S2P Require Import Host Conn Crypto Wp Store StoreRep StoreReads StoreSpec StoreBulk Range Cursor Query Bulk BulkFacts ExportFacts Config.
From S2P Require Import Api Routes RouteFacts ApiFacts ApiSpec BulkRuns Serving Draws Sim QueryTheorems.

#[global] Instance simConn : Conn world := {|
  connWrite _ w := (None, w);
  connFlush w := (None, w);
  connDeadline w := (Some (httpErrNotSupported : error), w);
|}.

#[global] Instance simConnSpec : ConnSpec world.
Proof.
  split; [done|done|]. intros w. split; [done|]. split; [done|]. intros e [= <-].
  by apply foreign_foreign_sentinel.
Qed.

Lemma sim_reliable : reliable world.
Proof. split; [done|]. split; [done|]. by intros w e [= <-]. Qed.

Lemma sim_trouble w : ~ trouble (W := world) w.
Proof. intros [[]|Hr]. apply Hr, sim_reliable. Qed.

(** A merge replaces the document, and no list of operations can be read. *)
#[global] Instance simPatch : JSONPatch := {|
  jpatch := unit;
  jpMerge document body := inr body;
  jpDecode _ := inl EText;
  jpApply _ document _ := inr document;
|}.

Definition simApi : api := Api 4096 defaultBulkConfig 0 false (str "test").

Definition simRequest (method path : bytes) (header : list (bytes * bytes)) (body : bytes) : request :=
  Request method path path [] header [body] None.

Definition jsonType : list (bytes * bytes) := [(str "Content-Type", str "application/json")].
Definition ndjsonType : list (bytes * bytes) := [(str "Content-Type", str "application/x-ndjson")].

Lemma simRequest_end method path header body : wfEnd (simRequest method path header body).
Proof. intros e. discriminate. Qed.

Lemma sim_fuel : (0 < 5)%nat.
Proof. lia. Qed.

Lemma sim_max : 0 <= ap_maxBodyBytes simApi.
Proof. by vm_compute. Qed.

(** Nothing fails here, so a handler answers as it is specified. *)
Lemma sim_answers wk a retry m (spec : answer) bad w :
  answers (W := world) wk a retry m spec bad -> store_rep wk (w_store w) a ->
  exists a', store_rep wk (w_store (snd (m w))) a' /\
    match fst (m w) with Ok resp => spec resp a' | Err _ => False | OutOfFuel => retry end.
Proof.
  intros Hm Hrep. specialize (Hm w Hrep). destruct (m w) as [[resp|e|] w'];
    destruct Hm as (_ & a' & Hrep' & Hr); exists a'; (split; [done|]); [|done|by destruct Hr].
  destruct Hr as [?|[Ht _]]; [done|]. by apply sim_trouble in Ht.
Qed.

(** ** Requests that follow one another *)

Definition simServe (r : request) (w : world) : res response * world := serve simWk 5 simApi r w.

Definition answered (x : res response * world) : response :=
  match x.1 with Ok resp => resp | _ => Response 0 [] [] end.

Definition responseHeader (name : string) (resp : response) : bytes :=
  headerGet name (Request [] [] [] [] (rs_header resp) [] None).

Lemma answered_ok x : is_ok x.1 = true -> x.1 = Ok (answered x).
Proof. unfold answered. by destruct x.1. Qed.

Lemma simServe_ok r w :
  is_ok (simServe r w).1 = true -> serve simWk 5 simApi r w = (Ok (answered (simServe r w)), (simServe r w).2).
Proof. intros Hok%answered_ok. fold (simServe r w). rewrite (surjective_pairing (simServe r w)) at 1. by rewrite Hok. Qed.

(** A document is created, replaced, and exported. *)
Definition simPost : request := simRequest (str "POST") (str "/db/books") jsonType simJson.
Definition world4 : world := (simServe simPost world1).2.

Definition simLocation : bytes := responseHeader "Location" (answered (simServe simPost world1)).
Definition simID4 : bytes := drop (length (str "/db/books/")) simLocation.
Definition simETag : bytes := responseHeader "ETag" (answered (simServe simPost world1)).

Definition simGet : request := simRequest (str "GET") simLocation [] [].

(** The revision that ETag names. *)
Definition simRev : revision :=
  match parseIfMatch [simETag] with Ok m => mc_revision m | _ => [] end.

Definition simPut : request :=
  simRequest (str "PUT") simLocation (jsonType ++ [(str "If-Match", simETag)]) simJson3.
Definition world5 : world := (simServe simPut world4).2.

Definition simExport : request := simRequest (str "GET") (str "/bulk/books") [] [].
Definition world6 : world := (simServe simExport world5).2.
Definition simImport : request :=
  simRequest (str "POST") (str "/bulk/books") ndjsonType (rs_body (answered (simServe simExport world5))).

Lemma simServe_step a r w resp :
  wfEnd r -> store_rep simWk (w_store w) a -> (simServe r w).1 = Ok resp ->
  exists a', store_rep simWk (w_store (simServe r w).2) a' /\ serveSpec simApi a r resp a'.
Proof.
  intros Hr Hrep Hok.
  destruct (sim_answers _ _ _ _ _ _ w
    (answers_serve simWk 5 simApi a eq_refl sim_fuel sim_max r Hr) Hrep) as (a' & Hrep' & Hs).
  fold (simServe r w) in Hs, Hrep'. rewrite Hok in Hs. by exists a'.
Qed.

Lemma simServe_canonical a r w :
  wfEnd r -> store_rep simWk (w_store w) a -> storesCanonical 4096 a -> is_ok (simServe r w).1 = true ->
  exists a', store_rep simWk (w_store (simServe r w).2) a' /\ storesCanonical 4096 a'.
Proof.
  intros Hr Hrep Ha Hok. destruct (simServe r w).1 as [resp|e|] eqn:E; try done.
  destruct (simServe_step a r w resp Hr Hrep E) as (a' & Hrep' & Hs). exists a'. split; [done|].
  by eapply (serveSpec_canonical simApi).
Qed.

Lemma sim_created1 : exists key, store_rep simWk (contents world1) (<[simDb := newDb key simDefs]> ∅).
Proof.
  pose proof (triple_createDB simWk ∅ ∅ simDb simDefs sim_rep0 eq_refl eq_refl world0 eq_refl) as H.
  unfold world1. assert (fst (createDB simWk simDb simDefs world0) = Ok ()) as Hok by (by vm_compute).
  destruct (createDB simWk simDb simDefs world0) as [r w1]. simpl in Hok. subst r.
  destruct H as [_ [(a & Hrep & [key _ _ _ ->])|(_ & [] & _)]]. by exists key.
Qed.

Lemma sim_canonical1 : exists a, store_rep simWk (contents world1) a /\ storesCanonical 4096 a.
Proof.
  destruct sim_created1 as [key Hrep]. eexists. split; [exact Hrep|].
  apply storesCanonical_new, storesCanonical_empty.
Qed.

Lemma sim_canonical5 : exists a, store_rep simWk (contents world5) a /\ storesCanonical 4096 a.
Proof.
  destruct sim_canonical1 as (a & Hrep & Ha).
  destruct (simServe_canonical a simPost world1) as (a4 & Hrep4 & Ha4);
    [apply simRequest_end|done|done|by vm_compute|].
  by destruct (simServe_canonical a4 simPut world4) as (a5 & Hrep5 & Ha5);
    [apply simRequest_end|done|done|by vm_compute|exists a5].
Qed.

(** What is stored at the end, which is what the export sends. *)
Lemma exportBytes_length documents : len documents <= len (exportBytes documents).
Proof.
  unfold len, exportBytes. induction documents as [|d documents IH]; [done|]. cbn [map concat].
  rewrite !length_app. cbn [length]. lia.
Qed.

Lemma sim_exported a :
  store_rep simWk (w_store world5) a ->
  exists d, a !! simDb = Some d /\ exportedDocs d <> [] /\ len (exportedDocs d) <= bc_maxDocuments (ap_bulk simApi).
Proof.
  intros Hrep.
  destruct (simServe_step a simExport world5 _ (simRequest_end _ _ _ _) Hrep (answered_ok (simServe simExport world5) ltac:(by vm_compute)))
    as (a' & _ & Hs).
  assert (plainRequest "GET" [str "bulk"; simDb] simExport) as Hplain by (split_and!; by vm_compute).
  destruct (serveSpec_plain simApi a simExport _ _ TExportBulk [simDb] Hplain) as (E & _ & _);
    [apply plainBulk; by vm_compute|done|by rewrite route_bulk by (by vm_compute)|done|]. rewrite E in Hs. clear E.
  destruct (export_success simApi a simDb simExport _ a' Hs ltac:(by vm_compute)) as (_ & _ & d & Hd & Hresp).
  exists d. split; [exact Hd|]. pose proof (exportBytes_length (exportedDocs d)) as Hlen.
  assert (exportBytes (exportedDocs d) = rs_body (answered (simServe simExport world5))) as Hbody by (by rewrite Hresp).
  assert (rs_body (answered (simServe simExport world5)) = simJson3 ++ [x0a]) as Hval by (by vm_compute).
  rewrite Hval in Hbody. split.
  - intros Hnil. rewrite Hnil in Hbody. discriminate Hbody.
  - rewrite Hbody in Hlen. assert (len (simJson3 ++ [x0a]) = 16) as Hl by (by vm_compute). rewrite Hl in Hlen.
    etransitivity; [exact Hlen|]. by vm_compute.
Qed.

(** ** The draws are new *)

(** The ID of the clock's reading [i], with the time of the reading after it. *)
Definition clockID (i : Z) : bytes := formatID (putBE 16 i) (1700000000000 + (i + 1)).

Lemma clockID_not_random i j : putBE 16 j <> clockID i.
Proof.
  intros E. apply (f_equal length) in E. unfold clockID in E.
  rewrite (validID_length _ (validID_formatID _ _ (length_putBE 16 i))), length_putBE in E. discriminate.
Qed.

Lemma clockID_new i j : 0 <= i < j -> j <= 2 ^ 32 -> clockID j <> clockID i.
Proof.
  intros Hi Hj E. assert (clockID i <b clockID j) as Hlt.
  { apply formatID_order; [lia|]. change (2 ^ 48) with (65536 * 2 ^ 32). lia. }
  rewrite E in Hlt. revert Hlt. apply irreflexivity, _.
Qed.

(** The readings from [lo] up to [hi] give values that are not in [s]. *)
Definition clear (lo hi : Z) (s : gset bytes) : Prop :=
  forall i, lo <= i < hi -> putBE 16 i ∉ s /\ clockID i ∉ s.

Lemma clear_mono lo lo' hi hi' s s' : lo' <= lo -> hi <= hi' -> s ⊆ s' -> clear lo' hi' s' -> clear lo hi s.
Proof. intros Hl Hh Hs Hc i Hi. destruct (Hc i); [lia|]. set_solver. Qed.

Lemma clear_next i lo hi s : 0 <= i < lo -> hi <= 2 ^ 32 -> clear lo hi s -> clear lo hi ({[clockID i]} ∪ s).
Proof.
  intros Hi Hh Hc j Hj. destruct (Hc j Hj) as [Hr Hid].
  pose proof (clockID_not_random i j). pose proof (clockID_new i j ltac:(lia) ltac:(lia)). set_solver.
Qed.

(** A draw takes two readings at most. *)
Definition clockAvoids (k : nat) (s : gset bytes) (w : world) : Prop :=
  0 <= w_clock w /\ w_clock w + 2 * Z.of_nat k <= 2 ^ 32 /\ clear (w_clock w) (w_clock w + 2 * Z.of_nat k) s.

Lemma clockAvoids_mono k k' s s' w : (k <= k')%nat -> s ⊆ s' -> clockAvoids k' s' w -> clockAvoids k s w.
Proof.
  intros Hk Hs (? & ? & Hc). split; [done|]. split; [lia|]. eapply clear_mono; [reflexivity| |exact Hs|exact Hc]. lia.
Qed.

#[global] Program Instance simDraws : FreshDraws world := {| avoids := clockAvoids |}.
Next Obligation. exact clockAvoids_mono. Qed.
Next Obligation.
  intros n k s w (? & ? & Hc). cbn. split; [split_and!; cbn; [lia|lia|]|].
  - eapply clear_mono; [| |reflexivity|exact Hc]; lia.
  - intros ->. apply (Hc (w_clock w)). lia.
Qed.
Next Obligation.
  intros k s w b w1 (? & ? & Hc) [= <- <-]. cbn. fold (clockID (w_clock w)). split; [apply (Hc (w_clock w)); lia|].
  split_and!; cbn; [lia|lia|]. apply clear_next; [lia|lia|]. eapply clear_mono; [| |reflexivity|exact Hc]; lia.
Qed.
Solve Obligations with done.

Lemma sim_covers1 : exists a, store_rep simWk (contents world1) a /\ covers ∅ a.
Proof.
  destruct sim_created1 as [key Hrep]. eexists. split; [exact Hrep|]. intros n d id doc.
  rewrite lookup_insert_Some, lookup_empty. intros [[_ <-]|[_ [=]]]. cbn [ldb_docs newDb]. by rewrite lookup_empty.
Qed.

Lemma sim_avoids1 : avoids (drawsOf simApi) ∅ world1.
Proof.
  change (clockAvoids (drawsOf simApi) ∅ world1). split_and!; [by vm_compute|by vm_compute|]. intros i _. set_solver.
Qed.
