(* ===== verification/ApiTheorems.v ===== *)
(** * The server: theorems

    What a request to the server does, on any host, connection and cipher that
    behave as documented. *)

From S2P Require Import Prelude GoErrors Codec Text Validation Keys Json Document IndexValue Mime Patch Url DbRequest.
From S2P Require Import Host Conn Crypto Wp Store StoreRep StoreReads StoreSpec StoreBulk Range Cursor Query QueryFacts QueryRuns.
From S2P Require Import Bulk BulkFacts ExportFacts Config Api Routes RouteFacts ApiFacts ApiSpec ApiRuns BulkRuns Serving OpenApi Conforms Draws.
From S2P Require Import Sim SimApi.
From stdpp Require Import relations.

#[local] Open Scope Z_scope.

Section Server.
Context {W : Type} `{ConnSpec W} `{CryptoSpec} `{JSONPathSpec} `{JSONPatch}.
Variables (wk : storeKey) (fuel : nat) (ap : api).
Context (Hwk : len wk = keySize) (Hfuel : (0 < fuel)%nat) (Hmax : 0 <= ap_maxBodyBytes ap).

(** C1: the server meets its specification: every request is answered, with the
    response and the change of the databases and documents the specification has
    for its route and handler; after a failure of the host or the connection the
    response is an error or a cut export, and the store is as before or as the
    answer would have left it. *)
Theorem serve_correct a r :
  wfEnd r -> answers wk a (serveRetries r) (serve wk fuel ap r) (serveSpec ap a r) (serveBad a r).
Proof. apply answers_serve; done. Qed.

(** One request served. *)
Definition serves (w w' : W) : Prop := exists r, wfEnd r /\ snd (serve wk fuel ap r w) = w'.

(** C2: whatever requests are served, and whatever fails on the way, the store
    keeps representing databases and documents, and every document in it is
    canonical: an object [validateDoc] accepts and leaves as it is. *)
Theorem serves_invariant a w w' :
  store_rep wk (contents w) a -> storesCanonical (ap_maxBodyBytes ap) a -> rtc serves w w' ->
  exists a', store_rep wk (contents w') a' /\ storesCanonical (ap_maxBodyBytes ap) a'.
Proof.
  intros Hrep Ha Hs. revert a Hrep Ha.
  induction Hs as [w|w w1 w' (r & Hr & <-) _ IH]; intros a Hrep Ha; [by exists a|].
  pose proof (answers_serve wk fuel ap a Hwk Hfuel Hmax r Hr w Hrep) as Hserve.
  destruct (serve wk fuel ap r w) as [[resp|e|] w1]; destruct Hserve as (_ & a' & Hrep' & Hresp); cbn [snd] in *;
    apply (IH a' Hrep'); [|done|by destruct Hresp as [_ ->]].
  destruct Hresp as [Hresp|(_ & _ & [->|[resp' Hresp]])]; [|done|]; by eapply serveSpec_canonical.
Qed.

(** C21: a request with a method that reads, and a request that is answered with
    an error while nothing outside fails, leave every database and document as it
    was. *)
Theorem serve_keeps a r w :
  wfEnd r -> store_rep wk (contents w) a ->
  let '(res, w') := serve wk fuel ap r w in
  (rq_method r ∉ writingMethods -> store_rep wk (contents w') a) /\
  (forall resp, res = Ok resp -> 400 <= rs_status resp -> ~ trouble w' -> store_rep wk (contents w') a).
Proof.
  intros Hr Hrep. pose proof (answers_serve wk fuel ap a Hwk Hfuel Hmax r Hr w Hrep) as Hs.
  destruct (serve wk fuel ap r w) as [res w']. destruct Hs as (_ & a' & Hrep' & Hres). split.
  - intros Hm. destruct res as [resp|e|]; [|done|by destruct Hres as [_ ->]].
    destruct Hres as [Hres|(_ & _ & [->|[resp' Hres]])]; [|done|]; by rewrite <- (serveSpec_reads ap a r _ _ Hm Hres).
  - intros resp -> He Ht. destruct Hres as [Hres|(? & _)]; [|done]. by rewrite <- (serveSpec_errors ap a r _ _ He Hres).
Qed.

(** C20: a document that was created can be read: after a POST that was answered
    with 201, a GET of the path in its Location returns the document as
    [validateDoc] left it, under the revision of the ETag. *)
Theorem created_reads_back a w w1 n r1 r2 resp :
  plainRequest "POST" [str "db"; n] r1 -> validName n -> wfEnd r1 -> wfEnd r2 -> store_rep wk (contents w) a ->
  serve wk fuel ap r1 w = (Ok resp, w1) -> ~ trouble w1 -> rs_status resp = StatusCreated ->
  exists id rev document, validID id /\ readDocument ap r1 = inr document /\ resp = docCreated n id rev /\
    (plainRequest "GET" [str "db"; n; id] r2 ->
     let '(res, w2) := serve wk fuel ap r2 w1 in
     exists resp2, res = Ok resp2 /\ (resp2 = docAnswer document rev \/ trouble w2 /\ serverError resp2)).
Proof.
  intros Hp1 Hn He1 He2 Hrep Hs1 Ht Hst. pose proof (answers_serve wk fuel ap a Hwk Hfuel Hmax r1 He1 w Hrep) as Ha.
  rewrite Hs1 in Ha. destruct Ha as (_ & a1 & Hrep1 & [Ha|[? _]]); [|done].
  assert (ap_stopping ap = false) as Hstop by (eapply served_running; [exact Ha|by rewrite Hst]).
  destruct (serveSpec_plain ap a r1 _ _ TCreateDoc [n] Hp1) as (E & _ & _);
    [by apply plainDatabase|done|by rewrite route_database|done|]. rewrite E in Ha. cbn in Ha. clear E.
  unfold createDocSpec, unlessRefused in Ha. destruct (requestCreate ap n r1) as [refused|document] eqn:Hq.
  { apply requestCreate_refused in Hq. destruct Ha as [-> _]. by rewrite Hst in Hq. }
  destruct Ha as [(id & rev & Hid & Hc & ->)|(id & e & _ & _ & [-> _])]; cycle 1.
  { pose proof (createDocError_status e) as He. by rewrite Hst in He. }
  exists id, rev, document. split; [done|]. split.
  { unfold requestCreate in Hq. destruct (negb _); [done|]. by destruct (negb _). }
  split; [done|]. intros Hp2. pose proof (answers_serve wk fuel ap a1 Hwk Hfuel Hmax r2 He2 w1 Hrep1) as Hb.
  destruct (serveSpec_plain ap a1 r2 _ _ TGetDoc [n; id] Hp2) as (E & Ebad & Er);
    [by apply plainDocument|done|by rewrite route_document|done|]. rewrite E, Ebad, Er in Hb.
  destruct (serve wk fuel ap r2 w1) as [[resp2|e|] w2]; destruct Hb as (_ & a2 & _ & Hb); [|done|by destruct Hb].
  exists resp2. split; [done|]. destruct Hb as [Hb|(? & ? & _)]; [left|by right].
  cbn in Hb. unfold getDocSpec in Hb. destruct Hc as [d Hd _ _ ->]. unfold validDocPath in Hb.
  unfold validName in Hn. unfold validID in Hid. rewrite Hn, Hid in Hb. cbn [is_ok negb] in Hb.
  rewrite (setDoc_lookup _ _ _ _ _ Hd) in Hb. cbn [mbind option_bind ldb_docs] in Hb.
  rewrite lookup_partial_alter_eq in Hb. by destruct Hb as [-> _].
Qed.

(** C11: no update is lost: of two requests that name the same revision in their
    If-Match, if the first, a PUT, succeeds, the second is refused and changes
    nothing, whatever it would have done. *)
Theorem no_lost_update a w w1 n id rev r1 r2 resp :
  plainRequest "PUT" [str "db"; n; id] r1 -> changesDoc n id r2 -> validName n -> validID id ->
  wfEnd r1 -> wfEnd r2 -> store_rep wk (contents w) a ->
  parseIfMatch (headerValues "If-Match" r1) = Ok (MatchCond true false rev) ->
  parseIfMatch (headerValues "If-Match" r2) = Ok (MatchCond true false rev) ->
  serve wk fuel ap r1 w = (Ok resp, w1) -> ~ trouble w1 -> rs_status resp = StatusOK ->
  exists a1, store_rep wk (contents w1) a1 /\
    let '(res, w2) := serve wk fuel ap r2 w1 in
    store_rep wk (contents w2) a1 /\
    match res with Ok resp2 => 400 <= rs_status resp2 | Err _ => False | OutOfFuel => True end.
Proof.
  intros Hp1 Hp2 Hn Hid He1 He2 Hrep Hm1 Hm2 Hs1 Ht Hst.
  pose proof (answers_serve wk fuel ap a Hwk Hfuel Hmax r1 He1 w Hrep) as Ha.
  rewrite Hs1 in Ha. destruct Ha as (_ & a1 & Hrep1 & [Ha|[? _]]); [|done].
  assert (ap_stopping ap = false) as Hstop by (eapply served_running; [exact Ha|by rewrite Hst]).
  destruct (serveSpec_plain ap a r1 _ _ TReplaceDoc [n; id] Hp1) as (E & _ & _);
    [by apply plainDocument|done|by rewrite route_document|done|]. rewrite E in Ha. clear E.
  apply (replaceDoc_moves ap a n id rev r1 resp a1 Hm1 Hst) in Ha as Hmoved.
  exists a1. split; [done|]. pose proof (answers_serve wk fuel ap a1 Hwk Hfuel Hmax r2 He2 w1 Hrep1) as Hb.
  destruct (changesDoc_stale ap a1 n id rev r2 Hp2 Hn Hid Hstop Hmoved Hm2) as [Hrefused Hbad].
  destruct (serve wk fuel ap r2 w1) as [[resp2|e|] w2]; destruct Hb as (_ & a2 & Hrep2 & Hb); [|done|by destruct Hb as [_ ->]].
  destruct Hb as [[? ->]%Hrefused|(_ & ?%Hbad & [->|(resp3 & [_ ->]%Hrefused)])]; done.
Qed.

(** C12: an export can be imported: the body of a bulk export, sent as a bulk
    import within the limits, is read as exactly the exported documents, which are
    stored under new IDs, all of them or, for one of the stated causes, none. *)
Theorem export_import a d w w1 n m r1 r2 resp :
  plainRequest "GET" [str "bulk"; n] r1 -> plainRequest "POST" [str "bulk"; m] r2 -> validName n -> validName m ->
  wfEnd r1 -> store_rep wk (contents w) a -> storesCanonical (ap_maxBodyBytes ap) a -> a !! n = Some d ->
  exportedDocs d <> [] -> len (exportedDocs d) <= bc_maxDocuments (ap_bulk ap) ->
  len (rs_body resp) <= bc_maxBytes (ap_bulk ap) ->
  serve wk fuel ap r1 w = (Ok resp, w1) -> ~ trouble w1 -> rs_status resp = StatusOK ->
  headerGet "Content-Type" r2 = bulkMediaType -> rq_rawQuery r2 = [] ->
  concat (rq_chunks r2) = rs_body resp -> rq_end r2 = None ->
  let '(res, w2) := serve wk fuel ap r2 w1 in
  ~ trouble w2 ->
  exists a2, store_rep wk (contents w2) a2 /\
    match res with
    | Ok resp2 => (exists ids, imported a m (exportedDocs d) ids a2 /\ resp2 = writeBulkSuccess) \/
                  exists e, importFails anyBatch a m (exportedDocs d) e /\ says a (failBulk [] e) resp2 a2
    | Err _ => False
    | OutOfFuel => a2 = a
    end.
Proof.
  intros Hp1 Hp2 Hn Hm He1 Hrep Hcan Hd Hne Hcount Hsize Hs1 Ht Hst Hct Hraw Hbody Hend.
  assert (wfEnd r2) as He2 by (intros e; by rewrite Hend).
  pose proof (answers_serve wk fuel ap a Hwk Hfuel Hmax r1 He1 w Hrep) as Ha.
  rewrite Hs1 in Ha. destruct Ha as (_ & a1 & Hrep1 & [Ha|[? _]]); [|done].
  assert (ap_stopping ap = false) as Hstop by (eapply served_running; [exact Ha|by rewrite Hst]).
  destruct (serveSpec_plain ap a r1 _ _ TExportBulk [n] Hp1) as (E & _ & _);
    [by apply plainBulk|done|by rewrite route_bulk|done|]. rewrite E in Ha. clear E.
  destruct (export_success ap a n r1 resp a1 Ha Hst) as (Hslot & -> & d' & Hd' & Hresp). simplify_eq.
  cbn [rs_body] in Hbody, Hsize.
  pose proof (answers_serve wk fuel ap a Hwk Hfuel Hmax r2 He2 w1 Hrep1) as Hb.
  destruct (serveSpec_plain ap a r2 _ _ TImportBulk [m] Hp2) as (E & _ & _);
    [by apply plainBulk|done|by rewrite route_bulk|done|]. rewrite E in Hb. clear E.
  destruct (serve wk fuel ap r2 w1) as [res w2]. intros Ht2. destruct Hb as (_ & a2 & Hrep2 & Hb). exists a2.
  split; [done|]. destruct res as [resp2|e|]; [|done|by destruct Hb]. destruct Hb as [Hb|[? _]]; [|done].
  by apply (import_exported ap a n d m r2).
Qed.
(** C3: every request gets its response: when the draws of the request avoid the
    IDs and revisions in use, as those of a random source do, the loops that draw
    until a value is new end in their first round, and the server answers, as the
    specification has it unless something outside failed. *)
Theorem serve_responds `{FD : !FreshDraws W} s a r w :
  wfEnd r -> store_rep wk (contents w) a -> covers s a -> avoids (drawsOf ap) s w ->
  exists resp w' a', serve wk fuel ap r w = (Ok resp, w') /\ store_rep wk (contents w') a' /\
    (serveSpec ap a r resp a' \/ trouble w').
Proof.
  intros Hr Hrep Hs Hw.
  pose proof (serve_returns wk fuel ap a Hwk Hfuel Hmax s (contents w) Hrep Hs r Hr w eq_refl Hw) as Hret.
  pose proof (answers_serve wk fuel ap a Hwk Hfuel Hmax r Hr w Hrep) as Ha.
  destruct (serve wk fuel ap r w) as [[resp|e|] w']; destruct Ha as (_ & a' & Hrep' & Ha); [|done|done].
  exists resp, w', a'. split; [done|]. split; [done|]. destruct Ha as [?|[? _]]; auto.
Qed.

(** C4: every answer is one that openapi.yaml describes for the operation the request
    reaches: its status, its headers, the media type of its body, and a body that is
    one JSON value of the schema, or, for an export, lines of JSON objects; a redirect
    to the path without its slash has the status described for the method.  The one
    exception is a server that is stopping: it answers the same on every path, which
    for the bulk operations is not the body described. *)
Theorem serve_conforms a r w resp :
  wfEnd r -> store_rep wk (contents w) a -> storesCanonical (ap_maxBodyBytes ap) a ->
  utf8Valid (ap_version ap) = true -> uncleanPath (rq_path r) = false -> cleanPath (rq_escaped r) = rq_escaped r ->
  (serve wk fuel ap r w).1 = Ok resp ->
  let t := (findRoute (rq_method r) (rq_escaped r)).1 in
  conforms t resp /\ (t = TRedirect -> rs_status resp = redirectStatus (rq_method r)) \/
  ap_stopping ap = true /\ resp = stopped /\ ~ (bulkTarget t = false /\ 503 ∈ errorsOf t) /\ ~ conforms t resp.
Proof.
  intros Hr Hrep Ha Hv Hu Hc Hs. cbv zeta. destruct (ap_stopping ap) eqn:Hstop.
  - assert (resp = stopped) as ->.
    { pose proof (answers_serve wk fuel ap a Hwk Hfuel Hmax r Hr w Hrep) as Hans. revert Hs. unfold serve, rejectStopping.
      rewrite Hstop. cbn. by intros [= <-]. }
    pose proof (stopped_conforms (findRoute (rq_method r) (rq_escaped r)).1) as Hsc.
    destruct (decide (bulkTarget (findRoute (rq_method r) (rq_escaped r)).1 = false /\
                      503 ∈ errorsOf (findRoute (rq_method r) (rq_escaped r)).1)) as [Hd|Hd].
    + left. split; [by apply Hsc|]. intros Ht. rewrite Ht in Hd. by destruct Hd as [_ Hd%elem_of_nil].
    + right. split_and!; [done|done|exact Hd|]. by intros ?%Hsc.
  - left. destruct Hrep as [Hwf Hrest] eqn:E. revert Hs. clear E.
    unfold serve, rejectStopping, rejectUncleanPath, mux. rewrite Hstop, Hu, Hc. cbv zeta.
    rewrite bool_decide_eq_true_2 by done. destruct (findRoute _ _) as [t vars]. cbn [fst].
    unfold mbind, M_bind, catch. destruct (handle wk fuel ap t vars r w) as [[resp'|e|] w'] eqn:Hh; cbn; [|..].
    + intros [= <-]. split; [eapply handle_conforms; try done; by split|].
      intros ->. cbn in Hh. injection Hh as <- _. apply redirectNoSlash_status.
    + pose proof (answers_handle wk fuel ap a Hwk Hfuel Hmax t vars r Hr w (conj Hwf Hrest)) as Hans. rewrite Hh in Hans.
      by destruct Hans as (_ & ? & _ & []).
    + done.
Qed.

End Server.

(** The concrete server meets the hypotheses. *)

Lemma serve_correct_witness :
  exists a a', store_rep simWk (w_store world4) a' /\
    serveSpec simApi a simPost (answered (simServe simPost world1)) a'.
Proof.
  destruct sim_canonical1 as (a & Hrep & _). exists a.
  pose proof (serve_correct simWk 5 simApi eq_refl sim_fuel sim_max a simPost (simRequest_end _ _ _ _)) as Hs.
  destruct (sim_answers _ _ _ _ _ _ world1 Hs Hrep) as (a' & Hrep' & Ha). exists a'. fold (simServe simPost world1) in Ha.
  rewrite (answered_ok (simServe simPost world1)) in Ha by (by vm_compute). split; [exact Hrep'|exact Ha].
Defined.

Lemma serve_responds_witness : exists resp, (simServe simPost world1).1 = Ok resp.
Proof.
  destruct sim_covers1 as (a & Hrep & Hs).
  destruct (serve_responds simWk 5 simApi eq_refl sim_fuel sim_max ∅ a simPost world1 (simRequest_end _ _ _ _) Hrep Hs sim_avoids1)
    as (resp & w' & a' & E & _). exists resp. unfold simServe. rewrite E. reflexivity.
Defined.

Lemma serve_conforms_witness : conforms TCreateDoc (answered (simServe simPost world1)).
Proof.
  destruct sim_canonical1 as (a & Hrep & Ha).
  destruct (serve_conforms simWk 5 simApi eq_refl sim_fuel sim_max a simPost world1 (answered (simServe simPost world1)))
    as [[Hc _]|(Hstop & _)]; [apply simRequest_end|exact Hrep|exact Ha|reflexivity|by vm_compute|by vm_compute
    |apply answered_ok; by vm_compute| |discriminate Hstop].
  replace (findRoute (rq_method simPost) (rq_escaped simPost)).1 with TCreateDoc in Hc by (by vm_compute). exact Hc.
Defined.

Lemma serves_invariant_witness : exists a, store_rep simWk (w_store world5) a /\ storesCanonical 4096 a.
Proof.
  destruct sim_canonical1 as (a & Hrep & Ha).
  apply (serves_invariant simWk 5 simApi eq_refl sim_fuel sim_max a world1 world5 Hrep Ha).
  eapply rtc_l; [exists simPost; split; [apply simRequest_end|reflexivity]|].
  apply rtc_once. exists simPut. split; [apply simRequest_end|reflexivity].
Defined.

(** The document is read, and a replacement that names a stale revision refused. *)
Lemma serve_keeps_witness :
  exists a, store_rep simWk (w_store (simServe simExport world5).2) a /\ store_rep simWk (w_store (simServe simPut world5).2) a.
Proof.
  destruct sim_canonical5 as (a & Hrep & _). exists a.
  pose proof (serve_keeps simWk 5 simApi eq_refl sim_fuel sim_max a simExport world5 (simRequest_end _ _ _ _) Hrep) as He.
  pose proof (serve_keeps simWk 5 simApi eq_refl sim_fuel sim_max a simPut world5 (simRequest_end _ _ _ _) Hrep) as Hp.
  fold (simServe simExport world5) in He. fold (simServe simPut world5) in Hp.
  pose proof (answered_ok (simServe simPut world5) ltac:(by vm_compute)) as Hresp.
  assert (rs_status (answered (simServe simPut world5)) = StatusPreconditionFailed) as Hst by (by vm_compute).
  destruct (simServe simExport world5) as [r1 w1], (simServe simPut world5) as [r2 w2].
  cbn [fst snd] in Hresp |- *. split.
  - apply (proj1 He). apply (bool_decide_unpack _). by vm_compute.
  - apply (proj2 Hp _ Hresp); [by rewrite Hst|apply sim_trouble].
Defined.

Lemma created_reads_back_witness :
  exists rev document, readDocument simApi simPost = inr document /\
    answered (simServe simPost world1) = docCreated simDb simID4 rev /\
    answered (simServe simGet world4) = docAnswer document rev.
Proof.
  destruct sim_canonical1 as (a & Hrep & _).
  destruct (created_reads_back simWk 5 simApi eq_refl sim_fuel sim_max a world1 world4 simDb simPost simGet
    (answered (simServe simPost world1))) as (id & rev & document & _ & Hdoc & Hresp & Hget);
    [by split_and!; vm_compute|by vm_compute|apply simRequest_end|apply simRequest_end|exact Hrep
    |apply simServe_ok; by vm_compute|apply sim_trouble|by vm_compute|].
  assert (id = simID4) as ->.
  { unfold simID4, simLocation. rewrite Hresp. by vm_compute. }
  exists rev, document. split; [exact Hdoc|]. split; [exact Hresp|].
  assert (plainRequest "GET" [str "db"; simDb; simID4] simGet) as Hplain by (split_and!; by vm_compute).
  specialize (Hget Hplain). fold (simServe simGet world4) in Hget.
  unfold answered. destruct (simServe simGet world4) as [r2 w2]. destruct Hget as (resp2 & -> & [->|[Ht _]]); [reflexivity|].
  destruct (sim_trouble _ Ht).
Defined.

Lemma no_lost_update_witness :
  exists a, store_rep simWk (w_store world5) a /\ store_rep simWk (w_store (simServe simPut world5).2) a.
Proof.
  destruct sim_canonical1 as (a1 & Hrep1 & _).
  destruct (simServe_step a1 simPost world1 _ (simRequest_end _ _ _ _) Hrep1 (answered_ok (simServe simPost world1) ltac:(by vm_compute)))
    as (a & Hrep & _).
  assert (plainRequest "PUT" [str "db"; simDb; simID4] simPut) as Hplain by (split_and!; by vm_compute).
  assert (parseIfMatch (headerValues "If-Match" simPut) = Ok (MatchCond true false simRev)) as Hmatch by (by vm_compute).
  destruct (no_lost_update simWk 5 simApi eq_refl sim_fuel sim_max a world4 world5 simDb simID4 simRev simPut simPut
    (answered (simServe simPut world4))) as (a5 & Hrep5 & Hstale);
    [exact Hplain|by left|by vm_compute|by vm_compute|apply simRequest_end|apply simRequest_end|exact Hrep
    |exact Hmatch|exact Hmatch|apply simServe_ok; by vm_compute|apply sim_trouble|by vm_compute|].
  fold (simServe simPut world5) in Hstale. exists a5. split; [exact Hrep5|].
  destruct (simServe simPut world5) as [r w]. exact (proj1 Hstale).
Defined.

Lemma export_import_witness :
  exists a a' d ids, a !! simDb = Some d /\ imported a simDb (exportedDocs d) ids a' /\
    store_rep simWk (w_store (simServe simImport world6).2) a'.
Proof.
  destruct sim_canonical5 as (a & Hrep & Hcan).
  destruct (sim_exported a Hrep) as (d & Hd & Hne & Hcount).
  pose proof (export_import simWk 5 simApi eq_refl sim_fuel sim_max a d world5 world6 simDb simDb
    simExport simImport (answered (simServe simExport world5))) as Himp.
  do 2 (specialize (Himp ltac:(by split_and!; vm_compute))). do 2 (specialize (Himp ltac:(by vm_compute))).
  specialize (Himp (simRequest_end _ _ _ _) Hrep Hcan Hd Hne Hcount ltac:(by vm_compute)
    (simServe_ok simExport world5 ltac:(by vm_compute)) (sim_trouble _) ltac:(by vm_compute) ltac:(by vm_compute) eq_refl eq_refl eq_refl).
  rewrite (simServe_ok simImport world6) in Himp by (by vm_compute).
  destruct (Himp (sim_trouble _)) as (a' & Hrep' & [(ids & Hids & _)|(e & _ & He)]).
  - exists a, a', d, ids. split; [exact Hd|]. split; [exact Hids|exact Hrep'].
  - apply proj1 in He. pose proof (failBulk_status [] e) as Hst. rewrite <- He in Hst. vm_compute in Hst. by destruct Hst.
Defined.

(** The path reaches the handler, with the values of its segments. *)
Definition reaches (method : bytes) (parts : list bytes) (t : target) (vars : list bytes) : Prop :=
  let path := joinParts parts in
  uncleanPath path = false /\ cleanPath path = path /\ findRoute method path = (t, vars).

(** C40: routing: whatever the valid names, a request for a database, a document, a
    bulk transfer, the collection or the health check gets to the handler of its
    method, with the names as the values of the path, and a request with any other
    method, HEAD included, is refused as not allowed. *)
Theorem routes_correct n id method :
  validName n -> validID id ->
  reaches method [str "healthz"] (byMethod healthHandlers method) [] /\
  reaches method [str "db"] (byMethod collectionHandlers method) [] /\
  reaches method [str "db"; n] (byMethod databaseHandlers method) [n] /\
  reaches method [str "db"; n; id] (byMethod documentHandlers method) [n; id] /\
  reaches method [str "bulk"; n] (byMethod bulkHandlers method) [n].
Proof.
  intros Hn Hid. unfold reaches. cbv zeta.
  assert (forall s, validName s -> Forall plainSegment [s]) as Hone
    by (intros s Hs; constructor; [by apply validName_plain|constructor]).
  rewrite route_health, route_collection, route_database, route_document, route_bulk by done.
  split_and!; try done; apply plain_request; try done;
    first [by apply plainDatabase|by apply plainDocument|by apply plainBulk|by apply Hone].
Qed.

Lemma routes_correct_witness :
  reaches (str "PATCH") [str "db"; simDb; simID] TPatchDoc [simDb; simID] /\
  reaches (str "PATCH") [str "bulk"; simDb] TMethodNotAllowed [simDb].
Proof.
  destruct (routes_correct simDb simID (str "PATCH")) as (_ & _ & _ & Hdoc & Hbulk); [by vm_compute|by vm_compute|].
  split; [exact Hdoc|exact Hbulk].
Defined.
