(* ===== verification/MainTheorems.v ===== *)
(** * The process: theorems

    What a run of the server leaves on disk, and what the next one finds there. *)

From S2P Require Import Prelude GoErrors Codec Text Validation Keys Json Base64 Document Patch Url DbRequest.
From S2P Require Import Host Conn Crypto Wp Store StoreRep StoreSpec Range Cursor Query QueryFacts Bulk Flags Config Api Routes Main.
From S2P Require Import ApiFacts ApiSpec BulkRuns Serving Sim CryptoTheorems QueryTheorems SimApi.
From stdpp Require Import relations.

#[local] Open Scope Z_scope.

Section Runs.
Context {W : Type} `{ConnSpec W} `{CryptoSpec} `{JSONPathSpec} `{JSONPatch}.

(** What is on disk: nothing yet, or a store whose metadata is sealed under the master
    key, and under the wrapping key in it the databases and documents of the state. *)
Definition onDisk (mk : bytes) (c : gmap bytes bytes) (a : astate) : Prop :=
  c = ∅ /\ a = ∅ \/
  exists key value, sealedMeta mk value key /\ store_rep (StoreKey key (Some value)) c a.

Lemma sealedMeta_len mk value key : sealedMeta mk value key -> len key = keySize.
Proof. intros (salt & nonce & _ & _ & -> & _). apply len_hkdf. Qed.

Lemma store_rep_meta k c a : store_rep k c a -> c !! storeMetaKey = sk_meta k.
Proof. by intros (_ & ? & _). Qed.

(** Opening finds what is on disk. *)
Lemma opened_onDisk mk c a key c' :
  onDisk mk c a -> opened c mk key c' ->
  exists value, sealedMeta mk value key /\ store_rep (StoreKey key (Some value)) c' a.
Proof.
  intros Hdisk Ho. destruct (opened_again _ _ _ _ Ho) as (value & Hl & Hv). exists value. split; [done|].
  destruct Hdisk as [[-> ->]|(key0 & value0 & Hv0 & Hrep)].
  - assert (store_rep (StoreKey key None) ∅ ∅) as Hrep.
    { split; [done|]. split; [done|]. split; [intros k v Hv'; by apply lookup_empty_Some in Hv'|].
      intros sk e He. rewrite want_absent in He; [done|apply lookup_empty]. }
    destruct (opened_rep _ _ _ _ _ _ Hrep Ho) as [(_ & _ & Hr)| ->]; [by rewrite <- Hl|by rewrite lookup_empty in Hl].
  - destruct (opened_rep _ _ _ _ _ _ Hrep Ho) as [(-> & _)| ->].
    + apply store_rep_meta in Hrep. by rewrite lookup_empty in Hrep.
    + pose proof (store_rep_meta _ _ _ Hrep) as Hm. cbn in Hm. assert (value0 = value) as -> by congruence.
      by rewrite <- (sealedMeta_key _ _ _ _ Hv Hv0).
Qed.

Lemma openMiddle_onDisk mk c a c' : onDisk mk c a -> openMiddle c mk c' -> onDisk mk c' a.
Proof.
  intros Hdisk [->|[key Ho]]; [done|]. right. destruct (opened_onDisk _ _ _ _ _ Hdisk Ho) as (value & Hv & Hrep).
  by exists key, value.
Qed.

Lemma onDisk_accepted mk c a : len mk = keySize -> onDisk mk c a -> ~ refused c mk.
Proof.
  intros Hl [[-> _]|(key & value & Hv & Hrep)] [?|Hne Hn|value' Hv' Hs]; [done|done|by rewrite lookup_empty in Hv'|done|..];
    apply store_rep_meta in Hrep; cbn in Hrep; [congruence|]. apply (Hs key). by assert (value' = value) as -> by congruence.
Qed.

Lemma opened_accepted mk c key c' : opened c mk key c' -> ~ refused c mk.
Proof.
  intros Ho. destruct Ho as [value Hmk -> Hv|value Hmk Hm Hv].
  - intros [?|? ?|value' Hm' _]; [done|done|by rewrite lookup_empty in Hm'].
  - eapply opened_refused. by eapply opened_old.
Qed.

Variables (fuel : nat) (cfg : config) (buildVersion : bytes).
Context (Hfuel : (0 < fuel)%nat) (Hcfg : validConfig cfg).

(** The requests with their answers, in order, and the states they lead from and to:
    each request has one answer, which is what the specification of the API has for it
    in the state it met.  With trouble outside, an answer may be an error and the
    request have had its effect or none; where draws ran out there is no answer and no
    effect. *)
Inductive follows (ap : api) (bad : Prop) : list request -> list (res response) -> astate -> astate -> Prop :=
  | follows_nil a : follows ap bad [] [] a a
  | follows_answer r requests resp answers a a1 a' :
      serveSpec ap a r resp a1 -> follows ap bad requests answers a1 a' ->
      follows ap bad (r :: requests) (Ok resp :: answers) a a'
  | follows_trouble r requests resp answers a a1 a' :
      bad -> serveBad a r resp -> a1 = a \/ (exists resp', serveSpec ap a r resp' a1) ->
      follows ap bad requests answers a1 a' ->
      follows ap bad (r :: requests) (Ok resp :: answers) a a'
  | follows_exhausted r requests answers a a' :
      serveRetries r -> follows ap bad requests answers a a' ->
      follows ap bad (r :: requests) (OutOfFuel :: answers) a a'.

Lemma follows_mono ap (bad bad' : Prop) requests answers a a' :
  (bad -> bad') -> follows ap bad requests answers a a' -> follows ap bad' requests answers a a'.
Proof.
  intros Hb. induction 1; [constructor|by eapply follows_answer|eapply follows_trouble; eauto|by eapply follows_exhausted].
Qed.

Let api0 := newAPIWithBulk (cf_maxBodyBytes cfg) (cf_bulk cfg) buildVersion.

Lemma serveAll_follows (k : storeKey) ap requests a w :
  len k = keySize -> ap_maxBodyBytes ap = cf_maxBodyBytes cfg -> Forall wfEnd requests ->
  store_rep k (contents w) a ->
  let '(answers, w') := serveAll fuel k ap requests w in
  (faulty w -> faulty w') /\
  exists a', store_rep k (contents w') a' /\ follows ap (trouble w') requests answers a a'.
Proof.
  intros Hk Hap HF. revert w a. induction HF as [|r requests Hr _ IH]; intros w a Hrep; cbn [serveAll].
  { split; [done|]. exists a. split; [done|constructor]. }
  assert (0 <= ap_maxBodyBytes ap) as Hmax by (rewrite Hap; unfold validConfig in Hcfg; lia).
  pose proof (answers_serve k fuel ap a Hk Hfuel Hmax r Hr w Hrep) as Hs.
  destruct (serve k fuel ap r w) as [answer w1]. destruct Hs as (Hf1 & a1 & Hrep1 & Hs).
  specialize (IH w1 a1 Hrep1). destruct (serveAll fuel k ap requests w1) as [answers w2].
  destruct IH as (Hf2 & a' & Hrep' & Ha'). split; [auto|]. exists a'. split; [done|].
  destruct answer as [resp|e|]; [|done|].
  - destruct Hs as [Hs|(Ht & Hb & Hs)]; [by eapply follows_answer|]. eapply follows_trouble; [|done..].
    destruct Ht as [Ht|Ht]; [left; auto|by right].
  - destruct Hs as [Hret ->]. by eapply follows_exhausted.
Qed.

Lemma follows_stopped ap bad requests answers a a' : follows (stop ap) bad requests answers a a' -> a' = a.
Proof.
  assert (forall a r resp a', serveSpec (stop ap) a r resp a' -> a' = a) as Hs.
  { intros a0 r resp a1. unfold serveSpec. cbn. by intros [? ?]. }
  induction 1 as [a|r rs resp l a a1 a' Hsp _ IH|r rs resp l a a1 a' _ _ [->|[resp' Hsp]] _ IH|r rs l a a' _ _ IH]; [done|..|done].
  - by rewrite IH, (Hs _ _ _ _ Hsp).
  - done.
  - by rewrite IH, (Hs _ _ _ _ Hsp).
Qed.

Lemma follows_canonical ap bad requests answers a a' :
  follows ap bad requests answers a a' -> storesCanonical (ap_maxBodyBytes ap) a -> storesCanonical (ap_maxBodyBytes ap) a'.
Proof.
  induction 1 as [a|r rs resp l a a1 a' Hsp _ IH|r rs resp l a a1 a' _ _ [->|[resp' Hsp]] _ IH|r rs l a a' _ _ IH]; auto;
    intros Ha; apply IH; by eapply serveSpec_canonical.
Qed.

Definition wfEnding (e : ending) : Prop :=
  match e with ServeFailed _ => True | Signalled late _ _ _ => Forall wfEnd late end.

(** The requests that arrive while the server stops. *)
Definition lateRequests (e : ending) : list request :=
  match e with ServeFailed _ => [] | Signalled late _ _ _ => late end.

(** The server was closed, as it should be, and every connection in time. *)
Definition endsWell (e : ending) : bool :=
  match e with
  | ServeFailed err => errorsIs httpErrServerClosed err
  | Signalled _ (Some _) _ _ => false
  | Signalled _ None _ serveErr => errorsIs httpErrServerClosed serveErr
  end.

Definition endCode (e : ending) : Z := if endsWell e then 0 else 1.

(** What a run that has opened the store leads to. *)
Definition runs_to (early : list request) (e : ending) (bad : Prop) (a : astate) (answers : list (res response)) (a' : astate) : Prop :=
  exists answers1 answers2, answers = answers1 ++ answers2 /\
    follows api0 bad early answers1 a a' /\ follows (stop api0) bad (lateRequests e) answers2 a' a'.

Lemma session_ends wk early e w : exists answers err w',
  session fuel cfg buildVersion wk early e w = (Ok (answers, err), w') /\ exitCode err = endCode e.
Proof.
  unfold session, mbind, M_bind, ofVal. destruct (serveAll _ wk _ early w) as [l1 w1].
  destruct e as [err|late [sd|] cl se]; unfold endCode, endsWell.
  - eexists _, _, _. split; [reflexivity|]. by destruct (errorsIs _ err).
  - destruct (serveAll _ wk _ late w1) as [l2 w2]. eexists _, _, _. split; [reflexivity|]. unfold joinOpt. by destruct cl.
  - destruct (serveAll _ wk _ late w1) as [l2 w2]. eexists _, _, _. split; [reflexivity|]. by destruct (errorsIs _ se).
Qed.

Lemma session_follows (k : storeKey) early e a w :
  len k = keySize -> Forall wfEnd early -> wfEnding e -> store_rep k (contents w) a ->
  let '(r, w') := session fuel cfg buildVersion k early e w in
  (faulty w -> faulty w') /\ exists answers err a', r = Ok (answers, err) /\ store_rep k (contents w') a' /\
    runs_to early e (trouble w') a answers a'.
Proof.
  intros Hk HF He Hrep. unfold session. fold api0. unfold mbind, M_bind, ofVal.
  pose proof (serveAll_follows k api0 early a w Hk eq_refl HF Hrep) as Hearly.
  destruct (serveAll fuel k api0 early w) as [l1 w1]. destruct Hearly as (Hf1 & a1 & Hrep1 & Ha1).
  destruct e as [err|late shutdownErr closeErr serveErr].
  - split; [done|]. eexists _, _, a1. split; [reflexivity|]. split; [done|]. exists l1, []. rewrite app_nil_r.
    split; [done|]. split; [done|constructor].
  - pose proof (serveAll_follows k (stop api0) late a1 w1 Hk eq_refl He Hrep1) as Hlate.
    destruct (serveAll fuel k (stop api0) late w1) as [l2 w2]. destruct Hlate as (Hf2 & a2 & Hrep2 & Ha2).
    pose proof (follows_stopped _ _ _ _ _ _ Ha2) as ->. split; [auto|]. eexists _, _, a1. split; [reflexivity|].
    split; [done|]. exists l1, l2. split; [done|]. split; [|done]. eapply follows_mono; [|exact Ha1].
    intros [?|?]; [left; auto|by right].
Qed.

(** A run ends, and what it left. *)
Definition ranFrom (mk : bytes) (early : list request) (e : ending) (a : astate) (w' : W)
    (answers : list (res response)) (code : Z) : Prop :=
  (code = endCode e \/ trouble w' /\ code = 1) /\
  exists a', onDisk mk (contents w') a' /\ runs_to early e (trouble w') a answers a' /\
    (storesCanonical (cf_maxBodyBytes cfg) a -> storesCanonical (cf_maxBodyBytes cfg) a').

Lemma runs_to_mono (bad bad' : Prop) early e a answers a' :
  (bad -> bad') -> runs_to early e bad a answers a' -> runs_to early e bad' a answers a'.
Proof.
  intros Hb (l1 & l2 & -> & Ha1 & Ha2). exists l1, l2. split; [done|]. split; by eapply follows_mono.
Qed.

Lemma ran_ended mk (wk : bytes) value early e a a' (w w' : W) answers code :
  code = endCode e \/ trouble w' /\ code = 1 -> sealedMeta mk value wk ->
  store_rep (StoreKey wk (Some value)) (contents w) a' ->
  contents w' = contents w /\ (faulty w -> faulty w') ->
  runs_to early e (trouble w) a answers a' -> ranFrom mk early e a w' answers code.
Proof.
  intros Hcode Hv Hrep [Hc Hf] Hto. split; [done|]. exists a'. split.
  { right. exists wk, value. by rewrite Hc. }
  split; [eapply runs_to_mono; [|exact Hto]; intros [?|?]; [left; auto|by right]|].
  destruct Hto as (l1 & l2 & _ & Ha1 & _). by apply (follows_canonical api0 _ _ _ _ _ Ha1).
Qed.

Lemma run_ends file mk early e w :
  loadMasterKey file = Ok mk -> Forall wfEnd early -> wfEnding e ->
  let '(r, w') := run fuel cfg buildVersion file early e w in
  exists answers err, r = Ok (answers, err) /\
    (refused (contents w) mk -> contents w' = contents w /\ answers = [] /\ exitCode err = 1) /\
    (forall a, onDisk mk (contents w) a ->
      trouble w' /\ answers = [] /\ exitCode err = 1 /\ onDisk mk (contents w') a \/
      ranFrom mk early e a w' answers (exitCode err)).
Proof.
  intros Hfile HF He. unfold run. rewrite Hfile. unfold mbind, M_bind, catch.
  pose proof (triple_openStore (contents w) mk w eq_refl) as Hopen.
  destruct (openStore mk w) as [[wk|err|] w1]; destruct Hopen as (_ & Hopen); cbn [mret M_ret]; cycle 1.
  { eexists _, _. split; [reflexivity|]. destruct Hopen as [(Hc & Href & _)|((? & _ & Hr) & Hf & Hm)].
    - rewrite Hc. split; [done|]. intros a Hdisk. exfalso. by eapply onDisk_accepted; [eapply loadMasterKey_length| |].
    - split.
      + intros Href. destruct Hm as [->|[key Ho]]; [done|]. exfalso; by eapply opened_accepted.
      + intros a Hdisk. left. split; [by left|]. split; [done|]. split; [done|]. by eapply openMiddle_onDisk. }
  { by destruct Hopen as [?|((? & ? & _) & _)]. }
  destruct Hopen as [Ho|((? & ? & _) & _)]; [|done]. unfold openOutcome in Ho.
  pose proof (session_follows (StoreKey wk (contents w1 !! storeMetaKey)) early e) as Hs. cbn [sk_wk] in Hs.
  destruct (session_ends wk early e w1) as (answers & runErr & w2 & E & Hcode). rewrite E.
  pose proof (reads_closeStore (contents w2) noExit w2 eq_refl) as Hclose.
  destruct (closeStore w2) as [c w3] eqn:Ec. destruct Hclose as [[Hc Hf3] Hr].
  destruct c as [[]|cerr|]; [| |done]; (eexists _, _; split; [reflexivity|]); rewrite Hc;
    (split; [intros Href; exfalso; by eapply opened_accepted|]); intros a Hdisk; right;
    destruct (opened_onDisk _ _ _ _ _ Hdisk Ho) as (value & Hv & Hrep);
    apply store_rep_meta in Hrep as Hmeta; rewrite Hmeta in Hs;
    specialize (Hs a w1 (sealedMeta_len _ _ _ Hv) HF He Hrep); rewrite E in Hs;
    destruct Hs as (_ & answers' & err' & a' & [= <- <-] & Hrep' & Hto).
  - eapply ran_ended; [by left|exact Hv|exact Hrep'|done|exact Hto].
  - eapply ran_ended; [|exact Hv|exact Hrep'|done|exact Hto]. right.
    destruct Hr as [[Hfaulty _]|[]]. split; [by left|by destruct runErr].
Qed.
End Runs.

Section Process.
Context {W : Type} `{ConnSpec W} `{CryptoSpec} `{JSONPathSpec} `{JSONPatch}.
Variables (fuel : nat) (buildVersion : bytes) (readFile : bytes -> error + bytes).
Context (Hfuel : (0 < fuel)%nat).

Lemma parseConfig_total args : parseConfig args <> OutOfFuel.
Proof.
  unfold parseConfig. destruct (parseFlags _ _ _) as [[cfg rest]|]; [|done]. unfold checkConfig. by repeat case_match.
Qed.

Lemma loadMasterKey_total file : loadMasterKey file <> OutOfFuel.
Proof. unfold loadMasterKey. by repeat case_match. Qed.

Lemma main_run args early e (w : W) cfg :
  parseConfig args = Ok cfg ->
  main fuel buildVersion readFile args early e w =
  let '(r, w') := run fuel cfg buildVersion (readFile (cf_keyFile cfg)) early e w in
  ('(answers, err) ← r; Ok (answers, exitCode err), w').
Proof.
  intros Hcfg. unfold main. rewrite Hcfg. unfold mbind, M_bind.
  by destruct (run _ _ _ _ _ _ w) as [[[answers err]|?|] w'].
Qed.

(** C22: What a run of the server does, whatever its arguments, key file, disk, requests
    and ending: it exits, with 0 or 1.  Bad arguments or a bad key file, or a data
    directory its master key does not open, exit with 1, answer nothing and leave the
    disk as it was.  From an empty or well-formed store it opens, answers every request
    in order as the specification of the API does in the state the requests before left,
    answers the ones that come while it stops as a stopping server does, and leaves on
    disk exactly the state those answers lead to, sealed under the same master key, so
    that the next run continues from there; it exits with 0 just when the server was
    closed as it should be and in time.  Trouble outside may keep the store from being
    opened, may turn an answer into an error and may make the exit code 1, and leaves
    a well-formed store all the same. *)
Theorem main_correct args early e (w : W) :
  Forall wfEnd early -> wfEnding e ->
  let '(r, w') := main fuel buildVersion readFile args early e w in
  exists answers code, r = Ok (answers, code) /\ (code = 0 \/ code = 1) /\
    ((exists err, parseConfig args = Err err) -> answers = [] /\ code = 1 /\ w' = w) /\
    (forall cfg, parseConfig args = Ok cfg -> validConfig cfg /\
      ((exists err, loadMasterKey (readFile (cf_keyFile cfg)) = Err err) -> answers = [] /\ code = 1 /\ w' = w) /\
      (forall mk, loadMasterKey (readFile (cf_keyFile cfg)) = Ok mk ->
        (refused (contents w) mk -> answers = [] /\ code = 1 /\ contents w' = contents w) /\
        (forall a, onDisk mk (contents w) a ->
          trouble w' /\ answers = [] /\ code = 1 /\ onDisk mk (contents w') a \/
          ranFrom cfg buildVersion mk early e a w' answers code))).
Proof.
  intros HF He. destruct (parseConfig args) as [cfg|err|] eqn:Hcfg; [|unfold main; rewrite Hcfg|by apply parseConfig_total in Hcfg].
  2: { exists [], 1. split; [done|]. split; [by right|]. split; [done|done]. }
  pose proof (parseConfig_valid _ _ Hcfg) as Hvalid. rewrite (main_run _ _ _ _ _ Hcfg).
  destruct (loadMasterKey (readFile (cf_keyFile cfg))) as [mk|err|] eqn:Hmk; [..|by apply loadMasterKey_total in Hmk].
  - pose proof (run_ends fuel cfg buildVersion Hfuel Hvalid _ mk early e w Hmk HF He) as Hrun.
    destruct (run _ _ _ _ _ _ w) as [r w']. destruct Hrun as (answers & err & -> & Href & Hran).
    exists answers, (exitCode err). split; [done|]. split; [destruct err; [by right|by left]|]. split; [by intros [? ?]|].
    intros cfg' [= <-]. split; [done|]. rewrite Hmk. split; [by intros [? ?]|]. intros mk' [= <-].
    split; [intros Hr; destruct (Href Hr) as (? & ? & ?); auto|exact Hran].
  - unfold run. rewrite Hmk. exists [], 1. split; [done|]. split; [by right|]. split; [by intros [? ?]|].
    intros cfg' [= <-]. rewrite Hmk. split; [done|]. split; [done|]. by intros mk' [=].
Qed.
End Process.

(** ** A run, and the next *)

Definition simKeyFile : error + bytes := inr (stdEncode simWk ++ [x0a]).
Definition simCreateDB : request :=
  simRequest (str "POST") (str "/db") jsonType (str "{" ++ [x22] ++ str "name" ++ [x22; x3a; x22] ++ str "books" ++ [x22] ++ str "}").
(** The file the arguments of [simConfig] name. *)
Definition simFiles (path : bytes) : error + bytes :=
  if bool_decide (path = cf_keyFile simConfig) then simKeyFile else inl EText.
Definition simMain : world -> res (list (res response) * Z) * world :=
  main 5 (selectVersion [] []) simFiles (configArgs simConfig) [simCreateDB; simPost]
    (Signalled [simGet] None None httpErrServerClosed).
Definition statuses (r : res (list (res response) * Z)) : option (list Z * Z) :=
  match r with
  | Ok (answers, code) => Some ((fun answer => match answer with Ok resp => rs_status resp | _ => 0 end) <$> answers, code)
  | _ => None
  end.

Lemma simMain_hyps :
  Forall wfEnd [simCreateDB; simPost] /\ wfEnding (Signalled [simGet] None None httpErrServerClosed).
Proof.
  assert (forall m p h b, wfEnd (simRequest m p h b)) as Hr by apply simRequest_end.
  split; [constructor; [apply Hr|constructor; [apply Hr|constructor]]|constructor; [apply Hr|constructor]].
Qed.

(** The server is started on an empty disk, stopped, and started again: the second run
    finds the database of the first, and each refuses the request that comes too late. *)
Lemma main_correct_witness :
  statuses (simMain world0).1 = Some ([201; 201; 503], 0) /\
  statuses (simMain (simMain world0).2).1 = Some ([409; 201; 503], 0) /\
  exists answers1 answers2 a1,
    ranFrom simConfig (selectVersion [] []) simWk [simCreateDB; simPost] (Signalled [simGet] None None httpErrServerClosed)
      ∅ (simMain world0).2 answers1 0 /\
    onDisk simWk (contents (simMain world0).2) a1 /\
    ranFrom simConfig (selectVersion [] []) simWk [simCreateDB; simPost] (Signalled [simGet] None None httpErrServerClosed)
      a1 (simMain (simMain world0).2).2 answers2 0.
Proof.
  assert (statuses (simMain world0).1 = Some ([201; 201; 503], 0)) as Hs1 by (by vm_compute).
  assert (statuses (simMain (simMain world0).2).1 = Some ([409; 201; 503], 0)) as Hs2 by (by vm_compute).
  split; [exact Hs1|]. split; [exact Hs2|]. destruct simMain_hyps as (HF & He).
  assert (parseConfig (configArgs simConfig) = Ok simConfig) as Hcfg by (by vm_compute).
  assert (loadMasterKey (simFiles (cf_keyFile simConfig)) = Ok (simWk : bytes)) as Hmk by (by vm_compute).
  pose proof (main_correct 5 (selectVersion [] []) simFiles sim_fuel (configArgs simConfig) _ _ world0 HF He) as Hrun1.
  fold (simMain world0) in Hrun1. destruct (simMain world0) as [r1 w1]. cbn [fst snd] in *.
  destruct Hrun1 as (l1 & code1 & -> & _ & _ & Hrun1). cbn in Hs1. assert (code1 = 0) as -> by congruence.
  destruct (Hrun1 _ Hcfg) as (_ & _ & Hopens1). destruct (Hopens1 _ Hmk) as [_ Hdisks1].
  assert (onDisk simWk (contents world0) ∅) as Hdisk0 by (left; split; [by vm_compute|reflexivity]).
  apply Hdisks1 in Hdisk0 as [(Ht & _)|Hran1]; [destruct (sim_trouble _ Ht)|].
  destruct (proj2 Hran1) as (a1 & Hdisk & _).
  pose proof (main_correct 5 (selectVersion [] []) simFiles sim_fuel (configArgs simConfig) _ _ w1 HF He) as Hrun2.
  fold (simMain w1) in Hrun2. destruct (simMain w1) as [r2 w2]. cbn [fst snd] in *.
  destruct Hrun2 as (l2 & code2 & -> & _ & _ & Hrun2). cbn in Hs2. assert (code2 = 0) as -> by congruence.
  pose proof (proj2 (proj2 (proj2 (Hrun2 _ Hcfg)) _ Hmk) a1 Hdisk) as [(Ht & _)|Hran2]; [destruct (sim_trouble _ Ht)|].
  exists l1, l2, a1. split; [exact Hran1|]. split; [exact Hdisk|exact Hran2].
Defined.
