(* ===== verification/ConcurrentTheorems.v ===== *)
(** * Concurrent operations: theorems

    What the operations of the store touch, and what runs of them under the locks do. *)

From S2P Require Import Prelude GoErrors Codec Text Validation Keys Json IndexValue Host Crypto Store StoreRep Range.
From S2P Require Import Cursor Query Locks Serial Shared Footprint Concurrent Sim QueryTheorems.
From stdpp Require Import relations.

#[local] Open Scope Z_scope.

Section Theorems.
Context {E : Type} `{Env E} `{CR : Crypto} `{JP : JSONPath}.

(** C17: the operations of the store touch what they hold the locks of: whatever fails,
    on two contents that agree on the keys its accesses read an operation has the same
    result, and it changes both by the same batch, of keys its accesses write. *)
Theorem store_confined wk (o : storeOp E) c c' e :
  quietOp o -> (forall k, readable (kept (planOf o)) k -> c !! k = c' !! k) ->
  exists r b e',
    codeOf wk o (c, e) = (r, (applyBatch c b, e')) /\ codeOf wk o (c', e) = (r, (applyBatch c' b, e')) /\
    forall k, batchKeys b k -> writable (kept (planOf o)) k.
Proof.
  intros Hq Hc. destruct (confined_codeOf wk o Hq c c' e Hc) as (r & b & e' & E1 & E2 & Hb & _).
  exists r, b, e'. split; [done|]. split; [done|]. destruct Hb as [->|(P & [= <-] & HP)]; [|done]. by intros k ?%Exists_nil.
Qed.

Lemma valid_planned (ops : list (storeOp E)) :
  Forall validOp ops -> planned (map (fun o => (planOf o, whole)) ops) validAccess.
Proof.
  intros HV c x (o & -> & Ho)%list_elem_of_fmap Hx. rewrite Forall_forall in HV. destruct (HV o Ho) as [_ Hv].
  destruct (planOf o) as [n|n|n id|n taken ids]; [..|rewrite accessesOf_import in Hx]; unfold validAccess.
  - apply list_elem_of_singleton in Hx as ->. by split.
  - change (x ∈ [ReadDb n; ViewDocs n]) in Hx. rewrite !elem_of_cons in Hx.
    destruct Hx as [->|[->|?%elem_of_nil]]; [by split..|done].
  - destruct Hv as [Hn Hid]. change (x ∈ [ReadDb n; ReadDocs n [id]; WriteDocs n [id]]) in Hx. rewrite !elem_of_cons in Hx. destruct Hx as [->|[->|[->|?%elem_of_nil]]]; [by split|..|done];
      (split; [done|by repeat constructor]).
  - destruct Hv as (Hn & Ht & Hids). rewrite elem_of_cons, elem_of_app, list_elem_of_fmap, !elem_of_cons in Hx.
    destruct Hx as [->|[(draw & -> & Hd)|[->|[->|?%elem_of_nil]]]]; [by split| |by split|by split|done].
    split; [done|]. rewrite Forall_forall in Ht. exact (Ht draw Hd).
Qed.

Lemma lookup_opStates (envs : list E) i e : envs !! i = Some e -> opStates envs !! i = Some (OpState [] e None).
Proof. intros He. unfold opStates. rewrite lookup_map_seq_0, list_lookup_fmap, He. done. Qed.

(** C16: concurrent operations on the store are serializable: a complete run of them under
    their locks, in which each sees the keys as they are when it accesses them, leaves
    the contents and gives every operation the answer that the same operations have that
    are run one after another, in the order of their last accesses; an operation that
    ended before another began is before it. *)
Theorem store_serialize wk (ops : list (storeOp E)) envs tr s c :
  Forall validOp ops -> length envs = length ops ->
  run (start (map (fun o => (planOf o, whole)) ops)) tr s -> finished s ->
  let '(c1, states) := effect (exec wk ops) tr (c, opStates envs) in
  let '(answers, c2) := inTurn wk ops (serialOrder tr) envs c in
  c1 = c2 /\ Permutation answers.*1 (seq 0 (length ops)) /\
  (forall i r, (i, r) ∈ answers -> answerOf states i = Some r) /\
  (forall tr1 tr2 i j, tr = tr1 ++ tr2 -> i ∈ tr1.*1 -> i ∉ tr2.*1 -> j ∈ tr2.*1 -> precedes answers.*1 i j).
Proof.
  intros HV Hlen Hrun Hfin. pose proof (valid_planned ops HV) as Hplanned.
  rewrite (finished_effect _ _ _ Hrun Hfin (exec wk ops) validAccess) by (done || apply exec_commuting).
  assert (forall i, i ∈ serialOrder tr <-> (i < length ops)%nat) as Horder.
  { intros i. split.
    - intros Hi. pose proof (serialOrder_known _ _ _ Hrun i Hi) as Hlt. by rewrite length_map in Hlt.
    - intros [o Ho]%lookup_lt_is_Some_2. eapply (finished_order _ _ _ Hrun Hfin i (planOf o, whole)).
      + by rewrite list_lookup_fmap, Ho.
      + intros En. destruct (kept_shape o) as (l & x & Ek & _). unfold kept in Ek. rewrite En in Ek. by destruct l. }
  pose proof (effect_serial wk ops envs (serialOrder tr) c (opStates envs)) as Hs.
  destruct (effect _ _ _) as [c1 states]. destruct (inTurn _ _ _ _ _) as [answers c2].
  destruct Hs as (-> & Ho & Hans & _).
  - eapply Forall_impl; [exact HV|]. by intros o [? _].
  - apply NoDup_remove_dups.
  - intros i. apply Horder.
  - done.
  - intros i e _. apply lookup_opStates.
  - rewrite Ho. split; [done|]. split; [|split; [done|]].
    + apply NoDup_Permutation; [apply NoDup_remove_dups|apply NoDup_seq|]. intros i. rewrite Horder, elem_of_seq. lia.
    + intros tr1 tr2 i j ->. apply serialOrder_precedes.
Qed.
End Theorems.

(** ** A run *)

(** Nothing fails, and the clock is the random source. *)
#[global] Instance clockEnv : Env Z := {|
  envFault e := (None, e);
  envApplied e := (false, e);
  envStop e := (None, e);
  envRand n e := (inr (putBE n e), e + 1);
  envNow e := (1700000000000 + e, e + 1);
  envRequest e := (None, e);
  envExpired e := (false, e);
  envBatchLen b := 12 + len b;
|}.

Definition shelf : gmap bytes bytes := w_store world1.
Definition otherID : bytes := formatID (putBE 16 9) 1700000000001.

(** Two documents are created while the database is listed. *)
Definition shelfOps : list (storeOp Z) :=
  [OpCreateDoc 1 simDb simID simJson; OpCreateDoc 1 simDb otherID simJson; OpListDocs simDb 10 []].

Definition shelfStart : system := start (map (fun o => (planOf o, whole)) shelfOps).
Definition shelfRun : option (trace * system) := schedule simSteps shelfStart.
Definition shelfTrace : trace := match shelfRun with Some (tr, _) => tr | None => [] end.
Definition shelfEnd : system := match shelfRun with Some (_, s) => s | None => [] end.

(** The document is the database's record, its definitions and the keys of a document
    with its entries: a batch that leaves the rest. *)
Definition createOp : storeOp Z := OpCreateDoc 1 simDb simID simJson.
Definition otherKey : bytes := docKey simDb otherID.

(** The other document matters neither way. *)
Lemma store_confined_witness :
  exists r b e',
    codeOf simWk createOp (shelf, 5) = (r, (applyBatch shelf b, e')) /\
    codeOf simWk createOp (<[otherKey := []]> shelf, 5) = (r, (applyBatch (<[otherKey := []]> shelf) b, e')) /\
    ~ batchKeys b otherKey.
Proof.
  assert (bool_decide (readable (kept (planOf createOp)) otherKey) = false) as Hr by (by vm_compute).
  assert (bool_decide (writable (kept (planOf createOp)) otherKey) = false) as Hw by (by vm_compute).
  apply bool_decide_eq_false in Hr, Hw.
  destruct (store_confined simWk createOp shelf (<[otherKey := []]> shelf) 5 I) as (r & b & e' & E1 & E2 & Hb).
  - intros k Hk. symmetry. apply lookup_insert_ne. intros <-. by apply Hr.
  - exists r, b, e'. split; [exact E1|]. split; [exact E2|]. intros Hk. by apply Hw, Hb.
Defined.

(** The list has the document that was created first, and not the other. *)
Lemma store_serialize_witness :
  answerOf (effect (exec simWk shelfOps) shelfTrace (shelf, opStates [5; 50; 90])).2 2
    = Some (Ok (IDsAnswer [otherID] false)).
Proof.
  assert (schedule simSteps shelfStart = Some (shelfTrace, shelfEnd)) as Er by (by vm_compute).
  assert (finished shelfEnd) as Hfin by (vm_compute; repeat constructor).
  assert (Forall validOp shelfOps) as HV by (repeat constructor; by vm_compute).
  assert ((2%nat, Ok (IDsAnswer [otherID] false)) ∈ (inTurn simWk shelfOps (serialOrder shelfTrace) [5; 50; 90] shelf).1) as Ha.
  { vm_compute. right. left. }
  pose proof (store_serialize simWk shelfOps [5; 50; 90] shelfTrace shelfEnd shelf HV eq_refl
    (schedule_run simSteps _ [] _ shelfTrace shelfEnd (run_start _) Er) Hfin) as Hs.
  destruct (effect _ _ _) as [c1 states]. destruct (inTurn _ _ _ _ _) as [answers c2].
  destruct Hs as (_ & _ & Hans & _). by apply Hans.
Defined.
